(* ===== verification/_CoqProject ===== *)
-Q . S2P
Prelude.v
Effects.v
Bytes.v
RaftBatch.v
RaftMachine.v
RaftCluster.v
RaftTheorems.v
StorageKeys.v
Database.v
RocksRaft.v
PayloadCrypto.v
Types.v
Expr.v
Coverage.v
Config.v
WorkflowDef.v
Routing.v
Text.v
Evolve.v
Activation.v
Cases.v
Decide.v
Simulation.v
MultiInstance.v
Invariant.v
Loop.v
Decisions.v
CaseSpec.v
Instance.v
Errors.v
Examples.v
InstanceTheorems.v
DefinitionTheorems.v
CaseTheorems.v
Findings.v
Credits.v
Authz.v
AuthzBundle.v
Governance.v
Outbox.v
BoundaryTimer.v
Ports.v
Engine.v
EngineSpec.v
Wire.v
EventCodec.v
SnapshotCodec.v
Boundary.v
BoundaryStore.v
BoundaryLeases.v
BoundarySpec.v
BoundaryProofs.v
BoundaryDispatch.v
Emission.v
MemoryStore.v
RocksStore.v
RocksSpec.v
RocksProofs.v
RocksExamples.v
RocksOutbox.v
ReplicatedStore.v
RaftStore.v
TaskTypes.v
LocalTasks.v
LocalProofs.v
TaskDispatch.v
RemoteTasks.v
RemoteProofs.v
RemoteListing.v
RemoteLog.v
RemoteNode.v
RemoteExamples.v
RocksTheorems.v
EngineTheorems.v
OutboxTheorems.v
CodecTheorems.v
BoundaryTheorems.v
TimerTheorems.v
TaskTheorems.v
LocalTheorems.v
