(* ===== verification/Prelude.v ===== *)
(** * A verification library for the BPMP workflow engine

    The BPMP platform runs BPMN processes, DMN decision tables and CMMN cases
    as event-sourced workflow instances. Its deterministic core is the crate
    [bpmp-domain-core]: a compiled workflow definition is validated once by
    [WorkflowDefinition::new_with_execution_contracts]; afterwards every
    command goes through the pure function [decide], which reads the
    definition, the instance state, a configuration snapshot and the facts of
    the caller and returns the domain events to append; the pure function
    [evolve] applies one event to the state, and [rehydrate] replays a log on
    a snapshot.

    The engine ([apps/rust/bpmp-engine]) wraps the core. A command is
    authorized, its instance is loaded from a store, [decide] runs, and the
    events are stamped and committed with optimistic concurrency, an
    idempotency record, an authorization audit, sometimes a snapshot, and one
    outbox record per event. Events and snapshots are stored and sent as
    protocol messages. A publisher sends the outbox to a broker, at least once
    and in order; a boundary runtime projects the committed events into timers
    and subscriptions and dispatches what falls due back into the engine; a
    local task runtime executes the service and script tasks that events
    activate, and puts those it does not implement in a queue for remote
    workers, who hold them under leases. In
    production the store is a RocksDB database on every node of a cluster: a
    commit is prepared as a batch of conditions and mutations, consensus puts
    it in a log, and the replicated state machine of each node applies the log.
    This library models the core, this path from command to replicated log,
    broker and task queue, and the engine's credit ledger, authorization and governance
    domains, and proves what they rely on from each other.

    ** Which file models which part

    The core, below [src/crates/bpmp-domain-core/src/]:

    - [Prelude] (this file): the result type of fallible Rust code with its
      error monad, machine-width arithmetic, the part of the Rust standard
      library the core calls (trimming, integer parsing, ordered maps and
      sets), the tactics and the generic lemmas.
    - [Effects]: programs that call ports. A finite tree of operations, its
      runs against a handler, pools of such programs interleaved with an
      environment, and a rely-guarantee logic for them.
    - [Types]: the data of [workflow.rs]: definitions, commands, events, the
      instance state, the errors; and the identifiers of [identifiers.rs].
    - [Expr]: guards, boolean expressions, gateway branch selection
      ([select_transition], [select_transitions]) and decision tables.
    - [Coverage]: the static checks of gateways and tables
      ([validate_gateway], the three coverage proofs, ...).
    - [Config]: [configuration.rs], the validated engine configuration.
    - [WorkflowDef]: the constructor of workflow definitions with all its
      checks, the reachability search, the accessors; [definition_ok] collects
      what construction guarantees.
    - [Routing]: the struct [RoutingState] and its methods.
    - [Text]: facts on strings the invariants need (scope instance ids).
    - [Evolve]: [evolve], [rehydrate].
    - [Activation]: [activation_events], the loop that follows automatic
      transitions, one definition per node kind; multi-instance start and
      boundary arming.
    - [Cases]: [activate_case], [evaluate_case_sentries].
    - [Decide]: [decide], one definition per command arm.
    - [Simulation], [MultiInstance], [Invariant], [Loop], [Decisions],
      [CaseSpec], [Instance], [Errors]: the lemmas, in this order: replaying
      the activation loop, the loop invariant of multi-instances, the routing
      invariant, the activation loop as a whole, each decision, cases,
      reachable instance states, unreachable errors.
    - [Examples]: a concrete definition and run, on which the theorems'
      hypotheses are shown to hold.
    - [InstanceTheorems], [DefinitionTheorems], [CaseTheorems], [Findings]:
      the theorems on the core.

    The engine, below [src/apps/rust/bpmp-engine/src/]:

    - [Ports]: the records and errors of [ports.rs] and [application.rs]; the
      store port as a class of operations, and [LawfulStore], what its clients
      rely on, stated on an abstract view of the store.
    - [Engine]: [application.rs], the command handler, over any store.
      [EngineSpec]: handlers that interleave their loads and commits in any
      order, and the invariant of the store they keep.
    - [Wire], [EventCodec], [SnapshotCodec]: the protocol messages of
      [src/gen/rust/bpmp/engine/v1/], [event_codec.rs], [snapshot_codec.rs],
      with the exact conditions under which a value survives the round trip.
      [Emission]: what [decide] emits and [evolve] stores satisfies them.
    - [Outbox]: [outbox.rs] and the worker loop of
      [src/apps/rust/bpmp-engine-server/src/linux_runtime.rs], as programs
      over the store, broker and clock ports.
    - [MemoryStore]: [memory.rs], an instance of both store interfaces.
    - [BoundaryTimer], [Boundary], [BoundaryDispatch]: [boundary_runtime.rs]:
      timer expressions, the projection of the log, the dispatchers, as
      programs over the ports. [BoundaryStore], [BoundaryLeases]: its store in
      [memory.rs] and the life of a lease. [BoundarySpec], [BoundaryProofs]:
      the armed boundary events of an instance, and the lemmas.
    - [EngineTheorems], [OutboxTheorems], [CodecTheorems], [BoundaryTheorems],
      [TimerTheorems]: the theorems.
    - [Credits]: [dispatch_credit.rs], the credit ledger of remote workers.
    - [TaskTypes], [LocalTasks]: the data of [local_task_runtime.rs] and
      [remote_task.rs], the local task runtime with its retries and its
      checkpoints, as programs over the ports; [LocalProofs]: its invariant.
      [TaskDispatch]: the dispatchers of
      [src/apps/rust/bpmp-engine-server/src/linux_runtime.rs] that complete a
      task through the command handler. [LocalTheorems].

    Storage and replication:

    - [Bytes]: fixed-width big-endian numbers and framed byte strings.
    - [RaftBatch], [RaftMachine]: [src/crates/bpmp-raft-state-machine]: batches
      with their canonical bytes, conditions and limits, the storage port
      [AtomicStateStorage] with its laws, the storage in memory, the state
      machine, its snapshots and their files. [RaftCluster]: nodes that apply
      one log, exchange snapshots, crash and restart. [RaftTheorems].
    - [StorageKeys], [Database], [RocksRaft], [RocksStore]:
      [src/crates/bpmp-adapter-rocksdb/src/rocks.rs] over a class of databases
      with gets, ordered iterations and atomic write batches: keys, the storage
      of the state machine, the workflow store and its outbox.
    - [PayloadCrypto]: [src/crates/bpmp-payload-crypto].
    - [RocksSpec]: when a database represents an abstract store; [RocksProofs],
      [RocksOutbox]: the operations keep that relation. [ReplicatedStore]: the
      serial history of commits a log carries out. [RaftStore]:
      [src/apps/rust/bpmp-engine-server/src/raft_runtime.rs], the commit loop of
      a node. [RocksExamples]: a database, a cipher and a commit to evaluate.
      [RocksTheorems].
    - [RemoteTasks]: the queue of remote tasks in [rocks.rs] and
      [raft_runtime.rs]: records, indexes, prepared batches, listings, and the
      operations of a node. [RemoteProofs]: the invariant of the queue and what
      each batch does to it; [RemoteListing]: the listings; [RemoteLog]: the
      life of a task along a log; [RemoteNode]: the operations of a node while
      the log grows. [RemoteExamples], [TaskTheorems].

    Other crates:

    - [Authz]: policy evaluation of [src/crates/bpmp-authz-engine].
      [AuthzBundle]: the signed artifacts of [src/crates/bpmp-authz-contracts].
    - [Governance]: [src/crates/bpmp-governance-domain], approvals and the
      compensation ledger.

    ** How the model corresponds to the code

    A Rust function is a definition of the same name, prefixed by its type
    where two types have a method of that name; a method that mutates its
    receiver returns the new value; a function that pushes to the vector of
    events returns what it pushes. [Result] is [res] with the error type of
    the source; a panic ([expect], arithmetic overflow) is the third
    constructor [Panic], so that the absence of panics is a theorem. Strings
    are byte strings, and [trim] strips exactly the Unicode white space that
    Rust strips, read from its UTF-8 encoding. [u32], [u64] and [usize] are
    [N] and [i64] is [Z], with the checked, saturating or overflowing
    operation of the source written out; [usize] has 64 bits. [BTreeMap] and
    [BTreeSet] are finite maps and sets that iterate in the order of their
    keys ([btree_iter]), which is the byte order of the strings.
    [sort_unstable_by_key] is a stable merge sort on the same key: two
    intervals with equal keys are merely swapped, and can differ only in an
    absent lower bound against [i64::MIN].
    [decide] is called with the values the identifiers' constructors accept;
    the theorems do not need that, and hold for all strings.

    Code of other packages is a parameter: the byte formats of [prost] and
    [serde_json], SHA-256, Ed25519 and AES-GCM, the identity and configuration
    providers, the broker (any relation between its state, a record and an
    answer), the clock, RocksDB (a class of operations with laws, under which a
    failed write may have been made) and [openraft] (the committed log, and how
    waiting for a proposal ends). What a theorem needs of them is a hypothesis
    of the theorem or a law of a class, and its witness instantiates it.

    A Rust function that is split here into steps keeps one entry in the map
    from definitions to source lines, that of the whole function, unless it is
    too long to be read at once; constants and one-line accessors have none.

    ** What the theorems show

    - Instances: every state reachable by decisions, under any valid
      configuration, satisfies [state_inv]; replaying the events of the
      activation loop gives exactly the routing state the loop computed (the
      working copy and the event log never disagree); a decision leaves an
      instance with work outstanding or completes it, never neither nor both;
      no decision panics; the errors that report internal inconsistencies do
      not occur; boundary events are armed exactly while their activity runs,
      and an interrupting one ends all of its activity's work; multi-instance
      loops keep their books; limits, event times, terminal states, snapshots.
    - Definitions: what construction guarantees; the reachability search
      terminates and is exact; the branch a gateway takes; what each coverage
      proof guarantees at run time; decision tables; configurations.
    - Cases: plan items match the model, one round of sentries computes the
      status each item should have, items only move forward.
    - The engine: whatever handlers interleave on one store, each stream is
      the serial history of its commits; what a handler loads is the state
      its events replay to; a repeated command commits once; event ids are
      unique; each event has its audit record; with the in-memory store no
      handler panics.
    - Publication: a record at or below the checkpoint has been acknowledged,
      none is sent before its predecessors are acknowledged, under any broker
      and any interleaving of publishers and commits; with a broker that
      answers, the outbox drains; composed with the engine, what was committed
      is what is published.
    - Boundary events: once the projector has caught up, the boundary store
      holds exactly the armed boundary events of the engine; a firing takes
      effect once, an overtaken claim is refused; timer expressions.
    - Replication: all nodes hold what a prefix of the log specifies; a batch is
      applied as a whole or not at all, a command at most once; the digest binds
      the batch; snapshot files stay within their budget.
    - The durable store: a RocksDB database with its encrypted records is the
      abstract store of the engine, for loads, look-ups, commits and the outbox;
      a batch that was prepared on one state and is applied on another is a
      commit the latter accepts, or changes nothing, so that the databases of a
      cluster are serial histories of accepted commits; what the commit loop of
      a node answers stands in that history.
    - Tasks: what the checkpoint of the local runtime has passed was completed or
      enqueued, under any answers of the ports and any interleaving of workers
      and commits; attempts follow the policy; a completion that is sent again
      changes nothing. Along any log, a lease of a remote task is ended at most
      once and only while it stands; the listings are exactly the tasks that are
      ready or whose lease ran out; what a node answers stands in the log; and
      commits and operations on tasks can share one log without disturbing each
      other.
    - Codecs: the exact condition for an event to survive the round trip;
      committed events satisfy it; snapshots of settled states decode to
      themselves.
    - Ledger, authorization, governance: the credit ledger's bounds and its
      refinement of the dispatch history; a policy decision is exactly its
      specification; signed bundles; dual control of aborts; what the ledger
      digest binds.
    - Findings: places where the code departs from its own comments, names or
      messages, each evaluated on a concrete input or proved in general ([Findings], the
      ends of [CodecTheorems] and [TimerTheorems], and in [TaskTheorems] and
      [LocalTheorems] the theorems on lost races, concurrent listings and tasks
      that block the runtime).

    The theorems on instances assume [plain_scopes]: no sub-process id
    contains a slash. Without it scope instance ids are ambiguous; [Findings]
    shows what then goes wrong.

    ** Recursion and bounds

    Two loops of the source are not structural. [validate_reachability] is
    [reach_loop] with the fuel [reach_fuel], one more than the number of edges
    that can ever be enqueued; [reach_loop_total] proves that it is enough, so
    the fuel cannot be observed. [activation_events] carries its own bound in
    the source (four times the number of nodes, at least one): the fuel of
    [activation_loop] is that bound, and running out of it is the error the
    source returns. The retry loop of the publisher counts the configured
    attempts, as does that of the local task runtime. The worker loops of the
    server do not end; [outbox_worker] is the first [turns] rounds of one, for
    any number of them, and [local_task_worker] one round per batch size of a
    list.

    ** What is not modelled

    Display strings of errors are not modelled, nor poisoned locks. In the
    engine, the streams and sessions of remote workers and the compensation
    runtime are left out; in the RocksDB adapter the governance batches and the
    boundary store; in the engine server everything but the workers, the task
    dispatchers and the replicated store. The theorems on a cluster assume that
    the log holds prepared commits, prepared operations on remote tasks, and
    batches that touch none of the records of these. Authorization proofs and
    the BPMN compiler are not modelled. Servers, transports, other generated code
    and the Go and TypeScript services are input and output around them. *)

From stdpp Require Export base tactics numbers list gmap strings pretty sorting.
From Stdlib Require Import Ascii.
From Stdlib Require Export ZifyBool.
From stdpp Require Import options.

(** ** Results of fallible Rust code

    [Ok] and [Err] are the two variants of Rust's [Result]; [Panic] is a Rust
    panic (a failed [expect], an arithmetic overflow), kept apart from the
    errors so that the absence of panics is a statement of its own. *)
Inductive res (E A : Type) : Type :=
| Ok (a : A)
| Err (e : E)
| Panic (message : string).
Arguments Ok {E A} a.
Arguments Err {E A} e.
Arguments Panic {E A} message.

#[global] Instance Ok_inj {E A} : Inj (=) (=) (@Ok E A).
Proof. by intros ?? [= ->]. Qed.

#[global] Instance res_ret {E} : MRet (res E) := λ A a, Ok a.
#[global] Instance res_bind {E} : MBind (res E) := λ A B f m,
  match m with
  | Ok a => f a
  | Err e => Err e
  | Panic s => Panic s
  end.

(** [bail_if b e]: the early return [if b { return Err(e) }]. *)
Definition bail_if {E} (b : bool) (e : E) : res E unit :=
  if b then Err e else Ok tt.

(** Rust's [o.ok_or_else(|| e)?]. *)
Definition is_ok {E A} (r : res E A) : bool := match r with Ok _ => true | _ => false end.

Definition ok_or {E A} (o : option A) (e : E) : res E A :=
  match o with Some a => Ok a | None => Err e end.

(** [r.map_err(f)] *)
Definition map_err {E E' A} (f : E → E') (m : res E A) : res E' A :=
  match m with Ok a => Ok a | Err e => Err (f e) | Panic s => Panic s end.

(** A [for] loop over a list whose body may return early with an error. *)
Fixpoint for_each {E A B} (f : A → B → res E A) (l : list B) (a : A) : res E A :=
  match l with
  | [] => Ok a
  | b :: l => f a b ≫= for_each f l
  end.

Section res_lemmas.
Context {E A B : Type}.
Implicit Types (m : res E A) (f : A → res E B).

Lemma bind_Ok m f b : m ≫= f = Ok b ↔ ∃ a, m = Ok a ∧ f a = Ok b.
Proof.
  split; [destruct m; simpl; [eauto|done..]|by intros (a & -> & H)].
Qed.

Lemma bind_Err m f e : m ≫= f = Err e ↔ m = Err e ∨ ∃ a, m = Ok a ∧ f a = Err e.
Proof.
  split; [|by intros [->|(a & -> & H)]].
  destruct m; simpl; [eauto|intros [= <-]; by left|done].
Qed.

Lemma bind_Panic m f s : m ≫= f = Panic s ↔ m = Panic s ∨ ∃ a, m = Ok a ∧ f a = Panic s.
Proof.
  split; [|by intros [->|(a & -> & H)]].
  destruct m; simpl; [eauto|done|intros [= <-]; by left].
Qed.

Lemma is_ok_true m : is_ok m = true ↔ ∃ a, m = Ok a.
Proof. destruct m; naive_solver. Qed.

Lemma map_err_Ok {E'} (g : E → E') m a : map_err g m = Ok a ↔ m = Ok a.
Proof. split; [destruct m; simpl; congruence|by intros ->]. Qed.

Lemma map_err_Panic {E'} (g : E → E') m s : map_err g m = Panic s ↔ m = Panic s.
Proof. split; [destruct m; simpl; congruence|by intros ->]. Qed.

Lemma bail_if_Ok (b : bool) (e : E) (u : unit) : bail_if b e = Ok u ↔ b = false.
Proof. by destruct u, b. Qed.

Lemma bail_if_Err (b : bool) (e e' : E) : bail_if b e = Err e' ↔ b = true ∧ e = e'.
Proof. split; [destruct b; simpl; by intros [= <-]|by intros [-> ->]]. Qed.

Lemma bail_if_Panic (b : bool) (e : E) s : bail_if b e = Panic s ↔ False.
Proof. by destruct b. Qed.

Lemma ok_or_Ok (o : option A) (e : E) a : ok_or o e = Ok a ↔ o = Some a.
Proof. split; [destruct o; simpl; by intros [= <-]|by intros ->]. Qed.

Lemma ok_or_Err (o : option A) (e e' : E) : ok_or o e = Err e' ↔ o = None ∧ e = e'.
Proof. split; [destruct o; simpl; by intros [= <-]|by intros [-> ->]]. Qed.

Lemma ok_or_Panic (o : option A) (e : E) s : ok_or o e = Panic s ↔ False.
Proof. by destruct o. Qed.
End res_lemmas.

Section for_each_lemmas.
Context {E A B : Type} (f : A → B → res E A).

(** Loop invariant rule: [I] sees the part of the list already visited. *)
Lemma for_each_inv (I : list B → A → Prop) l a a' :
  for_each f l a = Ok a' →
  I [] a →
  (∀ seen b a1 a2, I seen a1 → b ∈ l → f a1 b = Ok a2 → I (seen ++ [b]) a2) →
  I l a'.
Proof.
  intros Hrun H0 Hstep.
  cut (∀ l2 seen a0, l2 ⊆ l → I seen a0 → for_each f l2 a0 = Ok a' → I (seen ++ l2) a').
  { intros Hgen. by apply (Hgen l [] a). }
  clear Hrun H0. intros l2. induction l2 as [|b l2 IH]; intros seen a0 Hsub HI Hrun.
  - injection Hrun as <-. by rewrite app_nil_r.
  - simpl in Hrun. apply bind_Ok in Hrun as (a1 & Hb & Hrun).
    rewrite cons_middle, (assoc_L (++)).
    eapply IH; [|eapply Hstep; [done| |done]|done].
    + intros x Hx. apply Hsub. by right.
    + apply Hsub. by left.
Qed.

Lemma for_each_app l1 l2 a :
  for_each f (l1 ++ l2) a = for_each f l1 a ≫= for_each f l2.
Proof.
  revert a. induction l1 as [|b l1 IH]; intros a; simpl; [done|].
  destruct (f a b); simpl; auto.
Qed.

Lemma for_each_no_panic l a :
  (∀ a b s, b ∈ l → f a b ≠ Panic s) → ∀ s, for_each f l a ≠ Panic s.
Proof.
  revert a. induction l as [|b l IH]; intros a Hf s; simpl; [done|].
  intros [H|(a1&_&H)]%bind_Panic; revert H.
  - apply Hf. by left.
  - apply IH. intros ????. apply Hf. by right.
Qed.

(** A loop whose body preserves [P] on success and fails only inside [Q]
    fails only inside [Q]. *)
Lemma for_each_Err (P : A → Prop) (Q : E → Prop) l a e :
  P a →
  (∀ a1 b a2, P a1 → b ∈ l → f a1 b = Ok a2 → P a2) →
  (∀ a1 b e, P a1 → b ∈ l → f a1 b = Err e → Q e) →
  for_each f l a = Err e → Q e.
Proof.
  revert a. induction l as [|b l IH]; intros a HP HOk HErr; simpl; [done|].
  intros [H|(a1&H1&H)]%bind_Err.
  - eapply HErr; [done| |done]. by left.
  - eapply (IH a1); [| | |done].
    + eapply HOk; [done| |done]. by left.
    + intros ?????. eapply HOk; [done|]. by right.
    + intros ?????. eapply HErr; [done|]. by right.
Qed.
End for_each_lemmas.

(** A checking loop (no accumulator) succeeds iff every check does. *)
Lemma for_each_unit {E B} (f : unit → B → res E unit) l :
  for_each f l tt = Ok tt ↔ ∀ b, b ∈ l → f tt b = Ok tt.
Proof.
  split.
  - intros Hrun. cut (∀ b, b ∈ l → b ∈ l → f tt b = Ok tt); [naive_solver|].
    eapply (for_each_inv f (λ seen _, ∀ b, b ∈ seen → b ∈ l → f tt b = Ok tt));
      [done|set_solver|].
    intros seen b [] [] IH Hb Hf b'. rewrite elem_of_app, list_elem_of_singleton. naive_solver.
  - induction l as [|b l IH]; intros Hall; simpl; [done|].
    rewrite (Hall b); [|by left]. simpl. apply IH. intros b' Hb'. apply Hall. by right.
Qed.

(** An indexing loop: every item is checked and inserted under a fresh key.
    The result holds exactly the items of the list. *)
Lemma for_each_index {E K V B} `{Countable K} (key : B → K) (val : B → V) (P : B → Prop)
    (f : gmap K V → B → res E (gmap K V)) l m' :
  for_each f l ∅ = Ok m' →
  (∀ m b m', b ∈ l → f m b = Ok m' → m !! key b = None ∧ m' = <[key b:=val b]> m ∧ P b) →
  NoDup (key <$> l) ∧ (∀ b, b ∈ l → P b) ∧
  (∀ k v, m' !! k = Some v ↔ ∃ b, b ∈ l ∧ key b = k ∧ val b = v).
Proof.
  intros Hrun Hf.
  eapply (for_each_inv f (λ seen m, NoDup (key <$> seen) ∧ (∀ b, b ∈ seen → P b) ∧
    (∀ k v, m !! k = Some v ↔ ∃ b, b ∈ seen ∧ key b = k ∧ val b = v))); [done| |].
  - split_and!; [constructor|set_solver|].
    intros k v. rewrite lookup_empty. set_solver.
  - intros seen b m1 m2 (Hnd & HP & Hm) Hb (Hnew & -> & HPb)%Hf; [|done].
    split_and!.
    + rewrite fmap_app, NoDup_app. simpl. split_and!; [done| |apply NoDup_singleton].
      intros k (b' & -> & Hb')%list_elem_of_fmap. rewrite list_elem_of_singleton.
      intros Heq. assert (m1 !! key b' = Some (val b')) as Hin by (apply Hm; eauto).
      congruence.
    + intros b'. rewrite elem_of_app, list_elem_of_singleton. naive_solver.
    + intros k v. rewrite lookup_insert. setoid_rewrite elem_of_app.
      setoid_rewrite list_elem_of_singleton.
      case_decide as Hk; [subst k|].
      * split; [intros [= <-]; naive_solver|].
        intros (b' & [Hb' | ->] & Hkey & <-); [|done].
        assert (m1 !! key b' = Some (val b')) by (apply Hm; eauto). congruence.
      * rewrite Hm. naive_solver.
Qed.

(** [inv_res H] takes apart a successful run [H : ... = Ok _] of a chain of
    binds, early returns and [ok_or]; the named pieces stay as hypotheses. *)
Ltac inv_res_step H :=
  lazymatch type of H with
  | mbind _ _ = Ok _ =>
      let x := fresh "v" in let Hx := fresh "Hv" in
      apply bind_Ok in H as (x & Hx & H); inv_res Hx
  | bail_if _ _ = Ok _ => apply bail_if_Ok in H
  | ok_or _ _ = Ok _ => apply ok_or_Ok in H
  | map_err _ _ = Ok _ => apply map_err_Ok in H; inv_res H
  | Ok _ = Ok _ => injection H as H; try subst
  | mret _ = Ok _ => unfold mret, res_ret in H; injection H as H; try subst
  | Err _ = Ok _ => discriminate H
  | Panic _ = Ok _ => discriminate H
  | (let '(_, _) := ?p in _) = Ok _ => destruct p; simpl in H; inv_res_step H
  | _ => idtac
  end
with inv_res H := repeat (progress (simpl in H; inv_res_step H)).

(** [no_panic H] closes a goal from [H : m = Panic s] by taking [m] apart; the
    calls it cannot open are closed by the lemmas of [panics], or left with
    their own panic hypothesis. *)
Create HintDb panics.
Ltac no_panic_step H :=
  lazymatch type of H with
  | mbind _ _ = Panic _ => apply bind_Panic in H as [H|(?&_&H)]
  | bail_if _ _ = Panic _ => by apply bail_if_Panic in H
  | ok_or _ _ = Panic _ => by apply ok_or_Panic in H
  | Ok _ = Panic _ => discriminate H
  | Err _ = Panic _ => discriminate H
  | match ?x with _ => _ end = Panic _ => destruct x eqn:?
  end.
Ltac no_panic H :=
  repeat (simpl in H; no_panic_step H);
  try (revert H; lazymatch goal with |- ?m = Panic ?s → False => change (m ≠ Panic s) end;
       solve [auto with panics nocore]).

(** [inv_err H] takes apart a failing run [H : ... = Err _] into one goal per
    place the error can come from. *)
Ltac inv_err_step H :=
  lazymatch type of H with
  | mbind _ _ = Err _ =>
      let x := fresh "v" in let Hx := fresh "Hv" in apply bind_Err in H as [H|(x & Hx & H)]
  | bail_if _ _ = Err _ => apply bail_if_Err in H as [? <-]
  | ok_or _ _ = Err _ => apply ok_or_Err in H as [? <-]
  | Ok _ = Err _ => discriminate H
  | Panic _ = Err _ => discriminate H
  | Err _ = Err _ => injection H as <-
  | match ?x with _ => _ end = Err _ => destruct x eqn:?
  end.
Ltac inv_err H := repeat (simpl in H; inv_err_step H).

(** ** Methods that mutate their receiver

    A method [fn f(&mut self) -> Result<A, E>] gives the receiver after the
    call, also when it fails, and its result. *)
Definition method (S E A : Type) : Type := S → S * res E A.
#[global] Instance method_ret {S E} : MRet (method S E) := λ A a s, (s, Ok a).
#[global] Instance method_bind {S E} : MBind (method S E) := λ A B f m s,
  match m s with
  | (s, Ok a) => f a s
  | (s, Err e) => (s, Err e)
  | (s, Panic message) => (s, Panic message)
  end.
(** [&self] access, assignment to the receiver, and a call of a function that
    does not touch it followed by [?]. *)
Definition self {S E} : method S E S := λ s, (s, Ok s).
Definition set_self {S E} (s : S) : method S E unit := λ _, (s, Ok tt).
Definition lift {S E A} (m : res E A) : method S E A := λ s, (s, m).

Section method_lemmas.
Context {S E A B : Type}.
Implicit Types (s : S) (e : E).

Lemma self_then (k : S → method S E B) s : (c ← self; k c) s = k s s.
Proof. done. Qed.
Lemma set_self_then s' (k : unit → method S E B) s : (set_self s' ≫= k) s = k tt s'.
Proof. done. Qed.
Lemma bail_if_then (b : bool) e (k : unit → method S E B) s :
  (lift (bail_if b e) ≫= k) s = if b then (s, Err e) else k tt s.
Proof. by destruct b. Qed.
Lemma ok_or_then (o : option A) e (k : A → method S E B) s :
  (lift (ok_or o e) ≫= k) s = match o with Some a => k a s | None => (s, Err e) end.
Proof. by destruct o. Qed.
Lemma lift_then (m : res E A) (k : A → method S E B) s :
  (lift m ≫= k) s =
  match m with Ok a => k a s | Err e => (s, Err e) | Panic p => (s, Panic p) end.
Proof. done. Qed.
Lemma bail_if_last (b : bool) e s :
  lift (bail_if b e) s = if b then (s, Err e) else (s, Ok tt).
Proof. by destruct b. Qed.
Lemma set_self_last s' s : set_self (E:=E) s' s = (s', Ok tt).
Proof. done. Qed.
End method_lemmas.
Create Rewrite HintDb methods.
#[export] Hint Rewrite @self_then @set_self_then @bail_if_then @ok_or_then @bail_if_last
  @set_self_last : methods.

(** [open_method H] takes apart a call [H : m s = (s', r)] into one goal per
    place it can return from. *)
Ltac open_method H :=
  repeat (simpl in H; autorewrite with methods in H; first [progress simplify_eq|case_match]).

(** ** Machine integers

    [u32] and [u64] values are [N], [i64] values are [Z]; the widths appear
    where the source checks, saturates or converts. *)
Definition u32_max : N := 4294967295.
Definition u64_max : N := 18446744073709551615.
Definition usize_max : N := u64_max.
Definition i64_min : Z := -9223372036854775808.
Definition i64_max : Z := 9223372036854775807.

(** [u32::checked_add], [u64::checked_add], and their saturating forms. *)
Definition checked_add (max a b : N) : option N :=
  if (a + b <=? max)%N then Some (a + b)%N else None.
Definition saturating_add (max a b : N) : N := N.min (a + b) max.
(** [checked_sub] on unsigned integers. *)
Definition checked_sub (a b : N) : option N :=
  if (b <=? a)%N then Some (a - b)%N else None.
(** The range check behind [i64::checked_add] and [i64::checked_sub]. *)
Definition i64_checked (z : Z) : option Z :=
  if ((i64_min <=? z) && (z <=? i64_max))%Z then Some z else None.

(** [u64::try_from] of a [usize]. *)
Definition u64_of_usize (n : nat) : option N :=
  if (N.of_nat n <=? u64_max)%N then Some (N.of_nat n) else None.
(** [u32::try_from] of a [usize] length and of an [i64]. *)
Definition u32_of_usize (n : nat) : option N :=
  if (N.of_nat n <=? u32_max)%N then Some (N.of_nat n) else None.
Definition u32_of_i64 (z : Z) : option N :=
  if ((0 <=? z)%Z && (Z.to_N z <=? u32_max)%N) then Some (Z.to_N z) else None.
(** [i64::try_from] of a [usize] length. *)
Definition i64_of_usize (n : nat) : option Z := i64_checked (Z.of_nat n).

Lemma if_Some_iff {A} (b : bool) (x y : A) :
  (if b then Some x else None) = Some y ↔ b = true ∧ x = y.
Proof. split; [destruct b; by intros [= <-]|by intros [-> ->]]. Qed.

Lemma checked_add_Some max a b c :
  checked_add max a b = Some c ↔ c = (a + b)%N ∧ (a + b ≤ max)%N.
Proof. unfold checked_add. rewrite if_Some_iff, N.leb_le. intuition. Qed.

Lemma saturating_add_checked max a b c :
  checked_add max a b = Some c → saturating_add max a b = c.
Proof. intros [-> Hle]%checked_add_Some. unfold saturating_add. lia. Qed.

Lemma checked_sub_Some a b c :
  checked_sub a b = Some c ↔ c = (a - b)%N ∧ (b ≤ a)%N.
Proof. unfold checked_sub. rewrite if_Some_iff, N.leb_le. intuition. Qed.

Lemma u32_of_usize_Some n c :
  u32_of_usize n = Some c ↔ c = N.of_nat n ∧ (N.of_nat n ≤ u32_max)%N.
Proof. unfold u32_of_usize. rewrite if_Some_iff, N.leb_le. intuition. Qed.

Lemma u64_of_usize_Some n c :
  u64_of_usize n = Some c ↔ c = N.of_nat n ∧ (N.of_nat n ≤ u64_max)%N.
Proof. unfold u64_of_usize. rewrite if_Some_iff, N.leb_le. intuition. Qed.

Lemma i64_checked_Some z z' :
  i64_checked z = Some z' ↔ z' = z ∧ (i64_min ≤ z ≤ i64_max)%Z.
Proof.
  unfold i64_checked. rewrite if_Some_iff, andb_true_iff, !Z.leb_le. intuition.
Qed.

(** ** Strings

    A Rust [String] is its UTF-8 byte sequence; [String.compare] on bytes is
    Rust's [Ord] on strings. [trim] removes Unicode white space: the six ASCII
    bytes and the encodings of U+0085, U+00A0, U+1680, U+2000 to U+200A,
    U+2028, U+2029, U+202F, U+205F and U+3000. *)
Definition ws1 (a : ascii) : bool := Ascii.is_space a.
Definition ws2 (a b : ascii) : bool :=
  (N_of_ascii a =? 194)%N && ((N_of_ascii b =? 133) || (N_of_ascii b =? 160))%N.
Definition ws3 (a b c : ascii) : bool :=
  match N_of_ascii a, N_of_ascii b, N_of_ascii c with
  | 225, 154, 128 => true
  | 226, 128, n => ((128 <=? n) && (n <=? 138)) || (n =? 168) || (n =? 169) || (n =? 175)
  | 226, 129, 159 => true
  | 227, 128, 128 => true
  | _, _, _ => false
  end%N.

(** Strips white space from the front; [p2] and [p3] recognise the multi-byte
    characters (with their bytes reversed when the string is). *)
Fixpoint strip_ws (p2 : ascii → ascii → bool) (p3 : ascii → ascii → ascii → bool)
    (s : string) : string :=
  match s with
  | "" => ""
  | String a s1 =>
      if ws1 a then strip_ws p2 p3 s1 else
      match s1 with
      | "" => s
      | String b s2 =>
          if p2 a b then strip_ws p2 p3 s2 else
          match s2 with
          | "" => s
          | String c s3 => if p3 a b c then strip_ws p2 p3 s3 else s
          end
      end
  end.

Definition trim (s : string) : string :=
  let front := strip_ws ws2 ws3 s in
  String.rev (strip_ws (λ b a, ws2 a b) (λ c b a, ws3 a b c) (String.rev front)).

(** [s.trim().is_empty()] *)
Definition is_blank (s : string) : bool := bool_decide (trim s = "").

(** [str::strip_prefix] with the literal of [expression_variable], and
    [str::strip_suffix] with one ASCII character. *)
Fixpoint strip_prefix (p s : string) : option string :=
  match p, s with
  | "", _ => Some s
  | String a p, String b s => if bool_decide (a = b) then strip_prefix p s else None
  | _, _ => None
  end.
Definition strip_suffix (c : ascii) (s : string) : option string :=
  match String.rev s with
  | String a r => if bool_decide (a = c) then Some (String.rev r) else None
  | "" => None
  end.

(** [str::parse::<i64>]: an optional sign, at least one digit, in range. *)
Fixpoint parse_digits (acc : N) (s : string) : option N :=
  match s with
  | "" => Some acc
  | String a s =>
      match Ascii.is_nat a with
      | Some d => parse_digits (10 * acc + N.of_nat d) s
      | None => None
      end
  end.
Definition parse_i64 (s : string) : option Z :=
  match s with
  | "" => None
  | String "-" "" | String "+" "" => None
  | String "-" s => n ← parse_digits 0 s; i64_checked (- Z.of_N n)
  | String "+" s => n ← parse_digits 0 s; i64_checked (Z.of_N n)
  | _ => n ← parse_digits 0 s; i64_checked (Z.of_N n)
  end.

Lemma append_assoc (s t u : string) : (s +:+ t) +:+ u = s +:+ t +:+ u.
Proof.
  induction s as [|a s IH]; [done|].
  change (String a ((s +:+ t) +:+ u) = String a (s +:+ t +:+ u)). by rewrite IH.
Qed.

Lemma append_inj s1 s2 t1 t2 :
  String.length s1 = String.length s2 → s1 +:+ t1 = s2 +:+ t2 → s1 = s2 ∧ t1 = t2.
Proof.
  revert s2. induction s1 as [|a s1 IH]; intros [|b s2] Hlen Heq; simpl in *; try done.
  injection Heq as -> Heq. injection Hlen as Hlen.
  destruct (IH _ Hlen Heq) as [-> ->]. done.
Qed.

Lemma length_append s t : String.length (s +:+ t) = String.length s + String.length t.
Proof. induction s as [|a s IH]; simpl; [done|]. by rewrite IH. Qed.

Lemma string_compare_refl s : String.compare s s = Eq.
Proof. induction s; simpl; [done|]. unfold Ascii.compare. by rewrite N.compare_refl. Qed.

Lemma string_compare_Eq s t : String.compare s t = Eq ↔ s = t.
Proof. split; [apply String.compare_eq_iff|intros ->; apply string_compare_refl]. Qed.

Example trim_nbsp : trim "  a b	" = "a b".
Proof. vm_compute. reflexivity. Qed.
Example parse_i64_min : parse_i64 "-9223372036854775808" = Some i64_min.
Proof. reflexivity. Qed.
Example parse_i64_overflow : parse_i64 "9223372036854775808" = None.
Proof. reflexivity. Qed.

(** ** Ordered maps and sets

    A [BTreeMap<String-like, V>] is a [gmap string V]; what depends on its
    order (iteration, the first key) goes through [btree_iter], the entries
    sorted by key. A [BTreeSet<u32>] is a [gset N] with [u32_set_iter]. *)
Definition key_le {V} (p q : string * V) : Prop := String.le p.1 q.1.
#[global] Instance key_le_dec {V} : RelDecision (@key_le V).
Proof. intros p q. unfold key_le. apply _. Defined.
#[global] Instance key_le_total {V} : Total (@key_le V).
Proof. intros p q. unfold key_le. apply (total String.le). Qed.
#[global] Instance key_le_trans {V} : Transitive (@key_le V).
Proof. intros p q r. unfold key_le. apply transitivity. Qed.

Definition btree_iter {V} (m : gmap string V) : list (string * V) :=
  merge_sort key_le (map_to_list m).
Definition btree_keys {V} (m : gmap string V) : list string := (btree_iter m).*1.
Definition btree_values {V} (m : gmap string V) : list V := (btree_iter m).*2.
(** [m.keys().next()] *)
Definition first_key {V} (m : gmap string V) : option string := head (btree_keys m).
(** [BTreeMap::extend]: later entries win. *)
Definition btree_extend {K V} `{Countable K} (m : gmap K V) (l : list (K * V)) : gmap K V :=
  foldl (λ m p, <[p.1:=p.2]> m) m l.

Definition u32_set_iter (s : gset N) : list N := merge_sort N.le (elements s).
Definition btree_set_iter (s : gset string) : list string := merge_sort String.le (elements s).

Lemma lookup_btree_extend {K V} `{Countable K} (m : gmap K V) (l : list (K * V)) k :
  NoDup (l.*1) → btree_extend m l !! k = (list_to_map l : gmap K V) !! k ∪ m !! k.
Proof.
  unfold btree_extend. revert m. induction l as [|[k' v] l IH]; intros m; simpl.
  { intros _. rewrite lookup_empty. by rewrite (left_id_L None (∪)). }
  intros [Hk Hl]%NoDup_cons. rewrite IH by done. rewrite !lookup_insert.
  case_decide as Heq; [subst k'|done].
  assert ((list_to_map l : gmap K V) !! k = None) as -> by (by apply not_elem_of_list_to_map_1).
  by destruct (m !! k).
Qed.

(** Collecting the entries of a map gives the map back. *)
Lemma btree_extend_perm {K V} `{Countable K} (l : list (K * V)) (m : gmap K V) :
  l ≡ₚ map_to_list m → btree_extend ∅ l = m.
Proof.
  intros Hp. assert (NoDup l.*1) as Hnd by (rewrite Hp; apply NoDup_fst_map_to_list).
  apply map_eq. intros k. rewrite lookup_btree_extend by done.
  rewrite lookup_empty, (right_id_L None (∪)). f_equal.
  transitivity (list_to_map (map_to_list m) : gmap K V); [|apply list_to_map_to_list].
  by apply list_to_map_proper.
Qed.

Section btree_lemmas.
Context {V : Type}.
Implicit Types (m : gmap string V).

Lemma btree_iter_perm m : btree_iter m ≡ₚ map_to_list m.
Proof. apply merge_sort_Permutation. Qed.

Lemma elem_of_btree_iter m k v : (k, v) ∈ btree_iter m ↔ m !! k = Some v.
Proof. rewrite btree_iter_perm. apply elem_of_map_to_list. Qed.

Lemma elem_of_btree_keys m k : k ∈ btree_keys m ↔ is_Some (m !! k).
Proof.
  unfold btree_keys. rewrite list_elem_of_fmap. split.
  - intros ([k' v] & -> & Hin). simpl. exists v. by apply elem_of_btree_iter.
  - intros [v Hv]. exists (k, v). by rewrite elem_of_btree_iter.
Qed.

Lemma elem_of_btree_values m v : v ∈ btree_values m ↔ ∃ k, m !! k = Some v.
Proof.
  unfold btree_values. rewrite list_elem_of_fmap. split.
  - intros ([k v'] & -> & Hin). exists k. by apply elem_of_btree_iter.
  - intros [k Hv]. exists (k, v). by rewrite elem_of_btree_iter.
Qed.

Lemma NoDup_btree_keys m : NoDup (btree_keys m).
Proof. unfold btree_keys. rewrite btree_iter_perm. apply NoDup_fst_map_to_list. Qed.

Lemma btree_iter_sorted m : StronglySorted key_le (btree_iter m).
Proof. apply StronglySorted_merge_sort; apply _. Qed.

Lemma btree_keys_sorted m : StronglySorted String.le (btree_keys m).
Proof.
  unfold btree_keys. pose proof (btree_iter_sorted m) as Hs.
  induction Hs as [|p l Hs IH Hall]; simpl; constructor; [done|].
  rewrite Forall_fmap. done.
Qed.

Lemma btree_iter_empty : btree_iter (∅ : gmap string V) = [].
Proof. unfold btree_iter. by rewrite map_to_list_empty. Qed.

Lemma length_btree_iter m : length (btree_iter m) = size m.
Proof. by rewrite btree_iter_perm, length_map_to_list. Qed.

Lemma btree_extend_iter m : btree_extend ∅ (btree_iter m) = m.
Proof. apply btree_extend_perm, btree_iter_perm. Qed.

(** Deleting listed keys one by one keeps exactly the other entries. *)
Lemma lookup_foldl_delete m (ks : list string) k :
  foldl (λ m k, delete k m) m ks !! k = if decide (k ∈ ks) then None else m !! k.
Proof.
  revert m. induction ks as [|k' ks IH]; intros m; simpl; [done|].
  rewrite IH, lookup_delete.
  destruct (decide (k ∈ ks)), (decide (k' = k)), (decide (k ∈ k' :: ks)); set_solver.
Qed.
End btree_lemmas.

Lemma filter_all {A} (p : A → bool) l : (∀ x, x ∈ l → p x = true) → List.filter p l = l.
Proof.
  induction l as [|x l IH]; intros Hall; simpl; [done|].
  rewrite (Hall x) by (by left). rewrite IH; [done|]. intros y Hy. apply Hall. by right.
Qed.

Lemma filter_none {A} (p : A → bool) l : (∀ x, x ∈ l → p x = false) → List.filter p l = [].
Proof.
  induction l as [|x l IH]; intros Hall; simpl; [done|].
  rewrite (Hall x) by (by left). apply IH. intros y Hy. apply Hall. by right.
Qed.

Lemma StronglySorted_filter_bool {A} (R : A → A → Prop) (p : A → bool) l :
  StronglySorted R l → StronglySorted R (List.filter p l).
Proof.
  induction 1 as [|x l Hs IH Hall]; simpl; [constructor|].
  destruct (p x); [constructor; [done|]|done].
  rewrite Forall_forall in *. intros y Hy. apply Hall.
  apply list_elem_of_In in Hy. apply filter_In in Hy as [Hy _]. by apply list_elem_of_In.
Qed.

Lemma elem_of_u32_set_iter s n : n ∈ u32_set_iter s ↔ n ∈ s.
Proof. unfold u32_set_iter. by rewrite merge_sort_Permutation, elem_of_elements. Qed.
Lemma elem_of_btree_set_iter s k : k ∈ btree_set_iter s ↔ k ∈ s.
Proof. unfold btree_set_iter. by rewrite merge_sort_Permutation, elem_of_elements. Qed.

(** ** Lists and options shared by the components *)

(** [Option::is_some]; [BTreeMap::contains_key k] is [is_some (m !! k)]. *)
Definition is_some {A} (o : option A) : bool := match o with Some _ => true | None => false end.
Lemma is_some_true {A} (o : option A) : is_some o = true ↔ is_Some o.
Proof. destruct o; simpl; split; [eauto|done|done|by intros [? [=]]]. Qed.
Lemma is_some_false {A} (o : option A) : is_some o = false ↔ o = None.
Proof. by destruct o. Qed.

(** [Vec::is_empty] *)
Definition is_empty {A} (l : list A) : bool := match l with [] => true | _ => false end.
Lemma is_empty_true {A} (l : list A) : is_empty l = true ↔ l = [].
Proof. by destruct l. Qed.
Lemma is_empty_false {A} (l : list A) : is_empty l = false ↔ l ≠ [].
Proof. by destruct l. Qed.

(** [BTreeMap::is_empty] *)
Definition map_is_empty {V} (m : gmap string V) : bool := is_empty (map_to_list m).
Lemma map_is_empty_true {V} (m : gmap string V) : map_is_empty m = true ↔ m = ∅.
Proof. unfold map_is_empty. by rewrite is_empty_true, map_to_list_empty_iff. Qed.

Lemma NoDup_dup_free {A} `{EqDecision A, Countable A} (l : list A) :
  size (list_to_set l : gset A) = length l ↔ NoDup l.
Proof.
  split.
  - induction l as [|x l IH]; [intros; constructor|]; simpl.
    intros Hsz. pose proof (size_union_alt {[x]} (list_to_set l : gset A)) as Hu.
    rewrite size_singleton in Hu.
    assert (size (list_to_set l : gset A) ≤ length l) as Hle.
    { clear. induction l as [|x l IH]; simpl; [done|].
      rewrite size_union_alt, size_singleton.
      assert (size (list_to_set l ∖ {[x]} : gset A) ≤ size (list_to_set l : gset A));
        [apply subseteq_size; set_solver|lia]. }
    assert (size (list_to_set l ∖ {[x]} : gset A) ≤ size (list_to_set l : gset A)) as Hle2
      by (apply subseteq_size; set_solver).
    constructor; [|apply IH; lia].
    intros Hin. apply (elem_of_list_to_set (C:=gset A)) in Hin.
    assert (size (list_to_set l ∖ {[x]} : gset A) < size (list_to_set l : gset A));
      [apply subset_size; set_solver|lia].
  - intros Hnd. by rewrite size_list_to_set.
Qed.

Lemma NoDup_fmap_eq {A B} (f : A → B) l x y :
  NoDup (f <$> l) → x ∈ l → y ∈ l → f x = f y → x = y.
Proof.
  induction l as [|z l IH]; simpl; [set_solver|].
  intros [Hz Hl]%NoDup_cons Hx Hy Hf.
  apply elem_of_cons in Hx as [-> |Hx], Hy as [-> |Hy]; [done| | |by apply IH].
  - destruct Hz. rewrite Hf. by apply list_elem_of_fmap_2.
  - destruct Hz. rewrite <-Hf. by apply list_elem_of_fmap_2.
Qed.

(** ** Sorting

    [sort_by_key] (and [sort_unstable_by_key], which may only differ on equal
    keys) is [merge_sort] of the order on the keys; [Vec::dedup] drops
    repetitions next to each other; [windows(2)] gives the adjacent pairs. *)
Definition by_key {A K} (k : A → K) (R : relation K) : relation A := λ x y, R (k x) (k y).
#[global] Instance by_key_dec {A K} (k : A → K) (R : relation K) `{!RelDecision R} :
  RelDecision (by_key k R).
Proof. intros x y. unfold by_key. apply _. Defined.
#[global] Instance by_key_total {A K} (k : A → K) (R : relation K) `{!Total R} : Total (by_key k R).
Proof. intros x y. apply (total R). Qed.
#[global] Instance by_key_trans {A K} (k : A → K) (R : relation K) `{!Transitive R} :
  Transitive (by_key k R).
Proof. intros x y z. unfold by_key. apply transitivity. Qed.

Fixpoint dedup {A} `{EqDecision A} (l : list A) : list A :=
  match l with
  | [] => []
  | x :: l =>
      match l with
      | [] => [x]
      | y :: _ => if bool_decide (x = y) then dedup l else x :: dedup l
      end
  end.

Fixpoint windows2 {A} (l : list A) : list (A * A) :=
  match l with
  | x :: (y :: _) as l => (x, y) :: windows2 l
  | _ => []
  end.

Section sorting.
Context {A K : Type} (k : A → K) (R : relation K) {Hanti : AntiSymm (=) R}.

(** A list has one arrangement by distinct keys. *)
Lemma sorted_key_unique l1 l2 :
  StronglySorted (by_key k R) l1 → StronglySorted (by_key k R) l2 →
  NoDup (k <$> l1) → l1 ≡ₚ l2 → l1 = l2.
Proof using Hanti.
  intros Hs1. revert l2. induction Hs1 as [|x l1 Hs1 IH Hx]; intros l2 Hs2 Hnd Hp.
  { by apply Permutation_nil_l in Hp. }
  destruct l2 as [|y l2]; [by apply Permutation_nil_r in Hp|].
  apply StronglySorted_inv in Hs2 as [Hs2 Hy].
  assert (x = y) as ->.
  { assert (y ∈ x :: l1) as Hyin by (rewrite Hp; by left).
    assert (x ∈ y :: l2) as Hxin by (rewrite <-Hp; by left).
    rewrite Forall_forall in Hx, Hy.
    apply elem_of_cons in Hyin as [->|Hyin]; [done|].
    apply elem_of_cons in Hxin as [->|Hxin]; [done|].
    apply (NoDup_fmap_eq k (x :: l1)); [done|by left|by right|].
    apply (anti_symm R); [by apply Hx|by apply Hy]. }
  f_equal. apply Permutation_cons_inv in Hp. apply NoDup_cons in Hnd as [_ Hnd]. by apply IH.
Qed.

(** Sorted with distinct neighbours is distinct. *)
Lemma sorted_windows_NoDup l :
  StronglySorted (by_key k R) l → (∀ x y, (x, y) ∈ windows2 l → k x ≠ k y) → NoDup (k <$> l).
Proof using Hanti.
  induction 1 as [|x l Hs IH Hx]; intros Hw; [constructor|].
  destruct l as [|y l]; [apply NoDup_singleton|].
  assert (k x ≠ k y) as Hxy by (apply Hw; by left).
  simpl. constructor; [|apply IH; intros a b Hab; apply Hw; by right].
  rewrite Forall_cons in Hx. destruct Hx as [Hxy' Hx]. apply StronglySorted_inv in Hs as [_ Hy].
  intros [Heq|(z & Hz & Hzin)%list_elem_of_fmap]%elem_of_cons; [done|].
  rewrite Forall_forall in Hy. specialize (Hy z Hzin). apply Hxy.
  apply (anti_symm R); [done|]. rewrite Hz. done.
Qed.
End sorting.

Section dedup.
Context {A : Type} `{EqDecision A} (R : relation A).
Implicit Types (l : list A) (x : A).

Lemma dedup_cons2 x y l :
  dedup (x :: y :: l) = if bool_decide (x = y) then dedup (y :: l) else x :: dedup (y :: l).
Proof. done. Qed.

Lemma dedup_elem l x : x ∈ dedup l ↔ x ∈ l.
Proof.
  induction l as [|y [|z l] IH]; [done|done|]. rewrite dedup_cons2.
  case_bool_decide as Hyz; [subst|]; rewrite ?elem_of_cons, IH, ?elem_of_cons; tauto.
Qed.

Lemma dedup_sorted l : StronglySorted R l → StronglySorted R (dedup l).
Proof.
  induction 1 as [|x [|y l] Hs IH Hx]; [constructor|by constructor|].
  rewrite dedup_cons2. case_bool_decide; [done|]. constructor; [done|].
  rewrite Forall_forall in Hx |- *. intros z Hz. by apply Hx, dedup_elem.
Qed.

Lemma dedup_cons_head x l : ∃ l', dedup (x :: l) = x :: l'.
Proof.
  revert x. induction l as [|y l IH]; intros x; [by exists []|].
  rewrite dedup_cons2. case_bool_decide as Hxy; [subst; apply IH|eauto].
Qed.

Lemma dedup_idem l : dedup (dedup l) = dedup l.
Proof.
  induction l as [|x [|y l] IH]; [done|done|].
  rewrite dedup_cons2. case_bool_decide as Hxy; [done|].
  destruct (dedup_cons_head y l) as [l' Hl']. rewrite Hl' in IH |- *.
  rewrite dedup_cons2, bool_decide_false by done. by rewrite IH.
Qed.
End dedup.

(** ** Binary search

    [slice::binary_search_by], as the standard library implements it: the
    position it returns with [Ok], if any. Every turn of the loop makes [size]
    smaller, so [length l] turns are enough. *)
Fixpoint bs_loop {A} (f : A → comparison) (l : list A) (fuel base size : nat) : nat :=
  match fuel with
  | 0 => base
  | S fuel =>
      if size <=? 1 then base else
      let half := size / 2 in
      let mid := base + half in
      let base := match f <$> l !! mid with Some Gt => base | _ => mid end in
      bs_loop f l fuel base (size - half)
  end.
Definition binary_search_by {A} (f : A → comparison) (l : list A) : option nat :=
  let base := bs_loop f l (length l) 0 (length l) in
  match f <$> l !! base with Some Eq => Some base | _ => None end.

Section binary_search.
Context {A : Type} (f : A → comparison) (l : list A).
(** The comparison agrees with the order of the slice. *)
Hypothesis Hlow : ∀ i j a b, i ≤ j → l !! i = Some a → l !! j = Some b → f b = Lt → f a = Lt.
Hypothesis Hhigh : ∀ i j a b, i ≤ j → l !! i = Some a → l !! j = Some b → f a = Gt → f b = Gt.

Lemma bs_loop_spec fuel base size i a :
  size ≤ fuel → base + size ≤ length l → l !! i = Some a → f a = Eq → base ≤ i < base + size →
  ∃ b, l !! bs_loop f l fuel base size = Some b ∧ f b = Eq.
Proof using Hlow Hhigh.
  revert base size i a. induction fuel as [|fuel IH]; intros base size i a Hfuel Hlen Hi Ha Hr;
    cbn [bs_loop]; [lia|].
  destruct (Nat.leb_spec size 1).
  { exists a. split; [|done]. by replace base with i by lia. }
  pose proof (Nat.div_mod size 2 ltac:(lia)). pose proof (Nat.mod_upper_bound size 2 ltac:(lia)).
  set (half := size / 2) in *. set (mid := base + half).
  destruct (lookup_lt_is_Some_2 l mid) as [m Hm]; [lia|].
  rewrite Hm. cbn [fmap option_fmap option_map].
  destruct (f m) eqn:Hf.
  - apply (IH mid (size - half) mid m); subst mid; auto; lia.
  - apply (IH mid (size - half) i a); subst mid; auto; try lia.
    destruct (decide (i ≤ base + half)) as [Hle|]; [|lia].
    pose proof (Hlow _ _ _ _ Hle Hi Hm Hf). congruence.
  - apply (IH base (size - half) i a); subst mid; auto; try lia.
    destruct (decide (base + half ≤ i)) as [Hle|]; [|lia].
    pose proof (Hhigh _ _ _ _ Hle Hm Hi Hf). congruence.
Qed.

(** It finds a match iff there is one. *)
Lemma binary_search_by_spec :
  match binary_search_by f l with
  | Some i => ∃ a, l !! i = Some a ∧ f a = Eq
  | None => ∀ a, a ∈ l → f a ≠ Eq
  end.
Proof using Hlow Hhigh.
  unfold binary_search_by.
  destruct (l !! bs_loop f l (length l) 0 (length l)) as [b|] eqn:Hb; simpl;
    [destruct (f b) eqn:Hf; [eauto|..]|];
    intros a [i Hi]%list_elem_of_lookup Ha;
    (destruct (bs_loop_spec (length l) 0 (length l) i a) as (b' & Hb' & Hf'); try lia; try done;
     [by split; [lia|]; apply lookup_lt_Some in Hi|congruence]).
Qed.
End binary_search.

(** ** Automation *)

(** Replaces the variables of type [unit] by their only value. *)
Ltac destruct_units := repeat match goal with u : unit |- _ => destruct u end.

(** Case analysis on the discriminees of the matches in [H]. *)
Ltac destruct_match_in H :=
  match type of H with
  | context [match ?x with _ => _ end] =>
      lazymatch x with
      | context [match _ with _ => _ end] => fail
      | _ => let Hx := fresh "Hm" in destruct x eqn:Hx
      end
  end.
