(* ===== verification/Effects.v ===== *)
(** * Programs that call ports, and their interleavings

    The background workers of the engine (outbox publisher, local task
    runtime, boundary runtime) are generic over the ports they call.  A
    worker is a finite program whose calls are left to a handler; several
    programs that share a world interleave at those calls.  [safe] is the
    assertion a worker satisfies when other programs may run between any two
    of its calls, and [pool_safe] its soundness. *)

From S2P Require Import Prelude.
From stdpp Require Import options.

Inductive prog (Op : Type → Type) (A : Type) : Type :=
| Done (a : A)
| Vis {X : Type} (op : Op X) (k : X → prog Op A).
Arguments Done {Op A} a.
Arguments Vis {Op A X} op k.

Fixpoint prog_bind {Op A B} (p : prog Op A) (f : A → prog Op B) : prog Op B :=
  match p with
  | Done a => f a
  | Vis op k => Vis op (λ x, prog_bind (k x) f)
  end.

(** Programs that return a Rust [Result]; [?] is the bind. *)
Definition effect (Op : Type → Type) (E A : Type) : Type := prog Op (res E A).
#[global] Instance effect_ret {Op E} : MRet (effect Op E) := λ A a, Done (Ok a).
#[global] Instance effect_bind {Op E} : MBind (effect Op E) := λ A B f p,
  prog_bind p (λ r, match r with
                    | Ok a => f a
                    | Err e => Done (Err e)
                    | Panic s => Done (Panic s)
                    end).
Definition throw {Op E A} (e : E) : effect Op E A := Done (Err e).
Definition liftr {Op E A} (r : res E A) : effect Op E A := Done r.
Definition ask {Op E X} (op : Op X) : effect Op E X := Vis op (λ x, Done (Ok x)).
Definition try_ {Op E X} (op : Op (res E X)) : effect Op E X := Vis op Done.

(** The program calls only operations in [P]. *)
Fixpoint only {Op A} (P : ∀ X, Op X → Prop) (p : prog Op A) : Prop :=
  match p with
  | Done _ => True
  | Vis op k => P _ op ∧ ∀ x, only P (k x)
  end.
Lemma only_prog_bind {Op A B} (P : ∀ X, Op X → Prop) (p : prog Op A) (f : A → prog Op B) :
  only P p → (∀ a, only P (f a)) → only P (prog_bind p f).
Proof. intros Hp Hf. induction p as [a|X op k IH]; simpl in *; [done|]. naive_solver. Qed.
Lemma only_bind {Op E A B} (P : ∀ X, Op X → Prop) (p : effect Op E A) (f : A → effect Op E B) :
  only P p → (∀ a, only P (f a)) → only P (p ≫= f).
Proof. intros Hp Hf. apply only_prog_bind; [done|]. by intros []. Qed.
Lemma only_try {Op E X} (P : ∀ X, Op X → Prop) (op : Op (res E X)) : P _ op → only P (try_ op).
Proof. done. Qed.
Lemma only_ask {Op E X} (P : ∀ X, Op X → Prop) (op : Op X) : P _ op → only P (ask (E:=E) op).
Proof. done. Qed.
Lemma only_liftr {Op E A} (P : ∀ X, Op X → Prop) (r : res E A) : only P (liftr (Op:=Op) r).
Proof. done. Qed.

Section semantics.
Context {Op : Type → Type} {W : Type} (handle : ∀ X, Op X → W → X → W → Prop).

(** A complete execution with nothing in between. *)
Fixpoint exec {A} (p : prog Op A) (w : W) (a : A) (w' : W) : Prop :=
  match p with
  | Done a' => a' = a ∧ w' = w
  | Vis op k => ∃ x w1, handle _ op w x w1 ∧ exec (k x) w1 a w'
  end.

Lemma exec_total {A} (p : prog Op A) w :
  (∀ X (op : Op X) w, ∃ x w', handle _ op w x w') → ∃ a w', exec p w a w'.
Proof.
  intros Htotal. revert w. induction p as [a|X op k IH]; intros w; simpl; [by eauto|].
  destruct (Htotal X op w) as (x & w1 & Hop). destruct (IH x w1) as (a & w' & Hk). eauto 6.
Qed.

(** One call of a program. *)
Definition call_step {A} (p : prog Op A) (w : W) (p' : prog Op A) (w' : W) : Prop :=
  match p with
  | Done _ => False
  | Vis op k => ∃ x, handle _ op w x w' ∧ p' = k x
  end.

Lemma exec_bind {A B} (p : prog Op A) (f : A → prog Op B) w b w' :
  exec (prog_bind p f) w b w' ↔ ∃ a w1, exec p w a w1 ∧ exec (f a) w1 b w'.
Proof.
  revert w. induction p as [a|X op k IH]; intros w; simpl.
  - naive_solver.
  - split.
    + intros (x & w1 & Hop & Hk). apply IH in Hk. naive_solver.
    + intros (a & w1 & (x & w2 & Hop & Hk) & Hf). exists x, w2. rewrite IH. naive_solver.
Qed.

Lemma exec_then {E A B} (p : effect Op E A) (f : A → effect Op E B) w a w1 b w' :
  exec p w (Ok a) w1 → exec (f a) w1 b w' → exec (p ≫= f) w b w'.
Proof. intros Hp Hf. apply exec_bind. eauto. Qed.
Lemma exec_ask {E X A} (op : Op X) (k : X → effect Op E A) w x w1 a w' :
  handle _ op w x w1 → exec (k x) w1 a w' → exec (ask op ≫= k) w a w'.
Proof. intros Hop Hk. exists x, w1. done. Qed.
Lemma exec_liftr {E A B} (r : res E A) (f : A → effect Op E B) w a b w' :
  r = Ok a → exec (f a) w b w' → exec (liftr r ≫= f) w b w'.
Proof. by intros -> Hf. Qed.

(** The programs of a pool and the environment run in any order, and new
    programs start at any time.  A program that is not scheduled again has
    crashed. *)
Inductive pool_step {A} (env : W → W → Prop) (starts : prog Op A → Prop) :
  list (prog Op A) * W → list (prog Op A) * W → Prop :=
| pool_call ps i p p' w w' :
    ps !! i = Some p → call_step p w p' w' →
    pool_step env starts (ps, w) (<[i := p']> ps, w')
| pool_env ps w w' : env w w' → pool_step env starts (ps, w) (ps, w')
| pool_spawn ps p w : starts p → pool_step env starts (ps, w) (ps ++ [p], w).

(** An uninterrupted execution is one of the interleavings. *)
Lemma exec_pool {A} env starts (p : prog Op A) w a w' :
  exec p w a w' → rtc (pool_step env starts) ([p], w) ([Done a], w').
Proof.
  revert w. induction p as [b|X op k IH]; intros w; simpl.
  - by intros [-> ->].
  - intros (x & w1 & Hop & Hk). eapply rtc_l; [|by eapply IH].
    apply (pool_call env starts [Vis op k] 0 (Vis op k) (k x)); [done|]. by exists x.
Qed.

(** What every call and the environment preserve, pools preserve. *)
Lemma pool_invariant {A} (J : W → Prop) env starts (ps : list (prog Op A)) w ps' w' :
  (∀ X (op : Op X) w1 x w2, handle _ op w1 x w2 → J w1 → J w2) →
  (∀ w1 w2, env w1 w2 → J w1 → J w2) →
  rtc (pool_step env starts) (ps, w) (ps', w') → J w → J w'.
Proof.
  intros Hop Henv Hrun. remember (ps, w) as s eqn:Es. remember (ps', w') as s' eqn:Es'.
  revert ps w Es. induction Hrun as [s|s [ps1 w1] s' Hstep _ IH]; intros ps w -> HJ;
    [by simplify_eq|].
  apply (IH Es' ps1 w1 eq_refl). inversion Hstep as [? i p p' ? w2 Hi Hcall| |]; simplify_eq; eauto.
  destruct p as [b|X op k]; simpl in Hcall; [done|]. destruct Hcall as (x & Hx & ->). eauto.
Qed.
End semantics.

(** ** Rely and guarantee *)
Section safety.
Context {Op : Type → Type} {W : Type} (handle : ∀ X, Op X → W → X → W → Prop).
Context (I : W → Prop) (R : W → W → Prop) {R_preorder : PreOrder R}.

(** [safe Q p w]: from [w], whatever [R] allows in between, each call of [p]
    keeps [I] and moves along [R], and [p] ends in [Q]. *)
Fixpoint safe {A} (Q : A → W → Prop) (p : prog Op A) (w : W) : Prop :=
  match p with
  | Done a => ∀ w', R w w' → I w' → Q a w'
  | Vis op k => ∀ w1, R w w1 → I w1 → ∀ x w2, handle _ op w1 x w2 →
      I w2 ∧ R w1 w2 ∧ safe Q (k x) w2
  end.

Lemma safe_rely {A} (Q : A → W → Prop) p w w' : R w w' → safe Q p w → safe Q p w'.
Proof using R_preorder. intros Hw. destruct p; simpl; intros H w1 ?; apply H; by etrans. Qed.

Lemma safe_bind {A B} (Q : B → W → Prop) (p : prog Op A) (f : A → prog Op B) w :
  safe (λ a w', safe Q (f a) w') p w → safe Q (prog_bind p f) w.
Proof using R_preorder.
  revert w. induction p as [a|X op k IH]; intros w; simpl.
  - destruct (f a); simpl; intros H w1 Hw1 HI; by apply (H w1 Hw1 HI).
  - intros H w1 Hw1 HI x w2 Hop. destruct (H w1 Hw1 HI x w2 Hop) as (? & ? & ?). auto.
Qed.

Lemma safe_mono {A} (P Q : A → W → Prop) p w :
  (∀ a w', R w w' → P a w' → Q a w') → safe P p w → safe Q p w.
Proof using R_preorder.
  revert w. induction p as [a|X op k IH]; intros w HPQ; simpl.
  - auto.
  - intros H w1 Hw1 HI x w2 Hop. destruct (H w1 Hw1 HI x w2 Hop) as (? & ? & Hk).
    split_and!; [done..|]. apply IH; [|done].
    intros a w' Hw'. apply HPQ. by repeat (etrans; [eassumption|]).
Qed.

Lemma safe_exec {A} (Q : A → W → Prop) p w a w' :
  safe Q p w → I w → exec handle p w a w' → I w' ∧ R w w' ∧ Q a w'.
Proof using R_preorder.
  revert w. induction p as [b|X op k IH]; intros w Hsafe HI; simpl.
  - intros [-> ->]. split_and!; [done..|]. by apply Hsafe.
  - intros (x & w1 & Hop & Hk). destruct (Hsafe w ltac:(done) HI x w1 Hop) as (? & ? & Hsafe').
    destruct (IH x w1 Hsafe') as (? & ? & ?); [done..|]. split_and!; [done|by etrans|done].
Qed.

(** A call that returns a [Result], followed by [?]. *)
Lemma safe_try {E X A} (op : Op (res E X)) (k : X → effect Op E A) Q w :
  (∀ w1, R w w1 → I w1 → ∀ x w2, handle _ op w1 x w2 →
     I w2 ∧ R w1 w2 ∧
     match x with
     | Ok a => safe Q (k a) w2
     | Err e => safe Q (Done (Err e)) w2
     | Panic s => safe Q (Done (Panic s)) w2
     end) →
  safe Q (try_ op ≫= k) w.
Proof using Type.
  intros Hop. simpl. intros w1 Hw1 HI x w2 Hx. destruct (Hop w1 Hw1 HI x w2 Hx) as (? & ? & ?).
  split_and!; [done..|]. by destruct x.
Qed.

Lemma safe_ask {E X A} (op : Op X) (k : X → effect Op E A) Q w :
  (∀ w1, R w w1 → I w1 → ∀ x w2, handle _ op w1 x w2 → I w2 ∧ R w1 w2 ∧ safe Q (k x) w2) →
  safe Q (ask op ≫= k) w.
Proof using Type. done. Qed.
Lemma safe_then {E A B} (p : effect Op E A) (f : A → effect Op E B) Q w :
  safe (λ r w', match r with
                | Ok a => safe Q (f a) w'
                | Err e => safe Q (Done (Err e)) w'
                | Panic s => safe Q (Done (Panic s)) w'
                end) p w →
  safe Q (p ≫= f) w.
Proof using R_preorder.
  intros Hp. apply safe_bind. eapply safe_mono; [|exact Hp]. by intros [] w' _.
Qed.
Lemma safe_liftr {E A B} (r : res E A) (f : A → effect Op E B) Q w :
  match r with
  | Ok a => safe Q (f a) w
  | Err e => safe Q (Done (Err e)) w
  | Panic s => safe Q (Done (Panic s)) w
  end →
  safe Q (liftr r ≫= f) w.
Proof using Type. by destruct r. Qed.

(** A program whose calls all keep [I] and move along [R]. *)
Lemma safe_only {A} (P : ∀ X, Op X → Prop) (p : prog Op A) w :
  (∀ X (op : Op X) w1 x w2, P X op → handle _ op w1 x w2 → I w1 → I w2 ∧ R w1 w2) →
  only P p → safe (λ _ _, True) p w.
Proof using Type.
  intros HP. revert w. induction p as [a|X op k IH]; intros w; simpl; [done|].
  intros [Hop Hk] w1 _ HI x w2 Hx. destruct (HP X op w1 x w2 Hop Hx HI) as [? ?]. auto.
Qed.

(** A pool of safe programs keeps the invariant, however its programs and
    an environment that respects [I] and [R] interleave. *)
Lemma pool_safe {A} (Q : A → W → Prop) env starts ps w ps' w' :
  (∀ w1 w2, env w1 w2 → I w1 → I w2 ∧ R w1 w2) →
  (∀ p w1, starts p → I w1 → safe Q p w1) →
  Forall (λ p, safe Q p w) ps → I w →
  rtc (pool_step handle env starts) (ps, w) (ps', w') →
  I w' ∧ R w w' ∧ Forall (λ p, safe Q p w') ps'.
Proof using R_preorder.
  intros Henv Hstarts Hps HI Hrun.
  remember (ps, w) as s eqn:Es. remember (ps', w') as s' eqn:Es'.
  revert ps w Hps HI Es. induction Hrun as [s|s s1 s' Hstep _ IH]; intros ps w Hps HI ->.
  - by simplify_eq.
  - specialize (IH Es').
    assert (∃ ps1 w1, s1 = (ps1, w1) ∧ Forall (λ p, safe Q p w1) ps1 ∧ I w1 ∧ R w w1)
      as (ps1 & w1 & -> & Hps1 & HI1 & HR1).
    { inversion Hstep as [? i p p' ? w1 Hi Hcall|? ? w1 Hw1|? p ? Hp]; simplify_eq.
      - destruct p as [b|X op k]; simpl in Hcall; [done|]. destruct Hcall as (x & Hop & ->).
        rewrite Forall_lookup in Hps. destruct (Hps i _ Hi w ltac:(done) HI x w1 Hop) as (? & ? & ?).
        eexists _, _. split_and!; [done| |done..]. apply Forall_insert; [|done].
        apply Forall_lookup. intros j q Hq. by eapply safe_rely, Hps.
      - destruct (Henv w w1) as [? ?]; [done..|]. eexists _, _. split_and!; [done| |done..].
        eapply Forall_impl; [done|]. intros q. by apply safe_rely.
      - eexists _, _. split_and!; [done| |done..]. apply Forall_app. split; [done|].
        by apply Forall_singleton, Hstarts. }
    destruct (IH ps1 w1 Hps1 HI1 eq_refl) as (? & ? & ?). split_and!; [done|by etrans|done].
Qed.
End safety.
