(* ===== verification/Bytes.v ===== *)
(** * Bytes

    Fixed-width numbers, most significant byte first, and strings with their
    length in front: what the digests hash and the storage keys are made of.
    Such encodings can be read back, and the order of the bytes is the order
    of the numbers. *)

From Stdlib Require Import Ascii.
From S2P Require Import Prelude.
From stdpp Require Import options.

(** ** Numbers and strings as bytes *)
Fixpoint be_bytes (n : nat) (v : N) : string :=
  match n with
  | 0 => ""
  | S n => be_bytes n (v / 256) +:+ String (ascii_of_N (v mod 256)) ""
  end.
Definition canonical_u64 (v : N) : string := be_bytes 8 v.
Definition canonical_u8 (v : N) : string := String (ascii_of_N v) "".
Definition canonical_bytes (value : string) : string :=
  canonical_u64 (N.of_nat (String.length value)) +:+ value.

(** [from_be_bytes] *)
Fixpoint be_value (acc : N) (s : string) : N :=
  match s with
  | "" => acc
  | String a s => be_value (256 * acc + N_of_ascii a) s
  end.
(** [<[u8; 8]>::try_from] followed by [u64::from_be_bytes]. *)
Definition u64_from_be (s : string) : option N :=
  if (String.length s =? 8)%nat then Some (be_value 0 s) else None.

(** ** Reading back *)
Lemma length_be_bytes n v : String.length (be_bytes n v) = n.
Proof.
  revert v. induction n as [|n IH]; intros v; simpl; [done|]. rewrite length_append, IH. simpl. lia.
Qed.

Lemma be_bytes_inj n v w :
  (v < 256 ^ N.of_nat n)%N → (w < 256 ^ N.of_nat n)%N → be_bytes n v = be_bytes n w → v = w.
Proof.
  revert v w. induction n as [|n IH]; intros v w Hv Hw; simpl.
  { intros _. change (256 ^ N.of_nat 0)%N with 1%N in *. lia. }
  intros [Hdiv Hmod]%append_inj; [|by rewrite !length_be_bytes].
  rewrite Nat2N.inj_succ, N.pow_succ_r' in Hv, Hw.
  apply IH in Hdiv; [|apply N.Div0.div_lt_upper_bound; lia..].
  injection Hmod as Hmod. apply (f_equal N_of_ascii) in Hmod.
  rewrite !N_ascii_embedding in Hmod by (apply N.mod_lt; lia).
  rewrite (N.div_mod v 256), (N.div_mod w 256) by lia. congruence.
Qed.

Definition fits (s : string) : Prop := (N.of_nat (String.length s) ≤ u64_max)%N.

Lemma canonical_u64_inj v w s t :
  (v ≤ u64_max)%N → (w ≤ u64_max)%N → canonical_u64 v +:+ s = canonical_u64 w +:+ t →
  v = w ∧ s = t.
Proof.
  intros Hv Hw [Heq ->]%append_inj; [|by unfold canonical_u64; rewrite !length_be_bytes].
  split; [|done]. apply (be_bytes_inj 8); [..|done];
    change (256 ^ N.of_nat 8)%N with (u64_max + 1)%N; lia.
Qed.

Lemma canonical_bytes_inj x y s t :
  fits x → fits y → canonical_bytes x +:+ s = canonical_bytes y +:+ t → x = y ∧ s = t.
Proof.
  unfold fits, canonical_bytes. rewrite !append_assoc.
  intros Hx Hy [Hlen Heq]%canonical_u64_inj; [|done|done].
  apply append_inj in Heq; [done|lia].
Qed.

(** [peel H] reads the fields off two equal canonical encodings, one by one. *)
Ltac peel_step H :=
  lazymatch type of H with
  | canonical_bytes _ +:+ _ = canonical_bytes _ +:+ _ =>
      apply canonical_bytes_inj in H as [? H]; [|assumption..]
  | canonical_u64 _ +:+ _ = canonical_u64 _ +:+ _ =>
      apply canonical_u64_inj in H as [? H]; [|assumption..]
  | canonical_u8 _ +:+ _ = canonical_u8 _ +:+ _ =>
      apply append_inj in H as [? H]; [|reflexivity]
  end.
Ltac peel H := repeat peel_step H.

Lemma be_value_app acc s t : be_value acc (s +:+ t) = be_value (be_value acc s) t.
Proof. revert acc. induction s as [|a s IH]; intros acc; [done|]. apply IH. Qed.

Lemma be_value_bytes n v : (v < 256 ^ N.of_nat n)%N → be_value 0 (be_bytes n v) = v.
Proof.
  revert v. induction n as [|n IH]; intros v Hv; simpl.
  { change (256 ^ N.of_nat 0)%N with 1%N in Hv. lia. }
  rewrite Nat2N.inj_succ, N.pow_succ_r' in Hv.
  rewrite be_value_app, IH by (apply N.Div0.div_lt_upper_bound; lia). simpl.
  rewrite N_ascii_embedding by (apply N.mod_lt; lia). symmetry. apply N.div_mod. lia.
Qed.

Lemma u64_from_be_bytes v : (v ≤ u64_max)%N → u64_from_be (be_bytes 8 v) = Some v.
Proof.
  intros Hv. unfold u64_from_be. rewrite length_be_bytes, Nat.eqb_refl. f_equal.
  apply be_value_bytes. change (256 ^ N.of_nat 8)%N with (u64_max + 1)%N. lia.
Qed.

Lemma be_bytes_8_inj n n' :
  (n ≤ u64_max)%N → (n' ≤ u64_max)%N → be_bytes 8 n = be_bytes 8 n' → n = n'.
Proof.
  intros Hn Hn'. apply be_bytes_inj; change (256 ^ N.of_nat 8)%N with (u64_max + 1)%N; lia.
Qed.

Lemma be_value_max acc s :
  (be_value acc s < 256 ^ N.of_nat (String.length s) * (acc + 1))%N.
Proof.
  revert acc. induction s as [|a s IH]; intros acc; simpl; [lia|].
  specialize (IH (256 * acc + N_of_ascii a)%N). pose proof (N_ascii_bounded a).
  rewrite Nat2N.inj_succ, N.pow_succ_r'. nia.
Qed.

Lemma u64_from_be_max s n : u64_from_be s = Some n → (n ≤ u64_max)%N.
Proof.
  unfold u64_from_be. destruct (Nat.eqb_spec (String.length s) 8) as [Hlen|]; [|done]. intros [= <-].
  pose proof (be_value_max 0 s) as Hmax. rewrite Hlen in Hmax.
  change (256 ^ N.of_nat 8 * (0 + 1))%N with (u64_max + 1)%N in Hmax. lia.
Qed.
