(* ===== verification/RaftBatch.v ===== *)
(** * Replicated write batches

    [crates/bpmp-raft-state-machine/src/lib.rs]: a leader prepares a batch of
    conditional writes, consensus replicates it, and every node validates and
    applies it to its own storage in one step. The consensus protocol itself
    (the package openraft) chooses the log; its types of log positions and
    memberships are parameters, as are SHA-256 and the JSON texts. *)

From Stdlib Require Import Ascii.
From S2P Require Import Prelude Bytes.
From stdpp Require Import options.

(** The types of openraft the state machine passes on. *)
Class RaftTypes := {
  LogId : Type;
  Membership : Type;
  LogId_eq_dec :: EqDecision LogId;
  Membership_eq_dec :: EqDecision Membership;
  Membership_default : Membership;
  (** [leader_id] and [index] as they are displayed *)
  leader_id_display : LogId → string;
  log_index : LogId → N }.

(** ** Data *)
Abbreviation ValueDigest := string (only parsing).

Record StateMachineLimits := mkLimits {
  sl_max_conditions : N;
  sl_max_mutations : N;
  sl_max_batch_bytes : N;
  sl_max_snapshot_bytes : N;
  sl_snapshot_directory : string;
  sl_append_only_column_families : gset string }.

(** Column family and key. *)
Abbreviation StorageKey := (string * string)%type.

Inductive ExpectedValue := ExpectedMissing | ExpectedDigest (digest : ValueDigest).
#[global] Instance ExpectedValue_eq_dec : EqDecision ExpectedValue.
Proof. solve_decision. Defined.
Record Precondition := mkPrecondition {
  pre_storage_key : StorageKey;
  pre_expected : ExpectedValue }.
Inductive Mutation :=
| Put (storage_key : StorageKey) (value : string)
| Delete (storage_key : StorageKey).
Definition mutation_key (m : Mutation) : StorageKey :=
  match m with Put storage_key _ | Delete storage_key => storage_key end.

Record PreparedAtomicBatch := mkBatch {
  pb_command_id : string;
  pb_idempotency_scope : string;
  pb_preconditions : list Precondition;
  pb_mutations : list Mutation;
  pb_response_payload : string;
  pb_batch_digest : ValueDigest }.

Inductive ApplyOutcome :=
| Applied
| Apply_Duplicate
| PreconditionFailed (condition_index : N)
| Rejected (reason : string).
#[global] Instance ApplyOutcome_eq_dec : EqDecision ApplyOutcome.
Proof. solve_decision. Defined.
Record ApplyResponse := mkResponse {
  ar_command_id : string;
  ar_batch_digest : ValueDigest;
  ar_outcome : ApplyOutcome;
  ar_response_payload : string }.

Inductive BatchValidationError :=
| InvalidLimits | MissingIdentity | DigestMismatch | ConditionLimitExceeded | MutationLimitExceeded
| BatchByteLimitExceeded | Batch_Serialization | InvalidStorageKey | DuplicateCondition
| DuplicateMutation | AppendOnlyViolation.
Definition BatchValidationError_display (e : BatchValidationError) : string :=
  match e with
  | InvalidLimits => "state-machine limits are invalid"
  | MissingIdentity => "batch command or idempotency identity is missing"
  | DigestMismatch => "batch digest does not match its canonical contents"
  | ConditionLimitExceeded => "batch condition count exceeds configured limit"
  | MutationLimitExceeded => "batch mutation count exceeds configured limit"
  | BatchByteLimitExceeded => "serialized batch exceeds configured byte limit"
  | Batch_Serialization => "batch cannot be serialized"
  | InvalidStorageKey => "storage key has an empty column family or key"
  | DuplicateCondition => "batch contains duplicate preconditions"
  | DuplicateMutation => "batch contains duplicate mutations"
  | AppendOnlyViolation => "batch would overwrite or delete append-only state"
  end.
Abbreviation AtomicStorageError := string (only parsing).

Definition StateMachineLimits_validate (l : StateMachineLimits) : res BatchValidationError unit :=
  bail_if ((sl_max_conditions l =? 0)%N || (sl_max_mutations l =? 0)%N
           || (sl_max_batch_bytes l =? 0)%N || (sl_max_snapshot_bytes l =? 0)%N
           || bool_decide (sl_snapshot_directory l = "")) InvalidLimits;;
  bail_if (existsb is_blank (btree_set_iter (sl_append_only_column_families l))) InvalidLimits.

Definition validate_storage_key (key : StorageKey) : res BatchValidationError unit :=
  bail_if (is_blank key.1 || bool_decide (key.2 = "")) InvalidStorageKey.

(** ** The canonical bytes of a batch *)
Definition key_bytes (key : StorageKey) : string := canonical_bytes key.1 +:+ canonical_bytes key.2.
Definition precondition_bytes (c : Precondition) : string :=
  key_bytes (pre_storage_key c) +:+
  match pre_expected c with
  | ExpectedMissing => canonical_u8 0
  | ExpectedDigest digest => canonical_u8 1 +:+ digest
  end.
Definition mutation_bytes (m : Mutation) : string :=
  match m with
  | Put storage_key value => canonical_u8 1 +:+ key_bytes storage_key +:+ canonical_bytes value
  | Delete storage_key => canonical_u8 2 +:+ key_bytes storage_key
  end.
Definition concat_bytes {A} (f : A → string) (l : list A) : string :=
  foldr (λ x s, f x +:+ s) "" l.
Definition batch_bytes (b : PreparedAtomicBatch) : string :=
  canonical_bytes "bpmp-authoritative-atomic-batch-v1" +:+
  canonical_bytes (pb_command_id b) +:+
  canonical_bytes (pb_idempotency_scope b) +:+
  canonical_u64 (N.of_nat (length (pb_preconditions b))) +:+
  concat_bytes precondition_bytes (pb_preconditions b) +:+
  canonical_u64 (N.of_nat (length (pb_mutations b))) +:+
  concat_bytes mutation_bytes (pb_mutations b) +:+
  canonical_bytes (pb_response_payload b).

Section batch.
Context (sha256 : string → ValueDigest) (batch_json : PreparedAtomicBatch → option string).

Definition value_digest (value : string) : ValueDigest := sha256 value.
Definition calculate_digest (b : PreparedAtomicBatch) : ValueDigest := sha256 (batch_bytes b).

Definition PreparedAtomicBatch_new (command_id idempotency_scope : string)
    (preconditions : list Precondition) (mutations : list Mutation) (response_payload : string) :
    PreparedAtomicBatch :=
  let batch digest :=
    mkBatch command_id idempotency_scope preconditions mutations response_payload digest in
  batch (calculate_digest (batch (be_bytes 32 0))).

Definition is_delete (m : Mutation) : bool := match m with Delete _ => true | Put _ _ => false end.

Definition PreparedAtomicBatch_validate (b : PreparedAtomicBatch) (limits : StateMachineLimits) :
    res BatchValidationError unit :=
  StateMachineLimits_validate limits;;
  bail_if (is_blank (pb_command_id b) || bool_decide (pb_idempotency_scope b = "")) MissingIdentity;;
  bail_if (bool_decide (calculate_digest b ≠ pb_batch_digest b)) DigestMismatch;;
  bail_if (sl_max_conditions limits <? N.of_nat (length (pb_preconditions b)))%N
    ConditionLimitExceeded;;
  bail_if (sl_max_mutations limits <? N.of_nat (length (pb_mutations b)))%N MutationLimitExceeded;;
  json ← ok_or (batch_json b) Batch_Serialization;
  bail_if (sl_max_batch_bytes limits <? N.of_nat (String.length json))%N BatchByteLimitExceeded;;
  for_each (λ (conditions : gset StorageKey) condition,
    validate_storage_key (pre_storage_key condition);;
    bail_if (bool_decide (pre_storage_key condition ∈ conditions)) DuplicateCondition;;
    Ok ({[pre_storage_key condition]} ∪ conditions)) (pb_preconditions b) ∅;;
  for_each (λ (mutations : gset StorageKey) mutation,
    let key := mutation_key mutation in
    validate_storage_key key;;
    bail_if (bool_decide (key ∈ mutations)) DuplicateMutation;;
    bail_if (bool_decide (key.1 ∈ sl_append_only_column_families limits)
             && (is_delete mutation
                 || negb (existsb (λ condition,
                      bool_decide (pre_storage_key condition = key)
                      && bool_decide (pre_expected condition = ExpectedMissing))
                      (pb_preconditions b)))) AppendOnlyViolation;;
    Ok ({[key]} ∪ mutations)) (pb_mutations b) ∅;;
  Ok tt.

Definition rejected (b : PreparedAtomicBatch) (reason : string) : ApplyResponse :=
  mkResponse (pb_command_id b) (pb_batch_digest b) (Rejected reason) "".

Definition satisfied (expected : ExpectedValue) (actual : option string) : bool :=
  match expected, actual with
  | ExpectedMissing, None => true
  | ExpectedDigest digest, Some value => bool_decide (value_digest value = digest)
  | _, _ => false
  end.
End batch.

(** ** The storage port *)
Section metadata.
Context `{RaftTypes}.

(** [StoredMembership]: where it was logged, and the membership. *)
Definition StoredMembership : Type := option LogId * Membership.
Record StateMachineMetadata := mkMetadata {
  md_last_applied : option LogId;
  md_membership : StoredMembership }.
#[global] Instance StateMachineMetadata_eq_dec : EqDecision StateMachineMetadata.
Proof. solve_decision. Defined.
Definition StateMachineMetadata_default : StateMachineMetadata :=
  mkMetadata None (None, Membership_default).

Class AtomicStateStorage (S : Type) := {
  load_metadata : S → res AtomicStorageError StateMachineMetadata;
  persist_metadata : StateMachineMetadata → method S AtomicStorageError unit;
  storage_apply : PreparedAtomicBatch → StateMachineLimits → StateMachineMetadata →
    method S AtomicStorageError ApplyResponse;
  export_snapshot_with_metadata : S → res AtomicStorageError (string * StateMachineMetadata);
  storage_install_snapshot : string → StateMachineMetadata → method S AtomicStorageError unit }.

(** ** The storage in memory *)
Record AppliedCommand := mkApplied {
  ap_command_id : string;
  ap_batch_digest : ValueDigest;
  ap_response_payload : string }.
#[global] Instance AppliedCommand_eq_dec : EqDecision AppliedCommand.
Proof. solve_decision. Defined.
Record InMemoryState := mkInMemory {
  im_records : gmap StorageKey string;
  im_applied : gmap string AppliedCommand;
  im_metadata : StateMachineMetadata }.
Definition InMemoryState_default : InMemoryState := mkInMemory ∅ ∅ StateMachineMetadata_default.
(** [SerializableInMemoryState] *)
Record SerializableInMemoryState := mkSerializable {
  se_records : list (StorageKey * string);
  se_applied : list (string * AppliedCommand) }.

(** [BTreeMap<StorageKey, _>] iterates by column family, then by key. *)
Definition storage_le {V} (p q : StorageKey * V) : Prop :=
  p.1.1 ≠ q.1.1 ∧ String.le p.1.1 q.1.1 ∨ p.1.1 = q.1.1 ∧ String.le p.1.2 q.1.2.
#[global] Instance storage_le_dec {V} : RelDecision (@storage_le V).
Proof. intros p q. unfold storage_le. apply _. Defined.
Definition storage_iter (records : gmap StorageKey string) : list (StorageKey * string) :=
  merge_sort storage_le (map_to_list records).

Definition im_with_metadata (metadata : StateMachineMetadata) (s : InMemoryState) : InMemoryState :=
  mkInMemory (im_records s) (im_applied s) metadata.
Definition apply_mutation_record (records : gmap StorageKey string) (m : Mutation) :
    gmap StorageKey string :=
  match m with
  | Put storage_key value => <[storage_key:=value]> records
  | Delete storage_key => delete storage_key records
  end.

Section memory.
Context (sha256 : string → ValueDigest) (batch_json : PreparedAtomicBatch → option string).
(** [serde_json] on the exported state *)
Context (state_json : SerializableInMemoryState → res AtomicStorageError string)
  (state_parse : string → res AtomicStorageError SerializableInMemoryState).

(** The index of the first condition that does not hold. *)
Fixpoint first_unsatisfied (records : gmap StorageKey string) (index : nat)
    (conditions : list Precondition) : option nat :=
  match conditions with
  | [] => None
  | condition :: conditions =>
      if satisfied sha256 (pre_expected condition) (records !! pre_storage_key condition)
      then first_unsatisfied records (S index) conditions else Some index
  end.

Definition im_apply (b : PreparedAtomicBatch) (limits : StateMachineLimits)
    (metadata : StateMachineMetadata) : method InMemoryState AtomicStorageError ApplyResponse :=
  λ s,
  let unchanged := im_with_metadata metadata s in
  match PreparedAtomicBatch_validate sha256 batch_json b limits with
  | Err error => (unchanged, Ok (rejected b (BatchValidationError_display error)))
  | Panic message => (s, Panic message)
  | Ok _ =>
      match im_applied s !! pb_idempotency_scope b with
      | Some applied =>
          (unchanged,
           Ok (if bool_decide (ap_command_id applied = pb_command_id b)
                  && bool_decide (ap_batch_digest applied = pb_batch_digest b)
               then mkResponse (ap_command_id applied) (ap_batch_digest applied) Apply_Duplicate
                      (ap_response_payload applied)
               else rejected b "idempotency-scope-conflict"))
      | None =>
          match first_unsatisfied (im_records s) 0 (pb_preconditions b) with
          | Some index =>
              (unchanged,
               Ok (mkResponse (pb_command_id b) (pb_batch_digest b)
                     (PreconditionFailed (default u32_max (u32_of_usize index))) ""))
          | None =>
              (mkInMemory
                 (foldl apply_mutation_record (im_records s) (pb_mutations b))
                 (<[pb_idempotency_scope b:=
                    mkApplied (pb_command_id b) (pb_batch_digest b) (pb_response_payload b)]>
                    (im_applied s))
                 metadata,
               Ok (mkResponse (pb_command_id b) (pb_batch_digest b) Applied
                     (pb_response_payload b)))
          end
      end
  end.

Definition im_export (s : InMemoryState) : res AtomicStorageError (string * StateMachineMetadata) :=
  bytes ← state_json (mkSerializable (storage_iter (im_records s)) (btree_iter (im_applied s)));
  Ok (bytes, im_metadata s).
Definition im_install (snapshot : string) (metadata : StateMachineMetadata) :
    method InMemoryState AtomicStorageError unit :=
  serializable ← lift (state_parse snapshot);
  set_self (mkInMemory (btree_extend ∅ (se_records serializable))
              (btree_extend ∅ (se_applied serializable)) metadata).

Definition memory_storage : AtomicStateStorage InMemoryState := {|
  load_metadata s := Ok (im_metadata s);
  persist_metadata metadata := s ← self; set_self (im_with_metadata metadata s);
  storage_apply := im_apply;
  export_snapshot_with_metadata := im_export;
  storage_install_snapshot := im_install |}.
End memory.
End metadata.

(** ** Validation *)
Section validation.
Context (sha256 : string → ValueDigest) (batch_json : PreparedAtomicBatch → option string).
Context (limits : StateMachineLimits).
Implicit Types (b : PreparedAtomicBatch).

Lemma validate_no_panic b s : PreparedAtomicBatch_validate sha256 batch_json b limits ≠ Panic s.
Proof.
  intros H. unfold PreparedAtomicBatch_validate, StateMachineLimits_validate in H. no_panic H;
    revert H; apply for_each_no_panic; intros ???? H; unfold validate_storage_key in H; no_panic H.
Qed.

(** What a batch that passes validation is like. *)
Record valid_batch b : Prop := {
  vb_digest : calculate_digest sha256 b = pb_batch_digest b;
  vb_conditions : NoDup (pre_storage_key <$> pb_preconditions b);
  vb_mutations : NoDup (mutation_key <$> pb_mutations b);
  vb_append_only m : m ∈ pb_mutations b →
    (mutation_key m).1 ∈ sl_append_only_column_families limits →
    (∃ value, m = Put (mutation_key m) value)
    ∧ mkPrecondition (mutation_key m) ExpectedMissing ∈ pb_preconditions b }.

(** A loop that inserts fresh keys into a set visits distinct keys. *)
Lemma for_each_fresh {E B} (key : B → StorageKey) (P : B → Prop)
    (f : gset StorageKey → B → res E (gset StorageKey)) l keys :
  for_each f l ∅ = Ok keys →
  (∀ seen x seen', f seen x = Ok seen' → key x ∉ seen ∧ seen' = {[key x]} ∪ seen ∧ P x) →
  NoDup (key <$> l) ∧ ∀ x, x ∈ l → P x.
Proof.
  intros Hrun Hf.
  cut (keys = list_to_set (key <$> l) ∧ NoDup (key <$> l) ∧ ∀ x, x ∈ l → P x); [naive_solver|].
  eapply (for_each_inv f (λ seen keys, keys = list_to_set (key <$> seen) ∧
    NoDup (key <$> seen) ∧ ∀ x, x ∈ seen → P x)); [exact Hrun| |].
  { split_and!; [done|constructor|set_solver]. }
  intros seen x a1 a2 (-> & Hnd & HP) _ (Hnew & -> & Hx)%Hf. rewrite fmap_app. split_and!.
  - set_solver.
  - apply NoDup_app. split_and!; [done| |apply NoDup_singleton]. set_solver.
  - intros y [?| ->%list_elem_of_singleton]%elem_of_app; auto.
Qed.

Lemma validate_Ok b u :
  PreparedAtomicBatch_validate sha256 batch_json b limits = Ok u → valid_batch b.
Proof.
  unfold PreparedAtomicBatch_validate. intros H. inv_res H.
  rename select (for_each _ (pb_preconditions b) _ = _) into Hpre.
  rename select (for_each _ (pb_mutations b) _ = _) into Hmut.
  apply (for_each_fresh pre_storage_key (λ _, True)) in Hpre as [Hpre _].
  2:{ intros seen x seen' Hx. inv_res Hx.
      rename select (bool_decide (_ ∈ seen) = false) into Hn. by apply bool_decide_eq_false in Hn. }
  apply (for_each_fresh mutation_key (λ m,
    (mutation_key m).1 ∈ sl_append_only_column_families limits →
    (∃ value, m = Put (mutation_key m) value)
    ∧ mkPrecondition (mutation_key m) ExpectedMissing ∈ pb_preconditions b)) in Hmut as [Hmut Happ].
  { split; [|done..]. case_bool_decide; [done|]. naive_solver. }
  intros seen m seen' Hx. inv_res Hx.
  rename select (bool_decide (_ ∈ seen) = false) into Hn. apply bool_decide_eq_false in Hn.
  split_and!; [done..|].
  intros Hcf. rename select (_ && _ = false) into Hg. rewrite bool_decide_true in Hg by done. simpl in Hg.
  apply orb_false_iff in Hg as [Hdel Hex%negb_false_iff].
  split; [destruct m; [by eexists|done]|].
  apply existsb_exists in Hex as ([k e] & Hin & [Hk%bool_decide_eq_true He%bool_decide_eq_true]%andb_true_iff).
  simpl in *. subst. by apply list_elem_of_In.
Qed.
End validation.

(** ** The digest binds the batch *)
Record batch_fits (b : PreparedAtomicBatch) : Prop := {
  bf_command_id : fits (pb_command_id b);
  bf_scope : fits (pb_idempotency_scope b);
  bf_response : fits (pb_response_payload b);
  bf_conditions : (N.of_nat (length (pb_preconditions b)) ≤ u64_max)%N;
  bf_mutations : (N.of_nat (length (pb_mutations b)) ≤ u64_max)%N;
  bf_condition c : c ∈ pb_preconditions b →
    fits (pre_storage_key c).1 ∧ fits (pre_storage_key c).2 ∧
    ∀ d, pre_expected c = ExpectedDigest d → String.length d = 32;
  bf_mutation m : m ∈ pb_mutations b →
    fits (mutation_key m).1 ∧ fits (mutation_key m).2 ∧
    ∀ k v, m = Put k v → fits v }.

Lemma concat_bytes_inj {A} (f : A → string) l1 l2 s t :
  (∀ x y s t, x ∈ l1 → y ∈ l2 → f x +:+ s = f y +:+ t → x = y ∧ s = t) →
  length l1 = length l2 → concat_bytes f l1 +:+ s = concat_bytes f l2 +:+ t → l1 = l2 ∧ s = t.
Proof.
  revert l2. induction l1 as [|x l1 IH]; intros [|y l2] Hf Hlen; simpl; [done..|].
  rewrite !append_assoc. intros [-> Heq]%Hf; [|by left..].
  apply IH in Heq as [-> ->]; [done| |by injection Hlen]. intros ?? ?? ??. apply Hf; by right.
Qed.

Lemma key_bytes_inj k1 k2 s t :
  fits k1.1 → fits k1.2 → fits k2.1 → fits k2.2 →
  key_bytes k1 +:+ s = key_bytes k2 +:+ t → k1 = k2 ∧ s = t.
Proof.
  destruct k1, k2; simpl. intros ????. unfold key_bytes. rewrite !append_assoc. intros Heq. peel Heq.
  naive_solver.
Qed.

Lemma batch_bytes_inj b1 b2 :
  batch_fits b1 → batch_fits b2 → batch_bytes b1 = batch_bytes b2 →
  mkBatch (pb_command_id b1) (pb_idempotency_scope b1) (pb_preconditions b1) (pb_mutations b1)
    (pb_response_payload b1) (pb_batch_digest b2) = b2.
Proof.
  intros [] [] H. unfold batch_bytes in H.
  apply canonical_bytes_inj in H as [_ H]; [|by vm_compute..].
  peel H. rename select (N.of_nat (length (pb_preconditions b1)) = _) into Hpre.
  apply concat_bytes_inj in H as [Hpres H]; [| |lia].
  2:{ intros [k1 e1] [k2 e2] s t (?&?&He1)%bf_condition0 (?&?&He2)%bf_condition1.
      unfold precondition_bytes. rewrite !append_assoc. simpl in *.
      intros [-> Heq]%key_bytes_inj; [|done..].
      destruct e1 as [|d1], e2 as [|d2]; rewrite ?append_assoc in Heq;
        apply append_inj in Heq as [Hu8 Heq]; try done; subst; try done.
      apply append_inj in Heq as [-> ->]; [done|].
      by rewrite (He1 _ eq_refl), (He2 _ eq_refl). }
  peel H. apply concat_bytes_inj in H as [Hmuts H]; [| |lia].
  2:{ intros [k1 v1|k1] [k2 v2|k2] s t (?&?&Hv1)%bf_mutation0 (?&?&Hv2)%bf_mutation1;
        unfold mutation_bytes; rewrite !append_assoc; intros Heq;
        apply append_inj in Heq as [Hu8 Heq]; try done;
        apply key_bytes_inj in Heq as [-> Heq]; subst; try done.
      apply canonical_bytes_inj in Heq as [-> ->]; eauto. }
  apply (f_equal (λ s, s +:+ "")) in H. peel H. destruct b2. simpl in *. congruence.
Qed.

(** ** Applying a batch *)
Section applying.
Context `{RaftTypes}.
Context (sha256 : string → ValueDigest) (batch_json : PreparedAtomicBatch → option string).
Implicit Types (b : PreparedAtomicBatch) (s : InMemoryState) (records : gmap StorageKey string).

Definition condition_holds records (c : Precondition) : Prop :=
  satisfied sha256 (pre_expected c) (records !! pre_storage_key c) = true.

Lemma first_unsatisfied_None records index conditions :
  first_unsatisfied sha256 records index conditions = None ↔
  ∀ c, c ∈ conditions → condition_holds records c.
Proof.
  revert index. induction conditions as [|c cs IH]; intros index; simpl; [set_solver|].
  destruct (satisfied _ _ _) eqn:Hc.
  - rewrite IH. set_unfold. naive_solver.
  - split; [done|]. intros Hall. specialize (Hall c ltac:(by left)). unfold condition_holds in Hall. congruence.
Qed.

Definition applied_response b : ApplyResponse :=
  mkResponse (pb_command_id b) (pb_batch_digest b) Applied (pb_response_payload b).
Definition applied_command b : AppliedCommand :=
  mkApplied (pb_command_id b) (pb_batch_digest b) (pb_response_payload b).

(** A batch is applied as a whole or only advances the metadata. *)
Variant apply_result limits md b s : InMemoryState → ApplyResponse → Prop :=
| result_applied :
    valid_batch sha256 limits b →
    im_applied s !! pb_idempotency_scope b = None →
    (∀ c, c ∈ pb_preconditions b → condition_holds (im_records s) c) →
    apply_result limits md b s
      (mkInMemory (foldl apply_mutation_record (im_records s) (pb_mutations b))
         (<[pb_idempotency_scope b:=applied_command b]> (im_applied s)) md)
      (applied_response b)
| result_unchanged response :
    ar_outcome response ≠ Applied →
    apply_result limits md b s (im_with_metadata md s) response.

Lemma im_apply_result limits md b s :
  ∃ s' response, im_apply sha256 batch_json b limits md s = (s', Ok response)
    ∧ apply_result limits md b s s' response.
Proof.
  unfold im_apply. destruct (PreparedAtomicBatch_validate _ _ _ _) as [u|e|p] eqn:Hv.
  - apply validate_Ok in Hv. destruct (im_applied s !! _) as [a|] eqn:Ha.
    { eexists _, _. split; [done|]. apply result_unchanged. by case_match. }
    destruct (first_unsatisfied _ _ _ _) eqn:Hf; eexists _, _; (split; [done|]).
    + by apply result_unchanged.
    + apply result_applied; [done..|]. by apply (first_unsatisfied_None _ 0).
  - eexists _, _. split; [done|]. by apply result_unchanged.
  - by apply validate_no_panic in Hv.
Qed.

(** Mutations of distinct keys: each takes effect, and nothing else changes. *)
Definition mutation_value (m : Mutation) : option string :=
  match m with Put _ value => Some value | Delete _ => None end.

Lemma lookup_apply_mutation records m k :
  apply_mutation_record records m !! k =
  if decide (k = mutation_key m) then mutation_value m else records !! k.
Proof.
  destruct m; simpl; [rewrite lookup_insert|rewrite lookup_delete];
    repeat case_decide; congruence.
Qed.

Lemma apply_mutations_other records ms k :
  k ∉ mutation_key <$> ms → foldl apply_mutation_record records ms !! k = records !! k.
Proof.
  revert records. induction ms as [|m ms IH]; intros records; simpl; [done|].
  intros [Hm Hms]%not_elem_of_cons. rewrite IH, lookup_apply_mutation, decide_False by done. done.
Qed.

Lemma apply_mutations_key records ms m :
  NoDup (mutation_key <$> ms) → m ∈ ms →
  foldl apply_mutation_record records ms !! mutation_key m = mutation_value m.
Proof.
  revert records. induction ms as [|m' ms IH]; intros records; simpl; [set_solver|].
  intros [Hm' Hnd]%NoDup_cons [->|Hm]%elem_of_cons; [|by apply IH].
  by rewrite apply_mutations_other, lookup_apply_mutation, decide_True.
Qed.

(** A record of an append-only family stays as it is. *)
Lemma apply_append_only limits md b s s' response k v :
  apply_result limits md b s s' response →
  k.1 ∈ sl_append_only_column_families limits → im_records s !! k = Some v →
  im_records s' !! k = Some v.
Proof.
  intros [Hvalid _ Hpre|] Hk Hv; [|done]. simpl.
  rewrite apply_mutations_other; [done|]. intros (m & -> & Hm)%list_elem_of_fmap.
  destruct (vb_append_only _ _ _ Hvalid m Hm Hk) as [_ Hmissing%Hpre].
  unfold condition_holds in Hmissing. simpl in Hmissing. by rewrite Hv in Hmissing.
Qed.

Lemma apply_keeps_applied limits md b s s' response scope a :
  apply_result limits md b s s' response →
  im_applied s !! scope = Some a → im_applied s' !! scope = Some a.
Proof.
  intros [_ Hnew _|] Ha; [|done]. simpl. rewrite lookup_insert_ne; [done|congruence].
Qed.
End applying.
Arguments apply_result {_}.

(** ** What a storage promises

    A storage holds an [InMemoryState]. A call that succeeds has the effect
    the storage in memory specifies; one that fails has that effect or none.
    [batch_ok] are the batches the storage is meant for; [contents] reads the
    records and the applied commands of an exported snapshot. *)
Class LawfulStateStorage `{RaftTypes} (S : Type) `{!AtomicStateStorage S}
    (sha256 : string → ValueDigest) (batch_json : PreparedAtomicBatch → option string) := {
  state_view : S → InMemoryState;
  contents : string → option (gmap StorageKey string * gmap string AppliedCommand);
  batch_ok : PreparedAtomicBatch → Prop;
  load_metadata_law s md : load_metadata s = Ok md → md = im_metadata (state_view s);
  persist_metadata_law md s s' r : persist_metadata md s = (s', r) →
    state_view s' = im_with_metadata md (state_view s)
    ∨ is_ok r = false ∧ state_view s' = state_view s;
  storage_apply_law b limits md s s' r : batch_ok b → storage_apply b limits md s = (s', r) →
    (∃ response, im_apply sha256 batch_json b limits md (state_view s) =
       (state_view s', Ok response) ∧ ∀ response', r = Ok response' → response' = response)
    ∨ is_ok r = false ∧ state_view s' = state_view s;
  export_law s bytes md : export_snapshot_with_metadata s = Ok (bytes, md) →
    md = im_metadata (state_view s) ∧
    contents bytes = Some (im_records (state_view s), im_applied (state_view s));
  install_law bytes md s s' r : storage_install_snapshot bytes md s = (s', r) →
    (∃ records applied, contents bytes = Some (records, applied) ∧
       state_view s' = mkInMemory records applied md)
    ∨ is_ok r = false ∧ state_view s' = state_view s }.

(** The storage in memory keeps the promise, when the JSON text can be read
    back. *)
Section lawful_memory.
Context `{RaftTypes}.
Context (sha256 : string → ValueDigest) (batch_json : PreparedAtomicBatch → option string).
Context (state_json : SerializableInMemoryState → res AtomicStorageError string)
  (state_parse : string → res AtomicStorageError SerializableInMemoryState).
Hypothesis state_parse_json : ∀ state bytes, state_json state = Ok bytes → state_parse bytes = Ok state.

#[local] Existing Instance memory_storage.

Definition memory_contents (bytes : string) :
    option (gmap StorageKey string * gmap string AppliedCommand) :=
  match state_parse bytes with
  | Ok state => Some (btree_extend ∅ (se_records state), btree_extend ∅ (se_applied state))
  | _ => None
  end.

Definition memory_lawful :
  @LawfulStateStorage _ InMemoryState
    (memory_storage sha256 batch_json state_json state_parse) sha256 batch_json.
Proof using state_parse_json.
  refine {| state_view := id; contents := memory_contents; batch_ok := λ _, True |}.
  - intros s md [= <-]. done.
  - intros md s s' r [= <- <-]. by left.
  - intros b limits md s s' r _ Hrun. left.
    destruct (im_apply_result sha256 batch_json limits md b s) as (s1 & response & Heq & _).
    change (im_apply sha256 batch_json b limits md s = (s', r)) in Hrun. rewrite Heq in Hrun.
    injection Hrun as <- <-. exists response. split; [exact Heq|]. congruence.
  - intros s bytes md Hrun. change (im_export state_json s = Ok (bytes, md)) in Hrun.
    unfold im_export in Hrun. inv_res Hrun. split; [done|].
    rename select (state_json _ = Ok _) into Hjson. apply state_parse_json in Hjson.
    unfold memory_contents. rewrite Hjson. simpl. f_equal. f_equal; [|apply btree_extend_iter].
    apply btree_extend_perm, merge_sort_Permutation.
  - intros bytes md s s' r Hrun. change (im_install state_parse bytes md s = (s', r)) in Hrun.
    unfold im_install in Hrun. rewrite lift_then in Hrun. unfold memory_contents.
    destruct (state_parse bytes) as [state|e|p]; [|by injection Hrun as <- <-; right..].
    injection Hrun as <- <-. left. eauto.
Defined.
End lawful_memory.
