(* ===== verification/RaftMachine.v ===== *)
(** * The replicated state machine

    [AuthoritativeStateMachine] of [crates/bpmp-raft-state-machine/src/lib.rs]
    over any storage, the bounded snapshot files of [snapshot.rs], and clusters
    of such machines: consensus hands every machine the entries of one log,
    machines crash and restart, build snapshots and install those of others. *)

From Stdlib Require Import Ascii.
From S2P Require Import Prelude Bytes RaftBatch.
From stdpp Require Import options.

(** ** Bounded writing

    [BoundedWriter] counts down what may still be written; the serializer
    writes its text in pieces. *)
Definition oversized : string := "Raft snapshot byte budget exceeded".
Fixpoint bounded_write (remaining : N) (pieces : list string) : res string string :=
  match pieces with
  | [] => Ok ""
  | bytes :: pieces =>
      bail_if (remaining <? N.of_nat (String.length bytes))%N oversized;;
      rest ← bounded_write (remaining - N.of_nat (String.length bytes)) pieces;
      Ok (bytes +:+ rest)
  end.

Definition join_pieces (pieces : list string) : string := concat_bytes id pieces.

(** The writer accepts exactly the texts within the budget, unchanged. *)
Lemma bounded_write_spec remaining pieces :
  bounded_write remaining pieces =
  if (N.of_nat (String.length (join_pieces pieces)) <=? remaining)%N
  then Ok (join_pieces pieces) else Err oversized.
Proof.
  revert remaining. induction pieces as [|bytes pieces IH]; intros remaining; simpl; [by destruct remaining|].
  unfold join_pieces in *. simpl. change (id bytes) with bytes. rewrite length_append.
  rewrite Nat2N.inj_add. generalize (N.of_nat (String.length bytes)) as n. intros n.
  destruct (N.ltb_spec remaining n); simpl; [by rewrite (proj2 (N.leb_gt _ _)) by lia|].
  rewrite IH. generalize (N.of_nat (String.length (concat_bytes id pieces))) as k. intros k.
  destruct (N.leb_spec k (remaining - n)), (N.leb_spec (n + k) remaining); try lia; done.
Qed.

(** ** Snapshot files

    [SnapshotFile]: the bytes of the file, the position the operating system
    keeps for it and the position the wrapper keeps. A write past the end
    fills the gap with zeros. *)
Record SnapshotFile := mkSnapshotFile {
  sf_bytes : list ascii;
  sf_cursor : N;
  sf_limit : N;
  sf_position : N }.
Definition SnapshotFile_open (bytes : list ascii) (limit : N) : res string SnapshotFile :=
  bail_if (limit <? N.of_nat (length bytes))%N oversized;;
  Ok (mkSnapshotFile bytes 0 limit 0).
(** Writing [data] at [cursor]. *)
Definition file_write (bytes : list ascii) (cursor : N) (data : list ascii) : list ascii :=
  let at_ := N.to_nat cursor in
  take at_ (bytes ++ replicate (at_ - length bytes) zero) ++ data
  ++ drop (at_ + length data) bytes.

(** [poll_write]: the system takes the first [written] bytes. *)
Definition poll_write (buf : list ascii) (written : nat) : method SnapshotFile string N :=
  f ← self;
  lift (bail_if (match checked_add u64_max (sf_position f) (N.of_nat (length buf)) with
                 | Some end_ => (sf_limit f <? end_)%N
                 | None => true
                 end) oversized);;
  let taken := take written buf in
  let n := N.of_nat (length taken) in
  set_self (mkSnapshotFile (file_write (sf_bytes f) (sf_cursor f) taken) (sf_cursor f + n)
              (sf_limit f) (sf_position f + n));;
  mret n.

(** [poll_read] of at most [room] bytes. *)
Definition poll_read (room : nat) : method SnapshotFile string (list ascii) :=
  f ← self;
  let filled := take room (drop (N.to_nat (sf_cursor f)) (sf_bytes f)) in
  let n := N.of_nat (length filled) in
  set_self (mkSnapshotFile (sf_bytes f) (sf_cursor f + n) (sf_limit f) (sf_position f + n));;
  mret filled.

Inductive SeekFrom := Seek_Start (end_ : N) | Seek_Current (delta : Z) | Seek_End (delta : Z).
Definition checked_add_signed (n : N) (delta : Z) : option N :=
  let end_ := (Z.of_N n + delta)%Z in
  if (0 <=? end_)%Z && (end_ <=? Z.of_N u64_max)%Z then Some (Z.to_N end_) else None.
(** [seek]: [start_seek] and then [poll_complete], which brings the position
    of the system into the wrapper. *)
Definition seek (position : SeekFrom) : method SnapshotFile string N :=
  f ← self;
  let end_ := match position with
              | Seek_Start end_ => Some end_
              | Seek_Current delta => checked_add_signed (sf_position f) delta
              | Seek_End delta => checked_add_signed (N.of_nat (length (sf_bytes f))) delta
              end in
  lift (bail_if (match end_ with Some end_ => (sf_limit f <? end_)%N | None => true end) oversized);;
  (* the system seeks from its own cursor *)
  target ← lift (ok_or (match position with
                        | Seek_Start end_ => Some end_
                        | Seek_Current delta => checked_add_signed (sf_cursor f) delta
                        | Seek_End delta => checked_add_signed (N.of_nat (length (sf_bytes f))) delta
                        end) "invalid seek");
  set_self (mkSnapshotFile (sf_bytes f) target (sf_limit f) target);;
  mret target.

(** ** The machine *)
Section machine.
Context `{RaftTypes}.

Record SnapshotMeta := mkSnapshotMeta {
  snap_last_log_id : option LogId;
  snap_last_membership : StoredMembership;
  snap_snapshot_id : string }.
Record PersistedSnapshot := mkPersisted {
  ps_metadata : StateMachineMetadata;
  ps_application_state : string }.
(** A snapshot and the contents of its file. *)
Record CurrentSnapshot := mkCurrent {
  cs_meta : SnapshotMeta;
  cs_file : string }.

Inductive EntryPayload :=
| Payload_Blank
| Payload_Normal (batch : PreparedAtomicBatch)
| Payload_Membership (membership : Membership).
Record Entry := mkEntry {
  en_log_id : LogId;
  en_payload : EntryPayload }.

Inductive StorageError :=
| StorageError_WriteStateMachine (error : AtomicStorageError)
| StorageError_ReadStateMachine (error : AtomicStorageError)
| StorageError_WriteSnapshot (snapshot_id : string) (error : AtomicStorageError)
| StorageError_ReadSnapshot (snapshot_id : string) (error : AtomicStorageError).
Inductive StateMachineInitializationError :=
| Initialization_InvalidLimits (error : BatchValidationError)
| Initialization_Storage (error : AtomicStorageError).

Record AuthoritativeStateMachine (S : Type) := mkMachine {
  sm_storage : S;
  sm_limits : StateMachineLimits;
  sm_last_applied : option LogId;
  sm_membership : StoredMembership;
  sm_snapshot_index : N;
  sm_current_snapshot : option CurrentSnapshot }.
#[global] Arguments mkMachine {S}.
#[global] Arguments sm_storage {S}.
#[global] Arguments sm_limits {S}.
#[global] Arguments sm_last_applied {S}.
#[global] Arguments sm_membership {S}.
#[global] Arguments sm_snapshot_index {S}.
#[global] Arguments sm_current_snapshot {S}.

Section operations.
Context {S : Type} `{!AtomicStateStorage S}.
(** [serde_json::to_writer] in pieces, and [from_reader]. *)
Context (persisted_pieces : PersistedSnapshot → res AtomicStorageError (list string))
  (persisted_parse : string → res AtomicStorageError PersistedSnapshot).
Abbreviation machine := (AuthoritativeStateMachine S).

Definition AuthoritativeStateMachine_new (storage : S) (limits : StateMachineLimits) :
    res StateMachineInitializationError machine :=
  map_err Initialization_InvalidLimits (StateMachineLimits_validate limits);;
  metadata ← map_err Initialization_Storage (load_metadata storage);
  Ok (mkMachine storage limits (md_last_applied metadata) (md_membership metadata) 0 None).

Definition sm_with_storage (m : machine) (storage : S) : machine :=
  mkMachine storage (sm_limits m) (sm_last_applied m) (sm_membership m) (sm_snapshot_index m)
    (sm_current_snapshot m).
Definition sm_with_metadata (m : machine) (metadata : StateMachineMetadata) : machine :=
  mkMachine (sm_storage m) (sm_limits m) (md_last_applied metadata) (md_membership metadata)
    (sm_snapshot_index m) (sm_current_snapshot m).
Definition sm_with_snapshot (m : machine) (snapshot : CurrentSnapshot) : machine :=
  mkMachine (sm_storage m) (sm_limits m) (sm_last_applied m) (sm_membership m)
    (sm_snapshot_index m) (Some snapshot).

(** A call of the storage of the machine. *)
Definition on_storage {A} (wrap : AtomicStorageError → StorageError)
    (call : method S AtomicStorageError A) : method machine StorageError A := λ m,
  let '(storage, r) := call (sm_storage m) in (sm_with_storage m storage, map_err wrap r).

Definition blank_response : ApplyResponse := mkResponse "" (be_bytes 32 0) Applied "".

(** The body of the loop of [apply]. *)
Definition apply_entry (entry : Entry) : method machine StorageError ApplyResponse :=
  m ← self;
  let metadata := mkMetadata (Some (en_log_id entry)) (sm_membership m) in
  '(metadata, response) ←
    match en_payload entry with
    | Payload_Blank =>
        on_storage StorageError_WriteStateMachine (persist_metadata metadata);;
        mret (metadata, blank_response)
    | Payload_Normal batch =>
        response ← on_storage StorageError_WriteStateMachine
                     (storage_apply batch (sm_limits m) metadata);
        mret (metadata, response)
    | Payload_Membership membership =>
        let metadata := mkMetadata (md_last_applied metadata) (Some (en_log_id entry), membership) in
        on_storage StorageError_WriteStateMachine (persist_metadata metadata);;
        mret (metadata, blank_response)
    end;
  m ← self;
  set_self (sm_with_metadata m metadata);;
  mret response.
Fixpoint machine_apply (entries : list Entry) : method machine StorageError (list ApplyResponse) :=
  match entries with
  | [] => mret []
  | entry :: entries =>
      response ← apply_entry entry;
      responses ← machine_apply entries;
      mret (response :: responses)
  end.

Definition applied_state (m : machine) : option LogId * StoredMembership :=
  (sm_last_applied m, sm_membership m).

(** The builder is a clone that shares the storage and the current snapshot;
    it differs from the machine only in the index it was created with. *)
Definition get_snapshot_builder : method machine StorageError N :=
  m ← self;
  let snapshot_index := saturating_add u64_max (sm_snapshot_index m) 1 in
  set_self (mkMachine (sm_storage m) (sm_limits m) (sm_last_applied m) (sm_membership m)
              snapshot_index (sm_current_snapshot m));;
  mret snapshot_index.

Definition snapshot_id (last_applied : option LogId) (snapshot_index : N) : string :=
  match last_applied with
  | Some log_id => leader_id_display log_id +:+ "-" +:+ pretty (log_index log_id) +:+ "-"
                   +:+ pretty snapshot_index
  | None => "empty-" +:+ pretty snapshot_index
  end.

(** [file_error]: the temporary file cannot be created, written or opened. *)
Definition build_snapshot (file_error : option string) (snapshot_index : N) :
    method machine StorageError (SnapshotMeta * string) :=
  m ← self;
  let limit := sl_max_snapshot_bytes (sm_limits m) in
  '(file, metadata) ← lift (map_err StorageError_ReadStateMachine (
    '(application_state, metadata) ← export_snapshot_with_metadata (sm_storage m);
    match file_error with Some error => Err error | None => Ok tt end;;
    pieces ← persisted_pieces (mkPersisted metadata application_state);
    file ← bounded_write limit pieces;
    Ok (file, metadata)));
  let meta := mkSnapshotMeta (md_last_applied metadata) (md_membership metadata)
                (snapshot_id (md_last_applied metadata) snapshot_index) in
  set_self (sm_with_snapshot m (mkCurrent meta file));;
  lift (map_err StorageError_ReadStateMachine (
    SnapshotFile_open (String.list_ascii_of_string file) limit));;
  mret (meta, file).

(** [file] is what was received, or the reason it cannot be read. *)
Definition install_snapshot (meta : SnapshotMeta) (file : res AtomicStorageError string) :
    method machine StorageError unit :=
  let wrap := StorageError_WriteSnapshot (snap_snapshot_id meta) in
  file ← lift (map_err wrap file);
  persisted ← lift (map_err wrap (persisted_parse file));
  lift (bail_if
    (bool_decide (md_last_applied (ps_metadata persisted) ≠ snap_last_log_id meta)
     || bool_decide (md_membership (ps_metadata persisted) ≠ snap_last_membership meta))
    (wrap "snapshot metadata mismatch"));;
  on_storage wrap (storage_install_snapshot (ps_application_state persisted) (ps_metadata persisted));;
  m ← self;
  set_self (sm_with_snapshot (sm_with_metadata m (ps_metadata persisted)) (mkCurrent meta file)).

Definition get_current_snapshot (m : machine) : res StorageError (option (SnapshotMeta * string)) :=
  match sm_current_snapshot m with
  | None => Ok None
  | Some current =>
      map_err (StorageError_ReadSnapshot (snap_snapshot_id (cs_meta current)))
        (SnapshotFile_open (String.list_ascii_of_string (cs_file current))
           (sl_max_snapshot_bytes (sm_limits m)));;
      Ok (Some (cs_meta current, cs_file current))
  end.
End operations.
End machine.
