(* ===== verification/RaftCluster.v ===== *)
(** * Clusters of replicated state machines

    What consensus does with the machines of [RaftMachine]: it hands each of
    them entries of one committed log, in order, from the position the machine
    reports as applied; it has snapshots built and sends them to other
    machines; machines crash, stop on a storage error, and restart on their
    storage. Between the calls of consensus a node may write records of its own,
    which no batch reads or writes, to the same database. *)

From S2P Require Import Prelude Bytes RaftBatch RaftMachine.
From stdpp Require Import options.

Section cluster.
Context `{RaftTypes} {S : Type} `{Hstorage : !AtomicStateStorage S}.
Context {sha256 : string → ValueDigest} {batch_json : PreparedAtomicBatch → option string}.
Context `{Hlawful : !LawfulStateStorage S sha256 batch_json}.
Context (persisted_pieces : PersistedSnapshot → res AtomicStorageError (list string))
  (persisted_parse : string → res AtomicStorageError PersistedSnapshot).
Context (limits : StateMachineLimits) (log : list Entry).
Abbreviation machine := (AuthoritativeStateMachine S).
Implicit Types (m : machine) (v : InMemoryState).

(** ** What a log means *)
Definition entry_metadata v (e : Entry) : StateMachineMetadata :=
  mkMetadata (Some (en_log_id e))
    match en_payload e with
    | Payload_Membership membership => (Some (en_log_id e), membership)
    | _ => md_membership (im_metadata v)
    end.
Definition entry_effect v (e : Entry) : InMemoryState :=
  match en_payload e with
  | Payload_Normal b => (im_apply sha256 batch_json b limits (entry_metadata v e) v).1
  | _ => im_with_metadata (entry_metadata v e) v
  end.
Definition entry_response v (e : Entry) : res AtomicStorageError ApplyResponse :=
  match en_payload e with
  | Payload_Normal b => (im_apply sha256 batch_json b limits (entry_metadata v e) v).2
  | _ => Ok blank_response
  end.
Definition log_state (entries : list Entry) : InMemoryState :=
  foldl entry_effect InMemoryState_default entries.
(** The answer to the entry at position [i]. *)
Definition log_response (i : nat) : option (res AtomicStorageError ApplyResponse) :=
  entry_response (log_state (take i log)) <$> log !! i.

Definition last_log_id (entries : list Entry) : option LogId := en_log_id <$> last entries.

(** ** Steps of a cluster *)
Inductive node := Up (m : machine) | Down (storage : S).
Definition node_storage (n : node) : S :=
  match n with Up m => sm_storage m | Down storage => storage end.
Record cluster := mkCluster {
  cl_nodes : gmap N node;
  cl_snapshots : list (SnapshotMeta * string) }.
Definition set_node (c : cluster) (i : N) (n : node) : cluster :=
  mkCluster (<[i:=n]> (cl_nodes c)) (cl_snapshots c).
Definition add_snapshot (c : cluster) (snapshot : SnapshotMeta * string) : cluster :=
  mkCluster (cl_nodes c) (snapshot :: cl_snapshots c).
(** A storage error stops the machine. *)
Definition after {A} (m : machine) (r : res StorageError A) : node :=
  if is_ok r then Up m else Down (sm_storage m).

Inductive cluster_step (c : cluster) : cluster → Prop :=
| step_apply i m k n m' r :
    cl_nodes c !! i = Some (Up m) →
    (applied_state m).1 = last_log_id (take k log) →
    machine_apply (take n (drop k log)) m = (m', r) →
    cluster_step c (set_node c i (after m' r))
| step_builder i m m' r :
    cl_nodes c !! i = Some (Up m) →
    get_snapshot_builder m = (m', r) →
    cluster_step c (set_node c i (Up m'))
| step_build i m file_error snapshot_index m' snapshot :
    cl_nodes c !! i = Some (Up m) →
    build_snapshot persisted_pieces file_error snapshot_index m = (m', Ok snapshot) →
    cluster_step c (add_snapshot (set_node c i (Up m')) snapshot)
| step_build_failed i m file_error snapshot_index m' r :
    cl_nodes c !! i = Some (Up m) →
    build_snapshot persisted_pieces file_error snapshot_index m = (m', r) →
    cluster_step c (set_node c i (Up m'))
| step_send i m snapshot :
    cl_nodes c !! i = Some (Up m) →
    get_current_snapshot m = Ok (Some snapshot) →
    cluster_step c (add_snapshot c snapshot)
| step_install i m meta file received m' r :
    cl_nodes c !! i = Some (Up m) →
    (meta, file) ∈ cl_snapshots c →
    (∀ bytes, received = Ok bytes → bytes = file) →
    install_snapshot persisted_parse meta received m = (m', r) →
    cluster_step c (set_node c i (after m' r))
| step_crash i n :
    cl_nodes c !! i = Some n →
    cluster_step c (set_node c i (Down (node_storage n)))
| step_restart i storage m :
    cl_nodes c !! i = Some (Down storage) →
    AuthoritativeStateMachine_new storage limits = Ok m →
    cluster_step c (set_node c i (Up m))
| step_local i m storage :
    cl_nodes c !! i = Some (Up m) →
    state_view storage = state_view (sm_storage m) →
    cluster_step c (set_node c i (Up (sm_with_storage m storage))).

(** A cluster starts with empty storages. *)
Definition cluster_start (c : cluster) : Prop :=
  (∀ i n, cl_nodes c !! i = Some n →
     ∃ storage, n = Down storage ∧ state_view storage = InMemoryState_default)
  ∧ cl_snapshots c = [].
Definition cluster_reachable (c : cluster) : Prop :=
  ∃ c0, cluster_start c0 ∧ rtc cluster_step c0 c.

(** ** Hypotheses on the log and the JSON text *)
Hypothesis Hids : NoDup (en_log_id <$> log).
Hypothesis Hbatches : ∀ e b, e ∈ log → en_payload e = Payload_Normal b → batch_ok b.
Hypothesis Hparse : ∀ p pieces, persisted_pieces p = Ok pieces → persisted_parse (join_pieces pieces) = Ok p.

(** ** Every storage holds what a prefix of the log means *)
Definition prefix_state v : Prop := ∃ k, k ≤ length log ∧ v = log_state (take k log).

Lemma entry_effect_metadata v e : im_metadata (entry_effect v e) = entry_metadata v e.
Proof using.
  unfold entry_effect. destruct (en_payload e) as [|b|]; [done| |done].
  destruct (im_apply_result sha256 batch_json limits (entry_metadata v e) b v)
    as (s' & response & -> & Hres).
  by destruct Hres.
Qed.

Lemma log_state_last entries :
  md_last_applied (im_metadata (log_state entries)) = last_log_id entries.
Proof using.
  unfold log_state, last_log_id. induction entries as [|e entries _] using rev_ind; [done|].
  rewrite foldl_app, last_snoc. cbn [foldl]. by rewrite entry_effect_metadata.
Qed.

Lemma last_log_id_inj k1 k2 :
  k1 ≤ length log → k2 ≤ length log →
  last_log_id (take k1 log) = last_log_id (take k2 log) → k1 = k2.
Proof using Hids.
  assert (∀ k, k ≤ length log → last_log_id (take k log) =
    match k with 0 => None | Datatypes.S k => (en_log_id <$> log) !! k end) as Hlast.
  { intros [|k] Hk; [done|]. unfold last_log_id. rewrite last_lookup, length_take, list_lookup_fmap.
    rewrite Nat.min_l by done. simpl. by rewrite lookup_take, decide_True by lia. }
  intros H1 H2. rewrite !Hlast by done.
  assert (∀ k, Datatypes.S k ≤ length log → is_Some ((en_log_id <$> log) !! k)) as Hin.
  { intros k Hk. apply lookup_lt_is_Some. rewrite length_fmap. lia. }
  destruct k1 as [|k1], k2 as [|k2]; [done|..].
  - intros Heq. destruct (Hin k2 H2). congruence.
  - intros Heq. destruct (Hin k1 H1). congruence.
  - intros Heq. destruct (Hin k1 H1) as [x Hx]. f_equal. eapply NoDup_lookup; [exact Hids|done|].
    congruence.
Qed.

Lemma log_state_snoc entries e :
  log_state (entries ++ [e]) = entry_effect (log_state entries) e.
Proof using. unfold log_state. by rewrite foldl_app. Qed.
Lemma log_state_next k e :
  log !! k = Some e →
  log_state (take (Datatypes.S k) log) = entry_effect (log_state (take k log)) e.
Proof using. intros He. by rewrite (take_S_r _ _ _ He), log_state_snoc. Qed.

(** ** The machine *)
(** The positions the machine keeps are those of its storage. *)
Definition cached m : Prop :=
  mkMetadata (sm_last_applied m) (sm_membership m) = im_metadata (state_view (sm_storage m)).

Definition snapshot_ok (file : string) : Prop :=
  ∃ v persisted, prefix_state v ∧ persisted_parse file = Ok persisted ∧
    ps_metadata persisted = im_metadata v ∧
    contents (ps_application_state persisted) = Some (im_records v, im_applied v).
Record machine_ok m : Prop := {
  mo_limits : sm_limits m = limits;
  mo_cached : cached m;
  mo_state : prefix_state (state_view (sm_storage m));
  mo_snapshot current : sm_current_snapshot m = Some current → snapshot_ok (cs_file current) }.

(** An entry is one call of the storage, and the new position when it
    succeeds. *)
Definition entry_write m (e : Entry) : method S AtomicStorageError ApplyResponse :=
  match en_payload e with
  | Payload_Blank =>
      persist_metadata (mkMetadata (Some (en_log_id e)) (sm_membership m));; mret blank_response
  | Payload_Normal b =>
      storage_apply b (sm_limits m) (mkMetadata (Some (en_log_id e)) (sm_membership m))
  | Payload_Membership membership =>
      persist_metadata (mkMetadata (Some (en_log_id e)) (Some (en_log_id e), membership));;
      mret blank_response
  end.

Lemma apply_entry_write m e :
  im_metadata (state_view (sm_storage m)) = mkMetadata (sm_last_applied m) (sm_membership m) →
  apply_entry e m =
  let '(storage, r) := entry_write m e (sm_storage m) in
  match r with
  | Ok response =>
      (sm_with_metadata (sm_with_storage m storage)
         (entry_metadata (state_view (sm_storage m)) e), Ok response)
  | _ => (sm_with_storage m storage, map_err StorageError_WriteStateMachine r)
  end.
Proof using.
  intros Hmd. unfold apply_entry, entry_write, entry_metadata. rewrite self_then, Hmd.
  destruct (en_payload e) as [|b|membership]; unfold on_storage, mbind, method_bind; simpl;
    [destruct (persist_metadata _ _) as [storage []]|destruct (storage_apply _ _ _ _) as [storage []]
    |destruct (persist_metadata _ _) as [storage []]]; done.
Qed.

Lemma entry_write_spec m k e storage r :
  machine_ok m → state_view (sm_storage m) = log_state (take k log) → log !! k = Some e →
  entry_write m e (sm_storage m) = (storage, r) →
  (state_view storage = entry_effect (log_state (take k log)) e ∧
     ∀ response, r = Ok response → log_response k = Some (Ok response))
  ∨ is_ok r = false ∧ state_view storage = log_state (take k log).
Proof using Hbatches.
  intros Hm Hk He Hrun. pose proof (mo_cached _ Hm) as Hc. unfold cached in Hc. rewrite Hk in Hc.
  unfold log_response. rewrite He. cbn [fmap option_fmap option_map].
  assert (mkMetadata (Some (en_log_id e)) (sm_membership m) =
    mkMetadata (Some (en_log_id e)) (md_membership (im_metadata (log_state (take k log)))))
    as Hmd by (by rewrite <-Hc).
  unfold entry_effect, entry_response, entry_metadata, entry_write in *. rewrite Hmd in Hrun.
  destruct (en_payload e) as [|b|membership] eqn:Hpay.
  2:{ rewrite (mo_limits _ Hm) in Hrun. eapply storage_apply_law in Hrun; [|eauto using list_elem_of_lookup_2].
      rewrite Hk in Hrun. destruct Hrun as [(response & Heq & Hresp)|]; [left|by right].
      rewrite Heq. split; [done|]. intros response' Hr.
      by rewrite (Hresp _ Hr). }
  all: unfold mbind, method_bind in Hrun;
    destruct (persist_metadata _ _) as [s1 r1] eqn:Hp; apply persist_metadata_law in Hp;
    rewrite Hk in Hp; destruct r1; injection Hrun as <- <-;
    (destruct Hp as [Hp|[? Hp]]; [left|right; done]); (split; [done|]); congruence.
Qed.
Lemma prefix_next k e :
  log !! k = Some e → prefix_state (entry_effect (log_state (take k log)) e).
Proof using.
  intros He. pose proof (lookup_lt_Some _ _ _ He). rewrite <-(log_state_next _ _ He).
  by exists (Datatypes.S k).
Qed.

Lemma apply_entry_spec m k e m' r :
  machine_ok m → state_view (sm_storage m) = log_state (take k log) → log !! k = Some e →
  apply_entry e m = (m', r) →
  (∃ response, r = Ok response ∧ machine_ok m' ∧ log_response k = Some (Ok response) ∧
     state_view (sm_storage m') = log_state (take (Datatypes.S k) log))
  ∨ is_ok r = false ∧ prefix_state (state_view (sm_storage m')).
Proof using Hbatches.
  intros Hm Hk He Hrun. rewrite apply_entry_write in Hrun by (by rewrite (mo_cached _ Hm)).
  destruct (entry_write m e (sm_storage m)) as [storage r1] eqn:Hw.
  eapply entry_write_spec in Hw; [|done..].
  destruct Hw as [[Hv Hresp]|[Hr1 Hv]].
  2:{ right. destruct r1; try done; injection Hrun as <- <-; (split; [done|]); simpl; rewrite Hv, <-Hk;
        apply Hm. }
  destruct r1 as [response|error|message]; injection Hrun as <- <-.
  2,3: right; (split; [done|]); simpl; rewrite Hv; by apply prefix_next.
  left. exists response. split_and!; [done| |by apply Hresp|by rewrite (log_state_next _ _ He)].
  destruct Hm as [Hlimits _ _ Hsnap]. split; simpl; [done| | |done].
  - unfold cached. simpl. by rewrite Hv, Hk, entry_effect_metadata.
  - rewrite Hv. by apply prefix_next.
Qed.

(** The entries of [log] from position [k] on: the responses are those of the
    log, and the storage ends up at a prefix of it. *)
Lemma machine_apply_spec n m k m' r :
  machine_ok m → state_view (sm_storage m) = log_state (take k log) → k ≤ length log →
  machine_apply (take n (drop k log)) m = (m', r) →
  (∃ responses, r = Ok responses ∧ machine_ok m' ∧
     (∀ i response, responses !! i = Some response → log_response (k + i) = Some (Ok response)) ∧
     state_view (sm_storage m') = log_state (take (k + n) log))
  ∨ is_ok r = false ∧ prefix_state (state_view (sm_storage m')).
Proof using Hbatches.
  revert m k m' r. induction n as [|n IH]; intros m k m' r Hm Hk Hle Hrun.
  { injection Hrun as <- <-. left. exists []. split_and!; [done..|]. by rewrite Nat.add_0_r. }
  destruct (log !! k) as [e|] eqn:He.
  2:{ apply lookup_ge_None in He. rewrite drop_ge in Hrun by done. injection Hrun as <- <-.
      left. exists []. split_and!; [done..|]. rewrite Hk. by rewrite !take_ge by lia. }
  rewrite (drop_S _ _ _ He) in Hrun. cbn [take firstn machine_apply] in Hrun.
  unfold mbind at 1, method_bind at 1 in Hrun.
  destruct (apply_entry e m) as [m1 r1] eqn:H1.
  eapply apply_entry_spec in H1; [|done..].
  destruct H1 as [(response & -> & Hm1 & Hresp & Hv1)|[Hr1 Hv1]].
  2:{ right. destruct r1; try done; by injection Hrun as <- <-. }
  unfold mbind, method_bind in Hrun.
  destruct (machine_apply (take n (drop (Datatypes.S k) log)) m1) as [m2 r2] eqn:H2.
  apply lookup_lt_Some in He. eapply IH in H2; [|done..|lia].
  destruct H2 as [(responses & -> & Hm2 & Hresps & Hv2)|[Hr2 Hv2]].
  2:{ right. destruct r2; try done; by injection Hrun as <- <-. }
  injection Hrun as <- <-. left. exists (response :: responses).
  split_and!; [done|done| |by rewrite Nat.add_succ_r].
  intros [|i] response' Hi; simpl in Hi; [rewrite Nat.add_0_r; by simplify_eq|].
  rewrite Nat.add_succ_r. by apply (Hresps i).
Qed.

(** Building a snapshot and installing it. *)
Lemma build_snapshot_spec file_error snapshot_index m m' r :
  machine_ok m → build_snapshot persisted_pieces file_error snapshot_index m = (m', r) →
  machine_ok m' ∧ ∀ meta file, r = Ok (meta, file) → snapshot_ok file.
Proof using Hparse.
  intros Hm Hrun. unfold build_snapshot in Hrun. rewrite self_then in Hrun. cbv zeta in Hrun.
  rewrite lift_then in Hrun.
  destruct (map_err _ _) as [[file metadata]|error|message] eqn:Hfile;
    [|by injection Hrun as <- <-; split; [|done]..].
  apply map_err_Ok in Hfile. apply bind_Ok in Hfile as ([bytes md] & Hexport & Hfile).
  destruct (export_law _ _ _ Hexport) as [-> Hcontents]. simpl in Hfile. inv_res Hfile.
  rename select (bounded_write _ _ = _) into Hwrite. rewrite bounded_write_spec in Hwrite.
  destruct (_ <=? _)%N in Hwrite; [|done]. injection Hwrite as <-.
  rename select (persisted_pieces _ = Ok _) into Hpieces. rename select (list string) into pieces.
  assert (snapshot_ok (join_pieces pieces)) as Hsnap.
  { eexists _, _. split_and!; [apply Hm|by apply Hparse|done|done]. }
  rewrite set_self_then, lift_then in Hrun.
  assert (m' = sm_with_snapshot m (mkCurrent (mkSnapshotMeta
      (md_last_applied (im_metadata (state_view (sm_storage m))))
      (md_membership (im_metadata (state_view (sm_storage m))))
      (snapshot_id (md_last_applied (im_metadata (state_view (sm_storage m)))) snapshot_index))
      (join_pieces pieces))) as ->.
  { destruct (map_err _ _) in Hrun; by injection Hrun as <- _. }
  split.
  - destruct Hm. split; [done..|]. intros current [= <-]. done.
  - intros meta file ->. destruct (map_err _ _) in Hrun; [|done..]. by injection Hrun as _ <-.
Qed.

Lemma install_snapshot_spec meta file received m m' r :
  machine_ok m → snapshot_ok file → (∀ bytes, received = Ok bytes → bytes = file) →
  install_snapshot persisted_parse meta received m = (m', r) →
  is_ok r = true ∧ machine_ok m' ∨ is_ok r = false ∧ prefix_state (state_view (sm_storage m')).
Proof using.
  intros Hm Hsnap Hrec Hrun. unfold install_snapshot in Hrun. cbv zeta in Hrun. rewrite lift_then in Hrun.
  assert (prefix_state (state_view (sm_storage m))) as Hst by apply Hm.
  destruct received as [bytes| |]; simpl in Hrun; [|by injection Hrun as <- <-; right..].
  rewrite (Hrec _ eq_refl) in Hrun. clear Hrec.
  pose proof Hsnap as (v & persisted & Hv & Hparsed & Hmd & Hcontents).
  rewrite Hparsed, lift_then in Hrun. simpl in Hrun. rewrite bail_if_then in Hrun.
  case_match; [by injection Hrun as <- <-; right|].
  unfold on_storage, mbind, method_bind in Hrun.
  destruct (storage_install_snapshot _ _ _) as [storage r1] eqn:Hinst.
  assert (prefix_state (state_view storage)) as Hst1.
  { apply install_law in Hinst as [(records & applied & Heq & ->)|[_ ->]]; [|done].
    rewrite Hcontents in Heq. injection Heq as <- <-. rewrite Hmd. by destruct v. }
  destruct r1 as [[]|error|message]; simpl in Hrun; injection Hrun as <- <-; [left|by right..].
  split; [done|].
  apply install_law in Hinst as [(records & applied & _ & Heq)|[[=] _]].
  destruct Hm. split; [done| |done|].
  - unfold cached. simpl. rewrite Heq. simpl. by destruct (ps_metadata persisted).
  - intros current [= <-]. done.
Qed.
(** ** Reachable clusters *)
Definition node_ok (n : node) : Prop :=
  match n with Up m => machine_ok m | Down storage => prefix_state (state_view storage) end.
Definition cluster_ok (c : cluster) : Prop :=
  (∀ i n, cl_nodes c !! i = Some n → node_ok n) ∧
  (∀ snapshot, snapshot ∈ cl_snapshots c → snapshot_ok snapshot.2).

Lemma node_ok_storage n : node_ok n → prefix_state (state_view (node_storage n)).
Proof using. destruct n as [m|storage]; [apply mo_state|done]. Qed.
Lemma after_ok {A} m (r : res StorageError A) :
  is_ok r = true ∧ machine_ok m ∨ is_ok r = false ∧ prefix_state (state_view (sm_storage m)) →
  node_ok (after m r).
Proof using. unfold after. by intros [[-> ?]|[-> ?]]. Qed.
Lemma set_node_ok c i n : cluster_ok c → node_ok n → cluster_ok (set_node c i n).
Proof using.
  intros [Hn Hs] Hok. split; [|done]. intros j n'. simpl. rewrite lookup_insert.
  case_decide; [by intros [= <-]|apply Hn].
Qed.
Lemma add_snapshot_ok c snapshot :
  cluster_ok c → snapshot_ok snapshot.2 → cluster_ok (add_snapshot c snapshot).
Proof using. intros [Hn Hs] Hok. split; [done|]. intros s [->|Hin]%elem_of_cons; auto. Qed.

Lemma machine_position m k :
  machine_ok m → sm_last_applied m = last_log_id (take k log) → k ≤ length log →
  state_view (sm_storage m) = log_state (take k log).
Proof using Hids.
  intros Hm Hlast Hk. destruct (mo_state _ Hm) as (k' & Hk' & Heq). rewrite Heq. do 2 f_equal.
  apply last_log_id_inj; [done..|]. rewrite <-Hlast, <-log_state_last, <-Heq, <-(mo_cached _ Hm). done.
Qed.

Lemma take_length_log k : ∃ k', k' ≤ length log ∧ take k log = take k' log ∧ drop k log = drop k' log.
Proof using.
  destruct (decide (k ≤ length log)); [by exists k|]. exists (length log).
  by rewrite !take_ge, !drop_ge by lia.
Qed.

Lemma up_ok c i m : cluster_ok c → cl_nodes c !! i = Some (Up m) → machine_ok m.
Proof using. intros [Hn _]. apply (Hn i (Up m)). Qed.

Lemma cluster_step_ok c c' : cluster_ok c → cluster_step c c' → cluster_ok c'.
Proof using Hids Hbatches Hparse.
  intros Hc Hstep. pose proof Hc as [Hn Hs]. destruct Hstep.
  - destruct (take_length_log k) as (k' & Hk' & Htake & Hdrop).
    assert (machine_ok m) as Hm by (by eapply up_ok).
    rewrite Htake, Hdrop in *. apply set_node_ok, after_ok; [done|].
    rename select (machine_apply _ _ = _) into Hrun.
    eapply machine_apply_spec in Hrun; [|done|by apply machine_position|done].
    destruct Hrun as [(responses & -> & Hm' & _)|]; [by left|by right].
  - rename select (get_snapshot_builder _ = _) into Hrun. injection Hrun as <- <-.
    apply set_node_ok; [done|]. assert (machine_ok m) as [] by (by eapply up_ok). by split.
  - rename select (build_snapshot _ _ _ _ = _) into Hrun.
    eapply build_snapshot_spec in Hrun as [Hm' Hsnap]; [|by eapply up_ok].
    destruct snapshot as [meta file]. apply add_snapshot_ok; [by apply set_node_ok|]. by eapply Hsnap.
  - rename select (build_snapshot _ _ _ _ = _) into Hrun.
    eapply build_snapshot_spec in Hrun as [Hm' _]; [|by eapply up_ok]. by apply set_node_ok.
  - rename select (get_current_snapshot _ = _) into Hrun. unfold get_current_snapshot in Hrun.
    destruct (sm_current_snapshot m) as [current|] eqn:Hcur; inv_res Hrun; [|done]. simplify_eq.
    apply add_snapshot_ok; [done|]. by eapply mo_snapshot; [eapply up_ok|].
  - rename select (install_snapshot _ _ _ _ = _) into Hrun.
    eapply install_snapshot_spec in Hrun; [|by eapply up_ok|by eapply (Hs (meta, file))|done].
    by apply set_node_ok, after_ok.
  - apply set_node_ok; [done|]. apply node_ok_storage. eauto.
  - rename select (AuthoritativeStateMachine_new _ _ = _) into Hrun.
    unfold AuthoritativeStateMachine_new in Hrun. inv_res Hrun.
    rename select (load_metadata _ = _) into Hload. apply load_metadata_law in Hload.
    apply set_node_ok; [done|]. split; [done| |by eapply (Hn i (Down storage))|done].
    unfold cached. simpl. rewrite <-Hload. by destruct v0.  - assert (machine_ok m) as [Hl Hcache Hst Hsn] by (by eapply up_ok). apply set_node_ok; [done|].
    rename select (state_view storage = _) into Heq.
    split; [done| |simpl; by rewrite Heq|done]. unfold cached in *. simpl. by rewrite Heq.
Qed.

Lemma cluster_reachable_ok c : cluster_reachable c → cluster_ok c.
Proof using Hids Hbatches Hparse.
  intros (c0 & [Hn Hs] & Hsteps). 
  assert (cluster_ok c0) as Hc0; [|clear Hn Hs; induction Hsteps; eauto using cluster_step_ok].
  split; [|rewrite Hs; set_solver]. intros i n (storage & -> & Hv)%Hn. exists 0. split; [lia|done].
Qed.

Lemma node_state c i n :
  cluster_reachable c → cl_nodes c !! i = Some n →
  ∃ k, k ≤ length log ∧ state_view (node_storage n) = log_state (take k log).
Proof using Hids Hbatches Hparse. intros [Hn _]%cluster_reachable_ok Hi. by eapply node_ok_storage, Hn. Qed.

(** ** The history of a log *)
(** An entry applies a batch or only moves the position. *)
Lemma entry_effect_cases v e :
  (∃ b response, en_payload e = Payload_Normal b ∧
     entry_response v e = Ok response ∧ ar_outcome response = Applied ∧
     apply_result sha256 limits (entry_metadata v e) b v (entry_effect v e) response) ∨
  entry_effect v e = im_with_metadata (entry_metadata v e) v ∧
  ∃ response, entry_response v e = Ok response ∧
    ∀ b, en_payload e = Payload_Normal b → ar_outcome response ≠ Applied.
Proof using.
  unfold entry_effect, entry_response. destruct (en_payload e) as [|b|]; [right; eauto| |right; eauto].
  destruct (im_apply_result sha256 batch_json limits (entry_metadata v e) b v)
    as (s' & response & -> & Hres). simpl.
  destruct Hres as [Hvalid Hnew Hpre|response Hout]; [left|right; naive_solver].
  exists b, (applied_response b). split_and!; [done..|]. by apply result_applied.
Qed.

Lemma log_state_keeps (P : InMemoryState → Prop) i j :
  (∀ v e, P v → P (entry_effect v e)) → i ≤ j →
  P (log_state (take i log)) → P (log_state (take j log)).
Proof using.
  intros Hstep Hij Hi. replace (take j log) with (take i log ++ take (j - i) (drop i log)).
  2:{ rewrite <-(take_drop i (take j log)), take_take, Nat.min_l by done. by rewrite skipn_firstn_comm. }
  unfold log_state. rewrite foldl_app. fold (log_state (take i log)).
  generalize dependent (log_state (take i log)). generalize (take (j - i) (drop i log)) as entries.
  induction entries as [|e entries IH]; intros v Hv; [done|]. apply IH, Hstep, Hv.
Qed.

Lemma entry_append_only k value v e :
  k.1 ∈ sl_append_only_column_families limits → im_records v !! k = Some value →
  im_records (entry_effect v e) !! k = Some value.
Proof using.
  intros Hk Hv. destruct (entry_effect_cases v e) as [(b & response & _ & _ & _ & Hres)|[-> _]]; [|done].
  by eapply apply_append_only.
Qed.

Lemma entry_keeps_applied scope a v e :
  im_applied v !! scope = Some a → im_applied (entry_effect v e) !! scope = Some a.
Proof using.
  intros Ha. destruct (entry_effect_cases v e) as [(b & response & _ & _ & _ & Hres)|[-> _]]; [|done].
  by eapply apply_keeps_applied.
Qed.

(** Once a batch was applied, its scope is taken. *)
Lemma applied_scope_taken i j e b response :
  log !! i = Some e → en_payload e = Payload_Normal b →
  log_response i = Some (Ok response) → ar_outcome response = Applied → i < j →
  valid_batch sha256 limits b ∧
  PreparedAtomicBatch_validate sha256 batch_json b limits = Ok tt ∧
  im_applied (log_state (take j log)) !! pb_idempotency_scope b = Some (applied_command b).
Proof using.
  intros He Hpay Hresp Hout Hij. unfold log_response in Hresp. rewrite He in Hresp. simpl in Hresp.
  apply (inj Some) in Hresp. unfold entry_response in Hresp. rewrite Hpay in Hresp.
  assert (PreparedAtomicBatch_validate sha256 batch_json b limits = Ok tt) as Hval.
  { unfold im_apply in Hresp. destruct (PreparedAtomicBatch_validate _ _ _ _) as [[]| |]; [done| |done].
    injection Hresp as <-. done. }
  destruct (im_apply_result sha256 batch_json limits (entry_metadata (log_state (take i log)) e) b
    (log_state (take i log))) as (s' & response' & Heq & Hres).
  rewrite Heq in Hresp. injection Hresp as ->.
  split_and!; [by eapply validate_Ok|done|].
  apply (log_state_keeps (λ v, im_applied v !! _ = Some _) (Datatypes.S i)); [apply entry_keeps_applied|lia|].
  rewrite (log_state_next _ _ He). unfold entry_effect. rewrite Hpay, Heq. simpl.
  destruct Hres; [|done]. simpl. by rewrite lookup_insert, decide_True.
Qed.
End cluster.
