(* ===== verification/RaftTheorems.v ===== *)
(** * Theorems on the replicated state machine *)

From Stdlib Require Import Ascii.
From S2P Require Import Prelude Bytes RaftBatch RaftMachine RaftCluster.
From stdpp Require Import options.

Section cluster.
Context `{RaftTypes} {S : Type} `{Hstorage : !AtomicStateStorage S}.
Context {sha256 : string → ValueDigest} {batch_json : PreparedAtomicBatch → option string}.
Context `{Hlawful : !LawfulStateStorage S sha256 batch_json}.
Context (persisted_pieces : PersistedSnapshot → res AtomicStorageError (list string))
  (persisted_parse : string → res AtomicStorageError PersistedSnapshot).
Context (limits : StateMachineLimits) (log : list Entry).
Abbreviation log_state := (log_state (sha256:=sha256) (batch_json:=batch_json) limits).
Abbreviation log_response := (log_response (sha256:=sha256) (batch_json:=batch_json) limits log).
Abbreviation cluster_reachable :=
  (cluster_reachable persisted_pieces persisted_parse limits log).


(** A batch takes effect as a whole, against the state at its position in
    the log, or not at all. If it is answered as applied, its conditions held
    there, each of its mutations is in effect afterwards, no other record
    changed and its scope is recorded; otherwise no record and no applied
    command changed. *)
Theorem replicated_batch_is_atomic k e b :
  log !! k = Some e → en_payload e = Payload_Normal b →
  ∃ response, log_response k = Some (Ok response) ∧
  let before := log_state (take k log) in
  let after := log_state (take (Datatypes.S k) log) in
  if decide (ar_outcome response = Applied) then
    (∀ c, c ∈ pb_preconditions b → condition_holds sha256 (im_records before) c) ∧
    (∀ m, m ∈ pb_mutations b → im_records after !! mutation_key m = mutation_value m) ∧
    (∀ key, key ∉ mutation_key <$> pb_mutations b → im_records after !! key = im_records before !! key) ∧
    im_applied after = <[pb_idempotency_scope b:=applied_command b]> (im_applied before) ∧
    im_applied before !! pb_idempotency_scope b = None ∧
    response = applied_response b
  else im_records after = im_records before ∧ im_applied after = im_applied before.
Proof.
  intros He Hpay. unfold RaftCluster.log_response. rewrite He. cbn [fmap option_fmap option_map].
  rewrite (log_state_next _ _ _ _ He).
  destruct (entry_effect_cases (sha256:=sha256) (batch_json:=batch_json) limits (log_state (take k log)) e)
    as [(b' & response & Hpay' & Hresp & Hout & Hres)|(Heq & response & Hresp & Hout)];
    exists response; (split; [by rewrite Hresp|]); cbv zeta.
  - rewrite decide_True by done. rewrite Hpay in Hpay'. injection Hpay' as <-.
    inversion Hres as [Hvalid Hnew Hpre Hs Hr|]; [|done]. simpl.
    split_and!; [done|..|done|done|done].
    + intros m Hm. apply apply_mutations_key; [|done]. by apply (vb_mutations _ _ _ Hvalid).
    + intros key. apply apply_mutations_other.
  - rewrite decide_False by (by eapply Hout). by rewrite Heq.
Qed.

(** C21: A command takes effect at most once. After a batch was applied, no
    batch of its idempotency scope is applied at any later position, and a
    repetition of the batch is answered with its original response payload. *)
Theorem replicated_command_applies_once i j e e' b b' response :
  log !! i = Some e → en_payload e = Payload_Normal b →
  log_response i = Some (Ok response) → ar_outcome response = Applied →
  i < j → log !! j = Some e' → en_payload e' = Payload_Normal b' →
  pb_idempotency_scope b' = pb_idempotency_scope b →
  (∃ response', log_response j = Some (Ok response') ∧ ar_outcome response' ≠ Applied) ∧
  (b' = b → log_response j = Some (Ok (mkResponse (pb_command_id b) (pb_batch_digest b)
     Apply_Duplicate (pb_response_payload b)))).
Proof.
  intros He Hpay Hresp Hout Hij He' Hpay' Hscope.
  destruct (applied_scope_taken _ _ _ _ _ _ _ He Hpay Hresp Hout Hij) as (Hvalid & Hval & Htaken).
  unfold RaftCluster.log_response. rewrite He'. cbn [fmap option_fmap option_map].
  split.
  - destruct (entry_effect_cases (sha256:=sha256) (batch_json:=batch_json) limits
      (log_state (take j log)) e') as [(b2 & r2 & Hp2 & Hr2 & _ & Hres)|(_ & r2 & -> & Hr2)]; [|eauto].
    rewrite Hpay' in Hp2. injection Hp2 as <-. inversion Hres; [congruence|by exists r2; rewrite Hr2].
  - intros ->. unfold entry_response. rewrite Hpay'. unfold im_apply. rewrite Hval, Htaken. simpl.
    by rewrite !bool_decide_true by done.
Qed.

(** Append-only state is final: a record of an append-only column family
    is neither changed nor removed by any later entry of the log. *)
Theorem append_only_records_are_final i j key value :
  i ≤ j → key.1 ∈ sl_append_only_column_families limits →
  im_records (log_state (take i log)) !! key = Some value →
  im_records (log_state (take j log)) !! key = Some value.
Proof.
  intros Hij Hkey. apply (log_state_keeps _ _ (λ v, im_records v !! key = Some value)); [|done].
  intros v e. by apply entry_append_only.
Qed.
End cluster.

(** The digest binds the batch: with a hash function that does not collide
    on their canonical bytes, two batches that both pass validation and carry
    the same digest are the same batch. *)
Theorem batch_digest_binds sha256 batch_json limits limits' b b' :
  batch_fits b → batch_fits b' →
  (sha256 (batch_bytes b) = sha256 (batch_bytes b') → batch_bytes b = batch_bytes b') →
  PreparedAtomicBatch_validate sha256 batch_json b limits = Ok tt →
  PreparedAtomicBatch_validate sha256 batch_json b' limits' = Ok tt →
  pb_batch_digest b = pb_batch_digest b' → b = b'.
Proof.
  intros Hb Hb' Hsha Hv%validate_Ok Hv'%validate_Ok Heq.
  apply vb_digest in Hv, Hv'. unfold calculate_digest in *.
  rewrite <-(batch_bytes_inj b b') by (rewrite ?Hsha; congruence). rewrite <-Heq. by destruct b.
Qed.

(** ** Snapshot files *)
Inductive file_op :=
| Op_Write (buf : list ascii) (written : nat)
| Op_Read (room : nat)
| Op_Seek (position : SeekFrom).
Definition file_step (f : SnapshotFile) (op : file_op) : SnapshotFile :=
  match op with
  | Op_Write buf written => (poll_write buf written f).1
  | Op_Read room => (poll_read room f).1
  | Op_Seek position => (seek position f).1
  end.

Definition file_ok (f : SnapshotFile) : Prop :=
  (N.of_nat (length (sf_bytes f)) ≤ sf_limit f)%N ∧ sf_cursor f = sf_position f ∧
  (sf_position f ≤ sf_limit f)%N.

Lemma length_file_write bytes cursor data limit :
  length bytes ≤ limit → N.to_nat cursor + length data ≤ limit →
  length (file_write bytes cursor data) ≤ limit.
Proof.
  intros. unfold file_write. rewrite !length_app, length_take, length_app, length_replicate, length_drop.
  lia.
Qed.

Lemma file_step_ok f op : file_ok f → file_ok (file_step f op) ∧ sf_limit (file_step f op) = sf_limit f.
Proof.
  intros (Hlen & Hcur & Hpos). destruct op as [buf written|room|position]; simpl.
  - unfold poll_write. rewrite self_then, bail_if_then. unfold checked_add.
    destruct (N.leb_spec (sf_position f + N.of_nat (length buf)) u64_max); simpl;
      [|by split].
    destruct (N.ltb_spec (sf_limit f) (sf_position f + N.of_nat (length buf))); simpl; [by split|].
    split; [|done]. split_and!; simpl; [|by rewrite Hcur|rewrite length_take; lia].
    assert (length (file_write (sf_bytes f) (sf_cursor f) (take written buf)) ≤ N.to_nat (sf_limit f));
      [|lia]. apply length_file_write; [lia|]. rewrite length_take. lia.
  - unfold poll_read. simpl. split; [|done]. split_and!; simpl; [done|by rewrite Hcur|].
    rewrite length_take, length_drop. lia.
  - unfold seek. rewrite self_then. cbv zeta. rewrite bail_if_then.
    destruct (match position with Seek_Start _ => _ | _ => _ end) as [target|] eqn:Ht; [|by split].
    destruct (N.ltb_spec (sf_limit f) target); [by split|].
    rewrite Hcur, Ht. simpl. by split.
Qed.

(** C32: A snapshot transfer stays within its byte budget: whatever sequence of
    writes, reads and seeks is made on a snapshot file, also past its end, its
    length stays within the configured limit. *)
Theorem snapshot_files_are_bounded bytes limit f ops :
  SnapshotFile_open bytes limit = Ok f →
  (N.of_nat (length (sf_bytes (foldl file_step f ops))) ≤ limit)%N.
Proof.
  intros Hopen. unfold SnapshotFile_open in Hopen. inv_res Hopen.
  rename select (_ = false) into Hlen. apply N.ltb_ge in Hlen.
  set (f := mkSnapshotFile bytes 0 limit 0).
  assert (file_ok f) as Hf by (split_and!; simpl; [done|done|lia]).
  change limit with (sf_limit f) at 1. clearbody f. clear Hlen.
  assert (file_ok (foldl file_step f ops) ∧ sf_limit (foldl file_step f ops) = sf_limit f)
    as [[Hbound _] Hl]; [|by rewrite <-Hl].
  revert f Hf. induction ops as [|op ops IH]; intros f Hf; [done|]. simpl.
  destruct (file_step_ok f op Hf) as [Hf' Hl']. rewrite <-Hl'. by apply IH.
Qed.

Lemma snapshot_files_are_bounded_witness :
  (N.of_nat (length (sf_bytes (foldl file_step (mkSnapshotFile [] 0 4 0)
    [Op_Seek (Seek_Start 3); Op_Write ["a"%char] 1; Op_Write ["b"%char] 1]))) ≤ 4)%N.
Proof. by apply (snapshot_files_are_bounded [] 4). Defined.

(** ** A cluster of two machines *)
Definition toy_types : RaftTypes := {|
  LogId := N; Membership := list N; Membership_default := [];
  leader_id_display _ := "T1"; log_index i := i |}.
#[local] Existing Instance toy_types.
Definition toy_sha256 : string → string := id.
Definition toy_json (b : PreparedAtomicBatch) : option string := Some (pb_command_id b).
Definition toy_limits : StateMachineLimits := mkLimits 8 8 4096 4096 "/snapshots" {["events"]}.
Definition toy_batch : PreparedAtomicBatch :=
  PreparedAtomicBatch_new toy_sha256 "c1" "s1"
    [mkPrecondition ("events", "1") ExpectedMissing] [Put ("events", "1") "created"] "version 1".
Definition toy_log : list Entry :=
  [mkEntry 1%N (Payload_Membership [0; 1]%N); mkEntry 2%N (Payload_Normal toy_batch);
   mkEntry 3%N (Payload_Normal toy_batch)].

Definition toy_state : InMemoryState :=
  log_state (sha256:=toy_sha256) (batch_json:=toy_json) toy_limits toy_log.
Definition toy_serializable : SerializableInMemoryState :=
  mkSerializable (storage_iter (im_records toy_state)) (btree_iter (im_applied toy_state)).
#[local] Instance toy_serializable_eq_dec : EqDecision SerializableInMemoryState.
Proof. solve_decision. Defined.
Definition toy_state_json (s : SerializableInMemoryState) : res string string :=
  if bool_decide (s = toy_serializable) then Ok "state" else Err "unsupported".
Definition toy_state_parse (bytes : string) : res string SerializableInMemoryState :=
  if bool_decide (bytes = "state") then Ok toy_serializable else Err "malformed".
Definition toy_persisted : PersistedSnapshot := mkPersisted (im_metadata toy_state) "state".
#[local] Instance toy_persisted_eq_dec : EqDecision PersistedSnapshot.
Proof. solve_decision. Defined.
Definition toy_pieces (p : PersistedSnapshot) : res string (list string) :=
  if bool_decide (p = toy_persisted) then Ok ["snap"; "shot"] else Err "unsupported".
Definition toy_persisted_parse (bytes : string) : res string PersistedSnapshot :=
  if bool_decide (bytes = "snapshot") then Ok toy_persisted else Err "malformed".

#[local] Instance toy_storage : AtomicStateStorage InMemoryState :=
  memory_storage toy_sha256 toy_json toy_state_json toy_state_parse.
#[local] Instance toy_lawful : LawfulStateStorage InMemoryState toy_sha256 toy_json.
Proof.
  apply memory_lawful. intros state bytes. unfold toy_state_json, toy_state_parse.
  case_bool_decide; [|done]. intros [= <-]. by subst.
Defined.

(** The second machine gets the state of the first by a snapshot. *)
Definition toy_machine : AuthoritativeStateMachine InMemoryState :=
  mkMachine InMemoryState_default toy_limits None (None, []) 0 None.
Definition toy_first : AuthoritativeStateMachine InMemoryState := (machine_apply toy_log toy_machine).1.
Definition toy_built : AuthoritativeStateMachine InMemoryState :=
  (build_snapshot toy_pieces None 0 toy_first).1.
Definition toy_meta : SnapshotMeta := mkSnapshotMeta (Some 3%N) (Some 1%N, [0; 1]%N) "T1-3-0".
Definition toy_second : AuthoritativeStateMachine InMemoryState :=
  (install_snapshot toy_persisted_parse toy_meta (Ok "snapshot") toy_machine).1.
Definition toy_start : cluster :=
  mkCluster {[0%N := Down InMemoryState_default; 1%N := Down InMemoryState_default]} [].
Definition toy_up : cluster :=
  set_node (set_node toy_start 0 (Up toy_machine)) 1 (Up toy_machine).
Definition toy_applied : cluster := set_node toy_up 0 (Up toy_first).
Definition toy_cluster : cluster :=
  set_node (add_snapshot (set_node toy_applied 0 (Up toy_built)) (toy_meta, "snapshot"))
    1 (Up toy_second).
Abbreviation toy_step := (cluster_step toy_pieces toy_persisted_parse toy_limits toy_log).

Lemma toy_step_up : rtc toy_step toy_start toy_up.
Proof.
  apply (rtc_l _ _ (set_node toy_start 0 (Up toy_machine))).
  - apply (step_restart _ _ _ _ _ _ InMemoryState_default); by vm_compute.
  - apply rtc_once, (step_restart _ _ _ _ _ _ InMemoryState_default); by vm_compute.
Qed.
Lemma toy_step_apply : toy_step toy_up toy_applied.
Proof.
  destruct (machine_apply toy_log toy_machine).2 as [responses| |] eqn:Hr;
    [|by vm_compute in Hr..].
  unfold toy_applied. change (Up toy_first) with (after toy_first (Ok responses : res StorageError _)).
  apply (step_apply _ _ _ _ _ _ toy_machine 0 3); [by vm_compute|by vm_compute|].
  change (take 3 (drop 0 toy_log)) with toy_log. rewrite <-Hr. apply surjective_pairing.
Qed.
Lemma toy_step_snapshot : rtc toy_step toy_applied toy_cluster.
Proof.
  apply (rtc_l _ _ (add_snapshot (set_node toy_applied 0 (Up toy_built)) (toy_meta, "snapshot"))).
  - apply (step_build _ _ _ _ _ _ toy_first None 0); by vm_compute.
  - apply rtc_once. unfold toy_cluster. change (Up toy_second) with (after toy_second (Ok tt : res StorageError unit)).
    apply (step_install _ _ _ _ _ _ toy_machine toy_meta "snapshot" (Ok "snapshot"));
      [by vm_compute|by left|congruence|by vm_compute].
Qed.

Lemma toy_reachable :
  cluster_reachable toy_pieces toy_persisted_parse toy_limits toy_log toy_cluster.
Proof.
  exists toy_start. split.
  - split; [|done]. intros i n. cbn [cl_nodes toy_start].
    intros [[<- <-]|[_ [<- <-]%lookup_singleton_Some]]%lookup_insert_Some; eauto.
  - etrans; [apply toy_step_up|]. eapply rtc_l; [apply toy_step_apply|apply toy_step_snapshot].
Qed.

Lemma toy_ids : NoDup (en_log_id <$> toy_log).
Proof. apply (bool_decide_unpack _). by vm_compute. Qed.
Lemma toy_pieces_parse p pieces :
  toy_pieces p = Ok pieces → toy_persisted_parse (join_pieces pieces) = Ok p.
Proof. unfold toy_pieces. case_bool_decide; [|done]. intros [= <-]. by subst. Qed.

Lemma toy_batches (e : Entry) b : e ∈ toy_log → en_payload e = Payload_Normal b → batch_ok b.
Proof. intros _ _. hnf. exact I. Qed.


Lemma replicated_batch_is_atomic_witness :
  im_records (log_state (sha256:=toy_sha256) (batch_json:=toy_json) toy_limits (take 2 toy_log))
    !! ("events", "1") = Some "created".
Proof.
  destruct (replicated_batch_is_atomic (sha256:=toy_sha256) (batch_json:=toy_json) toy_limits toy_log
    1 _ toy_batch eq_refl eq_refl) as (response & Hresp & Hcase).
  assert (ar_outcome response = Applied) as Hout.
  { apply (inj Some) in Hresp. vm_compute in Hresp. by injection Hresp as <-. }
  rewrite decide_True in Hcase by exact Hout. destruct Hcase as (_ & Hput & _).
  apply (Hput (Put ("events", "1") "created")). by left.
Defined.

Lemma replicated_command_applies_once_witness :
  log_response (sha256:=toy_sha256) (batch_json:=toy_json) toy_limits toy_log 2 =
  Some (Ok (mkResponse "c1" (pb_batch_digest toy_batch) Apply_Duplicate "version 1")).
Proof.
  apply (replicated_command_applies_once (H:=toy_types) (sha256:=toy_sha256) (batch_json:=toy_json) toy_limits toy_log
    1 2 (@mkEntry toy_types 2%N (Payload_Normal toy_batch))
    (@mkEntry toy_types 3%N (Payload_Normal toy_batch))
    toy_batch toy_batch (applied_response toy_batch));
    [done|done|by vm_compute|done|lia|done..].
Defined.

Lemma append_only_records_are_final_witness :
  im_records (log_state (sha256:=toy_sha256) (batch_json:=toy_json) toy_limits (take 3 toy_log))
    !! ("events", "1") = Some "created".
Proof.
  apply (append_only_records_are_final (sha256:=toy_sha256) (batch_json:=toy_json) toy_limits toy_log 2);
    [lia|by vm_compute..].
Defined.

Lemma toy_batch_fits : batch_fits toy_batch.
Proof.
  split; [by vm_compute..| |].
  - intros c ->%list_elem_of_singleton. split_and!; [by vm_compute..|done].
  - intros m ->%list_elem_of_singleton. split_and!; [by vm_compute..|]. intros k v [= <- <-]. by vm_compute.
Qed.
Lemma batch_digest_binds_witness :
  toy_batch = PreparedAtomicBatch_new toy_sha256 "c1" "s1"
    [mkPrecondition ("events", "1") ExpectedMissing] [Put ("events", "1") "created"] "version 1".
Proof.
  apply (batch_digest_binds toy_sha256 toy_json toy_limits toy_limits _ _ toy_batch_fits toy_batch_fits);
    [done|by vm_compute..].
Defined.

(** The crate describes every node as evaluating the same preconditions, but a
    node also checks each replicated batch against limits of its own
    configuration. Two nodes whose limits differ apply the same log and hold
    different records. *)
Theorem different_limits_diverge :
  let other := mkLimits 8 8 1 4096 "/snapshots" {["events"]} in
  let state limits := log_state (sha256:=toy_sha256) (batch_json:=toy_json) limits toy_log in
  StateMachineLimits_validate other = Ok tt ∧
  im_metadata (state toy_limits) = im_metadata (state other) ∧
  im_records (state toy_limits) !! ("events", "1") = Some "created" ∧
  im_records (state other) !! ("events", "1") = None.
Proof. by vm_compute. Qed.
