(* ===== verification/StorageKeys.v ===== *)
(** * Keys of the durable store

    The column families and the keys of
    [crates/bpmp-adapter-rocksdb/src/rocks.rs]. A key is a sequence of
    components with their lengths in front, so keys of distinct identifiers
    differ and no stream's prefix begins a key of another stream; numbers are
    stored most significant byte first, so events are in the order of their
    sequence numbers. *)

From Stdlib Require Import Ascii.
From S2P Require Import Prelude Bytes.
From stdpp Require Import options.

(** ** Column families *)
Definition EVENTS_CF : string := "events".
Definition SNAPSHOTS_CF : string := "snapshots".
Definition STREAM_META_CF : string := "stream_meta".
Definition DEDUP_CF : string := "dedup".
Definition OUTBOX_CF : string := "outbox".
Definition IDEMPOTENCY_CF : string := "idempotency".
Definition AUTHORIZATION_AUDIT_CF : string := "authorization_audit".
Definition OUTBOX_META_CF : string := "outbox_meta".
Definition RAFT_APPLIED_COMMANDS_CF : string := "raft_applied_commands".
Definition RAFT_STATE_META_CF : string := "raft_state_meta".
Definition OUTBOX_TAIL_KEY : string := "tail".
Definition OUTBOX_CHECKPOINT_KEY : string := "publisher-checkpoint".
Definition RAFT_STATE_METADATA_KEY : string := "metadata".

Definition authoritative_column_families : list string :=
  [EVENTS_CF; SNAPSHOTS_CF; STREAM_META_CF; DEDUP_CF; OUTBOX_CF; IDEMPOTENCY_CF;
   AUTHORIZATION_AUDIT_CF; OUTBOX_META_CF; "boundary_subscriptions"; "boundary_timer_index";
   "boundary_signals"; "boundary_signal_index"; "boundary_meta"; "local_task_meta"; "remote_tasks";
   "remote_task_ready_index"; "remote_task_lease_index"; "compensation_ledger";
   "reconciliation_work_items"; "governance_audit"; RAFT_APPLIED_COMMANDS_CF].

(** ** Keys *)
(** [push_component] *)
Definition component (value : string) : string :=
  be_bytes 4 (default u32_max (u32_of_usize (String.length value))) +:+ value.
Definition stream_prefix (tenant instance : string) : string :=
  component tenant +:+ component instance.
Definition event_storage_key (tenant instance : string) (sequence : N) : string :=
  stream_prefix tenant instance +:+ be_bytes 8 sequence.
Definition snapshot_storage_key (tenant instance : string) : string :=
  "snapshot" +:+ String zero "" +:+ stream_prefix tenant instance.
Definition stream_meta_key (tenant instance : string) : string := stream_prefix tenant instance.
Definition dedup_storage_key (tenant event_id : string) : string :=
  component tenant +:+ component event_id.
Definition idempotency_storage_key (tenant actor idempotency_key : string) : string :=
  component tenant +:+ component actor +:+ component idempotency_key.
Definition authorization_audit_storage_key (tenant command : string) : string :=
  component tenant +:+ component command.

Definition starts_with (p s : string) : bool := is_some (strip_prefix p s).

(** ** Reading keys back *)
Definition short (s : string) : Prop := (N.of_nat (String.length s) ≤ u32_max)%N.

(** Identifiers of less than 16 MiB: the key of one starts with a zero byte. *)
Definition small (s : string) : Prop := (N.of_nat (String.length s) < 16777216)%N.
Lemma small_short s : small s → short s.
Proof. unfold small, short. change u32_max with 4294967295%N. lia. Qed.

Lemma component_short s : short s → component s = be_bytes 4 (N.of_nat (String.length s)) +:+ s.
Proof.
  intros Hs. unfold component.
  by rewrite (proj2 (u32_of_usize_Some _ (N.of_nat (String.length s)))).
Qed.

Lemma component_small s : small s → ∃ rest, component s = String zero rest.
Proof.
  intros Hs. rewrite component_short by (by apply small_short). unfold small in Hs.
  revert Hs. generalize (N.of_nat (String.length s)) as n. intros n Hn. cbn [be_bytes].
  assert (n / 256 / 256 / 256 = 0)%N as ->.
  { rewrite !N.Div0.div_div. by apply N.div_small. }
  by eexists.
Qed.

Lemma component_inj x y s t :
  short x → short y → component x +:+ s = component y +:+ t → x = y ∧ s = t.
Proof.
  intros Hx Hy. rewrite !component_short by done. rewrite !append_assoc.
  intros [Hlen Heq]%append_inj; [|by rewrite !length_be_bytes].
  apply be_bytes_inj in Hlen; [|change (256 ^ N.of_nat 4)%N with (u32_max + 1)%N; unfold short in *; lia..].
  apply append_inj in Heq; [done|lia].
Qed.

Lemma component_inj_last x y : short x → short y → component x = component y → x = y.
Proof.
  intros Hx Hy Heq. apply (f_equal (λ s, s +:+ "")) in Heq. by apply component_inj in Heq as [-> _].
Qed.

Lemma stream_prefix_inj t i t' i' s s' :
  short t → short i → short t' → short i' →
  stream_prefix t i +:+ s = stream_prefix t' i' +:+ s' → t = t' ∧ i = i' ∧ s = s'.
Proof.
  intros ????. unfold stream_prefix. rewrite !append_assoc.
  intros [-> [-> ->]%component_inj]%component_inj; done.
Qed.

Lemma append_nil_r s : s +:+ "" = s.
Proof. induction s as [|a s IH]; [done|]. exact (f_equal (String a) IH). Qed.

Lemma stream_meta_key_inj t i t' i' :
  short t → short i → short t' → short i' →
  stream_meta_key t i = stream_meta_key t' i' → (t, i) = (t', i').
Proof.
  intros ???? Heq. apply (f_equal (λ s, s +:+ "")) in Heq.
  by apply stream_prefix_inj in Heq as (-> & -> & _).
Qed.

Lemma snapshot_storage_key_inj t i t' i' :
  short t → short i → short t' → short i' →
  snapshot_storage_key t i = snapshot_storage_key t' i' → (t, i) = (t', i').
Proof.
  intros ????. unfold snapshot_storage_key. intros [_ [_ Heq]%append_inj]%append_inj; [|done..].
  by apply stream_meta_key_inj.
Qed.

Lemma event_storage_key_inj t i n t' i' n' :
  short t → short i → short t' → short i' → (n ≤ u64_max)%N → (n' ≤ u64_max)%N →
  event_storage_key t i n = event_storage_key t' i' n' → (t, i) = (t', i') ∧ n = n'.
Proof.
  intros ?????? (-> & -> & Heq)%stream_prefix_inj; [|done..]. split; [done|].
  apply be_bytes_inj in Heq; [done|change (256 ^ N.of_nat 8)%N with (u64_max + 1)%N; lia..].
Qed.

Lemma two_components_inj x y x' y' :
  short x → short y → short x' → short y' →
  component x +:+ component y = component x' +:+ component y' → (x, y) = (x', y').
Proof. intros ???? [-> ->%component_inj_last]%component_inj; done. Qed.

Lemma idempotency_storage_key_inj x y z x' y' z' :
  short x → short y → short z → short x' → short y' → short z' →
  idempotency_storage_key x y z = idempotency_storage_key x' y' z' → (x, y, z) = (x', y', z').
Proof. intros ?????? [-> [-> ->%component_inj_last]%component_inj]%component_inj; done. Qed.

Lemma strip_prefix_Some p s t : strip_prefix p s = Some t ↔ s = p +:+ t.
Proof.
  revert s. induction p as [|a p IH]; intros s.
  { change ("" +:+ t) with t. destruct s; simpl; split; congruence. }
  change (String a p +:+ t) with (String a (p +:+ t)). destruct s as [|b s]; simpl; [by split|].
  case_bool_decide as Hab; [subst; rewrite IH; split; congruence|]. split; [done|]. congruence.
Qed.

Lemma starts_with_spec p s : starts_with p s = true ↔ ∃ t, s = p +:+ t.
Proof.
  unfold starts_with. destruct (strip_prefix p s) as [t|] eqn:H; simpl.
  - apply strip_prefix_Some in H. naive_solver.
  - split; [done|]. intros [t Ht%strip_prefix_Some]. congruence.
Qed.

(** ** The order of keys *)
Lemma compare_app_same p s t : String.compare (p +:+ s) (p +:+ t) = String.compare s t.
Proof.
  induction p as [|a p IH]; [done|]. simpl. unfold Ascii.compare. by rewrite N.compare_refl.
Qed.

Lemma le_app_same p s t : String.le (p +:+ s) (p +:+ t) ↔ String.le s t.
Proof. unfold String.le, String.leb. by rewrite compare_app_same. Qed.

Lemma le_prefix p s : String.le p (p +:+ s).
Proof. rewrite <-(append_nil_r p) at 1. apply le_app_same. by destruct s. Qed.

(** What lies between a prefix and a key with that prefix has it too. *)
Lemma between_prefix p s k : String.le p k → String.le k (p +:+ s) → starts_with p k = true.
Proof.
  rewrite starts_with_spec. revert k. unfold String.le, String.leb.
  induction p as [|a p IH]; intros [|b k]; simpl; [by exists ""|by eexists|done|].
  unfold Ascii.compare. rewrite (N.compare_antisym (N_of_ascii a)).
  destruct (N.compare_spec (N_of_ascii a) (N_of_ascii b)) as [Heq| |]; simpl; [|done..].
  intros H1 H2. destruct (IH k H1 H2) as [t ->]. exists t.
  apply (f_equal ascii_of_N) in Heq. by rewrite !ascii_N_embedding in Heq; subst.
Qed.

Lemma compare_snoc s t a b :
  String.length s = String.length t →
  String.compare (s +:+ String a "") (t +:+ String b "") =
  match String.compare s t with Eq => Ascii.compare a b | c => c end.
Proof.
  revert t. induction s as [|x s IH]; intros [|y t] Hlen; simpl; [|done|done|].
  - by destruct (Ascii.compare a b).
  - destruct (Ascii.compare x y); [|done..]. apply IH. by injection Hlen.
Qed.

(** The order of the bytes is the order of the numbers. *)
Lemma compare_be_bytes n v w :
  (v < 256 ^ N.of_nat n)%N → (w < 256 ^ N.of_nat n)%N →
  String.compare (be_bytes n v) (be_bytes n w) = (v ?= w)%N.
Proof.
  revert v w. induction n as [|n IH]; intros v w Hv Hw; simpl.
  { change (256 ^ N.of_nat 0)%N with 1%N in *. replace v with 0%N by lia. by replace w with 0%N by lia. }
  rewrite Nat2N.inj_succ, N.pow_succ_r' in Hv, Hw.
  rewrite compare_snoc by (by rewrite !length_be_bytes).
  rewrite IH by (apply N.Div0.div_lt_upper_bound; lia). unfold Ascii.compare.
  rewrite !N_ascii_embedding by (apply N.mod_lt; lia).
  pose proof (N.div_mod v 256 ltac:(lia)). pose proof (N.div_mod w 256 ltac:(lia)).
  pose proof (N.mod_lt v 256 ltac:(lia)). pose proof (N.mod_lt w 256 ltac:(lia)).
  clear IH Hv Hw. generalize dependent (v mod 256)%N. generalize dependent (w mod 256)%N.
  generalize (v / 256)%N (w / 256)%N. intros q q' r' -> Hr' r -> Hr.
  destruct (N.compare_spec q q'), (N.compare_spec r r'),
    (N.compare_spec (256 * q + r) (256 * q' + r')); try done; exfalso; lia.
Qed.

Lemma be_bytes_8_le n n' :
  (n ≤ u64_max)%N → (n' ≤ u64_max)%N → String.le (be_bytes 8 n) (be_bytes 8 n') ↔ (n ≤ n')%N.
Proof.
  intros Hn Hn'. unfold String.le, String.leb.
  rewrite compare_be_bytes by (change (256 ^ N.of_nat 8)%N with (u64_max + 1)%N; lia).
  unfold N.le. by destruct (n ?= n')%N.
Qed.
Lemma event_storage_key_le t i n n' :
  (n ≤ u64_max)%N → (n' ≤ u64_max)%N →
  String.le (event_storage_key t i n) (event_storage_key t i n') ↔ (n ≤ n')%N.
Proof.
  intros Hn Hn'. unfold event_storage_key. rewrite le_app_same. by apply be_bytes_8_le.
Qed.
