(* ===== verification/Database.v ===== *)
(** * The database under the store

    RocksDB, as [crates/bpmp-adapter-rocksdb] uses it: reads by key, iteration
    in the order of the bytes, and atomic write batches, any of which can
    fail. What the adapter relies on is the class [LawfulDatabase]. *)

From S2P Require Import Prelude RaftBatch.
From stdpp Require Import options.

Class Database (D : Type) := {
  (** [cf_handle] *)
  db_has_family : D → string → bool;
  (** [get_cf] *)
  db_get : D → StorageKey → res string (option string);
  (** [iterator_cf] from a key on, forwards *)
  db_iterator : D → string → string → list (res string (string * string));
  (** [write_opt], synchronous; a write batch is a list of puts and deletes *)
  db_write : list Mutation → method D string unit }.

(** The records of one column family. *)
Definition family_of {V} (records : gmap StorageKey V) (family : string) : gmap string V :=
  default ∅ (map_curry (M1:=gmap string) (M2:=gmap string) records !! family).
(** What an iteration from [from] on finds. *)
Definition scan (records : gmap StorageKey string) (family from : string) : list (string * string) :=
  List.filter (λ p, bool_decide (String.le from p.1)) (btree_iter (family_of records family)).

(** An iteration over [found] is complete, or stops with an error. *)
Definition iterates {A} (items : list (res string A)) (found : list A) : Prop :=
  items = Ok <$> found
  ∨ ∃ n item rest, is_ok item = false ∧ items = (Ok <$> take n found) ++ item :: rest.

Class LawfulDatabase (D : Type) `{Database D} := {
  db_records : D → gmap StorageKey string;
  db_get_law d key value : db_get d key = Ok value → value = db_records d !! key;
  db_iterator_law d family from :
    iterates (db_iterator d family from) (scan (db_records d) family from);
  (** A write batch takes effect as a whole; if it fails, perhaps not. *)
  db_write_law batch d d' r : db_write batch d = (d', r) →
    db_records d' = foldl apply_mutation_record (db_records d) batch
    ∨ is_ok r = false ∧ db_records d' = db_records d }.

Lemma iterates_nil {A} (items : list (res string A)) :
  iterates items [] → items = [] ∨ ∃ item rest, is_ok item = false ∧ items = item :: rest.
Proof.
  intros [->|(n & item & rest & Hitem & ->)]; [by left|]. right. exists item, rest.
  by rewrite take_nil.
Qed.
Lemma iterates_cons {A} (items : list (res string A)) a found :
  iterates items (a :: found) →
  (∃ item rest, is_ok item = false ∧ items = item :: rest) ∨
  ∃ items', items = Ok a :: items' ∧ iterates items' found.
Proof.
  intros [->|([|n] & item & rest & Hitem & ->)].
  - right. exists (Ok <$> found). split; [done|by left].
  - left. eauto.
  - right. eexists. split; [done|]. right. eauto.
Qed.

Lemma lookup_family_of {V} (records : gmap StorageKey V) family key :
  family_of records family !! key = records !! (family, key).
Proof.
  unfold family_of. rewrite <-(lookup_map_curry (M1:=gmap string) (M2:=gmap string) records family key).
  destruct (_ !! family); simpl; [done|apply lookup_empty].
Qed.

Lemma elem_of_scan records family from key value :
  (key, value) ∈ scan records family from ↔
  String.le from key ∧ records !! (family, key) = Some value.
Proof.
  unfold scan. rewrite list_elem_of_In, filter_In, <-list_elem_of_In, elem_of_btree_iter.
  rewrite lookup_family_of, bool_decide_eq_true. simpl. tauto.
Qed.

Lemma scan_sorted records family from : StronglySorted key_le (scan records family from).
Proof. apply StronglySorted_filter_bool, btree_iter_sorted. Qed.

Lemma NoDup_scan records family from : NoDup (scan records family from).*1.
Proof.
  unfold scan. pose proof (NoDup_btree_keys (family_of records family)) as Hnd. unfold btree_keys in Hnd.
  revert Hnd. generalize (btree_iter (family_of records family)) as l.
  induction l as [|p l IH]; simpl; [done|]. intros [Hp Hl]%NoDup_cons.
  destruct (bool_decide _); simpl; [|by apply IH]. constructor; [|by apply IH].
  intros (q & Heq & Hq)%list_elem_of_fmap. apply Hp, list_elem_of_fmap. exists q. split; [done|].
  apply list_elem_of_In in Hq. apply filter_In in Hq as [Hq _]. by apply list_elem_of_In.
Qed.

(** The whole family, from its first key on. *)
Lemma le_empty s : String.le "" s.
Proof. by destruct s. Qed.
Lemma scan_all records family : scan records family "" = btree_iter (family_of records family).
Proof.
  unfold scan. apply filter_all. intros p _. apply bool_decide_eq_true. apply le_empty.
Qed.

(** An iteration all of whose items could be read is complete. *)
Lemma iterator_complete {D} `{LawfulDatabase D} (d : D) family from found :
  db_iterator d family from = Ok <$> found → found = scan (db_records d) family from.
Proof.
  intros Hit. destruct (db_iterator_law d family from) as [Heq|(n & item & rest & Hitem & Heq)];
    rewrite Hit in Heq.
  - by apply (inj (fmap Ok)) in Heq.
  - assert (item ∈ Ok <$> found) as (p & -> & _)%list_elem_of_fmap; [|done].
    rewrite Heq. apply elem_of_app. right. by left.
Qed.

(** ** Iterating over a range *)
Lemma StronglySorted_lookup {A} (R : relation A) (l : list A) :
  (∀ i j a b, i < j → l !! i = Some a → l !! j = Some b → R a b) → StronglySorted R l.
Proof.
  induction l as [|x l IH]; intros Hl; constructor.
  - apply IH. intros i j a b Hij Ha Hb. by apply (Hl (S i) (S j)); [lia|..].
  - apply Forall_lookup. intros j b Hb. by apply (Hl 0 (S j)); [lia|..].
Qed.

Lemma filter_split_sorted {A} (R : relation A) (p : A → bool) (l : list A) :
  StronglySorted R l → (∀ a b, a ∈ l → b ∈ l → R a b → p b = true → p a = true) →
  l = List.filter p l ++ List.filter (λ a, negb (p a)) l.
Proof.
  induction 1 as [|x l Hs IH Hx]; intros Hp; simpl; [done|]. destruct (p x) eqn:Hpx; simpl.
  - f_equal. apply IH. intros a b Ha Hb. apply Hp; by right.
  - rewrite filter_none; simpl.
    + f_equal. symmetry. apply filter_all. intros a Ha. apply negb_true_iff.
      destruct (p a) eqn:Hpa; [|done]. rewrite Forall_forall in Hx.
      rewrite (Hp x a) in Hpx; [done|by left|by right|by apply Hx|done].
    + intros a Ha. destruct (p a) eqn:Hpa; [|done]. rewrite Forall_forall in Hx.
      rewrite (Hp x a) in Hpx; [done|by left|by right|by apply Hx|done].
Qed.

(** What an iteration finds first: [expected], the entries from [from] on that
    satisfy [p], when [p] holds of an initial range of keys. *)
Lemma scan_expected records family from (p : string → bool) expected :
  (∀ a b, String.le from a → String.le a b → p b = true → p a = true) →
  StronglySorted String.le expected.*1 → NoDup expected.*1 →
  (∀ k v, (k, v) ∈ expected ↔ String.le from k ∧ records !! (family, k) = Some v ∧ p k = true) →
  ∃ rest, scan records family from = expected ++ rest ∧ ∀ q, q ∈ rest → p q.1 = false.
Proof.
  intros Hp Hsorted Hnd Hin.
  set (S := scan records family from). set (P := λ q : string * string, p q.1).
  exists (List.filter (λ q, negb (P q)) S). split.
  2:{ intros q Hq%list_elem_of_In. apply filter_In in Hq as [_ Hq]. by apply negb_true_iff in Hq. }
  rewrite (filter_split_sorted key_le P S) at 1; [|apply scan_sorted|].
  2:{ intros [a va] [b vb] [Ha _]%elem_of_scan [Hb _]%elem_of_scan Hab. by apply Hp. }
  f_equal. apply (sorted_key_unique fst String.le).
  - apply StronglySorted_filter_bool, scan_sorted.
  - clear -Hsorted. induction expected as [|q l IH]; [constructor|].
    apply StronglySorted_inv in Hsorted as [Hl Hq]. constructor; [by apply IH|].
    change (Forall (String.le q.1) l.*1) in Hq. exact (proj1 (Forall_fmap fst (String.le q.1) l) Hq).
  - pose proof (NoDup_scan records family from) as Hs. fold S in Hs. clear -Hs.
    induction S as [|q l IH]; [constructor|]. simpl in Hs. apply NoDup_cons in Hs as [Hq Hl]. simpl.
    destruct (P q); [|by apply IH]. constructor; [|by apply IH].
    intros (q' & Heq & Hq'%list_elem_of_In)%list_elem_of_fmap. apply filter_In in Hq' as [Hq' _].
    apply Hq, list_elem_of_fmap. exists q'. split; [done|]. by apply list_elem_of_In.
  - apply NoDup_Permutation; [|by apply NoDup_fmap_1 in Hnd|].
    { pose proof (NoDup_scan records family from) as Hs. apply NoDup_fmap_1 in Hs.
      apply NoDup_ListNoDup, List.NoDup_filter, NoDup_ListNoDup. done. }
    intros [k v]. rewrite list_elem_of_In, filter_In, <-list_elem_of_In. unfold S.
    rewrite elem_of_scan, Hin. unfold P. simpl. tauto.
Qed.
