(* ===== verification/RocksRaft.v ===== *)
(** * Replicated state on RocksDB

    [RocksDbAtomicStateStorage] of [crates/bpmp-adapter-rocksdb/src/rocks.rs],
    the storage the replicated state machine runs on: one synchronous write
    batch per entry, snapshots of the authoritative column families. It keeps
    the promise of [RaftBatch.LawfulStateStorage]. *)

From S2P Require Import Prelude Bytes RaftBatch RaftMachine StorageKeys Database.
From stdpp Require Import options.

Record RocksStateSnapshotRecord := mkSnapshotRecord {
  rsr_column_family : string;
  rsr_key : string;
  rsr_value : string }.
Record RocksStateSnapshot := mkRocksSnapshot {
  rss_column_families : list string;
  rss_records : list RocksStateSnapshotRecord }.
Definition snapshot_record_key (r : RocksStateSnapshotRecord) : StorageKey :=
  (rsr_column_family r, rsr_key r).

(** [BoundedSnapshotWriter] *)
Fixpoint bounded_snapshot_write (limit : N) (bytes : string) (pieces : list string) :
    res string string :=
  match pieces with
  | [] => Ok bytes
  | piece :: pieces =>
      bail_if (limit - N.of_nat (String.length bytes) <? N.of_nat (String.length piece))%N
        "snapshot exceeds configured byte limit";;
      bounded_snapshot_write limit (bytes +:+ piece) pieces
  end.

Section storage.
Context `{RaftTypes} {D : Type} `{!Database D}.
Context (sha256 : string → ValueDigest) (batch_json : PreparedAtomicBatch → option string).
(** [serde_json] on metadata, responses and snapshots *)
Context (metadata_json : StateMachineMetadata → res AtomicStorageError string)
  (metadata_parse : string → res AtomicStorageError StateMachineMetadata)
  (response_json : ApplyResponse → res AtomicStorageError string)
  (response_parse : string → res AtomicStorageError ApplyResponse)
  (snapshot_pieces : RocksStateSnapshot → res AtomicStorageError (list string))
  (snapshot_parse : string → res AtomicStorageError RocksStateSnapshot).
(** The fields [snapshot_column_families] and [max_snapshot_bytes]. *)
Context (families : list string) (max_snapshot_bytes : N).

Definition raft_cf (d : D) (name : string) : res AtomicStorageError unit :=
  bail_if (negb (db_has_family d name)) ("missing RocksDB column family " +:+ name).
Definition raft_get (d : D) (key : StorageKey) : res AtomicStorageError (option string) :=
  raft_cf d key.1;; db_get d key.

Definition metadata_key : StorageKey := (RAFT_STATE_META_CF, RAFT_STATE_METADATA_KEY).
(** The write [put_raft_state_metadata] adds to a batch. *)
Definition put_raft_state_metadata (d : D) (metadata : StateMachineMetadata) :
    res AtomicStorageError Mutation :=
  bytes ← metadata_json metadata;
  raft_cf d RAFT_STATE_META_CF;;
  Ok (Put metadata_key bytes).

Definition rocks_load_metadata (d : D) : res AtomicStorageError StateMachineMetadata :=
  value ← raft_get d metadata_key;
  match value with
  | None => Ok StateMachineMetadata_default
  | Some bytes => metadata_parse bytes
  end.

Definition rocks_persist_metadata (metadata : StateMachineMetadata) :
    method D AtomicStorageError unit :=
  d ← self;
  write ← lift (put_raft_state_metadata d metadata);
  db_write [write].

(** The conditions in order; the index of the first that does not hold. *)
Fixpoint rocks_conditions (d : D) (index : nat) (conditions : list Precondition) :
    res AtomicStorageError (option nat) :=
  match conditions with
  | [] => Ok None
  | condition :: conditions =>
      actual ← raft_get d (pre_storage_key condition);
      if satisfied sha256 (pre_expected condition) actual
      then rocks_conditions d (S index) conditions else Ok (Some index)
  end.

Definition raft_rejected (b : PreparedAtomicBatch) (reason : string) : ApplyResponse :=
  mkResponse (pb_command_id b) (pb_batch_digest b) (Rejected reason) "".

Definition rocks_apply (b : PreparedAtomicBatch) (limits : StateMachineLimits)
    (metadata : StateMachineMetadata) : method D AtomicStorageError ApplyResponse :=
  d ← self;
  write ← lift (put_raft_state_metadata d metadata);
  match PreparedAtomicBatch_validate sha256 batch_json b limits with
  | Err error => db_write [write];; mret (raft_rejected b (BatchValidationError_display error))
  | Panic message => lift (Panic message)
  | Ok _ =>
      previous ← lift (raft_get d (RAFT_APPLIED_COMMANDS_CF, pb_idempotency_scope b));
      match previous with
      | Some bytes =>
          previous ← lift (response_parse bytes);
          if bool_decide (ar_command_id previous = pb_command_id b)
             && bool_decide (ar_batch_digest previous = pb_batch_digest b)
          then
            db_write [write];;
            mret (mkResponse (ar_command_id previous) (ar_batch_digest previous) Apply_Duplicate
                    (ar_response_payload previous))
          else db_write [write];; mret (raft_rejected b "idempotency-scope-conflict")
      | None =>
          failed ← lift (rocks_conditions d 0 (pb_preconditions b));
          match failed with
          | Some index =>
              db_write [write];;
              mret (mkResponse (pb_command_id b) (pb_batch_digest b)
                      (PreconditionFailed (default u32_max (u32_of_usize index))) "")
          | None =>
              let response := mkResponse (pb_command_id b) (pb_batch_digest b) Applied
                                (pb_response_payload b) in
              lift (for_each (λ _ m, raft_cf d (mutation_key m).1) (pb_mutations b) tt);;
              bytes ← lift (response_json response);
              db_write (write :: pb_mutations b
                        ++ [Put (RAFT_APPLIED_COMMANDS_CF, pb_idempotency_scope b) bytes]);;
              mret response
          end
      end
  end.

(** The records of one family, or the error of the iteration. *)
Fixpoint export_items (family : string) (items : list (res string (string * string))) :
    res AtomicStorageError (list RocksStateSnapshotRecord) :=
  match items with
  | [] => Ok []
  | item :: items =>
      '(key, value) ← item;
      records ← export_items family items;
      Ok (mkSnapshotRecord family key value :: records)
  end.
Fixpoint snapshot_records (d : D) (families : list string) :
    res AtomicStorageError (list RocksStateSnapshotRecord) :=
  match families with
  | [] => Ok []
  | family :: families =>
      bail_if (negb (db_has_family d family)) "snapshot column family missing";;
      records ← export_items family (db_iterator d family "");
      rest ← snapshot_records d families;
      Ok (records ++ rest)
  end.
Definition rocks_export (d : D) : res AtomicStorageError (string * StateMachineMetadata) :=
  metadata ← rocks_load_metadata d;
  records ← snapshot_records d families;
  pieces ← snapshot_pieces (mkRocksSnapshot families records);
  bytes ← bounded_snapshot_write max_snapshot_bytes "" pieces;
  Ok (bytes, metadata).

(** The deletions of one family, with the size of what is deleted so far. *)
Fixpoint delete_items (family : string) (current_bytes : N)
    (items : list (res string (string * string))) : res AtomicStorageError (N * list Mutation) :=
  match items with
  | [] => Ok (current_bytes, [])
  | item :: items =>
      '(key, value) ← item;
      current_bytes ← ok_or
        (checked_add u64_max current_bytes (N.of_nat (String.length key))
         ≫= λ size, checked_add u64_max size (N.of_nat (String.length value)))
        "current state size overflow";
      bail_if (max_snapshot_bytes <? current_bytes)%N
        "current state exceeds configured snapshot install bound";;
      '(current_bytes, writes) ← delete_items family current_bytes items;
      Ok (current_bytes, Delete (family, key) :: writes)
  end.
Fixpoint delete_families (d : D) (current_bytes : N) (families : list string) :
    res AtomicStorageError (list Mutation) :=
  match families with
  | [] => Ok []
  | family :: families =>
      raft_cf d family;;
      '(current_bytes, writes) ← delete_items family current_bytes (db_iterator d family "");
      rest ← delete_families d current_bytes families;
      Ok (writes ++ rest)
  end.
Definition put_record (r : RocksStateSnapshotRecord) : Mutation := Put (snapshot_record_key r) (rsr_value r).

Definition rocks_install (snapshot : string) (metadata : StateMachineMetadata) :
    method D AtomicStorageError unit :=
  lift (bail_if (max_snapshot_bytes <? N.of_nat (String.length snapshot))%N
    ("snapshot exceeds configured byte limit " +:+ pretty max_snapshot_bytes));;
  snapshot ← lift (snapshot_parse snapshot);
  let configured : gset string := list_to_set families in
  let supplied : gset string := list_to_set (rss_column_families snapshot) in
  lift (bail_if (bool_decide (configured ≠ supplied)
                 || negb (size supplied =? length (rss_column_families snapshot))%nat)
    "snapshot column-family schema mismatch");;
  lift (bail_if (existsb (λ r, bool_decide (rsr_column_family r ∉ configured)) (rss_records snapshot))
    "snapshot contains an unknown column family");;
  d ← self;
  deletes ← lift (delete_families d 0 families);
  lift (for_each (λ _ r, raft_cf d (rsr_column_family r)) (rss_records snapshot) tt);;
  write ← lift (put_raft_state_metadata d metadata);
  db_write (deletes ++ (put_record <$> rss_records snapshot) ++ [write]).

Definition rocks_storage : AtomicStateStorage D := {|
  load_metadata := rocks_load_metadata;
  persist_metadata := rocks_persist_metadata;
  storage_apply := rocks_apply;
  export_snapshot_with_metadata := rocks_export;
  storage_install_snapshot := rocks_install |}.
End storage.

(** Records that the workers of a node keep in its own database, outside the
    log: the boundary and local-task projections and the position of the
    publisher. *)
Definition node_local (key : StorageKey) : Prop :=
  key.1 ∈ ["boundary_subscriptions"; "boundary_timer_index"; "boundary_signals"; "boundary_signal_index";
           "boundary_meta"; "local_task_meta"] ∨
  key = (OUTBOX_META_CF, OUTBOX_CHECKPOINT_KEY).
#[global] Instance node_local_dec key : Decision (node_local key).
Proof. unfold node_local. apply _. Defined.

(** ** The storage keeps its promise *)
Section lawful.
Context `{RaftTypes} {D : Type} `{!Database D} `{!LawfulDatabase D}.
Context (sha256 : string → ValueDigest) (batch_json : PreparedAtomicBatch → option string).
Context (metadata_json : StateMachineMetadata → res AtomicStorageError string)
  (metadata_parse : string → res AtomicStorageError StateMachineMetadata)
  (response_json : ApplyResponse → res AtomicStorageError string)
  (response_parse : string → res AtomicStorageError ApplyResponse)
  (snapshot_pieces : RocksStateSnapshot → res AtomicStorageError (list string))
  (snapshot_parse : string → res AtomicStorageError RocksStateSnapshot).
Context (families : list string) (max_snapshot_bytes : N).
(** What is written as JSON can be read back. *)
Hypothesis Hmetadata : ∀ md bytes, metadata_json md = Ok bytes → metadata_parse bytes = Ok md.
Hypothesis Hresponse : ∀ r bytes, response_json r = Ok bytes → response_parse bytes = Ok r.
Hypothesis Hsnapshot : ∀ s pieces,
  snapshot_pieces s = Ok pieces → snapshot_parse (join_pieces pieces) = Ok s.
(** Snapshots include the applied commands and not the metadata. *)
Hypothesis Happlied : RAFT_APPLIED_COMMANDS_CF ∈ families.
Hypothesis Hmeta : RAFT_STATE_META_CF ∉ families.
Hypothesis Hfamilies : NoDup families.
Implicit Types (records : gmap StorageKey string) (b : PreparedAtomicBatch).

(** The replicated records: those of the families but the applied commands and
    but what each node writes to its own database. *)
Definition is_application (key : StorageKey) : Prop :=
  key.1 ∈ families ∧ key.1 ≠ RAFT_APPLIED_COMMANDS_CF ∧ ¬ node_local key.
#[local] Instance is_application_dec key : Decision (is_application key).
Proof. unfold is_application. apply _. Defined.
Definition application_records records : gmap StorageKey string :=
  filter (λ p, is_application p.1) records.
Definition applied_of records : gmap string AppliedCommand :=
  omap (λ bytes, match response_parse bytes with
                 | Ok r => Some (mkApplied (ar_command_id r) (ar_batch_digest r) (ar_response_payload r))
                 | _ => None
                 end) (family_of records RAFT_APPLIED_COMMANDS_CF).
Definition metadata_of records : StateMachineMetadata :=
  match records !! metadata_key with
  | Some bytes => match metadata_parse bytes with Ok md => md | _ => StateMachineMetadata_default end
  | None => StateMachineMetadata_default
  end.
Definition records_view records : InMemoryState :=
  mkInMemory (application_records records) (applied_of records) (metadata_of records).
Definition rocks_contents (bytes : string) :
    option (gmap StorageKey string * gmap string AppliedCommand) :=
  match snapshot_parse bytes with
  | Ok s =>
      let records := btree_extend ∅ ((λ r, (snapshot_record_key r, rsr_value r)) <$> rss_records s) in
      Some (application_records records, applied_of records)
  | _ => None
  end.
(** The batches meant for this storage stay within the application's records. *)
Definition rocks_batch_ok b : Prop :=
  (∀ c, c ∈ pb_preconditions b → is_application (pre_storage_key c)) ∧
  (∀ m, m ∈ pb_mutations b → is_application (mutation_key m)).

Lemma lookup_application records key :
  application_records records !! key = if decide (is_application key) then records !! key else None.
Proof using.
  unfold application_records. rewrite map_lookup_filter. destruct (records !! key); simpl;
    repeat case_decide; try done; by case_guard.
Qed.

Lemma application_agree records records' :
  (∀ key, is_application key → records !! key = records' !! key) →
  application_records records = application_records records'.
Proof using.
  intros Heq. apply map_eq. intros key. rewrite !lookup_application. case_decide; auto.
Qed.
Lemma applied_agree records records' :
  (∀ scope, records !! (RAFT_APPLIED_COMMANDS_CF, scope) = records' !! (RAFT_APPLIED_COMMANDS_CF, scope)) →
  applied_of records = applied_of records'.
Proof using.
  intros Heq. unfold applied_of. f_equal. apply map_eq. intros scope. by rewrite !lookup_family_of.
Qed.

(** Writing the metadata. *)
Lemma records_view_metadata records md bytes :
  metadata_json md = Ok bytes →
  records_view (<[metadata_key:=bytes]> records) = im_with_metadata md (records_view records).
Proof using Hmetadata Hmeta Happlied.
  intros Hjson%Hmetadata. unfold records_view, im_with_metadata. simpl. f_equal.
  - apply application_agree. intros [cf key] [Hcf _]. rewrite lookup_insert_ne; [done|].
    intros [= <- _]. done.
  - apply applied_agree. intros scope. by rewrite lookup_insert_ne.
  - unfold metadata_of. by rewrite lookup_insert, decide_True, Hjson.
Qed.

Lemma write_metadata_law d md bytes d' r :
  metadata_json md = Ok bytes → db_write [Put metadata_key bytes] d = (d', r) →
  records_view (db_records d') = im_with_metadata md (records_view (db_records d))
  ∨ is_ok r = false ∧ records_view (db_records d') = records_view (db_records d).
Proof using Hmetadata Hmeta Happlied.
  intros Hjson [->|[Hr ->]]%db_write_law; [left|by right].
  simpl. by apply records_view_metadata.
Qed.

Lemma raft_get_Ok d key value : raft_get d key = Ok value → value = db_records d !! key.
Proof using.
  unfold raft_get. intros Hget. inv_res Hget.
  rename select (db_get _ _ = _) into Hdb. by apply db_get_law in Hdb.
Qed.

Lemma rocks_conditions_Ok d index conditions failed :
  rocks_conditions sha256 d index conditions = Ok failed →
  (∀ c, c ∈ conditions → is_application (pre_storage_key c)) →
  failed = first_unsatisfied sha256 (application_records (db_records d)) index conditions.
Proof using.
  revert index. induction conditions as [|c conditions IH]; intros index Hrun Hall; simpl in *;
    [by injection Hrun as <-|].
  apply bind_Ok in Hrun as (actual & ->%raft_get_Ok & Hrun).
  rewrite lookup_application, decide_True by (apply Hall; by left).
  destruct (satisfied _ _ _); [|by injection Hrun as <-]. apply IH; [done|]. intros ??. apply Hall. by right.
Qed.

(** Mutations of the application's records do the same to its view. *)
Lemma application_mutations records ms :
  (∀ m, m ∈ ms → is_application (mutation_key m)) →
  application_records (foldl apply_mutation_record records ms) =
  foldl apply_mutation_record (application_records records) ms.
Proof using.
  revert records. induction ms as [|m ms IH]; intros records Hall; simpl; [done|].
  rewrite IH by (intros ??; apply Hall; by right). f_equal. apply map_eq. intros key.
  rewrite lookup_apply_mutation, !lookup_application, lookup_apply_mutation.
  destruct (decide (key = mutation_key m)) as [->|]; [|done].
  by rewrite decide_True by (apply Hall; by left).
Qed.

Lemma records_view_applied records md b bytes response :
  metadata_json md = Ok bytes → rocks_batch_ok b →
  response_json (applied_response b) = Ok response →
  records_view (foldl apply_mutation_record records
    (Put metadata_key bytes :: pb_mutations b
     ++ [Put (RAFT_APPLIED_COMMANDS_CF, pb_idempotency_scope b) response])) =
  mkInMemory (foldl apply_mutation_record (application_records records) (pb_mutations b))
    (<[pb_idempotency_scope b:=applied_command b]> (applied_of records)) md.
Proof using Hmetadata Hresponse Hmeta Happlied.
  intros Hjson [_ Hms] Hresp. pose proof (records_view_metadata records md bytes Hjson) as Hview.
  unfold records_view, im_with_metadata in Hview. injection Hview as Happ Hcmd Hmd.
  cbn [foldl]. rewrite foldl_app. cbn [foldl apply_mutation_record].
  set (records1 := <[metadata_key:=bytes]> records) in *.
  assert (∀ key, ¬ is_application key →
    foldl apply_mutation_record records1 (pb_mutations b) !! key = records1 !! key) as Hother.
  { intros key Hkey. apply apply_mutations_other. intros (m & -> & Hm)%list_elem_of_fmap.
    by apply Hkey, Hms. }
  unfold records_view. f_equal.
  - rewrite <-Happ, <-application_mutations by done. apply application_agree.
    intros [cf key] (_ & Hcf & _). rewrite lookup_insert_ne; [done|]. intros [= <- _]. done.
  - rewrite <-Hcmd. unfold applied_of. apply map_eq. intros scope.
    rewrite lookup_insert, !lookup_omap, !lookup_family_of.
    destruct (decide (pb_idempotency_scope b = scope)) as [<-|Hne].
    + rewrite lookup_insert, decide_True by done. simpl. by rewrite (Hresponse _ _ Hresp).
    + rewrite lookup_insert_ne by congruence. rewrite Hother; [done|]. by intros (_ & ? & _).
  - unfold metadata_of in *. rewrite lookup_insert_ne by done. rewrite Hother; [done|].
    intros [? _]. by apply Hmeta.
Qed.

Lemma put_metadata_Ok d md write :
  put_raft_state_metadata metadata_json d md = Ok write →
  ∃ bytes, metadata_json md = Ok bytes ∧ write = Put metadata_key bytes.
Proof using. unfold put_raft_state_metadata. intros Hput. inv_res Hput. eauto. Qed.

(** A write of the metadata alone, after which [response] is returned. *)
Lemma metadata_only_law d md bytes response d' r :
  metadata_json md = Ok bytes →
  (db_write [Put metadata_key bytes];; mret response) d = (d', r) →
  (records_view (db_records d') = im_with_metadata md (records_view (db_records d)) ∧
     ∀ response', r = Ok response' → response' = response)
  ∨ is_ok (A:=ApplyResponse) r = false ∧ records_view (db_records d') = records_view (db_records d).
Proof using Hmetadata Hmeta Happlied.
  intros Hjson Hrun. unfold mbind, method_bind in Hrun.
  destruct (db_write _ d) as [d1 r1] eqn:Hw. apply (write_metadata_law _ _ _ _ _ Hjson) in Hw.
  destruct r1; injection Hrun as <- <-; destruct Hw as [Hw|[? Hw]]; try done; auto; left; (split; [done|]);
    congruence.
Qed.

Lemma rocks_apply_law b limits md d d' r :
  rocks_batch_ok b →
  rocks_apply sha256 batch_json metadata_json response_json response_parse b limits md d = (d', r) →
  (∃ response, im_apply sha256 batch_json b limits md (records_view (db_records d)) =
     (records_view (db_records d'), Ok response) ∧ ∀ response', r = Ok response' → response' = response)
  ∨ is_ok r = false ∧ records_view (db_records d') = records_view (db_records d).
Proof using Hmetadata Hresponse Hmeta Happlied.
  intros Hok Hrun. unfold rocks_apply in Hrun. rewrite self_then, lift_then in Hrun.
  destruct (put_raft_state_metadata _ d md) as [write| |] eqn:Hput;
    [|by right; injection Hrun as <- <-..].
  apply put_metadata_Ok in Hput as (bytes & Hjson & ->). unfold im_apply.
  destruct (PreparedAtomicBatch_validate _ _ b limits) as [u|error|message].
  2:{ apply (metadata_only_law _ _ _ _ _ _ Hjson) in Hrun as [[-> Hr]|?]; [left; eauto|by right]. }
  2:{ right. by injection Hrun as <- <-. }
  rewrite lift_then in Hrun. destruct (raft_get d _) as [previous| |] eqn:Hprev;
    [|by right; injection Hrun as <- <-..].
  apply raft_get_Ok in Hprev.
  assert (im_applied (records_view (db_records d)) !! pb_idempotency_scope b =
    previous ≫= λ bytes, match response_parse bytes with
      | Ok r => Some (mkApplied (ar_command_id r) (ar_batch_digest r) (ar_response_payload r))
      | _ => None end) as ->.
  { simpl. unfold applied_of. by rewrite lookup_omap, lookup_family_of, <-Hprev. }
  destruct previous as [stored|]; cbn [mbind option_bind].
  { rewrite lift_then in Hrun. destruct (response_parse stored) as [prev| |];
      [|by right; injection Hrun as <- <-..].
    cbn [ap_command_id ap_batch_digest ap_response_payload].
    destruct (_ && _); apply (metadata_only_law _ _ _ _ _ _ Hjson) in Hrun as [[-> Hr]|?];
      [left; eauto|by right|left; eauto|by right]. }
  rewrite lift_then in Hrun. destruct (rocks_conditions _ d 0 _) as [failed| |] eqn:Hcond;
    [|by right; injection Hrun as <- <-..].
  apply rocks_conditions_Ok in Hcond; [|apply Hok]. cbn [im_records records_view]. rewrite <-Hcond.
  destruct failed as [index|].
  { apply (metadata_only_law _ _ _ _ _ _ Hjson) in Hrun as [[-> Hr]|?]; [left; eauto|by right]. }
  rewrite lift_then in Hrun. destruct (for_each _ _ _); [|by right; injection Hrun as <- <-..].
  rewrite lift_then in Hrun. destruct (response_json _) as [response| |] eqn:Hresp;
    [|by right; injection Hrun as <- <-..].
  unfold mbind, method_bind in Hrun. destruct (db_write _ d) as [d1 r1] eqn:Hw.
  apply db_write_law in Hw as [Hw|[Hr1 Hw]].
  2:{ right. destruct r1; try done; injection Hrun as <- <-; by rewrite Hw. }
  left. exists (applied_response b). assert (d1 = d') as -> by (by destruct r1; injection Hrun).
  rewrite Hw, (records_view_applied _ _ _ _ _ Hjson Hok Hresp). split; [done|].
  intros response' ->. destruct r1; [|done..]. by injection Hrun as <-.
Qed.

(** ** Snapshots *)
Definition family_records records (family : string) : list RocksStateSnapshotRecord :=
  (λ p, mkSnapshotRecord family p.1 p.2) <$> btree_iter (family_of records family).

Lemma export_items_Ok family items rs :
  export_items family items = Ok rs →
  ∃ found, items = Ok <$> found ∧ rs = (λ p, mkSnapshotRecord family p.1 p.2) <$> found.
Proof using.
  revert rs. induction items as [|item items IH]; intros rs Hrun; simpl in Hrun.
  { injection Hrun as <-. by exists []. }
  apply bind_Ok in Hrun as ([key value] & -> & Hrun). apply bind_Ok in Hrun as (rs' & Hrs & Hrun).
  injection Hrun as <-. destruct (IH _ Hrs) as (found & -> & ->). by exists ((key, value) :: found).
Qed.

Lemma snapshot_records_Ok d fams rs :
  snapshot_records d fams = Ok rs → rs = fams ≫= family_records (db_records d).
Proof using.
  revert rs. induction fams as [|family fams IH]; intros rs Hrun; simpl in Hrun.
  { by injection Hrun as <-. }
  inv_res Hrun. rename select (export_items _ _ = _) into Hitems.
  rename select (snapshot_records _ _ = _) into Hrest.
  apply export_items_Ok in Hitems as (found & Hit%iterator_complete & ->).
  rewrite (IH _ Hrest). cbn. rewrite scan_all in Hit. by rewrite Hit.
Qed.

Definition record_pair (r : RocksStateSnapshotRecord) : StorageKey * string :=
  (snapshot_record_key r, rsr_value r).

Lemma elem_of_family_records records fams key value :
  (key, value) ∈ record_pair <$> (fams ≫= family_records records) ↔
  key.1 ∈ fams ∧ records !! key = Some value.
Proof using.
  rewrite list_elem_of_fmap. split.
  - intros (r & Heq & (family & Hr & Hfam)%list_elem_of_bind).
    apply list_elem_of_fmap in Hr as ([k v] & -> & Hin%elem_of_btree_iter).
    injection Heq as -> ->. rewrite lookup_family_of in Hin. done.
  - destruct key as [family k]. intros [Hfam Hv].
    exists (mkSnapshotRecord family k value). split; [done|]. apply list_elem_of_bind.
    exists family. split; [|done]. apply list_elem_of_fmap. exists (k, value). split; [done|].
    by rewrite elem_of_btree_iter, lookup_family_of.
Qed.

Lemma NoDup_family_records records fams :
  NoDup fams → NoDup (record_pair <$> (fams ≫= family_records records)).*1.
Proof using.
  induction 1 as [|family fams Hnew _ IH]; [constructor|]. cbn.
  rewrite !fmap_app. apply NoDup_app. split_and!; [| |exact IH].
  - replace ((record_pair <$> family_records records family).*1)
      with (pair family <$> btree_keys (family_of records family)).
    { apply NoDup_fmap_2; [apply _|]. apply NoDup_btree_keys. }
    unfold family_records, btree_keys. by rewrite <-!list_fmap_compose.
  - intros key (p & -> & Hp)%list_elem_of_fmap (q & Heq & Hq)%list_elem_of_fmap.
    destruct p as [key v], q as [key' v']. simpl in Heq. subst key'.
    apply (elem_of_family_records records fams) in Hq as [Hq _].
    apply list_elem_of_fmap in Hp as (r & [= -> _] & Hr).
    apply list_elem_of_fmap in Hr as (p & -> & _). done.
Qed.

(** What a snapshot of some families holds. *)
Lemma lookup_snapshot records fams key :
  NoDup fams →
  btree_extend ∅ (record_pair <$> (fams ≫= family_records records)) !! key =
  if decide (key.1 ∈ fams) then records !! key else None.
Proof using.
  intros Hnd. rewrite lookup_btree_extend by (by apply NoDup_family_records).
  rewrite lookup_empty, (right_id_L None (∪)). apply option_eq. intros value.
  rewrite <-elem_of_list_to_map by (by apply NoDup_family_records).
  rewrite elem_of_family_records. case_decide; (split; [by intros [? ?]|by intros ?; split]).
Qed.

Lemma bounded_snapshot_write_Ok limit bytes pieces out :
  bounded_snapshot_write limit bytes pieces = Ok out → out = bytes +:+ join_pieces pieces.
Proof using.
  revert bytes. induction pieces as [|piece pieces IH]; intros bytes Hrun; simpl in Hrun.
  { injection Hrun as <-. by rewrite append_nil_r. }
  apply bind_Ok in Hrun as (_ & _ & Hrun%IH). rewrite Hrun. apply append_assoc.
Qed.

Lemma rocks_export_law d bytes md :
  rocks_export metadata_parse snapshot_pieces families max_snapshot_bytes d = Ok (bytes, md) →
  md = metadata_of (db_records d) ∧
  rocks_contents bytes = Some (application_records (db_records d), applied_of (db_records d)).
Proof using Hsnapshot Hfamilies Happlied.
  intros Hrun. unfold rocks_export in Hrun. inv_res Hrun.
  rename select (rocks_load_metadata _ _ = _) into Hload.
  rename select (snapshot_records _ _ = _) into Hrecords.
  rename select (snapshot_pieces _ = _) into Hpieces.
  rename select (bounded_snapshot_write _ _ _ = _) into Hwrite.
  split.
  - unfold rocks_load_metadata in Hload. apply bind_Ok in Hload as (value & ->%raft_get_Ok & Hload).
    unfold metadata_of. destruct (_ !! metadata_key); [|by injection Hload as <-]. by rewrite Hload.
  - apply bounded_snapshot_write_Ok in Hwrite as ->. change ("" +:+ ?s) with s.
    unfold rocks_contents. rewrite (Hsnapshot _ _ Hpieces). simpl.
    rewrite (snapshot_records_Ok _ _ _ Hrecords). fold record_pair. do 2 f_equal.
    + apply application_agree. intros key [Hkey _]. by rewrite lookup_snapshot, decide_True.
    + apply applied_agree. intros scope. by rewrite lookup_snapshot, decide_True.
Qed.

(** Deleting and writing back. *)
Lemma delete_items_Ok family current items current' writes :
  delete_items max_snapshot_bytes family current items = Ok (current', writes) →
  ∃ found, items = Ok <$> found ∧ writes = (λ p, Delete (family, p.1)) <$> found.
Proof using.
  revert current writes. induction items as [|item items IH]; intros current writes Hrun; simpl in Hrun.
  { injection Hrun as <- <-. by exists []. }
  apply bind_Ok in Hrun as ([key value] & -> & Hrun).
  apply bind_Ok in Hrun as (size & _ & Hrun). apply bind_Ok in Hrun as (_ & _ & Hrun).
  apply bind_Ok in Hrun as ([size' ws] & Hws & Hrun). injection Hrun as <- <-.
  destruct (IH _ _ Hws) as (found & -> & ->). by exists ((key, value) :: found).
Qed.

Lemma delete_families_Ok d current fams writes :
  delete_families max_snapshot_bytes d current fams = Ok writes →
  (∀ m, m ∈ writes → is_delete m = true ∧ (mutation_key m).1 ∈ fams) ∧
  (∀ key, key.1 ∈ fams → is_Some (db_records d !! key) → key ∈ mutation_key <$> writes).
Proof using.
  revert current writes. induction fams as [|family fams IH]; intros current writes Hrun; simpl in Hrun.
  { injection Hrun as <-. split; intros ?; [by intros ?%elem_of_nil|by intros ?%elem_of_nil]. }
  apply bind_Ok in Hrun as (_ & _ & Hrun). apply bind_Ok in Hrun as ([size ws] & Hws & Hrun).
  apply bind_Ok in Hrun as (rest & Hrest & Hrun). injection Hrun as <-.
  apply delete_items_Ok in Hws as (found & Hit%iterator_complete & ->).
  rewrite scan_all in Hit. subst found. destruct (IH _ _ Hrest) as [Hdel Hall]. split.
  - intros m [(p & -> & _)%list_elem_of_fmap|Hm]%elem_of_app; [split; [done|by left]|].
    destruct (Hdel m Hm). split; [done|by right].
  - intros [cf key] Hcf [v Hv]. simpl in Hcf. rewrite fmap_app. apply elem_of_app.
    apply elem_of_cons in Hcf as [->|Hcf]; [left|right; by apply Hall].
    rewrite <-list_fmap_compose. apply list_elem_of_fmap. exists (key, v). split; [done|].
    by rewrite elem_of_btree_iter, lookup_family_of.
Qed.

Lemma apply_deletes records ms key :
  (∀ m, m ∈ ms → is_delete m = true) → key ∈ mutation_key <$> ms →
  foldl apply_mutation_record records ms !! key = None.
Proof using.
  intros Hdel. induction ms as [|m ms IH] using rev_ind; [by intros ?%elem_of_nil|].
  intros Hkey. rewrite foldl_app. cbn [foldl]. rewrite lookup_apply_mutation.
  case_decide as Heq.
  - assert (is_delete m = true) as Hm by (apply Hdel, elem_of_app; right; by left).
    by destruct m.
  - apply IH; [intros m' Hm'; apply Hdel, elem_of_app; by left|].
    rewrite fmap_app in Hkey. apply elem_of_app in Hkey as [Hkey|Hkey%list_elem_of_singleton]; done.
Qed.

Lemma apply_puts records rs :
  foldl apply_mutation_record records (put_record <$> rs) = btree_extend records (record_pair <$> rs).
Proof using.
  unfold btree_extend. revert records. induction rs as [|r rs IH]; intros records; [done|]. apply IH.
Qed.

Lemma btree_extend_agree {V} (m m' : gmap StorageKey V) l k :
  m !! k = m' !! k → btree_extend m l !! k = btree_extend m' l !! k.
Proof using.
  unfold btree_extend. revert m m'. induction l as [|p l IH]; intros m m' Heq; [done|].
  apply IH. by rewrite !lookup_insert, Heq.
Qed.

Lemma rocks_install_law bytes md d d' r :
  rocks_install metadata_json snapshot_parse families max_snapshot_bytes bytes md d = (d', r) →
  (∃ app applied, rocks_contents bytes = Some (app, applied) ∧
     records_view (db_records d') = mkInMemory app applied md)
  ∨ is_ok r = false ∧ records_view (db_records d') = records_view (db_records d).
Proof using Hmetadata Hmeta Happlied.
  intros Hrun. unfold rocks_install in Hrun. rewrite bail_if_then in Hrun.
  case_match; [right; by injection Hrun as <- <-|]. rewrite lift_then in Hrun. unfold rocks_contents.
  destruct (snapshot_parse bytes) as [s| |]; [|by right; injection Hrun as <- <-..].
  cbv zeta in Hrun. rewrite bail_if_then in Hrun. case_match; [right; by injection Hrun as <- <-|].
  rewrite bail_if_then in Hrun. destruct (existsb _ _) eqn:Hknown; [right; by injection Hrun as <- <-|].
  rewrite self_then, lift_then in Hrun.
  destruct (delete_families _ d 0 families) as [deletes| |] eqn:Hdel; [|by right; injection Hrun as <- <-..].
  apply delete_families_Ok in Hdel as [Hdel Hall].
  rewrite lift_then in Hrun. destruct (for_each _ _ _); [|by right; injection Hrun as <- <-..].
  rewrite lift_then in Hrun. destruct (put_raft_state_metadata _ d md) as [write| |] eqn:Hput;
    [|by right; injection Hrun as <- <-..].
  apply put_metadata_Ok in Hput as (mdbytes & Hjson & ->).
  apply db_write_law in Hrun as [Hw|[Hr Hw]]; [left|right; by rewrite Hw].
  eexists _, _. split; [done|]. rewrite Hw, !foldl_app, apply_puts. cbn [foldl apply_mutation_record].
  rewrite (records_view_metadata _ _ _ Hjson). unfold im_with_metadata. cbn.
  assert (∀ key, key.1 ∈ families →
    foldl apply_mutation_record (db_records d) deletes !! key = None) as Hnone.
  { intros key Hkey. destruct (decide (key ∈ mutation_key <$> deletes)) as [Hin|Hout].
    - apply apply_deletes; [|done]. intros m Hm. by apply Hdel.
    - rewrite apply_mutations_other by done. apply eq_None_not_Some. intros Hsome. by apply Hout, Hall. }
  f_equal.
  - apply application_agree. intros key [Hkey _]. apply btree_extend_agree. by rewrite Hnone, lookup_empty.
  - apply applied_agree. intros scope. apply btree_extend_agree. by rewrite Hnone, lookup_empty.
Qed.

Definition rocks_lawful :
  @LawfulStateStorage _ D (rocks_storage sha256 batch_json metadata_json metadata_parse response_json
    response_parse snapshot_pieces snapshot_parse families max_snapshot_bytes) sha256 batch_json.
Proof using Hmetadata Hresponse Hsnapshot Happlied Hmeta Hfamilies LawfulDatabase0.
  refine {| state_view d := records_view (db_records d); contents := rocks_contents;
            batch_ok := rocks_batch_ok |}.
  - intros d md Hrun. change (rocks_load_metadata metadata_parse d = Ok md) in Hrun.
    apply bind_Ok in Hrun as (value & ->%raft_get_Ok & Hrun). simpl. unfold metadata_of.
    destruct (_ !! metadata_key); [|by injection Hrun as <-]. by rewrite Hrun.
  - intros md d d' r Hrun. change (rocks_persist_metadata metadata_json md d = (d', r)) in Hrun.
    unfold rocks_persist_metadata in Hrun. rewrite self_then, lift_then in Hrun.
    destruct (put_raft_state_metadata _ d md) as [write| |] eqn:Hput; [|by right; injection Hrun as <- <-..].
    apply put_metadata_Ok in Hput as (bytes & Hjson & ->). by eapply write_metadata_law.
  - intros b limits md d d' r Hok Hrun. by apply rocks_apply_law.
  - intros d bytes md Hrun. by apply rocks_export_law.
  - intros bytes md d d' r Hrun. by apply rocks_install_law.
Defined.
End lawful.
