(* ===== verification/PayloadCrypto.v ===== *)
(** * Encryption of stored payloads

    [crates/bpmp-payload-crypto/src/lib.rs]. The store encrypts through the
    class [PayloadCryptoPort]; [LawfulCrypto] is what it relies on. AES-GCM
    and the key service are parameters: [AesGcmPayloadCrypto] keeps the
    promise when opening what was sealed gives the message back and the
    service resolves a version of a key to the bytes that version names. *)

From S2P Require Import Prelude.
From stdpp Require Import options.

Inductive CryptoError :=
| KeyUnavailable | KeyRevoked | StaleKeyEpoch | EncryptionFailed | DecryptionFailed | InvalidMetadata.

Record EncryptedPayload := mkPayload {
  ep_key_scope : string;
  ep_key_version : string;
  ep_key_epoch : N;
  ep_algorithm : string;
  ep_nonce : string;
  ep_ciphertext : string }.

(** [encrypt] draws a nonce: its first argument numbers the draws. *)
Class PayloadCryptoPort (C : Type) := {
  encrypt : C → nat → string → string → string → res CryptoError EncryptedPayload;
  decrypt : C → string → EncryptedPayload → res CryptoError string }.

(** [seals aad payload plaintext]: the payload was made from the plaintext,
    bound to the associated data. Decryption may fail, but gives nothing
    else. *)
Class LawfulCrypto (C : Type) `{PayloadCryptoPort C} := {
  seals : string → EncryptedPayload → string → Prop;
  encrypt_law c n scope aad plaintext payload :
    encrypt c n scope aad plaintext = Ok payload → seals aad payload plaintext;
  decrypt_law c aad payload plaintext plaintext' :
    seals aad payload plaintext → decrypt c aad payload = Ok plaintext' → plaintext' = plaintext }.

(** ** AES-GCM *)
Definition AES_256_GCM : string := "AES-256-GCM".
Definition AES_GCM_NONCE_BYTES : nat := 12.

Record ResolvedDataKey := mkDataKey {
  dk_key_scope : string;
  dk_key_version : string;
  dk_key_epoch : N;
  dk_key_bytes : string }.

(** The key service at some moment, and the source of nonces. *)
Record AesGcmPayloadCrypto := mkAesGcm {
  resolve_for_encrypt : string → res CryptoError ResolvedDataKey;
  resolve_for_decrypt : string → string → N → res CryptoError ResolvedDataKey;
  generate_nonce : nat → string }.

Section aes.
(** [Aes256Gcm]: sealing and opening with a key, a nonce and associated data *)
Context (aead_seal : string → string → string → string → option string)
  (aead_open : string → string → string → string → option string).

Definition aes_encrypt (c : AesGcmPayloadCrypto) (n : nat) (key_scope associated_data plaintext : string) :
    res CryptoError EncryptedPayload :=
  key ← resolve_for_encrypt c key_scope;
  bail_if (bool_decide (dk_key_scope key ≠ key_scope)) InvalidMetadata;;
  let nonce := generate_nonce c n in
  ciphertext ← ok_or (aead_seal (dk_key_bytes key) nonce associated_data plaintext) EncryptionFailed;
  Ok (mkPayload (dk_key_scope key) (dk_key_version key) (dk_key_epoch key) AES_256_GCM nonce ciphertext).

Definition aes_decrypt (c : AesGcmPayloadCrypto) (associated_data : string) (payload : EncryptedPayload) :
    res CryptoError string :=
  bail_if (bool_decide (ep_algorithm payload ≠ AES_256_GCM)) InvalidMetadata;;
  bail_if (negb (String.length (ep_nonce payload) =? AES_GCM_NONCE_BYTES)%nat) InvalidMetadata;;
  key ← resolve_for_decrypt c (ep_key_scope payload) (ep_key_version payload) (ep_key_epoch payload);
  bail_if (bool_decide (dk_key_scope key ≠ ep_key_scope payload)
           || bool_decide (dk_key_version key ≠ ep_key_version payload)
           || bool_decide (dk_key_epoch key ≠ ep_key_epoch payload)) InvalidMetadata;;
  ok_or (aead_open (dk_key_bytes key) (ep_nonce payload) associated_data (ep_ciphertext payload))
    DecryptionFailed.

(** What is sealed opens to the same message. *)
Hypothesis aead_open_seal : ∀ key nonce aad message ciphertext,
  aead_seal key nonce aad message = Some ciphertext →
  aead_open key nonce aad ciphertext = Some message.
(** The key a scope, a version and an epoch name, at any time. *)
Context (key_named : string → string → N → string).
Definition consistent_keys (c : AesGcmPayloadCrypto) : Prop :=
  (∀ scope key, resolve_for_encrypt c scope = Ok key →
     dk_key_bytes key = key_named (dk_key_scope key) (dk_key_version key) (dk_key_epoch key)) ∧
  (∀ scope version epoch key, resolve_for_decrypt c scope version epoch = Ok key →
     dk_key_bytes key = key_named (dk_key_scope key) (dk_key_version key) (dk_key_epoch key)).

Definition aes_seals (aad : string) (payload : EncryptedPayload) (plaintext : string) : Prop :=
  aead_seal (key_named (ep_key_scope payload) (ep_key_version payload) (ep_key_epoch payload))
    (ep_nonce payload) aad plaintext = Some (ep_ciphertext payload).

Lemma aes_encrypt_seals c n scope aad plaintext payload :
  consistent_keys c → aes_encrypt c n scope aad plaintext = Ok payload → aes_seals aad payload plaintext.
Proof using.
  intros [Henc _] Hrun. unfold aes_encrypt in Hrun. inv_res Hrun.
  rename select (resolve_for_encrypt _ _ = _) into Hkey. apply Henc in Hkey.
  unfold aes_seals. simpl. by rewrite <-Hkey.
Qed.

Lemma aes_decrypt_Ok c aad payload plaintext :
  consistent_keys c → aes_decrypt c aad payload = Ok plaintext →
  aead_open (key_named (ep_key_scope payload) (ep_key_version payload) (ep_key_epoch payload))
    (ep_nonce payload) aad (ep_ciphertext payload) = Some plaintext.
Proof using.
  intros [_ Hdec] Hrun. unfold aes_decrypt in Hrun. inv_res Hrun.
  rename select (resolve_for_decrypt _ _ _ _ = _) into Hkey. apply Hdec in Hkey.
  rename select (_ || _ || _ = false) into Hmeta.
  apply orb_false_iff in Hmeta as [[Hscope Hversion]%orb_false_iff Hepoch].
  apply bool_decide_eq_false, dec_stable in Hscope, Hversion, Hepoch.
  by rewrite Hkey, Hscope, Hversion, Hepoch in Hrun.
Qed.

Lemma aes_decrypt_opens c aad payload plaintext plaintext' :
  consistent_keys c → aes_seals aad payload plaintext →
  aes_decrypt c aad payload = Ok plaintext' → plaintext' = plaintext.
Proof using aead_open_seal.
  intros Hkeys Hseal%aead_open_seal Hopen%aes_decrypt_Ok; [|done]. congruence.
Qed.

(** A payload is bound to its associated data: under a cipher that opens a
    text only with the data it was sealed with, decryption with other data
    fails. *)
Lemma aes_decrypt_bound c aad aad' payload plaintext :
  (∀ key nonce aad aad' message ciphertext, aead_seal key nonce aad message = Some ciphertext →
     aad' ≠ aad → aead_open key nonce aad' ciphertext = None) →
  consistent_keys c → aes_seals aad payload plaintext →
  aad' ≠ aad → is_ok (aes_decrypt c aad' payload) = false.
Proof using.
  intros Hbound Hkeys Hseal Hne. destruct (aes_decrypt c aad' payload) as [out| |] eqn:Hrun; [|done..].
  apply aes_decrypt_Ok in Hrun; [|done]. rewrite (Hbound _ _ _ _ _ _ Hseal Hne) in Hrun. done.
Qed.

(** The cipher over a key service that is consistent keeps the promise. *)
Record ConsistentCrypto := mkConsistent {
  cc_crypto : AesGcmPayloadCrypto;
  cc_keys : consistent_keys cc_crypto }.
Definition consistent_port : PayloadCryptoPort ConsistentCrypto := {|
  encrypt c := aes_encrypt (cc_crypto c);
  decrypt c := aes_decrypt (cc_crypto c) |}.
Definition aes_lawful : @LawfulCrypto ConsistentCrypto consistent_port.
Proof using aead_open_seal.
  refine {| seals := aes_seals |}.
  - intros c n scope aad plaintext payload. apply aes_encrypt_seals, (cc_keys c).
  - intros c aad payload plaintext plaintext'. apply aes_decrypt_opens, (cc_keys c).
Defined.
End aes.
