(* ===== verification/Types.v ===== *)
(** * Data model of the workflow core

    The types of [bpmp-domain-core/src/workflow.rs]: workflow definitions
    (nodes, guards, coverage, decision tables, boundary events, CMMN case
    models), commands, domain events, the instance state and the error type.
    Enum variants that would clash get a prefix ([Node_], [Op_], [V], ...);
    record fields carry a short prefix of their struct. *)

From S2P Require Import Prelude.
From stdpp Require Import options.

(** ** Identifiers ([identifiers.rs])

    Every identifier is a newtype over a non-blank [String]; the model keeps
    the string and the constructor's check. *)
Abbreviation TenantId := string (only parsing).
Abbreviation WorkflowType := string (only parsing).
Abbreviation WorkflowVersion := string (only parsing).
Abbreviation NodeId := string (only parsing).
Abbreviation TaskType := string (only parsing).
Abbreviation ScopeInstanceId := string (only parsing).
Abbreviation CaseId := string (only parsing).
Abbreviation CaseModelId := string (only parsing).
Abbreviation PlanItemId := string (only parsing).
Abbreviation SentryId := string (only parsing).

Inductive IdentifierError := MkIdentifierError (kind : string).

(** [$name::new] of the [identifier!] macro. *)
Definition identifier_new (kind value : string) : res IdentifierError string :=
  if is_blank value then Err (MkIdentifierError kind) else Ok value.

(** ** Values and expressions *)
Inductive WorkflowValue :=
| VBoolean (b : bool)
| VInteger (z : Z)
| VString (s : string)
| VList (items : list WorkflowValue).

Inductive ComparisonOperator :=
| Op_Equal
| Op_NotEqual
| Op_LessThan
| Op_LessThanOrEqual
| Op_GreaterThan
| Op_GreaterThanOrEqual.

Record GuardExpression := mkGuard {
  g_variable : string;
  g_operator : ComparisonOperator;
  g_literal : WorkflowValue;
}.

Inductive BooleanExpression :=
| Comparison (g : GuardExpression)
| Conjunction (operands : list BooleanExpression)
| Disjunction (operands : list BooleanExpression)
| Negation (operand : BooleanExpression)
| Constant (b : bool).

Record GuardedTransition := mkTransition {
  gt_target : NodeId;
  gt_guard : option GuardExpression;
  gt_expression : option BooleanExpression;
}.

Record IntegerInterval := mkInterval {
  iv_lower : option Z;
  iv_upper : option Z;
}.

Inductive GatewayCoverageDomain :=
| Domain_Boolean
| Domain_Enum (values : list string)
| Domain_Integer (intervals : list IntegerInterval)
| Domain_Symbolic.

Record GatewayCoverage := mkCoverage {
  cov_variable : string;
  cov_domain : GatewayCoverageDomain;
}.

(** ** Nodes *)
Inductive Node :=
| Node_Start (next : NodeId)
| Node_ServiceTask (task_type : TaskType) (next : NodeId)
| Node_UserTask (task_type : TaskType) (assignment_policy_ref : string)
    (form_key : option string) (result_variable : string) (next : NodeId)
| Node_ScriptTask (task_type : TaskType) (implementation_ref : string)
    (implementation_version : string) (next : NodeId)
| Node_DecisionTask (decision_table_id : string) (next : NodeId)
| Node_CallActivity (called_workflow : WorkflowType)
    (called_version : option WorkflowVersion) (next : NodeId)
| Node_SubProcess (start end_ next : NodeId)
| Node_ExclusiveGateway (transitions : list GuardedTransition)
    (coverage : option GatewayCoverage)
| Node_ParallelSplit (targets : list NodeId) (join : NodeId)
| Node_ParallelJoin (split next : NodeId)
| Node_InclusiveSplit (transitions : list GuardedTransition)
    (coverage : option GatewayCoverage) (join : NodeId)
| Node_InclusiveJoin (split next : NodeId)
| Node_End.

(** ** Decision tables *)
Inductive HitPolicy := Unique | First.
Inductive WorkflowValueType := Type_Boolean | Type_Integer | Type_String.

Record DecisionInput := mkDecisionInput {
  di_name : string;
  di_value_type : WorkflowValueType;
}.
Record DecisionOutput := mkDecisionOutput {
  do_name : string;
  do_value_type : WorkflowValueType;
}.
Inductive UnaryTest :=
| Test_Any
| Test_Equal (expected : WorkflowValue)
| Test_IntegerInterval (interval : IntegerInterval).
Record DecisionRule := mkDecisionRule {
  dr_id : string;
  dr_input_tests : list UnaryTest;
  dr_output_values : list WorkflowValue;
}.
Record DecisionTable := mkDecisionTable {
  dt_id : string;
  dt_hit_policy : HitPolicy;
  dt_inputs : list DecisionInput;
  dt_outputs : list DecisionOutput;
  dt_rules : list DecisionRule;
}.

(** ** Boundary events, multi-instance metadata, extension properties *)
Inductive BoundaryTimerKind := Date | Duration | Cycle.
Inductive BoundaryTrigger :=
| Trigger_Timer (kind : BoundaryTimerKind) (expression : string)
| Trigger_Error (error_ref : option string)
| Trigger_Message (message_ref : string).
Record BoundaryEventDefinition := mkBoundary {
  be_id : NodeId;
  be_cancel_activity : bool;
  be_target : NodeId;
  be_trigger : BoundaryTrigger;
}.

Inductive ExtensionPropertyValue :=
| Property_String (s : string)
| Property_Integer (z : Z)
| Property_Boolean (b : bool)
| Property_DurationMilliseconds (n : N).
Record ExtensionProperty := mkProperty {
  ep_namespace_uri : string;
  ep_element_name : string;
  ep_name : string;
  ep_value : ExtensionPropertyValue;
}.

Inductive MultiInstanceMode := Sequential | Parallel.
Record MultiInstanceDefinition := mkMultiInstance {
  mi_mode : MultiInstanceMode;
  mi_collection_expression : option string;
  mi_item_variable : option string;
  mi_cardinality_expression : option string;
  mi_max_parallelism : option N;
  mi_completion_condition : option BooleanExpression;
}.
Record NodeExecutionMetadata := mkMetadata {
  nm_multi_instance : option MultiInstanceDefinition;
  nm_properties : list ExtensionProperty;
  nm_owner_scope_id : option NodeId;
}.

(** ** CMMN case models *)
Record CaseStageDefinition := mkStage {
  cs_id : PlanItemId;
  cs_name : string;
  cs_entry_sentry_ids : list SentryId;
  cs_exit_sentry_ids : list SentryId;
}.
Record CaseMilestoneDefinition := mkMilestone {
  cm_id : PlanItemId;
  cm_name : string;
  cm_entry_sentry_ids : list SentryId;
}.
Record CaseSentryDefinition := mkSentry {
  se_id : SentryId;
  se_condition : BooleanExpression;
}.
Record CaseDefinition := mkCase {
  cd_id : CaseModelId;
  cd_name : string;
  cd_stages : list CaseStageDefinition;
  cd_milestones : list CaseMilestoneDefinition;
  cd_sentries : list CaseSentryDefinition;
}.
Inductive CaseLifecycle := Case_Active | Case_Completed.
Inductive CasePlanItemKind := Stage | Milestone.
Inductive CasePlanItemStatus := Item_Available | Item_Active | Item_Completed.
Record CasePlanItemState := mkPlanItem {
  pi_kind : CasePlanItemKind;
  pi_status : CasePlanItemStatus;
}.
Record ActiveCase := mkActiveCase {
  ac_model_id : CaseModelId;
  ac_lifecycle : CaseLifecycle;
  ac_satisfied_sentries : gset SentryId;
  ac_plan_items : gmap PlanItemId CasePlanItemState;
}.

(** ** Workflow definitions *)
Record WorkflowExecutionContracts := mkContracts {
  wc_boundary_events : list (NodeId * BoundaryEventDefinition);
  wc_node_metadata : list (NodeId * NodeExecutionMetadata);
  wc_properties : list ExtensionProperty;
  wc_case_models : list CaseDefinition;
}.
Record WorkflowDefinition := mkDefinition {
  wd_tenant_id : TenantId;
  wd_workflow_type : WorkflowType;
  wd_workflow_version : WorkflowVersion;
  wd_start_node : NodeId;
  wd_nodes : gmap NodeId Node;
  wd_decision_tables : gmap string DecisionTable;
  wd_boundary_events : gmap NodeId (list BoundaryEventDefinition);
  wd_node_metadata : gmap NodeId NodeExecutionMetadata;
  wd_properties : list ExtensionProperty;
  wd_case_models : gmap CaseModelId CaseDefinition;
}.

(** ** Commands *)
Abbreviation Variables := (gmap string WorkflowValue) (only parsing).

Inductive Command :=
| ActivateCase (case_id : CaseId) (case_model_id : CaseModelId) (at_ms : N)
| EvaluateCaseSentries (case_id : CaseId) (at_ms : N)
| StartWorkflow (tenant_id : TenantId) (at_ms : N)
| CompleteServiceTask (node_id : NodeId) (outputs : Variables) (at_ms : N)
| CompleteUserTask (node_id : NodeId) (decision : string) (at_ms : N)
| CompleteScriptTask (node_id : NodeId) (at_ms : N)
| CompleteMultiInstanceIteration (node_id : NodeId) (iteration : N) (at_ms : N)
| TriggerBoundaryEvent (boundary_event_id : NodeId) (at_ms : N).

(** ** Domain events

    [at_ms] is the field [occurred_at_epoch_ms]. *)
Inductive DomainEvent :=
| CaseActivated (case_id : CaseId) (case_model_id : CaseModelId)
    (stage_ids milestone_ids : list PlanItemId) (at_ms : N)
| CaseSentrySatisfied (case_id : CaseId) (sentry_id : SentryId) (at_ms : N)
| CasePlanItemTransitioned (case_id : CaseId) (plan_item_id : PlanItemId)
    (kind : CasePlanItemKind) (status : CasePlanItemStatus)
    (satisfied_sentry_ids : list SentryId) (at_ms : N)
| CaseCompleted (case_id : CaseId) (at_ms : N)
| WorkflowStarted (tenant_id : TenantId) (workflow_type : WorkflowType)
    (workflow_version : WorkflowVersion) (start_node_id : NodeId) (at_ms : N)
| ServiceTaskActivated (node_id : NodeId) (task_type : TaskType) (at_ms : N)
| ServiceTaskCompleted (node_id : NodeId) (outputs : Variables) (at_ms : N)
| UserTaskActivated (node_id : NodeId) (task_type : TaskType)
    (assignment_policy_ref : string) (form_key : option string) (at_ms : N)
| UserTaskCompleted (node_id : NodeId) (decision result_variable : string) (at_ms : N)
| UserTaskCancelled (node_id : NodeId) (reason : string) (at_ms : N)
| ScriptTaskActivated (node_id : NodeId) (task_type : TaskType)
    (implementation_ref implementation_version : string) (at_ms : N)
| ScriptTaskCompleted (node_id : NodeId) (at_ms : N)
| DecisionTaskEvaluated (node_id : NodeId) (decision_table_id : string)
    (outputs : Variables) (at_ms : N)
| GatewaySplitActivated (gateway_id join_gateway_id : NodeId)
    (selected_targets : list NodeId) (at_ms : N)
| GatewayTokenArrived (gateway_id : NodeId) (at_ms : N)
| GatewayJoined (gateway_id : NodeId) (at_ms : N)
| BoundaryEventArmed (boundary_event_id attached_node_id target_node_id : NodeId)
    (cancel_activity : bool) (trigger : BoundaryTrigger) (at_ms : N)
| BoundaryEventsDisarmed (attached_node_id : NodeId)
    (boundary_event_ids : list NodeId) (at_ms : N)
| MultiInstanceStarted (node_id : NodeId) (task_type : TaskType)
    (mode : MultiInstanceMode) (total_instances max_parallelism : N)
    (item_variable : option string) (items : list WorkflowValue) (at_ms : N)
| MultiInstanceIterationActivated (node_id : NodeId) (task_type : TaskType)
    (iteration : N) (item : option WorkflowValue) (at_ms : N)
| MultiInstanceIterationCompleted (node_id : NodeId) (iteration : N) (at_ms : N)
| MultiInstanceCompleted (node_id : NodeId) (completion_condition_satisfied : bool)
    (cancelled_iterations : list N) (at_ms : N)
| BoundaryEventTriggered (boundary_event_id attached_node_id target_node_id : NodeId)
    (cancel_activity : bool) (cancelled_iterations : list N)
    (cancelled_task_tokens : N) (at_ms : N)
| ScopeEntered (scope_instance_id : ScopeInstanceId) (scope_node_id start_node_id : NodeId)
    (parent_scope_instance_id : option ScopeInstanceId) (invocation : N) (at_ms : N)
| ScopeCompleted (scope_instance_id : ScopeInstanceId)
    (scope_node_id end_node_id : NodeId) (at_ms : N)
| WorkflowBranchCompleted (end_node_id : NodeId) (at_ms : N)
| WorkflowCompleted (at_ms : N)
| WorkflowTerminatedForCompliance (policy_id : string) (request_digest : list N)
    (reason_code : string) (reconciliation_count : N) (at_ms : N).

(** ** Instance state *)
Inductive Lifecycle :=
| Life_Initial
| Life_Active (active_node : NodeId)
| Life_Completed
| Life_TerminatedForCompliance.

Record PendingGatewayJoin := mkPendingJoin {
  pj_expected_tokens : N;
  pj_arrived_tokens : N;
}.
Record ActiveMultiInstance := mkActiveMI {
  am_task_type : TaskType;
  am_mode : MultiInstanceMode;
  am_total_instances : N;
  am_next_iteration : N;
  am_max_parallelism : N;
  am_item_variable : option string;
  am_items : list WorkflowValue;
  am_active_iterations : gset N;
  am_completed_iterations : gset N;
}.
Record ActiveBoundarySubscription := mkSubscription {
  ab_attached_node_id : NodeId;
  ab_target_node_id : NodeId;
  ab_cancel_activity : bool;
  ab_trigger : BoundaryTrigger;
  ab_armed_at_epoch_ms : N;
}.
Record ActiveExecutionScope := mkScope {
  as_scope_node_id : NodeId;
  as_start_node_id : NodeId;
  as_parent_scope_instance_id : option ScopeInstanceId;
  as_invocation : N;
}.

Record InstanceState := mkState {
  st_lifecycle : Lifecycle;
  st_sequence : N;
  st_variables : Variables;
  st_active_tokens : gmap NodeId N;
  st_pending_gateway_joins : gmap NodeId PendingGatewayJoin;
  st_active_multi_instances : gmap NodeId ActiveMultiInstance;
  st_active_boundary_subscriptions : gmap NodeId ActiveBoundarySubscription;
  st_active_scopes : gmap ScopeInstanceId ActiveExecutionScope;
  st_scope_invocation_counts : gmap NodeId N;
  st_active_cases : gmap CaseId ActiveCase;
}.

(** [InstanceState::default()] *)
Definition InstanceState_default : InstanceState :=
  {| st_lifecycle := Life_Initial;
     st_sequence := 0;
     st_variables := ∅;
     st_active_tokens := ∅;
     st_pending_gateway_joins := ∅;
     st_active_multi_instances := ∅;
     st_active_boundary_subscriptions := ∅;
     st_active_scopes := ∅;
     st_scope_invocation_counts := ∅;
     st_active_cases := ∅ |}.

(** ** Errors *)
Inductive DomainError :=
| DuplicateCaseModel
| UnknownCaseModel (id : CaseModelId)
| DuplicateCaseSentry (id : CaseModelId)
| UnknownCaseSentry (model : CaseModelId) (sentry : SentryId)
| DuplicateCasePlanItem (id : PlanItemId)
| UnknownCasePlanItem (id : PlanItemId)
| CaseAlreadyActivated (id : CaseId)
| CaseNotActive (id : CaseId)
| CaseAlreadyCompleted (id : CaseId)
| NoCaseSentrySatisfied (id : CaseId)
| DuplicateNode (id : NodeId)
| InvalidStartNode (id : NodeId)
| MissingTransitionTarget (source_node target : NodeId)
| TransitionToStartNode (id : NodeId)
| UnreachableNode (id : NodeId)
| UnknownBoundaryOwner (id : NodeId)
| DuplicateBoundaryEvent (id : NodeId)
| UnknownNodeMetadataOwner (id : NodeId)
| InvalidScopeOwner (id : NodeId)
| RecursiveScopeOwnership (id : NodeId)
| ScopeBoundaryOwnershipMismatch (scope child : NodeId)
| DuplicateNodeMetadata (id : NodeId)
| InvalidMultiInstance (node : NodeId) (detail : string)
| InvalidExtensionProperty
| DuplicateExtensionProperty
| UnknownNode (id : NodeId)
| AlreadyStarted
| NotStarted
| AlreadyCompleted
| TerminatedForCompliance
| TenantMismatch (expected actual : TenantId)
| NodeIsNotServiceTask (id : NodeId)
| NodeIsNotUserTask (id : NodeId)
| InvalidUserTaskDecision (id : NodeId)
| NodeIsNotScriptTask (id : NodeId)
| NodeIsNotMultiInstanceActivity (id : NodeId)
| TaskNotActive (id : NodeId)
| MultiInstanceAlreadyActive (id : NodeId)
| MultiInstanceNotActive (id : NodeId)
| MultiInstanceIterationNotActive (node : NodeId) (iteration : N)
| MultiInstanceActivationLimit (id : NodeId)
| MultiInstanceInputMissing (node : NodeId) (expression : string)
| MultiInstanceCollectionTypeMismatch (node : NodeId) (actual : string)
| InvalidMultiInstanceCardinality (node : NodeId) (expression : string)
| MultiInstanceCardinalityMismatch (node : NodeId) (collection_count cardinality : N)
| MultiInstanceCardinalityExceeded (node : NodeId) (actual configured_limit : N)
| UnknownBoundaryEvent (id : NodeId)
| BoundaryEventNotArmed (id : NodeId)
| BoundaryEventAlreadyArmed (id : NodeId)
| BoundarySubscriptionDefinitionMismatch (id : NodeId)
| BoundaryOwnerNotActive (id : NodeId)
| InterruptingScopeBoundaryUnsupported (id : NodeId)
| ScopeAlreadyActive (id : NodeId)
| ScopeNotActive (id : NodeId)
| AmbiguousActiveScope (id : NodeId)
| ScopeContextMissing (id : NodeId)
| ScopeInvocationOverflow (id : NodeId)
| InvalidScopeInstanceIdentity (id : NodeId)
| ScopeInstanceNotActive (id : ScopeInstanceId)
| ScopeInstanceOwnerMismatch (scope_instance_id : ScopeInstanceId) (expected actual : NodeId)
| AmbiguousGateway (id : NodeId)
| NoGatewayBranch (id : NodeId)
| ConflictingGuardRepresentations
| MissingDecisionTable (id : string)
| DuplicateDecisionTable
| InvalidDecisionTable (table_id detail : string)
| AmbiguousDecisionTable (id : string)
| NoDecisionRuleMatched (id : string)
| DecisionInputMissing (table_id input : string)
| DecisionInputTypeMismatch (table_id input actual expected : string)
| AutomaticTransitionLimitExceeded (id : NodeId)
| GatewayRequiresBranches (id : NodeId)
| GatewayRequiresDefaultOrCoverage (id : NodeId)
| GatewayCoverageWithDefault (id : NodeId)
| GatewayRequiresOneDefault (gateway : NodeId) (actual : nat)
| InvalidGatewayCoverage (gateway : NodeId) (detail : string)
| DuplicateGatewayTarget (gateway target : NodeId)
| InvalidGatewayPair (gateway paired : NodeId)
| JoinAlreadyPending (id : NodeId)
| UnexpectedGatewayJoin (id : NodeId)
| TokenCountOverflow (id : NodeId)
| EndReachedWithOutstandingTokens (id : NodeId)
| GuardVariableMissing (variable : string)
| GuardTypeMismatch (variable actual expected : string)
| DecisionLimitExceeded (produced configured_limit : N).

(** ** Decidable equality

    [WorkflowValue] is nested through [list], so its decision procedure is a
    fixpoint over the derived ones. *)
Fixpoint WorkflowValue_eqb (x y : WorkflowValue) : bool :=
  match x, y with
  | VBoolean a, VBoolean b => Bool.eqb a b
  | VInteger a, VInteger b => (a =? b)%Z
  | VString a, VString b => String.eqb a b
  | VList xs, VList ys =>
      (fix go (xs ys : list WorkflowValue) : bool :=
         match xs, ys with
         | [], [] => true
         | x :: xs, y :: ys => WorkflowValue_eqb x y && go xs ys
         | _, _ => false
         end) xs ys
  | _, _ => false
  end.

(** Induction through the list of a [VList]. *)
Fixpoint WorkflowValue_ind' (P : WorkflowValue → Prop)
    (Hb : ∀ b, P (VBoolean b)) (Hz : ∀ z, P (VInteger z)) (Hs : ∀ s, P (VString s))
    (Hl : ∀ l, Forall P l → P (VList l)) (v : WorkflowValue) : P v :=
  match v with
  | VBoolean b => Hb b
  | VInteger z => Hz z
  | VString s => Hs s
  | VList l => Hl l
      ((fix go (l : list WorkflowValue) : Forall P l :=
          match l with
          | [] => Forall_nil_2 P
          | x :: l => Forall_cons_2 P x l (WorkflowValue_ind' P Hb Hz Hs Hl x) (go l)
          end) l)
  end.

Lemma WorkflowValue_eqb_eq x y : WorkflowValue_eqb x y = true ↔ x = y.
Proof.
  revert y. induction x as [a|a|a|xs IH] using WorkflowValue_ind'; intros [b|b|b|ys]; simpl;
    try (split; [discriminate|congruence]).
  - rewrite Bool.eqb_true_iff. split; congruence.
  - rewrite Z.eqb_eq. split; congruence.
  - rewrite String.eqb_eq. split; congruence.
  - transitivity (xs = ys); [|split; congruence].
    revert ys. induction IH as [|x xs Hx _ IHxs]; intros [|y ys]; simpl;
      try (split; [discriminate|congruence]); [done|].
    rewrite andb_true_iff, Hx, IHxs. split; [intros [-> ->]; done|intros [= -> ->]; done].
Qed.

#[global] Instance WorkflowValue_eq_dec : EqDecision WorkflowValue.
Proof.
  intros x y. destruct (WorkflowValue_eqb x y) eqn:Heq.
  - left. by apply WorkflowValue_eqb_eq.
  - right. intros ?%WorkflowValue_eqb_eq. congruence.
Defined.

#[global] Instance ComparisonOperator_eq_dec : EqDecision ComparisonOperator.
Proof. solve_decision. Defined.
#[global] Instance IntegerInterval_eq_dec : EqDecision IntegerInterval.
Proof. solve_decision. Defined.
#[global] Instance BoundaryTimerKind_eq_dec : EqDecision BoundaryTimerKind.
Proof. solve_decision. Defined.
#[global] Instance BoundaryTrigger_eq_dec : EqDecision BoundaryTrigger.
Proof. solve_decision. Defined.
#[global] Instance CaseLifecycle_eq_dec : EqDecision CaseLifecycle.
Proof. solve_decision. Defined.
#[global] Instance CasePlanItemStatus_eq_dec : EqDecision CasePlanItemStatus.
Proof. solve_decision. Defined.
#[global] Instance MultiInstanceMode_eq_dec : EqDecision MultiInstanceMode.
Proof. solve_decision. Defined.
