(* ===== verification/Expr.v ===== *)
(** * Guards, expressions, decision tables and transition selection

    [workflow.rs]: the evaluation of guard and boolean expressions over typed
    workflow values, the choice of gateway branches and the evaluation of DMN
    decision tables, with the correctness of each: reference semantics,
    uniqueness of the selected branch or rule, typing of the outputs. *)

From S2P Require Import Prelude Types.
From stdpp Require Import options.

Abbreviation result := (res DomainError) (only parsing).

(** ** Values *)
Definition WorkflowValue_is_scalar (v : WorkflowValue) : bool :=
  match v with VList _ => false | _ => true end.

Definition bool_cmp (a b : bool) : comparison :=
  match a, b with
  | false, true => Lt
  | true, false => Gt
  | _, _ => Eq
  end.

Definition same_type_cmp (self other : WorkflowValue) : option comparison :=
  match self, other with
  | VInteger l, VInteger r => Some (Z.compare l r)
  | VString l, VString r => Some (String.compare l r)
  | VBoolean l, VBoolean r => Some (bool_cmp l r)
  | _, _ => None
  end.

Definition WorkflowValue_type_name (v : WorkflowValue) : string :=
  match v with
  | VBoolean _ => "boolean"
  | VInteger _ => "integer"
  | VString _ => "string"
  | VList _ => "list"
  end.

Definition ValueType_matches (t : WorkflowValueType) (v : WorkflowValue) : bool :=
  match t, v with
  | Type_Boolean, VBoolean _ | Type_Integer, VInteger _ | Type_String, VString _ => true
  | _, _ => false
  end.

Definition ValueType_type_name (t : WorkflowValueType) : string :=
  match t with
  | Type_Boolean => "boolean"
  | Type_Integer => "integer"
  | Type_String => "string"
  end.

(** ** Guards and boolean expressions *)
Definition operator_holds (op : ComparisonOperator) (c : comparison) : bool :=
  match op, c with
  | Op_Equal, Eq => true
  | Op_NotEqual, (Lt | Gt) => true
  | Op_LessThan, Lt => true
  | Op_LessThanOrEqual, (Lt | Eq) => true
  | Op_GreaterThan, Gt => true
  | Op_GreaterThanOrEqual, (Gt | Eq) => true
  | _, _ => false
  end.

Definition guard_evaluate (g : GuardExpression) (variables : Variables) : result bool :=
  actual ← ok_or (variables !! g_variable g) (GuardVariableMissing (g_variable g));
  ordering ← ok_or (same_type_cmp actual (g_literal g))
    (GuardTypeMismatch (g_variable g) (WorkflowValue_type_name actual)
       (WorkflowValue_type_name (g_literal g)));
  Ok (operator_holds (g_operator g) ordering).

(** [BooleanExpression::evaluate]: the loops over the operands return at the
    first operand that decides the result. *)
Fixpoint expression_evaluate (e : BooleanExpression) (variables : Variables) : result bool :=
  match e with
  | Comparison g => guard_evaluate g variables
  | Conjunction operands =>
      (fix all (l : list BooleanExpression) : result bool :=
         match l with
         | [] => Ok true
         | operand :: l =>
             b ← expression_evaluate operand variables;
             if negb b then Ok false else all l
         end) operands
  | Disjunction operands =>
      (fix any (l : list BooleanExpression) : result bool :=
         match l with
         | [] => Ok false
         | operand :: l =>
             b ← expression_evaluate operand variables;
             if b : bool then Ok true else any l
         end) operands
  | Negation operand => b ← expression_evaluate operand variables; Ok (negb b)
  | Constant b => Ok b
  end.

Definition is_default (t : GuardedTransition) : bool :=
  match gt_guard t, gt_expression t with
  | None, None => true
  | _, _ => false
  end.

Definition transition_evaluate (t : GuardedTransition) (variables : Variables) : result bool :=
  match gt_guard t, gt_expression t with
  | Some guard, None => guard_evaluate guard variables
  | None, Some expression => expression_evaluate expression variables
  | None, None => Ok true
  | Some _, Some _ => Err ConflictingGuardRepresentations
  end.

(** ** Gateway branch selection *)
Definition default_target (transitions : list GuardedTransition) : option NodeId :=
  gt_target <$> head (filter (λ t, is_default t = true) transitions).

(** The loop of [select_transition]: at most one guarded branch may match. *)
Fixpoint select_unique (gateway_id : NodeId) (variables : Variables)
    (selected : option NodeId) (transitions : list GuardedTransition) : result (option NodeId) :=
  match transitions with
  | [] => Ok selected
  | t :: rest =>
      if is_default t then select_unique gateway_id variables selected rest else
      b ← transition_evaluate t variables;
      if (b : bool) then
        match selected with
        | Some _ => Err (AmbiguousGateway gateway_id)
        | None => select_unique gateway_id variables (Some (gt_target t)) rest
        end
      else select_unique gateway_id variables selected rest
  end.

Definition select_transition (gateway_id : NodeId) (transitions : list GuardedTransition)
    (variables : Variables) : result NodeId :=
  selected ← select_unique gateway_id variables None transitions;
  ok_or (match selected with Some t => Some t | None => default_target transitions end)
    (NoGatewayBranch gateway_id).

(** The loop of [select_transitions]: every guarded branch that matches. *)
Fixpoint select_matching (variables : Variables) (transitions : list GuardedTransition)
    : result (list NodeId) :=
  match transitions with
  | [] => Ok []
  | t :: rest =>
      if is_default t then select_matching variables rest else
      b ← transition_evaluate t variables;
      selected ← select_matching variables rest;
      Ok (if b : bool then gt_target t :: selected else selected)
  end.

Definition select_transitions (gateway_id : NodeId) (transitions : list GuardedTransition)
    (variables : Variables) : result (list NodeId) :=
  selected ← select_matching variables transitions;
  let selected := match selected with [] => option_list (default_target transitions) | _ => selected end in
  match selected with
  | [] => Err (NoGatewayBranch gateway_id)
  | _ => Ok selected
  end.

(** ** Decision tables *)
Definition UnaryTest_matches (test : UnaryTest) (value : WorkflowValue) : bool :=
  match test with
  | Test_Any => true
  | Test_Equal expected => bool_decide (value = expected)
  | Test_IntegerInterval interval =>
      match value with
      | VInteger z =>
          match iv_lower interval with None => true | Some lower => (lower <=? z)%Z end &&
          match iv_upper interval with None => true | Some upper => (z <=? upper)%Z end
      | _ => false
      end
  end.

(** The loop of [decision_rule_matches] over [inputs.zip(input_tests)]. *)
Fixpoint rule_matches (table_id : string) (variables : Variables)
    (pairs : list (DecisionInput * UnaryTest)) : result bool :=
  match pairs with
  | [] => Ok true
  | (input, test) :: rest =>
      value ← ok_or (variables !! di_name input) (DecisionInputMissing table_id (di_name input));
      bail_if (negb (ValueType_matches (di_value_type input) value))
        (DecisionInputTypeMismatch table_id (di_name input) (WorkflowValue_type_name value)
           (ValueType_type_name (di_value_type input)));;
      if negb (UnaryTest_matches test value) then Ok false
      else rule_matches table_id variables rest
  end.
Definition decision_rule_matches (table : DecisionTable) (rule : DecisionRule)
    (variables : Variables) : result bool :=
  rule_matches (dt_id table) variables (zip (dt_inputs table) (dr_input_tests rule)).

(** The loop of [evaluate_decision_table] over the rules. *)
Fixpoint select_rule (table : DecisionTable) (variables : Variables)
    (selected : option DecisionRule) (rules : list DecisionRule) : result (option DecisionRule) :=
  match rules with
  | [] => Ok selected
  | rule :: rest =>
      b ← decision_rule_matches table rule variables;
      if (b : bool) then
        match dt_hit_policy table with
        | First => Ok (Some rule)
        | Unique =>
            match selected with
            | None => select_rule table variables (Some rule) rest
            | Some _ => Err (AmbiguousDecisionTable (dt_id table))
            end
        end
      else select_rule table variables selected rest
  end.

Definition evaluate_decision_table (table : DecisionTable) (variables : Variables)
    : result Variables :=
  selected ← select_rule table variables None (dt_rules table);
  rule ← ok_or selected (NoDecisionRuleMatched (dt_id table));
  Ok (btree_extend ∅
        ((λ '(output, value), (do_name output, value)) <$>
           zip (dt_outputs table) (dr_output_values rule))).

(** [state.variables.extend(context_variables)]: the context wins. *)
Definition variables_extend (variables extra : Variables) : Variables := extra ∪ variables.

(** ** Reference semantics of expressions

    [expr_denote] reads an expression as a proposition over total values;
    [expr_typed] says that every comparison in it finds a variable of the
    literal's type. *)
Definition guard_denote (variables : Variables) (g : GuardExpression) : bool :=
  match variables !! g_variable g with
  | Some actual =>
      match same_type_cmp actual (g_literal g) with
      | Some c => operator_holds (g_operator g) c
      | None => false
      end
  | None => false
  end.
Definition guard_typed (variables : Variables) (g : GuardExpression) : bool :=
  match variables !! g_variable g with
  | Some actual => bool_decide (is_Some (same_type_cmp actual (g_literal g)))
  | None => false
  end.
Fixpoint expr_denote (variables : Variables) (e : BooleanExpression) : bool :=
  match e with
  | Comparison g => guard_denote variables g
  | Conjunction l => forallb (expr_denote variables) l
  | Disjunction l => existsb (expr_denote variables) l
  | Negation e => negb (expr_denote variables e)
  | Constant b => b
  end.
Fixpoint expr_typed (variables : Variables) (e : BooleanExpression) : bool :=
  match e with
  | Comparison g => guard_typed variables g
  | Conjunction l | Disjunction l => forallb (expr_typed variables) l
  | Negation e => expr_typed variables e
  | Constant _ => true
  end.

(** Induction through the operand lists. *)
Fixpoint BooleanExpression_ind' (P : BooleanExpression → Prop)
    (Hg : ∀ g, P (Comparison g))
    (Hc : ∀ l, Forall P l → P (Conjunction l))
    (Hd : ∀ l, Forall P l → P (Disjunction l))
    (Hn : ∀ e, P e → P (Negation e))
    (Hk : ∀ b, P (Constant b)) (e : BooleanExpression) : P e :=
  let rec := BooleanExpression_ind' P Hg Hc Hd Hn Hk in
  let go := fix go (l : list BooleanExpression) : Forall P l :=
    match l with
    | [] => Forall_nil_2 P
    | x :: l => Forall_cons_2 P x l (rec x) (go l)
    end in
  match e with
  | Comparison g => Hg g
  | Conjunction l => Hc l (go l)
  | Disjunction l => Hd l (go l)
  | Negation e => Hn e (rec e)
  | Constant b => Hk b
  end.

Lemma guard_evaluate_denote variables g :
  guard_typed variables g = true → guard_evaluate g variables = Ok (guard_denote variables g).
Proof.
  unfold guard_typed, guard_evaluate, guard_denote.
  destruct (variables !! g_variable g) as [actual|]; simpl; [|done].
  case_bool_decide as Hc; [|done]. by destruct Hc as [c ->].
Qed.

Lemma expression_evaluate_denote variables e :
  expr_typed variables e = true → expression_evaluate e variables = Ok (expr_denote variables e).
Proof.
  induction e as [g|l IH|l IH|e IH|b] using BooleanExpression_ind'; simpl.
  - apply guard_evaluate_denote.
  - induction IH as [|e l He _ IHl]; simpl; [done|].
    intros [Ht1 Ht2]%andb_true_iff. rewrite He by done. simpl.
    destruct (expr_denote variables e); simpl; auto.
  - induction IH as [|e l He _ IHl]; simpl; [done|].
    intros [Ht1 Ht2]%andb_true_iff. rewrite He by done. simpl.
    destruct (expr_denote variables e); simpl; auto.
  - intros Ht. by rewrite IH.
  - done.
Qed.

(** The evaluation of a negated conjunction is that of the disjunction of the
    negations, errors and their order included. *)
Lemma expression_de_morgan variables l :
  expression_evaluate (Negation (Conjunction l)) variables =
  expression_evaluate (Disjunction (Negation <$> l)) variables.
Proof.
  simpl. induction l as [|e l IH]; simpl; [done|].
  destruct (expression_evaluate e variables) as [[]| |]; simpl; auto.
Qed.

(** ** Branch selection *)
Definition no_match (variables : Variables) (t : GuardedTransition) : Prop :=
  is_default t = true ∨ transition_evaluate t variables = Ok false.
Definition matches (variables : Variables) (t : GuardedTransition) : Prop :=
  is_default t = false ∧ transition_evaluate t variables = Ok true.

Lemma select_unique_Some gw variables target ts r :
  select_unique gw variables (Some target) ts = Ok r ↔
  r = Some target ∧ Forall (no_match variables) ts.
Proof.
  induction ts as [|t ts IH]; simpl.
  { split; [intros [= <-]; auto|intros [-> _]; done]. }
  rewrite Forall_cons. unfold no_match at 1. destruct (is_default t) eqn:Hd.
  { rewrite IH. naive_solver. }
  destruct (transition_evaluate t variables) as [[]| |] eqn:He; simpl;
    [|rewrite IH|..]; naive_solver.
Qed.

Lemma select_unique_None gw variables ts r :
  select_unique gw variables None ts = Ok r ↔
  (r = None ∧ Forall (no_match variables) ts) ∨
  (∃ l1 t l2, ts = l1 ++ t :: l2 ∧ matches variables t ∧ r = Some (gt_target t) ∧
     Forall (no_match variables) (l1 ++ l2)).
Proof.
  split.
  - revert r. induction ts as [|t ts IH]; simpl; intros r.
    { intros [= <-]. by left. }
    assert (select_unique gw variables None ts = Ok r → no_match variables t →
      (r = None ∧ Forall (no_match variables) (t :: ts)) ∨
      ∃ l1 t0 l2, t :: ts = l1 ++ t0 :: l2 ∧ matches variables t0 ∧
        r = Some (gt_target t0) ∧ Forall (no_match variables) (l1 ++ l2)) as Hskip.
    { intros [[-> Hts]|(l1 & t0 & l2 & -> & Hm & -> & Hno)]%IH Ht.
      - left. split; [done|]. by constructor.
      - right. exists (t :: l1), t0, l2. split_and!; [done..|]. by constructor. }
    destruct (is_default t) eqn:Hd; [intros H; apply Hskip; [done|by left]|].
    destruct (transition_evaluate t variables) as [[]| |] eqn:He; simpl; try done.
    + intros [-> Hts]%select_unique_Some. right. exists [], t, ts. by split_and!.
    + intros H. apply Hskip; [done|by right].
  - intros [[-> Hts]|(l1 & t & l2 & -> & [Hd Ht] & -> & Hno)].
    + induction Hts as [|t ts Ht _ IH]; simpl; [done|].
      destruct Ht as [-> | ->]; [done|]. by destruct (is_default t).
    + apply Forall_app in Hno as [H1 H2].
      induction H1 as [|t1 l1 Ht1 _ IH]; simpl.
      * rewrite Hd, Ht. simpl. by apply select_unique_Some.
      * destruct Ht1 as [-> | ->]; [done|]. by destruct (is_default t1).
Qed.

Lemma select_transition_spec gw ts variables target :
  select_transition gw ts variables = Ok target ↔
  (∃ l1 t l2, ts = l1 ++ t :: l2 ∧ matches variables t ∧ gt_target t = target ∧
     Forall (no_match variables) (l1 ++ l2)) ∨
  (Forall (no_match variables) ts ∧ default_target ts = Some target).
Proof.
  unfold select_transition. rewrite bind_Ok. setoid_rewrite select_unique_None.
  setoid_rewrite ok_or_Ok. split.
  - intros (r & [[-> Hno]|(l1 & t & l2 & -> & Hm & -> & Hno)] & Heq); [by right|].
    left. exists l1, t, l2. by simplify_eq.
  - intros [(l1 & t & l2 & -> & Hm & <- & Hno)|[Hno Hd]].
    + exists (Some (gt_target t)). split; [|done]. right. by exists l1, t, l2.
    + exists None. split; [|done]. by left.
Qed.

Lemma select_matching_spec variables ts r :
  select_matching variables ts = Ok r →
  r = gt_target <$> filter (λ t, bool_decide (is_default t = false) &&
                               match transition_evaluate t variables with Ok true => true | _ => false end) ts
  ∧ Forall (λ t, is_default t = true ∨ ∃ b, transition_evaluate t variables = Ok b) ts.
Proof.
  revert r. induction ts as [|t ts IH]; intros r; simpl; [intros [= <-]; by split|].
  destruct (is_default t) eqn:Hd.
  { intros [-> Hts]%IH. rewrite filter_cons_False by (rewrite Hd; naive_solver).
    split; [done|]. constructor; [by left|done]. }
  destruct (transition_evaluate t variables) as [b| |] eqn:He; simpl; try done.
  intros (sel & [-> Hts]%IH & [= <-])%bind_Ok. split; [|constructor; [right; eauto|done]].
  destruct b.
  - by rewrite filter_cons_True by (rewrite Hd, He; done).
  - by rewrite filter_cons_False by (rewrite Hd, He; naive_solver).
Qed.

Lemma select_transitions_nonempty gw ts variables targets :
  select_transitions gw ts variables = Ok targets → targets ≠ [].
Proof.
  unfold select_transitions. intros (sel & _ & H)%bind_Ok.
  destruct (match sel with [] => _ | _ => _ end) eqn:Hs; by simplify_eq.
Qed.

Lemma default_target_elem ts target :
  default_target ts = Some target → ∃ t, t ∈ ts ∧ is_default t = true ∧ gt_target t = target.
Proof.
  unfold default_target. intros (t & Hh & ->)%fmap_Some.
  destruct (filter _ ts) as [|t' l] eqn:Hf; simplify_eq/=.
  exists t. assert (t ∈ filter (λ t, is_default t = true) ts) as Hin by (rewrite Hf; by left).
  apply list_elem_of_filter in Hin as [??]. done.
Qed.

Lemma select_transition_target gw ts variables target :
  select_transition gw ts variables = Ok target → target ∈ gt_target <$> ts.
Proof.
  intros [(l1 & t & l2 & -> & _ & <- & _)|[_ (t & Hin & _ & <-)%default_target_elem]]%select_transition_spec.
  - rewrite fmap_app, fmap_cons. set_solver.
  - apply list_elem_of_fmap. eauto.
Qed.

Lemma select_transitions_targets gw ts variables targets :
  select_transitions gw ts variables = Ok targets → targets ⊆ gt_target <$> ts.
Proof.
  unfold select_transitions. intros (sel & [Hsel _]%select_matching_spec & H)%bind_Ok.
  destruct sel as [|x sel]; simpl in H.
  - destruct (default_target ts) as [d|] eqn:Hd; simpl in H; simplify_eq.
    intros x ->%list_elem_of_singleton. apply default_target_elem in Hd as (t & ? & _ & <-).
    apply list_elem_of_fmap. eauto.
  - simplify_eq. rewrite Hsel. intros y.
    rewrite !list_elem_of_fmap. intros (t & -> & [_ Hin]%list_elem_of_filter). eauto.
Qed.

(** ** Decision tables: which rule fires *)
Definition rule_fires (table : DecisionTable) (variables : Variables) (r : DecisionRule) : Prop :=
  decision_rule_matches table r variables = Ok true.
Definition rule_silent (table : DecisionTable) (variables : Variables) (r : DecisionRule) : Prop :=
  decision_rule_matches table r variables = Ok false.
Definition table_outputs (table : DecisionTable) (rule : DecisionRule) : Variables :=
  btree_extend ∅
    ((λ '(output, value), (do_name output, value)) <$>
       zip (dt_outputs table) (dr_output_values rule)).

Lemma select_rule_Some table variables r0 rules r :
  dt_hit_policy table = Unique →
  select_rule table variables (Some r0) rules = Ok r ↔
  r = Some r0 ∧ Forall (rule_silent table variables) rules.
Proof.
  intros Hu. induction rules as [|rule rules IH]; simpl.
  { split; [intros [= <-]; auto|intros [-> _]; done]. }
  rewrite Forall_cons. unfold rule_silent at 1.
  destruct (decision_rule_matches table rule variables) as [[]| |]; simpl;
    rewrite ?Hu, ?IH; naive_solver.
Qed.

Lemma select_rule_None table variables rules rule :
  select_rule table variables None rules = Ok (Some rule) ↔
  ∃ pre post, rules = pre ++ rule :: post ∧ rule_fires table variables rule ∧
    Forall (rule_silent table variables) pre ∧
    (dt_hit_policy table = Unique → Forall (rule_silent table variables) post).
Proof.
  split.
  - induction rules as [|r rules IH]; simpl; [done|].
    destruct (decision_rule_matches table r variables) as [[]| |] eqn:Hm; simpl; try done.
    + destruct (dt_hit_policy table) eqn:Hp.
      * intros [[= ->] Hs]%select_rule_Some; [|done]. exists [], rules. by split_and!.
      * intros [= ->]. exists [], rules. by split_and!.
    + intros (pre & post & -> & Hf & Hpre & Hpost)%IH. exists (r :: pre), post.
      split_and!; [done..| |done]. by constructor.
  - intros (pre & post & -> & Hf & Hpre & Hpost).
    induction Hpre as [|r pre Hr _ IH]; simpl.
    + rewrite Hf. simpl. destruct (dt_hit_policy table) eqn:Hp; [|done].
      apply select_rule_Some; auto.
    + by rewrite Hr.
Qed.

Lemma evaluate_decision_table_spec table variables out :
  evaluate_decision_table table variables = Ok out ↔
  ∃ rule pre post, dt_rules table = pre ++ rule :: post ∧ rule_fires table variables rule ∧
    Forall (rule_silent table variables) pre ∧
    (dt_hit_policy table = Unique → Forall (rule_silent table variables) post) ∧
    out = table_outputs table rule.
Proof.
  unfold evaluate_decision_table. rewrite bind_Ok. split.
  - intros (sel & Hsel & (rule & ->%ok_or_Ok & [= <-])%bind_Ok).
    apply select_rule_None in Hsel as (pre & post & ? & ? & ? & ?).
    exists rule, pre, post. by split_and!.
  - intros (rule & pre & post & ? & ? & ? & ? & ->). exists (Some rule).
    split; [|done]. apply select_rule_None. by exists pre, post.
Qed.

Lemma btree_extend_lookup {V} (l : list (string * V)) (m : gmap string V) k v :
  btree_extend m l !! k = Some v → (k, v) ∈ l ∨ m !! k = Some v.
Proof.
  unfold btree_extend. revert m. induction l as [|[k' v'] l IH]; intros m; simpl; [auto|].
  intros [Hin|Hm]%IH; [left; by right|].
  destruct (decide (k' = k)) as [->|Hne].
  - rewrite lookup_insert_eq in Hm. simplify_eq. left. by left.
  - rewrite lookup_insert_ne in Hm by done. by right.
Qed.

(** ** Absence of panics *)
Lemma guard_no_panic g variables s : guard_evaluate g variables ≠ Panic s.
Proof.
  unfold guard_evaluate. intros [H|(? & _ & H)]%bind_Panic; [by apply ok_or_Panic in H|].
  apply bind_Panic in H as [H|(? & _ & H)]; [by apply ok_or_Panic in H|done].
Qed.

Lemma expression_no_panic e variables s : expression_evaluate e variables ≠ Panic s.
Proof.
  revert s. induction e as [g|l IH|l IH|e IH|b] using BooleanExpression_ind'; intros s; simpl.
  - apply guard_no_panic.
  - induction IH as [|e l He _ IHl]; simpl; [done|].
    intros [H|([] & _ & H)]%bind_Panic; [by apply He in H|by apply IHl|done].
  - induction IH as [|e l He _ IHl]; simpl; [done|].
    intros [H|([] & _ & H)]%bind_Panic; [by apply He in H|done|by apply IHl].
  - intros [H|(b & _ & H)]%bind_Panic; [by apply IH in H|done].
  - done.
Qed.

Lemma transition_no_panic t variables s : transition_evaluate t variables ≠ Panic s.
Proof.
  unfold transition_evaluate.
  destruct (gt_guard t), (gt_expression t);
    eauto using guard_no_panic, expression_no_panic; done.
Qed.

Lemma select_unique_no_panic gw variables sel ts s : select_unique gw variables sel ts ≠ Panic s.
Proof.
  revert sel. induction ts as [|t ts IH]; intros sel; simpl; [done|].
  destruct (is_default t); [apply IH|].
  intros [H|([] & _ & H)]%bind_Panic; [by apply transition_no_panic in H| |by apply IH in H].
  destruct sel; [done|]. by apply IH in H.
Qed.

Lemma select_transition_no_panic gw ts variables s : select_transition gw ts variables ≠ Panic s.
Proof.
  unfold select_transition.
  intros [H|(? & _ & H)]%bind_Panic; [by apply select_unique_no_panic in H|by apply ok_or_Panic in H].
Qed.

Lemma select_transitions_no_panic gw ts variables s : select_transitions gw ts variables ≠ Panic s.
Proof.
  unfold select_transitions. intros [H|(sel & _ & H)]%bind_Panic.
  - revert s H. induction ts as [|t ts IH]; intros s; simpl; [done|].
    destruct (is_default t); [apply IH|].
    intros [H|(b & _ & H)]%bind_Panic; [by apply transition_no_panic in H|].
    apply bind_Panic in H as [H|(? & _ & H)]; [by apply IH in H|done].
  - by repeat case_match.
Qed.

Lemma rule_matches_no_panic tid variables ps s : rule_matches tid variables ps ≠ Panic s.
Proof.
  induction ps as [|[i t] ps IH]; simpl; [done|].
  intros [H|(v & _ & H)]%bind_Panic; [by apply ok_or_Panic in H|].
  apply bind_Panic in H as [H|(? & _ & H)]; [by apply bail_if_Panic in H|].
  by destruct (negb _).
Qed.

Lemma evaluate_decision_table_no_panic table variables s :
  evaluate_decision_table table variables ≠ Panic s.
Proof.
  unfold evaluate_decision_table. intros [H|(sel & _ & H)]%bind_Panic.
  - revert H. generalize (None : option DecisionRule).
    induction (dt_rules table) as [|r rules IH]; intros sel; simpl; [done|].
    intros [H|([] & _ & H)]%bind_Panic.
    + by apply rule_matches_no_panic in H.
    + destruct (dt_hit_policy table), sel; try done. by apply IH in H.
    + by apply IH in H.
  - apply bind_Panic in H as [H|(? & _ & H)]; [by apply ok_or_Panic in H|done].
Qed.
#[export] Hint Resolve guard_no_panic expression_no_panic select_transition_no_panic
  select_transitions_no_panic evaluate_decision_table_no_panic : panics.
