(* ===== verification/Coverage.v ===== *)
(** * Static validation of gateways and decision tables

    [workflow.rs]: [validate_gateway], the coverage proofs over boolean, enum
    and integer domains, [validate_inclusive_gateway],
    [validate_parallel_split] and [validate_decision_table]. The theorems say
    what a validated gateway or table guarantees when it runs. *)

From S2P Require Import Prelude Types Expr.
From stdpp Require Import options.

Definition invalid_gateway_coverage {A} (node_id : NodeId) (detail : string) : result A :=
  Err (InvalidGatewayCoverage node_id detail).

(** ** Coverage of a boolean domain *)
Definition boolean_guard_value (node_id : NodeId) (guard : GuardExpression) : result bool :=
  match g_literal guard with
  | VBoolean value =>
      match g_operator guard with
      | Op_Equal => Ok value
      | Op_NotEqual => Ok (negb value)
      | _ => invalid_gateway_coverage node_id "boolean coverage supports only == and !="
      end
  | _ => invalid_gateway_coverage node_id "boolean coverage cannot mix literal types"
  end.

Definition validate_boolean_coverage (node_id : NodeId) (guards : list GuardExpression)
    : result unit :=
  covered ← for_each (λ (covered : gset bool) guard,
      value ← boolean_guard_value node_id guard;
      if bool_decide (value ∈ covered)
      then invalid_gateway_coverage node_id "boolean value is matched by more than one branch"
      else Ok ({[value]} ∪ covered)) guards ∅;
  if bool_decide (size covered = 2) then Ok tt
  else invalid_gateway_coverage node_id "boolean domain is not fully covered".

(** ** Coverage of an enumerated domain *)
Definition enum_guard_value (node_id : NodeId) (declared : gset string)
    (guard : GuardExpression) : result string :=
  match g_literal guard with
  | VString value =>
      bail_if (bool_decide (g_operator guard ≠ Op_Equal))
        (InvalidGatewayCoverage node_id "enum coverage supports only equality");;
      bail_if (bool_decide (value ∉ declared))
        (InvalidGatewayCoverage node_id "enum guard is outside coverage domain");;
      Ok value
  | _ => invalid_gateway_coverage node_id "enum coverage cannot mix literal types"
  end.

Definition validate_enum_coverage (node_id : NodeId) (guards : list GuardExpression)
    (values : list string) : result unit :=
  bail_if (is_empty values)
    (InvalidGatewayCoverage node_id "enum coverage domain is empty");;
  let declared : gset string := list_to_set values in
  bail_if (bool_decide (size declared ≠ length values))
    (InvalidGatewayCoverage node_id "enum coverage domain contains duplicates");;
  covered ← for_each (λ (covered : gset string) guard,
      value ← enum_guard_value node_id declared guard;
      if bool_decide (value ∈ covered)
      then invalid_gateway_coverage node_id "enum value is matched by more than one branch"
      else Ok ({[value]} ∪ covered)) guards ∅;
  if bool_decide (declared = covered) then Ok tt
  else invalid_gateway_coverage node_id "enum domain is not fully covered".

(** ** Coverage of the 64-bit integers *)
Definition integer_guard_intervals (operator : ComparisonOperator) (value : Z)
    : list IntegerInterval :=
  let below := match i64_checked (value - 1) with
               | Some upper => [mkInterval None (Some upper)] | None => [] end in
  let above := match i64_checked (value + 1) with
               | Some lower => [mkInterval (Some lower) None] | None => [] end in
  match operator with
  | Op_Equal => [mkInterval (Some value) (Some value)]
  | Op_NotEqual => below ++ above
  | Op_LessThan => below
  | Op_LessThanOrEqual => [mkInterval None (Some value)]
  | Op_GreaterThan => above
  | Op_GreaterThanOrEqual => [mkInterval (Some value) None]
  end.

Definition compare_interval_lower (actual expected : option Z) : comparison :=
  Z.compare (default i64_min actual) (default i64_min expected).

(** The sort key [(lower.unwrap_or(i64::MIN), upper)], [None] first. *)
Definition interval_leb (a b : IntegerInterval) : bool :=
  let la := default i64_min (iv_lower a) in
  let lb := default i64_min (iv_lower b) in
  (la <? lb)%Z ||
  ((la =? lb)%Z &&
   match iv_upper a, iv_upper b with
   | None, _ => true
   | Some _, None => false
   | Some ua, Some ub => (ua <=? ub)%Z
   end).
Definition interval_le (a b : IntegerInterval) : Prop := interval_leb a b = true.
#[global] Instance interval_le_dec : RelDecision interval_le.
Proof. intros a b. unfold interval_le. apply _. Defined.
Definition sort_intervals (intervals : list IntegerInterval) : list IntegerInterval :=
  merge_sort interval_le intervals.

(** The loop of [validate_disjoint_integer_cover] over the sorted intervals. *)
Fixpoint check_cover (node_id : NodeId) (expected_lower : option Z)
    (intervals : list IntegerInterval) : result unit :=
  match intervals with
  | [] => invalid_gateway_coverage node_id "integer intervals do not cover upper range"
  | interval :: rest =>
      match compare_interval_lower (iv_lower interval) expected_lower with
      | Lt => invalid_gateway_coverage node_id "integer intervals overlap"
      | Gt => invalid_gateway_coverage node_id "integer intervals leave a gap"
      | Eq =>
          bail_if (match iv_lower interval, iv_upper interval with
                   | Some lower, Some upper => (upper <? lower)%Z | _, _ => false end)
            (InvalidGatewayCoverage node_id "integer interval lower bound is above upper bound");;
          match iv_upper interval with
          | None => Ok tt
          | Some value =>
              if (value =? i64_max)%Z then Ok tt else
              match i64_checked (value + 1) with
              | None => invalid_gateway_coverage node_id "integer interval upper bound overflows"
              | Some e => check_cover node_id (Some e) rest
              end
          end
      end
  end.
(** Returns the slice as sorted in place. *)
Definition validate_disjoint_integer_cover (node_id : NodeId)
    (intervals : list IntegerInterval) : result (list IntegerInterval) :=
  let sorted := sort_intervals intervals in
  check_cover node_id None sorted;; Ok sorted.

Definition validate_integer_coverage (node_id : NodeId) (guards : list GuardExpression)
    (proof : list IntegerInterval) : result unit :=
  intervals ← for_each (λ intervals guard,
      match g_literal guard with
      | VInteger value => Ok (intervals ++ integer_guard_intervals (g_operator guard) value)
      | _ => invalid_gateway_coverage node_id "integer coverage cannot mix literal types"
      end) guards [];
  intervals ← validate_disjoint_integer_cover node_id intervals;
  normalized_proof ← validate_disjoint_integer_cover node_id proof;
  if bool_decide (intervals = normalized_proof) then Ok tt
  else invalid_gateway_coverage node_id "integer coverage proof does not match guards".

(** ** Gateways *)

(** [transitions.map(|t| t.guard.as_ref().expect("checked above"))] *)
Fixpoint collect_guards (transitions : list GuardedTransition) : result (list GuardExpression) :=
  match transitions with
  | [] => Ok []
  | t :: rest =>
      match gt_guard t with
      | Some guard => guards ← collect_guards rest; Ok (guard :: guards)
      | None => Panic "checked above"
      end
  end.

Definition validate_gateway_coverage (node_id : NodeId) (transitions : list GuardedTransition)
    (coverage : GatewayCoverage) : result unit :=
  match cov_domain coverage with
  | Domain_Symbolic =>
      bail_if (existsb is_default transitions)
        (InvalidGatewayCoverage node_id
           "symbolic coverage cannot be combined with default branches");;
      bail_if (existsb (λ t, Bool.eqb (is_some (gt_guard t))
                               (is_some (gt_expression t))) transitions)
        (InvalidGatewayCoverage node_id
           "each symbolic branch must contain exactly one guard representation");;
      Ok tt
  | domain =>
      bail_if (is_blank (cov_variable coverage))
        (InvalidGatewayCoverage node_id "coverage variable is empty");;
      bail_if (existsb is_default transitions)
        (InvalidGatewayCoverage node_id
           "coverage proof cannot be combined with default branches");;
      guards ← collect_guards transitions;
      bail_if (existsb (λ guard, bool_decide (g_variable guard ≠ cov_variable coverage)) guards)
        (InvalidGatewayCoverage node_id "all covered guards must use the coverage variable");;
      match domain with
      | Domain_Boolean => validate_boolean_coverage node_id guards
      | Domain_Enum values => validate_enum_coverage node_id guards values
      | Domain_Integer intervals => validate_integer_coverage node_id guards intervals
      | Domain_Symbolic => Panic "handled above"
      end
  end.

(** The first target that an earlier branch already has. *)
Fixpoint first_duplicate (seen : gset string) (targets : list NodeId) : option NodeId :=
  match targets with
  | [] => None
  | t :: rest => if bool_decide (t ∈ seen) then Some t else first_duplicate ({[t]} ∪ seen) rest
  end.

Definition validate_gateway (node_id : NodeId) (transitions : list GuardedTransition)
    (coverage : option GatewayCoverage) : result unit :=
  bail_if (length transitions <? 2) (GatewayRequiresBranches node_id);;
  let defaults := length (List.filter is_default transitions) in
  match defaults with
  | 0 =>
      c ← ok_or coverage (GatewayRequiresDefaultOrCoverage node_id);
      validate_gateway_coverage node_id transitions c
  | 1 => bail_if (is_some coverage) (GatewayCoverageWithDefault node_id)
  | actual => Err (GatewayRequiresOneDefault node_id actual)
  end;;
  match first_duplicate ∅ (gt_target <$> transitions) with
  | Some duplicate => Err (DuplicateGatewayTarget node_id duplicate)
  | None => Ok tt
  end.

Definition validate_parallel_split (node_id : NodeId) (targets : list NodeId) : result unit :=
  bail_if (length targets <? 2) (GatewayRequiresBranches node_id);;
  if bool_decide (size (list_to_set targets : gset string) ≠ length targets) then
    match head (List.filter (λ t, 1 <? length (List.filter (λ u, bool_decide (u = t)) targets)) targets) with
    | Some target => Err (DuplicateGatewayTarget node_id target)
    | None => Panic "duplicate target exists"
    end
  else Ok tt.

Definition validate_inclusive_gateway (node_id : NodeId) (transitions : list GuardedTransition)
    (coverage : option GatewayCoverage) : result unit :=
  bail_if (length transitions <? 2) (GatewayRequiresBranches node_id);;
  let default_count := length (List.filter is_default transitions) in
  bail_if (1 <? default_count) (GatewayRequiresOneDefault node_id default_count);;
  bail_if ((default_count =? 0) && negb (is_some coverage))
    (GatewayRequiresDefaultOrCoverage node_id);;
  if bool_decide (size (list_to_set (gt_target <$> transitions) : gset string) ≠ length transitions)
  then match transitions with
       | t :: _ => Err (DuplicateGatewayTarget node_id (gt_target t))
       | [] => Panic "index out of bounds"
       end
  else Ok tt.

(** ** Decision tables *)
Fixpoint validate_rule_outputs (table_id rule_id : string)
    (pairs : list (WorkflowValue * DecisionOutput)) : result unit :=
  match pairs with
  | [] => Ok tt
  | (value, output) :: rest =>
      bail_if (negb (ValueType_matches (do_value_type output) value))
        (InvalidDecisionTable table_id
           ("rule " +:+ rule_id +:+ " output " +:+ do_name output +:+ " has wrong type"));;
      validate_rule_outputs table_id rule_id rest
  end.

Definition validate_decision_table (table : DecisionTable) : result unit :=
  bail_if (is_blank (dt_id table))
    (InvalidDecisionTable (dt_id table) "decision table id is empty");;
  bail_if (is_empty (dt_inputs table) || is_empty (dt_outputs table))
    (InvalidDecisionTable (dt_id table) "decision table must declare inputs and outputs");;
  for_each (λ _ rule,
    bail_if (bool_decide (length (dr_input_tests rule) ≠ length (dt_inputs table)))
      (InvalidDecisionTable (dt_id table)
         ("rule " +:+ dr_id rule +:+ " input count does not match table inputs"));;
    bail_if (bool_decide (length (dr_output_values rule) ≠ length (dt_outputs table)))
      (InvalidDecisionTable (dt_id table)
         ("rule " +:+ dr_id rule +:+ " output count does not match table outputs"));;
    validate_rule_outputs (dt_id table) (dr_id rule)
      (zip (dr_output_values rule) (dt_outputs table)))
    (dt_rules table) tt.

(** ** Branches that match exactly one value each *)
Section distinct.
Context {A : Type} `{EqDecision A, !Countable A}.

Lemma for_each_distinct (f : GuardExpression → result A) (err : DomainError) guards covered :
  for_each (λ (covered : gset A) g,
    v ← f g; if bool_decide (v ∈ covered) then Err err else Ok ({[v]} ∪ covered)) guards ∅
    = Ok covered →
  ∃ vals, Forall2 (λ g v, f g = Ok v) guards vals ∧ NoDup vals ∧ covered = list_to_set vals.
Proof.
  intros Hrun.
  apply (for_each_inv _ (λ seen c, ∃ vals,
    Forall2 (λ g v, f g = Ok v) seen vals ∧ NoDup vals ∧ c = list_to_set vals)) in Hrun; [done|..].
  - exists []. split_and!; [constructor|constructor|done].
  - intros seen g c1 c2 (vals & HF & Hnd & ->) _ Hstep. simpl in Hstep.
    apply bind_Ok in Hstep as (v & Hv & Hstep).
    case_bool_decide as Hin; [done|]. injection Hstep as <-.
    exists (vals ++ [v]). split_and!.
    + apply Forall2_app; [done|]. by repeat constructor.
    + rewrite elem_of_list_to_set in Hin.
      apply NoDup_app. split_and!; [done|set_solver|apply NoDup_singleton].
    + rewrite list_to_set_app_L. set_solver.
Qed.

(** When branch [i] matches exactly [vals !! i], a value of [vals] selects
    its branch and no other. *)
Lemma select_transition_distinct gw ts variables (vals : list A) (x : A) :
  Forall2 (λ t v, is_default t = false ∧
                  transition_evaluate t variables = Ok (bool_decide (x = v))) ts vals →
  NoDup vals → x ∈ vals →
  ∃ i t, ts !! i = Some t ∧ vals !! i = Some x ∧
         select_transition gw ts variables = Ok (gt_target t).
Proof.
  intros HF Hnd (v1 & v2 & ->)%list_elem_of_split.
  apply Forall2_app_inv_r in HF as (l1 & l2' & H1 & H2 & ->).
  apply Forall2_cons_inv_r in H2 as (t & l2 & [Hd Ht] & H2 & ->).
  apply NoDup_app in Hnd as (_ & Hdis & [Hx2 _]%NoDup_cons).
  assert (∀ l v, Forall2 (λ t v, is_default t = false ∧
    transition_evaluate t variables = Ok (bool_decide (x = v))) l v → x ∉ v →
    Forall (no_match variables) l) as Hno.
  { clear. induction 1 as [|t v l vs [Hd Ht] _ IH]; intros Hx; constructor.
    - right. rewrite Ht. f_equal. apply bool_decide_eq_false. set_solver.
    - apply IH. set_solver. }
  exists (length l1), t. split_and!.
  - by rewrite list_lookup_middle.
  - rewrite list_lookup_middle; [done|]. by apply Forall2_length in H1.
  - apply select_transition_spec. left. exists l1, t, l2. split_and!; [done|..|done|].
    + split; [done|]. rewrite Ht. by rewrite bool_decide_eq_true_2.
    + apply Forall_app. split; eapply Hno; [done| |done|done].
      intros ?. by apply (Hdis x); [|left].
Qed.
End distinct.

Lemma collect_guards_Ok ts gs :
  collect_guards ts = Ok gs → Forall2 (λ t g, gt_guard t = Some g) ts gs.
Proof.
  revert gs. induction ts as [|t ts IH]; simpl; intros gs; [intros [= <-]; constructor|].
  destruct (gt_guard t) as [g|] eqn:Hg; [|done].
  intros (gs' & ?%IH & [= <-])%bind_Ok. by constructor.
Qed.

Lemma validate_gateway_coverage_Ok node ts cov :
  validate_gateway_coverage node ts cov = Ok tt →
  cov_domain cov ≠ Domain_Symbolic →
  ∃ guards, Forall2 (λ t g, gt_guard t = Some g ∧ is_default t = false ∧
                            g_variable g = cov_variable cov) ts guards ∧
    match cov_domain cov with
    | Domain_Boolean => validate_boolean_coverage node guards
    | Domain_Enum values => validate_enum_coverage node guards values
    | Domain_Integer intervals => validate_integer_coverage node guards intervals
    | Domain_Symbolic => Panic "handled above"
    end = Ok tt.
Proof.
  unfold validate_gateway_coverage. intros H Hsym.
  assert (∃ guards, collect_guards ts = Ok guards ∧ existsb is_default ts = false ∧
    existsb (λ guard, bool_decide (g_variable guard ≠ cov_variable cov)) guards = false ∧
    match cov_domain cov with
    | Domain_Boolean => validate_boolean_coverage node guards
    | Domain_Enum values => validate_enum_coverage node guards values
    | Domain_Integer intervals => validate_integer_coverage node guards intervals
    | Domain_Symbolic => Panic "handled above"
    end = Ok tt) as (guards & Hg & Hd & Hv & Hok).
  { destruct (cov_domain cov); [inv_res H; eauto 10..|done]. }
  exists guards. split; [|done].
  apply collect_guards_Ok in Hg. clear H Hok.
  induction Hg as [|t g ts gs Ht Hg IH]; [constructor|]. simpl in *.
  apply orb_false_iff in Hd as [Hd1 Hd2]. apply orb_false_iff in Hv as [Hv1 Hv2].
  constructor; [|by apply IH]. split_and!; [done..|].
  apply bool_decide_eq_false in Hv1. by apply dec_stable.
Qed.

Lemma validate_gateway_covered node ts cov :
  validate_gateway node ts (Some cov) = Ok tt → validate_gateway_coverage node ts cov = Ok tt.
Proof.
  unfold validate_gateway. intros H. apply bind_Ok in H as (? & _ & H).
  apply bind_Ok in H as ([] & H & _).
  destruct (length (List.filter is_default ts)) as [|[|]]; [done|done|done].
Qed.

(** A branch with a guard and no expression evaluates its guard. *)
Lemma transition_evaluate_guard t g variables :
  gt_guard t = Some g → gt_expression t = None →
  transition_evaluate t variables = guard_evaluate g variables.
Proof. unfold transition_evaluate. by intros -> ->. Qed.

Lemma boolean_guard_evaluate node g v x variables :
  boolean_guard_value node g = Ok v → variables !! g_variable g = Some (VBoolean x) →
  guard_evaluate g variables = Ok (bool_decide (x = v)).
Proof.
  unfold boolean_guard_value, guard_evaluate. intros Hv ->. simpl.
  destruct (g_literal g) as [b| | |]; try done. simpl.
  destruct (g_operator g); try discriminate; injection Hv as <-; by destruct x, b.
Qed.

Lemma enum_guard_evaluate node declared g v x variables :
  enum_guard_value node declared g = Ok v → variables !! g_variable g = Some (VString x) →
  guard_evaluate g variables = Ok (bool_decide (x = v)).
Proof.
  unfold enum_guard_value, guard_evaluate. intros Hv ->. simpl.
  destruct (g_literal g) as [| |s|]; try done. inv_res Hv. simpl.
  apply bool_decide_eq_false in Hv0. apply dec_stable in Hv0 as ->. f_equal.
  destruct (String.compare x v) eqn:Hc; [|by
    rewrite bool_decide_eq_false_2; [|intros ->; rewrite string_compare_refl in Hc]..].
  apply string_compare_Eq in Hc as ->. by rewrite bool_decide_eq_true_2.
Qed.

(** ** Integer intervals *)
Definition in_interval (z : Z) (iv : IntegerInterval) : Prop :=
  (default i64_min (iv_lower iv) ≤ z ≤ default i64_max (iv_upper iv))%Z.

Lemma check_cover_exhaustive node expected l z :
  check_cover node expected l = Ok tt →
  (default i64_min expected ≤ z ≤ i64_max)%Z → ∃ iv, iv ∈ l ∧ in_interval z iv.
Proof.
  revert expected. induction l as [|iv l IH]; intros expected; simpl; [done|].
  unfold compare_interval_lower.
  destruct (Z.compare_spec (default i64_min (iv_lower iv)) (default i64_min expected))
    as [Hlo|?|?]; [|done..].
  intros (? & _ & H)%bind_Ok Hz.
  destruct (iv_upper iv) as [u|] eqn:Hu.
  - destruct (decide (z ≤ u)%Z) as [Hle|Hgt].
    { exists iv. split; [by left|]. unfold in_interval. rewrite Hu. simpl. lia. }
    destruct (Z.eqb_spec u i64_max); [lia|].
    destruct (i64_checked (u + 1)) as [e|] eqn:He; [|done].
    apply i64_checked_Some in He as [-> _].
    apply IH in H as (iv' & Hin & Hiv); [|simpl; lia].
    exists iv'. split; [by right|done].
  - exists iv. split; [by left|]. unfold in_interval. rewrite Hu. simpl. lia.
Qed.

Lemma integer_guard_intervals_sound op v iv z :
  iv ∈ integer_guard_intervals op v → in_interval z iv → (i64_min ≤ z ≤ i64_max)%Z →
  operator_holds op (Z.compare z v) = true.
Proof.
  assert (∀ r s : list IntegerInterval, iv ∈ r ++ s → iv ∈ r ∨ iv ∈ s) as Happ
    by (intros ?? ?%elem_of_app; done).
  unfold integer_guard_intervals. intros Hin Hz Hr.
  assert (iv ∈ match i64_checked (v - 1) with
               | Some upper => [mkInterval None (Some upper)] | None => [] end → (z < v)%Z) as Hb.
  { destruct (i64_checked (v - 1)) as [u|] eqn:Hu; [|by intros ?%not_elem_of_nil].
    apply i64_checked_Some in Hu as [-> _]. intros ->%list_elem_of_singleton.
    unfold in_interval in Hz. simpl in Hz. lia. }
  assert (iv ∈ match i64_checked (v + 1) with
               | Some lower => [mkInterval (Some lower) None] | None => [] end → (v < z)%Z) as Ha.
  { destruct (i64_checked (v + 1)) as [u|] eqn:Hu; [|by intros ?%not_elem_of_nil].
    apply i64_checked_Some in Hu as [-> _]. intros ->%list_elem_of_singleton.
    unfold in_interval in Hz. simpl in Hz. lia. }
  destruct op.
  - apply list_elem_of_singleton in Hin as ->. unfold in_interval in Hz. simpl in Hz.
    destruct (Z.compare_spec z v); simpl; [done|lia|lia].
  - apply Happ in Hin as [Hin|Hin]; destruct (Z.compare_spec z v); simpl; try done; exfalso.
    + specialize (Hb Hin). lia.
    + specialize (Ha Hin). lia.
  - specialize (Hb Hin). destruct (Z.compare_spec z v); simpl; [lia|done|lia].
  - apply list_elem_of_singleton in Hin as ->. unfold in_interval in Hz. simpl in Hz.
    destruct (Z.compare_spec z v); simpl; [done|done|lia].
  - specialize (Ha Hin). destruct (Z.compare_spec z v); simpl; [lia|lia|done].
  - apply list_elem_of_singleton in Hin as ->. unfold in_interval in Hz. simpl in Hz.
    destruct (Z.compare_spec z v); simpl; [done|lia|done].
Qed.

(** The guards of an accepted integer coverage compare with integers, and
    every 64-bit value satisfies one of them. *)
Lemma validate_integer_coverage_sound node guards proof :
  validate_integer_coverage node guards proof = Ok tt →
  Forall (λ g, ∃ v, g_literal g = VInteger v) guards ∧
  ∀ z, (i64_min ≤ z ≤ i64_max)%Z →
    ∃ g v, g ∈ guards ∧ g_literal g = VInteger v ∧
           operator_holds (g_operator g) (Z.compare z v) = true.
Proof.
  unfold validate_integer_coverage, validate_disjoint_integer_cover.
  intros (intervals & Hint & (sorted & (u & Hc & [= <-])%bind_Ok & _)%bind_Ok)%bind_Ok.
  apply (for_each_inv _ (λ seen ivs,
    Forall (λ g, ∃ v, g_literal g = VInteger v) seen ∧
    ∀ iv, iv ∈ ivs → ∃ g v, g ∈ seen ∧ g_literal g = VInteger v ∧
      iv ∈ integer_guard_intervals (g_operator g) v)) in Hint as [Hlit Hivs].
  - split; [done|]. intros z Hz. destruct u.
    destruct (check_cover_exhaustive _ _ _ z Hc Hz) as (iv & Hin & Hiv).
    unfold sort_intervals in Hin. rewrite merge_sort_Permutation in Hin.
    apply Hivs in Hin as (g & v & Hg & Hv & Hin). exists g, v. split_and!; [done..|].
    by eapply integer_guard_intervals_sound.
  - split; [constructor|]. by intros iv ?%not_elem_of_nil.
  - intros seen g ivs1 ivs2 [HF Hsub] _ Hstep.
    destruct (g_literal g) as [|v| |] eqn:Hl; try done. injection Hstep as <-. split.
    + apply Forall_app. split; [done|]. constructor; eauto.
    + intros iv [Hin|Hin]%elem_of_app.
      * apply Hsub in Hin as (g' & v' & ? & ? & ?). exists g', v'. set_solver.
      * exists g, v. set_solver.
Qed.

(** A gateway whose guarded branches all evaluate selects a branch, reports an
    ambiguity, or falls through. *)
Lemma select_unique_total gw variables sel ts :
  Forall (λ t, is_default t = true ∨ ∃ b, transition_evaluate t variables = Ok b) ts →
  (∃ r, select_unique gw variables sel ts = Ok r) ∨
  select_unique gw variables sel ts = Err (AmbiguousGateway gw).
Proof.
  intros HF. revert sel. induction HF as [|t ts Ht _ IH]; intros sel; simpl; [eauto|].
  destruct Ht as [-> |[b ->]]; [apply IH|]. destruct (is_default t); [apply IH|].
  simpl. destruct b, sel; eauto.
Qed.

(** * Properties of validated gateways *)

Lemma covered_branch_selected {A} `{EqDecision A, !Countable A} node ts guards variable
    variables (f : GuardExpression → result A) (vals : list A) (x : A) :
  Forall2 (λ t g, gt_guard t = Some g ∧ is_default t = false ∧ g_variable g = variable) ts guards →
  Forall (λ t, gt_expression t = None) ts →
  Forall2 (λ g v, f g = Ok v) guards vals →
  NoDup vals → x ∈ vals →
  (∀ g v, g_variable g = variable → f g = Ok v →
     guard_evaluate g variables = Ok (bool_decide (x = v))) →
  ∃ i t, ts !! i = Some t ∧ transition_evaluate t variables = Ok true ∧
         select_transition node ts variables = Ok (gt_target t).
Proof.
  intros Hts Hexp Hvals Hnd Hx Heval.
  assert (Forall2 (λ t v, is_default t = false ∧
      transition_evaluate t variables = Ok (bool_decide (x = v))) ts vals) as HF.
  { clear Hnd Hx. revert vals Hvals.
    induction Hts as [|t g ts gs (Hg & Hd & Hgv) _ IH]; intros vals Hvals;
      inversion Hvals as [|? v ? vs Hv1 Hv2]; simplify_eq; [constructor|].
    apply Forall_cons in Hexp as [He Hexp].
    constructor; [|by apply IH]. split; [done|].
    rewrite (transition_evaluate_guard _ g) by done. by apply Heval. }
  destruct (select_transition_distinct node ts variables vals x HF Hnd Hx)
    as (i & t & Hi & Hvi & Hsel). exists i, t. split_and!; [done| |done].
  eapply Forall2_lookup_lr in HF as [_ ->]; [|done..]. by rewrite bool_decide_eq_true_2.
Qed.

Lemma boolean_coverage_selects node ts cov variables b :
  validate_gateway node ts (Some cov) = Ok tt →
  cov_domain cov = Domain_Boolean →
  Forall (λ t, gt_expression t = None) ts →
  variables !! cov_variable cov = Some (VBoolean b) →
  ∃ i t, ts !! i = Some t ∧ transition_evaluate t variables = Ok true ∧
         select_transition node ts variables = Ok (gt_target t).
Proof.
  intros Hv Hdom Hexp Hvar. apply validate_gateway_covered in Hv.
  apply validate_gateway_coverage_Ok in Hv as (guards & Hts & Hok); [|by rewrite Hdom].
  rewrite Hdom in Hok. apply bind_Ok in Hok as (covered & Hloop & Hsz).
  case_bool_decide as Hcov; [|done].
  apply for_each_distinct in Hloop as (vals & Hvals & Hnd & ->).
  eapply (covered_branch_selected _ _ _ _ _ _ _ b); [done..| |].
  - rewrite size_list_to_set in Hcov by done.
    destruct vals as [|x [|y [|]]]; try done.
    apply NoDup_cons in Hnd as [Hne _]. destruct x, y, b; set_solver.
  - intros g v Hg Hf. eapply boolean_guard_evaluate; [done|by rewrite Hg].
Qed.

Lemma enum_coverage_selects node ts cov values variables s :
  validate_gateway node ts (Some cov) = Ok tt →
  cov_domain cov = Domain_Enum values →
  Forall (λ t, gt_expression t = None) ts →
  variables !! cov_variable cov = Some (VString s) → s ∈ values →
  ∃ i t, ts !! i = Some t ∧ transition_evaluate t variables = Ok true ∧
         select_transition node ts variables = Ok (gt_target t).
Proof.
  intros Hv Hdom Hexp Hvar Hs. apply validate_gateway_covered in Hv.
  apply validate_gateway_coverage_Ok in Hv as (guards & Hts & Hok); [|by rewrite Hdom].
  rewrite Hdom in Hok.
  apply bind_Ok in Hok as (_ & _ & Hok). apply bind_Ok in Hok as (_ & _ & Hok).
  apply bind_Ok in Hok as (covered & Hloop & Hsz). case_bool_decide as Hcov; [|done].
  apply for_each_distinct in Hloop as (vals & Hvals & Hnd & ->).
  eapply (covered_branch_selected _ _ _ _ _ _ _ s); [done..| |].
  - apply (elem_of_list_to_set (C:=gset string)). rewrite <-Hcov. by apply elem_of_list_to_set.
  - intros g v Hg Hf. eapply enum_guard_evaluate; [done|by rewrite Hg].
Qed.

Lemma integer_coverage_exhaustive node ts cov intervals variables z :
  validate_gateway node ts (Some cov) = Ok tt →
  cov_domain cov = Domain_Integer intervals →
  Forall (λ t, gt_expression t = None) ts →
  variables !! cov_variable cov = Some (VInteger z) → (i64_min ≤ z ≤ i64_max)%Z →
  (∃ t, t ∈ ts ∧ matches variables t) ∧
  ((∃ target, select_transition node ts variables = Ok target) ∨
   select_transition node ts variables = Err (AmbiguousGateway node)).
Proof.
  intros Hv Hdom Hexp Hvar Hz. apply validate_gateway_covered in Hv.
  apply validate_gateway_coverage_Ok in Hv as (guards & Hts & Hok); [|by rewrite Hdom].
  rewrite Hdom in Hok. apply validate_integer_coverage_sound in Hok as [Hlit Hcov].
  assert (Forall2 (λ t g, is_default t = false ∧ ∃ v, g_literal g = VInteger v ∧
      transition_evaluate t variables =
        Ok (operator_holds (g_operator g) (Z.compare z v))) ts guards) as HF.
  { clear Hcov. induction Hts as [|t g ts gs (Hg & Hd & Hgv) _ IH]; [constructor|].
    apply Forall_cons in Hexp as [He Hexp]. apply Forall_cons in Hlit as [[v Hl] Hlit].
    constructor; [|by apply IH]. split; [done|]. exists v. split; [done|].
    rewrite (transition_evaluate_guard _ g) by done.
    unfold guard_evaluate. rewrite Hgv, Hvar. simpl. rewrite Hl. done. }
  destruct (Hcov z Hz) as (g & v & (i & Hi)%list_elem_of_lookup & Hl & Hop).
  assert (∃ t, ts !! i = Some t) as [t Ht].
  { apply lookup_lt_is_Some. rewrite (Forall2_length _ _ _ HF). by eapply lookup_lt_Some. }
  pose proof (Forall2_lookup_lr _ _ _ _ _ _ HF Ht Hi) as (Hd & v' & Hl' & Hev).
  rewrite Hl in Hl'. simplify_eq. rewrite Hop in Hev.
  assert (matches variables t) as Hm by (by split).
  split; [exists t; split; [by eapply list_elem_of_lookup_2|done]|].
  destruct (select_unique_total node variables None ts) as [[r Hr]|Hr].
  { apply Forall_lookup. intros j t' Hj. right.
    destruct (Forall2_lookup_l _ _ _ _ _ HF Hj) as (? & _ & _ & ? & _ & ->). eauto. }
  - left. unfold select_transition. rewrite Hr. simpl.
    apply select_unique_None in Hr as [[-> Hno]|(l1 & t0 & l2 & _ & _ & -> & _)]; [|by eexists].
    rewrite Forall_lookup in Hno. destruct (Hno _ _ Ht) as [?|?]; congruence.
  - right. unfold select_transition. by rewrite Hr.
Qed.

Lemma validate_parallel_split_Ok node targets :
  validate_parallel_split node targets = Ok tt → 2 ≤ length targets ∧ NoDup targets.
Proof.
  unfold validate_parallel_split. intros (u & Hlen%bail_if_Ok & H)%bind_Ok.
  apply Nat.ltb_ge in Hlen. split; [done|].
  case_bool_decide as Hsz.
  - by destruct (head _).
  - by apply NoDup_dup_free.
Qed.

Lemma validate_inclusive_gateway_Ok node ts cov :
  validate_inclusive_gateway node ts cov = Ok tt →
  2 ≤ length ts ∧ NoDup (gt_target <$> ts) ∧
  (existsb is_default ts = true ∨ is_Some cov).
Proof.
  unfold validate_inclusive_gateway. intros (u & Hlen%bail_if_Ok & H)%bind_Ok.
  apply Nat.ltb_ge in Hlen. split; [done|].
  apply bind_Ok in H as (_ & _ & H). apply bind_Ok in H as (? & Hd%bail_if_Ok & H).
  split.
  - case_bool_decide as Hsz; [by destruct ts|].
    apply NoDup_dup_free. by rewrite length_fmap.
  - apply andb_false_iff in Hd as [Hd|Hd].
    + left. apply Nat.eqb_neq in Hd. clear -Hd.
      induction ts as [|t ts IH]; simpl in *; [done|]. by destruct (is_default t); [|apply IH].
    + right. apply negb_false_iff in Hd. by apply is_some_true.
Qed.

Lemma head_filter_None {A} (p : A → bool) l x :
  head (List.filter p l) = None → x ∈ l → p x = false.
Proof.
  intros Hh Hin. destruct (p x) eqn:Hp; [|done].
  assert (In x (List.filter p l)) as Hf.
  { apply List.filter_In. split; [by apply list_elem_of_In|done]. }
  by destruct (List.filter p l).
Qed.

Lemma single_occurrences_NoDup (l : list string) :
  (∀ t, t ∈ l → length (List.filter (λ u, bool_decide (u = t)) l) ≤ 1) → NoDup l.
Proof.
  induction l as [|t l IH]; intros Hone; constructor.
  - intros Hin. specialize (Hone t (list_elem_of_here _ _)). simpl in Hone.
    rewrite bool_decide_eq_true_2 in Hone by done. simpl in Hone.
    destruct (List.filter (λ u, bool_decide (u = t)) l) eqn:Hf; [|simpl in Hone; lia].
    pose proof (head_filter_None (λ u, bool_decide (u = t)) l t) as Ht.
    rewrite Hf in Ht. specialize (Ht eq_refl Hin). by apply bool_decide_eq_false in Ht.
  - apply IH. intros u Hin. specialize (Hone u (list_elem_of_further _ _ _ Hin)). simpl in Hone.
    destruct (bool_decide (t = u)); simpl in Hone; lia.
Qed.

Lemma validate_parallel_split_no_panic node targets s :
  validate_parallel_split node targets ≠ Panic s.
Proof.
  unfold validate_parallel_split. intros [H|(? & _ & H)]%bind_Panic; [by apply bail_if_Panic in H|].
  case_bool_decide as Hsz; [|done]. destruct (head _) eqn:Hh; [done|].
  apply Hsz, NoDup_dup_free, single_occurrences_NoDup. intros t Hin.
  by apply (head_filter_None _ _ t) in Hh; [apply Nat.ltb_ge in Hh|].
Qed.

Lemma validate_inclusive_gateway_no_panic node ts cov s :
  validate_inclusive_gateway node ts cov ≠ Panic s.
Proof.
  unfold validate_inclusive_gateway.
  intros [H|(? & Hlen%bail_if_Ok & H)]%bind_Panic; [by apply bail_if_Panic in H|].
  apply bind_Panic in H as [H|(? & _ & H)]; [by apply bail_if_Panic in H|].
  apply bind_Panic in H as [H|(? & _ & H)]; [by apply bail_if_Panic in H|].
  case_bool_decide; [|done]. by destruct ts.
Qed.

(** ** Validated decision tables produce typed outputs *)
Definition table_typed (table : DecisionTable) : Prop :=
  ∀ rule, rule ∈ dt_rules table →
    length (dr_input_tests rule) = length (dt_inputs table) ∧
    Forall2 (λ o v, ValueType_matches (do_value_type o) v = true)
      (dt_outputs table) (dr_output_values rule).

Lemma validate_rule_outputs_Ok tid rid vs os :
  validate_rule_outputs tid rid (zip vs os) = Ok tt → length vs = length os →
  Forall2 (λ o v, ValueType_matches (do_value_type o) v = true) os vs.
Proof.
  revert os. induction vs as [|v vs IH]; intros [|o os]; simpl; intros H Hlen; try done.
  apply bind_Ok in H as (? & Hm%bail_if_Ok & H). constructor.
  - by apply negb_false_iff.
  - apply IH; [done|lia].
Qed.

Lemma validate_decision_table_Ok table :
  validate_decision_table table = Ok tt → table_typed table.
Proof.
  unfold validate_decision_table. intros H.
  apply bind_Ok in H as (_ & _ & H). apply bind_Ok in H as (_ & _ & H).
  intros rule Hin. induction (dt_rules table) as [|r rules IH]; [by apply not_elem_of_nil in Hin|].
  simpl in H. apply bind_Ok in H as ([] & Hr & H).
  apply elem_of_cons in Hin as [->|Hin]; [|by apply IH].
  inv_res Hr. apply bool_decide_eq_false in Hv, Hv0. apply dec_stable in Hv, Hv0.
  split; [done|]. by eapply validate_rule_outputs_Ok.
Qed.

Lemma table_outputs_typed table rule name v :
  table_typed table → rule ∈ dt_rules table →
  table_outputs table rule !! name = Some v →
  ∃ o, o ∈ dt_outputs table ∧ do_name o = name ∧ ValueType_matches (do_value_type o) v = true.
Proof.
  intros Ht Hr Hv. destruct (Ht rule Hr) as [_ HF].
  apply btree_extend_lookup in Hv as [Hin|Hv]; [|by rewrite lookup_empty in Hv].
  apply list_elem_of_fmap in Hin as ([o w] & Heq & Hin). simplify_eq.
  exists o. split_and!; [by eapply elem_of_zip_l|done|].
  apply elem_of_lookup_zip_with in Hin as (i & o' & w' & ? & Ho & Hw). simplify_eq.
  by apply (Forall2_lookup_lr _ _ _ _ _ _ HF Ho Hw).
Qed.
