(* ===== verification/Config.v ===== *)
(** * Versioned engine configuration

    [bpmp-domain-core/src/configuration.rs]: the resolved configuration
    snapshot passed to every decision, with the validation of each policy.
    Content hashes are byte lists; they are carried, never inspected. *)

From S2P Require Import Prelude Types.
From stdpp Require Import options.

Inductive ScopeKind :=
| Platform | Environment | Tenant | Scope_WorkflowType | Scope_WorkflowVersion
| ApprovedInstanceOverride.

Definition precedence (k : ScopeKind) : N :=
  match k with
  | Platform => 0
  | Environment => 1
  | Tenant => 2
  | Scope_WorkflowType => 3
  | Scope_WorkflowVersion => 4
  | ApprovedInstanceOverride => 5
  end.

Inductive ConfigError :=
| NonPositiveValue (field : string)
| InvalidBackoffRange
| MissingScopes
| InvalidScopeOrder
| EmptyScopeReference (kind : ScopeKind)
| MissingPublishedSnapshot
| WasmAbiLengthExceeded (field : string)
| MultiInstanceParallelismExceedsCardinality
| EmptyBoundaryWorkerId
| InvalidRemoteWorkerLease.

Record ConfigurationScope := mkConfigurationScope {
  csc_kind : ScopeKind;
  csc_reference : string;
}.
Definition ConfigurationScope_new (kind : ScopeKind) (reference : string)
    : res ConfigError ConfigurationScope :=
  bail_if (is_blank reference) (EmptyScopeReference kind);;
  Ok (mkConfigurationScope kind reference).

(** [for (field, value) in [...] { if value == 0 { return Err(..) } }] *)
Definition all_positive (fields : list (string * N)) : res ConfigError unit :=
  for_each (λ _ '(field, value), bail_if (value =? 0)%N (NonPositiveValue field)) fields tt.

Record RetryPolicy := mkRetryPolicy {
  rp_max_attempts : N;
  rp_initial_backoff_ms : N;
  rp_max_backoff_ms : N;
  rp_multiplier_millis : N;
}.
Definition RetryPolicy_validate (p : RetryPolicy) : res ConfigError unit :=
  bail_if (rp_max_attempts p =? 0)%N (NonPositiveValue "max_attempts");;
  bail_if (rp_initial_backoff_ms p =? 0)%N (NonPositiveValue "initial_backoff_ms");;
  bail_if (rp_max_backoff_ms p <? rp_initial_backoff_ms p)%N InvalidBackoffRange;;
  bail_if (rp_multiplier_millis p =? 0)%N (NonPositiveValue "multiplier_millis").

Record RemoteWorkerPolicy := mkRemoteWorkerPolicy {
  rw_dispatch_batch_size : N;
  rw_max_workers : N;
  rw_max_credit_per_worker : N;
  rw_max_capabilities_per_worker : N;
  rw_lease_duration_ms : N;
  rw_heartbeat_timeout_ms : N;
  rw_max_identifier_bytes : N;
  rw_max_protocol_version_bytes : N;
  rw_stream_channel_capacity : N;
  rw_max_input_bytes : N;
  rw_max_output_bytes : N;
  rw_max_attempts : N;
  rw_retry_delay_ms : N;
}.
Definition RemoteWorkerPolicy_validate (p : RemoteWorkerPolicy) : res ConfigError unit :=
  all_positive
    [("remote_dispatch_batch_size", rw_dispatch_batch_size p);
     ("remote_max_workers", rw_max_workers p);
     ("remote_max_credit_per_worker", rw_max_credit_per_worker p);
     ("remote_max_capabilities_per_worker", rw_max_capabilities_per_worker p);
     ("remote_max_identifier_bytes", rw_max_identifier_bytes p);
     ("remote_max_protocol_version_bytes", rw_max_protocol_version_bytes p);
     ("remote_stream_channel_capacity", rw_stream_channel_capacity p);
     ("remote_max_input_bytes", rw_max_input_bytes p);
     ("remote_max_output_bytes", rw_max_output_bytes p);
     ("remote_max_attempts", rw_max_attempts p)];;
  all_positive
    [("remote_lease_duration_ms", rw_lease_duration_ms p);
     ("remote_heartbeat_timeout_ms", rw_heartbeat_timeout_ms p);
     ("remote_retry_delay_ms", rw_retry_delay_ms p)];;
  bail_if (rw_lease_duration_ms p <=? rw_heartbeat_timeout_ms p)%N InvalidRemoteWorkerLease.

Record EngineWorkerPolicy := mkEngineWorkerPolicy {
  ew_poll_interval_ms : N;
  ew_outbox_batch_size : N;
  ew_outbox_retry : RetryPolicy;
  ew_local_task_batch_size : N;
  ew_local_task_retry : RetryPolicy;
  ew_remote : RemoteWorkerPolicy;
}.
Definition EngineWorkerPolicy_validate (p : EngineWorkerPolicy) : res ConfigError unit :=
  bail_if (ew_poll_interval_ms p =? 0)%N (NonPositiveValue "worker_poll_interval_ms");;
  bail_if (ew_outbox_batch_size p =? 0)%N (NonPositiveValue "outbox_batch_size");;
  bail_if (ew_local_task_batch_size p =? 0)%N (NonPositiveValue "local_task_batch_size");;
  RetryPolicy_validate (ew_outbox_retry p);;
  RetryPolicy_validate (ew_local_task_retry p);;
  RemoteWorkerPolicy_validate (ew_remote p).

Record BoundaryRuntimePolicy := mkBoundaryRuntimePolicy {
  br_projection_batch_size : N;
  br_dispatch_batch_size : N;
  br_max_dispatch_attempts : N;
  br_retry_delay_ms : N;
  br_lease_duration_ms : N;
  br_max_timer_horizon_ms : N;
  br_max_expression_bytes : N;
  br_worker_id : string;
  br_max_signal_id_bytes : N;
  br_max_reference_bytes : N;
  br_max_subscriptions_per_instance : N;
}.
Definition BoundaryRuntimePolicy_validate (p : BoundaryRuntimePolicy) : res ConfigError unit :=
  all_positive
    [("projection_batch_size", br_projection_batch_size p);
     ("dispatch_batch_size", br_dispatch_batch_size p);
     ("max_dispatch_attempts", br_max_dispatch_attempts p);
     ("max_expression_bytes", br_max_expression_bytes p);
     ("max_signal_id_bytes", br_max_signal_id_bytes p);
     ("max_reference_bytes", br_max_reference_bytes p);
     ("max_subscriptions_per_instance", br_max_subscriptions_per_instance p)];;
  all_positive
    [("boundary_retry_delay_ms", br_retry_delay_ms p);
     ("boundary_lease_duration_ms", br_lease_duration_ms p);
     ("max_timer_horizon_ms", br_max_timer_horizon_ms p)];;
  bail_if (is_blank (br_worker_id p)) EmptyBoundaryWorkerId.

Definition i32_max : N := 2147483647.
Record LocalWasmPolicy := mkLocalWasmPolicy {
  lw_max_module_bytes : N;
  lw_max_input_bytes : N;
  lw_max_output_bytes : N;
  lw_max_memory_bytes : N;
  lw_max_wasm_stack_bytes : N;
  lw_max_table_elements : N;
  lw_max_instances : N;
  lw_max_tables : N;
  lw_max_memories : N;
  lw_fuel : N;
}.
Definition LocalWasmPolicy_validate (p : LocalWasmPolicy) : res ConfigError unit :=
  all_positive
    [("max_module_bytes", lw_max_module_bytes p);
     ("max_input_bytes", lw_max_input_bytes p);
     ("max_output_bytes", lw_max_output_bytes p);
     ("max_memory_bytes", lw_max_memory_bytes p);
     ("max_wasm_stack_bytes", lw_max_wasm_stack_bytes p);
     ("fuel", lw_fuel p)];;
  all_positive
    [("max_table_elements", lw_max_table_elements p);
     ("max_instances", lw_max_instances p);
     ("max_tables", lw_max_tables p);
     ("max_memories", lw_max_memories p)];;
  bail_if (i32_max <? lw_max_input_bytes p)%N (WasmAbiLengthExceeded "max_input_bytes");;
  bail_if (i32_max <? lw_max_output_bytes p)%N (WasmAbiLengthExceeded "max_output_bytes").

Record EnginePolicy := mkEnginePolicy {
  en_snapshot_interval_events : N;
  en_max_events_per_decision : N;
  en_max_multi_instance_cardinality : N;
  en_default_multi_instance_parallelism : N;
  en_boundary_runtime : BoundaryRuntimePolicy;
  en_command_timeout_ms : N;
  en_optimistic_conflict_retry : RetryPolicy;
  en_local_wasm : LocalWasmPolicy;
  en_event_payload_key_scope : string;
  en_authorization_audit_key_scope : string;
  en_workers : EngineWorkerPolicy;
}.
Definition EnginePolicy_validate (p : EnginePolicy) : res ConfigError unit :=
  bail_if (en_snapshot_interval_events p =? 0)%N (NonPositiveValue "snapshot_interval_events");;
  bail_if (en_max_events_per_decision p =? 0)%N (NonPositiveValue "max_events_per_decision");;
  bail_if (en_max_multi_instance_cardinality p =? 0)%N
    (NonPositiveValue "max_multi_instance_cardinality");;
  bail_if (en_default_multi_instance_parallelism p =? 0)%N
    (NonPositiveValue "default_multi_instance_parallelism");;
  bail_if (en_max_multi_instance_cardinality p <? en_default_multi_instance_parallelism p)%N
    MultiInstanceParallelismExceedsCardinality;;
  BoundaryRuntimePolicy_validate (en_boundary_runtime p);;
  bail_if (en_command_timeout_ms p =? 0)%N (NonPositiveValue "command_timeout_ms");;
  RetryPolicy_validate (en_optimistic_conflict_retry p);;
  LocalWasmPolicy_validate (en_local_wasm p);;
  EngineWorkerPolicy_validate (en_workers p).

Record ResolvedConfigSnapshot := mkConfigSnapshot {
  rc_config_id : string;
  rc_config_version : string;
  rc_policy_version : string;
  rc_schema_version : N;
  rc_resolved_scopes : list ConfigurationScope;
  rc_content_hash : list N;
  rc_engine : EnginePolicy;
}.

(** [for scopes in resolved_scopes.windows(2)] *)
Fixpoint scopes_ordered (scopes : list ConfigurationScope) : res ConfigError unit :=
  match scopes with
  | a :: (b :: _) as rest =>
      bail_if (precedence (csc_kind b) <=? precedence (csc_kind a))%N InvalidScopeOrder;;
      scopes_ordered rest
  | _ => Ok tt
  end.

Definition ResolvedConfigSnapshot_new (config_id config_version policy_version : string)
    (schema_version : N) (resolved_scopes : list ConfigurationScope) (content_hash : list N)
    (engine : EnginePolicy) : res ConfigError ResolvedConfigSnapshot :=
  bail_if (schema_version =? 0)%N (NonPositiveValue "schema_version");;
  bail_if (is_empty resolved_scopes) MissingScopes;;
  scopes_ordered resolved_scopes;;
  EnginePolicy_validate engine;;
  Ok (mkConfigSnapshot config_id config_version policy_version schema_version
        resolved_scopes content_hash engine).

(** ** What a validated snapshot guarantees *)

Lemma all_positive_Ok fields :
  all_positive fields = Ok tt ↔ Forall (λ fv, (0 < fv.2)%N) fields.
Proof.
  unfold all_positive. induction fields as [|[f v] l IH]; simpl; [by split|].
  rewrite Forall_cons, bind_Ok. split.
  - intros ([] & Hv%bail_if_Ok & H). split; [|by apply IH]. simpl. lia.
  - intros [Hv H]. exists tt. split; [|by apply IH]. apply bail_if_Ok. simpl in Hv. lia.
Qed.

Lemma scopes_ordered_Ok scopes :
  scopes_ordered scopes = Ok tt ↔
  StronglySorted (λ a b, (precedence (csc_kind a) < precedence (csc_kind b))%N) scopes.
Proof.
  split.
  - intros H. apply Sorted_StronglySorted; [intros ???; lia|].
    induction scopes as [|a [|b l] IH]; [constructor|by repeat constructor|].
    simpl in H. apply bind_Ok in H as (? & Hle%bail_if_Ok & H).
    constructor; [by apply IH|]. constructor. lia.
  - induction 1 as [|a l Hs IH HF]; [done|]. destruct l as [|b l]; [done|].
    apply bind_Ok. exists tt. split; [|done].
    apply Forall_cons in HF as [Hab _]. apply bail_if_Ok. lia.
Qed.

(** The bounds on which the decisions rely. *)
Definition engine_bounds (p : EnginePolicy) : Prop :=
  (0 < en_snapshot_interval_events p)%N ∧
  (0 < en_max_events_per_decision p)%N ∧
  (0 < en_default_multi_instance_parallelism p ≤ en_max_multi_instance_cardinality p)%N ∧
  (rw_heartbeat_timeout_ms (ew_remote (en_workers p)) <
     rw_lease_duration_ms (ew_remote (en_workers p)))%N.

Lemma EnginePolicy_validate_bounds p :
  EnginePolicy_validate p = Ok tt → engine_bounds p.
Proof.
  unfold EnginePolicy_validate. intros H. inv_res H.
  unfold EngineWorkerPolicy_validate in H. inv_res H.
  unfold RemoteWorkerPolicy_validate in H. inv_res H.
  unfold engine_bounds. repeat split; lia.
Qed.
