(* ===== verification/WorkflowDef.v ===== *)
(** * Workflow definitions: construction and validation

    [WorkflowDefinition::new_with_execution_contracts] and everything it
    calls: indexing, gateway pairing, transition targets, boundary events,
    metadata, scope ownership, extension properties, CMMN models and the
    breadth-first reachability check; then the accessors decisions use. *)

From S2P Require Import Prelude Types Expr Coverage.
From stdpp Require Import options.

(** ** Nodes *)
Definition Node_targets (node : Node) : list NodeId :=
  match node with
  | Node_Start next
  | Node_ServiceTask _ next
  | Node_UserTask _ _ _ _ next
  | Node_ScriptTask _ _ _ next
  | Node_DecisionTask _ next
  | Node_CallActivity _ _ next
  | Node_ParallelJoin _ next
  | Node_InclusiveJoin _ next => [next]
  | Node_SubProcess start _ next => [start; next]
  | Node_ExclusiveGateway transitions _
  | Node_InclusiveSplit transitions _ _ => gt_target <$> transitions
  | Node_ParallelSplit targets _ => targets
  | Node_End => []
  end.

Definition reciprocal_pair (paired_node : option Node) (predicate : Node → bool)
    (gateway paired : NodeId) : result unit :=
  if match paired_node with Some n => predicate n | None => false end
  then Ok tt else Err (InvalidGatewayPair gateway paired).

Definition validate_gateway_node (node_id : NodeId) (node : Node) (indexed : gmap NodeId Node)
    : result unit :=
  match node with
  | Node_ExclusiveGateway transitions coverage => validate_gateway node_id transitions coverage
  | Node_ParallelSplit targets join =>
      validate_parallel_split node_id targets;;
      reciprocal_pair (indexed !! join)
        (λ p, match p with Node_ParallelJoin split _ => bool_decide (split = node_id) | _ => false end)
        node_id join
  | Node_ParallelJoin split _ =>
      reciprocal_pair (indexed !! split)
        (λ p, match p with Node_ParallelSplit _ join => bool_decide (join = node_id) | _ => false end)
        node_id split
  | Node_InclusiveSplit transitions coverage join =>
      validate_inclusive_gateway node_id transitions coverage;;
      reciprocal_pair (indexed !! join)
        (λ p, match p with Node_InclusiveJoin split _ => bool_decide (split = node_id) | _ => false end)
        node_id join
  | Node_InclusiveJoin split _ =>
      reciprocal_pair (indexed !! split)
        (λ p, match p with Node_InclusiveSplit _ _ join => bool_decide (join = node_id) | _ => false end)
        node_id split
  | Node_Start _ | Node_ServiceTask _ _ | Node_UserTask _ _ _ _ _ | Node_ScriptTask _ _ _ _
  | Node_DecisionTask _ _ | Node_CallActivity _ _ _ | Node_SubProcess _ _ _ | Node_End => Ok tt
  end.

(** ** Metadata, properties, scopes, case models *)
Definition validate_extension_properties (properties : list ExtensionProperty) : result unit :=
  for_each (λ (keys : gset (string * string * string)) p,
    bail_if (is_blank (ep_namespace_uri p) || is_blank (ep_element_name p) || is_blank (ep_name p))
      InvalidExtensionProperty;;
    let key := (ep_namespace_uri p, ep_element_name p, ep_name p) in
    bail_if (bool_decide (key ∈ keys)) DuplicateExtensionProperty;;
    Ok ({[key]} ∪ keys)) properties ∅;;
  Ok tt.

Definition validate_node_metadata (owner : NodeId) (metadata : NodeExecutionMetadata) : result unit :=
  validate_extension_properties (nm_properties metadata);;
  match nm_multi_instance metadata with
  | None => Ok tt
  | Some spec =>
      bail_if (negb (is_some (mi_collection_expression spec)) &&
               negb (is_some (mi_cardinality_expression spec)))
        (InvalidMultiInstance owner "collection or cardinality expression is required");;
      bail_if (is_some (mi_collection_expression spec) &&
               negb (is_some (mi_item_variable spec)))
        (InvalidMultiInstance owner "collection iteration requires an item variable");;
      bail_if (bool_decide (mi_max_parallelism spec = Some 0%N))
        (InvalidMultiInstance owner "max parallelism must be greater than zero")
  end.

Definition is_sub_process (node : option Node) : bool :=
  match node with Some (Node_SubProcess _ _ _) => true | _ => false end.

Definition validate_scope_ownership (nodes : gmap NodeId Node)
    (metadata : gmap NodeId NodeExecutionMetadata) : result unit :=
  for_each (λ _ '(node_id, node_metadata),
    match nm_owner_scope_id node_metadata with
    | Some owner => bail_if (negb (is_sub_process (nodes !! owner))) (InvalidScopeOwner owner)
    | None => Ok tt
    end;;
    bail_if (bool_decide (nm_owner_scope_id node_metadata = Some node_id))
      (RecursiveScopeOwnership node_id)) (btree_iter metadata) tt;;
  for_each (λ _ '(scope_node_id, node),
    match node with
    | Node_SubProcess start end_ _ =>
        for_each (λ _ child,
          bail_if (bool_decide ((metadata !! child ≫= nm_owner_scope_id) ≠ Some scope_node_id))
            (ScopeBoundaryOwnershipMismatch scope_node_id child)) [start; end_] tt
    | _ => Ok tt
    end) (btree_iter nodes) tt.

Definition check_sentry_ids (model : CaseDefinition) (sentry_ids : gset SentryId)
    (ids : list SentryId) : result unit :=
  for_each (λ _ sentry_id,
    bail_if (bool_decide (sentry_id ∉ sentry_ids)) (UnknownCaseSentry (cd_id model) sentry_id))
    ids tt.

Definition validate_case_definition (model : CaseDefinition) : result unit :=
  let sentry_ids : gset SentryId := list_to_set (se_id <$> cd_sentries model) in
  bail_if (bool_decide (size sentry_ids ≠ length (cd_sentries model)))
    (DuplicateCaseSentry (cd_id model));;
  plan_item_ids ← for_each (λ (plan_item_ids : gset PlanItemId) stage,
      bail_if (bool_decide (cs_id stage ∈ plan_item_ids)) (DuplicateCasePlanItem (cs_id stage));;
      check_sentry_ids model sentry_ids (cs_entry_sentry_ids stage ++ cs_exit_sentry_ids stage);;
      Ok ({[cs_id stage]} ∪ plan_item_ids)) (cd_stages model) ∅;
  for_each (λ (plan_item_ids : gset PlanItemId) milestone,
      bail_if (bool_decide (cm_id milestone ∈ plan_item_ids))
        (DuplicateCasePlanItem (cm_id milestone));;
      check_sentry_ids model sentry_ids (cm_entry_sentry_ids milestone);;
      Ok ({[cm_id milestone]} ∪ plan_item_ids)) (cd_milestones model) plan_item_ids;;
  Ok tt.

(** ** Indexing *)
Definition index_nodes (nodes : list (NodeId * Node)) : result (gmap NodeId Node) :=
  for_each (λ indexed '(node_id, node),
    bail_if (is_some (indexed !! node_id)) (DuplicateNode node_id);;
    Ok (<[node_id:=node]> indexed)) nodes (∅ : gmap NodeId Node).

Definition index_tables (tables : list DecisionTable) : result (gmap string DecisionTable) :=
  for_each (λ indexed table,
    validate_decision_table table;;
    bail_if (is_some (indexed !! dt_id table)) DuplicateDecisionTable;;
    Ok (<[dt_id table:=table]> indexed)) tables (∅ : gmap string DecisionTable).

Definition is_start (node : option Node) : bool :=
  match node with Some (Node_Start _) => true | _ => false end.

Definition check_targets (indexed : gmap NodeId Node) (node_id : NodeId) (node : Node) : result unit :=
  for_each (λ _ next,
    bail_if (negb (is_some (indexed !! next)))
      (MissingTransitionTarget node_id next);;
    let enters_owned_start :=
      match node with Node_SubProcess start _ _ => bool_decide (start = next) | _ => false end in
    bail_if (is_start (indexed !! next) && negb enters_owned_start)
      (TransitionToStartNode next)) (Node_targets node) tt.

Definition check_node (indexed : gmap NodeId Node) (tables : gmap string DecisionTable)
    (node_id : NodeId) (node : Node) : result unit :=
  validate_gateway_node node_id node indexed;;
  match node with
  | Node_DecisionTask decision_table_id _ =>
      bail_if (negb (is_some (tables !! decision_table_id))) (MissingDecisionTable decision_table_id)
  | _ => Ok tt
  end;;
  check_targets indexed node_id node.

Definition boundaries_at (m : gmap NodeId (list BoundaryEventDefinition)) (k : NodeId)
    : list BoundaryEventDefinition := default [] (m !! k).

(** The accumulator is [(indexed_boundaries, boundary_ids)]. *)
Definition index_boundaries (indexed : gmap NodeId Node)
    (boundary_events : list (NodeId * BoundaryEventDefinition))
    : result (gmap NodeId (list BoundaryEventDefinition) * gset NodeId) :=
  for_each (λ '(indexed_boundaries, boundary_ids) '(owner, boundary),
    bail_if (negb (is_some (indexed !! owner))) (UnknownBoundaryOwner owner);;
    bail_if (negb (is_some (indexed !! be_target boundary)))
      (MissingTransitionTarget owner (be_target boundary));;
    bail_if (bool_decide (be_id boundary ∈ boundary_ids)) (DuplicateBoundaryEvent (be_id boundary));;
    Ok (<[owner:=boundaries_at indexed_boundaries owner ++ [boundary]]> indexed_boundaries,
        {[be_id boundary]} ∪ boundary_ids))
    boundary_events (∅ : gmap NodeId (list BoundaryEventDefinition), ∅ : gset NodeId).

Definition is_multi_instance_activity (node : option Node) : bool :=
  match node with
  | Some (Node_ServiceTask _ _ | Node_UserTask _ _ _ _ _ | Node_ScriptTask _ _ _ _
         | Node_CallActivity _ _ _) => true
  | _ => false
  end.

Definition index_metadata (indexed : gmap NodeId Node)
    (node_metadata : list (NodeId * NodeExecutionMetadata))
    : result (gmap NodeId NodeExecutionMetadata) :=
  for_each (λ indexed_metadata '(owner, metadata),
    bail_if (negb (is_some (indexed !! owner))) (UnknownNodeMetadataOwner owner);;
    bail_if (is_some (nm_multi_instance metadata) &&
             negb (is_multi_instance_activity (indexed !! owner)))
      (InvalidMultiInstance owner
         "runtime multi-instance is supported only for service, user, script, and call activities");;
    validate_node_metadata owner metadata;;
    bail_if (is_some (indexed_metadata !! owner)) (DuplicateNodeMetadata owner);;
    Ok (<[owner:=metadata]> indexed_metadata))
    node_metadata (∅ : gmap NodeId NodeExecutionMetadata).

Definition index_case_models (models : list CaseDefinition)
    : result (gmap CaseModelId CaseDefinition) :=
  for_each (λ indexed model,
    validate_case_definition model;;
    bail_if (is_some (indexed !! cd_id model)) DuplicateCaseModel;;
    Ok (<[cd_id model:=model]> indexed)) models (∅ : gmap CaseModelId CaseDefinition).

(** ** Reachability

    The worklist loop of [validate_reachability]: [pop_front], mark, push the
    targets and the boundary targets at the back. [fuel] bounds the number of
    iterations; [reach_fuel] is enough for every definition. *)
Definition edges (d : WorkflowDefinition) (k : NodeId) : list NodeId :=
  match wd_nodes d !! k with Some node => Node_targets node | None => [] end ++
  (be_target <$> boundaries_at (wd_boundary_events d) k).

Fixpoint reach_loop (fuel : nat) (d : WorkflowDefinition) (visited : gset NodeId)
    (pending : list NodeId) : option (gset NodeId) :=
  match pending with
  | [] => Some visited
  | k :: rest =>
      match fuel with
      | 0 => None
      | S fuel =>
          if bool_decide (k ∈ visited) then reach_loop fuel d visited rest
          else reach_loop fuel d ({[k]} ∪ visited) (rest ++ edges d k)
      end
  end.

(** The edges out of the nodes not yet visited. *)
Definition unvisited_edges (d : WorkflowDefinition) (visited : gset NodeId) : nat :=
  sum_list_with (λ k, length (edges d k))
    (elements ((dom (wd_nodes d) ∪ dom (wd_boundary_events d)) ∖ visited)).
Definition reach_fuel (d : WorkflowDefinition) : nat := S (unvisited_edges d ∅).

Definition validate_reachability (d : WorkflowDefinition) : result unit :=
  match reach_loop (reach_fuel d) d ∅ [wd_start_node d] with
  | None => Panic "reachability fuel"
  | Some visited =>
      match head (List.filter (λ k, bool_decide (k ∉ visited)) (btree_keys (wd_nodes d))) with
      | Some unreachable => Err (UnreachableNode unreachable)
      | None => Ok tt
      end
  end.

(** ** The constructor *)
Definition new_with_execution_contracts (tenant_id : TenantId) (workflow_type : WorkflowType)
    (workflow_version : WorkflowVersion) (start_node : NodeId) (nodes : list (NodeId * Node))
    (decision_tables : list DecisionTable) (contracts : WorkflowExecutionContracts)
    : result WorkflowDefinition :=
  indexed ← index_nodes nodes;
  indexed_tables ← index_tables decision_tables;
  bail_if (negb (is_start (indexed !! start_node))) (InvalidStartNode start_node);;
  for_each (λ _ '(node_id, node), check_node indexed indexed_tables node_id node)
    (btree_iter indexed) tt;;
  '(indexed_boundaries, _) ← index_boundaries indexed (wc_boundary_events contracts);
  indexed_metadata ← index_metadata indexed (wc_node_metadata contracts);
  validate_scope_ownership indexed indexed_metadata;;
  validate_extension_properties (wc_properties contracts);;
  indexed_case_models ← index_case_models (wc_case_models contracts);
  let definition :=
    {| wd_tenant_id := tenant_id;
       wd_workflow_type := workflow_type;
       wd_workflow_version := workflow_version;
       wd_start_node := start_node;
       wd_nodes := indexed;
       wd_decision_tables := indexed_tables;
       wd_boundary_events := indexed_boundaries;
       wd_node_metadata := indexed_metadata;
       wd_properties := wc_properties contracts;
       wd_case_models := indexed_case_models |} in
  validate_reachability definition;;
  Ok definition.

(** [WorkflowDefinition::new] and [new_with_decisions]. *)
Definition contracts_default : WorkflowExecutionContracts := mkContracts [] [] [] [].
Definition new_with_decisions (tenant_id : TenantId) (workflow_type : WorkflowType)
    (workflow_version : WorkflowVersion) (start_node : NodeId) (nodes : list (NodeId * Node))
    (decision_tables : list DecisionTable) : result WorkflowDefinition :=
  new_with_execution_contracts tenant_id workflow_type workflow_version start_node nodes
    decision_tables contracts_default.
Definition WorkflowDefinition_new (tenant_id : TenantId) (workflow_type : WorkflowType)
    (workflow_version : WorkflowVersion) (start_node : NodeId) (nodes : list (NodeId * Node))
    : result WorkflowDefinition :=
  new_with_decisions tenant_id workflow_type workflow_version start_node nodes [].

(** ** Accessors *)
Definition definition_node (d : WorkflowDefinition) (node_id : NodeId) : result Node :=
  ok_or (wd_nodes d !! node_id) (UnknownNode node_id).

Definition node_execution_metadata (d : WorkflowDefinition) (node_id : NodeId)
    : option NodeExecutionMetadata := wd_node_metadata d !! node_id.

Definition owner_scope_id (d : WorkflowDefinition) (node_id : NodeId) : option NodeId :=
  wd_node_metadata d !! node_id ≫= nm_owner_scope_id.

Definition sub_process_exit (d : WorkflowDefinition) (scope_node_id : NodeId) : result NodeId :=
  node ← definition_node d scope_node_id;
  match node with
  | Node_SubProcess _ _ next => Ok next
  | _ => Err (InvalidScopeOwner scope_node_id)
  end.

(** The active scopes whose node is [scope], in key order. *)
Definition scopes_of (active_scopes : gmap ScopeInstanceId ActiveExecutionScope)
    (scope : NodeId) : list ScopeInstanceId :=
  (List.filter (λ p, bool_decide (as_scope_node_id p.2 = scope)) (btree_iter active_scopes)).*1.

Definition active_scope_for_node (d : WorkflowDefinition) (state : InstanceState)
    (node_id : NodeId) : result (option ScopeInstanceId) :=
  match owner_scope_id d node_id with
  | None => Ok None
  | Some owner =>
      match scopes_of (st_active_scopes state) owner with
      | [] => Err (ScopeNotActive owner)
      | [found] => Ok (Some found)
      | _ => Err (AmbiguousActiveScope owner)
      end
  end.

Definition case_model (d : WorkflowDefinition) (id : CaseModelId) : result CaseDefinition :=
  ok_or (wd_case_models d !! id) (UnknownCaseModel id).

Definition boundary_events (d : WorkflowDefinition) (node_id : NodeId)
    : list BoundaryEventDefinition := boundaries_at (wd_boundary_events d) node_id.

(** [find_map] over the owners in key order. *)
Fixpoint find_boundary (boundary_event_id : NodeId)
    (l : list (NodeId * list BoundaryEventDefinition)) : option (NodeId * BoundaryEventDefinition) :=
  match l with
  | [] => None
  | (owner, boundaries) :: rest =>
      match head (List.filter (λ b, bool_decide (be_id b = boundary_event_id)) boundaries) with
      | Some boundary => Some (owner, boundary)
      | None => find_boundary boundary_event_id rest
      end
  end.
Definition boundary_event (d : WorkflowDefinition) (boundary_event_id : NodeId)
    : option (NodeId * BoundaryEventDefinition) :=
  find_boundary boundary_event_id (btree_iter (wd_boundary_events d)).

(** The multi-instance specification of a node, if any. *)
Definition multi_instance_spec (d : WorkflowDefinition) (node_id : NodeId)
    : option MultiInstanceDefinition :=
  node_execution_metadata d node_id ≫= nm_multi_instance.

(** ** Reachability: correctness and termination *)
Inductive reachable (d : WorkflowDefinition) : NodeId → Prop :=
| reachable_start : reachable d (wd_start_node d)
| reachable_edge k t : reachable d k → t ∈ edges d k → reachable d t.

Section reachability.
Context (d : WorkflowDefinition).

Lemma edges_outside k :
  k ∉ dom (wd_nodes d) ∪ dom (wd_boundary_events d) → edges d k = [].
Proof.
  rewrite not_elem_of_union, !not_elem_of_dom. intros [Hn Hb].
  unfold edges, boundaries_at. by rewrite Hn, Hb.
Qed.

Lemma unvisited_edges_visit visited k :
  k ∉ visited →
  unvisited_edges d visited = length (edges d k) + unvisited_edges d ({[k]} ∪ visited).
Proof.
  intros Hk. unfold unvisited_edges.
  set (keys := dom (wd_nodes d) ∪ dom (wd_boundary_events d)).
  destruct (decide (k ∈ keys)) as [Hin|Hout].
  - assert (keys ∖ visited = {[k]} ∪ keys ∖ ({[k]} ∪ visited)) as ->.
    { apply set_eq. intros x. destruct (decide (x = k)); set_solver. }
    rewrite elements_disj_union by set_solver.
    rewrite elements_singleton. simpl. f_equal.
  - rewrite (edges_outside k Hout). simpl. f_equal. f_equal. set_solver.
Qed.

Lemma reach_loop_total fuel visited pending :
  length pending + unvisited_edges d visited ≤ fuel →
  is_Some (reach_loop fuel d visited pending).
Proof.
  revert visited pending. induction fuel as [|fuel IH];
    intros visited [|k rest] Hfuel; simpl in *; eauto; [lia|].
  case_bool_decide as Hk; apply IH; [lia|].
  rewrite length_app. rewrite (unvisited_edges_visit visited k Hk) in Hfuel. lia.
Qed.

Definition reach_inv (visited : gset NodeId) (pending : list NodeId) : Prop :=
  (∀ k, k ∈ visited ∨ k ∈ pending → reachable d k) ∧
  (wd_start_node d ∈ visited ∨ wd_start_node d ∈ pending) ∧
  (∀ k t, k ∈ visited → t ∈ edges d k → t ∈ visited ∨ t ∈ pending).

Lemma reach_loop_inv fuel visited pending final :
  reach_loop fuel d visited pending = Some final →
  reach_inv visited pending → reach_inv final [].
Proof.
  revert visited pending. induction fuel as [|fuel IH];
    intros visited [|k rest]; simpl; try by intros [= ->].
  case_bool_decide as Hk; intros Hrun (Hr & Hs & Hc); eapply IH; try done; clear IH Hrun.
  - split_and!; [set_solver|set_solver|].
    intros k' t Hk' Ht. specialize (Hc k' t Hk' Ht). set_solver.
  - assert (reachable d k) as Hkr by (apply Hr; right; left).
    split_and!; [|set_solver|].
    + intros k' Hk'. rewrite elem_of_app in Hk'.
      assert (k' ∈ edges d k ∨ k' ∈ visited ∨ k' ∈ k :: rest) as [Ht|Ho] by set_solver; eauto.
      by eapply reachable_edge.
    + intros k' t Hk' Ht. rewrite elem_of_app.
      apply elem_of_union in Hk' as [->%elem_of_singleton|Hk']; [auto|].
      specialize (Hc k' t Hk' Ht). set_solver.
Qed.

(** The loop ends within [reach_fuel] and computes exactly the reachable ids. *)
Lemma reach_loop_reachable :
  ∃ visited, reach_loop (reach_fuel d) d ∅ [wd_start_node d] = Some visited ∧
    ∀ k, k ∈ visited ↔ reachable d k.
Proof.
  destruct (reach_loop_total (reach_fuel d) ∅ [wd_start_node d]) as [visited Hrun];
    [unfold reach_fuel; simpl; lia|].
  exists visited. split; [done|].
  destruct (reach_loop_inv _ _ _ _ Hrun) as (Hr & Hs & Hc).
  { split_and!; [|set_solver..]. intros k [?| ->%list_elem_of_singleton]; [set_solver|constructor]. }
  intros k. split; [eauto|]. induction 1 as [|k t _ IH Ht]; [set_solver|].
  destruct (Hc k t IH Ht); set_solver.
Qed.

Lemma validate_reachability_cases :
  (validate_reachability d = Ok tt ∧ ∀ k, is_Some (wd_nodes d !! k) → reachable d k) ∨
  (∃ k, validate_reachability d = Err (UnreachableNode k) ∧
    is_Some (wd_nodes d !! k) ∧ ¬ reachable d k ∧
    ∀ k', is_Some (wd_nodes d !! k') → ¬ reachable d k' → String.le k k').
Proof.
  unfold validate_reachability.
  destruct reach_loop_reachable as (visited & -> & Hv).
  destruct (List.filter _ (btree_keys (wd_nodes d))) as [|k ks] eqn:Hf; simpl; [left|right].
  - split; [done|]. intros k Hk. apply Hv. apply dec_stable. intros Hn.
    cut (In k []); [done|]. rewrite <-Hf. apply filter_In.
    rewrite <-list_elem_of_In, elem_of_btree_keys. split; [done|].
    by apply bool_decide_eq_true.
  - assert (∀ k', k' ∈ k :: ks ↔ is_Some (wd_nodes d !! k') ∧ ¬ reachable d k') as Hin.
    { intros k'. rewrite <-Hf, list_elem_of_In, filter_In, <-list_elem_of_In,
        elem_of_btree_keys, bool_decide_eq_true, Hv. done. }
    exists k. split; [done|]. destruct (proj1 (Hin k)) as [??]; [by left|].
    split_and!; [done..|]. intros k' H1 H2.
    assert (StronglySorted String.le (k :: ks)) as Hs.
    { rewrite <-Hf. apply StronglySorted_filter_bool, btree_keys_sorted. }
    apply StronglySorted_inv in Hs as [_ Hs]. rewrite Forall_forall in Hs.
    destruct (proj1 (elem_of_cons _ _ _) (proj2 (Hin k') (conj H1 H2))) as [->|Hk'];
      [apply reflexivity|by apply Hs].
Qed.
End reachability.

(** ** What a constructed definition guarantees *)
Record definition_ok (d : WorkflowDefinition) : Prop := {
  ok_start : is_start (wd_nodes d !! wd_start_node d) = true;
  ok_gateway k n : wd_nodes d !! k = Some n → validate_gateway_node k n (wd_nodes d) = Ok tt;
  ok_target k n t : wd_nodes d !! k = Some n → t ∈ Node_targets n → is_Some (wd_nodes d !! t);
  ok_target_start k n t :
    wd_nodes d !! k = Some n → t ∈ Node_targets n → is_start (wd_nodes d !! t) = true →
    ∃ end_ next, n = Node_SubProcess t end_ next;
  ok_decision k table next :
    wd_nodes d !! k = Some (Node_DecisionTask table next) → is_Some (wd_decision_tables d !! table);
  ok_table id table :
    wd_decision_tables d !! id = Some table → dt_id table = id ∧ validate_decision_table table = Ok tt;
  ok_boundary owner b :
    b ∈ boundary_events d owner → is_Some (wd_nodes d !! owner) ∧ is_Some (wd_nodes d !! be_target b);
  ok_boundary_unique owner owner' b b' :
    b ∈ boundary_events d owner → b' ∈ boundary_events d owner' → be_id b = be_id b' →
    owner = owner' ∧ b = b';
  ok_boundary_NoDup owner : NoDup (be_id <$> boundary_events d owner);
  ok_metadata k m :
    wd_node_metadata d !! k = Some m →
    is_Some (wd_nodes d !! k) ∧ validate_node_metadata k m = Ok tt ∧
    (is_Some (nm_multi_instance m) → is_multi_instance_activity (wd_nodes d !! k) = true);
  ok_owner k scope :
    owner_scope_id d k = Some scope → scope ≠ k ∧ is_sub_process (wd_nodes d !! scope) = true;
  ok_scope scope start end_ next :
    wd_nodes d !! scope = Some (Node_SubProcess start end_ next) →
    owner_scope_id d start = Some scope ∧ owner_scope_id d end_ = Some scope;
  ok_case id model :
    wd_case_models d !! id = Some model → cd_id model = id ∧ validate_case_definition model = Ok tt;
  ok_reachable k : is_Some (wd_nodes d !! k) → reachable d k;
}.

Lemma index_nodes_spec nodes m :
  index_nodes nodes = Ok m →
  NoDup nodes.*1 ∧ ∀ k n, m !! k = Some n ↔ (k, n) ∈ nodes.
Proof.
  intros Hrun.
  destruct (for_each_index fst snd (λ _, True) _ _ _ Hrun) as (Hnd & _ & Hm).
  { intros m0 [k n] m1 _ Hf. inv_res Hf. by rewrite is_some_false in Hv. }
  split; [done|]. intros k n. rewrite Hm. split.
  - by intros ([] & ? & <- & <-).
  - intros Hin. by exists (k, n).
Qed.

Lemma index_tables_spec tables m :
  index_tables tables = Ok m →
  NoDup (dt_id <$> tables) ∧
  (∀ id t, m !! id = Some t ↔ t ∈ tables ∧ dt_id t = id) ∧
  (∀ t, t ∈ tables → validate_decision_table t = Ok tt).
Proof.
  intros Hrun.
  destruct (for_each_index dt_id id (λ t, validate_decision_table t = Ok tt) _ _ _ Hrun)
    as (Hnd & Hv & Hm).
  { intros m0 t m1 _ Hf. inv_res Hf. destruct v. by rewrite is_some_false in Hv0. }
  split_and!; [done| |done]. intros id t. rewrite Hm. naive_solver.
Qed.

Lemma index_case_models_spec models m :
  index_case_models models = Ok m →
  NoDup (cd_id <$> models) ∧
  (∀ id c, m !! id = Some c ↔ c ∈ models ∧ cd_id c = id) ∧
  (∀ c, c ∈ models → validate_case_definition c = Ok tt).
Proof.
  intros Hrun.
  destruct (for_each_index cd_id id (λ c, validate_case_definition c = Ok tt) _ _ _ Hrun)
    as (Hnd & Hv & Hm).
  { intros m0 c m1 _ Hf. inv_res Hf. destruct v. by rewrite is_some_false in Hv0. }
  split_and!; [done| |done]. intros id c. rewrite Hm. naive_solver.
Qed.

Definition metadata_ok (indexed : gmap NodeId Node) (k : NodeId) (m : NodeExecutionMetadata) : Prop :=
  is_Some (indexed !! k) ∧ validate_node_metadata k m = Ok tt ∧
  (is_Some (nm_multi_instance m) → is_multi_instance_activity (indexed !! k) = true).

Lemma index_metadata_spec indexed l m :
  index_metadata indexed l = Ok m →
  NoDup l.*1 ∧ (∀ k md, m !! k = Some md ↔ (k, md) ∈ l) ∧
  (∀ k md, m !! k = Some md → metadata_ok indexed k md).
Proof.
  intros Hrun.
  destruct (for_each_index fst snd (λ p, metadata_ok indexed p.1 p.2) _ _ _ Hrun)
    as (Hnd & Hok & Hm).
  { intros m0 [k md] m1 _ Hf. inv_res Hf. destruct v1.
    rewrite negb_false_iff, is_some_true in Hv. rewrite is_some_false in Hv2.
    split_and!; [done..|]. split_and!; [done..|]. simpl.
    rewrite <-is_some_true. intros Hmi. rewrite Hmi in Hv0. simpl in Hv0.
    by apply negb_false_iff. }
  assert (∀ k md, m !! k = Some md ↔ (k, md) ∈ l) as Hm'.
  { intros k md. rewrite Hm. split; [by intros ([] & ? & <- & <-)|intros; by exists (k, md)]. }
  split_and!; [done..|]. intros k md Hk%Hm'. by apply (Hok (k, md)).
Qed.

Lemma index_boundaries_spec indexed l m ids :
  index_boundaries indexed l = Ok (m, ids) →
  NoDup ((λ p, be_id p.2) <$> l) ∧
  (∀ o, boundaries_at m o = (filter (λ p, p.1 = o) l).*2) ∧
  (∀ o b, (o, b) ∈ l → is_Some (indexed !! o) ∧ is_Some (indexed !! be_target b)).
Proof.
  intros Hrun.
  eapply (for_each_inv _ (λ seen a,
    NoDup ((λ p, be_id p.2) <$> seen) ∧
    (∀ o, boundaries_at a.1 o = (filter (λ p, p.1 = o) seen).*2) ∧
    (∀ o b, (o, b) ∈ seen → is_Some (indexed !! o) ∧ is_Some (indexed !! be_target b)) ∧
    (∀ i, i ∈ a.2 ↔ i ∈ (λ p, be_id p.2) <$> seen))) in Hrun; [naive_solver| |].
  - split_and!; [constructor|done|set_solver..].
  - clear Hrun m ids. intros seen [o b] [m ids] [m' ids'] (Hnd & Hm & Hall & Hids) _ Hf.
    simpl in *. inv_res Hf.
    rewrite negb_false_iff, is_some_true in Hv, Hv0. apply bool_decide_eq_false in Hv1.
    split_and!.
    + rewrite fmap_app, NoDup_app. split_and!; [done| |apply NoDup_singleton].
      intros i Hi%Hids. simpl. rewrite list_elem_of_singleton. by intros ->.
    + intros o'. rewrite filter_app, fmap_app, <-Hm. unfold boundaries_at, filter. simpl.
      rewrite lookup_insert. destruct (decide (o = o')) as [->|]; simpl; [done|].
      by rewrite app_nil_r.
    + intros o' b'. rewrite elem_of_app, list_elem_of_singleton. naive_solver.
    + intros i. rewrite fmap_app, elem_of_app, <-Hids. set_solver.
Qed.

Lemma validate_scope_ownership_spec nodes metadata :
  validate_scope_ownership nodes metadata = Ok tt →
  let owner k := metadata !! k ≫= nm_owner_scope_id in
  (∀ k scope, owner k = Some scope → scope ≠ k ∧ is_sub_process (nodes !! scope) = true) ∧
  (∀ scope start end_ next, nodes !! scope = Some (Node_SubProcess start end_ next) →
    owner start = Some scope ∧ owner end_ = Some scope).
Proof.
  unfold validate_scope_ownership. intros Hrun. apply bind_Ok in Hrun as ([] & H1 & H2).
  rewrite for_each_unit in H1. rewrite for_each_unit in H2. split.
  - intros k scope Hk. destruct (metadata !! k) as [md|] eqn:Hmd; [|done]. simpl in Hk.
    specialize (H1 (k, md)). rewrite elem_of_btree_iter in H1. specialize (H1 Hmd).
    simpl in H1. rewrite Hk in H1. inv_res H1. rewrite negb_false_iff in Hv.
    apply bool_decide_eq_false in H1. naive_solver.
  - intros scope start end_ next Hs. specialize (H2 (scope, Node_SubProcess start end_ next)).
    rewrite elem_of_btree_iter in H2. specialize (H2 Hs). simpl in H2. inv_res H2.
    apply bool_decide_eq_false in Hv, Hv0. split; by apply dec_stable.
Qed.

Lemma check_targets_spec indexed k n :
  check_targets indexed k n = Ok tt →
  ∀ t, t ∈ Node_targets n → is_Some (indexed !! t) ∧
    (is_start (indexed !! t) = true → ∃ end_ next, n = Node_SubProcess t end_ next).
Proof.
  unfold check_targets. rewrite for_each_unit. intros Hall t Ht%Hall. inv_res Ht.
  rewrite negb_false_iff, is_some_true in Hv. split; [done|]. intros Hst.
  rewrite Hst in Ht. simpl in Ht. apply negb_false_iff in Ht.
  destruct n; try done. apply bool_decide_eq_true in Ht as ->. eauto.
Qed.

Lemma check_node_spec indexed tables k n :
  check_node indexed tables k n = Ok tt →
  validate_gateway_node k n indexed = Ok tt ∧
  check_targets indexed k n = Ok tt ∧
  ∀ table next, n = Node_DecisionTask table next → is_Some (tables !! table).
Proof.
  unfold check_node. intros Hrun. inv_res Hrun. destruct v. split_and!; [done..|].
  intros table next ->. inv_res Hv0. by rewrite negb_false_iff, is_some_true in Hv0.
Qed.

Section constructor.
Context (tenant_id : TenantId) (workflow_type : WorkflowType) (workflow_version : WorkflowVersion)
  (start_node : NodeId) (nodes : list (NodeId * Node)) (tables : list DecisionTable)
  (contracts : WorkflowExecutionContracts) (d : WorkflowDefinition).
Hypothesis Hnew :
  new_with_execution_contracts tenant_id workflow_type workflow_version start_node nodes tables
    contracts = Ok d.

(** A constructed definition holds exactly what it was given. *)
Lemma new_contents :
  wd_tenant_id d = tenant_id ∧ wd_workflow_type d = workflow_type ∧
  wd_workflow_version d = workflow_version ∧ wd_start_node d = start_node ∧
  wd_properties d = wc_properties contracts ∧
  (∀ k n, wd_nodes d !! k = Some n ↔ (k, n) ∈ nodes) ∧
  (∀ id t, wd_decision_tables d !! id = Some t ↔ t ∈ tables ∧ dt_id t = id) ∧
  (∀ o, boundary_events d o = (filter (λ p, p.1 = o) (wc_boundary_events contracts)).*2) ∧
  (∀ k m, wd_node_metadata d !! k = Some m ↔ (k, m) ∈ wc_node_metadata contracts) ∧
  (∀ id c, wd_case_models d !! id = Some c ↔ c ∈ wc_case_models contracts ∧ cd_id c = id).
Proof using Hnew.
  pose proof Hnew as H. unfold new_with_execution_contracts in H. inv_res H.
  apply index_nodes_spec in Hv as [_ ?]. apply index_tables_spec in Hv0 as (_ & ? & _).
  apply index_boundaries_spec in Hv3 as (_ & ? & _).
  apply index_metadata_spec in Hv4 as (_ & ? & _).
  apply index_case_models_spec in Hv7 as (_ & ? & _).
  unfold boundary_events. naive_solver.
Qed.

Lemma new_definition_ok : definition_ok d.
Proof using Hnew.
  pose proof Hnew as H. unfold new_with_execution_contracts in H. inv_res H.
  apply index_nodes_spec in Hv as [_ _]. apply index_tables_spec in Hv0 as (_ & Ht1 & Ht2).
  apply index_boundaries_spec in Hv3 as (Hb1 & Hb2 & Hb3).
  apply index_metadata_spec in Hv4 as (_ & _ & Hmd).
  apply index_case_models_spec in Hv7 as (_ & Hc1 & Hc2).
  destruct v2, v4, v5, v7. apply validate_scope_ownership_spec in Hv5 as [Ho1 Ho2].
  rewrite for_each_unit in Hv2.
  assert (∀ k n, v !! k = Some n → check_node v v0 k n = Ok tt) as Hn.
  { intros k n Hk. apply (Hv2 (k, n)). by apply elem_of_btree_iter. }
  assert (∀ o b, b ∈ boundaries_at g o → (o, b) ∈ wc_boundary_events contracts) as Hbin.
  { intros o b. rewrite Hb2, list_elem_of_fmap. intros ([??] & -> & [<- ?]%list_elem_of_filter). done. }
  split; simpl; unfold boundary_events, owner_scope_id; simpl.
  - by apply negb_false_iff.
  - intros k n Hk. by destruct (check_node_spec _ _ _ _ (Hn k n Hk)).
  - intros k n t Hk Ht. destruct (check_node_spec _ _ _ _ (Hn k n Hk)) as (_ & H & _).
    by destruct (check_targets_spec _ _ _ H t Ht).
  - intros k n t Hk Ht Hst. destruct (check_node_spec _ _ _ _ (Hn k n Hk)) as (_ & H & _).
    by destruct (check_targets_spec _ _ _ H t Ht) as [_ ?]; auto.
  - intros k t next Hk. destruct (check_node_spec _ _ _ _ (Hn k _ Hk)) as (_ & _ & H). eauto.
  - intros id t [Hin <-]%Ht1. auto.
  - intros o b Hin%Hbin. by apply Hb3.
  - intros o o' b b' Hin%Hbin Hin'%Hbin Hid.
    pose proof (NoDup_fmap_eq _ _ _ _ Hb1 Hin Hin' Hid). by simplify_eq.
  - intros o. rewrite Hb2. rewrite <-list_fmap_compose.
    eapply sublist_NoDup; [exact Hb1|apply fmap_sublist, sublist_filter].
  - intros k md. apply Hmd.
  - apply Ho1.
  - apply Ho2.
  - intros id c [Hin <-]%Hc1. auto.
  - destruct (validate_reachability_cases (mkDefinition tenant_id workflow_type workflow_version
      start_node v v0 g v3 (wc_properties contracts) v6)) as [[_ H]|(k & H & _)]; [done|congruence].
Qed.
End constructor.

(** [boundary_event] finds the one owner of a boundary event id. *)
Lemma find_boundary_Some id l o b :
  find_boundary id l = Some (o, b) → ∃ bs, (o, bs) ∈ l ∧ b ∈ bs ∧ be_id b = id.
Proof.
  induction l as [|[o' bs] l IH]; simpl; [done|].
  destruct (List.filter _ bs) as [|b' bs'] eqn:Hf; simpl.
  - intros (bs' & Hin & ?)%IH. exists bs'. split; [by right|done].
  - intros [= -> ->]. exists bs. split; [by left|].
    assert (In b (List.filter (λ b, bool_decide (be_id b = id)) bs)) as Hin by (rewrite Hf; by left).
    apply filter_In in Hin as [Hin Hb]. apply bool_decide_eq_true in Hb.
    by rewrite list_elem_of_In.
Qed.

Lemma find_boundary_None id l o bs b :
  find_boundary id l = None → (o, bs) ∈ l → b ∈ bs → be_id b ≠ id.
Proof.
  induction l as [|[o' bs'] l IH]; simpl; [set_solver|].
  destruct (List.filter _ bs') as [|b' ?] eqn:Hf; simpl; [|done].
  intros Hnone [[= -> ->]|Hin]%elem_of_cons Hb Hid; [|by eapply IH].
  assert (In b (List.filter (λ b, bool_decide (be_id b = id)) bs')) as Habs; [|by rewrite Hf in Habs].
  apply filter_In. by rewrite <-list_elem_of_In, bool_decide_eq_true.
Qed.

Lemma boundary_event_spec d k b :
  definition_ok d → b ∈ boundary_events d k → boundary_event d (be_id b) = Some (k, b).
Proof.
  intros Hok Hb. unfold boundary_event.
  assert (∀ o bs, (o, bs) ∈ btree_iter (wd_boundary_events d) → boundary_events d o = bs) as Hat.
  { intros o bs Hin%elem_of_btree_iter. unfold boundary_events, boundaries_at. by rewrite Hin. }
  destruct (find_boundary _ _) as [[o b']|] eqn:Hf.
  - apply find_boundary_Some in Hf as (bs & Hin & Hb' & Hid). apply Hat in Hin as <-.
    by destruct (ok_boundary_unique d Hok _ _ _ _ Hb' Hb Hid) as [-> ->].
  - exfalso. unfold boundary_events, boundaries_at in Hb.
    destruct (wd_boundary_events d !! k) as [bs|] eqn:Hk; simpl in Hb; [|set_solver].
    by eapply find_boundary_None in Hf; [|by apply elem_of_btree_iter|done].
Qed.

(** A definition the constructor returned. *)
Definition constructed (d : WorkflowDefinition) : Prop :=
  ∃ tenant_id workflow_type workflow_version start_node nodes tables contracts,
    new_with_execution_contracts tenant_id workflow_type workflow_version start_node nodes tables
      contracts = Ok d.

Lemma constructed_ok d : constructed d → definition_ok d.
Proof. intros (? & ? & ? & ? & ? & ? & ? & H). by eapply new_definition_ok. Qed.
