(* ===== verification/Routing.v ===== *)
(** * The routing state of one decision

    [RoutingState] of [workflow.rs]: the working copy of an instance's tokens,
    joins, multi-instance loops, boundary subscriptions and scopes that a
    decision updates while it emits events. One definition per method; a
    method that mutates [self] returns the new routing state. *)

From S2P Require Import Prelude Types Expr.
From stdpp Require Import options.

Record RoutingState := mkRouting {
  rt_active_tokens : gmap NodeId N;
  rt_pending_joins : gmap NodeId PendingGatewayJoin;
  rt_active_multi_instances : gmap NodeId ActiveMultiInstance;
  rt_active_boundary_subscriptions : gmap NodeId ActiveBoundarySubscription;
  rt_active_scopes : gmap ScopeInstanceId ActiveExecutionScope;
  rt_scope_invocation_counts : gmap NodeId N;
}.

(** [From<&InstanceState> for RoutingState] *)
Definition RoutingState_from (state : InstanceState) : RoutingState :=
  {| rt_active_tokens := st_active_tokens state;
     rt_pending_joins := st_pending_gateway_joins state;
     rt_active_multi_instances := st_active_multi_instances state;
     rt_active_boundary_subscriptions := st_active_boundary_subscriptions state;
     rt_active_scopes := st_active_scopes state;
     rt_scope_invocation_counts := st_scope_invocation_counts state |}.

(** ** Field updates *)
Definition set_tokens (rt : RoutingState) (m : gmap NodeId N) : RoutingState :=
  mkRouting m (rt_pending_joins rt) (rt_active_multi_instances rt)
    (rt_active_boundary_subscriptions rt) (rt_active_scopes rt) (rt_scope_invocation_counts rt).
Definition set_joins (rt : RoutingState) (m : gmap NodeId PendingGatewayJoin) : RoutingState :=
  mkRouting (rt_active_tokens rt) m (rt_active_multi_instances rt)
    (rt_active_boundary_subscriptions rt) (rt_active_scopes rt) (rt_scope_invocation_counts rt).
Definition set_multi_instances (rt : RoutingState) (m : gmap NodeId ActiveMultiInstance)
    : RoutingState :=
  mkRouting (rt_active_tokens rt) (rt_pending_joins rt) m
    (rt_active_boundary_subscriptions rt) (rt_active_scopes rt) (rt_scope_invocation_counts rt).
Definition set_subscriptions (rt : RoutingState) (m : gmap NodeId ActiveBoundarySubscription)
    : RoutingState :=
  mkRouting (rt_active_tokens rt) (rt_pending_joins rt) (rt_active_multi_instances rt)
    m (rt_active_scopes rt) (rt_scope_invocation_counts rt).
Definition set_scopes (rt : RoutingState) (m : gmap ScopeInstanceId ActiveExecutionScope)
    (counts : gmap NodeId N) : RoutingState :=
  mkRouting (rt_active_tokens rt) (rt_pending_joins rt) (rt_active_multi_instances rt)
    (rt_active_boundary_subscriptions rt) m counts.

Definition has_outstanding_work (rt : RoutingState) : bool :=
  negb (map_is_empty (rt_active_tokens rt))
  || negb (map_is_empty (rt_pending_joins rt))
  || negb (map_is_empty (rt_active_multi_instances rt))
  || negb (map_is_empty (rt_active_boundary_subscriptions rt))
  || negb (map_is_empty (rt_active_scopes rt)).

(** ** Scopes *)

(** [format!("{scope}#{n}")], prefixed with the parent instance and a slash. *)
Definition scope_identity (parent : option ScopeInstanceId) (scope_node_id : NodeId)
    (invocation : N) : string :=
  match parent with
  | None => scope_node_id +:+ "#" +:+ pretty invocation
  | Some parent => parent +:+ "/" +:+ scope_node_id +:+ "#" +:+ pretty invocation
  end.

Definition enter_scope (rt : RoutingState) (scope_node_id start_node_id : NodeId)
    (parent : option ScopeInstanceId) : result (RoutingState * (ScopeInstanceId * N)) :=
  bail_if (existsb (λ scope, bool_decide (as_scope_node_id scope = scope_node_id))
             (btree_values (rt_active_scopes rt))) (ScopeAlreadyActive scope_node_id);;
  invocation ← ok_or (checked_add u64_max
      (default 0%N (rt_scope_invocation_counts rt !! scope_node_id)) 1)
    (ScopeInvocationOverflow scope_node_id);
  let identity := scope_identity parent scope_node_id invocation in
  match identifier_new "ScopeInstanceId" identity with
  | Ok scope_instance_id =>
      let scope := mkScope scope_node_id start_node_id parent invocation in
      Ok (set_scopes rt (<[scope_instance_id:=scope]> (rt_active_scopes rt))
            (<[scope_node_id:=invocation]> (rt_scope_invocation_counts rt)),
          (scope_instance_id, invocation))
  | _ => Err (InvalidScopeInstanceIdentity scope_node_id)
  end.

Definition complete_scope (rt : RoutingState) (scope_instance_id : ScopeInstanceId)
    (expected : NodeId) : result (RoutingState * ActiveExecutionScope) :=
  scope ← ok_or (rt_active_scopes rt !! scope_instance_id)
    (ScopeInstanceNotActive scope_instance_id);
  bail_if (bool_decide (as_scope_node_id scope ≠ expected))
    (ScopeInstanceOwnerMismatch scope_instance_id expected (as_scope_node_id scope));;
  Ok (set_scopes rt (delete scope_instance_id (rt_active_scopes rt))
        (rt_scope_invocation_counts rt), scope).

(** ** Tasks *)
Definition activate_task (rt : RoutingState) (node_id : NodeId) : result RoutingState :=
  count ← ok_or (checked_add u32_max (default 0%N (rt_active_tokens rt !! node_id)) 1)
    (TokenCountOverflow node_id);
  Ok (set_tokens rt (<[node_id:=count]> (rt_active_tokens rt))).

(** [*count -= 1] panics on overflow in a checked build. *)
Definition complete_task (rt : RoutingState) (node_id : NodeId) : result RoutingState :=
  count ← ok_or (rt_active_tokens rt !! node_id) (TaskNotActive node_id);
  match checked_sub count 1 with
  | None => Panic "attempt to subtract with overflow"
  | Some count =>
      Ok (set_tokens rt (if (count =? 0)%N then delete node_id (rt_active_tokens rt)
                         else <[node_id:=count]> (rt_active_tokens rt)))
  end.

(** ** Multi-instance activities *)
Definition routing_start_multi_instance (rt : RoutingState) (node_id : NodeId)
    (active : ActiveMultiInstance) : result RoutingState :=
  bail_if (is_some (rt_active_multi_instances rt !! node_id)) (MultiInstanceAlreadyActive node_id);;
  Ok (set_multi_instances rt (<[node_id:=active]> (rt_active_multi_instances rt))).

Definition mi_set_iterations (a : ActiveMultiInstance) (next : N) (active completed : gset N)
    : ActiveMultiInstance :=
  {| am_task_type := am_task_type a; am_mode := am_mode a;
     am_total_instances := am_total_instances a; am_next_iteration := next;
     am_max_parallelism := am_max_parallelism a; am_item_variable := am_item_variable a;
     am_items := am_items a; am_active_iterations := active;
     am_completed_iterations := completed |}.

Definition activate_next_multi_instance (rt : RoutingState) (node_id : NodeId)
    : result (RoutingState * (N * TaskType * option WorkflowValue)) :=
  active ← ok_or (rt_active_multi_instances rt !! node_id) (MultiInstanceNotActive node_id);
  bail_if ((am_total_instances active <=? am_next_iteration active)%N
           || (am_max_parallelism active <=? N.of_nat (size (am_active_iterations active)))%N)
    (MultiInstanceActivationLimit node_id);;
  let iteration := am_next_iteration active in
  next ← ok_or (checked_add u32_max iteration 1) (TokenCountOverflow node_id);
  let active' := mi_set_iterations active next ({[iteration]} ∪ am_active_iterations active)
                   (am_completed_iterations active) in
  Ok (set_multi_instances rt (<[node_id:=active']> (rt_active_multi_instances rt)),
      (iteration, am_task_type active, am_items active !! N.to_nat iteration)).

(** The boolean is [MultiInstanceProgress::completed]. *)
Definition routing_complete_iteration (rt : RoutingState) (node_id : NodeId) (iteration : N)
    : result (RoutingState * bool) :=
  active ← ok_or (rt_active_multi_instances rt !! node_id) (MultiInstanceNotActive node_id);
  bail_if (bool_decide (iteration ∉ am_active_iterations active))
    (MultiInstanceIterationNotActive node_id iteration);;
  let active' := mi_set_iterations active (am_next_iteration active)
                   (am_active_iterations active ∖ {[iteration]})
                   ({[iteration]} ∪ am_completed_iterations active) in
  Ok (set_multi_instances rt (<[node_id:=active']> (rt_active_multi_instances rt)),
      (N.of_nat (size (am_completed_iterations active')) =? am_total_instances active)%N).

Definition finish_multi_instance (rt : RoutingState) (node_id : NodeId) : RoutingState :=
  set_multi_instances rt (delete node_id (rt_active_multi_instances rt)).

(** ** Boundary subscriptions *)
Definition arm_boundary (rt : RoutingState) (boundary_event_id : NodeId)
    (subscription : ActiveBoundarySubscription) : result RoutingState :=
  bail_if (is_some (rt_active_boundary_subscriptions rt !! boundary_event_id))
    (BoundaryEventAlreadyArmed boundary_event_id);;
  Ok (set_subscriptions rt
        (<[boundary_event_id:=subscription]> (rt_active_boundary_subscriptions rt))).

(** The ids armed for a node, in key order. *)
Definition armed_for (subs : gmap NodeId ActiveBoundarySubscription) (node_id : NodeId)
    : list NodeId :=
  (List.filter (λ p, bool_decide (ab_attached_node_id p.2 = node_id)) (btree_iter subs)).*1.

Definition disarm_boundaries (rt : RoutingState) (node_id : NodeId) : RoutingState * list NodeId :=
  let boundary_event_ids := armed_for (rt_active_boundary_subscriptions rt) node_id in
  (set_subscriptions rt
     (foldl (λ m k, delete k m) (rt_active_boundary_subscriptions rt) boundary_event_ids),
   boundary_event_ids).

Definition cancel_activity (rt : RoutingState) (node_id : NodeId) (cancelled_task_tokens : N)
    : result RoutingState :=
  let rt := finish_multi_instance rt node_id in
  let rt := (disarm_boundaries rt node_id).1 in
  for_each (λ rt _, complete_task rt node_id)
    (replicate (N.to_nat cancelled_task_tokens) tt) rt.

(** ** Joins *)
Definition open_join (rt : RoutingState) (join : NodeId) (target_count : nat)
    : result RoutingState :=
  expected ← ok_or (u32_of_usize target_count) (TokenCountOverflow join);
  bail_if (is_some (rt_pending_joins rt !! join)) (JoinAlreadyPending join);;
  Ok (set_joins rt (<[join:=mkPendingJoin expected 0]> (rt_pending_joins rt))).

Definition arrive (rt : RoutingState) (join : NodeId) : result (RoutingState * bool) :=
  state ← ok_or (rt_pending_joins rt !! join) (UnexpectedGatewayJoin join);
  arrived ← ok_or (checked_add u32_max (pj_arrived_tokens state) 1) (TokenCountOverflow join);
  bail_if (pj_expected_tokens state <? arrived)%N (UnexpectedGatewayJoin join);;
  Ok (set_joins rt (<[join:=mkPendingJoin (pj_expected_tokens state) arrived]>
        (rt_pending_joins rt)),
      (arrived =? pj_expected_tokens state)%N).

Definition close_join (rt : RoutingState) (join : NodeId) : RoutingState :=
  set_joins rt (delete join (rt_pending_joins rt)).

Definition state_variables_with_context (state : InstanceState) (context_variables : Variables)
    : Variables := variables_extend (st_variables state) context_variables.
