(* ===== verification/Text.v ===== *)
(** * Facts on byte strings

    What the workflow core needs of [trim] and of formatted identifiers: a
    string with a visible ASCII character is not blank, and the instance ids
    of execution scopes determine the scope node they were made from. *)

From S2P Require Import Prelude Types Expr Routing.
From Stdlib Require Import Ascii.
From stdpp Require Import options.

Fixpoint contains (x : ascii) (s : string) : bool :=
  match s with
  | "" => false
  | String a s => bool_decide (a = x) || contains x s
  end.

Lemma contains_app x s t : contains x (s +:+ t) = contains x s || contains x t.
Proof. induction s as [|a s IH]; [done|]. simpl. rewrite <-orb_assoc, <-IH. done. Qed.

Lemma rev_app_spec s t : String.rev_app s t = String.rev_app s "" +:+ t.
Proof.
  revert t. induction s as [|a s IH]; intros t; simpl; [done|].
  rewrite (IH (String a t)), (IH (String a "")), append_assoc. done.
Qed.

Lemma contains_rev x s : contains x (String.rev s) = contains x s.
Proof.
  unfold String.rev. induction s as [|a s IH]; simpl; [done|].
  rewrite rev_app_spec, contains_app, IH. simpl. rewrite orb_false_r. apply orb_comm.
Qed.

(** Stripping never removes a character the white-space tests reject. *)
Lemma contains_strip_ws x p2 p3 s :
  ws1 x = false →
  (∀ a b, p2 a b = true → a ≠ x ∧ b ≠ x) →
  (∀ a b c, p3 a b c = true → a ≠ x ∧ b ≠ x ∧ c ≠ x) →
  contains x s = true → contains x (strip_ws p2 p3 s) = true.
Proof.
  intros H1 H2 H3. revert s. fix IH 1. intros [|a s1] Hs; [done|]. simpl in *.
  destruct (ws1 a) eqn:Ha.
  { apply IH. case_bool_decide; [congruence|done]. }
  destruct s1 as [|b s2]; [done|].
  destruct (p2 a b) eqn:Hp2.
  { apply H2 in Hp2 as [??]. apply IH. simpl in Hs. by rewrite !bool_decide_eq_false_2 in Hs. }
  destruct s2 as [|c s3]; [done|].
  destruct (p3 a b c) eqn:Hp3; [|done].
  apply H3 in Hp3 as (?&?&?). apply IH. simpl in Hs. by rewrite !bool_decide_eq_false_2 in Hs.
Qed.

Definition visible (x : ascii) : bool := negb (ws1 x) && (N_of_ascii x <? 128)%N.

Lemma ws2_high a b : ws2 a b = true → (128 ≤ N_of_ascii a ∧ 128 ≤ N_of_ascii b)%N.
Proof. unfold ws2. lia. Qed.
Lemma ws3_high a b c :
  ws3 a b c = true → (128 ≤ N_of_ascii a ∧ 128 ≤ N_of_ascii b ∧ 128 ≤ N_of_ascii c)%N.
Proof. unfold ws3. repeat case_match; try done; lia. Qed.

Lemma visible_not_blank x s : visible x = true → contains x s = true → is_blank s = false.
Proof.
  unfold visible. rewrite andb_true_iff, negb_true_iff, N.ltb_lt. intros [Hx Hlow] Hs.
  apply bool_decide_eq_false_2. unfold trim. intros Htrim.
  assert (contains x "" = true) as Habs; [|done]. rewrite <-Htrim, contains_rev.
  apply contains_strip_ws; [done|..].
  - intros a b ?%ws2_high. split; intros ->; lia.
  - intros a b c ?%ws3_high. split_and!; intros ->; lia.
  - rewrite contains_rev. apply contains_strip_ws; [done|..|done].
    + intros a b ?%ws2_high. split; intros ->; lia.
    + intros a b c ?%ws3_high. split_and!; intros ->; lia.
Qed.

(** ** Splitting at the last separator *)
Lemma contains_false_app_inv x s t :
  contains x (s +:+ t) = false → contains x s = false ∧ contains x t = false.
Proof. rewrite contains_app, orb_false_iff. done. Qed.

(** A separator that does not occur behind it marks a unique position. *)
Lemma last_separator x s s' t t' :
  s +:+ String x t = s' +:+ String x t' → contains x t = false → contains x t' = false →
  s = s' ∧ t = t'.
Proof.
  revert s'. induction s as [|a s IH]; intros [|a' s'] Heq Ht Ht'.
  - change (String x t = String x t') in Heq. by simplify_eq.
  - change (String x t = String a' (s' +:+ String x t')) in Heq. simplify_eq.
    rewrite contains_app in Ht. simpl in Ht. rewrite bool_decide_eq_true_2, orb_true_r in Ht; done.
  - change (String a (s +:+ String x t) = String x t') in Heq. simplify_eq.
    rewrite contains_app in Ht'. simpl in Ht'.
    rewrite bool_decide_eq_true_2, orb_true_r in Ht'; done.
  - change (String a (s +:+ String x t) = String a' (s' +:+ String x t')) in Heq.
    injection Heq as -> Heq. destruct (IH s' Heq Ht Ht') as [-> ->]. done.
Qed.

(** Decimal numbers contain digits only. *)
Lemma first_separator x s s' t t' :
  contains x s = false → contains x s' = false →
  s +:+ String x t = s' +:+ String x t' → s = s' ∧ t = t'.
Proof.
  revert s'. induction s as [|a s IH]; intros [|b s'] Hs Hs' Heq; simpl in *.
  - by injection Heq.
  - injection Heq as -> _. by rewrite bool_decide_true in Hs'.
  - injection Heq as -> _. by rewrite bool_decide_true in Hs.
  - apply orb_false_iff in Hs as [_ Hs], Hs' as [_ Hs']. injection Heq as -> Heq.
    by destruct (IH _ Hs Hs' Heq) as [-> ->].
Qed.

Lemma contains_pretty_go x n s :
  Ascii.is_nat x = None → contains x s = false → contains x (pretty_N_go n s) = false.
Proof.
  intros Hx. revert s. induction (N.lt_wf_0 n) as [n _ IH]. intros s Hs.
  destruct (decide (n = 0)%N) as [->|Hn]; [by rewrite pretty_N_go_0|].
  rewrite pretty_N_go_step by lia. apply IH; [apply N.div_lt; lia|].
  simpl. rewrite Hs, orb_false_r. apply bool_decide_eq_false_2. intros <-.
  revert Hx. unfold pretty_N_char. by repeat case_match.
Qed.

Lemma contains_pretty x (n : N) : Ascii.is_nat x = None → contains x (pretty n) = false.
Proof.
  intros Hx. unfold pretty, pretty_N. case_decide.
  - simpl. rewrite orb_false_r. apply bool_decide_eq_false_2. by intros <-.
  - by apply contains_pretty_go.
Qed.

(** ** Scope instance ids *)

(** A scope node id without the separator of scope paths. *)
Definition plain_id (id : NodeId) : bool := negb (contains "/"%char id).

Lemma scope_identity_node parent parent' scope scope' n n' :
  plain_id scope = true → plain_id scope' = true →
  scope_identity parent scope n = scope_identity parent' scope' n' → scope = scope'.
Proof.
  unfold plain_id. rewrite !negb_true_iff. intros Hs Hs' Heq.
  assert (∀ id (m : N), contains "/"%char id = false → contains "/"%char (id +:+ "#" +:+ pretty m) = false)
    as Hplain.
  { intros id m Hid. rewrite !contains_app, Hid, contains_pretty by done. done. }
  assert (∀ id id' (m m' : N), id +:+ "#" +:+ pretty m = id' +:+ "#" +:+ pretty m' → id = id') as Hhash.
  { intros id id' m m' H. apply (last_separator "#"%char) in H as [-> _]; [done|..];
      by apply contains_pretty. }
  unfold scope_identity in Heq. destruct parent as [p|], parent' as [p'|].
  - apply (last_separator "/"%char) in Heq as [_ Heq]; [by eapply Hhash|by apply Hplain..].
  - pose proof (Hplain scope' n' Hs') as H. rewrite <-Heq, contains_app in H.
    by destruct (contains "/"%char p).
  - pose proof (Hplain scope n Hs) as H. rewrite Heq, contains_app in H.
    by destruct (contains "/"%char p').
  - by eapply Hhash.
Qed.

(** The identity is never blank, so [ScopeInstanceId::new] accepts it. *)
Lemma scope_identity_not_blank parent scope n : is_blank (scope_identity parent scope n) = false.
Proof.
  apply (visible_not_blank "#"%char); [done|].
  unfold scope_identity. destruct parent; rewrite !contains_app; simpl; by rewrite !orb_true_r.
Qed.
