(* ===== verification/Evolve.v ===== *)
(** * Applying events: [evolve] and [rehydrate]

    [evolve] replays one domain event on an instance state. The source's one
    [match] over the event is written as four, one for each part of the state
    it updates: the cases, the variables, the routing fields and the
    lifecycle. The lemmas of the last section show that each operation of [Routing] does what replaying the
    event it emits does. *)

From S2P Require Import Prelude Types Expr Routing.
From stdpp Require Import options.

Section setters.
Context (st : InstanceState).

Definition with_lifecycle (l : Lifecycle) : InstanceState :=
  mkState l (st_sequence st) (st_variables st) (st_active_tokens st)
    (st_pending_gateway_joins st) (st_active_multi_instances st)
    (st_active_boundary_subscriptions st) (st_active_scopes st)
    (st_scope_invocation_counts st) (st_active_cases st).
Definition with_sequence (n : N) : InstanceState :=
  mkState (st_lifecycle st) n (st_variables st) (st_active_tokens st)
    (st_pending_gateway_joins st) (st_active_multi_instances st)
    (st_active_boundary_subscriptions st) (st_active_scopes st)
    (st_scope_invocation_counts st) (st_active_cases st).
Definition with_variables (v : Variables) : InstanceState :=
  mkState (st_lifecycle st) (st_sequence st) v (st_active_tokens st)
    (st_pending_gateway_joins st) (st_active_multi_instances st)
    (st_active_boundary_subscriptions st) (st_active_scopes st)
    (st_scope_invocation_counts st) (st_active_cases st).
Definition with_cases (c : gmap CaseId ActiveCase) : InstanceState :=
  mkState (st_lifecycle st) (st_sequence st) (st_variables st) (st_active_tokens st)
    (st_pending_gateway_joins st) (st_active_multi_instances st)
    (st_active_boundary_subscriptions st) (st_active_scopes st)
    (st_scope_invocation_counts st) c.
Definition with_routing (rt : RoutingState) : InstanceState :=
  mkState (st_lifecycle st) (st_sequence st) (st_variables st) (rt_active_tokens rt)
    (rt_pending_joins rt) (rt_active_multi_instances rt)
    (rt_active_boundary_subscriptions rt) (rt_active_scopes rt)
    (rt_scope_invocation_counts rt) (st_active_cases st).
End setters.

(** ** Case events *)
Definition available (kind : CasePlanItemKind) (id : PlanItemId)
    : PlanItemId * CasePlanItemState := (id, mkPlanItem kind Item_Available).

Definition evolve_case_activated (cases : gmap CaseId ActiveCase) (case_id : CaseId)
    (case_model_id : CaseModelId) (stage_ids milestone_ids : list PlanItemId)
    : gmap CaseId ActiveCase :=
  let plan_items := btree_extend ∅ (available Stage <$> stage_ids) in
  let plan_items := btree_extend plan_items (available Milestone <$> milestone_ids) in
  <[case_id:=mkActiveCase case_model_id Case_Active ∅ plan_items]> cases.

Definition evolve_cases (cases : gmap CaseId ActiveCase) (event : DomainEvent)
    : gmap CaseId ActiveCase :=
  match event with
  | CaseActivated case_id case_model_id stage_ids milestone_ids _ =>
      evolve_case_activated cases case_id case_model_id stage_ids milestone_ids
  | CaseSentrySatisfied case_id sentry_id _ =>
      alter (λ a, mkActiveCase (ac_model_id a) (ac_lifecycle a)
                    ({[sentry_id]} ∪ ac_satisfied_sentries a) (ac_plan_items a)) case_id cases
  | CasePlanItemTransitioned case_id plan_item_id kind status _ _ =>
      alter (λ a, mkActiveCase (ac_model_id a) (ac_lifecycle a) (ac_satisfied_sentries a)
                    (<[plan_item_id:=mkPlanItem kind status]> (ac_plan_items a))) case_id cases
  | CaseCompleted case_id _ =>
      alter (λ a, mkActiveCase (ac_model_id a) Case_Completed (ac_satisfied_sentries a)
                    (ac_plan_items a)) case_id cases
  | WorkflowTerminatedForCompliance _ _ _ _ _ => ∅
  | _ => cases
  end.

(** ** Variables *)
Definition evolve_variables (variables : Variables) (event : DomainEvent) : Variables :=
  match event with
  | ServiceTaskCompleted _ outputs _ | DecisionTaskEvaluated _ _ outputs _ =>
      variables_extend variables outputs
  | UserTaskCompleted _ decision result_variable _ =>
      <[result_variable:=VString decision]> variables
  | _ => variables
  end.

(** ** The routing part *)

(** [complete_active_token] on the token map. *)
Definition release_tokens (tokens : gmap NodeId N) (node_id : NodeId) (n : N) : gmap NodeId N :=
  match tokens !! node_id with
  | Some count =>
      let count := (count - n)%N in
      if (count =? 0)%N then delete node_id tokens else <[node_id:=count]> tokens
  | None => tokens
  end.

Definition clear_work (rt : RoutingState) : RoutingState :=
  mkRouting ∅ ∅ ∅ ∅ ∅ (rt_scope_invocation_counts rt).

Definition evolve_routing (rt : RoutingState) (event : DomainEvent) : RoutingState :=
  match event with
  | ServiceTaskActivated node_id _ _ | UserTaskActivated node_id _ _ _ _
  | ScriptTaskActivated node_id _ _ _ _ =>
      set_tokens rt (<[node_id:=saturating_add u32_max
        (default 0%N (rt_active_tokens rt !! node_id)) 1]> (rt_active_tokens rt))
  | ServiceTaskCompleted node_id _ _ | ScriptTaskCompleted node_id _
  | UserTaskCompleted node_id _ _ _ =>
      set_tokens rt (release_tokens (rt_active_tokens rt) node_id 1)
  | GatewaySplitActivated _ join selected_targets _ =>
      set_joins rt (<[join:=mkPendingJoin
        (default u32_max (u32_of_usize (length selected_targets))) 0]> (rt_pending_joins rt))
  | GatewayTokenArrived gateway_id _ =>
      set_joins rt (alter (λ j, mkPendingJoin (pj_expected_tokens j)
        (saturating_add u32_max (pj_arrived_tokens j) 1)) gateway_id (rt_pending_joins rt))
  | GatewayJoined gateway_id _ => set_joins rt (delete gateway_id (rt_pending_joins rt))
  | BoundaryEventArmed id attached target cancel trigger at_ms =>
      set_subscriptions rt (<[id:=mkSubscription attached target cancel trigger at_ms]>
        (rt_active_boundary_subscriptions rt))
  | BoundaryEventsDisarmed _ ids _ =>
      set_subscriptions rt (foldl (λ m k, delete k m) (rt_active_boundary_subscriptions rt) ids)
  | MultiInstanceStarted node_id task_type mode total max_parallelism item_variable items _ =>
      set_multi_instances rt (<[node_id:=
        mkActiveMI task_type mode total 0 max_parallelism item_variable items ∅ ∅]>
        (rt_active_multi_instances rt))
  | MultiInstanceIterationActivated node_id _ iteration _ _ =>
      set_multi_instances rt (alter (λ a, mi_set_iterations a
        (N.max (am_next_iteration a) (saturating_add u32_max iteration 1))
        ({[iteration]} ∪ am_active_iterations a) (am_completed_iterations a)) node_id
        (rt_active_multi_instances rt))
  | MultiInstanceIterationCompleted node_id iteration _ =>
      set_multi_instances rt (alter (λ a, mi_set_iterations a (am_next_iteration a)
        (am_active_iterations a ∖ {[iteration]}) ({[iteration]} ∪ am_completed_iterations a))
        node_id (rt_active_multi_instances rt))
  | MultiInstanceCompleted node_id _ _ _ => finish_multi_instance rt node_id
  | BoundaryEventTriggered _ attached _ cancel_activity _ cancelled_task_tokens _ =>
      if cancel_activity then
        mkRouting (release_tokens (rt_active_tokens rt) attached cancelled_task_tokens)
          (rt_pending_joins rt) (delete attached (rt_active_multi_instances rt))
          (filter (λ p, ab_attached_node_id p.2 ≠ attached) (rt_active_boundary_subscriptions rt))
          (rt_active_scopes rt) (rt_scope_invocation_counts rt)
      else rt
  | ScopeEntered instance scope start parent invocation _ =>
      set_scopes rt (<[instance:=mkScope scope start parent invocation]> (rt_active_scopes rt))
        (<[scope:=N.max (default 0%N (rt_scope_invocation_counts rt !! scope)) invocation]>
           (rt_scope_invocation_counts rt))
  | ScopeCompleted instance _ _ _ =>
      set_scopes rt (delete instance (rt_active_scopes rt)) (rt_scope_invocation_counts rt)
  | WorkflowCompleted _ | WorkflowTerminatedForCompliance _ _ _ _ _ => clear_work rt
  | CaseActivated _ _ _ _ _ | CaseSentrySatisfied _ _ _ | CasePlanItemTransitioned _ _ _ _ _ _
  | CaseCompleted _ _ | WorkflowStarted _ _ _ _ _ | UserTaskCancelled _ _ _
  | DecisionTaskEvaluated _ _ _ _ | WorkflowBranchCompleted _ _ => rt
  end.

(** ** The lifecycle

    [tokens] is the token map after the event. *)
Definition first_active (tokens : gmap NodeId N) (node_id : NodeId) : Lifecycle :=
  Life_Active (default node_id (first_key tokens)).

Definition evolve_lifecycle (lifecycle : Lifecycle) (tokens : gmap NodeId N)
    (event : DomainEvent) : Lifecycle :=
  match event with
  | CaseActivated _ _ _ _ _ | CaseSentrySatisfied _ _ _ | CasePlanItemTransitioned _ _ _ _ _ _
  | CaseCompleted _ _ | UserTaskCancelled _ _ _ | DecisionTaskEvaluated _ _ _ _
  | GatewaySplitActivated _ _ _ _ | BoundaryEventArmed _ _ _ _ _ _
  | BoundaryEventsDisarmed _ _ _ => lifecycle
  | ServiceTaskActivated node_id _ _ | UserTaskActivated node_id _ _ _ _
  | ScriptTaskActivated node_id _ _ _ _ | ServiceTaskCompleted node_id _ _
  | ScriptTaskCompleted node_id _ | UserTaskCompleted node_id _ _ _ =>
      first_active tokens node_id
  | WorkflowStarted _ _ _ node _ | GatewayTokenArrived node _ | GatewayJoined node _
  | MultiInstanceStarted node _ _ _ _ _ _ _ | MultiInstanceIterationActivated node _ _ _ _
  | MultiInstanceIterationCompleted node _ _ | MultiInstanceCompleted node _ _ _
  | BoundaryEventTriggered _ _ node _ _ _ _ | ScopeEntered _ _ node _ _ _
  | ScopeCompleted _ node _ _ | WorkflowBranchCompleted node _ => Life_Active node
  | WorkflowCompleted _ => Life_Completed
  | WorkflowTerminatedForCompliance _ _ _ _ _ => Life_TerminatedForCompliance
  end.

Definition evolve (st : InstanceState) (event : DomainEvent) : InstanceState :=
  let st := with_sequence st (saturating_add u64_max (st_sequence st) 1) in
  let st := with_cases st (evolve_cases (st_active_cases st) event) in
  let st := with_variables st (evolve_variables (st_variables st) event) in
  let st := with_routing st (evolve_routing (RoutingState_from st) event) in
  with_lifecycle st (evolve_lifecycle (st_lifecycle st) (st_active_tokens st) event).

Definition rehydrate (snapshot : option InstanceState) (events : list DomainEvent)
    : InstanceState := foldl evolve (default InstanceState_default snapshot) events.

(** ** Replay and the operations of [Routing] *)
Lemma RoutingState_from_evolve st e :
  RoutingState_from (evolve st e) = evolve_routing (RoutingState_from st) e.
Proof. unfold evolve, RoutingState_from. by destruct (evolve_routing _ _). Qed.

Lemma RoutingState_from_replay st evs :
  RoutingState_from (foldl evolve st evs) = foldl evolve_routing (RoutingState_from st) evs.
Proof.
  revert st. induction evs as [|e evs IH]; intros st; simpl; [done|].
  by rewrite IH, RoutingState_from_evolve.
Qed.

(** [replays rt evs rt']: replaying [evs] takes [rt] to [rt']. *)
Definition replays (rt : RoutingState) (evs : list DomainEvent) (rt' : RoutingState) : Prop :=
  foldl evolve_routing rt evs = rt'.

Lemma replays_nil rt : replays rt [] rt.
Proof. done. Qed.
Lemma replays_app rt evs1 rt1 evs2 rt2 :
  replays rt evs1 rt1 → replays rt1 evs2 rt2 → replays rt (evs1 ++ evs2) rt2.
Proof. unfold replays. intros <- <-. by rewrite foldl_app. Qed.
Lemma replays_cons rt e rt1 evs rt2 :
  evolve_routing rt e = rt1 → replays rt1 evs rt2 → replays rt (e :: evs) rt2.
Proof. unfold replays. by intros <- <-. Qed.
Lemma replays_one rt e rt1 : evolve_routing rt e = rt1 → replays rt [e] rt1.
Proof. done. Qed.

Section operations.
Context (rt rt' : RoutingState) (k : NodeId).

Lemma activate_task_replay :
  activate_task rt k = Ok rt' →
  rt' = set_tokens rt (<[k:=saturating_add u32_max
    (default 0%N (rt_active_tokens rt !! k)) 1]> (rt_active_tokens rt)).
Proof.
  unfold activate_task. intros H. inv_res H. by rewrite (saturating_add_checked _ _ _ _ Hv).
Qed.

Lemma complete_task_replay :
  complete_task rt k = Ok rt' →
  rt' = set_tokens rt (release_tokens (rt_active_tokens rt) k 1).
Proof.
  unfold complete_task, release_tokens. intros H. inv_res H. rewrite Hv.
  destruct (checked_sub v 1) eqn:Hs; [|done]. inv_res H.
  by apply checked_sub_Some in Hs as [-> _].
Qed.

Lemma open_join_replay (targets : list NodeId) :
  open_join rt k (length targets) = Ok rt' →
  rt' = set_joins rt (<[k:=mkPendingJoin
    (default u32_max (u32_of_usize (length targets))) 0]> (rt_pending_joins rt)).
Proof. unfold open_join. intros H. inv_res H. by rewrite Hv. Qed.

Lemma arrive_replay b :
  arrive rt k = Ok (rt', b) →
  rt' = set_joins rt (alter (λ j, mkPendingJoin (pj_expected_tokens j)
    (saturating_add u32_max (pj_arrived_tokens j) 1)) k (rt_pending_joins rt)).
Proof.
  unfold arrive. intros H. inv_res H. simplify_eq. f_equal.
  apply map_eq. intros i. rewrite lookup_insert, lookup_alter.
  destruct (decide (k = i)) as [<-|]; [|done].
  rewrite Hv. simpl. by rewrite (saturating_add_checked _ _ _ _ Hv0).
Qed.

Lemma activate_next_replay iteration task_type item at_ms :
  activate_next_multi_instance rt k = Ok (rt', (iteration, task_type, item)) →
  evolve_routing rt (MultiInstanceIterationActivated k task_type iteration item at_ms) = rt'.
Proof.
  unfold activate_next_multi_instance. intros H. inv_res H. simplify_eq/=. f_equal.
  apply map_eq. intros i. rewrite lookup_insert, lookup_alter.
  destruct (decide (k = i)) as [<-|]; [|done]. rewrite Hv. simpl.
  rewrite (saturating_add_checked _ _ _ _ Hv1). apply checked_add_Some in Hv1 as [-> _].
  do 2 f_equal. lia.
Qed.

Lemma complete_iteration_replay iteration b at_ms :
  routing_complete_iteration rt k iteration = Ok (rt', b) →
  evolve_routing rt (MultiInstanceIterationCompleted k iteration at_ms) = rt'.
Proof.
  unfold routing_complete_iteration. intros H. inv_res H. simplify_eq/=. f_equal.
  apply map_eq. intros i. rewrite lookup_insert, lookup_alter.
  destruct (decide (k = i)) as [<-|]; [|done]. by rewrite Hv.
Qed.

Lemma enter_scope_replay start parent instance invocation at_ms :
  enter_scope rt k start parent = Ok (rt', (instance, invocation)) →
  evolve_routing rt (ScopeEntered instance k start parent invocation at_ms) = rt'.
Proof.
  unfold enter_scope. intros H. inv_res H.
  destruct (identifier_new _ _) eqn:Hid; inv_res H; [|done..]. simplify_eq/=.
  apply checked_add_Some in Hv0 as [-> _]. do 2 f_equal. lia.
Qed.

Lemma complete_scope_replay instance scope end_ at_ms :
  complete_scope rt instance k = Ok (rt', scope) →
  evolve_routing rt (ScopeCompleted instance k end_ at_ms) = rt'.
Proof. unfold complete_scope. intros H. inv_res H. by simplify_eq/=. Qed.

(** When nothing is outstanding, [WorkflowCompleted] clears nothing. *)
Lemma no_outstanding_work :
  has_outstanding_work rt = false ↔ clear_work rt = rt.
Proof.
  unfold has_outstanding_work, clear_work. destruct rt as [m1 m2 m3 m4 m5 m6]; simpl.
  rewrite !orb_false_iff, !negb_false_iff, !map_is_empty_true.
  split; [by intros ((((-> & ->) & ->) & ->) & ->)|by intros [=]].
Qed.

(** [disarm_boundaries] is a filter on the subscriptions. *)
Lemma elem_of_armed_for subs i :
  i ∈ armed_for subs k ↔ ∃ s, subs !! i = Some s ∧ ab_attached_node_id s = k.
Proof.
  unfold armed_for. rewrite list_elem_of_fmap. setoid_rewrite list_elem_of_In.
  setoid_rewrite filter_In. setoid_rewrite <-list_elem_of_In. split.
  - intros ([i' s] & -> & Hin & Hb). apply bool_decide_eq_true in Hb.
    exists s. by rewrite <-elem_of_btree_iter.
  - intros (s & Hs & <-). exists (i, s). rewrite elem_of_btree_iter. simpl.
    by rewrite bool_decide_eq_true.
Qed.

Lemma disarm_boundaries_filter :
  (disarm_boundaries rt k).1 = set_subscriptions rt
    (filter (λ p, ab_attached_node_id p.2 ≠ k) (rt_active_boundary_subscriptions rt)).
Proof.
  unfold disarm_boundaries. simpl. f_equal. apply map_eq. intros i.
  rewrite lookup_foldl_delete, map_lookup_filter.
  destruct (rt_active_boundary_subscriptions rt !! i) as [s|] eqn:Hs; simpl.
  - destruct (decide (ab_attached_node_id s = k)) as [Heq|Hne].
    + rewrite decide_True, option_guard_False by (rewrite ?elem_of_armed_for; naive_solver). done.
    + rewrite decide_False, option_guard_True by (rewrite ?elem_of_armed_for; naive_solver). done.
  - by destruct (decide _).
Qed.
End operations.
