(* ===== verification/Activation.v ===== *)
(** * Activating nodes

    [activation_events] of [workflow.rs]: starting from one node, follow every
    automatic transition until each branch waits on a task, arrives at an open
    join or ends. The helpers that start multi-instance loops and arm or
    disarm boundary events come first, then one definition per node kind, then
    the loop. A helper that pushes to the [events] vector returns what it
    pushed; the stack [pending] is a list whose head is the top. *)

From S2P Require Import Prelude Types Expr Coverage Config WorkflowDef Routing.
From Stdlib Require Import Ascii.
From stdpp Require Import options.

(** ** Multi-instance input *)
Definition expression_variable (expression : string) : string :=
  let trimmed := trim expression in
  trim (default trimmed (strip_prefix "${" trimmed ≫= strip_suffix "}"%char)).

Definition resolve_cardinality (node_id : NodeId) (expression : string) (variables : Variables)
    : result N :=
  value ← ok_or
    match parse_i64 (trim expression) with
    | Some z => Some z
    | None =>
        match variables !! expression_variable expression with
        | Some (VInteger z) => Some z
        | _ => None
        end
    end (InvalidMultiInstanceCardinality node_id expression);
  ok_or (u32_of_i64 value) (InvalidMultiInstanceCardinality node_id expression).

Definition materialize_multi_instance (node_id : NodeId) (spec : MultiInstanceDefinition)
    (variables : Variables) : result (N * list WorkflowValue) :=
  items ←
    match mi_collection_expression spec with
    | Some expression =>
        match variables !! expression_variable expression with
        | Some value =>
            match value with
            | VList items =>
                if forallb WorkflowValue_is_scalar items then Ok items
                else Err (MultiInstanceCollectionTypeMismatch node_id (WorkflowValue_type_name value))
            | _ => Err (MultiInstanceCollectionTypeMismatch node_id (WorkflowValue_type_name value))
            end
        | None => Err (MultiInstanceInputMissing node_id expression)
        end
    | None => Ok []
    end;
  collection_count ← ok_or (u32_of_usize (length items)) (TokenCountOverflow node_id);
  cardinality ←
    match mi_cardinality_expression spec with
    | Some expression => n ← resolve_cardinality node_id expression variables; Ok (Some n)
    | None => Ok None
    end;
  match cardinality with
  | Some n =>
      bail_if (is_some (mi_collection_expression spec) && negb (n =? collection_count)%N)
        (MultiInstanceCardinalityMismatch node_id collection_count n)
  | None => Ok tt
  end;;
  Ok (default collection_count cardinality, items).

Section activation.
Context (definition : WorkflowDefinition) (configuration : ResolvedConfigSnapshot) (at_ms : N).

Definition mi_parallelism (spec : MultiInstanceDefinition) (total_instances : N) : N :=
  N.min
    match mi_mode spec with
    | Sequential => 1
    | Parallel => default (en_default_multi_instance_parallelism (rc_engine configuration))
                    (mi_max_parallelism spec)
    end (N.max total_instances 1).

(** One turn of [for _ in 0..max_parallelism]. *)
Definition activate_iteration (node_id : NodeId) (acc : RoutingState * list DomainEvent)
    : result (RoutingState * list DomainEvent) :=
  '(rt, (iteration, task_type, item)) ← activate_next_multi_instance acc.1 node_id;
  Ok (rt, acc.2 ++ [MultiInstanceIterationActivated node_id task_type iteration item at_ms]).

Definition start_multi_instance (node_id : NodeId) (task_type : TaskType)
    (spec : MultiInstanceDefinition) (variables : Variables) (rt : RoutingState)
    : result (bool * RoutingState * list DomainEvent) :=
  '(total_instances, items) ← materialize_multi_instance node_id spec variables;
  let limit := en_max_multi_instance_cardinality (rc_engine configuration) in
  bail_if (limit <? total_instances)%N
    (MultiInstanceCardinalityExceeded node_id total_instances limit);;
  let max_parallelism := mi_parallelism spec total_instances in
  let active := mkActiveMI task_type (mi_mode spec) total_instances 0 max_parallelism
                  (mi_item_variable spec) items ∅ ∅ in
  rt ← routing_start_multi_instance rt node_id active;
  let started := MultiInstanceStarted node_id task_type (mi_mode spec) total_instances
                   max_parallelism (mi_item_variable spec) items at_ms in
  if (total_instances =? 0)%N then
    Ok (true, finish_multi_instance rt node_id,
        [started; MultiInstanceCompleted node_id false [] at_ms])
  else
    '(rt, events) ← for_each (λ acc _, activate_iteration node_id acc)
      (replicate (N.to_nat max_parallelism) tt) (rt, [started]);
    Ok (false, rt, events).

(** ** Boundary events *)
Definition subscription_for (node_id : NodeId) (boundary : BoundaryEventDefinition)
    : ActiveBoundarySubscription :=
  mkSubscription node_id (be_target boundary) (be_cancel_activity boundary)
    (be_trigger boundary) at_ms.

Definition arm_boundary_events (node_id : NodeId) (rt : RoutingState)
    : result (RoutingState * list DomainEvent) :=
  for_each (λ '(rt, events) boundary,
    rt ← arm_boundary rt (be_id boundary) (subscription_for node_id boundary);
    Ok (rt, events ++ [BoundaryEventArmed (be_id boundary) node_id (be_target boundary)
                         (be_cancel_activity boundary) (be_trigger boundary) at_ms]))
    (boundary_events definition node_id) (rt, []).

Definition disarm_boundary_events (node_id : NodeId) (rt : RoutingState)
    : RoutingState * list DomainEvent :=
  let '(rt, boundary_event_ids) := disarm_boundaries rt node_id in
  (rt, if is_empty boundary_event_ids then []
       else [BoundaryEventsDisarmed node_id boundary_event_ids at_ms]).

(** ** One step of the loop

    What one iteration leaves: the variables, the routing state, the events
    it pushed and the entries it pushed on the stack (top first). *)
Definition Entry : Type := NodeId * option ScopeInstanceId.
Definition StepResult : Type := Variables * RoutingState * list DomainEvent * list Entry.

(** The body shared by the four activity kinds; [activated] is the event of
    the plain (not multi-instance) activation. *)
Definition activate_activity (current : NodeId) (scope : option ScopeInstanceId)
    (task_type : TaskType) (next : NodeId) (activated : DomainEvent)
    (variables : Variables) (rt : RoutingState) : result StepResult :=
  match multi_instance_spec definition current with
  | Some spec =>
      '(completed, rt, started) ← start_multi_instance current task_type spec variables rt;
      if (completed : bool) then Ok (variables, rt, started, [(next, scope)])
      else
        '(rt, armed) ← arm_boundary_events current rt;
        Ok (variables, rt, started ++ armed, [])
  | None =>
      rt ← activate_task rt current;
      '(rt, armed) ← arm_boundary_events current rt;
      Ok (variables, rt, activated :: armed, [])
  end.

Definition step_service_task (current : NodeId) (scope : option ScopeInstanceId)
    (task_type : TaskType) (next : NodeId) : Variables → RoutingState → result StepResult :=
  activate_activity current scope task_type next (ServiceTaskActivated current task_type at_ms).

Definition step_user_task (current : NodeId) (scope : option ScopeInstanceId)
    (task_type : TaskType) (assignment_policy_ref : string) (form_key : option string)
    (next : NodeId) : Variables → RoutingState → result StepResult :=
  activate_activity current scope task_type next
    (UserTaskActivated current task_type assignment_policy_ref form_key at_ms).

Definition step_script_task (current : NodeId) (scope : option ScopeInstanceId)
    (task_type : TaskType) (implementation_ref implementation_version : string)
    (next : NodeId) : Variables → RoutingState → result StepResult :=
  activate_activity current scope task_type next
    (ScriptTaskActivated current task_type implementation_ref implementation_version at_ms).

Definition call_task_type (called_workflow : WorkflowType)
    (called_version : option WorkflowVersion) : string :=
  match called_version with
  | Some version => "call:" +:+ called_workflow +:+ "@" +:+ version
  | None => "call:" +:+ called_workflow
  end.

Definition step_call_activity (current : NodeId) (scope : option ScopeInstanceId)
    (called_workflow : WorkflowType) (called_version : option WorkflowVersion)
    (next : NodeId) (variables : Variables) (rt : RoutingState) : result StepResult :=
  match identifier_new "TaskType" (call_task_type called_workflow called_version) with
  | Ok task_type =>
      activate_activity current scope task_type next
        (ServiceTaskActivated current task_type at_ms) variables rt
  | _ => Panic "validated call activity produces a non-empty task type"
  end.

Definition step_decision_task (current : NodeId) (scope : option ScopeInstanceId)
    (decision_table_id : string) (next : NodeId) (variables : Variables) (rt : RoutingState)
    : result StepResult :=
  table ← ok_or (wd_decision_tables definition !! decision_table_id)
    (MissingDecisionTable decision_table_id);
  outputs ← evaluate_decision_table table variables;
  Ok (variables_extend variables outputs, rt,
      [DecisionTaskEvaluated current decision_table_id outputs at_ms], [(next, scope)]).

Definition step_end (current : NodeId) (scope : option ScopeInstanceId)
    (variables : Variables) (rt : RoutingState) : result StepResult :=
  match owner_scope_id definition current with
  | Some owner_scope =>
      scope_instance_id ← ok_or scope (ScopeContextMissing current);
      '(rt, completed_scope) ← complete_scope rt scope_instance_id owner_scope;
      let '(rt, disarmed) := disarm_boundary_events owner_scope rt in
      exit ← sub_process_exit definition owner_scope;
      Ok (variables, rt, ScopeCompleted scope_instance_id owner_scope current at_ms :: disarmed,
          [(exit, as_parent_scope_instance_id completed_scope)])
  | None =>
      if has_outstanding_work rt
      then Ok (variables, rt, [WorkflowBranchCompleted current at_ms], [])
      else Ok (variables, rt, [WorkflowCompleted at_ms], [])
  end.

Definition step_start (current : NodeId) (scope : option ScopeInstanceId) (next : NodeId)
    (variables : Variables) (rt : RoutingState) : result StepResult :=
  bail_if (negb (is_some (owner_scope_id definition current)) || negb (is_some scope))
    (TransitionToStartNode current);;
  Ok (variables, rt, [], [(next, scope)]).

Definition step_exclusive_gateway (current : NodeId) (scope : option ScopeInstanceId)
    (transitions : list GuardedTransition) (variables : Variables) (rt : RoutingState)
    : result StepResult :=
  target ← select_transition current transitions variables;
  Ok (variables, rt, [], [(target, scope)]).

(** Opening the join and pushing the branches, shared by the two splits. *)
Definition split_into (current : NodeId) (scope : option ScopeInstanceId)
    (targets : list NodeId) (join : NodeId) (variables : Variables) (rt : RoutingState)
    : result StepResult :=
  rt ← open_join rt join (length targets);
  Ok (variables, rt, [GatewaySplitActivated current join targets at_ms],
      (λ target, (target, scope)) <$> targets).

Definition step_parallel_split (current : NodeId) (scope : option ScopeInstanceId)
    (targets : list NodeId) (join : NodeId) : Variables → RoutingState → result StepResult :=
  split_into current scope targets join.

Definition step_inclusive_split (current : NodeId) (scope : option ScopeInstanceId)
    (transitions : list GuardedTransition) (join : NodeId) (variables : Variables)
    (rt : RoutingState) : result StepResult :=
  selected ← select_transitions current transitions variables;
  split_into current scope selected join variables rt.

Definition step_join (current : NodeId) (scope : option ScopeInstanceId) (next : NodeId)
    (variables : Variables) (rt : RoutingState) : result StepResult :=
  '(rt, complete) ← arrive rt current;
  if (complete : bool) then
    Ok (variables, close_join rt current,
        [GatewayTokenArrived current at_ms; GatewayJoined current at_ms], [(next, scope)])
  else Ok (variables, rt, [GatewayTokenArrived current at_ms], []).

Definition step_sub_process (current : NodeId) (scope : option ScopeInstanceId) (start : NodeId)
    (variables : Variables) (rt : RoutingState) : result StepResult :=
  '(rt, (scope_instance_id, invocation)) ← enter_scope rt current start scope;
  '(rt, armed) ← arm_boundary_events current rt;
  Ok (variables, rt, ScopeEntered scope_instance_id current start scope invocation at_ms :: armed,
      [(start, Some scope_instance_id)]).

Definition node_step (node : Node) (current : NodeId) (scope : option ScopeInstanceId)
    : Variables → RoutingState → result StepResult :=
  match node with
  | Node_ServiceTask task_type next => step_service_task current scope task_type next
  | Node_UserTask task_type policy form_key _ next =>
      step_user_task current scope task_type policy form_key next
  | Node_ScriptTask task_type implementation version next =>
      step_script_task current scope task_type implementation version next
  | Node_CallActivity called_workflow called_version next =>
      step_call_activity current scope called_workflow called_version next
  | Node_DecisionTask table next => step_decision_task current scope table next
  | Node_End => step_end current scope
  | Node_Start next => step_start current scope next
  | Node_ExclusiveGateway transitions _ => step_exclusive_gateway current scope transitions
  | Node_ParallelSplit targets join => step_parallel_split current scope targets join
  | Node_InclusiveSplit transitions _ join => step_inclusive_split current scope transitions join
  | Node_ParallelJoin _ next | Node_InclusiveJoin _ next => step_join current scope next
  | Node_SubProcess start _ _ => step_sub_process current scope start
  end.

(** ** The loop

    [fuel] is the number of steps still allowed: [max_steps] at the start. *)
Fixpoint activation_loop (fuel : nat) (node_id : NodeId) (variables : Variables)
    (rt : RoutingState) (pending : list Entry)
    : result (Variables * RoutingState * list DomainEvent) :=
  match pending with
  | [] => Ok (variables, rt, [])
  | (current, scope) :: rest =>
      match fuel with
      | 0 => Err (AutomaticTransitionLimitExceeded node_id)
      | S fuel =>
          node ← definition_node definition current;
          '(variables, rt, events, pushed) ← node_step node current scope variables rt;
          '(variables, rt, more) ← activation_loop fuel node_id variables rt (pushed ++ rest);
          Ok (variables, rt, events ++ more)
      end
  end.

Definition max_steps : nat :=
  N.to_nat (N.max (N.min (N.of_nat (size (wd_nodes definition)) * 4) usize_max) 1).

Definition activation_events (node_id : NodeId) (variables : Variables) (rt : RoutingState)
    (initial_scope_instance_id : option ScopeInstanceId)
    : result (Variables * RoutingState * list DomainEvent) :=
  activation_loop max_steps node_id variables rt [(node_id, initial_scope_instance_id)].
End activation.
