(* ===== verification/Cases.v ===== *)
(** * CMMN cases

    [activate_case] and [evaluate_case_sentries] of [workflow.rs]: activation
    of a case model's stages and milestones, and one round of sentry
    evaluation with the plan-item transitions it fires. *)

From S2P Require Import Prelude Types Expr Coverage Config WorkflowDef Routing Evolve.
From stdpp Require Import options.

Abbreviation Projection := (gmap PlanItemId CasePlanItemState) (only parsing).

Section cases.
Context (definition : WorkflowDefinition) (state : InstanceState) (case_id : CaseId) (at_ms : N).

Definition activate_case (case_model_id : CaseModelId) : result (list DomainEvent) :=
  bail_if (is_some (st_active_cases state !! case_id)) (CaseAlreadyActivated case_id);;
  model ← case_model definition case_model_id;
  Ok (CaseActivated case_id case_model_id (cs_id <$> cd_stages model)
        (cm_id <$> cd_milestones model) at_ms ::
      ((λ stage, CasePlanItemTransitioned case_id (cs_id stage) Stage Item_Active [] at_ms) <$>
        List.filter (λ stage, is_empty (cs_entry_sentry_ids stage)) (cd_stages model))).

Definition any_sentry_satisfied (ids : list SentryId) (satisfied : gset SentryId) : bool :=
  existsb (λ id, bool_decide (id ∈ satisfied)) ids.

(** The transition pushed and the projection after it. *)
Definition push_case_transition (acc : Projection * list DomainEvent) (plan_item_id : PlanItemId)
    (kind : CasePlanItemKind) (status : CasePlanItemStatus) (governing_sentries : list SentryId)
    (satisfied : gset SentryId) : Projection * list DomainEvent :=
  (<[plan_item_id:=mkPlanItem kind status]> acc.1,
   acc.2 ++ [CasePlanItemTransitioned case_id plan_item_id kind status
               (List.filter (λ id, bool_decide (id ∈ satisfied)) governing_sentries) at_ms]).

(** The loop over the sentries. *)
Definition fire_sentries (variables : Variables) (sentries : list CaseSentryDefinition)
    (satisfied : gset SentryId) : result (gset SentryId * list DomainEvent) :=
  for_each (λ '(satisfied, events) sentry,
    fires ← (if bool_decide (se_id sentry ∈ satisfied) then Ok false
             else expression_evaluate (se_condition sentry) variables);
    if (fires : bool) then
      Ok ({[se_id sentry]} ∪ satisfied,
          events ++ [CaseSentrySatisfied case_id (se_id sentry) at_ms])
    else Ok (satisfied, events)) sentries (satisfied, []).

(** One turn of the loop over the stages. *)
Definition stage_step (satisfied : gset SentryId) (acc : Projection * list DomainEvent)
    (stage : CaseStageDefinition) : result (Projection * list DomainEvent) :=
  current ← ok_or (pi_status <$> acc.1 !! cs_id stage) (UnknownCasePlanItem (cs_id stage));
  let acc :=
    if bool_decide (current = Item_Available) &&
       any_sentry_satisfied (cs_entry_sentry_ids stage) satisfied
    then push_case_transition acc (cs_id stage) Stage Item_Active
           (cs_entry_sentry_ids stage) satisfied
    else acc in
  Ok (if bool_decide (pi_status <$> acc.1 !! cs_id stage = Some Item_Active) &&
         negb (is_empty (cs_exit_sentry_ids stage)) &&
         any_sentry_satisfied (cs_exit_sentry_ids stage) satisfied
      then push_case_transition acc (cs_id stage) Stage Item_Completed
             (cs_exit_sentry_ids stage) satisfied
      else acc).

(** One turn of the loop over the milestones. *)
Definition milestone_step (satisfied : gset SentryId) (acc : Projection * list DomainEvent)
    (milestone : CaseMilestoneDefinition) : result (Projection * list DomainEvent) :=
  current ← ok_or (pi_status <$> acc.1 !! cm_id milestone) (UnknownCasePlanItem (cm_id milestone));
  Ok (if bool_decide (current = Item_Available) &&
         negb (is_empty (cm_entry_sentry_ids milestone)) &&
         any_sentry_satisfied (cm_entry_sentry_ids milestone) satisfied
      then push_case_transition acc (cm_id milestone) Milestone Item_Completed
             (cm_entry_sentry_ids milestone) satisfied
      else acc).

Definition all_completed (projected : Projection) : bool :=
  negb (map_is_empty projected) &&
  forallb (λ item, bool_decide (pi_status item = Item_Completed)) (btree_values projected).

Definition evaluate_case_sentries (facts : Variables) : result (list DomainEvent) :=
  active ← ok_or (st_active_cases state !! case_id) (CaseNotActive case_id);
  bail_if (bool_decide (ac_lifecycle active = Case_Completed)) (CaseAlreadyCompleted case_id);;
  model ← case_model definition (ac_model_id active);
  let variables := state_variables_with_context state facts in
  '(satisfied, events) ← fire_sentries variables (cd_sentries model) (ac_satisfied_sentries active);
  bail_if (is_empty events) (NoCaseSentrySatisfied case_id);;
  '(projected, events) ← for_each (stage_step satisfied) (cd_stages model)
                           (ac_plan_items active, events);
  '(projected, events) ← for_each (milestone_step satisfied) (cd_milestones model)
                           (projected, events);
  Ok (events ++ if all_completed projected then [CaseCompleted case_id at_ms] else []).
End cases.
