(* ===== verification/Decide.v ===== *)
(** * Decisions

    [decide] of [workflow.rs], one definition per command arm. A decision
    reads the definition, the state, the command and the context, and returns
    the events to append or a [DomainError]; it changes nothing itself. *)

From S2P Require Import Prelude Types Expr Coverage Config WorkflowDef Routing Evolve Activation.
From S2P Require Import Cases.
From stdpp Require Import options.

Record DecisionContext := mkContext {
  dc_configuration : ResolvedConfigSnapshot;
  dc_variables : Variables;
}.

Section decide.
Context (definition : WorkflowDefinition) (state : InstanceState) (context : DecisionContext).

Definition routing_variables : Variables :=
  state_variables_with_context state (dc_variables context).

(** The tail every arm ends with: the events of activating [node_id]. *)
Definition activate (at_ms : N) (node_id : NodeId) (variables : Variables) (rt : RoutingState)
    (scope : option ScopeInstanceId) : result (list DomainEvent) :=
  '(_, _, events) ←
    activation_events definition (dc_configuration context) at_ms node_id variables rt scope;
  Ok events.

Definition decide_start (tenant_id : TenantId) (at_ms : N) : result (list DomainEvent) :=
  bail_if (bool_decide (tenant_id ≠ wd_tenant_id definition))
    (TenantMismatch (wd_tenant_id definition) tenant_id);;
  start ← definition_node definition (wd_start_node definition);
  match start with
  | Node_Start next =>
      events ← activate at_ms next routing_variables (RoutingState_from state) None;
      Ok (WorkflowStarted tenant_id (wd_workflow_type definition)
            (wd_workflow_version definition) (wd_start_node definition) at_ms :: events)
  | _ => Err (InvalidStartNode (wd_start_node definition))
  end.

(** [state.active_tokens.get(node_id).copied().unwrap_or_default() > 0] *)
Definition has_token (node_id : NodeId) : bool :=
  (0 <? default 0 (st_active_tokens state !! node_id))%N.

(** The part the three task completions share after their own checks. *)
Definition complete_and_continue (node_id next : NodeId) (completed : DomainEvent)
    (variables : Variables) (at_ms : N) : result (list DomainEvent) :=
  rt ← complete_task (RoutingState_from state) node_id;
  let '(rt, disarmed) := disarm_boundary_events at_ms node_id rt in
  scope ← active_scope_for_node definition state node_id;
  events ← activate at_ms next variables rt scope;
  Ok ((completed :: disarmed) ++ events).

Definition decide_service_task (node_id : NodeId) (outputs : Variables) (at_ms : N)
    : result (list DomainEvent) :=
  node ← definition_node definition node_id;
  match node with
  | Node_ServiceTask _ next | Node_CallActivity _ _ next =>
      complete_and_continue node_id next (ServiceTaskCompleted node_id outputs at_ms)
        routing_variables at_ms
  | _ => Err (NodeIsNotServiceTask node_id)
  end.

Definition decide_user_task (node_id : NodeId) (decision : string) (at_ms : N)
    : result (list DomainEvent) :=
  node ← definition_node definition node_id;
  match node with
  | Node_UserTask _ _ _ result_variable next =>
      bail_if (is_blank decision) (InvalidUserTaskDecision node_id);;
      complete_and_continue node_id next
        (UserTaskCompleted node_id decision result_variable at_ms)
        (<[result_variable:=VString decision]> routing_variables) at_ms
  | _ => Err (NodeIsNotUserTask node_id)
  end.

Definition decide_script_task (node_id : NodeId) (at_ms : N) : result (list DomainEvent) :=
  node ← definition_node definition node_id;
  match node with
  | Node_ScriptTask _ _ _ next =>
      complete_and_continue node_id next (ScriptTaskCompleted node_id at_ms)
        routing_variables at_ms
  | _ => Err (NodeIsNotScriptTask node_id)
  end.

(** ** Multi-instance iterations *)
Definition evaluate_multi_instance_completion (node_id : NodeId) (spec : MultiInstanceDefinition)
    (rt : RoutingState) : result bool :=
  match mi_completion_condition spec with
  | None => Ok false
  | Some condition =>
      active ← ok_or (rt_active_multi_instances rt !! node_id) (MultiInstanceNotActive node_id);
      active_count ← ok_or (i64_of_usize (size (am_active_iterations active)))
        (TokenCountOverflow node_id);
      completed_count ← ok_or (i64_of_usize (size (am_completed_iterations active)))
        (TokenCountOverflow node_id);
      expression_evaluate condition
        (<["nrOfTerminatedInstances":=VInteger 0]>
        (<["nrOfCompletedInstances":=VInteger completed_count]>
        (<["nrOfActiveInstances":=VInteger active_count]>
        (<["nrOfInstances":=VInteger (Z.of_N (am_total_instances active))]>
           routing_variables))))
  end.

Definition activity_next (node : Node) : option NodeId :=
  match node with
  | Node_ServiceTask _ next | Node_UserTask _ _ _ _ next | Node_ScriptTask _ _ _ next
  | Node_CallActivity _ _ next => Some next
  | _ => None
  end.

(** The branch taken when the loop is over. *)
Definition finish_iterations (node_id next : NodeId) (condition_satisfied : bool)
    (rt : RoutingState) (at_ms : N) : result (list DomainEvent) :=
  let cancelled_iterations :=
    if condition_satisfied then
      match rt_active_multi_instances rt !! node_id with
      | Some active => u32_set_iter (am_active_iterations active)
      | None => []
      end
    else [] in
  let rt := finish_multi_instance rt node_id in
  let '(rt, disarmed) := disarm_boundary_events at_ms node_id rt in
  scope ← active_scope_for_node definition state node_id;
  events ← activate at_ms next routing_variables rt scope;
  Ok ((MultiInstanceCompleted node_id condition_satisfied cancelled_iterations at_ms :: disarmed)
        ++ events).

(** The branch taken otherwise: the next iteration takes the free slot. *)
Definition continue_iterations (node_id : NodeId) (rt : RoutingState) (at_ms : N)
    : result (list DomainEvent) :=
  active ← ok_or (rt_active_multi_instances rt !! node_id) (MultiInstanceNotActive node_id);
  if (am_next_iteration active <? am_total_instances active)%N then
    '(_, (iteration, task_type, item)) ← activate_next_multi_instance rt node_id;
    Ok [MultiInstanceIterationActivated node_id task_type iteration item at_ms]
  else Ok [].

Definition complete_multi_instance_iteration (node_id : NodeId) (iteration : N) (at_ms : N)
    : result (list DomainEvent) :=
  node ← definition_node definition node_id;
  next ← ok_or (activity_next node) (NodeIsNotMultiInstanceActivity node_id);
  active ← ok_or (st_active_multi_instances state !! node_id) (MultiInstanceNotActive node_id);
  bail_if (bool_decide (iteration ∉ am_active_iterations active))
    (MultiInstanceIterationNotActive node_id iteration);;
  '(rt, completed) ← routing_complete_iteration (RoutingState_from state) node_id iteration;
  spec ← ok_or (multi_instance_spec definition node_id) (MultiInstanceNotActive node_id);
  condition_satisfied ← (if (completed : bool) then Ok false
                         else evaluate_multi_instance_completion node_id spec rt);
  events ← (if completed || condition_satisfied
            then finish_iterations node_id next condition_satisfied rt at_ms
            else continue_iterations node_id rt at_ms);
  Ok (MultiInstanceIterationCompleted node_id iteration at_ms :: events).

(** ** Boundary events *)
Definition find_scope (owner : NodeId) : option ActiveExecutionScope :=
  List.find (λ scope, bool_decide (as_scope_node_id scope = owner))
    (btree_values (st_active_scopes state)).

Definition is_user_task (node : Node) : bool :=
  match node with Node_UserTask _ _ _ _ _ => true | _ => false end.

Definition trigger_boundary_event (boundary_event_id : NodeId) (at_ms : N)
    : result (list DomainEvent) :=
  subscription ← ok_or (st_active_boundary_subscriptions state !! boundary_event_id)
    (BoundaryEventNotArmed boundary_event_id);
  let owner := ab_attached_node_id subscription in
  boundary ← ok_or (snd <$> boundary_event definition boundary_event_id)
    (UnknownBoundaryEvent boundary_event_id);
  bail_if (bool_decide (be_target boundary ≠ ab_target_node_id subscription)
           || bool_decide (be_cancel_activity boundary ≠ ab_cancel_activity subscription)
           || bool_decide (be_trigger boundary ≠ ab_trigger subscription))
    (BoundarySubscriptionDefinitionMismatch boundary_event_id);;
  let normal_tokens := default 0%N (st_active_tokens state !! owner) in
  let multi_instance := st_active_multi_instances state !! owner in
  let active_scope := find_scope owner in
  bail_if ((normal_tokens =? 0)%N && negb (is_some multi_instance) && negb (is_some active_scope))
    (BoundaryOwnerNotActive owner);;
  bail_if (be_cancel_activity boundary && is_some active_scope)
    (InterruptingScopeBoundaryUnsupported owner);;
  let cancelled_iterations :=
    if be_cancel_activity boundary then
      match multi_instance with
      | Some active => u32_set_iter (am_active_iterations active)
      | None => []
      end
    else [] in
  let cancelled_task_tokens :=
    if be_cancel_activity boundary && (0 <? normal_tokens)%N then 1%N else 0%N in
  cancelled_user_task ←
    (if be_cancel_activity boundary then
       node ← definition_node definition owner;
       Ok (if is_user_task node
           then [UserTaskCancelled owner ("boundary:" +:+ be_id boundary) at_ms] else [])
     else Ok []);
  rt ← (if be_cancel_activity boundary
        then cancel_activity (RoutingState_from state) owner cancelled_task_tokens
        else Ok (RoutingState_from state));
  scope ← active_scope_for_node definition state owner;
  events ← activate at_ms (be_target boundary) routing_variables rt scope;
  Ok ((BoundaryEventTriggered (be_id boundary) owner (be_target boundary)
         (be_cancel_activity boundary) cancelled_iterations cancelled_task_tokens at_ms
       :: cancelled_user_task) ++ events).

(** ** The dispatch on command and lifecycle *)

(** The answer to a command that needs an active instance. *)
Definition when_active (arm : result (list DomainEvent)) : result (list DomainEvent) :=
  match st_lifecycle state with
  | Life_Active _ => arm
  | Life_Initial => Err NotStarted
  | Life_Completed => Err AlreadyCompleted
  | Life_TerminatedForCompliance => Err TerminatedForCompliance
  end.

Definition decide_events (command : Command) : result (list DomainEvent) :=
  match command with
  | ActivateCase case_id case_model_id at_ms =>
      activate_case definition state case_id at_ms case_model_id
  | EvaluateCaseSentries case_id at_ms =>
      evaluate_case_sentries definition state case_id at_ms (dc_variables context)
  | StartWorkflow tenant_id at_ms =>
      match st_lifecycle state with
      | Life_Initial => decide_start tenant_id at_ms
      | _ => Err AlreadyStarted
      end
  | CompleteServiceTask node_id outputs at_ms =>
      when_active (if has_token node_id then decide_service_task node_id outputs at_ms
                   else Err (TaskNotActive node_id))
  | CompleteUserTask node_id decision at_ms =>
      when_active (if has_token node_id then decide_user_task node_id decision at_ms
                   else Err (TaskNotActive node_id))
  | CompleteScriptTask node_id at_ms =>
      when_active (if has_token node_id then decide_script_task node_id at_ms
                   else Err (TaskNotActive node_id))
  | CompleteMultiInstanceIteration node_id iteration at_ms =>
      when_active (complete_multi_instance_iteration node_id iteration at_ms)
  | TriggerBoundaryEvent boundary_event_id at_ms =>
      when_active (trigger_boundary_event boundary_event_id at_ms)
  end.

Definition check_event_limit (events : list DomainEvent) : result unit :=
  let limit := en_max_events_per_decision (rc_engine (dc_configuration context)) in
  event_count ← ok_or (u32_of_usize (length events)) (DecisionLimitExceeded u32_max limit);
  bail_if (limit <? event_count)%N (DecisionLimitExceeded event_count limit).
End decide.

(** The name of the source, kept apart from [stdpp]'s [decide]. *)
Module Workflow.
Definition decide (definition : WorkflowDefinition) (state : InstanceState)
    (context : DecisionContext) (command : Command) : result (list DomainEvent) :=
  events ← decide_events definition state context command;
  check_event_limit context events;;
  Ok events.
End Workflow.
