(* ===== verification/Simulation.v ===== *)
(** * Replaying a decision

    The activation loop works on a [RoutingState] while it emits events; the
    store keeps only the events. These lemmas show that replaying the emitted
    events with [evolve] gives the routing state the loop ended with, step by
    step and for the whole loop. *)

From S2P Require Import Prelude Types Expr Coverage Config WorkflowDef Routing Evolve Activation.
From stdpp Require Import options.

(** Splits a successful [for_each]/bind chain and the tuples it returns. *)
Ltac inv_step H :=
  inv_res H; repeat (match goal with
  | p : _ * _ |- _ => destruct p
  | _ => progress simplify_eq/=
  end; try inv_res H).

Section replay.
Context (d : WorkflowDefinition) (cfg : ResolvedConfigSnapshot) (at_ms : N).

Lemma activate_iteration_replay k rt evs rt' evs' :
  activate_iteration at_ms k (rt, evs) = Ok (rt', evs') →
  ∃ e, evs' = evs ++ [e] ∧ evolve_routing rt e = rt'.
Proof.
  unfold activate_iteration. intros H. inv_step H. eexists. split; [done|].
  by apply activate_next_replay.
Qed.

Lemma start_multi_instance_replay k tt spec vars rt b rt' evs :
  start_multi_instance cfg at_ms k tt spec vars rt = Ok (b, rt', evs) → replays rt evs rt'.
Proof.
  unfold start_multi_instance, routing_start_multi_instance. intros H. inv_res H.
  destruct (_ =? 0)%N.
  - inv_res H. simplify_eq. by unfold replays.
  - apply bind_Ok in H as ([rt2 evs2] & Hloop & [= <- <- <-]).
    change (replays rt (rt2, evs2).2 (rt2, evs2).1).
    eapply (for_each_inv _ (λ _ acc, replays rt acc.2 acc.1)); [done|done|].
    intros _ [] [rt3 evs3] [rt4 evs4] Hrep _ (e & -> & He)%activate_iteration_replay. simpl in *.
    eapply replays_app; [done|by apply replays_one].
Qed.

Lemma arm_boundary_events_replay k rt rt' evs :
  arm_boundary_events d at_ms k rt = Ok (rt', evs) → replays rt evs rt'.
Proof.
  unfold arm_boundary_events. intros H.
  change (replays rt (rt', evs).2 (rt', evs).1).
  eapply (for_each_inv _ (λ _ acc, replays rt acc.2 acc.1)); [done|done|].
  intros _ b [rt1 evs1] [rt2 evs2] Hrep _ Hf. unfold arm_boundary in Hf. simpl in *. inv_res Hf.
  simplify_eq/=. eapply replays_app; [done|by apply replays_one].
Qed.

Lemma disarm_boundary_events_replay k rt rt' evs :
  disarm_boundary_events at_ms k rt = (rt', evs) → replays rt evs rt'.
Proof.
  unfold disarm_boundary_events, disarm_boundaries. intros [= <- <-].
  destruct (armed_for _ k) eqn:Ha; simpl; [|by unfold replays].
  by destruct rt.
Qed.

Lemma activate_activity_replay cur scope tt next e vars rt vars' rt' evs pushed :
  (∀ rt, evolve_routing rt e = set_tokens rt (<[cur:=saturating_add u32_max
     (default 0%N (rt_active_tokens rt !! cur)) 1]> (rt_active_tokens rt))) →
  activate_activity d cfg at_ms cur scope tt next e vars rt = Ok (vars', rt', evs, pushed) →
  replays rt evs rt'.
Proof.
  intros He. unfold activate_activity. destruct (multi_instance_spec d cur) as [spec|]; intros H.
  - apply bind_Ok in H as ([[b rt1] evs1] & Hs & H).
    apply start_multi_instance_replay in Hs. destruct b; inv_step H; [done|].
    eapply replays_app; [done|]. by eapply arm_boundary_events_replay.
  - inv_step H. apply activate_task_replay in Hv as ->. eapply replays_cons; [apply He|].
    by eapply arm_boundary_events_replay.
Qed.

Lemma split_into_replay cur scope targets join vars rt vars' rt' evs pushed :
  split_into at_ms cur scope targets join vars rt = Ok (vars', rt', evs, pushed) →
  replays rt evs rt'.
Proof.
  unfold split_into. intros H. inv_step H. by apply open_join_replay in Hv as ->.
Qed.

Lemma step_join_replay cur scope next vars rt vars' rt' evs pushed :
  step_join at_ms cur scope next vars rt = Ok (vars', rt', evs, pushed) → replays rt evs rt'.
Proof.
  unfold step_join. intros H. apply bind_Ok in H as ([rt1 b] & Ha%arrive_replay & H). subst rt1.
  destruct b; inv_step H; by unfold replays.
Qed.

(** One step: replaying its events gives its routing state. *)
Lemma node_step_replay node cur scope vars rt vars' rt' evs pushed :
  node_step d cfg at_ms node cur scope vars rt = Ok (vars', rt', evs, pushed) →
  replays rt evs rt'.
Proof.
  destruct node; simpl; intros H.
  - unfold step_start in H. by inv_step H.
  - by eapply activate_activity_replay; [|done].
  - by eapply activate_activity_replay; [|done].
  - by eapply activate_activity_replay; [|done].
  - unfold step_decision_task in H. by inv_step H.
  - unfold step_call_activity in H. destruct (identifier_new _ _); [|done..].
    by eapply activate_activity_replay; [|done].
  - unfold step_sub_process in H. inv_step H.
    eapply replays_cons; [by eapply enter_scope_replay|]. by eapply arm_boundary_events_replay.
  - unfold step_exclusive_gateway in H. by inv_step H.
  - by eapply split_into_replay.
  - by eapply step_join_replay.
  - unfold step_inclusive_split in H. inv_res H. by eapply split_into_replay.
  - by eapply step_join_replay.
  - unfold step_end in H. destruct (owner_scope_id d cur) as [owner|].
    + apply bind_Ok in H as (inst & _ & H). apply bind_Ok in H as ([rt1 sc] & Hc & H).
      destruct (disarm_boundary_events _ _ _) as [rt2 disarmed] eqn:Hd. inv_step H.
      eapply replays_cons; [by eapply complete_scope_replay|].
      by eapply disarm_boundary_events_replay.
    + destruct (has_outstanding_work rt) eqn:Hw; simplify_eq; [done|].
      by apply no_outstanding_work.
Qed.

(** The loop: replaying all its events gives its final routing state. *)
Lemma activation_loop_replay fuel start vars rt pending vars' rt' evs :
  activation_loop d cfg at_ms fuel start vars rt pending = Ok (vars', rt', evs) →
  replays rt evs rt'.
Proof.
  revert vars rt pending evs. induction fuel as [|fuel IH];
    intros vars rt [|[cur scope] rest] evs H; simpl in H; simplify_eq; [done..|].
  apply bind_Ok in H as (node & _ & H).
  apply bind_Ok in H as ([[[vars1 rt1] evs1] pushed] & Hstep%node_step_replay & H).
  apply bind_Ok in H as ([[vars2 rt2] evs2] & Hloop & [= <- <- <-]).
  eapply replays_app; eauto.
Qed.
End replay.
