(* ===== verification/MultiInstance.v ===== *)
(** * Multi-instance loops

    The invariant of [ActiveMultiInstance] and its preservation by the
    operations that start a loop, activate an iteration and complete one. *)

From S2P Require Import Prelude Types Expr Coverage Config WorkflowDef Routing Evolve Activation.
From stdpp Require Import options.

(** The iterations already handed out. *)
Definition below (n : N) : gset N := list_to_set (N.of_nat <$> seq 0 (N.to_nat n)).

Lemma elem_of_below i n : i ∈ below n ↔ (i < n)%N.
Proof.
  unfold below. rewrite elem_of_list_to_set, list_elem_of_fmap. split.
  - intros (j & -> & [_ Hj]%elem_of_seq). lia.
  - intros Hi. exists (N.to_nat i). rewrite elem_of_seq. lia.
Qed.

Lemma size_below n : size (below n) = N.to_nat n.
Proof.
  unfold below. rewrite size_list_to_set, length_fmap, length_seq; [done|].
  apply NoDup_fmap_2; [apply _|apply NoDup_seq].
Qed.

Record mi_core (a : ActiveMultiInstance) : Prop := {
  mc_total : (am_next_iteration a ≤ am_total_instances a ≤ u32_max)%N;
  mc_cover : am_active_iterations a ∪ am_completed_iterations a = below (am_next_iteration a);
  mc_disjoint : am_active_iterations a ## am_completed_iterations a;
  mc_slots : (N.of_nat (size (am_active_iterations a)) ≤ am_max_parallelism a)%N;
  mc_parallelism : (0 < am_max_parallelism a)%N;
}.

(** Between decisions, in addition: no slot stays free while iterations are
    left, and some iteration is running. *)
Record mi_rest (a : ActiveMultiInstance) : Prop := {
  mr_core : mi_core a;
  mr_replenished : (am_next_iteration a < am_total_instances a)%N →
    N.of_nat (size (am_active_iterations a)) = am_max_parallelism a;
  mr_running : am_active_iterations a ≠ ∅;
}.

Lemma mi_core_size a :
  mi_core a →
  size (am_active_iterations a) + size (am_completed_iterations a) = N.to_nat (am_next_iteration a).
Proof. intros [_ Hc Hd _ _]. by rewrite <-size_union, Hc, size_below. Qed.

Definition mi_activated (a : ActiveMultiInstance) : ActiveMultiInstance :=
  mi_set_iterations a (am_next_iteration a + 1)
    ({[am_next_iteration a]} ∪ am_active_iterations a) (am_completed_iterations a).

Definition mi_completed (a : ActiveMultiInstance) (i : N) : ActiveMultiInstance :=
  mi_set_iterations a (am_next_iteration a) (am_active_iterations a ∖ {[i]})
    ({[i]} ∪ am_completed_iterations a).

(** [activate_next_multi_instance] succeeds exactly when an iteration is left
    and a slot is free. *)
Lemma activate_next_spec rt k a :
  rt_active_multi_instances rt !! k = Some a →
  (am_total_instances a ≤ u32_max)%N →
  (am_next_iteration a < am_total_instances a)%N →
  (N.of_nat (size (am_active_iterations a)) < am_max_parallelism a)%N →
  activate_next_multi_instance rt k = Ok
    (set_multi_instances rt (<[k:=mi_activated a]> (rt_active_multi_instances rt)),
     (am_next_iteration a, am_task_type a, am_items a !! N.to_nat (am_next_iteration a))).
Proof.
  intros Ha Ht Hn Hs. unfold activate_next_multi_instance. rewrite Ha. simpl.
  replace (_ || _) with false by lia. simpl.
  assert (checked_add u32_max (am_next_iteration a) 1 = Some (am_next_iteration a + 1)%N) as ->.
  { apply checked_add_Some. lia. }
  done.
Qed.

Lemma activate_next_inv rt k rt' r :
  activate_next_multi_instance rt k = Ok (rt', r) →
  ∃ a, rt_active_multi_instances rt !! k = Some a ∧
    (am_next_iteration a < am_total_instances a)%N ∧
    (N.of_nat (size (am_active_iterations a)) < am_max_parallelism a)%N ∧
    rt' = set_multi_instances rt (<[k:=mi_activated a]> (rt_active_multi_instances rt)).
Proof.
  unfold activate_next_multi_instance. intros H. inv_res H.
  apply orb_false_iff in Hv0 as [??]. exists v. apply checked_add_Some in Hv1 as [-> _].
  split_and!; [done|lia|lia|done].
Qed.

Lemma mi_activated_core a :
  mi_core a → (am_next_iteration a < am_total_instances a)%N →
  (N.of_nat (size (am_active_iterations a)) < am_max_parallelism a)%N →
  mi_core (mi_activated a) ∧
  size (am_active_iterations (mi_activated a)) = S (size (am_active_iterations a)).
Proof.
  intros [Ht Hc Hd Hs Hp] Hn Hfree.
  assert (am_next_iteration a ∉ am_active_iterations a ∪ am_completed_iterations a) as Hnew.
  { rewrite Hc, elem_of_below. lia. }
  assert (size ({[am_next_iteration a]} ∪ am_active_iterations a) =
    S (size (am_active_iterations a))) as Hsz.
  { rewrite size_union by set_solver. by rewrite size_singleton. }
  split; [|done]. split; simpl; [lia| |set_solver|rewrite Hsz; lia|done].
  rewrite <-(assoc_L (∪)), Hc. apply set_eq. intros i.
  rewrite elem_of_union, elem_of_singleton, !elem_of_below. lia.
Qed.

Lemma mi_completed_core a i :
  mi_core a → i ∈ am_active_iterations a →
  mi_core (mi_completed a i) ∧
  S (size (am_active_iterations (mi_completed a i))) = size (am_active_iterations a).
Proof.
  intros [Ht Hc Hd Hs Hp] Hi.
  assert (S (size (am_active_iterations a ∖ {[i]})) = size (am_active_iterations a)) as Hsz.
  { assert (am_active_iterations a = {[i]} ∪ am_active_iterations a ∖ {[i]}) as Heq
      by (apply union_difference_L; set_solver).
    apply (f_equal size) in Heq. rewrite size_union, size_singleton in Heq by set_solver. done. }
  split; [|done]. split; simpl; [done| |set_solver|lia|done].
  rewrite <-Hc. apply set_eq. intros j. destruct (decide (i = j)); set_solver.
Qed.

(** ** Starting a loop *)
Section start.
Context (cfg : ResolvedConfigSnapshot) (at_ms : N) (k : NodeId).

Lemma activate_iterations_inv rt a n rt' evs evs' :
  rt_active_multi_instances rt !! k = Some a → mi_core a →
  for_each (λ acc _, activate_iteration at_ms k acc) (replicate n tt) (rt, evs) = Ok (rt', evs') →
  ∃ a', rt' = set_multi_instances rt (<[k:=a']> (rt_active_multi_instances rt)) ∧ mi_core a' ∧
    size (am_active_iterations a') = size (am_active_iterations a) + n ∧
    am_next_iteration a' = (am_next_iteration a + N.of_nat n)%N ∧
    am_total_instances a' = am_total_instances a ∧
    am_max_parallelism a' = am_max_parallelism a.
Proof.
  revert rt a evs. induction n as [|n IH]; intros rt a evs Ha Hc H; simpl in H.
  { simplify_eq. exists a. rewrite insert_id by done. destruct rt'; simpl.
    split_and!; [done..|lia|lia|done|done]. }
  apply bind_Ok in H as ([rt1 evs1] & H1 & H2). unfold activate_iteration in H1.
  apply bind_Ok in H1 as ([rt2 [[i tt] item]] & H1 & [= <- <-]). simpl in H1.
  apply activate_next_inv in H1 as (a0 & Ha0 & Hn & Hs & ->). simplify_eq.
  destruct (mi_activated_core a Hc Hn Hs) as [Hc' Hsz].
  eapply (IH _ (mi_activated a)) in H2 as (a' & -> & Hc2 & Hs2 & Hn2 & Ht2 & Hp2);
    [|by simpl; rewrite lookup_insert_eq|done].
  exists a'. simpl in *. rewrite insert_insert_eq. split_and!; [done..|lia|lia|done|done].
Qed.

(** The instance count fits [u32]; a collection gives one item per instance. *)
Lemma materialize_spec spec vars total items :
  materialize_multi_instance k spec vars = Ok (total, items) →
  (total ≤ u32_max)%N ∧
  (is_Some (mi_collection_expression spec) → N.of_nat (length items) = total).
Proof.
  unfold materialize_multi_instance. intros H.
  apply bind_Ok in H as (items' & Hi & H). apply bind_Ok in H as (count & Hc & H).
  apply ok_or_Ok, u32_of_usize_Some in Hc as [-> Hle].
  apply bind_Ok in H as (card & Hcard & H).
  apply bind_Ok in H as ([] & Hm & [= <- <-]).
  destruct card as [n|]; simpl; [|done].
  apply bail_if_Ok in Hm. split.
  - destruct (mi_cardinality_expression spec); [|done]. apply bind_Ok in Hcard as (n' & Hn & [= ->]).
    unfold resolve_cardinality, u32_of_i64 in Hn. inv_res Hn.
    apply if_Some_iff in Hn as [? <-]. lia.
  - intros Hs. rewrite <-is_some_true in Hs. rewrite Hs in Hm. simpl in Hm. lia.
Qed.

Lemma mi_parallelism_bounds spec total :
  (0 < en_default_multi_instance_parallelism (rc_engine cfg))%N →
  mi_max_parallelism spec ≠ Some 0%N →
  (0 < mi_parallelism cfg spec total ≤ N.max total 1)%N.
Proof.
  intros Hd Hs. unfold mi_parallelism. destruct (mi_mode spec); [lia|].
  destruct (mi_max_parallelism spec) as [p|]; simpl; [|lia].
  assert (p ≠ 0)%N by congruence. lia.
Qed.

(** A started loop is either over at once (no instances, nothing changed) or
    running with every slot in use. *)
Lemma start_multi_instance_inv task_type spec vars rt b rt' evs :
  (0 < en_default_multi_instance_parallelism (rc_engine cfg))%N →
  mi_max_parallelism spec ≠ Some 0%N →
  start_multi_instance cfg at_ms k task_type spec vars rt = Ok (b, rt', evs) →
  rt_active_multi_instances rt !! k = None ∧
  if b then rt' = rt
  else ∃ a, rt' = set_multi_instances rt (<[k:=a]> (rt_active_multi_instances rt)) ∧ mi_rest a.
Proof.
  intros Hd Hs. unfold start_multi_instance, routing_start_multi_instance. intros H.
  apply bind_Ok in H as ([total items] & Hm & H). apply materialize_spec in Hm as [Ht _].
  pose proof (mi_parallelism_bounds spec total Hd Hs) as Hp.
  inv_res H. rewrite is_some_false in Hv1. split; [done|].
  destruct (N.eqb_spec total 0) as [->|Hne]; inv_res H; simplify_eq/=.
  - unfold finish_multi_instance, set_multi_instances. destruct rt; simpl in *.
    by rewrite delete_insert_id.
  - eapply activate_iterations_inv in Hv0 as (a & -> & Hc & Hsz & Hn & Htot & Hmp);
      [|by simpl; rewrite lookup_insert_eq|].
    + cbn [am_active_iterations am_next_iteration am_total_instances am_max_parallelism] in *.
      rewrite size_empty in Hsz. exists a. simpl. rewrite insert_insert_eq. split; [done|].
      split; [done| |].
      * rewrite Hmp, Hsz. lia.
      * intros Hnil. rewrite Hnil, size_empty in Hsz. lia.
    + split; cbn [am_active_iterations am_completed_iterations am_next_iteration
        am_total_instances am_max_parallelism]; [lia| |set_solver|rewrite size_empty; lia|lia].
      apply set_eq. intros i. rewrite elem_of_below. set_solver by lia.
Qed.

(** Completing an iteration. *)
Lemma complete_iteration_inv rt i rt' b :
  routing_complete_iteration rt k i = Ok (rt', b) →
  ∃ a, rt_active_multi_instances rt !! k = Some a ∧ i ∈ am_active_iterations a ∧
    rt' = set_multi_instances rt (<[k:=mi_completed a i]> (rt_active_multi_instances rt)) ∧
    b = (N.of_nat (size (am_completed_iterations (mi_completed a i))) =? am_total_instances a)%N.
Proof.
  unfold routing_complete_iteration. intros H. inv_res H.
  apply bool_decide_eq_false, dec_stable in Hv0. simplify_eq. eauto.
Qed.
End start.
