(* ===== verification/Invariant.v ===== *)
(** * The routing invariant

    What holds of the routing part of every instance state of a validated
    definition: tokens sit on plain activities, pending joins still wait for a
    token, multi-instance loops satisfy [mi_rest], each scope node has at most
    one active scope, and a boundary event is armed exactly while the activity
    it is attached to is active. Every step of the activation loop preserves
    it. *)

From S2P Require Import Prelude Types Expr Coverage Config WorkflowDef Routing Text Evolve.
From S2P Require Import Activation MultiInstance.
From stdpp Require Import options.

Definition is_join (node : option Node) : bool :=
  match node with Some (Node_ParallelJoin _ _ | Node_InclusiveJoin _ _) => true | _ => false end.

(** The ids of sub-processes do not contain the separator of scope paths. *)
Definition plain_scopes (d : WorkflowDefinition) : Prop :=
  ∀ k, is_sub_process (wd_nodes d !! k) = true → plain_id k = true.

Definition config_ok (cfg : ResolvedConfigSnapshot) : Prop :=
  (0 < en_default_multi_instance_parallelism (rc_engine cfg))%N.

(** Some work is running at [k]: a token, a loop or a scope. *)
Definition owner_active (rt : RoutingState) (k : NodeId) : Prop :=
  is_Some (rt_active_tokens rt !! k) ∨ is_Some (rt_active_multi_instances rt !! k) ∨
  ∃ s sc, rt_active_scopes rt !! s = Some sc ∧ as_scope_node_id sc = k.

(** The subscription is the one its boundary event asks for. *)
Definition subscribes (sub : ActiveBoundarySubscription) (b : BoundaryEventDefinition) : Prop :=
  ab_target_node_id sub = be_target b ∧ ab_cancel_activity sub = be_cancel_activity b ∧
  ab_trigger sub = be_trigger b.

Section invariant.
Context (d : WorkflowDefinition).

Record core_inv (rt : RoutingState) : Prop := {
  inv_tokens k c :
    rt_active_tokens rt !! k = Some c →
    (0 < c ≤ u32_max)%N ∧ is_multi_instance_activity (wd_nodes d !! k) = true ∧
    multi_instance_spec d k = None;
  inv_joins k j :
    rt_pending_joins rt !! k = Some j →
    (pj_arrived_tokens j < pj_expected_tokens j ≤ u32_max)%N ∧ is_join (wd_nodes d !! k) = true;
  inv_loops k a :
    rt_active_multi_instances rt !! k = Some a →
    mi_rest a ∧ is_multi_instance_activity (wd_nodes d !! k) = true ∧
    is_Some (multi_instance_spec d k);
  inv_scopes s sc :
    rt_active_scopes rt !! s = Some sc →
    is_sub_process (wd_nodes d !! as_scope_node_id sc) = true ∧
    s = scope_identity (as_parent_scope_instance_id sc) (as_scope_node_id sc) (as_invocation sc) ∧
    (1 ≤ as_invocation sc ≤
       default 0 (rt_scope_invocation_counts rt !! as_scope_node_id sc))%N;
  inv_scope_unique s s' sc sc' :
    rt_active_scopes rt !! s = Some sc → rt_active_scopes rt !! s' = Some sc' →
    as_scope_node_id sc = as_scope_node_id sc' → s = s';
}.

Record boundary_inv (rt : RoutingState) : Prop := {
  inv_armed i sub :
    rt_active_boundary_subscriptions rt !! i = Some sub →
    owner_active rt (ab_attached_node_id sub) ∧
    ∃ b, b ∈ boundary_events d (ab_attached_node_id sub) ∧ be_id b = i ∧ subscribes sub b;
  inv_owner k b :
    owner_active rt k → b ∈ boundary_events d k →
    is_Some (rt_active_boundary_subscriptions rt !! be_id b);
  inv_single k c :
    rt_active_tokens rt !! k = Some c → boundary_events d k ≠ [] → c = 1%N;
}.

Definition routing_inv (rt : RoutingState) : Prop := core_inv rt ∧ boundary_inv rt.

(** ** Arming and disarming *)

(** What arming the boundary events of [k] adds to the subscriptions. *)
Lemma arm_boundary_events_spec at_ms k rt rt' evs :
  NoDup (be_id <$> boundary_events d k) →
  arm_boundary_events d at_ms k rt = Ok (rt', evs) →
  ∃ subs, rt' = set_subscriptions rt subs ∧
    (∀ b, b ∈ boundary_events d k → rt_active_boundary_subscriptions rt !! be_id b = None) ∧
    (∀ i s, subs !! i = Some s ↔ rt_active_boundary_subscriptions rt !! i = Some s ∨
       ∃ b, b ∈ boundary_events d k ∧ be_id b = i ∧ s = subscription_for at_ms k b).
Proof.
  intros Hnd Hrun. unfold arm_boundary_events in Hrun.
  eapply (for_each_inv _ (λ seen acc, ∃ subs, acc.1 = set_subscriptions rt subs ∧
    (∀ b, b ∈ seen → rt_active_boundary_subscriptions rt !! be_id b = None) ∧
    (∀ i s, subs !! i = Some s ↔ rt_active_boundary_subscriptions rt !! i = Some s ∨
       ∃ b, b ∈ seen ∧ be_id b = i ∧ s = subscription_for at_ms k b))) in Hrun; [exact Hrun| |].
  - exists (rt_active_boundary_subscriptions rt). destruct rt; simpl. set_solver.
  - clear rt' evs Hrun. intros seen b [rt1 evs1] [rt2 evs2] (subs & Hrt & Hnone & Hsubs) Hb Hf.
    simpl in *. subst rt1. unfold arm_boundary in Hf. inv_res Hf. simplify_eq/=.
    rewrite is_some_false in Hv0. eexists. split; [done|]. split.
    + intros b'. rewrite elem_of_app, list_elem_of_singleton. intros [?| ->]; [auto|].
      destruct (rt_active_boundary_subscriptions rt !! be_id b) as [s|] eqn:Hs; [|done].
      assert (subs !! be_id b = Some s) by (apply Hsubs; auto). congruence.
    + intros i s. rewrite lookup_insert. setoid_rewrite elem_of_app.
      setoid_rewrite list_elem_of_singleton. case_decide as Hi; [subst i|].
      * split; [intros [= <-]; naive_solver|]. intros Hs.
        assert (∀ s, subs !! be_id b ≠ Some s) as Hno by (intros ? ?; congruence).
        destruct Hs as [Hs|(b' & [Hs| ->] & Hid & ->)]; [| |done].
        -- destruct (Hno s). apply Hsubs. auto.
        -- destruct (Hno (subscription_for at_ms k b')). apply Hsubs. naive_solver.
      * rewrite Hsubs. naive_solver.
Qed.

(** Activating [k] and arming its boundary events keeps them in step. [rt1]
    is [rt] with the work at [k] added. *)
Lemma arm_boundary_inv at_ms k rt rt1 rt2 evs :
  definition_ok d → boundary_inv rt →
  rt_active_boundary_subscriptions rt1 = rt_active_boundary_subscriptions rt →
  (∀ k', owner_active rt1 k' ↔ owner_active rt k' ∨ k' = k) →
  (∀ k' c, rt_active_tokens rt1 !! k' = Some c →
     rt_active_tokens rt !! k' = Some c ∨ k' = k ∧ (owner_active rt k ∨ c = 1%N)) →
  arm_boundary_events d at_ms k rt1 = Ok (rt2, evs) → boundary_inv rt2.
Proof.
  intros Hok [Harm Hown Hsing] Hsub Hact Htok Hrun.
  apply arm_boundary_events_spec in Hrun as (subs & -> & Hnone & Hsubs);
    [|by apply ok_boundary_NoDup]. rewrite Hsub in Hnone, Hsubs.
  assert (owner_active rt k → boundary_events d k = []) as Hno.
  { intros Hk. destruct (boundary_events d k) as [|b bs] eqn:Hbs; [done|].
    destruct (Hown k b Hk) as [s Hs]; [rewrite Hbs; by left|].
    rewrite Hnone in Hs; [done|by left]. }
  split; simpl.
  - intros i sub [Hs|(b & Hb & <- & ->)]%Hsubs.
    + destruct (Harm i sub Hs) as [Ho Hb]. split; [apply Hact; by left|done].
    + split; [apply Hact; by right|]. exists b. split_and!; done.
  - intros k' b [Hk| ->]%Hact Hb.
    + destruct (Hown k' b Hk Hb) as [s Hs]. exists s. apply Hsubs. by left.
    + exists (subscription_for at_ms k b). apply Hsubs. right. eauto.
  - intros k' c Hc Hne. destruct (Htok k' c Hc) as [Hc'|[-> [Ho| ->]]]; [eauto| |done].
    by apply Hno in Ho.
Qed.

(** Ending the work at [k] and disarming its boundary events. *)
Lemma disarm_boundary_inv k rt rt1 :
  definition_ok d → boundary_inv rt →
  rt_active_boundary_subscriptions rt1 = rt_active_boundary_subscriptions rt →
  (∀ k', k' ≠ k → owner_active rt1 k' ↔ owner_active rt k') →
  (owner_active rt1 k → boundary_events d k = []) →
  (∀ k' c, rt_active_tokens rt1 !! k' = Some c →
     rt_active_tokens rt !! k' = Some c ∨ k' = k) →
  boundary_inv (disarm_boundaries rt1 k).1.
Proof.
  intros Hok [Harm Hown Hsing] Hsub Hact Hk Htok. rewrite disarm_boundaries_filter.
  assert (∀ k', owner_active (set_subscriptions rt1
    (filter (λ p, ab_attached_node_id p.2 ≠ k) (rt_active_boundary_subscriptions rt1))) k' ↔
    owner_active rt1 k') as Hsame by done.
  split; rewrite Hsub in *; simpl.
  - intros i sub [Hs Hne]%map_lookup_filter_Some. destruct (Harm i sub Hs) as [Ho Hb].
    split; [by apply Hsame, Hact|done].
  - intros k' b Ho Hb. destruct (decide (k' = k)) as [->|Hne].
    { apply Hk in Ho. rewrite Ho in Hb. set_solver. }
    apply Hact in Ho; [|done]. destruct (Hown k' b Ho Hb) as [s Hs].
    exists s. apply map_lookup_filter_Some. split; [done|]. simpl.
    destruct (Harm _ _ Hs) as [_ (b' & Hb' & Hid & _)]. intros Heq.
    rewrite Heq in Hb'. by destruct (ok_boundary_unique d Hok _ _ _ _ Hb Hb' (eq_sym Hid)).
  - intros k' c Hc Hne. destruct (Htok k' c Hc) as [Hc'| ->]; [eauto|].
    destruct Hne. apply Hk. left. eauto.
Qed.

(** ** Field updates and the parts of the invariant they leave alone *)
Lemma core_inv_set_subscriptions rt m : core_inv rt → core_inv (set_subscriptions rt m).
Proof. by intros []. Qed.

Lemma boundary_inv_set_joins rt m : boundary_inv rt → boundary_inv (set_joins rt m).
Proof. by intros []. Qed.

Lemma owner_active_set_token rt k c k' :
  owner_active (set_tokens rt (<[k:=c]> (rt_active_tokens rt))) k' ↔ owner_active rt k' ∨ k' = k.
Proof.
  unfold owner_active. simpl. rewrite lookup_insert_is_Some'. naive_solver.
Qed.

Lemma owner_active_set_loop rt k a k' :
  owner_active (set_multi_instances rt (<[k:=a]> (rt_active_multi_instances rt))) k' ↔
  owner_active rt k' ∨ k' = k.
Proof.
  unfold owner_active. simpl. rewrite lookup_insert_is_Some'. naive_solver.
Qed.

Lemma core_inv_set_token rt k c :
  core_inv rt → (0 < c ≤ u32_max)%N → is_multi_instance_activity (wd_nodes d !! k) = true →
  multi_instance_spec d k = None → core_inv (set_tokens rt (<[k:=c]> (rt_active_tokens rt))).
Proof.
  intros [Ht Hj Hm Hs Hu] Hc Hk Hmi. split; simpl; [|done..].
  intros k' c' [[-> ->]|[_ Hc']]%lookup_insert_Some; [done|by apply Ht].
Qed.

Lemma core_inv_set_loop rt k a :
  core_inv rt → mi_rest a → is_multi_instance_activity (wd_nodes d !! k) = true →
  is_Some (multi_instance_spec d k) →
  core_inv (set_multi_instances rt (<[k:=a]> (rt_active_multi_instances rt))).
Proof.
  intros [Ht Hj Hm Hs Hu] Ha Hk Hmi. split; simpl; [done|done| |done..].
  intros k' a' [[-> ->]|[_ Ha']]%lookup_insert_Some; [done|by apply Hm].
Qed.

Lemma core_inv_set_join rt k j :
  core_inv rt → (pj_arrived_tokens j < pj_expected_tokens j ≤ u32_max)%N →
  is_join (wd_nodes d !! k) = true →
  core_inv (set_joins rt (<[k:=j]> (rt_pending_joins rt))).
Proof.
  intros [Ht Hj Hm Hs Hu] Hc Hk. split; simpl; [done| |done..].
  intros k' j' [[-> ->]|[_ Hj']]%lookup_insert_Some; [done|by apply Hj].
Qed.

Lemma core_inv_close_join rt k : core_inv rt → core_inv (close_join rt k).
Proof.
  intros [Ht Hj Hm Hs Hu]. split; simpl; [done| |done..].
  intros k' j' [_ Hj']%lookup_delete_Some. by apply Hj.
Qed.

(** ** Activities *)
Lemma spec_parallelism k spec :
  definition_ok d → multi_instance_spec d k = Some spec → mi_max_parallelism spec ≠ Some 0%N.
Proof.
  unfold multi_instance_spec, node_execution_metadata. intros Hok Hspec.
  destruct (wd_node_metadata d !! k) as [m|] eqn:Hm; [|done]. simpl in Hspec.
  destruct (ok_metadata d Hok _ _ Hm) as (_ & Hv & _).
  unfold validate_node_metadata in Hv. inv_res Hv. rewrite Hspec in Hv. inv_res Hv.
  by apply bool_decide_eq_false in Hv.
Qed.

Lemma activate_activity_inv cfg at_ms cur scope tt next e vars rt vars' rt' evs pushed :
  definition_ok d → config_ok cfg →
  is_multi_instance_activity (wd_nodes d !! cur) = true →
  routing_inv rt →
  activate_activity d cfg at_ms cur scope tt next e vars rt = Ok (vars', rt', evs, pushed) →
  routing_inv rt'.
Proof.
  intros Hok Hcfg Hnode [Hcore Hbd] H. unfold activate_activity in H.
  destruct (multi_instance_spec d cur) as [spec|] eqn:Hspec.
  - apply bind_Ok in H as ([[b rt1] evs1] & Hs & H).
    apply start_multi_instance_inv in Hs as [Hnone Hs]; [|done|by eapply spec_parallelism].
    destruct b; [by inv_res H; simplify_eq|]. destruct Hs as (a & -> & Ha).
    apply bind_Ok in H as ([rt2 evs2] & Harm & [= <- <- <- <-]). split.
    + apply arm_boundary_events_spec in Harm as (subs & -> & _); [|by apply ok_boundary_NoDup].
      by apply core_inv_set_subscriptions, core_inv_set_loop.
    + eapply arm_boundary_inv, Harm; [done|exact Hbd|done|apply owner_active_set_loop|].
      intros k' c Hc. by left.
  - apply bind_Ok in H as (rt1 & Hs & H). apply activate_task_replay in Hs as Hrt. subst rt1.
    unfold activate_task in Hs. apply bind_Ok in Hs as (c & Hc & _).
    apply ok_or_Ok in Hc. pose proof (saturating_add_checked _ _ _ _ Hc) as Hsat.
    rewrite Hsat in H. apply checked_add_Some in Hc as [Hc Hmax].
    apply bind_Ok in H as ([rt2 evs2] & Harm & [= <- <- <- <-]). split.
    + apply arm_boundary_events_spec in Harm as (subs & -> & _); [|by apply ok_boundary_NoDup].
      apply core_inv_set_subscriptions, core_inv_set_token; [done|lia|done|done].
    + eapply arm_boundary_inv, Harm; [done|exact Hbd|done|apply owner_active_set_token|].
      intros k' c'. simpl. intros [[<- <-]|[_ Hc']]%lookup_insert_Some; [right|by left].
      split; [done|]. unfold owner_active.
      destruct (rt_active_tokens rt !! cur) eqn:Ht; simpl in *; [eauto|right; lia].
Qed.

(** ** Gateways *)
Lemma open_join_inv rt k n rt' :
  routing_inv rt → 0 < n → is_join (wd_nodes d !! k) = true →
  open_join rt k n = Ok rt' → routing_inv rt'.
Proof.
  intros [Hcore Hbd] Hn Hk H. unfold open_join in H. inv_res H.
  apply u32_of_usize_Some in Hv as [-> Hle].
  split; [|by apply boundary_inv_set_joins].
  apply core_inv_set_join; [done|simpl; lia|done].
Qed.

Lemma step_join_inv at_ms cur scope next vars rt vars' rt' evs pushed :
  routing_inv rt → is_join (wd_nodes d !! cur) = true →
  step_join at_ms cur scope next vars rt = Ok (vars', rt', evs, pushed) → routing_inv rt'.
Proof.
  intros [Hcore Hbd] Hk H. unfold step_join in H.
  apply bind_Ok in H as ([rt1 b] & Ha & H). unfold arrive in Ha. inv_res Ha.
  apply checked_add_Some in Hv0 as [-> Hle].
  destruct (_ =? _)%N eqn:Hb; simplify_eq; (split; [|by destruct Hbd]).
  - unfold close_join. simpl. rewrite delete_insert_eq. by apply (core_inv_close_join rt).
  - apply core_inv_set_join; [done| |done]. simpl. 
    pose proof (inv_joins _ Hcore _ _ Hv) as [? _]. lia.
Qed.

Lemma reciprocal_pair_Ok paired predicate k k' :
  reciprocal_pair paired predicate k k' = Ok tt → ∃ n, paired = Some n ∧ predicate n = true.
Proof.
  unfold reciprocal_pair. destruct paired as [n|]; [|done].
  destruct (predicate n) eqn:Hp; [eauto|done].
Qed.

Lemma parallel_split_ok k targets join :
  definition_ok d → wd_nodes d !! k = Some (Node_ParallelSplit targets join) →
  0 < length targets ∧ is_join (wd_nodes d !! join) = true.
Proof.
  intros Hok Hk. pose proof (ok_gateway d Hok _ _ Hk) as H. simpl in H. inv_res H.
  destruct v. apply validate_parallel_split_Ok in Hv as [? _].
  apply reciprocal_pair_Ok in H as (n & -> & Hp). split; [lia|by destruct n].
Qed.

Lemma inclusive_split_ok k ts cov join :
  definition_ok d → wd_nodes d !! k = Some (Node_InclusiveSplit ts cov join) →
  is_join (wd_nodes d !! join) = true.
Proof.
  intros Hok Hk. pose proof (ok_gateway d Hok _ _ Hk) as H. simpl in H. inv_res H.
  apply reciprocal_pair_Ok in H as (n & -> & Hp). by destruct n.
Qed.

Lemma split_into_inv at_ms cur scope targets join vars rt vars' rt' evs pushed :
  routing_inv rt → 0 < length targets → is_join (wd_nodes d !! join) = true →
  split_into at_ms cur scope targets join vars rt = Ok (vars', rt', evs, pushed) →
  routing_inv rt'.
Proof.
  intros Hinv Hn Hj H. unfold split_into in H.
  apply bind_Ok in H as (rt1 & Ho & [= <- <- <- <-]). by eapply open_join_inv.
Qed.

(** ** Scopes *)
Lemma enter_scope_inv rt k start parent rt' inst n :
  plain_scopes d → core_inv rt → is_sub_process (wd_nodes d !! k) = true →
  enter_scope rt k start parent = Ok (rt', (inst, n)) →
  core_inv rt' ∧
  rt_active_boundary_subscriptions rt' = rt_active_boundary_subscriptions rt ∧
  rt_active_tokens rt' = rt_active_tokens rt ∧
  (∀ k', owner_active rt' k' ↔ owner_active rt k' ∨ k' = k).
Proof.
  intros Hplain [Ht Hj Hm Hs Hu] Hk H. unfold enter_scope in H.
  apply bind_Ok in H as ([] & Hnone & H). apply bail_if_Ok in Hnone.
  assert (∀ s sc, rt_active_scopes rt !! s = Some sc → as_scope_node_id sc ≠ k) as Hfree.
  { intros s sc Hsc Heq. apply not_true_iff_false in Hnone. apply Hnone, existsb_exists.
    exists sc. rewrite <-list_elem_of_In, elem_of_btree_values, bool_decide_eq_true. eauto. }
  apply bind_Ok in H as (inv & Hi & H). apply ok_or_Ok, checked_add_Some in Hi as [Hi Hmax].
  unfold identifier_new in H. rewrite scope_identity_not_blank in H. simplify_eq.
  set (inst := scope_identity parent k _) in *.
  assert (rt_active_scopes rt !! inst = None) as Hfresh.
  { destruct (rt_active_scopes rt !! inst) as [sc|] eqn:Hsc; [|done].
    destruct (Hs _ _ Hsc) as (Hsub & Hid & _). destruct (Hfree _ _ Hsc).
    symmetry. eapply scope_identity_node; [by apply Hplain..|exact Hid]. }
  split_and!; [|done|done|].
  - split; simpl; [done..| |].
    + intros s sc [[<- <-]|[Hne Hsc]]%lookup_insert_Some.
      * simpl. rewrite lookup_insert_eq. simpl. split_and!; [done|done|lia|lia].
      * destruct (Hs _ _ Hsc) as (? & ? & ?). rewrite lookup_insert_ne by naive_solver.
        split_and!; [done|done|lia|lia].
    + intros s s' sc sc' [[<- <-]|[? Hsc]]%lookup_insert_Some
        [[<- <-]|[? Hsc']]%lookup_insert_Some; simpl; intros Heq; [done|..|by eapply Hu];
        [by destruct (Hfree _ _ Hsc')|by destruct (Hfree _ _ Hsc)].
  - intros k'. unfold owner_active. simpl. setoid_rewrite lookup_insert_Some.
    split; [naive_solver|]. intros [[?|[?|(s & sc & Hsc & <-)]]| ->]; [auto..| |].
    + right. right. exists s, sc. split; [|done]. right. split; [congruence|done].
    + right. right. do 2 eexists. split; [by left|done].
Qed.

Lemma complete_scope_inv rt inst k rt' sc :
  core_inv rt → complete_scope rt inst k = Ok (rt', sc) →
  core_inv rt' ∧ is_sub_process (wd_nodes d !! k) = true ∧
  rt_active_boundary_subscriptions rt' = rt_active_boundary_subscriptions rt ∧
  rt_active_tokens rt' = rt_active_tokens rt ∧
  ¬ owner_active rt' k ∧
  (∀ k', k' ≠ k → owner_active rt' k' ↔ owner_active rt k').
Proof.
  intros [Ht Hj Hm Hs Hu] H. unfold complete_scope in H. inv_res H. simplify_eq.
  apply bool_decide_eq_false, dec_stable in Hv0 as <-.
  destruct (Hs _ _ Hv) as (Hsub & _ & _). split_and!; [|done|done|done|..].
  - split; simpl; [done..| |].
    + intros s sc' [_ Hsc]%lookup_delete_Some. by apply Hs.
    + intros s s' sc1 sc2 [_ H1]%lookup_delete_Some [_ H2]%lookup_delete_Some. by eapply Hu.
  - unfold owner_active. simpl. intros [[c Hc]|[[a Ha]|(s & sc' & [Hne Hsc]%lookup_delete_Some & Heq)]].
    + destruct (Ht _ _ Hc) as (_ & Hact & _). destruct (wd_nodes d !! _) as [[]|]; done.
    + destruct (Hm _ _ Ha) as (_ & Hact & _). destruct (wd_nodes d !! _) as [[]|]; done.
    + destruct Hne. by eapply Hu.
  - intros k' Hne. unfold owner_active. simpl. setoid_rewrite lookup_delete_Some. naive_solver.
Qed.

Lemma step_sub_process_inv at_ms cur scope start vars rt vars' rt' evs pushed :
  definition_ok d → plain_scopes d → routing_inv rt → is_sub_process (wd_nodes d !! cur) = true →
  step_sub_process d at_ms cur scope start vars rt = Ok (vars', rt', evs, pushed) →
  routing_inv rt'.
Proof.
  intros Hok Hplain [Hcore Hbd] Hk H. unfold step_sub_process in H.
  apply bind_Ok in H as ([rt1 [inst n]] & He & H).
  apply enter_scope_inv in He as (Hcore1 & Hsub & Htok & Hact); [|done..].
  apply bind_Ok in H as ([rt2 armed] & Harm & [= <- <- <- <-]). split.
  - apply arm_boundary_events_spec in Harm as (subs & -> & _); [|by apply ok_boundary_NoDup].
    by apply core_inv_set_subscriptions.
  - eapply arm_boundary_inv, Harm; [done..|]. rewrite Htok. auto.
Qed.

Lemma disarm_boundary_events_core at_ms k rt rt' evs :
  disarm_boundary_events at_ms k rt = (rt', evs) → rt' = (disarm_boundaries rt k).1.
Proof. by intros [= <- <-]. Qed.

Lemma step_end_inv at_ms cur scope vars rt vars' rt' evs pushed :
  definition_ok d → routing_inv rt →
  step_end d at_ms cur scope vars rt = Ok (vars', rt', evs, pushed) → routing_inv rt'.
Proof.
  intros Hok [Hcore Hbd] H. unfold step_end in H. destruct (owner_scope_id d cur) as [owner|].
  - apply bind_Ok in H as (inst & _ & H). apply bind_Ok in H as ([rt1 sc] & Hc & H).
    apply complete_scope_inv in Hc as (Hcore1 & _ & Hsub & Htok & Hno & Hact); [|done].
    destruct (disarm_boundary_events _ _ _) as [rt2 disarmed] eqn:Hd.
    apply disarm_boundary_events_core in Hd. inv_res H. simplify_eq. split.
    + by apply core_inv_set_subscriptions.
    + eapply disarm_boundary_inv; [done|exact Hbd|done|done|by intros|].
      rewrite Htok. auto.
  - by destruct (has_outstanding_work rt); simplify_eq.
Qed.

(** ** Every step preserves the invariant *)
Lemma node_step_inv cfg at_ms node cur scope vars rt vars' rt' evs pushed :
  definition_ok d → plain_scopes d → config_ok cfg →
  wd_nodes d !! cur = Some node → routing_inv rt →
  node_step d cfg at_ms node cur scope vars rt = Ok (vars', rt', evs, pushed) →
  routing_inv rt'.
Proof.
  intros Hok Hplain Hcfg Hcur Hinv H. destruct node; simpl in H.
  1: { unfold step_start in H. inv_res H. by simplify_eq. }
  1-3: by eapply activate_activity_inv; [..|exact H]; rewrite ?Hcur.
  1: { unfold step_decision_task in H. inv_res H. by simplify_eq. }
  1: { unfold step_call_activity in H. destruct (identifier_new _ _); [|done..].
       by eapply activate_activity_inv; [..|exact H]; rewrite ?Hcur. }
  1: { by eapply step_sub_process_inv; [..|exact H]; rewrite ?Hcur. }
  1: { unfold step_exclusive_gateway in H. inv_res H. by simplify_eq. }
  1: { destruct (parallel_split_ok _ _ _ Hok Hcur). by eapply split_into_inv. }
  1: { by eapply step_join_inv; [..|exact H]; rewrite ?Hcur. }
  1: { apply bind_Ok in H as (sel & Hsel%select_transitions_nonempty & H).
       eapply split_into_inv; [done| |by eapply inclusive_split_ok|exact H].
       destruct sel; [done|simpl; lia]. }
  1: { by eapply step_join_inv; [..|exact H]; rewrite ?Hcur. }
  by eapply step_end_inv.
Qed.
End invariant.
