(* ===== verification/Loop.v ===== *)
(** * The activation loop

    Lemmas on [activation_loop] as a whole: it preserves the routing
    invariant, stamps every event with the command's time, emits
    [WorkflowCompleted] at most once and last, never stops with neither
    outstanding work nor completion, and never panics. *)

From S2P Require Import Prelude Types Expr Coverage Config WorkflowDef Routing Text Evolve.
From S2P Require Import Activation MultiInstance Simulation Invariant.
From Stdlib Require Import Ascii.
From stdpp Require Import options.

(** [occurred_at_epoch_ms] of an event. *)
Definition event_time (e : DomainEvent) : N :=
  match e with
  | CaseActivated _ _ _ _ t | CaseSentrySatisfied _ _ t | CasePlanItemTransitioned _ _ _ _ _ t
  | CaseCompleted _ t | WorkflowStarted _ _ _ _ t | ServiceTaskActivated _ _ t
  | ServiceTaskCompleted _ _ t | UserTaskActivated _ _ _ _ t | UserTaskCompleted _ _ _ t
  | UserTaskCancelled _ _ t | ScriptTaskActivated _ _ _ _ t | ScriptTaskCompleted _ t
  | DecisionTaskEvaluated _ _ _ t | GatewaySplitActivated _ _ _ t | GatewayTokenArrived _ t
  | GatewayJoined _ t | BoundaryEventArmed _ _ _ _ _ t | BoundaryEventsDisarmed _ _ t
  | MultiInstanceStarted _ _ _ _ _ _ _ t | MultiInstanceIterationActivated _ _ _ _ t
  | MultiInstanceIterationCompleted _ _ t | MultiInstanceCompleted _ _ _ t
  | BoundaryEventTriggered _ _ _ _ _ _ t | ScopeEntered _ _ _ _ _ t | ScopeCompleted _ _ _ t
  | WorkflowBranchCompleted _ t | WorkflowCompleted t
  | WorkflowTerminatedForCompliance _ _ _ _ t => t
  end.

(** Events that keep an active instance active. *)
Definition routine (e : DomainEvent) : bool :=
  match e with
  | WorkflowCompleted _ | WorkflowTerminatedForCompliance _ _ _ _ _
  | CaseActivated _ _ _ _ _ | CaseSentrySatisfied _ _ _ | CasePlanItemTransitioned _ _ _ _ _ _
  | CaseCompleted _ _ => false
  | _ => true
  end.

Definition routine_at (at_ms : N) (e : DomainEvent) : Prop :=
  event_time e = at_ms ∧ routine e = true.

Section events.
Context (d : WorkflowDefinition) (cfg : ResolvedConfigSnapshot) (at_ms : N).

Lemma start_multi_instance_events k tt spec vars rt b rt' evs :
  start_multi_instance cfg at_ms k tt spec vars rt = Ok (b, rt', evs) →
  Forall (routine_at at_ms) evs.
Proof.
  unfold start_multi_instance. intros H.
  apply bind_Ok in H as ([total items] & _ & H). apply bind_Ok in H as (? & _ & H).
  apply bind_Ok in H as (rt1 & _ & H). destruct (total =? 0)%N; [by simplify_eq; repeat constructor|].
  apply bind_Ok in H as ([rt2 evs2] & Hloop & [= <- <- <-]).
  change (Forall (routine_at at_ms) (rt2, evs2).2).
  eapply (for_each_inv _ (λ _ acc, Forall (routine_at at_ms) acc.2));
    [exact Hloop|by repeat constructor|].
  intros _ [] [rt3 evs3] [rt4 evs4] Hev _ Hf. unfold activate_iteration in Hf.
  apply bind_Ok in Hf as ([? [[??]?]] & _ & [= <- <-]). simpl in *.
  apply Forall_app. by repeat constructor.
Qed.

Lemma arm_boundary_events_events k rt rt' evs :
  arm_boundary_events d at_ms k rt = Ok (rt', evs) → Forall (routine_at at_ms) evs.
Proof.
  unfold arm_boundary_events. intros H. change (Forall (routine_at at_ms) (rt', evs).2).
  eapply (for_each_inv _ (λ _ acc, Forall (routine_at at_ms) acc.2)); [exact H|constructor|].
  intros _ b [rt1 evs1] [rt2 evs2] Hev _ Hf. simpl in *.
  apply bind_Ok in Hf as (? & _ & [= <- <-]). apply Forall_app. by repeat constructor.
Qed.

Lemma disarm_boundary_events_events k rt rt' evs :
  disarm_boundary_events at_ms k rt = (rt', evs) → Forall (routine_at at_ms) evs.
Proof.
  unfold disarm_boundary_events, disarm_boundaries. intros [= <- <-].
  destruct (is_empty _); by repeat constructor.
Qed.

Lemma activate_activity_events cur scope tt next e vars rt vars' rt' evs pushed :
  routine_at at_ms e →
  activate_activity d cfg at_ms cur scope tt next e vars rt = Ok (vars', rt', evs, pushed) →
  Forall (routine_at at_ms) evs.
Proof.
  intros He. unfold activate_activity. destruct (multi_instance_spec d cur) as [spec|]; intros H.
  - apply bind_Ok in H as ([[b rt1] evs1] & Hs%start_multi_instance_events & H).
    destruct b; [by simplify_eq|].
    apply bind_Ok in H as ([rt2 evs2] & Ha%arm_boundary_events_events & [= <- <- <- <-]).
    by apply Forall_app.
  - apply bind_Ok in H as (rt1 & _ & H).
    apply bind_Ok in H as ([rt2 evs2] & Ha%arm_boundary_events_events & [= <- <- <- <-]).
    by constructor.
Qed.

(** A step emits routine events, or it completes the workflow: then nothing
    was outstanding and it pushes nothing. *)
Lemma node_step_events node cur scope vars rt vars' rt' evs pushed :
  node_step d cfg at_ms node cur scope vars rt = Ok (vars', rt', evs, pushed) →
  Forall (routine_at at_ms) evs ∨
  (evs = [WorkflowCompleted at_ms] ∧ pushed = [] ∧ rt' = rt ∧ has_outstanding_work rt = false).
Proof.
  intros H. destruct node; simpl in H.
  1: { left. unfold step_start in H. inv_res H. by simplify_eq. }
  1-3: left; by eapply activate_activity_events; [..|exact H].
  1: { left. unfold step_decision_task in H. inv_res H. simplify_eq. by repeat constructor. }
  1: { left. unfold step_call_activity in H. destruct (identifier_new _ _); [|done..].
       by eapply activate_activity_events; [..|exact H]. }
  1: { left. apply bind_Ok in H as ([rt1 [inst n]] & _ & H).
       apply bind_Ok in H as ([rt2 evs2] & Ha%arm_boundary_events_events & [= <- <- <- <-]).
       by constructor. }
  1: { left. unfold step_exclusive_gateway in H. inv_res H. by simplify_eq. }
  1: { left. apply bind_Ok in H as (? & _ & [= <- <- <- <-]). by repeat constructor. }
  1,3: left; apply bind_Ok in H as ([? []] & _ & H); simplify_eq; by repeat constructor.
  1: { left. apply bind_Ok in H as (? & _ & H). apply bind_Ok in H as (? & _ & [= <- <- <- <-]).
       by repeat constructor. }
  unfold step_end in H. destruct (owner_scope_id d cur) as [owner|].
  - left. apply bind_Ok in H as (inst & _ & H). apply bind_Ok in H as ([rt1 sc] & _ & H).
    destruct (disarm_boundary_events _ _ _) as [rt2 disarmed] eqn:Hd.
    apply disarm_boundary_events_events in Hd. inv_res H. simplify_eq. by constructor.
  - destruct (has_outstanding_work rt) eqn:Hw; simplify_eq; [left|by right].
    by repeat constructor.
Qed.

(** ** No silent stop *)
Lemma outstanding_token rt k c : rt_active_tokens rt !! k = Some c → has_outstanding_work rt = true.
Proof.
  intros Hk. apply not_false_iff_true. rewrite no_outstanding_work. intros Hc.
  rewrite <-Hc in Hk. done.
Qed.
Lemma outstanding_join rt k j : rt_pending_joins rt !! k = Some j → has_outstanding_work rt = true.
Proof.
  intros Hk. apply not_false_iff_true. rewrite no_outstanding_work. intros Hc.
  rewrite <-Hc in Hk. done.
Qed.
Lemma outstanding_loop rt k a :
  rt_active_multi_instances rt !! k = Some a → has_outstanding_work rt = true.
Proof.
  intros Hk. apply not_false_iff_true. rewrite no_outstanding_work. intros Hc.
  rewrite <-Hc in Hk. done.
Qed.

Lemma arm_boundary_events_frame k rt rt' evs :
  arm_boundary_events d at_ms k rt = Ok (rt', evs) → ∃ subs, rt' = set_subscriptions rt subs.
Proof.
  unfold arm_boundary_events. intros H.
  change (∃ subs, (rt', evs).1 = set_subscriptions rt subs).
  eapply (for_each_inv _ (λ _ acc, ∃ subs, acc.1 = set_subscriptions rt subs)); [exact H| |].
  - exists (rt_active_boundary_subscriptions rt). by destruct rt.
  - intros _ b [rt1 evs1] [rt2 evs2] (subs & Hs) _ Hf. simpl in *. subst rt1.
    unfold arm_boundary in Hf. inv_res Hf. simplify_eq/=. by eexists.
Qed.

Lemma activate_next_frame rt k rt' r :
  activate_next_multi_instance rt k = Ok (rt', r) →
  ∃ a, rt' = set_multi_instances rt (<[k:=a]> (rt_active_multi_instances rt)).
Proof. unfold activate_next_multi_instance. intros H. inv_res H. simplify_eq. by eexists. Qed.

(** A loop that did not end at once is active afterwards; the other fields
    keep their values. *)
Lemma start_multi_instance_frame k tt spec vars rt b rt' evs :
  start_multi_instance cfg at_ms k tt spec vars rt = Ok (b, rt', evs) →
  (∃ m, rt' = set_multi_instances rt m) ∧
  (b = false → is_Some (rt_active_multi_instances rt' !! k)).
Proof.
  unfold start_multi_instance. intros H.
  apply bind_Ok in H as ([total items] & _ & H). apply bind_Ok in H as (? & _ & H).
  apply bind_Ok in H as (rt1 & H1 & H).
  unfold routing_start_multi_instance in H1. inv_res H1. simplify_eq.
  destruct (total =? 0)%N; [by simplify_eq; split; [eexists|]|].
  apply bind_Ok in H as ([rt2 evs2] & Hloop & [= <- <- <-]).
  cut ((∃ m, (rt2, evs2).1 = set_multi_instances rt m) ∧
    is_Some (rt_active_multi_instances (rt2, evs2).1 !! k)); [simpl; naive_solver|].
  eapply (for_each_inv _ (λ _ acc, (∃ m, acc.1 = set_multi_instances rt m) ∧
    is_Some (rt_active_multi_instances acc.1 !! k))); [exact Hloop| |].
  - simpl. rewrite lookup_insert_eq. eauto.
  - intros _ [] [rt3 evs3] [rt4 evs4] [(m & Hm) _] _ Hf. simpl in *. subst rt3.
    unfold activate_iteration in Hf.
    apply bind_Ok in Hf as ([? [[??]?]] & (a & ->)%activate_next_frame & [= <- <-]).
    simpl. rewrite lookup_insert_eq. eauto.
Qed.

Lemma activate_activity_pushed cur scope tt next e vars rt vars' rt' evs pushed :
  activate_activity d cfg at_ms cur scope tt next e vars rt = Ok (vars', rt', evs, pushed) →
  rt_pending_joins rt' = rt_pending_joins rt ∧
  (pushed = [] ∧ has_outstanding_work rt' = true ∨ pushed = [(next, scope)]).
Proof.
  unfold activate_activity. destruct (multi_instance_spec d cur) as [spec|]; intros H.
  - apply bind_Ok in H as ([[b rt1] evs1] & [(m & ->) Hs]%start_multi_instance_frame & H).
    destruct b; [by simplify_eq; split; [|right]|].
    apply bind_Ok in H as ([rt2 evs2] & (subs & ->)%arm_boundary_events_frame & [= <- <- <- <-]).
    split; [done|left]. split; [done|]. destruct (Hs eq_refl) as [a Ha].
    by eapply outstanding_loop.
  - apply bind_Ok in H as (rt1 & ->%activate_task_replay & H).
    apply bind_Ok in H as ([rt2 evs2] & (subs & ->)%arm_boundary_events_frame & [= <- <- <- <-]).
    split; [done|left]. split; [done|].
    eapply outstanding_token. simpl. apply lookup_insert_eq.
Qed.

(** A step that pushes nothing leaves work outstanding or completes. *)
Lemma node_step_stops node cur scope vars rt vars' rt' evs :
  node_step d cfg at_ms node cur scope vars rt = Ok (vars', rt', evs, []) →
  has_outstanding_work rt' = true ∨ evs = [WorkflowCompleted at_ms].
Proof.
  intros H. destruct node; simpl in H.
  1: { unfold step_start in H. by inv_res H. }
  1-3: left; by apply activate_activity_pushed in H as [_ [[_ ?]|?]].
  1: { unfold step_decision_task in H. by inv_res H. }
  1: { left. unfold step_call_activity in H. destruct (identifier_new _ _); [|done..].
       by apply activate_activity_pushed in H as [_ [[_ ?]|?]]. }
  1: { apply bind_Ok in H as ([? [??]] & _ & H). by apply bind_Ok in H as ([??] & _ & ?). }
  1: { unfold step_exclusive_gateway in H. by inv_res H. }
  1: { left. apply bind_Ok in H as (? & H & [= <- <- _ Hnil]).
       unfold open_join in H. inv_res H. eapply outstanding_join. simpl. apply lookup_insert_eq. }
  1,3: left; apply bind_Ok in H as ([? []] & Ha & H); simplify_eq; unfold arrive in Ha;
    inv_res Ha; simplify_eq; eapply outstanding_join; simpl; apply lookup_insert_eq.
  1: { left. apply bind_Ok in H as (? & _ & H). apply bind_Ok in H as (? & H & [= <- <- _ Hnil]).
       unfold open_join in H. inv_res H. eapply outstanding_join. simpl. apply lookup_insert_eq. }
  unfold step_end in H. destruct (owner_scope_id d cur) as [owner|].
  - apply bind_Ok in H as (inst & _ & H). apply bind_Ok in H as ([rt1 sc] & _ & H).
    destruct (disarm_boundary_events _ _ _). by inv_res H.
  - destruct (has_outstanding_work rt) eqn:Hw; simplify_eq; [by left|by right].
Qed.

(** The loop stops with outstanding work, or completion was its last event. *)
Lemma activation_loop_stops fuel start vars rt pending vars' rt' evs :
  pending ≠ [] →
  activation_loop d cfg at_ms fuel start vars rt pending = Ok (vars', rt', evs) →
  has_outstanding_work rt' = true ∨ last evs = Some (WorkflowCompleted at_ms).
Proof.
  revert vars rt pending evs. induction fuel as [|fuel IH];
    intros vars rt [|[cur scope] rest] evs Hne H; try done.
  simpl in H. apply bind_Ok in H as (node & _ & H).
  apply bind_Ok in H as ([[[vars1 rt1] evs1] pushed] & Hstep & H).
  apply bind_Ok in H as ([[vars2 rt2] evs2] & Hloop & [= <- <- <-]).
  destruct (pushed ++ rest) as [|p l] eqn:Hp.
  - apply app_nil in Hp as [-> ->]. destruct fuel; simpl in Hloop; simplify_eq;
      destruct (node_step_stops _ _ _ _ _ _ _ _ Hstep) as [?| ->]; auto.
  - apply IH in Hloop as [?|Hl]; [by left|right|done].
    by rewrite last_app, Hl.
Qed.
End events.

(** ** The stack and the open joins

    Each pending join still waits for [expected - arrived] tokens. The stack
    never holds more than one entry plus what the joins can absorb, so with no
    join pending it holds at most one. *)
Definition waiting (j : PendingGatewayJoin) : nat :=
  N.to_nat (pj_expected_tokens j - pj_arrived_tokens j) - 1.
Definition open_slots (rt : RoutingState) : nat :=
  sum_list_with (λ p, waiting p.2) (map_to_list (rt_pending_joins rt)).

Lemma open_slots_insert rt k j :
  rt_pending_joins rt !! k = None →
  open_slots (set_joins rt (<[k:=j]> (rt_pending_joins rt))) = waiting j + open_slots rt.
Proof. intros Hk. unfold open_slots. simpl. by rewrite map_to_list_insert. Qed.

Lemma open_slots_delete rt k j :
  rt_pending_joins rt !! k = Some j →
  open_slots rt = waiting j + open_slots (close_join rt k).
Proof.
  intros Hk. unfold open_slots. simpl.
  rewrite <-(map_to_list_delete (rt_pending_joins rt) k j Hk). done.
Qed.

Lemma open_slots_none rt : has_outstanding_work rt = false → open_slots rt = 0.
Proof. intros Hw%no_outstanding_work. by rewrite <-Hw. Qed.

Section stack.
Context (d : WorkflowDefinition) (cfg : ResolvedConfigSnapshot) (at_ms : N).
Hypotheses (Hok : definition_ok d) (Hplain : plain_scopes d) (Hcfg : config_ok cfg).

Lemma split_into_stack cur scope targets join vars rt vars' rt' evs pushed :
  0 < length targets →
  split_into at_ms cur scope targets join vars rt = Ok (vars', rt', evs, pushed) →
  length pushed + open_slots rt ≤ 1 + open_slots rt'.
Proof.
  intros Hn H. apply bind_Ok in H as (rt1 & Ho & [= <- <- <- <-]).
  unfold open_join in Ho. inv_res Ho. simplify_eq. rewrite is_some_false in Hv0.
  apply u32_of_usize_Some in Hv as [-> _].
  rewrite open_slots_insert, length_fmap by done. unfold waiting. simpl. lia.
Qed.

Lemma step_join_stack cur scope next vars rt vars' rt' evs pushed :
  core_inv d rt →
  step_join at_ms cur scope next vars rt = Ok (vars', rt', evs, pushed) →
  length pushed + open_slots rt ≤ 1 + open_slots rt'.
Proof.
  intros Hcore H. apply bind_Ok in H as ([rt1 b] & Ha & H). unfold arrive in Ha. inv_res Ha.
  destruct (inv_joins d _ Hcore _ _ Hv) as [? _]. apply checked_add_Some in Hv0 as [-> _].
  rewrite (open_slots_delete rt cur v Hv).
  destruct (_ =? _)%N eqn:Hb; simplify_eq; simpl.
  - unfold close_join, waiting. simpl. rewrite delete_insert_eq.
    change (set_joins (set_joins ?r _) ?m) with (set_joins r m). unfold close_join. lia.
  - rewrite <-(insert_delete_eq (rt_pending_joins rt) cur).
    change (set_joins rt (<[cur:=?j]> (delete cur (rt_pending_joins rt)))) with
      (set_joins (close_join rt cur) (<[cur:=j]> (rt_pending_joins (close_join rt cur)))).
    rewrite open_slots_insert by (simpl; apply lookup_delete_eq). unfold waiting. simpl. lia.
Qed.

Lemma open_slots_joins rt rt' :
  rt_pending_joins rt' = rt_pending_joins rt → open_slots rt' = open_slots rt.
Proof. unfold open_slots. by intros ->. Qed.

Lemma node_step_stack node cur scope vars rt vars' rt' evs pushed :
  wd_nodes d !! cur = Some node → core_inv d rt →
  node_step d cfg at_ms node cur scope vars rt = Ok (vars', rt', evs, pushed) →
  length pushed + open_slots rt ≤ 1 + open_slots rt'.
Proof using Hok.
  intros Hcur Hcore H.
  assert (length pushed ≤ 1 ∧ rt_pending_joins rt' = rt_pending_joins rt →
    length pushed + open_slots rt ≤ 1 + open_slots rt') as Hflat.
  { intros [? Hj]. rewrite (open_slots_joins _ _ Hj). lia. }
  destruct node; simpl in H.
  1: { apply Hflat. unfold step_start in H. inv_res H. by simplify_eq. }
  1-3: apply Hflat; apply activate_activity_pushed in H as [? [[-> _]| ->]]; simpl; auto.
  1: { apply Hflat. unfold step_decision_task in H. inv_res H. by simplify_eq. }
  1: { apply Hflat. unfold step_call_activity in H. destruct (identifier_new _ _); [|done..].
       apply activate_activity_pushed in H as [? [[-> _]| ->]]; simpl; auto. }
  1: { apply Hflat. apply bind_Ok in H as ([rt1 [inst n]] & He & H).
       apply bind_Ok in H as ([rt2 evs2] & (subs & ->)%arm_boundary_events_frame & [= <- <- <- <-]).
       unfold enter_scope in He. inv_res He. destruct (identifier_new _ _); by simplify_eq. }
  1: { apply Hflat. unfold step_exclusive_gateway in H. inv_res H. by simplify_eq. }
  1: { destruct (parallel_split_ok d _ _ _ Hok Hcur). by eapply split_into_stack. }
  1,3: by eapply step_join_stack.
  1: { apply bind_Ok in H as (sel & Hsel%select_transitions_nonempty & H).
       eapply split_into_stack, H. destruct sel; [done|simpl; lia]. }
  apply Hflat. unfold step_end in H. destruct (owner_scope_id d cur) as [owner|].
  - apply bind_Ok in H as (inst & _ & H). apply bind_Ok in H as ([rt1 sc] & Hc & H).
    unfold complete_scope in Hc. inv_res Hc. simplify_eq.
    destruct (disarm_boundary_events _ _ _) as [rt2 dis] eqn:Hd.
    apply disarm_boundary_events_core in Hd as ->. inv_res H. by simplify_eq.
  - destruct (has_outstanding_work rt); simplify_eq; simpl; auto.
Qed.

(** ** The loop *)
Lemma activation_loop_spec fuel start vars rt pending vars' rt' evs :
  routing_inv d rt → length pending ≤ 1 + open_slots rt →
  activation_loop d cfg at_ms fuel start vars rt pending = Ok (vars', rt', evs) →
  routing_inv d rt' ∧
  (Forall (routine_at at_ms) evs ∨
   ∃ before, Forall (routine_at at_ms) before ∧ evs = before ++ [WorkflowCompleted at_ms] ∧
     has_outstanding_work rt' = false).
Proof using Hok Hplain Hcfg.
  revert vars rt pending evs. induction fuel as [|fuel IH];
    intros vars rt [|[cur scope] rest] evs Hinv Hlen H; simpl in H; simplify_eq; eauto.
  apply bind_Ok in H as (node & Hnode%ok_or_Ok & H).
  apply bind_Ok in H as ([[[vars1 rt1] evs1] pushed] & Hstep & H).
  apply bind_Ok in H as ([[vars2 rt2] evs2] & Hloop & [= <- <- <-]).
  pose proof (node_step_inv d _ _ _ _ _ _ _ _ _ _ _ Hok Hplain Hcfg Hnode Hinv Hstep) as Hinv1.
  pose proof (node_step_stack _ _ _ _ _ _ _ _ _ Hnode (proj1 Hinv) Hstep) as Hstack.
  simpl in Hlen. apply node_step_events in Hstep as [Hev|(-> & -> & -> & Hw)].
  - apply IH in Hloop as [Hinv2 [Hev2|(before & Hb & -> & Hw)]]; [| |done|rewrite length_app; lia].
    + split; [done|left]. by apply Forall_app.
    + split; [done|right]. exists (evs1 ++ before). rewrite Forall_app, <-(assoc_L (++)). done.
  - rewrite (open_slots_none _ Hw) in Hlen. destruct rest; [|simpl in Hlen; lia].
    destruct fuel; simpl in Hloop; simplify_eq; (split; [done|right]); exists []; eauto.
Qed.
End stack.

(** ** No panics *)
Section panics.
Context (d : WorkflowDefinition) (cfg : ResolvedConfigSnapshot) (at_ms : N).

Lemma call_task_type_not_blank called version : is_blank (call_task_type called version) = false.
Proof.
  apply (visible_not_blank ":"%char); [done|].
  unfold call_task_type. destruct version; by rewrite contains_app.
Qed.

Lemma activate_next_no_panic rt k s : activate_next_multi_instance rt k ≠ Panic s.
Proof. unfold activate_next_multi_instance. intros H. no_panic H. Qed.
#[local] Hint Resolve activate_next_no_panic : panics.

Lemma materialize_no_panic k spec vars s : materialize_multi_instance k spec vars ≠ Panic s.
Proof.
  unfold materialize_multi_instance, resolve_cardinality. intros H. no_panic H.
Qed.
#[local] Hint Resolve materialize_no_panic : panics.

Lemma start_multi_instance_no_panic k tt spec vars rt s :
  start_multi_instance cfg at_ms k tt spec vars rt ≠ Panic s.
Proof.
  unfold start_multi_instance, routing_start_multi_instance. intros H. no_panic H.
  revert H. apply for_each_no_panic. intros acc [] s' _. unfold activate_iteration.
  intros H. no_panic H.
Qed.
#[local] Hint Resolve start_multi_instance_no_panic : panics.

Lemma arm_boundary_events_no_panic k rt s : arm_boundary_events d at_ms k rt ≠ Panic s.
Proof.
  apply for_each_no_panic. intros [rt1 evs] b s' _ H. unfold arm_boundary in H. no_panic H.
Qed.
#[local] Hint Resolve arm_boundary_events_no_panic : panics.

Lemma activate_activity_no_panic cur scope tt next e vars rt s :
  activate_activity d cfg at_ms cur scope tt next e vars rt ≠ Panic s.
Proof.
  unfold activate_activity, activate_task. intros H. no_panic H.
Qed.
#[local] Hint Resolve activate_activity_no_panic : panics.

Lemma step_call_activity_no_panic cur scope called version next vars rt s :
  step_call_activity d cfg at_ms cur scope called version next vars rt ≠ Panic s.
Proof.
  unfold step_call_activity, identifier_new. rewrite call_task_type_not_blank.
  apply activate_activity_no_panic.
Qed.
#[local] Hint Resolve step_call_activity_no_panic : panics.

Lemma node_step_no_panic node cur scope vars rt s :
  node_step d cfg at_ms node cur scope vars rt ≠ Panic s.
Proof.
  intros H. destruct node; simpl in H;
    unfold step_start, step_service_task, step_user_task, step_script_task, step_decision_task,
      step_sub_process, step_exclusive_gateway, step_parallel_split, step_join,
      step_inclusive_split, split_into, step_end, open_join,
      arrive, complete_scope, sub_process_exit, definition_node, enter_scope in H;
    no_panic H.
Qed.
#[local] Hint Resolve node_step_no_panic : panics.

Lemma activation_loop_no_panic fuel start vars rt pending s :
  activation_loop d cfg at_ms fuel start vars rt pending ≠ Panic s.
Proof.
  revert vars rt pending. induction fuel as [|fuel IH]; intros vars rt [|[cur scope] rest] H;
    simpl in H; try done. unfold definition_node in H. no_panic H.
Qed.
End panics.
#[export] Hint Resolve activate_next_no_panic activation_loop_no_panic : panics.
