(* ===== verification/Decisions.v ===== *)
(** * What a decision does to the routing state

    For each command arm of [decide]: the routing state it hands to the
    activation loop satisfies the invariant and is what replaying the arm's
    own events gives. [decision_outcome] puts the arms together. *)

From S2P Require Import Prelude Types Expr Coverage Config WorkflowDef Routing Text Evolve.
From S2P Require Import Activation Cases Decide MultiInstance Simulation Invariant Loop.
From stdpp Require Import options.

Section arms.
Context (d : WorkflowDefinition).
Hypotheses (Hok : definition_ok d).

(** The three ways of being active exclude each other. *)
Lemma token_not_loop rt k c :
  core_inv d rt → rt_active_tokens rt !! k = Some c → rt_active_multi_instances rt !! k = None.
Proof using Type.
  intros Hcore Hc. destruct (inv_tokens d _ Hcore _ _ Hc) as (_ & _ & Hspec).
  destruct (rt_active_multi_instances rt !! k) as [a|] eqn:Ha; [|done].
  destruct (inv_loops d _ Hcore _ _ Ha) as (_ & _ & [? ?]). congruence.
Qed.

Lemma activity_not_scope rt k s sc :
  core_inv d rt → is_multi_instance_activity (wd_nodes d !! k) = true →
  rt_active_scopes rt !! s = Some sc → as_scope_node_id sc ≠ k.
Proof using Type.
  intros Hcore Hk Hs <-. destruct (inv_scopes d _ Hcore _ _ Hs) as (Hsub & _).
  by destruct (wd_nodes d !! as_scope_node_id sc) as [[]|].
Qed.

(** ** Task completion *)
Lemma core_inv_release rt k n :
  core_inv d rt → core_inv d (set_tokens rt (release_tokens (rt_active_tokens rt) k n)).
Proof using Type.
  intros [Ht Hj Hm Hs Hu]. split; simpl; [|done..]. unfold release_tokens.
  destruct (rt_active_tokens rt !! k) as [c|] eqn:Hc; [|done].
  destruct (N.eqb_spec (c - n) 0).
  - intros k' c' [_ Hc']%lookup_delete_Some. by apply Ht.
  - intros k' c' [[<- <-]|[_ Hc']]%lookup_insert_Some; [|by apply Ht].
    destruct (Ht _ _ Hc) as (? & ? & ?). split_and!; [lia|lia|done|done].
Qed.

Lemma release_tokens_ne tokens k n k' :
  k' ≠ k → release_tokens tokens k n !! k' = tokens !! k'.
Proof using Type.
  intros Hne. unfold release_tokens. destruct (tokens !! k); [|done].
  destruct (_ =? 0)%N; [by rewrite lookup_delete_ne|by rewrite lookup_insert_ne].
Qed.

(** Releasing a token of [k] and disarming its boundary events. *)
Lemma release_disarm_inv rt k c :
  routing_inv d rt → rt_active_tokens rt !! k = Some c →
  routing_inv d
    (disarm_boundaries (set_tokens rt (release_tokens (rt_active_tokens rt) k 1)) k).1.
Proof using Hok.
  intros [Hcore Hbd] Hc. split.
  { rewrite disarm_boundaries_filter. by apply core_inv_set_subscriptions, core_inv_release. }
  eapply disarm_boundary_inv; [done|exact Hbd|done|..].
  - intros k' Hne. unfold owner_active. simpl. by rewrite release_tokens_ne.
  - unfold owner_active. simpl. rewrite (token_not_loop _ _ _ Hcore Hc).
    destruct (inv_tokens d _ Hcore _ _ Hc) as (? & Hact & _).
    intros [Hrel|[[? [=]]|(s & sc & Hs & Heq)]].
    + destruct (boundary_events d k) eqn:Hb; [done|].
      rewrite (inv_single d _ Hbd _ _ Hc) in Hc by (rewrite Hb; done).
      unfold release_tokens in Hrel. rewrite Hc in Hrel. simpl in Hrel.
      rewrite lookup_delete_eq in Hrel. by destruct Hrel.
    + by destruct (activity_not_scope _ _ _ _ Hcore Hact Hs).
  - intros k' c'. simpl. destruct (decide (k' = k)); [by right|].
    rewrite release_tokens_ne by done. by left.
Qed.

(** ** Multi-instance iterations *)

(** Ending the loop of [k] and disarming its boundary events. *)
Lemma finish_disarm_inv rt k a :
  routing_inv d rt → rt_active_multi_instances rt !! k = Some a →
  routing_inv d (disarm_boundaries (finish_multi_instance rt k) k).1.
Proof using Hok.
  intros [Hcore Hbd] Ha. split.
  { rewrite disarm_boundaries_filter. apply core_inv_set_subscriptions.
    destruct Hcore as [Ht Hj Hm Hs Hu]. split; simpl; [done..| |done|done].
    intros k' a' [_ Ha']%lookup_delete_Some. by apply Hm. }
  eapply disarm_boundary_inv; [done|exact Hbd|done|..].
  - intros k' Hne. unfold owner_active. simpl. by rewrite lookup_delete_ne.
  - unfold owner_active. simpl. rewrite lookup_delete_eq.
    destruct (inv_loops d _ Hcore _ _ Ha) as (_ & Hact & Hspec).
    intros [[c Hc]|[[? [=]]|(s & sc & Hs & Heq)]].
    + rewrite (token_not_loop _ _ _ Hcore Hc) in Ha. done.
    + by destruct (activity_not_scope _ _ _ _ Hcore Hact Hs).
  - intros k' c'. by left.
Qed.

(** Updating the loop of [k] without ending it. *)
Lemma update_loop_inv rt k a a' :
  routing_inv d rt → rt_active_multi_instances rt !! k = Some a → mi_rest a' →
  routing_inv d (set_multi_instances rt (<[k:=a']> (rt_active_multi_instances rt))).
Proof using Type.
  intros [Hcore Hbd] Ha Hrest. destruct (inv_loops d _ Hcore _ _ Ha) as (_ & Hact & Hspec).
  split; [by apply core_inv_set_loop|].
  assert (∀ k', owner_active (set_multi_instances rt
    (<[k:=a']> (rt_active_multi_instances rt))) k' ↔ owner_active rt k') as Hsame.
  { intros k'. rewrite owner_active_set_loop. split; [intros [?| ->]|by left]; [done|].
    right. left. eauto. }
  destruct Hbd as [Harm Hown Hsing]. split; simpl; [|by intros k' b ?%Hsame; apply Hown|done].
  intros i sub Hsub. destruct (Harm i sub Hsub). by rewrite Hsame.
Qed.

(** Completing an iteration that does not end the loop: with iterations left
    the next one takes the slot; else the others go on. *)
Lemma complete_then_activate_rest a i :
  mi_rest a → i ∈ am_active_iterations a → (am_next_iteration a < am_total_instances a)%N →
  mi_rest (mi_activated (mi_completed a i)) ∧
  (N.of_nat (size (am_active_iterations (mi_completed a i))) < am_max_parallelism a)%N.
Proof using Type.
  intros [Hc Hrep Hrun] Hi Hn. destruct (mi_completed_core a i Hc Hi) as [Hc1 Hs1].
  specialize (Hrep Hn).
  destruct (mi_activated_core (mi_completed a i) Hc1) as [Hc2 Hs2]; [done|simpl in *; lia|].
  split; [|lia]. split; [done| |].
  - intros _. rewrite Hs2. simpl in *. lia.
  - intros Hnil. rewrite Hnil, size_empty in Hs2. done.
Qed.

Lemma complete_rest a i :
  mi_rest a → i ∈ am_active_iterations a → am_next_iteration a = am_total_instances a →
  N.of_nat (size (am_completed_iterations (mi_completed a i))) ≠ am_total_instances a →
  mi_rest (mi_completed a i).
Proof using Type.
  intros [Hc Hrep Hrun] Hi Hn Hne. destruct (mi_completed_core a i Hc Hi) as [Hc1 Hs1].
  split; [done|simpl; lia|]. intros Hnil. pose proof (mi_core_size _ Hc1) as Hsz.
  rewrite Hnil, size_empty in Hsz. simpl in *. lia.
Qed.
End arms.

(** ** Cancelling an activity *)
Section cancel.
Context (d : WorkflowDefinition).
Hypotheses (Hok : definition_ok d).

Definition cancelled (rt : RoutingState) (k : NodeId) (n : N) : RoutingState :=
  mkRouting (release_tokens (rt_active_tokens rt) k n) (rt_pending_joins rt)
    (delete k (rt_active_multi_instances rt))
    (filter (λ p, ab_attached_node_id p.2 ≠ k) (rt_active_boundary_subscriptions rt))
    (rt_active_scopes rt) (rt_scope_invocation_counts rt).

Lemma cancelled_inv rt k :
  routing_inv d rt →
  is_Some (rt_active_tokens rt !! k) ∨ is_Some (rt_active_multi_instances rt !! k) →
  routing_inv d (cancelled rt k (if (0 <? default 0 (rt_active_tokens rt !! k))%N then 1 else 0)).
Proof using Hok.
  intros Hinv Hact. unfold cancelled. destruct (rt_active_tokens rt !! k) as [c|] eqn:Hc; simpl.
  - destruct (inv_tokens d _ (proj1 Hinv) _ _ Hc) as (Hpos & _).
    rewrite (proj2 (N.ltb_lt 0 c)) by lia.
    rewrite delete_id by (by eapply token_not_loop, Hc; destruct Hinv).
    pose proof (release_disarm_inv d Hok rt k c Hinv Hc) as H.
    by rewrite disarm_boundaries_filter in H.
  - unfold release_tokens. rewrite Hc. destruct Hact as [[? [=]]|[a Ha]].
    pose proof (finish_disarm_inv d Hok rt k a Hinv Ha) as H.
    by rewrite disarm_boundaries_filter in H.
Qed.

(** The loop over the cancelled tokens runs at most once here. *)
Lemma cancel_activity_spec rt k rt' :
  cancel_activity rt k (if (0 <? default 0 (rt_active_tokens rt !! k))%N then 1 else 0)%N = Ok rt' →
  core_inv d rt →
  rt' = cancelled rt k (if (0 <? default 0 (rt_active_tokens rt !! k))%N then 1 else 0)%N.
Proof using Type.
  unfold cancel_activity. cbv zeta. rewrite disarm_boundaries_filter. intros H Hcore.
  destruct (rt_active_tokens rt !! k) as [c|] eqn:Hc; simpl in H |- *.
  - destruct (inv_tokens d _ Hcore _ _ Hc) as (Hpos & _).
    rewrite (proj2 (N.ltb_lt 0 c)) in H |- * by lia. simpl in H.
    apply bind_Ok in H as (rt1 & H1%complete_task_replay & [= <-]). by rewrite H1.
  - simplify_eq. unfold cancelled, release_tokens. by rewrite Hc.
Qed.
End cancel.

(** ** Settled decisions

    [settled at_ms st evs]: replaying [evs] on [st] gives a routing state that
    satisfies the invariant, and either work is outstanding there and all the
    events are routine, or the last event is [WorkflowCompleted] and nothing
    is outstanding. *)
Definition settled (d : WorkflowDefinition) (at_ms : N) (st : InstanceState)
    (evs : list DomainEvent) : Prop :=
  ∃ rt, replays (RoutingState_from st) evs rt ∧ routing_inv d rt ∧
    (Forall (routine_at at_ms) evs ∧ has_outstanding_work rt = true ∨
     ∃ before, Forall (routine_at at_ms) before ∧ evs = before ++ [WorkflowCompleted at_ms] ∧
       has_outstanding_work rt = false).

Section decisions.
Context (d : WorkflowDefinition) (st : InstanceState) (ctx : DecisionContext).
Hypotheses (Hok : definition_ok d) (Hplain : plain_scopes d)
  (Hcfg : config_ok (dc_configuration ctx)).

Lemma activate_settles at_ms prefix rt0 next vars scope more :
  Forall (routine_at at_ms) prefix → replays (RoutingState_from st) prefix rt0 →
  routing_inv d rt0 → activate d ctx at_ms next vars rt0 scope = Ok more →
  settled d at_ms st (prefix ++ more).
Proof using Hok Hplain Hcfg.
  intros Hpre Hrep Hinv H. apply bind_Ok in H as ([[v rt] evs] & Hact & [= <-]).
  unfold activation_events in Hact.
  pose proof (activation_loop_replay _ _ _ _ _ _ _ _ _ _ _ Hact) as Hrep2.
  assert (has_outstanding_work rt = true ∨ last evs = Some (WorkflowCompleted at_ms)) as Hstop
    by (by eapply activation_loop_stops, Hact).
  apply activation_loop_spec in Hact as [Hinv2 Hev]; [|done..|done|simpl; lia].
  exists rt. split; [by eapply replays_app|]. split; [done|].
  destruct Hev as [Hev|(before & Hb & -> & Hw)].
  - left. rewrite Forall_app. split; [done|]. destruct Hstop as [?|Hl]; [done|].
    apply last_Some in Hl as [l ->]. apply Forall_app in Hev as [_ Hev].
    apply Forall_cons in Hev as [[_ ?] _]. done.
  - right. exists (prefix ++ before). rewrite Forall_app, (assoc_L (++)). done.
Qed.

Lemma decide_start_settled tenant at_ms evs :
  routing_inv d (RoutingState_from st) →
  decide_start d st ctx tenant at_ms = Ok evs → settled d at_ms st evs.
Proof using Hok Hplain Hcfg.
  intros Hinv H. unfold decide_start in H. apply bind_Ok in H as (? & _ & H).
  apply bind_Ok in H as (node & _ & H). destruct node; try done.
  apply bind_Ok in H as (more & Hact & [= <-]).
  eapply (activate_settles _ [_]); [by repeat constructor|done|exact Hinv|done].
Qed.

Lemma complete_and_continue_settled k next completed vars at_ms evs :
  routing_inv d (RoutingState_from st) →
  routine_at at_ms completed →
  (∀ rt, evolve_routing rt completed =
     set_tokens rt (release_tokens (rt_active_tokens rt) k 1)) →
  complete_and_continue d st ctx k next completed vars at_ms = Ok evs → settled d at_ms st evs.
Proof using Hok Hplain Hcfg.
  intros Hinv Hcomp Hev H. unfold complete_and_continue in H.
  apply bind_Ok in H as (rt1 & Htask & H). pose proof (complete_task_replay _ _ _ Htask) as ->.
  destruct (disarm_boundary_events _ _ _) as [rt2 disarmed] eqn:Hd.
  apply bind_Ok in H as (scope & _ & H). apply bind_Ok in H as (more & Hact & [= <-]).
  eapply (activate_settles _ (completed :: disarmed)); [..|exact Hact].
  - constructor; [done|]. by eapply disarm_boundary_events_events.
  - eapply replays_cons; [apply Hev|]. by eapply disarm_boundary_events_replay.
  - apply disarm_boundary_events_core in Hd as ->.
    unfold complete_task in Htask. apply bind_Ok in Htask as (c & Hc%ok_or_Ok & _).
    by eapply release_disarm_inv.
Qed.

Lemma finish_iterations_settled k i next sat rt b at_ms evs :
  routing_inv d (RoutingState_from st) →
  routing_complete_iteration (RoutingState_from st) k i = Ok (rt, b) →
  finish_iterations d st ctx k next sat rt at_ms = Ok evs →
  settled d at_ms st (MultiInstanceIterationCompleted k i at_ms :: evs).
Proof using Hok Hplain Hcfg.
  intros Hinv Hcomp H. unfold finish_iterations in H.
  set (cancelled := if sat then _ else _) in H.
  destruct (disarm_boundary_events _ _ _) as [rt2 disarmed] eqn:Hd.
  apply bind_Ok in H as (scope & _ & H). apply bind_Ok in H as (more & Hact & [= <-]).
  eapply (activate_settles _ (MultiInstanceIterationCompleted k i at_ms ::
    MultiInstanceCompleted k sat cancelled at_ms :: disarmed)); [..|exact Hact].
  - constructor; [done|]. constructor; [done|]. by eapply disarm_boundary_events_events.
  - eapply replays_cons; [by eapply complete_iteration_replay|].
    eapply replays_cons; [done|]. by eapply disarm_boundary_events_replay.
  - apply disarm_boundary_events_core in Hd as ->.
    apply complete_iteration_inv in Hcomp as (a & Ha & _ & -> & _).
    unfold finish_multi_instance. simpl. rewrite delete_insert_eq.
    by eapply (finish_disarm_inv d Hok (RoutingState_from st)).
Qed.

Lemma continue_iterations_settled k i rt at_ms evs :
  routing_inv d (RoutingState_from st) →
  routing_complete_iteration (RoutingState_from st) k i = Ok (rt, false) →
  continue_iterations k rt at_ms = Ok evs →
  settled d at_ms st (MultiInstanceIterationCompleted k i at_ms :: evs).
Proof using Type.
  intros Hinv Hcomp H. pose proof (complete_iteration_replay _ _ _ _ _ at_ms Hcomp) as Hrep.
  apply complete_iteration_inv in Hcomp as (a & Ha & Hi & -> & Hb).
  destruct (inv_loops d _ (proj1 Hinv) _ _ Ha) as (Hrest & _ & _).
  unfold continue_iterations in H. simpl in H. rewrite lookup_insert_eq in H. simpl in H.
  destruct (N.ltb_spec (am_next_iteration a) (am_total_instances a)) as [Hlt|Hge].
  - apply bind_Ok in H as ([rt2 [[n tt] item]] & Hnext & [= <-]).
    pose proof (activate_next_replay _ _ _ _ _ _ at_ms Hnext) as Hrep2.
    apply activate_next_inv in Hnext as (a1 & Ha1 & _ & _ & ->).
    cbn [rt_active_multi_instances set_multi_instances] in Ha1.
    rewrite lookup_insert_eq in Ha1. injection Ha1 as <-.
    exists (set_multi_instances (RoutingState_from st) (<[k:=mi_activated (mi_completed a i)]>
      (rt_active_multi_instances (RoutingState_from st)))).
    split; [eapply replays_cons, replays_one; [exact Hrep|]|].
    { etrans; [exact Hrep2|]. simpl. by rewrite insert_insert_eq. }
    destruct (complete_then_activate_rest a i Hrest Hi Hlt) as [Hrest2 _].
    split; [by eapply (update_loop_inv d (RoutingState_from st))|]. left.
    split; [by repeat constructor|]. eapply outstanding_loop. simpl. apply lookup_insert_eq.
  - injection H as <-. eexists. split; [apply replays_one, Hrep|].
    pose proof (mc_total _ (mr_core _ Hrest)).
    split; [eapply (update_loop_inv d (RoutingState_from st)); [done..|]|].
    + apply complete_rest; [done|done|lia|]. simpl in *. lia.
    + left. split; [by repeat constructor|]. eapply outstanding_loop. simpl. apply lookup_insert_eq.
Qed.

Lemma complete_multi_instance_iteration_settled k i at_ms evs :
  routing_inv d (RoutingState_from st) →
  complete_multi_instance_iteration d st ctx k i at_ms = Ok evs → settled d at_ms st evs.
Proof using Hok Hplain Hcfg.
  intros Hinv H. unfold complete_multi_instance_iteration in H.
  do 4 apply bind_Ok in H as (? & _ & H).
  apply bind_Ok in H as ([rt b] & Hcomp & H). apply bind_Ok in H as (spec & _ & H).
  apply bind_Ok in H as (sat & _ & H). apply bind_Ok in H as (more & Hm & [= <-]).
  destruct b; simpl in Hm; [by eapply finish_iterations_settled|].
  destruct sat; [by eapply finish_iterations_settled|by eapply continue_iterations_settled].
Qed.

(** What a trigger emits before it activates the target. *)
Lemma trigger_boundary_prefix id at_ms evs :
  routing_inv d (RoutingState_from st) →
  trigger_boundary_event d st ctx id at_ms = Ok evs →
  ∃ b owner iterations tokens cut rt vars scope more,
    let prefix := BoundaryEventTriggered (be_id b) owner (be_target b) (be_cancel_activity b)
      iterations tokens at_ms :: cut in
    evs = prefix ++ more ∧
    (cut = [] ∨ ∃ reason, cut = [UserTaskCancelled owner reason at_ms]) ∧
    replays (RoutingState_from st) prefix rt ∧ routing_inv d rt ∧
    activate d ctx at_ms (be_target b) vars rt scope = Ok more.
Proof using Hok.
  intros Hinv H. unfold trigger_boundary_event in H.
  apply bind_Ok in H as (sub & Hsub%ok_or_Ok & H). apply bind_Ok in H as (b & _ & H).
  apply bind_Ok in H as ([] & _ & H). apply bind_Ok in H as ([] & Hact%bail_if_Ok & H).
  apply bind_Ok in H as ([] & Hscope%bail_if_Ok & H).
  set (cit := (if be_cancel_activity b then _ else [] : list N)) in H.
  set (owner := ab_attached_node_id sub) in *.
  apply bind_Ok in H as (cut & Hcut & H). apply bind_Ok in H as (rt & Hrt & H).
  apply bind_Ok in H as (scope & _ & H). apply bind_Ok in H as (more & Hmore & [= <-]).
  assert (cut = [] ∨ ∃ reason, cut = [UserTaskCancelled owner reason at_ms]) as Hshape.
  { destruct (be_cancel_activity b); [|simplify_eq; auto].
    apply bind_Ok in Hcut as (node & _ & [= <-]). destruct (is_user_task node); eauto. }
  do 9 eexists. split_and!; [done|exact Hshape| | |exact Hmore].
  - assert (replays rt cut rt) as Hcr by (by destruct Hshape as [->|[? ->]]).
    eapply replays_cons, Hcr. destruct (be_cancel_activity b); simpl in *; [|by simplify_eq].
    by apply (cancel_activity_spec d (RoutingState_from st)) in Hrt; [|by destruct Hinv].
  - destruct (be_cancel_activity b); simpl in *; [|by simplify_eq].
    apply (cancel_activity_spec d (RoutingState_from st)) in Hrt as ->; [|by destruct Hinv].
    apply (cancelled_inv d Hok (RoutingState_from st)); [done|]. simpl.
    rewrite Hscope in Hact. simpl in Hact. rewrite andb_true_r in Hact.
    destruct (st_active_tokens st !! owner); [eauto|].
    destruct (st_active_multi_instances st !! owner); [eauto|done].
Qed.

Lemma trigger_boundary_event_settled id at_ms evs :
  routing_inv d (RoutingState_from st) →
  trigger_boundary_event d st ctx id at_ms = Ok evs → settled d at_ms st evs.
Proof using Hok Hplain Hcfg.
  intros Hinv H. apply trigger_boundary_prefix in H
    as (b & owner & its & tks & cut & rt & vars & scope & more & -> & Hcut & Hrep & Hrt & Hmore); [|done].
  eapply activate_settles; [|exact Hrep|exact Hrt|exact Hmore].
  constructor; [done|]. destruct Hcut as [->|[reason ->]]; by repeat constructor.
Qed.

(** ** All workflow commands *)
Definition command_at (c : Command) : N :=
  match c with
  | ActivateCase _ _ t | EvaluateCaseSentries _ t | StartWorkflow _ t | CompleteServiceTask _ _ t
  | CompleteUserTask _ _ t | CompleteScriptTask _ t | CompleteMultiInstanceIteration _ _ t
  | TriggerBoundaryEvent _ t => t
  end.

Definition is_case_command (c : Command) : bool :=
  match c with ActivateCase _ _ _ | EvaluateCaseSentries _ _ => true | _ => false end.

Lemma decide_settled cmd evs :
  routing_inv d (RoutingState_from st) → is_case_command cmd = false →
  Workflow.decide d st ctx cmd = Ok evs → settled d (command_at cmd) st evs.
Proof using Hok Hplain Hcfg.
  intros Hinv Hcmd H. apply bind_Ok in H as (evs' & H & H2).
  apply bind_Ok in H2 as (? & _ & [= ->]).
  destruct cmd; try done; simpl in H; unfold when_active in H; destruct (st_lifecycle st); try done.
  1: by apply decide_start_settled in H.
  1-3: destruct (has_token st _); [|done]; apply bind_Ok in H as (node & _ & H);
       destruct node; try done;
       first [by eapply complete_and_continue_settled in H
             |apply bind_Ok in H as (? & _ & H); by eapply complete_and_continue_settled in H].
  - by eapply complete_multi_instance_iteration_settled.
  - by eapply trigger_boundary_event_settled.
Qed.
End decisions.

(** ** Time stamps

    Every event of a decision carries the time of its command, in any state. *)
Section time.
Context (d : WorkflowDefinition) (st : InstanceState) (ctx : DecisionContext).

Definition stamped (at_ms : N) (evs : list DomainEvent) : Prop :=
  Forall (λ e, event_time e = at_ms) evs.

Lemma routine_stamped at_ms evs : Forall (routine_at at_ms) evs → stamped at_ms evs.
Proof. intros H. eapply Forall_impl; [exact H|]. by intros e []. Qed.

Lemma activation_loop_stamped cfg at_ms fuel start vars rt pending vars' rt' evs :
  activation_loop d cfg at_ms fuel start vars rt pending = Ok (vars', rt', evs) →
  stamped at_ms evs.
Proof.
  revert vars rt pending evs. induction fuel as [|fuel IH];
    intros vars rt [|[cur scope] rest] evs H; simpl in H; simplify_eq; [constructor..|].
  apply bind_Ok in H as (node & _ & H).
  apply bind_Ok in H as ([[[vars1 rt1] evs1] pushed] & Hstep & H).
  apply bind_Ok in H as ([[vars2 rt2] evs2] & Hloop & [= <- <- <-]).
  apply Forall_app. split; [|by eapply IH].
  apply node_step_events in Hstep as [?%routine_stamped|(-> & _)]; [done|by repeat constructor].
Qed.

Lemma activate_stamped at_ms next vars rt scope evs :
  activate d ctx at_ms next vars rt scope = Ok evs → stamped at_ms evs.
Proof.
  intros H. apply bind_Ok in H as ([[v rt'] evs'] & Hact & [= <-]).
  by eapply activation_loop_stamped.
Qed.

Lemma disarm_stamped at_ms k rt rt' evs :
  disarm_boundary_events at_ms k rt = (rt', evs) → stamped at_ms evs.
Proof. intros H. by eapply routine_stamped, disarm_boundary_events_events. Qed.

Lemma complete_and_continue_stamped k next completed vars at_ms evs :
  event_time completed = at_ms →
  complete_and_continue d st ctx k next completed vars at_ms = Ok evs → stamped at_ms evs.
Proof.
  intros Hc H. apply bind_Ok in H as (rt1 & _ & H).
  destruct (disarm_boundary_events _ _ _) as [rt2 dis] eqn:Hd. apply disarm_stamped in Hd.
  apply bind_Ok in H as (scope & _ & H). apply bind_Ok in H as (more & Hm%activate_stamped & [= <-]).
  constructor; [done|]. by apply Forall_app.
Qed.

Lemma complete_multi_instance_stamped k i at_ms evs :
  complete_multi_instance_iteration d st ctx k i at_ms = Ok evs → stamped at_ms evs.
Proof.
  intros H. do 4 apply bind_Ok in H as (? & _ & H).
  apply bind_Ok in H as ([rt b] & _ & H). do 2 apply bind_Ok in H as (? & _ & H).
  apply bind_Ok in H as (more & Hm & [= <-]). constructor; [done|]. destruct (b || _).
  - unfold finish_iterations in Hm. cbv zeta in Hm.
    destruct (disarm_boundary_events _ _ _) as [rt2 dis] eqn:Hd. apply disarm_stamped in Hd.
    apply bind_Ok in Hm as (? & _ & Hm). apply bind_Ok in Hm as (? & Ha%activate_stamped & [= <-]).
    constructor; [done|]. by apply Forall_app.
  - unfold continue_iterations in Hm. apply bind_Ok in Hm as (a & _ & Hm).
    destruct (_ <? _)%N; [|simplify_eq; constructor].
    apply bind_Ok in Hm as ([? [[??]?]] & _ & [= <-]). by repeat constructor.
Qed.

Lemma trigger_boundary_stamped id at_ms evs :
  trigger_boundary_event d st ctx id at_ms = Ok evs → stamped at_ms evs.
Proof.
  intros H. unfold trigger_boundary_event in H. do 5 apply bind_Ok in H as (? & _ & H).
  apply bind_Ok in H as (cut & Hcut & H). do 2 apply bind_Ok in H as (? & _ & H).
  apply bind_Ok in H as (more & Hm%activate_stamped & [= <-]). constructor; [done|].
  apply Forall_app. split; [|done]. destruct (be_cancel_activity _); [|simplify_eq; constructor].
  apply bind_Ok in Hcut as (node & _ & [= <-]). destruct (is_user_task node); by repeat constructor.
Qed.
End time.

(** ** The shape of an iteration completion *)
Lemma complete_iteration_shape d st ctx k i at_ms evs a :
  st_active_multi_instances st !! k = Some a →
  complete_multi_instance_iteration d st ctx k i at_ms = Ok evs →
  i ∈ am_active_iterations a ∧
  let finished :=
    N.of_nat (size (am_completed_iterations (mi_completed a i))) = am_total_instances a in
  ∃ more, evs = MultiInstanceIterationCompleted k i at_ms :: more ∧
  ((∃ sat cancelled rest,
      more = MultiInstanceCompleted k sat cancelled at_ms :: rest ∧
      (if (sat : bool) then ¬ finished ∧
         ∀ j, j ∈ cancelled ↔ j ∈ am_active_iterations a ∧ j ≠ i
       else finished ∧ cancelled = [])) ∨
   (¬ finished ∧ (am_next_iteration a < am_total_instances a)%N ∧
      more = [MultiInstanceIterationActivated k (am_task_type a) (am_next_iteration a)
                (am_items a !! N.to_nat (am_next_iteration a)) at_ms]) ∨
   (¬ finished ∧ (am_total_instances a ≤ am_next_iteration a)%N ∧ more = [])).
Proof.
  intros Ha H. unfold complete_multi_instance_iteration in H.
  do 2 apply bind_Ok in H as (? & _ & H). apply bind_Ok in H as (a' & Ha'%ok_or_Ok & H). simplify_eq.
  apply bind_Ok in H as ([] & Hi%bail_if_Ok & H). apply bool_decide_eq_false, dec_stable in Hi.
  apply bind_Ok in H as ([rt b] & Hcomp & H).
  apply complete_iteration_inv in Hcomp as (a0 & Ha0 & _ & -> & Hb). simpl in Ha0. simplify_eq.
  apply bind_Ok in H as (spec & _ & H). apply bind_Ok in H as (sat & Hsat & H).
  apply bind_Ok in H as (more & Hm & [= <-]). split; [done|]. cbv zeta. exists more.
  split; [done|].
  destruct (_ =? _)%N eqn:Hfin in Hsat, Hm; [apply N.eqb_eq in Hfin|apply N.eqb_neq in Hfin].
  - left. injection Hsat as <-. unfold finish_iterations in Hm. cbv zeta in Hm.
    destruct (disarm_boundary_events _ _ _). apply bind_Ok in Hm as (? & _ & Hm).
    apply bind_Ok in Hm as (? & _ & [= <-]). exists false. by do 2 eexists.
  - destruct sat; simpl in Hm.
    + left. unfold finish_iterations in Hm. cbv zeta in Hm.
      cbn [rt_active_multi_instances set_multi_instances] in Hm. rewrite lookup_insert_eq in Hm.
      destruct (disarm_boundary_events _ _ _). apply bind_Ok in Hm as (? & _ & Hm).
      apply bind_Ok in Hm as (? & _ & [= <-]). exists true. do 2 eexists. split; [done|].
      split; [done|]. intros j. rewrite elem_of_u32_set_iter. simpl. set_solver.
    + right. unfold continue_iterations in Hm.
      cbn [rt_active_multi_instances set_multi_instances] in Hm. rewrite lookup_insert_eq in Hm.
      simpl in Hm. destruct (N.ltb_spec (am_next_iteration a) (am_total_instances a)).
      * left. apply bind_Ok in Hm as ([rt2 [[n tt] item]] & Hn & [= <-]).
        unfold activate_next_multi_instance in Hn.
        cbn [rt_active_multi_instances set_multi_instances] in Hn. rewrite lookup_insert_eq in Hn.
        inv_res Hn. by simplify_eq.
      * right. by simplify_eq.
Qed.

(** ** What a boundary trigger does to its owner *)
Lemma trigger_boundary_shape d st ctx id at_ms evs sub :
  definition_ok d → routing_inv d (RoutingState_from st) →
  st_active_boundary_subscriptions st !! id = Some sub →
  trigger_boundary_event d st ctx id at_ms = Ok evs →
  let owner := ab_attached_node_id sub in
  ∃ cancelled_iterations tokens cut more,
    evs = (BoundaryEventTriggered id owner (ab_target_node_id sub) (ab_cancel_activity sub)
             cancelled_iterations tokens at_ms :: cut) ++ more ∧
    (∀ e, e ∈ cut → e = UserTaskCancelled owner ("boundary:" +:+ id) at_ms) ∧
    let rt := foldl evolve_routing (RoutingState_from st)
      (BoundaryEventTriggered id owner (ab_target_node_id sub) (ab_cancel_activity sub)
         cancelled_iterations tokens at_ms :: cut) in
    if ab_cancel_activity sub then
      rt = cancelled (RoutingState_from st) owner tokens ∧ ¬ owner_active rt owner ∧
      armed_for (rt_active_boundary_subscriptions rt) owner = [] ∧
      (∀ j, j ∈ cancelled_iterations ↔
         ∃ a, st_active_multi_instances st !! owner = Some a ∧ j ∈ am_active_iterations a)
    else rt = RoutingState_from st ∧ cancelled_iterations = [] ∧ tokens = 0%N.
Proof.
  intros Hok Hinv Hsub H. cbv zeta. unfold trigger_boundary_event in H. rewrite Hsub in H. simpl in H.
  destruct Hinv as [Hcore Hbd].
  destruct (inv_armed d _ Hbd _ _ Hsub) as [Hown (b & Hb & <- & -> & -> & _)].
  rewrite (boundary_event_spec d _ _ Hok Hb) in H. simpl in H.
  apply bind_Ok in H as ([] & _ & H). apply bind_Ok in H as ([] & _ & H).
  apply bind_Ok in H as ([] & Hscope%bail_if_Ok & H).
  set (owner := ab_attached_node_id sub) in *.
  apply bind_Ok in H as (cut & Hcut & H). do 2 apply bind_Ok in H as (? & _ & H).
  apply bind_Ok in H as (more & _ & [= <-]).
  do 2 eexists. exists cut, more. split; [done|].
  assert (∀ e, e ∈ cut → e = UserTaskCancelled owner ("boundary:" +:+ be_id b) at_ms) as Hcut'.
  { destruct (be_cancel_activity b); [|by simplify_eq; set_solver].
    apply bind_Ok in Hcut as (node & _ & [= <-]). destruct (is_user_task node); set_solver. }
  split; [done|].
  assert (∀ rt, foldl evolve_routing rt cut = rt) as Hnop.
  { clear -Hcut'. induction cut as [|e l IH]; intros rt; simpl; [done|].
    rewrite (Hcut' e) by (by left). apply IH. intros e' He'. apply Hcut'. by right. }
  simpl. rewrite Hnop. destruct (be_cancel_activity b) eqn:Hc; [|done]. simpl in *.
  split; [done|]. split; [|split].
  - unfold owner_active. simpl. rewrite lookup_delete_eq.
    intros [Htok|[[? [=]]|(s & sc & Hs & Heq)]].
    + destruct (st_active_tokens st !! owner) as [c|] eqn:Ht; simpl in Htok;
        unfold release_tokens in Htok; rewrite Ht in Htok;
        [|simpl in Htok; rewrite Ht in Htok; by destruct Htok].
      rewrite (inv_single d _ Hbd _ _ Ht) in Htok by (intros Hnil; rewrite Hnil in Hb; set_solver).
      simpl in Htok. rewrite lookup_delete_eq in Htok. by destruct Htok.
    + destruct (find_scope st owner) eqn:Hf; [done|]. unfold find_scope in Hf.
        eapply find_none in Hf; [|by apply list_elem_of_In, elem_of_btree_values; eauto].
        by apply bool_decide_eq_false in Hf.
  - destruct (armed_for _ owner) as [|i l] eqn:Ha; [done|]. exfalso.
      assert (i ∈ armed_for (filter (λ p, ab_attached_node_id p.2 ≠ owner)
        (st_active_boundary_subscriptions st)) owner) as Hi by (rewrite Ha; by left).
      apply elem_of_armed_for in Hi as (s & [_ Hne]%map_lookup_filter_Some & Heq). done.
  - intros j. destruct (st_active_multi_instances st !! owner) as [a|].
    + rewrite elem_of_u32_set_iter. split; [eauto|]. by intros (? & [= <-] & ?).
    + split; [set_solver|]. by intros (? & [=] & _).
Qed.
