(* ===== verification/CaseSpec.v ===== *)
(** * What CMMN case decisions do

    Replaying the events of a case decision gives the projection the decision
    computed; the final status of each plan item is a function of its status
    before and of the satisfied sentries; a case is completed exactly when all
    its plan items are. *)

From S2P Require Import Prelude Types Expr Coverage Config WorkflowDef Routing Evolve Cases.
From stdpp Require Import options.

(** Later in the life of a plan item. *)
Definition status_rank (s : CasePlanItemStatus) : nat :=
  match s with Item_Available => 0 | Item_Active => 1 | Item_Completed => 2 end.

Definition with_items (c : ActiveCase) (sat : gset SentryId) (items : Projection) : ActiveCase :=
  mkActiveCase (ac_model_id c) (ac_lifecycle c) sat items.

(** The status of a stage after one evaluation round. *)
Definition stage_status (sat : gset SentryId) (stage : CaseStageDefinition)
    (current : CasePlanItemStatus) : CasePlanItemStatus :=
  let entered :=
    if bool_decide (current = Item_Available) &&
       any_sentry_satisfied (cs_entry_sentry_ids stage) sat
    then Item_Active else current in
  if bool_decide (entered = Item_Active) && any_sentry_satisfied (cs_exit_sentry_ids stage) sat
  then Item_Completed else entered.

Definition milestone_status (sat : gset SentryId) (milestone : CaseMilestoneDefinition)
    (current : CasePlanItemStatus) : CasePlanItemStatus :=
  if bool_decide (current = Item_Available) &&
     any_sentry_satisfied (cm_entry_sentry_ids milestone) sat
  then Item_Completed else current.

Lemma any_sentry_nonempty ids sat :
  any_sentry_satisfied ids sat = true → is_empty ids = false.
Proof. by destruct ids. Qed.

Lemma any_sentry_satisfied_spec ids sat :
  any_sentry_satisfied ids sat = true ↔ ∃ i, i ∈ ids ∧ i ∈ sat.
Proof.
  unfold any_sentry_satisfied. rewrite existsb_exists.
  setoid_rewrite bool_decide_eq_true. by setoid_rewrite <-list_elem_of_In.
Qed.

Section tracking.
Context (case_id : CaseId) (at_ms : N) (cases : gmap CaseId ActiveCase).

(** [evs] change nothing but the case, which they turn into [c]. *)
Definition tracks (evs : list DomainEvent) (c : ActiveCase) : Prop :=
  foldl evolve_cases cases evs = <[case_id:=c]> cases.

Lemma tracks_snoc evs c e c' :
  tracks evs c → evolve_cases (<[case_id:=c]> cases) e = <[case_id:=c']> cases →
  tracks (evs ++ [e]) c'.
Proof. unfold tracks. rewrite foldl_app. intros ->. done. Qed.

Lemma fire_sentries_spec vars sentries c sat evs :
  cases !! case_id = Some c →
  fire_sentries case_id at_ms vars sentries (ac_satisfied_sentries c) = Ok (sat, evs) →
  tracks evs (with_items c sat (ac_plan_items c)) ∧
  (∀ i, i ∈ sat ↔ i ∈ ac_satisfied_sentries c ∨
     ∃ s, s ∈ sentries ∧ se_id s = i ∧ expression_evaluate (se_condition s) vars = Ok true).
Proof.
  intros Hc Hrun. unfold fire_sentries in Hrun.
  eapply (for_each_inv _ (λ seen acc, tracks acc.2 (with_items c acc.1 (ac_plan_items c)) ∧
    (∀ i, i ∈ acc.1 ↔ i ∈ ac_satisfied_sentries c ∨
       ∃ s, s ∈ seen ∧ se_id s = i ∧ expression_evaluate (se_condition s) vars = Ok true)))
    in Hrun; [exact Hrun| |].
  - split; [|set_solver]. unfold tracks. simpl. rewrite insert_id; [done|]. by destruct c.
  - clear Hrun sat evs. intros seen s [sat evs] [sat' evs'] [Htr Hsat] _ Hf. simpl in *.
    apply bind_Ok in Hf as (fires & Hfire & Hf).
    assert (∀ i, (∃ s', s' ∈ seen ++ [s] ∧ se_id s' = i ∧
        expression_evaluate (se_condition s') vars = Ok true) ↔
      (∃ s', s' ∈ seen ∧ se_id s' = i ∧ expression_evaluate (se_condition s') vars = Ok true) ∨
      (se_id s = i ∧ expression_evaluate (se_condition s) vars = Ok true)) as Hseen.
    { intros i. setoid_rewrite elem_of_app. setoid_rewrite list_elem_of_singleton. naive_solver. }
    case_bool_decide as Hin.
    + simplify_eq. apply Hsat in Hin. split; [done|]. intros i. rewrite Hseen, Hsat.
      split; [tauto|]. intros [?|[?|[<- _]]]; tauto.
    + destruct fires; simplify_eq.
      * split; [|intros i; rewrite Hseen, elem_of_union, elem_of_singleton, Hsat; naive_solver congruence].
        eapply tracks_snoc; [exact Htr|]. simpl. by rewrite alter_insert_eq.
      * split; [done|]. intros i. rewrite Hseen, Hsat.
        split; [tauto|]. intros [?|[?|[_ ?]]]; [tauto..|congruence].
Qed.

(** ** The loops over stages and milestones *)
Lemma push_if_spec c sat (b : bool) acc acc' id it kind status ids :
  acc' = (if b then push_case_transition case_id at_ms acc id kind status ids sat else acc) →
  tracks acc.2 (with_items c sat acc.1) → acc.1 !! id = Some it →
  tracks acc'.2 (with_items c sat acc'.1) ∧
  acc'.1 !! id = Some (if b then mkPlanItem kind status else it) ∧
  (∀ i, i ≠ id → acc'.1 !! i = acc.1 !! i).
Proof.
  intros -> Htr Hit. destruct b; [|done]. simpl. split_and!.
  - eapply tracks_snoc; [exact Htr|]. simpl. by rewrite alter_insert_eq.
  - apply lookup_insert_eq.
  - intros i Hi. by rewrite lookup_insert_ne.
Qed.

(** [moved kind f it it']: an item of the given kind moved to the status [f]. *)
Definition moved (kind : CasePlanItemKind) (f : CasePlanItemStatus → CasePlanItemStatus)
    (it it' : CasePlanItemState) : Prop :=
  pi_status it' = f (pi_status it) ∧ (pi_kind it = kind → pi_kind it' = kind).

Lemma stage_step_spec c sat acc stage acc' :
  tracks acc.2 (with_items c sat acc.1) →
  stage_step case_id at_ms sat acc stage = Ok acc' →
  tracks acc'.2 (with_items c sat acc'.1) ∧
  (∃ it it', acc.1 !! cs_id stage = Some it ∧ acc'.1 !! cs_id stage = Some it' ∧
    moved Stage (stage_status sat stage) it it') ∧
  (∀ i, i ≠ cs_id stage → acc'.1 !! i = acc.1 !! i).
Proof.
  intros Htr H. unfold stage_step in H. apply bind_Ok in H as (cur & Hcur%ok_or_Ok & H).
  destruct (acc.1 !! cs_id stage) as [it|] eqn:Hit; [|done]. simpl in Hcur. injection Hcur as <-.
  set (enter := bool_decide (pi_status it = Item_Available) && _) in H.
  set (acc1 := if enter then _ else acc) in H.
  destruct (push_if_spec c sat enter acc acc1 _ it _ _ _ eq_refl Htr Hit) as (Htr1 & Hit1 & Ho1).
  rewrite Hit1 in H. injection H as H. symmetry in H.
  destruct (push_if_spec c sat _ acc1 acc' _ _ _ _ _ H Htr1 Hit1) as (Htr2 & Hit2 & Ho2).
  split; [done|]. split; [|intros i Hi; by rewrite Ho2, Ho1].
  do 2 eexists. split; [done|]. split; [exact Hit2|]. clear H Hit1 Hit2 Htr1 Htr2 Ho1 Ho2 Htr acc1.
  unfold moved, stage_status. fold enter. simpl.
  destruct (any_sentry_satisfied (cs_exit_sentry_ids stage) sat) eqn:Hex.
  - rewrite (any_sentry_nonempty _ _ Hex), !andb_true_r. destruct enter; simpl; [done|].
    by destruct it as [kd []].
  - rewrite !andb_false_r. by destruct enter.
Qed.

Lemma milestone_step_spec c sat acc milestone acc' :
  tracks acc.2 (with_items c sat acc.1) →
  milestone_step case_id at_ms sat acc milestone = Ok acc' →
  tracks acc'.2 (with_items c sat acc'.1) ∧
  (∃ it it', acc.1 !! cm_id milestone = Some it ∧ acc'.1 !! cm_id milestone = Some it' ∧
    moved Milestone (milestone_status sat milestone) it it') ∧
  (∀ i, i ≠ cm_id milestone → acc'.1 !! i = acc.1 !! i).
Proof.
  intros Htr H. unfold milestone_step in H. apply bind_Ok in H as (cur & Hcur%ok_or_Ok & H).
  destruct (acc.1 !! cm_id milestone) as [it|] eqn:Hit; [|done]. simpl in Hcur. injection Hcur as <-.
  injection H as H. symmetry in H.
  destruct (push_if_spec c sat _ acc acc' _ _ _ _ _ H Htr Hit) as (Htr2 & Hit2 & Ho2).
  split; [done|]. split; [|done]. do 2 eexists. split; [done|]. split; [exact Hit2|].
  unfold moved, milestone_status.
  destruct (any_sentry_satisfied (cm_entry_sentry_ids milestone) sat) eqn:Hex.
  - rewrite (any_sentry_nonempty _ _ Hex), !andb_true_r. by case_bool_decide.
  - by rewrite !andb_false_r.
Qed.

(** A loop whose body moves one item: with distinct ids, every item of the
    list moves once and the others stay. *)
Lemma item_loop_spec {B} (key : B → PlanItemId) kind
    (f : B → CasePlanItemStatus → CasePlanItemStatus)
    (step : Projection * list DomainEvent → B → result (Projection * list DomainEvent))
    c sat l acc acc' :
  (∀ acc b acc', tracks acc.2 (with_items c sat acc.1) → step acc b = Ok acc' →
    tracks acc'.2 (with_items c sat acc'.1) ∧
    (∃ it it', acc.1 !! key b = Some it ∧ acc'.1 !! key b = Some it' ∧ moved kind (f b) it it') ∧
    (∀ i, i ≠ key b → acc'.1 !! i = acc.1 !! i)) →
  NoDup (key <$> l) → tracks acc.2 (with_items c sat acc.1) →
  for_each step l acc = Ok acc' →
  tracks acc'.2 (with_items c sat acc'.1) ∧
  (∀ b, b ∈ l → ∃ it it', acc.1 !! key b = Some it ∧ acc'.1 !! key b = Some it' ∧
    moved kind (f b) it it') ∧
  (∀ i, i ∉ key <$> l → acc'.1 !! i = acc.1 !! i).
Proof.
  intros Hstep. revert acc. induction l as [|b l IH]; intros acc Hnd Htr H; simpl in H.
  { simplify_eq. set_solver. }
  apply bind_Ok in H as (acc1 & Hb & H). rewrite fmap_cons in Hnd.
  apply NoDup_cons in Hnd as [Hnew Hnd].
  destruct (Hstep _ _ _ Htr Hb) as (Htr1 & (it & it' & H1 & H2 & Hm) & Ho1).
  destruct (IH acc1 Hnd Htr1 H) as (Htr2 & Hall & Ho2). split; [done|]. split.
  - intros b' [-> |Hb']%elem_of_cons.
    + exists it, it'. split_and!; [done| |done]. by rewrite Ho2.
    + destruct (Hall b' Hb') as (i1 & i2 & Hi1 & Hi2 & Hm').
      exists i1, i2. split_and!; [|done|done]. rewrite <-Hi1. symmetry. apply Ho1.
      intros Heq. apply Hnew. rewrite <-Heq. by apply list_elem_of_fmap_2.
  - intros i Hi. rewrite fmap_cons in Hi. rewrite Ho2, Ho1 by set_solver. done.
Qed.
End tracking.

(** ** A validated model *)
Definition item_ids (model : CaseDefinition) : list PlanItemId :=
  (cs_id <$> cd_stages model) ++ (cm_id <$> cd_milestones model).

Lemma validate_case_definition_spec model :
  validate_case_definition model = Ok tt →
  NoDup (se_id <$> cd_sentries model) ∧ NoDup (item_ids model) ∧
  (∀ stage i, stage ∈ cd_stages model → i ∈ cs_entry_sentry_ids stage ++ cs_exit_sentry_ids stage →
     i ∈ se_id <$> cd_sentries model) ∧
  (∀ m i, m ∈ cd_milestones model → i ∈ cm_entry_sentry_ids m → i ∈ se_id <$> cd_sentries model).
Proof.
  unfold validate_case_definition. cbv zeta. intros H.
  set (ids := list_to_set (se_id <$> cd_sentries model) : gset SentryId) in H.
  assert (∀ l, check_sentry_ids model ids l = Ok tt → ∀ i, i ∈ l → i ∈ se_id <$> cd_sentries model)
    as Hids.
  { intros l Hl i Hi. unfold check_sentry_ids in Hl. rewrite for_each_unit in Hl.
    apply Hl, bail_if_Ok, bool_decide_eq_false, dec_stable in Hi.
    by apply elem_of_list_to_set in Hi. }
  apply bind_Ok in H as ([] & Hsz%bail_if_Ok & H).
  apply bind_Ok in H as (p1 & H1 & H). apply bind_Ok in H as (p2 & H2 & _).
  apply bool_decide_eq_false, dec_stable in Hsz.
  rewrite <-(length_fmap se_id) in Hsz. apply NoDup_dup_free in Hsz. split; [done|].
  eapply (for_each_inv _ (λ seen p, (∀ i, i ∈ p ↔ i ∈ cs_id <$> seen) ∧ NoDup (cs_id <$> seen) ∧
    ∀ stage i, stage ∈ seen → i ∈ cs_entry_sentry_ids stage ++ cs_exit_sentry_ids stage →
      i ∈ se_id <$> cd_sentries model)) in H1 as (Hp1 & Hnd1 & Hs1); [| |].
  - eapply (for_each_inv _ (λ seen p,
      (∀ i, i ∈ p ↔ i ∈ (cs_id <$> cd_stages model) ++ (cm_id <$> seen)) ∧
      NoDup ((cs_id <$> cd_stages model) ++ (cm_id <$> seen)) ∧
      ∀ m i, m ∈ seen → i ∈ cm_entry_sentry_ids m → i ∈ se_id <$> cd_sentries model))
      in H2 as (_ & Hnd2 & Hs2); [by unfold item_ids|rewrite app_nil_r; split_and!; set_solver|].
    intros seen m q q' (Hq & Hnd & Hs) _ Hf. inv_res Hf.
    apply bool_decide_eq_false in Hv. rewrite Hq in Hv. destruct v0.
    rewrite !fmap_app, (assoc_L (++)). split_and!.
    + intros i. rewrite elem_of_union, elem_of_singleton, Hq. set_solver.
    + apply NoDup_app. split_and!; [done|set_solver|apply NoDup_singleton].
    + intros m' i [?| ->%list_elem_of_singleton]%elem_of_app Hi; [eauto|by eapply Hids].
  - split_and!; [set_solver|constructor|set_solver].
  - intros seen stage q q' (Hq & Hnd & Hs) _ Hf. inv_res Hf.
    apply bool_decide_eq_false in Hv. rewrite Hq in Hv. destruct v0.
    rewrite !fmap_app. split_and!.
    + intros i. rewrite elem_of_union, elem_of_singleton, Hq. set_solver.
    + apply NoDup_app. split_and!; [done|set_solver|apply NoDup_singleton].
    + intros m' i [?| ->%list_elem_of_singleton]%elem_of_app Hi; [eauto|by eapply Hids].
Qed.

(** ** Evaluating sentries *)
Lemma all_completed_spec items :
  all_completed items = true ↔
  (∃ i, is_Some (items !! i)) ∧ ∀ i it, items !! i = Some it → pi_status it = Item_Completed.
Proof.
  unfold all_completed. rewrite andb_true_iff, negb_true_iff, forallb_forall.
  setoid_rewrite <-list_elem_of_In. setoid_rewrite elem_of_btree_values.
  setoid_rewrite bool_decide_eq_true.
  rewrite <-not_true_iff_false, map_is_empty_true. split; intros [Hne Hall].
  - split; [|naive_solver]. apply map_choose in Hne as (i & x & Hi). eauto.
  - split; [|naive_solver]. destruct Hne as [i [x Hi]]. intros ->. done.
Qed.

Section evaluate.
Context (d : WorkflowDefinition) (st : InstanceState) (case_id : CaseId) (at_ms : N).

(** One evaluation round, as a function of the case before it. *)
Lemma evaluate_case_sentries_spec facts evs :
  definition_ok d →
  evaluate_case_sentries d st case_id at_ms facts = Ok evs →
  ∃ c model sat items,
    st_active_cases st !! case_id = Some c ∧ ac_lifecycle c = Case_Active ∧
    wd_case_models d !! ac_model_id c = Some model ∧
    foldl evolve_cases (st_active_cases st) evs =
      <[case_id:=mkActiveCase (ac_model_id c)
          (if all_completed items then Case_Completed else Case_Active) sat items]>
        (st_active_cases st) ∧
    (∀ i, i ∈ sat ↔ i ∈ ac_satisfied_sentries c ∨ ∃ s, s ∈ cd_sentries model ∧ se_id s = i ∧
       expression_evaluate (se_condition s) (state_variables_with_context st facts) = Ok true) ∧
    (∀ stage, stage ∈ cd_stages model → ∃ it it', ac_plan_items c !! cs_id stage = Some it ∧
       items !! cs_id stage = Some it' ∧ moved Stage (stage_status sat stage) it it') ∧
    (∀ m, m ∈ cd_milestones model → ∃ it it', ac_plan_items c !! cm_id m = Some it ∧
       items !! cm_id m = Some it' ∧ moved Milestone (milestone_status sat m) it it') ∧
    (∀ i, i ∉ item_ids model → items !! i = ac_plan_items c !! i).
Proof.
  intros Hok H. unfold evaluate_case_sentries in H.
  apply bind_Ok in H as (c & Hc%ok_or_Ok & H). apply bind_Ok in H as ([] & Hl%bail_if_Ok & H).
  apply bool_decide_eq_false in Hl. apply bind_Ok in H as (model & Hm%ok_or_Ok & H).
  destruct (ok_case d Hok _ _ Hm) as [_ Hval].
  apply validate_case_definition_spec in Hval as (_ & Hnd & _ & _).
  apply NoDup_app in Hnd as (Hnd1 & Hdisj & Hnd2).
  apply bind_Ok in H as ([sat evs1] & Hfire & H). apply bind_Ok in H as ([] & _ & H).
  apply bind_Ok in H as ([items1 evs2] & Hst & H). apply bind_Ok in H as ([items evs3] & Hms & [= <-]).
  eapply fire_sentries_spec in Hfire as [Htr Hsat]; [|exact Hc].
  eapply (item_loop_spec _ _ cs_id Stage (stage_status sat)) in Hst as (Htr1 & Hall1 & Ho1);
    [|intros; by eapply stage_step_spec|done|exact Htr].
  eapply (item_loop_spec _ _ cm_id Milestone (milestone_status sat)) in Hms as (Htr2 & Hall2 & Ho2);
    [|intros; by eapply milestone_step_spec|done|exact Htr1].
  simpl in *. exists c, model, sat, items.
  assert (ac_lifecycle c = Case_Active) as Hact by (by destruct (ac_lifecycle c)).
  split_and!; [done|done|done| |done| | |].
  - rewrite foldl_app, Htr2. unfold with_items. rewrite Hact.
    destruct (all_completed items); simpl; [by rewrite alter_insert_eq|done].
  - intros stage Hs. destruct (Hall1 stage Hs) as (it & it' & ? & Hi & ?).
    exists it, it'. split_and!; [done| |done]. rewrite Ho2; [done|].
    apply Hdisj. by apply list_elem_of_fmap_2.
  - intros m Hm'. destruct (Hall2 m Hm') as (it & it' & Hi & ? & ?).
    exists it, it'. split_and!; [|done|done]. rewrite <-Hi. symmetry. apply Ho1.
    intros Hin. apply (Hdisj _ Hin). by apply list_elem_of_fmap_2.
  - intros i Hi. unfold item_ids in Hi. rewrite Ho2, Ho1; [done|set_solver..].
Qed.
End evaluate.

(** ** The invariant of an active case *)
Record case_ok (d : WorkflowDefinition) (c : ActiveCase) (model : CaseDefinition) : Prop := {
  co_model : wd_case_models d !! ac_model_id c = Some model;
  co_items i : is_Some (ac_plan_items c !! i) ↔ i ∈ item_ids model;
  co_stage stage :
    stage ∈ cd_stages model → ∃ s, ac_plan_items c !! cs_id stage = Some (mkPlanItem Stage s);
  co_milestone m :
    m ∈ cd_milestones model →
    ∃ s, ac_plan_items c !! cm_id m = Some (mkPlanItem Milestone s) ∧ s ≠ Item_Active;
  co_sentries i : i ∈ ac_satisfied_sentries c → i ∈ se_id <$> cd_sentries model;
  co_completed : ac_lifecycle c = Case_Completed ↔ all_completed (ac_plan_items c) = true;
}.

Definition cases_inv (d : WorkflowDefinition) (cases : gmap CaseId ActiveCase) : Prop :=
  ∀ id c, cases !! id = Some c → ∃ model, case_ok d c model.

Lemma cases_inv_insert d cases id c model :
  cases_inv d cases → case_ok d c model → cases_inv d (<[id:=c]> cases).
Proof. intros Hinv Hc i c' [[<- <-]|[_ Hi]]%lookup_insert_Some; eauto. Qed.

(** The plan items of a fresh case. *)
Lemma extend_available kind ids (m : Projection) i :
  btree_extend m (available kind <$> ids) !! i =
  if bool_decide (i ∈ ids) then Some (mkPlanItem kind Item_Available) else m !! i.
Proof.
  unfold btree_extend. revert m. induction ids as [|j ids IH]; intros m; simpl; [done|].
  rewrite IH. repeat case_bool_decide; try done; try set_solver.
  - assert (i = j) as -> by set_solver. by rewrite lookup_insert_eq.
  - rewrite lookup_insert_ne; [done|set_solver].
Qed.

(** Stages without entry sentries become active at once. *)
Lemma activate_stages cases case_id at_ms c stages items :
  foldl evolve_cases (<[case_id:=with_items c ∅ items]> cases)
    ((λ stage, CasePlanItemTransitioned case_id (cs_id stage) Stage Item_Active [] at_ms) <$> stages) =
  <[case_id:=with_items c ∅
      (foldl (λ m stage, <[cs_id stage:=mkPlanItem Stage Item_Active]> m) items stages)]> cases.
Proof.
  revert items. induction stages as [|stage l IH]; intros items; simpl; [done|].
  rewrite alter_insert_eq. simpl. apply IH.
Qed.

Lemma lookup_activated (items : Projection) stages i :
  foldl (λ m stage, <[cs_id stage:=mkPlanItem Stage Item_Active]> m) items stages !! i =
  if bool_decide (i ∈ cs_id <$> stages) then Some (mkPlanItem Stage Item_Active) else items !! i.
Proof.
  revert items. induction stages as [|stage l IH]; intros items; simpl; [done|].
  rewrite IH. repeat case_bool_decide; try done; try set_solver.
  - assert (i = cs_id stage) as -> by set_solver. by rewrite lookup_insert_eq.
  - rewrite lookup_insert_ne; [done|set_solver].
Qed.

Section case_inv.
Context (d : WorkflowDefinition) (st : InstanceState) (case_id : CaseId) (at_ms : N).
Hypothesis Hok : definition_ok d.

Lemma activate_case_inv model_id evs :
  cases_inv d (st_active_cases st) →
  activate_case d st case_id at_ms model_id = Ok evs →
  cases_inv d (foldl evolve_cases (st_active_cases st) evs).
Proof using Hok.
  intros Hinv H. unfold activate_case in H. apply bind_Ok in H as ([] & _ & H).
  apply bind_Ok in H as (model & Hm%ok_or_Ok & [= <-]).
  destruct (ok_case d Hok _ _ Hm) as [_ Hval].
  apply validate_case_definition_spec in Hval as (_ & Hnd & _ & _).
  apply NoDup_app in Hnd as (_ & Hdisj & _).
  simpl. unfold evolve_case_activated.
  set (items := btree_extend (btree_extend ∅ _) _).
  change (mkActiveCase model_id Case_Active ∅ items) with
    (with_items (mkActiveCase model_id Case_Active ∅ items) ∅ items).
  rewrite activate_stages. set (ready := List.filter _ (cd_stages model)).
  assert (∀ i, i ∈ cs_id <$> ready → i ∈ cs_id <$> cd_stages model) as Hready.
  { intros i (s & -> & Hs)%list_elem_of_fmap. apply list_elem_of_fmap_2.
    apply list_elem_of_In in Hs. apply filter_In in Hs as [Hs _]. by apply list_elem_of_In. }
  assert (∀ i, i ∈ cs_id <$> cd_stages model → i ∉ cm_id <$> cd_milestones model) as Hdis by done.
  set (final := foldl _ items ready).
  assert (∀ i, final !! i = if bool_decide (i ∈ cs_id <$> ready)
    then Some (mkPlanItem Stage Item_Active)
    else if bool_decide (i ∈ cm_id <$> cd_milestones model)
    then Some (mkPlanItem Milestone Item_Available)
    else if bool_decide (i ∈ cs_id <$> cd_stages model)
    then Some (mkPlanItem Stage Item_Available) else None) as Hfinal.
  { intros i. unfold final, items. by rewrite lookup_activated, !extend_available. }
  eapply cases_inv_insert; [done|]. split; simpl.
  - exact Hm.
  - intros i. rewrite Hfinal. unfold item_ids. rewrite elem_of_app.
    repeat case_bool_decide; split; intros; eauto; try naive_solver.
  - intros stage Hs%(list_elem_of_fmap_2 cs_id). rewrite Hfinal.
    repeat case_bool_decide; eauto; by destruct (Hdis (cs_id stage)).
  - intros m Hs%(list_elem_of_fmap_2 cm_id). rewrite Hfinal.
    repeat case_bool_decide; try done; [by destruct (Hdis (cm_id m)); auto|by eexists..].
  - set_solver.
  - split; [done|]. rewrite all_completed_spec. intros [[i [it Hi]] Hall].
    specialize (Hall _ _ Hi). rewrite Hfinal in Hi.
    by repeat case_bool_decide; simplify_eq.
Qed.

Lemma evaluate_case_sentries_inv facts evs :
  cases_inv d (st_active_cases st) →
  evaluate_case_sentries d st case_id at_ms facts = Ok evs →
  cases_inv d (foldl evolve_cases (st_active_cases st) evs).
Proof using Hok.
  intros Hinv H. apply evaluate_case_sentries_spec in H
    as (c & model & sat & items & Hc & Hl & Hm & -> & Hsat & Hst & Hms & Hother); [|done].
  destruct (Hinv _ _ Hc) as (model' & Hcase). destruct Hcase as [Hm' Hitems Hstage Hmile Hsent _].
  simplify_eq. eapply cases_inv_insert; [done|]. split; simpl.
  - exact Hm.
  - intros i. destruct (base.decide (i ∈ item_ids model)) as [Hi|Hi].
    + split; [done|intros _]. apply elem_of_app in Hi
        as [(s & -> & Hs)%list_elem_of_fmap|(s & -> & Hs)%list_elem_of_fmap].
      * destruct (Hst s Hs) as (? & ? & _ & -> & _). eauto.
      * destruct (Hms s Hs) as (? & ? & _ & -> & _). eauto.
    + rewrite (Hother i Hi). apply Hitems.
  - intros stage Hs. destruct (Hstage stage Hs) as (s & Hs1).
    destruct (Hst stage Hs) as (it & [k' s'] & H1 & H2 & _ & Hk). simplify_eq. simpl in Hk.
    rewrite H2, Hk by done. eauto.
  - intros m Hs. destruct (Hmile m Hs) as (s & Hs1 & Hna).
    destruct (Hms m Hs) as (it & [k' s'] & H1 & H2 & Hmv & Hk). simplify_eq. simpl in *.
    exists s'. rewrite H2, Hk by done. split; [done|]. subst s'.
    unfold milestone_status. by destruct (_ && _).
  - intros i [?|(s & Hs & <- & _)]%Hsat; [auto|]. by apply list_elem_of_fmap_2.
  - by destruct (all_completed items).
Qed.
End case_inv.
