(* ===== verification/Instance.v ===== *)
(** * Instances: decisions and replay together

    The states an instance can be in: the default state, the state after the
    events of a successful decision, and the state after a compliance
    termination. Every one of them satisfies [state_inv]. *)

From S2P Require Import Prelude Types Expr Coverage Config WorkflowDef Routing Text Evolve.
From S2P Require Import Activation Cases Decide MultiInstance Simulation Invariant Loop Decisions.
From S2P Require Import CaseSpec.
From stdpp Require Import options.

Inductive instance_reachable (d : WorkflowDefinition) : InstanceState → Prop :=
| instance_initial : instance_reachable d InstanceState_default
| instance_decided st ctx cmd evs :
    instance_reachable d st → config_ok (dc_configuration ctx) →
    Workflow.decide d st ctx cmd = Ok evs → instance_reachable d (foldl evolve st evs)
| instance_terminated st policy digest reason count at_ms :
    instance_reachable d st →
    instance_reachable d
      (evolve st (WorkflowTerminatedForCompliance policy digest reason count at_ms)).

(** A log that decisions wrote, one after the other. *)
Inductive decided (d : WorkflowDefinition) : list DomainEvent → Prop :=
| decided_nil : decided d []
| decided_app evs ctx cmd more :
    decided d evs → config_ok (dc_configuration ctx) →
    Workflow.decide d (foldl evolve InstanceState_default evs) ctx cmd = Ok more →
    decided d (evs ++ more).

Lemma decided_reachable d evs :
  decided d evs → instance_reachable d (foldl evolve InstanceState_default evs).
Proof.
  induction 1 as [|evs ctx cmd more _ IH Hcfg Hd]; [constructor|]. rewrite foldl_app.
  by eapply instance_decided.
Qed.

Record state_inv (d : WorkflowDefinition) (st : InstanceState) : Prop := {
  si_routing : routing_inv d (RoutingState_from st);
  si_cases : cases_inv d (st_active_cases st);
  si_lifecycle :
    has_outstanding_work (RoutingState_from st) =
    match st_lifecycle st with Life_Active _ => true | _ => false end;
}.

(** ** Replay, field by field *)
Lemma replay_cases st evs :
  st_active_cases (foldl evolve st evs) = foldl evolve_cases (st_active_cases st) evs.
Proof. revert st. induction evs as [|e evs IH]; intros st; simpl; [done|]. by rewrite IH. Qed.

Lemma replay_variables st evs :
  st_variables (foldl evolve st evs) = foldl evolve_variables (st_variables st) evs.
Proof. revert st. induction evs as [|e evs IH]; intros st; simpl; [done|]. by rewrite IH. Qed.

Lemma replay_sequence st evs :
  (st_sequence st ≤ u64_max)%N →
  st_sequence (foldl evolve st evs) = N.min (st_sequence st + N.of_nat (length evs)) u64_max.
Proof.
  revert st. induction evs as [|e evs IH]; intros st Hst.
  - cbn [foldl length]. lia.
  - cbn [foldl]. rewrite IH; unfold evolve; simpl; unfold saturating_add; lia.
Qed.

(** Events of the case commands. *)
Definition case_event (e : DomainEvent) : bool :=
  match e with
  | CaseActivated _ _ _ _ _ | CaseSentrySatisfied _ _ _ | CasePlanItemTransitioned _ _ _ _ _ _
  | CaseCompleted _ _ => true
  | _ => false
  end.
Definition case_event_at (at_ms : N) (e : DomainEvent) : Prop :=
  event_time e = at_ms ∧ case_event e = true.

Lemma case_events_frame at_ms st evs :
  Forall (case_event_at at_ms) evs →
  RoutingState_from (foldl evolve st evs) = RoutingState_from st ∧
  st_lifecycle (foldl evolve st evs) = st_lifecycle st ∧
  st_variables (foldl evolve st evs) = st_variables st.
Proof.
  intros Hev. revert st. induction Hev as [|e evs [_ He] _ IH]; intros st; [done|].
  cbn [foldl]. destruct (IH (evolve st e)) as (-> & -> & ->).
  rewrite RoutingState_from_evolve. by destruct e.
Qed.

Lemma routine_cases at_ms e cases : routine_at at_ms e → evolve_cases cases e = cases.
Proof. intros [_ He]. by destruct e. Qed.

Lemma routine_events_cases at_ms evs cases :
  Forall (routine_at at_ms) evs → foldl evolve_cases cases evs = cases.
Proof.
  induction 1 as [|e evs He _ IH]; [done|]. cbn [foldl]. by rewrite (routine_cases _ _ _ He).
Qed.

Lemma routine_lifecycle at_ms e st n :
  routine_at at_ms e → st_lifecycle st = Life_Active n →
  ∃ n', st_lifecycle (evolve st e) = Life_Active n'.
Proof.
  intros [_ He] Hl. unfold evolve. simpl.
  destruct e; simpl in *; try done; rewrite ?Hl; unfold first_active; eauto.
Qed.

Lemma routine_events_lifecycle at_ms evs st n :
  Forall (routine_at at_ms) evs → st_lifecycle st = Life_Active n →
  ∃ n', st_lifecycle (foldl evolve st evs) = Life_Active n'.
Proof.
  intros Hev. revert st n. induction Hev as [|e evs He _ IH]; intros st n Hl; [eauto|].
  cbn [foldl]. destruct (routine_lifecycle _ _ _ _ He Hl) as [n' Hl']. by eapply IH.
Qed.

(** ** Case commands emit case events *)
Section case_commands.
Context (d : WorkflowDefinition) (st : InstanceState) (case_id : CaseId) (at_ms : N).

Lemma activate_case_events model_id evs :
  activate_case d st case_id at_ms model_id = Ok evs → Forall (case_event_at at_ms) evs.
Proof.
  intros H. apply bind_Ok in H as ([] & _ & H). apply bind_Ok in H as (model & _ & [= <-]).
  constructor; [done|]. apply Forall_fmap, Forall_true. done.
Qed.

Lemma push_case_transition_events acc id kind status ids sat :
  Forall (case_event_at at_ms) acc.2 →
  Forall (case_event_at at_ms)
    (push_case_transition case_id at_ms acc id kind status ids sat).2.
Proof. intros H. simpl. apply Forall_app. by repeat constructor. Qed.

Lemma evaluate_case_sentries_events facts evs :
  evaluate_case_sentries d st case_id at_ms facts = Ok evs → Forall (case_event_at at_ms) evs.
Proof.
  intros H. unfold evaluate_case_sentries in H.
  do 2 apply bind_Ok in H as (? & _ & H). apply bind_Ok in H as (model & _ & H).
  apply bind_Ok in H as ([sat evs1] & Hf & H). apply bind_Ok in H as (? & _ & H).
  apply bind_Ok in H as ([p1 evs2] & Hs & H). apply bind_Ok in H as ([p2 evs3] & Hm & [= <-]).
  assert (Forall (case_event_at at_ms) evs1) as H1.
  { change evs1 with (sat, evs1).2.
    eapply (for_each_inv _ (λ _ acc, Forall (case_event_at at_ms) acc.2)); [exact Hf|constructor|].
    intros _ s [sat1 e1] [sat2 e2] He _ Hb. simpl in *. apply bind_Ok in Hb as ([] & _ & Hb);
      simplify_eq; [|done]. apply Forall_app. by repeat constructor. }
  assert (Forall (case_event_at at_ms) evs2) as H2.
  { change evs2 with (p1, evs2).2.
    eapply (for_each_inv _ (λ _ acc, Forall (case_event_at at_ms) acc.2)); [exact Hs|done|].
    intros _ s acc acc' He _ Hb. apply bind_Ok in Hb as (cur & _ & [= <-]).
    repeat (destruct (_ && _)); by repeat apply push_case_transition_events. }
  assert (Forall (case_event_at at_ms) evs3) as H3.
  { change evs3 with (p2, evs3).2.
    eapply (for_each_inv _ (λ _ acc, Forall (case_event_at at_ms) acc.2)); [exact Hm|done|].
    intros _ s acc acc' He _ Hb. apply bind_Ok in Hb as (cur & _ & [= <-]).
    repeat (destruct (_ && _)); by repeat apply push_case_transition_events. }
  apply Forall_app. split; [done|]. destruct (all_completed p2); by repeat constructor.
Qed.
End case_commands.

(** ** The invariant of reachable states *)
Section reachable_states.
Context (d : WorkflowDefinition).
Hypotheses (Hok : definition_ok d) (Hplain : plain_scopes d).

Lemma routing_inv_default : routing_inv d (RoutingState_from InstanceState_default).
Proof using Type.
  split; split; simpl; try done.
  intros k b [[? [=]]|[[? [=]]|(? & ? & [=] & _)]].
Qed.

Lemma clear_work_inv rt : routing_inv d (clear_work rt).
Proof using Type.
  split; split; simpl; try done.
  intros k b [[? [=]]|[[? [=]]|(? & ? & [=] & _)]].
Qed.

(** A workflow command needs an active instance, or starts a fresh one. *)
Lemma decide_active st ctx cmd evs :
  is_case_command cmd = false → Workflow.decide d st ctx cmd = Ok evs →
  (∃ n, st_lifecycle st = Life_Active n) ∨
  (st_lifecycle st = Life_Initial ∧
   ∃ tenant more, evs = WorkflowStarted tenant (wd_workflow_type d) (wd_workflow_version d)
     (wd_start_node d) (command_at cmd) :: more).
Proof using Type.
  intros Hcmd H. apply bind_Ok in H as (evs' & H & H2). apply bind_Ok in H2 as (? & _ & [= ->]).
  destruct cmd; try done; simpl in H; unfold when_active in H;
    destruct (st_lifecycle st); try done; eauto.
  right. split; [done|]. unfold decide_start in H. apply bind_Ok in H as (? & _ & H).
  apply bind_Ok in H as (node & _ & H). destruct node; try done.
  apply bind_Ok in H as (more & _ & [= <-]). eauto.
Qed.

Lemma settled_state_inv st cmd evs :
  state_inv d st → settled d (command_at cmd) st evs →
  ((∃ n, st_lifecycle st = Life_Active n) ∨
   (st_lifecycle st = Life_Initial ∧
    ∃ tenant more, evs = WorkflowStarted tenant (wd_workflow_type d) (wd_workflow_version d)
      (wd_start_node d) (command_at cmd) :: more)) →
  state_inv d (foldl evolve st evs).
Proof using Type.
  intros [Hr Hc Hl] (rt & Hrep & Hinv & Hend) Hstart.
  assert (∀ evs, Forall (routine_at (command_at cmd)) evs → evs ≠ [] →
    (∃ n, st_lifecycle st = Life_Active n) ∨ (∃ tenant more,
      evs = WorkflowStarted tenant (wd_workflow_type d) (wd_workflow_version d)
      (wd_start_node d) (command_at cmd) :: more) →
    ∃ n, st_lifecycle (foldl evolve st evs) = Life_Active n) as Hactive.
  { intros evs' Hev _ [[n Hn]|(tenant & more & ->)]; [by eapply routine_events_lifecycle|].
    apply Forall_cons in Hev as [_ Hev]. cbn [foldl].
    by eapply routine_events_lifecycle. }
  unfold replays in Hrep. split.
  - by rewrite RoutingState_from_replay, Hrep.
  - rewrite replay_cases. destruct Hend as [[Hev _]|(before & Hev & -> & _)].
    + by rewrite (routine_events_cases _ _ _ Hev).
    + by rewrite foldl_app, (routine_events_cases _ _ _ Hev).
  - rewrite RoutingState_from_replay, Hrep. destruct Hend as [[Hev Hw]|(before & Hev & -> & Hw)].
    + rewrite Hw. destruct evs as [|e evs].
      { unfold replays in Hrep. simpl in *. subst rt. by rewrite <-Hl. }
      destruct (Hactive (e :: evs)) as [n ->]; [done|done| |done]. naive_solver.
    + rewrite Hw, foldl_app. done.
Qed.

Lemma decide_state_inv st ctx cmd evs :
  config_ok (dc_configuration ctx) → state_inv d st →
  Workflow.decide d st ctx cmd = Ok evs → state_inv d (foldl evolve st evs).
Proof using Hok Hplain.
  intros Hcfg Hinv H. destruct (is_case_command cmd) eqn:Hcmd.
  - assert (Forall (case_event_at (command_at cmd)) evs ∧
      cases_inv d (foldl evolve_cases (st_active_cases st) evs)) as [Hev Hcases].
    { apply bind_Ok in H as (evs' & H & H2). apply bind_Ok in H2 as (? & _ & [= ->]).
      destruct Hinv as [_ Hc _]. destruct cmd; try done; simpl in *.
      - split; [by eapply activate_case_events|by eapply activate_case_inv].
      - split; [by eapply evaluate_case_sentries_events|by eapply evaluate_case_sentries_inv]. }
    destruct (case_events_frame _ st _ Hev) as (Hrt & Hlife & _). destruct Hinv as [Hr Hc Hl].
    split; [by rewrite Hrt|by rewrite replay_cases|by rewrite Hrt, Hlife].
  - eapply settled_state_inv; [done| |by eapply decide_active].
    eapply decide_settled; try done. by destruct Hinv.
Qed.

Lemma instance_reachable_inv st : instance_reachable d st → state_inv d st.
Proof using Hok Hplain.
  induction 1 as [|st ctx cmd evs _ IH Hcfg Hd|st policy digest reason count at_ms _ IH].
  - split; [apply routing_inv_default|by intros ?? ?|done].
  - by eapply decide_state_inv.
  - split.
    + rewrite RoutingState_from_evolve. apply clear_work_inv.
    + by intros ?? ?.
    + rewrite RoutingState_from_evolve. by apply no_outstanding_work.
Qed.
End reachable_states.

Lemma decide_stamped d st ctx cmd evs :
  Workflow.decide d st ctx cmd = Ok evs → stamped (command_at cmd) evs.
Proof.
  intros H. apply bind_Ok in H as (evs' & H & H2). apply bind_Ok in H2 as (? & _ & [= ->]).
  assert (∀ at_ms evs, Forall (case_event_at at_ms) evs → stamped at_ms evs) as Hcase.
  { intros at_ms l Hl. eapply Forall_impl; [exact Hl|]. by intros e []. }
  destruct cmd; simpl in *; unfold when_active in H; try destruct (st_lifecycle st); try done.
  all: try (by eapply Hcase, activate_case_events).
  all: try (by eapply Hcase, evaluate_case_sentries_events).
  all: try (destruct (has_token st _); [|done]; apply bind_Ok in H as (node & _ & H);
    destruct node; try done;
    first [by eapply complete_and_continue_stamped in H
          |apply bind_Ok in H as (? & _ & H); by eapply complete_and_continue_stamped in H]).
  - unfold decide_start in H. apply bind_Ok in H as (? & _ & H).
    apply bind_Ok in H as (node & _ & H). destruct node; try done.
    apply bind_Ok in H as (more & Hm%activate_stamped & [= <-]). by constructor.
  - by eapply complete_multi_instance_stamped.
  - by eapply trigger_boundary_stamped.
Qed.
