(* ===== verification/Errors.v ===== *)
(** * Errors that cannot happen

    [decide] has error values for inconsistencies between the definition and
    the state. On the states of a validated definition they never occur. *)

From S2P Require Import Prelude Types Expr Coverage Config WorkflowDef Routing Text Evolve.
From S2P Require Import Activation Cases Decide MultiInstance Simulation Invariant Loop Decisions.
From S2P Require Import CaseSpec Instance.
From stdpp Require Import options.

(** The errors that report an inconsistent definition or state. *)
Definition internal_error (e : DomainError) : bool :=
  match e with
  | UnknownNode _ | InvalidStartNode _ | MissingDecisionTable _ | InvalidScopeOwner _
  | UnknownBoundaryEvent _ | BoundarySubscriptionDefinitionMismatch _ | BoundaryOwnerNotActive _
  | MultiInstanceActivationLimit _ | InvalidScopeInstanceIdentity _ | AmbiguousActiveScope _
  | UnknownCasePlanItem _ => true
  | _ => false
  end.

(** [external m]: [m] does not fail with an internal error. *)
Definition external {A} (m : result A) : Prop := ∀ e, m = Err e → internal_error e = false.

Lemma external_for_each {A B} (P : A → Prop) (f : A → B → result A) l a :
  P a → (∀ a b a', P a → b ∈ l → f a b = Ok a' → P a') →
  (∀ a b, P a → b ∈ l → external (f a b)) → external (for_each f l a).
Proof.
  intros HP Hf He e. apply (for_each_Err f P (λ e, internal_error e = false)); [done|done|].
  intros a1 b e1 HPa Hb. by apply He.
Qed.

(** ** Expressions, gateways and tables *)
Lemma guard_external g vars : external (guard_evaluate g vars).
Proof. intros e H. unfold guard_evaluate in H. by inv_err H. Qed.

Lemma expression_external ex vars : external (expression_evaluate ex vars).
Proof.
  induction ex as [g|l IH|l IH|x IH|b] using BooleanExpression_ind'.
  - apply guard_external.
  - intros e. simpl. induction IH as [|x l Hx _ IHl]; intros H; [done|]. inv_err H; auto.
  - intros e. simpl. induction IH as [|x l Hx _ IHl]; intros H; [done|]. inv_err H; auto.
  - intros e H. inv_err H; auto.
  - done.
Qed.

Lemma transition_external t vars : external (transition_evaluate t vars).
Proof.
  intros e H. unfold transition_evaluate in H. inv_err H; [done|by eapply guard_external|].
  by eapply expression_external.
Qed.

Lemma select_transition_external gw ts vars : external (select_transition gw ts vars).
Proof.
  assert (∀ sel, external (select_unique gw vars sel ts)) as Hu.
  { induction ts as [|t ts IH]; intros sel e H; [done|]. inv_err H; try done;
      first [by eapply IH|by eapply transition_external]. }
  intros e H. unfold select_transition in H. inv_err H; [by eapply Hu|done].
Qed.

Lemma select_transitions_external gw ts vars : external (select_transitions gw ts vars).
Proof.
  assert (external (select_matching vars ts)) as Hu.
  { induction ts as [|t ts IH]; intros e H; [done|]. inv_err H; try done;
      first [by eapply IH|by eapply transition_external]. }
  intros e H. unfold select_transitions in H. apply bind_Err in H as [H|(sel & _ & H)];
    [by eapply Hu|]. cbv zeta in H. by inv_err H.
Qed.

Lemma evaluate_decision_table_external table vars : external (evaluate_decision_table table vars).
Proof.
  assert (∀ pairs, external (rule_matches (dt_id table) vars pairs)) as Hm.
  { induction pairs as [|[i t] ps IH]; intros e H; [done|]. inv_err H; try done. by eapply IH. }
  assert (∀ rules sel, external (select_rule table vars sel rules)) as Hr.
  { induction rules as [|r rules IH]; intros sel e H; [done|].
    unfold decision_rule_matches in H. inv_err H; try done; first [by eapply IH|by eapply Hm]. }
  intros e H. unfold evaluate_decision_table in H. inv_err H; [by eapply Hr|done].
Qed.

(** ** Steps of the activation loop *)
Lemma materialize_external k spec vars : external (materialize_multi_instance k spec vars).
Proof. intros e H. unfold materialize_multi_instance, resolve_cardinality in H. by inv_err H. Qed.

(** Activating as many iterations as there are free slots never fails. *)
Lemma activate_iterations_external at_ms k rt a n evs :
  rt_active_multi_instances rt !! k = Some a → mi_core a →
  (am_next_iteration a + N.of_nat n ≤ am_total_instances a)%N →
  (N.of_nat (size (am_active_iterations a) + n) ≤ am_max_parallelism a)%N →
  external (for_each (λ acc _, activate_iteration at_ms k acc) (replicate n tt) (rt, evs)).
Proof.
  revert rt a evs. induction n as [|n IH]; intros rt a evs Ha Hc Hn Hs e H; [done|].
  cbn [replicate for_each] in H.
  assert (activate_next_multi_instance rt k = Ok
    (set_multi_instances rt (<[k:=mi_activated a]> (rt_active_multi_instances rt)),
     (am_next_iteration a, am_task_type a, am_items a !! N.to_nat (am_next_iteration a)))) as Hact.
  { apply activate_next_spec; [done|apply Hc|lia|lia]. }
  destruct (mi_activated_core a Hc) as [Hc' Hsz]; [lia|lia|].
  apply bind_Err in H as [H|(acc & H1 & H)]; unfold activate_iteration in *; simpl fst in *.
  { rewrite Hact in H. done. }
  rewrite Hact in H1. injection H1 as <-.
  eapply (IH _ (mi_activated a)) in H; [done|apply lookup_insert_eq|done| |].
  - simpl. lia.
  - rewrite Hsz. simpl. lia.
Qed.

Section steps.
Context (d : WorkflowDefinition) (cfg : ResolvedConfigSnapshot) (at_ms : N).
Hypotheses (Hok : definition_ok d) (Hcfg : config_ok cfg).

Lemma start_multi_instance_external k tt spec vars rt :
  multi_instance_spec d k = Some spec →
  external (start_multi_instance cfg at_ms k tt spec vars rt).
Proof using Hok Hcfg.
  intros Hspec e H. unfold start_multi_instance in H.
  apply bind_Err in H as [H|([total items] & Hm & H)]; [by eapply materialize_external|].
  apply materialize_spec in Hm as [Ht _].
  pose proof (mi_parallelism_bounds cfg spec total Hcfg (spec_parallelism d _ _ Hok Hspec)) as Hp.
  apply bind_Err in H as [H|([] & _ & H)]; [by inv_err H|].
  apply bind_Err in H as [H|(rt1 & H1 & H)].
  { unfold routing_start_multi_instance in H. by inv_err H. }
  unfold routing_start_multi_instance in H1. inv_res H1. simplify_eq.
  destruct (N.eqb_spec total 0) as [|Hne]; [done|].
  apply bind_Err in H as [H|([??] & _ & H)]; [|done]. revert H.
  eapply activate_iterations_external; [apply lookup_insert_eq|..].
  - split; cbn [am_active_iterations am_completed_iterations am_next_iteration
      am_total_instances am_max_parallelism]; [lia| |set_solver|rewrite size_empty; lia|lia].
    apply set_eq. intros i. rewrite elem_of_below. set_solver by lia.
  - cbn. lia.
  - cbn [am_active_iterations am_max_parallelism]. rewrite size_empty. lia.
Qed.

Lemma arm_boundary_events_external k rt : external (arm_boundary_events d at_ms k rt).
Proof using Type.
  apply (external_for_each (λ _, True)); [done|done|].
  intros [rt1 evs] b _ _ e H. unfold arm_boundary in H. by inv_err H.
Qed.

Lemma activate_activity_external cur scope tt next ev vars rt :
  external (activate_activity d cfg at_ms cur scope tt next ev vars rt).
Proof using Hok Hcfg.
  intros e H. unfold activate_activity in H.
  destruct (multi_instance_spec d cur) as [spec|] eqn:Hspec; unfold activate_task in H.
  - inv_err H; [by eapply start_multi_instance_external|by eapply arm_boundary_events_external].
  - inv_err H; [done|by eapply arm_boundary_events_external].
Qed.

Lemma enter_scope_external rt k start parent : external (enter_scope rt k start parent).
Proof using Type.
  intros e H. unfold enter_scope in H. apply bind_Err in H as [H|([] & _ & H)]; [by inv_err H|].
  apply bind_Err in H as [H|(n & _ & H)]; [by inv_err H|].
  unfold identifier_new in H. by rewrite scope_identity_not_blank in H.
Qed.

Lemma sub_process_exit_external k :
  is_sub_process (wd_nodes d !! k) = true → external (sub_process_exit d k).
Proof using Type.
  intros Hk e H. unfold sub_process_exit, definition_node in H.
  destruct (wd_nodes d !! k) as [[]|]; by inv_err H.
Qed.

Lemma node_step_external node cur scope vars rt :
  wd_nodes d !! cur = Some node → external (node_step d cfg at_ms node cur scope vars rt).
Proof using Hok Hcfg.
  intros Hcur. destruct node; simpl; try apply activate_activity_external; intros e H.
  - unfold step_start in H. by inv_err H.
  - unfold step_decision_task in H. destruct (ok_decision d Hok _ _ _ Hcur) as [t Ht].
    rewrite Ht in H. inv_err H. by eapply evaluate_decision_table_external.
  - unfold step_call_activity in H. destruct (identifier_new _ _); [|done..].
    by eapply activate_activity_external.
  - unfold step_sub_process in H.
    apply bind_Err in H as [H|([? [??]] & _ & H)]; [by eapply enter_scope_external|].
    inv_err H. by eapply arm_boundary_events_external.
  - unfold step_exclusive_gateway in H. inv_err H. by eapply select_transition_external.
  - unfold step_parallel_split, split_into, open_join in H. by inv_err H.
  - unfold step_join, arrive in H. by inv_err H.
  - unfold step_inclusive_split, split_into, open_join in H. inv_err H; try done.
    by eapply select_transitions_external.
  - unfold step_join, arrive in H. by inv_err H.
  - unfold step_end in H. destruct (owner_scope_id d cur) as [owner|] eqn:Ho; [|by inv_err H].
    apply bind_Err in H as [H|(inst & _ & H)]; [by inv_err H|].
    apply bind_Err in H as [H|([rt1 sc] & _ & H)]; [unfold complete_scope in H; by inv_err H|].
    destruct (disarm_boundary_events _ _ _).
    apply bind_Err in H as [H|(? & _ & H)]; [|done].
    eapply sub_process_exit_external, H. by apply (ok_owner d Hok _ _ Ho).
Qed.

(** Everything a step pushes is a node of the definition. *)
Lemma node_step_pushed node cur scope vars rt vars' rt' evs pushed :
  wd_nodes d !! cur = Some node →
  node_step d cfg at_ms node cur scope vars rt = Ok (vars', rt', evs, pushed) →
  Forall (λ p, is_Some (wd_nodes d !! p.1)) pushed.
Proof using Hok Hcfg.
  intros Hcur H.
  assert (∀ t, t ∈ Node_targets node → is_Some (wd_nodes d !! t)) as Htgt.
  { intros t. by eapply (ok_target d Hok). }
  assert (∀ l (s : option ScopeInstanceId), l ⊆ Node_targets node →
    Forall (λ p, is_Some (wd_nodes d !! p.1)) ((λ t, (t, s)) <$> l)) as Hall.
  { intros l s Hl. apply Forall_fmap, Forall_forall. intros t Ht. by apply Htgt, Hl. }
  assert (∀ t (s : option ScopeInstanceId), t ∈ Node_targets node →
    Forall (λ p, is_Some (wd_nodes d !! p.1)) [(t, s)]) as Hone.
  { intros t s Ht. repeat constructor. by apply Htgt. }
  destruct node; simpl in H, Hone, Hall.
  1: { unfold step_start in H. inv_res H. simplify_eq. apply Hone. by left. }
  1-3: apply activate_activity_pushed in H as [_ [[-> _]| ->]]; [constructor|apply Hone; by left].
  1: { unfold step_decision_task in H. inv_res H. simplify_eq. apply Hone. by left. }
  1: { unfold step_call_activity in H. destruct (identifier_new _ _); [|done..].
       apply activate_activity_pushed in H as [_ [[-> _]| ->]]; [constructor|apply Hone; by left]. }
  1: { apply bind_Ok in H as ([? [??]] & _ & H). apply bind_Ok in H as ([??] & _ & [= <- <- <- <-]).
       apply Hone. by left. }
  1: { unfold step_exclusive_gateway in H. inv_res H. simplify_eq. apply Hone.
       by eapply select_transition_target. }
  1: { apply bind_Ok in H as (? & _ & [= <- <- <- <-]). by apply Hall. }
  1,3: apply bind_Ok in H as ([? []] & _ & H); simplify_eq; [apply Hone; by left|constructor].
  1: { apply bind_Ok in H as (sel & Hs & H). apply bind_Ok in H as (? & _ & [= <- <- <- <-]).
       apply Hall. by eapply select_transitions_targets. }
  unfold step_end in H. destruct (owner_scope_id d cur) as [owner|].
  - apply bind_Ok in H as (inst & _ & H). apply bind_Ok in H as ([rt1 sc] & _ & H).
    destruct (disarm_boundary_events _ _ _). apply bind_Ok in H as (exit & He & [= <- <- <- <-]).
    unfold sub_process_exit, definition_node in He. apply bind_Ok in He as (n & Hn%ok_or_Ok & He).
    destruct n; simplify_eq. repeat constructor. eapply (ok_target d Hok); [exact Hn|]. set_solver.
  - destruct (has_outstanding_work rt); simplify_eq; constructor.
Qed.

Lemma activation_loop_external fuel start vars rt pending :
  Forall (λ p, is_Some (wd_nodes d !! p.1)) pending →
  external (activation_loop d cfg at_ms fuel start vars rt pending).
Proof using Hok Hcfg.
  revert vars rt pending. induction fuel as [|fuel IH];
    intros vars rt [|[cur scope] rest] Hp e H; simpl in H; simplify_eq; [done|].
  apply Forall_cons in Hp as [[node Hnode] Hrest]. simpl in Hnode. unfold definition_node in H.
  rewrite Hnode in H. simpl in H.
  apply bind_Err in H as [H|([[[vars1 rt1] evs1] pushed] & Hstep & H)].
  { by eapply node_step_external. }
  apply bind_Err in H as [H|([[??]?] & _ & H)]; [|done]. eapply IH, H.
  apply Forall_app. split; [by eapply node_step_pushed|done].
Qed.
End steps.

(** ** Decisions *)
Section decisions.
Context (d : WorkflowDefinition) (st : InstanceState) (ctx : DecisionContext).
Hypotheses (Hok : definition_ok d) (Hcfg : config_ok (dc_configuration ctx))
  (Hinv : state_inv d st).

Lemma activate_external at_ms next vars rt scope :
  is_Some (wd_nodes d !! next) → external (activate d ctx at_ms next vars rt scope).
Proof using Hok Hcfg.
  intros Hn e H. apply bind_Err in H as [H|([[??]?] & _ & H)]; [|done].
  eapply activation_loop_external, H; [done|done|]. by repeat constructor.
Qed.

(** At most one active scope belongs to a scope node. *)
Lemma active_scope_external k : external (active_scope_for_node d st k).
Proof using Hinv.
  intros e H. unfold active_scope_for_node in H.
  destruct (owner_scope_id d k) as [owner|]; [|done].
  destruct (scopes_of (st_active_scopes st) owner) as [|s1 [|s2 l]] eqn:Hs; simplify_eq; [done|].
  exfalso. assert (∀ s, s ∈ s1 :: s2 :: l → ∃ sc, st_active_scopes st !! s = Some sc ∧
    as_scope_node_id sc = owner) as Hall.
  { intros s. rewrite <-Hs. unfold scopes_of. intros ([s' sc] & -> & Hin)%list_elem_of_fmap.
    apply list_elem_of_In in Hin. apply filter_In in Hin as [Hin Hb].
    apply bool_decide_eq_true in Hb. apply list_elem_of_In, elem_of_btree_iter in Hin. eauto. }
  assert (NoDup (s1 :: s2 :: l)) as Hnd.
  { rewrite <-Hs. unfold scopes_of. eapply sublist_NoDup; [apply (NoDup_btree_keys (st_active_scopes st))|].
    apply fmap_sublist. clear. induction (btree_iter _) as [|x xs IH]; simpl; [done|].
    destruct (bool_decide _); by constructor. }
  destruct (Hall s1) as (sc1 & H1 & He1); [by left|].
  destruct (Hall s2) as (sc2 & H2 & He2); [right; by left|].
  destruct Hinv as [[Hcore _] _ _].
  assert (s1 = s2) as -> by (eapply (inv_scope_unique d _ Hcore); simpl; [done|done|congruence]).
  apply NoDup_cons in Hnd as [Hnd _]. destruct Hnd. by left.
Qed.

Lemma complete_and_continue_external k next completed vars at_ms :
  is_Some (wd_nodes d !! next) →
  external (complete_and_continue d st ctx k next completed vars at_ms).
Proof using Hok Hcfg Hinv.
  intros Hn e H. unfold complete_and_continue in H.
  apply bind_Err in H as [H|(rt1 & _ & H)]; [unfold complete_task in H; by inv_err H|].
  destruct (disarm_boundary_events _ _ _).
  apply bind_Err in H as [H|(scope & _ & H)]; [by eapply active_scope_external|].
  apply bind_Err in H as [H|(? & _ & H)]; [|done]. by eapply activate_external.
Qed.

(** A node that holds a token is in the definition, and so are its targets. *)
Lemma token_node k c : st_active_tokens st !! k = Some c → is_Some (wd_nodes d !! k).
Proof using Hinv.
  intros Hc. destruct Hinv as [[Hcore _] _ _].
  destruct (inv_tokens d _ Hcore _ _ Hc) as (_ & Hact & _). by destruct (wd_nodes d !! k).
Qed.

Lemma has_token_node k : has_token st k = true → is_Some (wd_nodes d !! k).
Proof using Hinv.
  unfold has_token. destruct (st_active_tokens st !! k) eqn:Hc; [|done].
  intros _. by eapply token_node.
Qed.

Lemma continue_iterations_external k i rt at_ms :
  routing_complete_iteration (RoutingState_from st) k i = Ok (rt, false) →
  external (continue_iterations k rt at_ms).
Proof using Hinv.
  intros Hcomp e H. apply complete_iteration_inv in Hcomp as (a & Ha & Hi & -> & _).
  destruct Hinv as [[Hcore _] _ _]. destruct (inv_loops d _ Hcore _ _ Ha) as (Hrest & _ & _).
  unfold continue_iterations in H.
  cbn [rt_active_multi_instances set_multi_instances] in H.
  rewrite lookup_insert_eq in H. simpl in H. 
  destruct (N.ltb_spec (am_next_iteration a) (am_total_instances a)) as [Hlt|]; [|done].
  destruct (complete_then_activate_rest a i Hrest Hi Hlt) as [_ Hfree].
  apply bind_Err in H as [H|([? [[??]?]] & _ & H)]; [|done].
  rewrite (activate_next_spec _ k (mi_completed a i)) in H; [done|apply lookup_insert_eq|..|done|done].
  simpl. pose proof (mc_total _ (mr_core _ Hrest)). lia.
Qed.

Lemma complete_multi_instance_external k i at_ms :
  is_Some (wd_nodes d !! k) → external (complete_multi_instance_iteration d st ctx k i at_ms).
Proof using Hok Hcfg Hinv.
  intros [node Hnode] e H. unfold complete_multi_instance_iteration, definition_node in H.
  rewrite Hnode in H. simpl in H.
  apply bind_Err in H as [H|(next & Hnext%ok_or_Ok & H)]; [by inv_err H|].
  assert (is_Some (wd_nodes d !! next)) as Hn.
  { eapply (ok_target d Hok); [exact Hnode|]. destruct node; simplify_eq/=; by left. }
  apply bind_Err in H as [H|(a & _ & H)]; [by inv_err H|].
  apply bind_Err in H as [H|([] & _ & H)]; [by inv_err H|].
  apply bind_Err in H as [H|([rt b] & Hcomp & H)].
  { unfold routing_complete_iteration in H. by inv_err H. }
  apply bind_Err in H as [H|(spec & _ & H)]; [by inv_err H|].
  apply bind_Err in H as [H|(sat & _ & H)].
  { destruct b; [done|]. unfold evaluate_multi_instance_completion in H. inv_err H; try done.
    by eapply expression_external. }
  apply bind_Err in H as [H|(? & _ & H)]; [|done].
  assert (external (finish_iterations d st ctx k next sat rt at_ms)) as Hfin.
  { intros e'. unfold finish_iterations. cbv zeta. destruct (disarm_boundary_events _ _ _).
    intros [H'|(scope & _ & H')]%bind_Err; [by eapply active_scope_external|].
    apply bind_Err in H' as [H'|(? & _ & H')]; [|done]. by eapply activate_external. }
  destruct b; simpl in H; [by eapply Hfin|]. destruct sat; [by eapply Hfin|].
  by eapply continue_iterations_external.
Qed.

(** An armed subscription is the one the definition asks for. *)
Lemma trigger_boundary_event_external id at_ms :
  external (trigger_boundary_event d st ctx id at_ms).
Proof using Hok Hcfg Hinv.
  intros e H. unfold trigger_boundary_event in H.
  apply bind_Err in H as [H|(sub & Hsub%ok_or_Ok & H)]; [by inv_err H|].
  pose proof Hinv as [[Hcore Hbd] _ _].
  destruct (inv_armed d _ Hbd _ _ Hsub) as [Hact (b & Hb & <- & Ht & Hc & Hg)].
  rewrite (boundary_event_spec d _ _ Hok Hb) in H. simpl in H.
  rewrite Ht, Hc, Hg, !bool_decide_eq_false_2 in H by (intros Hne; by apply Hne). simpl in H.
  destruct (ok_boundary d Hok _ _ Hb) as [[owner Howner] Htarget].
  apply bind_Err in H as [H|([] & _ & H)].
  { apply bail_if_Err in H as [Hno _]. exfalso. apply andb_true_iff in Hno as [Hno Hs].
    apply andb_true_iff in Hno as [Htok Hmi]. destruct Hact as [[c Hc']|[[a Ha]|(s & sc & Hsc & Heq)]].
    - destruct (inv_tokens d _ Hcore _ _ Hc') as (? & _). simpl in *. rewrite Hc' in Htok.
      simpl in Htok. lia.
    - simpl in *. by rewrite Ha in Hmi.
    - unfold find_scope in Hs. destruct (find _ _) eqn:Hf; [done|].
      eapply find_none in Hf; [|by apply list_elem_of_In, elem_of_btree_values; eauto].
      by apply bool_decide_eq_false in Hf. }
  apply bind_Err in H as [H|([] & _ & H)]; [by inv_err H|].
  apply bind_Err in H as [H|(cut & _ & H)].
  { unfold definition_node in H. rewrite Howner in H. by inv_err H. }
  apply bind_Err in H as [H|(rt & _ & H)].
  { destruct (be_cancel_activity b); [|done]. revert e H.
    apply (external_for_each (λ _, True)); [done|done|].
    intros rt [] _ _ e H. unfold complete_task in H. by inv_err H. }
  apply bind_Err in H as [H|(scope & _ & H)]; [by eapply active_scope_external|].
  apply bind_Err in H as [H|(? & _ & H)]; [|done]. by eapply activate_external.
Qed.

(** Every plan item of the model is in the case. *)
Lemma evaluate_case_sentries_external case_id at_ms facts :
  external (evaluate_case_sentries d st case_id at_ms facts).
Proof using Hinv.
  intros e H. unfold evaluate_case_sentries in H.
  apply bind_Err in H as [H|(c & Hc%ok_or_Ok & H)]; [by inv_err H|].
  apply bind_Err in H as [H|([] & _ & H)]; [by inv_err H|].
  apply bind_Err in H as [H|(model & Hm%ok_or_Ok & H)]; [unfold case_model in H; by inv_err H|].
  destruct Hinv as [_ Hcases _]. destruct (Hcases _ _ Hc) as (model' & [Hm' Hitems _ _ _ _]).
  simplify_eq.
  apply bind_Err in H as [H|([sat evs1] & _ & H)].
  { revert e H. apply (external_for_each (λ _, True)); [done|done|].
    intros [sat evs] s _ _ e H. apply bind_Err in H as [H|([] & _ & H)]; try done.
    case_bool_decide; [done|]. by eapply expression_external. }
  apply bind_Err in H as [H|([] & _ & H)]; [by inv_err H|].
  set (P (acc : Projection * list DomainEvent) := ∀ i, i ∈ item_ids model → is_Some (acc.1 !! i) : Prop).
  assert (P (ac_plan_items c, evs1)) as HP by (intros i; apply Hitems).
  assert (∀ acc id kind status ids, P acc →
    P (push_case_transition case_id at_ms acc id kind status ids sat)) as Hpush.
  { intros acc id kind status ids Hacc i Hi. simpl. rewrite lookup_insert. case_decide; eauto. }
  assert (∀ acc s acc', P acc → s ∈ cd_stages model →
    stage_step case_id at_ms sat acc s = Ok acc' → P acc') as Hst.
  { intros acc s acc' Hacc _ Hs. apply bind_Ok in Hs as (cur & _ & [= <-]).
    repeat (destruct (_ && _)); by repeat apply Hpush. }
  apply bind_Err in H as [H|([p1 evs2] & H1 & H)].
  { revert e H. apply (external_for_each P); [done|done|].
    intros acc s Hacc Hs e H. unfold stage_step in H.
    apply bind_Err in H as [H|(? & _ & H)]; [|done]. apply ok_or_Err in H as [H _].
    destruct (Hacc (cs_id s)) as [it Hit]; [|by rewrite Hit in H].
    apply elem_of_app. left. by apply list_elem_of_fmap_2. }
  assert (P (p1, evs2)) as HP1.
  { eapply (for_each_inv _ (λ _ acc, P acc)); [exact H1|done|]. intros ????. by apply Hst. }
  apply bind_Err in H as [H|([p2 evs3] & _ & H)]; [|done].
  revert e H. apply (external_for_each P); [done| |].
  - intros acc s acc' Hacc _ Hs. apply bind_Ok in Hs as (cur & _ & [= <-]).
    destruct (_ && _); by repeat apply Hpush.
  - intros acc s Hacc Hs e H. unfold milestone_step in H.
    apply bind_Err in H as [H|(? & _ & H)]; [|done]. apply ok_or_Err in H as [H _].
    destruct (Hacc (cm_id s)) as [it Hit]; [|by rewrite Hit in H].
    apply elem_of_app. right. by apply list_elem_of_fmap_2.
Qed.

(** The three task completions. *)
Ltac task_external Hok Hcont :=
  let Htok := fresh in let node := fresh "node" in let Hnode := fresh "Hnode" in
  let e := fresh "e" in let H := fresh "H" in
  intros Htok e H; apply has_token_node in Htok as [node Hnode];
  unfold decide_service_task, decide_user_task, decide_script_task, definition_node in H;
  rewrite Hnode in H; simpl in H; destruct node; try (by simplify_eq);
  try (apply bind_Err in H as [H|([] & _ & H)]; [by inv_err H|]);
  eapply Hcont, H; (eapply (ok_target _ Hok); [exact Hnode|]; by left).

Lemma decide_service_task_external k outputs at_ms :
  has_token st k = true → external (decide_service_task d st ctx k outputs at_ms).
Proof using Hok Hcfg Hinv. task_external Hok complete_and_continue_external. Qed.

Lemma decide_user_task_external k decision at_ms :
  has_token st k = true → external (decide_user_task d st ctx k decision at_ms).
Proof using Hok Hcfg Hinv. task_external Hok complete_and_continue_external. Qed.

Lemma decide_script_task_external k at_ms :
  has_token st k = true → external (decide_script_task d st ctx k at_ms).
Proof using Hok Hcfg Hinv. task_external Hok complete_and_continue_external. Qed.

Lemma decide_start_external tenant at_ms : external (decide_start d st ctx tenant at_ms).
Proof using Hok Hcfg.
  intros e H. unfold decide_start, definition_node in H. pose proof (ok_start d Hok) as Hstart.
  destruct (wd_nodes d !! wd_start_node d) as [[]|] eqn:Hs; try done. simpl in H.
  apply bind_Err in H as [H|([] & _ & H)]; [by inv_err H|].
  apply bind_Err in H as [H|(? & _ & H)]; [|done].
  eapply activate_external, H. eapply (ok_target d Hok); [exact Hs|]. by left.
Qed.

Lemma when_active_external arm : external arm → external (when_active st arm).
Proof using Type.
  intros Harm e H. unfold when_active in H. destruct (st_lifecycle st); simplify_eq; auto.
Qed.

(** The only internal error left: an iteration of a node that does not exist. *)
Lemma decide_events_external cmd :
  match cmd with
  | CompleteMultiInstanceIteration k _ _ => is_Some (wd_nodes d !! k)
  | _ => True
  end → external (decide_events d st ctx cmd).
Proof using Hok Hcfg Hinv.
  intros Hcmd. destruct cmd; simpl; try apply when_active_external;
    try match goal with
    | |- external (if has_token st ?k then _ else _) => destruct (has_token st k) eqn:Htok
    end; try (by intros e [= <-]).
  - intros e H. unfold activate_case, case_model in H. by inv_err H.
  - apply evaluate_case_sentries_external.
  - destruct (st_lifecycle st); try (by intros e [= <-]). apply decide_start_external.
  - by apply decide_service_task_external.
  - by apply decide_user_task_external.
  - by apply decide_script_task_external.
  - by apply complete_multi_instance_external.
  - apply trigger_boundary_event_external.
Qed.

Lemma decide_external cmd e :
  Workflow.decide d st ctx cmd = Err e → internal_error e = true →
  ∃ k i at_ms, cmd = CompleteMultiInstanceIteration k i at_ms ∧ wd_nodes d !! k = None ∧
    e = UnknownNode k.
Proof using Hok Hcfg Hinv.
  intros H He. apply bind_Err in H as [H|(evs & _ & H)].
  2: { exfalso. unfold check_event_limit in H. inv_err H; done. }
  assert (∀ k i at_ms, cmd = CompleteMultiInstanceIteration k i at_ms → wd_nodes d !! k ≠ None →
    internal_error e = false) as Hmi.
  { intros k i at_ms -> Hk. eapply (decide_events_external (CompleteMultiInstanceIteration k i at_ms)).
    - simpl. by apply not_eq_None_Some.
    - exact H. }
  destruct cmd; try (eapply decide_events_external in H; [congruence|done]).
  destruct (wd_nodes d !! node_id) as [node|] eqn:Hnode.
  { by rewrite (Hmi _ _ _ eq_refl) in He by congruence. }
  simpl in H. unfold when_active, complete_multi_instance_iteration, definition_node in H.
  rewrite Hnode in H. destruct (st_lifecycle st); simplify_eq/=; eauto 10.
Qed.
End decisions.

(** ** Panics

    No hypothesis at all: the checks before [complete_task] rule out the
    subtraction overflow in every state. *)
Section panics.
Context (d : WorkflowDefinition) (st : InstanceState) (ctx : DecisionContext).

Lemma activate_no_panic at_ms next vars rt scope s :
  activate d ctx at_ms next vars rt scope ≠ Panic s.
Proof.
  intros H. unfold activate, activation_events in H. no_panic H.
Qed.
#[local] Hint Resolve activate_no_panic : panics.

Lemma active_scope_no_panic k s : active_scope_for_node d st k ≠ Panic s.
Proof. intros H. unfold active_scope_for_node in H. no_panic H. Qed.
#[local] Hint Resolve active_scope_no_panic : panics.

Lemma complete_task_no_panic rt k s :
  (0 < default 0 (rt_active_tokens rt !! k))%N → complete_task rt k ≠ Panic s.
Proof.
  intros Hpos H. unfold complete_task in H. destruct (rt_active_tokens rt !! k) as [c|]; [|done].
  simpl in *. destruct (checked_sub c 1) eqn:Hs; [done|].
  unfold checked_sub in Hs. destruct (1 <=? c)%N eqn:Hle; [done|lia].
Qed.

Lemma complete_and_continue_no_panic k next completed vars at_ms s :
  has_token st k = true → complete_and_continue d st ctx k next completed vars at_ms ≠ Panic s.
Proof.
  unfold has_token. intros Htok%N.ltb_lt H. unfold complete_and_continue in H.
  apply bind_Panic in H as [H|(rt & _ & H)]; [by apply complete_task_no_panic in H|].
  destruct (disarm_boundary_events _ _ _). no_panic H.
Qed.
#[local] Hint Resolve complete_and_continue_no_panic : panics.

Lemma complete_multi_instance_no_panic k i at_ms s :
  complete_multi_instance_iteration d st ctx k i at_ms ≠ Panic s.
Proof.
  intros H. unfold complete_multi_instance_iteration, definition_node, routing_complete_iteration,
    evaluate_multi_instance_completion, finish_iterations, continue_iterations in H.
  no_panic H.
Qed.
#[local] Hint Resolve complete_multi_instance_no_panic : panics.

Lemma trigger_boundary_event_no_panic id at_ms s :
  trigger_boundary_event d st ctx id at_ms ≠ Panic s.
Proof.
  intros H. unfold trigger_boundary_event, definition_node in H.
  do 5 (apply bind_Panic in H as [H|(? & _ & H)];
    [by first [apply ok_or_Panic in H|apply bail_if_Panic in H]|]).
  apply bind_Panic in H as [H|(cut & _ & H)]; [by no_panic H|].
  apply bind_Panic in H as [H|(rt & _ & H)].
  { destruct (be_cancel_activity _); [|done]. unfold cancel_activity in H. cbv zeta in H.
    rewrite disarm_boundaries_filter in H. simpl andb in H.
    destruct (0 <? default 0 (st_active_tokens st !! _))%N eqn:Htok; [|done].
    apply N.ltb_lt in Htok. simpl replicate in H.
    apply bind_Panic in H as [H|(? & _ & H)]; [|done]. by apply complete_task_no_panic in H. }
  no_panic H.
Qed.
#[local] Hint Resolve trigger_boundary_event_no_panic : panics.

Lemma evaluate_case_sentries_no_panic case_id at_ms facts s :
  evaluate_case_sentries d st case_id at_ms facts ≠ Panic s.
Proof.
  intros H. unfold evaluate_case_sentries, case_model in H. no_panic H.
  - revert H. apply for_each_no_panic. intros [sat evs] sentry s' _ H.
    no_panic H.
  - revert H. apply for_each_no_panic. intros acc stage s' _ H. unfold stage_step in H.
    apply bind_Panic in H as [H|(? & _ & H)]; [by apply ok_or_Panic in H|done].
  - revert H. apply for_each_no_panic. intros acc m s' _ H. unfold milestone_step in H.
    apply bind_Panic in H as [H|(? & _ & H)]; [by apply ok_or_Panic in H|done].
Qed.
#[local] Hint Resolve evaluate_case_sentries_no_panic : panics.

Lemma decide_no_panic cmd s : Workflow.decide d st ctx cmd ≠ Panic s.
Proof.
  intros H. unfold Workflow.decide in H. apply bind_Panic in H as [H|(evs & _ & H)].
  2: { unfold check_event_limit in H. no_panic H. }
  destruct cmd; simpl in H; unfold when_active in H.
  - unfold activate_case, case_model in H. no_panic H.
  - no_panic H.
  - destruct (st_lifecycle st); [|done..]. unfold decide_start, definition_node in H.
    no_panic H.
  - destruct (st_lifecycle st); [done| |done..]. destruct (has_token st node_id) eqn:Ht; [|done].
    unfold decide_service_task, definition_node in H.
    no_panic H.
  - destruct (st_lifecycle st); [done| |done..]. destruct (has_token st node_id) eqn:Ht; [|done].
    unfold decide_user_task, definition_node in H.
    no_panic H.
  - destruct (st_lifecycle st); [done| |done..]. destruct (has_token st node_id) eqn:Ht; [|done].
    unfold decide_script_task, definition_node in H.
    no_panic H.
  - destruct (st_lifecycle st); [done| |done..]. no_panic H.
  - destruct (st_lifecycle st); [done| |done..]. no_panic H.
Qed.
End panics.
