(* ===== verification/Examples.v ===== *)
(** * A concrete workflow

    A definition with every construct the theorems talk about, a validated
    configuration and a complete run. The witnesses of the theorems are
    evaluated on it. *)

From S2P Require Import Prelude Types Expr Coverage Config WorkflowDef Routing Text Evolve.
From S2P Require Import Activation Cases Decide MultiInstance Simulation Invariant Loop Decisions.
From S2P Require Import CaseSpec Instance.
From stdpp Require Import options.

Definition retry : RetryPolicy := mkRetryPolicy 3 10 100 2000.
Definition engine : EnginePolicy :=
  {| en_snapshot_interval_events := 100;
     en_max_events_per_decision := 64;
     en_max_multi_instance_cardinality := 100;
     en_default_multi_instance_parallelism := 4;
     en_boundary_runtime := mkBoundaryRuntimePolicy 10 10 5 100 1000 1000000 256 "worker" 64 64 16;
     en_command_timeout_ms := 1000;
     en_optimistic_conflict_retry := retry;
     en_local_wasm := mkLocalWasmPolicy 1000 1000 1000 1000 1000 10 10 10 10 1000;
     en_event_payload_key_scope := "events";
     en_authorization_audit_key_scope := "audit";
     en_workers := mkEngineWorkerPolicy 10 10 retry 10 retry
       (mkRemoteWorkerPolicy 10 10 10 10 5000 1000 64 16 16 1000 1000 3 100) |}.
Definition scopes : list ConfigurationScope :=
  [mkConfigurationScope Platform "platform"; mkConfigurationScope Tenant "acme"].
Definition config_result : res ConfigError ResolvedConfigSnapshot :=
  ResolvedConfigSnapshot_new "cfg" "1" "1" 1 scopes [] engine.
Definition config : ResolvedConfigSnapshot :=
  mkConfigSnapshot "cfg" "1" "1" 1 scopes [] engine.

(** ** The definition *)
Definition is_decision (s : string) : GuardExpression := mkGuard "decision" Op_Equal (VString s).

Definition nodes : list (NodeId * Node) :=
  [("start", Node_Start "review");
   ("review", Node_UserTask "review" "policy" None "decision" "gate");
   ("gate", Node_ExclusiveGateway
      [mkTransition "rate" (Some (is_decision "approve")) None;
       mkTransition "rejected" None None] None);
   ("rate", Node_DecisionTask "rating" "sub");
   ("sub", Node_SubProcess "sub_start" "sub_end" "fork");
   ("sub_start", Node_Start "pick");
   ("pick", Node_ServiceTask "pick" "sub_end");
   ("sub_end", Node_End);
   ("fork", Node_ParallelSplit ["ship"; "bill"] "merge");
   ("ship", Node_CallActivity "shipping" (Some "2") "merge");
   ("bill", Node_ScriptTask "bill" "wasm" "1" "merge");
   ("merge", Node_ParallelJoin "fork" "done");
   ("done", Node_End);
   ("rejected", Node_End)].

Definition rating : DecisionTable :=
  mkDecisionTable "rating" First [mkDecisionInput "amount" Type_Integer]
    [mkDecisionOutput "tier" Type_String]
    [mkDecisionRule "big" [Test_IntegerInterval (mkInterval (Some 100%Z) None)] [VString "gold"];
     mkDecisionRule "any" [Test_Any] [VString "silver"]].

Definition timeout : BoundaryEventDefinition :=
  mkBoundary "review_timeout" true "rejected" (Trigger_Timer Duration "PT1H").
Definition reminder : BoundaryEventDefinition :=
  mkBoundary "pick_reminder" false "sub_end" (Trigger_Message "remind").

Definition in_sub (mi : option MultiInstanceDefinition) : NodeExecutionMetadata :=
  mkMetadata mi [] (Some "sub").
Definition pick_loop : MultiInstanceDefinition :=
  mkMultiInstance Parallel (Some "${items}") (Some "item") None (Some 2%N) None.

Definition audit_case : CaseDefinition :=
  mkCase "audit" "Audit" [mkStage "check" "Check" [] ["checked"]]
    [mkMilestone "signed" "Signed" ["checked"]]
    [mkSentry "checked" (Comparison (mkGuard "ok" Op_Equal (VBoolean true)))].

Definition contracts : WorkflowExecutionContracts :=
  mkContracts [("review", timeout); ("pick", reminder)]
    [("sub_start", in_sub None); ("pick", in_sub (Some pick_loop)); ("sub_end", in_sub None)]
    [] [audit_case].

Definition definition_result : result WorkflowDefinition :=
  new_with_execution_contracts "acme" "order" "1" "start" nodes [rating] contracts.
Definition definition : WorkflowDefinition :=
  match definition_result with
  | Ok d => d
  | _ => mkDefinition "" "" "" "" ∅ ∅ ∅ ∅ [] ∅
  end.

Lemma definition_new : definition_result = Ok definition.
Proof. vm_compute. reflexivity. Qed.

Lemma example_constructed : constructed definition.
Proof.
  exists "acme", "order", "1", "start", nodes, [rating], contracts. exact definition_new.
Qed.

Lemma definition_is_ok : definition_ok definition.
Proof. exact (new_definition_ok _ _ _ _ _ _ _ _ definition_new). Qed.

Lemma definition_is_plain : plain_scopes definition.
Proof.
  intros k Hk. destruct (wd_nodes definition !! k) as [node|] eqn:Hn; [|done].
  destruct (new_contents _ _ _ _ _ _ _ _ definition_new) as (_ & _ & _ & _ & _ & Hnodes & _).
  apply Hnodes in Hn. unfold nodes in Hn.
  repeat (apply elem_of_cons in Hn as [Hn|Hn]; [injection Hn as -> ->; first [done|discriminate]|]).
  set_solver.
Qed.

Lemma config_is_ok : config_ok config.
Proof. vm_compute. reflexivity. Qed.

(** ** A complete run *)
Definition facts : Variables :=
  <["items":=VList [VString "a"; VString "b"; VString "c"]]> (<["amount":=VInteger 250]> ∅).
Definition context : DecisionContext := mkContext config facts.

Definition apply_all (st : InstanceState) (cmds : list Command) : result InstanceState :=
  for_each (λ st cmd, evs ← Workflow.decide definition st context cmd; Ok (foldl evolve st evs))
    cmds st.

Definition at_or_default (r : result InstanceState) : InstanceState :=
  match r with Ok st => st | _ => InstanceState_default end.

Definition to_review : list Command := [StartWorkflow "acme" 1].
Definition to_pick : list Command := to_review ++ [CompleteUserTask "review" "approve" 2].
Definition to_fork : list Command := to_pick ++
  [CompleteMultiInstanceIteration "pick" 1 3; CompleteMultiInstanceIteration "pick" 0 4;
   CompleteMultiInstanceIteration "pick" 2 5].
Definition to_end : list Command := to_fork ++
  [CompleteScriptTask "bill" 6; CompleteServiceTask "ship" ∅ 7].

Definition state_after (cmds : list Command) : InstanceState :=
  at_or_default (apply_all InstanceState_default cmds).

(** Whatever commands succeed, the state stays reachable. *)
Lemma apply_all_reachable cmds st st' :
  instance_reachable definition st → apply_all st cmds = Ok st' →
  instance_reachable definition st'.
Proof.
  unfold apply_all. revert st. induction cmds as [|cmd cmds IH]; intros st Hst H.
  { injection H as <-. exact Hst. }
  cbn [for_each] in H. apply bind_Ok in H as (st1 & H1 & H). apply bind_Ok in H1 as (evs & Hd & [= <-]).
  eapply IH, H.
  exact (instance_decided _ st context cmd evs Hst config_is_ok Hd).
Qed.

Lemma state_after_reachable cmds : instance_reachable definition (state_after cmds).
Proof.
  unfold state_after. destruct (apply_all InstanceState_default cmds) eqn:H; cbn [at_or_default].
  - eapply apply_all_reachable; [apply instance_initial|exact H].
  - apply instance_initial.
  - apply instance_initial.
Qed.

Example run_completes : st_lifecycle (state_after to_end) = Life_Completed.
Proof. vm_compute. reflexivity. Qed.
Example run_at_pick :
  st_lifecycle (state_after to_pick) = Life_Active "pick" ∧
  is_some (st_active_boundary_subscriptions (state_after to_pick) !! "pick_reminder") = true ∧
  btree_keys (st_active_scopes (state_after to_pick)) = ["sub#1"].
Proof. vm_compute. done. Qed.
