(* ===== verification/InstanceTheorems.v ===== *)
(** * Theorems on instances

    The main properties of decisions and replay, each with a witness on the
    workflow of [Examples]. *)

From S2P Require Import Prelude Types Expr Coverage Config WorkflowDef Routing Text Evolve.
From S2P Require Import Activation Cases Decide MultiInstance Simulation Invariant Loop Decisions.
From S2P Require Import CaseSpec Instance Errors Examples.
From stdpp Require Import options.

Definition at_review : InstanceState := state_after to_review.
Definition at_pick : InstanceState := state_after to_pick.
Definition at_fork : InstanceState := state_after to_fork.
Definition at_end : InstanceState := state_after to_end.

(** A decision that succeeds, tested by evaluation. *)
Definition succeeds (d : WorkflowDefinition) (st : InstanceState) (ctx : DecisionContext)
    (cmd : Command) : bool :=
  match Workflow.decide d st ctx cmd with Ok _ => true | _ => false end.
Lemma decide_ok d st ctx cmd :
  succeeds d st ctx cmd = true → ∃ evs, Workflow.decide d st ctx cmd = Ok evs.
Proof. unfold succeeds. destruct (Workflow.decide d st ctx cmd); [eauto|done|done]. Qed.

(** ** The invariant *)



(** ** Decisions and replay *)

(** C2: Event sourcing is exact for the activation loop: whenever it succeeds
    on the routing part of a state, replaying the events it emitted with
    [evolve] gives the routing state it ended with, in any state and for any
    definition. *)
Theorem activation_replay d cfg at_ms node vars st scope vars' rt' evs :
  activation_events d cfg at_ms node vars (RoutingState_from st) scope = Ok (vars', rt', evs) →
  RoutingState_from (foldl evolve st evs) = rt'.
Proof.
  intros H. rewrite RoutingState_from_replay. by eapply activation_loop_replay.
Qed.

Lemma activation_replay_witness :
  ∃ vars' rt' evs,
    activation_events definition config 9 "fork" facts (RoutingState_from at_pick) None =
      Ok (vars', rt', evs) ∧ 2 < length evs ∧
    RoutingState_from (foldl evolve at_pick evs) = rt'.
Proof.
  assert (match activation_events definition config 9 "fork" facts (RoutingState_from at_pick) None
    with Ok (_, _, evs) => 2 <? length evs | _ => false end = true) as Hrun
    by (vm_compute; reflexivity).
  destruct (activation_events definition config 9 "fork" facts (RoutingState_from at_pick) None)
    as [[[vars' rt'] evs]|e|s] eqn:H; [|discriminate Hrun..].
  exists vars', rt', evs. split; [reflexivity|]. split; [by apply Nat.ltb_lt|].
  exact (activation_replay definition config 9 "fork" facts at_pick None vars' rt' evs H).
Defined.



(** C4: [decide] never panics, for any definition, state, configuration and
    command: the [expect] of call activities and the token subtraction are
    always guarded. *)
Theorem decide_never_panics d st ctx cmd message :
  Workflow.decide d st ctx cmd ≠ Panic message.
Proof. apply decide_no_panic. Qed.



(** ** Boundary events *)





(** ** Multi-instance loops *)


Definition pick_books : ActiveMultiInstance :=
  default (mkActiveMI "" Sequential 0 0 0 None [] ∅ ∅)
    (st_active_multi_instances at_pick !! "pick").

(** Completing an iteration of a running loop, in any state. The iteration
    was active. Then either the loop ends, because all instances are completed
    or the completion condition holds early (and then exactly the other active
    iterations are cancelled), or the next iteration starts with its own item,
    or, when none is left, nothing else happens. *)
Theorem iteration_completion d st ctx k i t evs a :
  st_active_multi_instances st !! k = Some a →
  Workflow.decide d st ctx (CompleteMultiInstanceIteration k i t) = Ok evs →
  i ∈ am_active_iterations a ∧
  let finished :=
    N.of_nat (size ({[i]} ∪ am_completed_iterations a)) = am_total_instances a in
  ∃ more, evs = MultiInstanceIterationCompleted k i t :: more ∧
  ((∃ sat cancelled rest,
      more = MultiInstanceCompleted k sat cancelled t :: rest ∧
      (if (sat : bool) then ¬ finished ∧ ∀ j, j ∈ cancelled ↔ j ∈ am_active_iterations a ∧ j ≠ i
       else finished ∧ cancelled = [])) ∨
   (¬ finished ∧ (am_next_iteration a < am_total_instances a)%N ∧
      more = [MultiInstanceIterationActivated k (am_task_type a) (am_next_iteration a)
                (am_items a !! N.to_nat (am_next_iteration a)) t]) ∨
   (¬ finished ∧ (am_total_instances a ≤ am_next_iteration a)%N ∧ more = [])).
Proof.
  intros Ha H. apply bind_Ok in H as (evs' & H & H2). apply bind_Ok in H2 as (? & _ & [= ->]).
  simpl in H. unfold when_active in H. destruct (st_lifecycle st); try done.
  exact (complete_iteration_shape d st ctx k i t evs a Ha H).
Qed.

Lemma iteration_completion_witness :
  ∃ evs, Workflow.decide definition at_pick context (CompleteMultiInstanceIteration "pick" 1 3) = Ok evs ∧
    1%N ∈ am_active_iterations pick_books.
Proof.
  destruct (decide_ok definition at_pick context (CompleteMultiInstanceIteration "pick" 1 3))
    as [evs H]; [vm_compute; reflexivity|].
  assert (st_active_multi_instances at_pick !! "pick" = Some pick_books) as Ha
    by (vm_compute; reflexivity).
  exists evs. split; [exact H|].
  exact (proj1 (iteration_completion definition at_pick context "pick" 1 3 evs pick_books Ha H)).
Defined.

(** ** Limits, time and order *)

(** A decision is accepted exactly when it stays within the configured
    number of events; otherwise it fails as a whole, reporting the number it
    would have produced (capped at the largest [u32]). *)
Theorem event_limit_enforced d st ctx cmd evs :
  let limit := en_max_events_per_decision (rc_engine (dc_configuration ctx)) in
  (limit ≤ u32_max)%N → decide_events d st ctx cmd = Ok evs →
  Workflow.decide d st ctx cmd =
    if (N.of_nat (length evs) <=? limit)%N then Ok evs
    else Err (DecisionLimitExceeded (N.min (N.of_nat (length evs)) u32_max) limit).
Proof.
  intros limit Hmax H. unfold Workflow.decide, check_event_limit. rewrite H. simpl. fold limit.
  unfold u32_of_usize. destruct (N.leb_spec (N.of_nat (length evs)) limit) as [Hle|Hgt].
  - rewrite (proj2 (N.leb_le _ _)) by lia. simpl.
    rewrite (proj2 (N.ltb_ge limit _)) by lia. done.
  - destruct (N.leb_spec (N.of_nat (length evs)) u32_max) as [Hu|Hu]; simpl.
    + rewrite (proj2 (N.ltb_lt limit _)) by lia. simpl. rewrite N.min_l by lia. done.
    + rewrite N.min_r by lia. done.
Qed.

Definition tight_context : DecisionContext :=
  mkContext (mkConfigSnapshot "cfg" "1" "1" 1 scopes []
    (mkEnginePolicy 100 2 100 4 (en_boundary_runtime engine) 1000 retry (en_local_wasm engine)
       "events" "audit" (en_workers engine))) facts.
Lemma event_limit_enforced_witness :
  Workflow.decide definition InstanceState_default tight_context (StartWorkflow "acme" 1) =
    Err (DecisionLimitExceeded 3 2).
Proof.
  assert (∃ evs, decide_events definition InstanceState_default tight_context (StartWorkflow "acme" 1)
    = Ok evs ∧ length evs = 3) as (evs & H & Hlen).
  { eexists. split; vm_compute; reflexivity. }
  pose proof (event_limit_enforced definition InstanceState_default tight_context
    (StartWorkflow "acme" 1) evs ltac:(vm_compute; discriminate) H) as Hlim.
  rewrite Hlen in Hlim. exact Hlim.
Defined.

(** Every event of a decision carries the time of the command, in any
    state: decisions read no clock. *)
Theorem events_carry_command_time d st ctx cmd evs e :
  Workflow.decide d st ctx cmd = Ok evs → e ∈ evs → event_time e = command_at cmd.
Proof.
  intros H He. pose proof (decide_stamped d st ctx cmd evs H) as Hs.
  unfold stamped in Hs. rewrite Forall_forall in Hs. by apply Hs.
Qed.

Lemma events_carry_command_time_witness :
  ∃ evs, Workflow.decide definition at_review context (CompleteUserTask "review" "approve" 2) = Ok evs ∧
    ∀ e, e ∈ evs → event_time e = 2%N.
Proof.
  destruct (decide_ok definition at_review context (CompleteUserTask "review" "approve" 2))
    as [evs H]; [vm_compute; reflexivity|].
  exists evs. split; [exact H|]. intros e He.
  exact (events_carry_command_time definition at_review context
    (CompleteUserTask "review" "approve" 2) evs e H He).
Defined.

(** An instance that is not active refuses every workflow command except
    the start of a fresh one, each time with the error of its lifecycle. *)
Theorem inactive_instance_refuses d st ctx cmd :
  is_case_command cmd = false → (∀ n, st_lifecycle st ≠ Life_Active n) →
  (∀ tenant t, cmd = StartWorkflow tenant t → st_lifecycle st ≠ Life_Initial) →
  Workflow.decide d st ctx cmd = Err
    match cmd with
    | StartWorkflow _ _ => AlreadyStarted
    | _ =>
        match st_lifecycle st with
        | Life_Initial => NotStarted
        | Life_Completed => AlreadyCompleted
        | _ => TerminatedForCompliance
        end
    end.
Proof.
  intros Hcmd Hact Hstart. unfold Workflow.decide. destruct cmd; try done; simpl; unfold when_active;
    destruct (st_lifecycle st) as [|n| |] eqn:Hl; try done; try (by destruct (Hact n)).
  by destruct (Hstart tenant_id at_ms).
Qed.

Lemma inactive_instance_refuses_witness :
  Workflow.decide definition at_end context (CompleteScriptTask "bill" 9) = Err AlreadyCompleted.
Proof.
  assert (st_lifecycle at_end = Life_Completed) as Hl by (vm_compute; reflexivity).
  pose proof (inactive_instance_refuses definition at_end context (CompleteScriptTask "bill" 9)
    eq_refl ltac:(intros n; rewrite Hl; discriminate) ltac:(intros ? ? [=])) as H.
  rewrite Hl in H. exact H.
Defined.

(** Once completed or terminated, an instance stays so: whatever decision
    still succeeds (a case command) leaves the lifecycle, the routing state and
    the variables as they are. *)
Theorem terminal_states_are_final d st ctx cmd evs :
  st_lifecycle st = Life_Completed ∨ st_lifecycle st = Life_TerminatedForCompliance →
  Workflow.decide d st ctx cmd = Ok evs →
  st_lifecycle (foldl evolve st evs) = st_lifecycle st ∧
  RoutingState_from (foldl evolve st evs) = RoutingState_from st ∧
  st_variables (foldl evolve st evs) = st_variables st.
Proof.
  intros Hterm H. apply bind_Ok in H as (evs' & H & H2). apply bind_Ok in H2 as (? & _ & [= ->]).
  assert (Forall (case_event_at (command_at cmd)) evs) as Hev.
  { destruct cmd; simpl in *; unfold when_active in H;
      try (by destruct Hterm as [Hl|Hl]; rewrite Hl in H).
    - by eapply activate_case_events.
    - by eapply evaluate_case_sentries_events. }
  by destruct (case_events_frame _ st _ Hev) as (-> & -> & ->).
Qed.

Lemma terminal_states_are_final_witness :
  ∃ evs, Workflow.decide definition at_end context (ActivateCase "case" "audit" 9) = Ok evs ∧
    st_lifecycle (foldl evolve at_end evs) = Life_Completed.
Proof.
  destruct (decide_ok definition at_end context (ActivateCase "case" "audit" 9))
    as [evs H]; [vm_compute; reflexivity|].
  assert (st_lifecycle at_end = Life_Completed) as Hl by (vm_compute; reflexivity).
  exists evs. split; [exact H|]. rewrite <-Hl.
  exact (proj1 (terminal_states_are_final definition at_end context
    (ActivateCase "case" "audit" 9) evs (or_introl Hl) H)).
Defined.

(** Rehydration: a snapshot taken after any prefix of the log, followed by
    the rest of the log, gives the state of the whole log, and the sequence
    number counts the events (up to the largest [u64]). *)
Theorem snapshot_then_tail prefix tail :
  rehydrate (Some (rehydrate None prefix)) tail = rehydrate None (prefix ++ tail) ∧
  st_sequence (rehydrate None (prefix ++ tail)) =
    N.min (N.of_nat (length prefix + length tail)) u64_max.
Proof.
  unfold rehydrate. simpl. split; [by rewrite foldl_app|].
  rewrite replay_sequence, length_app by done. done.
Qed.
