(* ===== verification/DefinitionTheorems.v ===== *)
(** * Theorems on definitions, gateways, decision tables and configurations

    What the constructors guarantee and what the evaluation of validated
    gateways and tables does. *)

From S2P Require Import Prelude Types Expr Coverage Config WorkflowDef Routing Text Evolve.
From S2P Require Import Activation Cases Decide Simulation Examples.
From stdpp Require Import options.

(** ** Workflow definitions *)

(** C33: A definition the constructor returns is sound: its start node exists,
    every gateway passes its checks and is paired with its join, transitions
    lead to existing nodes and enter a start node only from its own
    sub-process, decision tables exist and are well formed, boundary event ids
    are unique and attached to existing nodes, metadata and scope ownership
    are consistent, case models are valid, and every node is reachable. It
    holds exactly the nodes and tables it was given. *)
Theorem constructor_guarantee tenant_id workflow_type workflow_version start_node nodes tables
    contracts d :
  new_with_execution_contracts tenant_id workflow_type workflow_version start_node nodes tables
    contracts = Ok d →
  definition_ok d ∧ wd_start_node d = start_node ∧
  (∀ k n, wd_nodes d !! k = Some n ↔ (k, n) ∈ nodes) ∧
  (∀ id t, wd_decision_tables d !! id = Some t ↔ t ∈ tables ∧ dt_id t = id) ∧
  (∀ k m, wd_node_metadata d !! k = Some m ↔ (k, m) ∈ wc_node_metadata contracts).
Proof.
  intros H. destruct (new_contents _ _ _ _ _ _ _ _ H) as (_ & _ & _ & ? & _ & ? & ? & _ & ? & _).
  split; [by eapply new_definition_ok|done].
Qed.

Lemma constructor_guarantee_witness :
  definition_ok definition ∧ wd_start_node definition = "start" ∧
  (∀ k n, wd_nodes definition !! k = Some n ↔ (k, n) ∈ nodes) ∧
  (∀ id t, wd_decision_tables definition !! id = Some t ↔ t ∈ [rating] ∧ dt_id t = id) ∧
  (∀ k m, wd_node_metadata definition !! k = Some m ↔ (k, m) ∈ wc_node_metadata contracts).
Proof. exact (constructor_guarantee _ _ _ _ _ _ _ _ definition_new). Defined.

(** C34: The reachability check terminates within its iteration bound and is
    exact: it succeeds iff every node of the definition is reachable from the
    start node through transitions and boundary events, and otherwise it
    reports the first unreachable node in key order. *)
Theorem reachability_check_exact d :
  (validate_reachability d = Ok tt ∧ ∀ k, is_Some (wd_nodes d !! k) → reachable d k) ∨
  (∃ k, validate_reachability d = Err (UnreachableNode k) ∧
    is_Some (wd_nodes d !! k) ∧ ¬ reachable d k ∧
    ∀ k', is_Some (wd_nodes d !! k') → ¬ reachable d k' → String.le k k').
Proof. apply validate_reachability_cases. Qed.

(** ** Gateways *)

(** An exclusive gateway takes a branch exactly when that branch is the
    only guarded one that matches (the others evaluate to false) or when no
    guarded branch matches and it is the default. *)
Theorem exclusive_gateway_selection gw ts variables target :
  select_transition gw ts variables = Ok target ↔
  (∃ l1 t l2, ts = l1 ++ t :: l2 ∧ matches variables t ∧ gt_target t = target ∧
     Forall (no_match variables) (l1 ++ l2)) ∨
  (Forall (no_match variables) ts ∧ default_target ts = Some target).
Proof. apply select_transition_spec. Qed.

(** An inclusive gateway takes all guarded branches that match, in their
    order, and the default branch only when none does; every guard was
    evaluated without error and at least one branch is taken. *)
Theorem inclusive_gateway_selection gw ts variables targets :
  select_transitions gw ts variables = Ok targets →
  let matching := gt_target <$> filter (λ t, bool_decide (is_default t = false) &&
    match transition_evaluate t variables with Ok true => true | _ => false end) ts in
  Forall (λ t, is_default t = true ∨ ∃ b, transition_evaluate t variables = Ok b) ts ∧
  targets ≠ [] ∧
  (targets = matching ∨
   (matching = [] ∧ ∃ target, default_target ts = Some target ∧ targets = [target])).
Proof.
  intros H. pose proof (select_transitions_nonempty _ _ _ _ H) as Hne. cbv zeta.
  unfold select_transitions in H. apply bind_Ok in H as (sel & Hsel & H).
  apply select_matching_spec in Hsel as [Hsel Hall]. split; [done|]. split; [done|].
  destruct sel as [|x sel]; simpl in H.
  - right. split; [done|]. destruct (default_target ts) as [t|]; simpl in H; [|done].
    exists t. by simplify_eq.
  - left. by simplify_eq.
Qed.

Definition inclusive_branches : list GuardedTransition :=
  [mkTransition "a" (Some (is_decision "approve")) None;
   mkTransition "b" None (Some (Negation (Comparison (is_decision "reject"))));
   mkTransition "c" None None].
Lemma inclusive_gateway_selection_witness :
  let variables : Variables := <["decision":=VString "approve"]> ∅ in
  ["a"; "b"] ≠ [] ∧ select_transitions "g" inclusive_branches variables = Ok ["a"; "b"].
Proof.
  assert (select_transitions "g" inclusive_branches (<["decision":=VString "approve"]> ∅) =
    Ok ["a"; "b"]) as H by (vm_compute; reflexivity).
  split; [|exact H].
  exact (proj1 (proj2 (inclusive_gateway_selection _ _ _ _ H))).
Defined.


Definition five : Variables := <["n":=VInteger 5]> ∅.
Definition not_less : BooleanExpression :=
  Conjunction [Constant true; Negation (Comparison (mkGuard "n" Op_LessThan (VInteger 3)))].

(** A validated gateway with boolean coverage takes a branch for either
    value of its variable, and it is the branch whose guard holds. *)
Theorem boolean_coverage_complete node ts cov variables b :
  validate_gateway node ts (Some cov) = Ok tt → cov_domain cov = Domain_Boolean →
  Forall (λ t, gt_expression t = None) ts →
  variables !! cov_variable cov = Some (VBoolean b) →
  ∃ i t, ts !! i = Some t ∧ transition_evaluate t variables = Ok true ∧
         select_transition node ts variables = Ok (gt_target t).
Proof. apply boolean_coverage_selects. Qed.

Definition boolean_branches : list GuardedTransition :=
  [mkTransition "yes" (Some (mkGuard "ok" Op_Equal (VBoolean true))) None;
   mkTransition "no" (Some (mkGuard "ok" Op_Equal (VBoolean false))) None].
Lemma boolean_coverage_complete_witness :
  ∃ i t, boolean_branches !! i = Some t ∧
    transition_evaluate t (<["ok":=VBoolean false]> ∅) = Ok true ∧
    select_transition "g" boolean_branches (<["ok":=VBoolean false]> ∅) = Ok (gt_target t).
Proof.
  apply (boolean_coverage_complete "g" boolean_branches (mkCoverage "ok" Domain_Boolean)
    (<["ok":=VBoolean false]> ∅) false); [vm_compute; reflexivity|reflexivity| |reflexivity].
  by repeat constructor.
Defined.

(** A validated gateway with enumeration coverage takes the branch whose
    guard names the value, for every declared value. *)
Theorem enum_coverage_complete node ts cov values variables s :
  validate_gateway node ts (Some cov) = Ok tt → cov_domain cov = Domain_Enum values →
  Forall (λ t, gt_expression t = None) ts →
  variables !! cov_variable cov = Some (VString s) → s ∈ values →
  ∃ i t, ts !! i = Some t ∧ transition_evaluate t variables = Ok true ∧
         select_transition node ts variables = Ok (gt_target t).
Proof. apply enum_coverage_selects. Qed.

Definition enum_branches : list GuardedTransition :=
  [mkTransition "r" (Some (mkGuard "color" Op_Equal (VString "red"))) None;
   mkTransition "b" (Some (mkGuard "color" Op_Equal (VString "blue"))) None].
Lemma enum_coverage_complete_witness :
  ∃ i t, enum_branches !! i = Some t ∧
    transition_evaluate t (<["color":=VString "blue"]> ∅) = Ok true ∧
    select_transition "g" enum_branches (<["color":=VString "blue"]> ∅) = Ok (gt_target t).
Proof.
  apply (enum_coverage_complete "g" enum_branches (mkCoverage "color" (Domain_Enum ["blue"; "red"]))
    ["blue"; "red"] (<["color":=VString "blue"]> ∅) "blue");
    [vm_compute; reflexivity|reflexivity| |reflexivity|by left].
  by repeat constructor.
Defined.

(** A validated gateway with integer coverage has a matching branch for
    every 64-bit value of its variable, so that it takes a branch or reports
    an ambiguity and never reports a missing branch. *)
Theorem integer_coverage_complete node ts cov intervals variables z :
  validate_gateway node ts (Some cov) = Ok tt → cov_domain cov = Domain_Integer intervals →
  Forall (λ t, gt_expression t = None) ts →
  variables !! cov_variable cov = Some (VInteger z) → (i64_min ≤ z ≤ i64_max)%Z →
  (∃ t, t ∈ ts ∧ matches variables t) ∧
  ((∃ target, select_transition node ts variables = Ok target) ∨
   select_transition node ts variables = Err (AmbiguousGateway node)).
Proof. apply integer_coverage_exhaustive. Qed.

Definition integer_branches : list GuardedTransition :=
  [mkTransition "small" (Some (mkGuard "n" Op_LessThanOrEqual (VInteger 5))) None;
   mkTransition "large" (Some (mkGuard "n" Op_GreaterThan (VInteger 5))) None].
Lemma integer_coverage_complete_witness :
  (∃ t, t ∈ integer_branches ∧ matches (<["n":=VInteger 6]> ∅) t) ∧
  ((∃ target, select_transition "g" integer_branches (<["n":=VInteger 6]> ∅) = Ok target) ∨
   select_transition "g" integer_branches (<["n":=VInteger 6]> ∅) = Err (AmbiguousGateway "g")).
Proof.
  apply (integer_coverage_complete "g" integer_branches
    (mkCoverage "n" (Domain_Integer [mkInterval None (Some 5%Z); mkInterval (Some 6%Z) None]))
    [mkInterval None (Some 5%Z); mkInterval (Some 6%Z) None] (<["n":=VInteger 6]> ∅) 6);
    [vm_compute; reflexivity|reflexivity| |reflexivity|by vm_compute].
  by repeat constructor.
Defined.

(** ** Decision tables *)

(** Evaluating a decision table returns the outputs of the first rule that
    fires with no rule firing before it and, under the [Unique] hit policy,
    none after it; a rule before it that cannot be evaluated fails the table. *)
Theorem decision_table_evaluation table variables out :
  evaluate_decision_table table variables = Ok out ↔
  ∃ rule pre post, dt_rules table = pre ++ rule :: post ∧ rule_fires table variables rule ∧
    Forall (rule_silent table variables) pre ∧
    (dt_hit_policy table = Unique → Forall (rule_silent table variables) post) ∧
    out = table_outputs table rule.
Proof. apply evaluate_decision_table_spec. Qed.

(** C36: The outputs of a decision table of a constructed definition have the
    types the table declares. *)
Theorem decision_outputs_well_typed d id table variables out name v :
  constructed d → wd_decision_tables d !! id = Some table →
  evaluate_decision_table table variables = Ok out → out !! name = Some v →
  ∃ output, output ∈ dt_outputs table ∧ do_name output = name ∧
    ValueType_matches (do_value_type output) v = true.
Proof.
  intros Hd Ht Hev Hout. destruct (ok_table d (constructed_ok d Hd) _ _ Ht) as [_ Hval].
  apply validate_decision_table_Ok in Hval.
  apply evaluate_decision_table_spec in Hev as (rule & pre & post & Hr & _ & _ & _ & ->).
  eapply table_outputs_typed; [done| |done]. rewrite Hr. set_solver.
Qed.

Lemma decision_outputs_well_typed_witness :
  ∃ output, output ∈ dt_outputs rating ∧ do_name output = "tier" ∧
    ValueType_matches (do_value_type output) (VString "gold") = true.
Proof.
  apply (decision_outputs_well_typed definition "rating" rating facts
    (<["tier":=VString "gold"]> ∅)).
  - exact example_constructed.
  - vm_compute. reflexivity.
  - vm_compute. reflexivity.
  - reflexivity.
Defined.

(** ** Configurations *)

(** A configuration snapshot the constructor returns has positive limits,
    a default multi-instance parallelism within the cardinality limit, a
    worker lease longer than its heartbeat timeout, and scopes of strictly
    increasing precedence. *)
Theorem configuration_guarantee config_id config_version policy_version schema_version scopes hash
    engine c :
  ResolvedConfigSnapshot_new config_id config_version policy_version schema_version scopes hash
    engine = Ok c →
  engine_bounds (rc_engine c) ∧ (0 < rc_schema_version c)%N ∧ rc_resolved_scopes c ≠ [] ∧
  StronglySorted (λ a b, (precedence (csc_kind a) < precedence (csc_kind b))%N)
    (rc_resolved_scopes c).
Proof.
  intros H. unfold ResolvedConfigSnapshot_new in H.
  apply bind_Ok in H as (? & Hs%bail_if_Ok & H). apply bind_Ok in H as (? & He%bail_if_Ok & H).
  apply bind_Ok in H as ([] & Ho & H). apply bind_Ok in H as ([] & Hv & [= <-]). simpl.
  split_and!.
  - by apply EnginePolicy_validate_bounds.
  - lia.
  - by apply is_empty_false.
  - by apply scopes_ordered_Ok.
Qed.

Lemma configuration_guarantee_witness :
  engine_bounds (rc_engine config) ∧ (0 < rc_schema_version config)%N ∧
  rc_resolved_scopes config ≠ [] ∧
  StronglySorted (λ a b, (precedence (csc_kind a) < precedence (csc_kind b))%N)
    (rc_resolved_scopes config).
Proof.
  exact (configuration_guarantee "cfg" "1" "1" 1 scopes [] engine config
    ltac:(vm_compute; reflexivity)).
Defined.
