(* ===== verification/CaseTheorems.v ===== *)
(** * Theorems on CMMN cases

    Activation and sentry evaluation of cases, with witnesses on the audit
    case of [Examples]. *)

From S2P Require Import Prelude Types Expr Coverage Config WorkflowDef Routing Text Evolve.
From S2P Require Import Activation Cases Decide MultiInstance Simulation Invariant Loop Decisions.
From S2P Require Import CaseSpec Instance Errors Examples.
From stdpp Require Import options.


Definition case_facts : Variables := <["ok":=VBoolean true]> ∅.
Definition case_context : DecisionContext := mkContext config case_facts.
Definition activated : list Command := [ActivateCase "case" "audit" 1].
Definition in_case : InstanceState := state_after activated.
Definition case_now : ActiveCase :=
  default (mkActiveCase "" Case_Active ∅ ∅) (st_active_cases in_case !! "case").


(** One round of sentry evaluation. A sentry is satisfied afterwards iff it
    was before or its condition now holds; every stage and milestone then has
    the status its sentries call for, everything else of the case and all
    other cases stay as they were, and the case is closed exactly when all its
    items are completed. *)
Theorem sentry_round d st id facts t ctx evs :
  constructed d → dc_variables ctx = facts →
  Workflow.decide d st ctx (EvaluateCaseSentries id t) = Ok evs →
  ∃ c model sat items,
    st_active_cases st !! id = Some c ∧ wd_case_models d !! ac_model_id c = Some model ∧
    st_active_cases (foldl evolve st evs) =
      <[id:=mkActiveCase (ac_model_id c)
          (if all_completed items then Case_Completed else Case_Active) sat items]>
        (st_active_cases st) ∧
    (∀ i, i ∈ sat ↔ i ∈ ac_satisfied_sentries c ∨ ∃ s, s ∈ cd_sentries model ∧ se_id s = i ∧
       expression_evaluate (se_condition s) (state_variables_with_context st facts) = Ok true) ∧
    (∀ stage, stage ∈ cd_stages model → ∃ it it', ac_plan_items c !! cs_id stage = Some it ∧
       items !! cs_id stage = Some it' ∧ moved Stage (stage_status sat stage) it it') ∧
    (∀ m, m ∈ cd_milestones model → ∃ it it', ac_plan_items c !! cm_id m = Some it ∧
       items !! cm_id m = Some it' ∧ moved Milestone (milestone_status sat m) it it') ∧
    (∀ i, i ∉ item_ids model → items !! i = ac_plan_items c !! i).
Proof.
  intros Hd <- H. apply bind_Ok in H as (evs' & H & H2). apply bind_Ok in H2 as (? & _ & [= ->]).
  simpl in H. apply evaluate_case_sentries_spec in H; [|by apply constructed_ok].
  destruct H as (c & model & sat & items & ? & _ & ? & Hr & ? & ? & ? & ?).
  exists c, model, sat, items. rewrite replay_cases. done.
Qed.

Lemma sentry_round_witness :
  ∃ evs c, Workflow.decide definition in_case case_context (EvaluateCaseSentries "case" 2) = Ok evs ∧
    st_active_cases in_case !! "case" = Some c.
Proof.
  assert (∃ evs, Workflow.decide definition in_case case_context (EvaluateCaseSentries "case" 2)
    = Ok evs) as [evs H] by (eexists; vm_compute; reflexivity).
  destruct (sentry_round definition in_case "case" case_facts 2 case_context evs
    example_constructed
    eq_refl H) as (c & _ & _ & _ & Hc & _).
  exists evs, c. split; [exact H|exact Hc].
Defined.

(** Plan items only move forward (available, active, completed), and
    satisfied sentries stay satisfied. *)
Theorem plan_items_move_forward d st id facts t ctx evs c :
  constructed d → cases_inv d (st_active_cases st) → dc_variables ctx = facts →
  Workflow.decide d st ctx (EvaluateCaseSentries id t) = Ok evs →
  st_active_cases st !! id = Some c →
  ∃ c', st_active_cases (foldl evolve st evs) !! id = Some c' ∧
    ac_satisfied_sentries c ⊆ ac_satisfied_sentries c' ∧
    ∀ i it, ac_plan_items c !! i = Some it →
      ∃ it', ac_plan_items c' !! i = Some it' ∧ pi_kind it' = pi_kind it ∧
        status_rank (pi_status it) ≤ status_rank (pi_status it').
Proof.
  intros Hd Hinv <- H Hc. apply bind_Ok in H as (evs' & H & H2).
  apply bind_Ok in H2 as (? & _ & [= ->]).
  simpl in H. apply evaluate_case_sentries_spec in H; [|by apply constructed_ok].
  destruct H as (c0 & model & sat & items & Hc0 & _ & Hm & Hr & Hsat & Hst & Hms & Ho).
  rewrite Hc in Hc0. injection Hc0 as <-.
  destruct (Hinv _ _ Hc) as (model' & [Hm' Hitems Hstage Hmile _ _]).
  rewrite Hm in Hm'. injection Hm' as <-.
  eexists. rewrite replay_cases, Hr, lookup_insert_eq. split; [done|]. simpl. split.
  { intros i Hi. apply Hsat. by left. }
  intros i it Hi. assert (i ∈ item_ids model) as Hin by (apply Hitems; eauto).
  apply elem_of_app in Hin as [(s & -> & Hs)%list_elem_of_fmap|(s & -> & Hs)%list_elem_of_fmap].
  - destruct (Hst s Hs) as (it0 & it' & H0 & H1 & Hstat & Hk).
    rewrite Hi in H0. injection H0 as <-. exists it'. split; [done|].
    destruct (Hstage s Hs) as (s0 & H0). rewrite Hi in H0. injection H0 as ->.
    simpl in *. rewrite Hk by done. split; [done|]. rewrite Hstat. unfold stage_status.
    destruct s0; simpl; repeat case_match; simpl; lia.
  - destruct (Hms s Hs) as (it0 & it' & H0 & H1 & Hstat & Hk).
    rewrite Hi in H0. injection H0 as <-. exists it'. split; [done|].
    destruct (Hmile s Hs) as (s0 & H0 & _). rewrite Hi in H0. injection H0 as ->.
    simpl in *. rewrite Hk by done. split; [done|]. rewrite Hstat. unfold milestone_status.
    destruct s0; simpl; repeat case_match; simpl; lia.
Qed.

Lemma plan_items_move_forward_witness :
  ∃ evs c', Workflow.decide definition in_case case_context (EvaluateCaseSentries "case" 2) = Ok evs ∧
    st_active_cases (foldl evolve in_case evs) !! "case" = Some c'.
Proof.
  assert (∃ evs, Workflow.decide definition in_case case_context (EvaluateCaseSentries "case" 2)
    = Ok evs) as [evs H] by (eexists; vm_compute; reflexivity).
  assert (st_active_cases in_case !! "case" = Some case_now) as Hc by (vm_compute; reflexivity).
  destruct (plan_items_move_forward definition in_case "case" case_facts 2 case_context evs case_now
    example_constructed
    (si_cases _ _ (instance_reachable_inv definition definition_is_ok definition_is_plain in_case
      (state_after_reachable activated))) eq_refl H Hc) as (c' & Hc' & _).
  exists evs, c'. split; [exact H|exact Hc'].
Defined.
