(* ===== verification/Findings.v ===== *)
(** * Where the code departs from its intent

    Closed evaluations of the model on inputs where the code accepts,
    rejects or panics against what its comments and messages say. *)

From S2P Require Import Prelude Types Expr Coverage Config WorkflowDef Routing Text Evolve.
From S2P Require Import Activation Cases Decide MultiInstance Simulation Invariant Loop Decisions.
From S2P Require Import CaseSpec Instance Errors Examples.
From stdpp Require Import options.

(** ** Integer coverage accepts overlapping guards *)
Definition overlapping : list GuardedTransition :=
  [mkTransition "low" (Some (mkGuard "n" Op_LessThanOrEqual (VInteger 5))) None;
   mkTransition "high" (Some (mkGuard "n" Op_GreaterThan (VInteger 5))) None;
   mkTransition "seven" (Some (mkGuard "n" Op_Equal (VInteger 7))) None].
Definition overlapping_coverage : GatewayCoverage :=
  mkCoverage "n" (Domain_Integer
    [mkInterval None (Some 5%Z); mkInterval (Some 6%Z) None; mkInterval (Some 7%Z) (Some 7%Z)]).

(** The integer coverage check stops at the first interval that reaches the
    upper end and never looks at the intervals after it: three guards of which
    two overlap pass the validation, although the check is there to prove them
    disjoint, and the gateway then fails as ambiguous for the shared value. *)
Theorem integer_coverage_accepts_overlap :
  validate_gateway "g" overlapping (Some overlapping_coverage) = Ok tt ∧
  select_transition "g" overlapping (<["n":=VInteger 7]> ∅) = Err (AmbiguousGateway "g").
Proof. split; vm_compute; reflexivity. Qed.

(** ** Coverage of a branch with an expression panics *)
Definition expression_branch : list GuardedTransition :=
  [mkTransition "yes" (Some (mkGuard "ok" Op_Equal (VBoolean true))) None;
   mkTransition "no" None (Some (Constant true))].

(** A branch that carries an expression instead of a guard, under a
    non-symbolic coverage, is not rejected: the validation of the definition
    panics on the [expect] that says it was checked above. *)
Theorem coverage_of_expression_panics :
  validate_gateway "g" expression_branch (Some (mkCoverage "ok" Domain_Boolean)) =
    Panic "checked above".
Proof. vm_compute. reflexivity. Qed.

(** ** Service outputs are not visible to the transition they trigger *)
Definition outputs_nodes : list (NodeId * Node) :=
  [("start", Node_Start "score");
   ("score", Node_ServiceTask "score" "gate");
   ("gate", Node_ExclusiveGateway
      [mkTransition "good" (Some (mkGuard "score" Op_GreaterThan (VInteger 10))) None;
       mkTransition "bad" None None] None);
   ("good", Node_End); ("bad", Node_End)].
Definition outputs_result : result WorkflowDefinition :=
  WorkflowDefinition_new "acme" "scoring" "1" "start" outputs_nodes.
Definition run_in (r : result WorkflowDefinition) (vars : Variables) (cmds : list Command)
    : result InstanceState :=
  d ← r;
  for_each (λ st cmd, evs ← Workflow.decide d st (mkContext config vars) cmd;
                      Ok (foldl evolve st evs)) cmds InstanceState_default.
Definition score : Variables := <["score":=VInteger 50]> ∅.

(** Completing a service task with outputs evaluates the gateway behind it
    without them: the decision fails because the variable is missing, although
    replaying the completion event stores it and the user task counterpart
    makes its result visible. With the same value passed as a context variable
    the decision succeeds. *)
Theorem service_outputs_not_visible :
  run_in outputs_result ∅ [StartWorkflow "acme" 1; CompleteServiceTask "score" score 2] =
    Err (GuardVariableMissing "score") ∧
  match run_in outputs_result score
    [StartWorkflow "acme" 1; CompleteServiceTask "score" score 2] with
  | Ok st => st_lifecycle st = Life_Completed
  | _ => False
  end.
Proof. split; vm_compute; reflexivity. Qed.

(** ** Cases are not fenced by a compliance termination *)
Definition terminated : InstanceState :=
  evolve (state_after to_review)
    (WorkflowTerminatedForCompliance "policy" [] "reason" 0 5).

(** A terminated instance is described as permanently fenced, yet a case
    can still be activated on it: the decision succeeds and the new case is in
    the state. *)
Theorem case_activated_after_termination :
  st_lifecycle terminated = Life_TerminatedForCompliance ∧
  match Workflow.decide definition terminated context (ActivateCase "case" "audit" 6) with
  | Ok evs => is_some (st_active_cases (foldl evolve terminated evs) !! "case") = true
  | _ => False
  end.
Proof. split; vm_compute; reflexivity. Qed.

(** ** Scope instance ids can collide *)
Definition colliding_nodes : list (NodeId * Node) :=
  [("start", Node_Start "fork");
   ("fork", Node_ParallelSplit ["a"; "a#1/b"] "merge");
   ("a", Node_SubProcess "a_start" "a_end" "merge");
   ("a_start", Node_Start "b");
   ("b", Node_SubProcess "b_start" "b_end" "a_end");
   ("b_start", Node_Start "inner"); ("inner", Node_ServiceTask "inner" "b_end");
   ("b_end", Node_End); ("a_end", Node_End);
   ("a#1/b", Node_SubProcess "c_start" "c_end" "merge");
   ("c_start", Node_Start "outer"); ("outer", Node_ServiceTask "outer" "c_end");
   ("c_end", Node_End);
   ("merge", Node_ParallelJoin "fork" "done"); ("done", Node_End)].
Definition owned_by (scope : NodeId) (k : NodeId) : NodeId * NodeExecutionMetadata :=
  (k, mkMetadata None [] (Some scope)).
Definition colliding_result : result WorkflowDefinition :=
  new_with_execution_contracts "acme" "nested" "1" "start" colliding_nodes []
    (mkContracts []
       ((owned_by "a" <$> ["a_start"; "b"; "a_end"]) ++
        (owned_by "b" <$> ["b_start"; "inner"; "b_end"]) ++
        (owned_by "a#1/b" <$> ["c_start"; "outer"; "c_end"])) [] []).

(** Node ids are free text, and a sub-process id that looks like a scope
    path makes two scopes share one instance id: the second silently replaces
    the first, whose task can then never be completed. *)
Theorem scope_instance_ids_collide :
  run_in colliding_result ∅ [StartWorkflow "acme" 1; CompleteServiceTask "inner" ∅ 2] =
    Err (ScopeNotActive "b") ∧
  match run_in colliding_result ∅ [StartWorkflow "acme" 1] with
  | Ok st => btree_keys (st_active_tokens st) = ["inner"; "outer"] ∧
             btree_keys (st_active_scopes st) = ["a#1"; "a#1/b#1"]
  | _ => False
  end.
Proof. split; vm_compute; [reflexivity|split; reflexivity]. Qed.
