(* ===== verification/Credits.v ===== *)
(** * The dispatch credit ledger

    [apps/rust/bpmp-engine/src/dispatch_credit.rs]: the credits remote workers
    advertise and the tasks dispatched against them. Methods that fail return
    the ledger as the source leaves it. *)

From S2P Require Import Prelude.
From stdpp Require Import options.

Record DispatchLimits := mkLimits {
  dl_max_workers : N;
  dl_max_credits_per_worker : N;
  dl_max_identifier_bytes : N }.

Inductive CreditError :=
| InvalidLimits
| InvalidIdentifier
| WorkerLimitExceeded
| CreditLimitExceeded
| ActiveStateExceedsNewLimits
| CreditBelowInflight
| UnknownWorker
| CreditExhausted
| DuplicateTask
| UnknownTask.

Definition DispatchLimits_validate (l : DispatchLimits) : res CreditError unit :=
  bail_if ((dl_max_workers l =? 0) || (dl_max_credits_per_worker l =? 0)
           || (dl_max_identifier_bytes l =? 0))%N InvalidLimits.

Record WorkerCredits := mkWorker {
  wk_granted : N;
  wk_inflight : gset string }.

Record CreditController := mkController {
  ctl_limits : DispatchLimits;
  ctl_workers : gmap string WorkerCredits }.

Definition CreditController_new (limits : DispatchLimits) : res CreditError CreditController :=
  DispatchLimits_validate limits;;
  Ok (mkController limits ∅).

(** [worker.inflight.len()] as the [u64] it is compared as. *)
Definition inflight_count (w : WorkerCredits) : N := N.of_nat (size (wk_inflight w)).

Definition set_worker (c : CreditController) (worker_id : string) (w : WorkerCredits)
    : CreditController := mkController (ctl_limits c) (<[worker_id:=w]> (ctl_workers c)).

Abbreviation ledger := (method CreditController CreditError) (only parsing).

Definition replace_limits (limits : DispatchLimits) : ledger unit :=
  lift (DispatchLimits_validate limits);;
  c ← self;
  lift (bail_if ((dl_max_workers limits <? N.of_nat (size (ctl_workers c)))%N
    || existsb (λ w, (dl_max_credits_per_worker limits <? wk_granted w)
                     || (dl_max_credits_per_worker limits <? inflight_count w))%N
         (btree_values (ctl_workers c))) ActiveStateExceedsNewLimits);;
  set_self (mkController limits (ctl_workers c)).

Definition validate_identifier (value : string) : ledger unit :=
  c ← self;
  lift (bail_if (is_blank value
                 || (dl_max_identifier_bytes (ctl_limits c) <? N.of_nat (String.length value))%N)
          InvalidIdentifier).

Definition grant (worker_id : string) (credits : N) : ledger unit :=
  validate_identifier worker_id;;
  c ← self;
  lift (bail_if (dl_max_credits_per_worker (ctl_limits c) <? credits)%N CreditLimitExceeded);;
  lift (bail_if (negb (is_some (ctl_workers c !! worker_id))
                 && (dl_max_workers (ctl_limits c) <=? N.of_nat (size (ctl_workers c)))%N)
          WorkerLimitExceeded);;
  (* [entry(..).or_insert_with(..)] *)
  let worker := default (mkWorker 0 ∅) (ctl_workers c !! worker_id) in
  set_self (set_worker c worker_id worker);;
  lift (bail_if (credits <? inflight_count worker)%N CreditBelowInflight);;
  set_self (set_worker c worker_id (mkWorker credits (wk_inflight worker))).

Definition reserve (worker_id task_id : string) : ledger unit :=
  validate_identifier worker_id;;
  validate_identifier task_id;;
  c ← self;
  worker ← lift (ok_or (ctl_workers c !! worker_id) UnknownWorker);
  lift (bail_if (bool_decide (task_id ∈ wk_inflight worker)) DuplicateTask);;
  lift (bail_if (wk_granted worker <=? inflight_count worker)%N CreditExhausted);;
  set_self (set_worker c worker_id
    (mkWorker (wk_granted worker) ({[task_id]} ∪ wk_inflight worker))).

Definition complete (worker_id task_id : string) : ledger unit :=
  c ← self;
  worker ← lift (ok_or (ctl_workers c !! worker_id) UnknownWorker);
  set_self (set_worker c worker_id
    (mkWorker (wk_granted worker) (wk_inflight worker ∖ {[task_id]})));;
  lift (bail_if (bool_decide (task_id ∉ wk_inflight worker)) UnknownTask).

Definition disconnect (c : CreditController) (worker_id : string)
    : CreditController * list string :=
  (mkController (ctl_limits c) (delete worker_id (ctl_workers c)),
   match ctl_workers c !! worker_id with
   | Some worker => btree_set_iter (wk_inflight worker)
   | None => []
   end).

Definition invariant_holds (c : CreditController) : bool :=
  forallb (λ w, (inflight_count w <=? wk_granted w)
                && (wk_granted w <=? dl_max_credits_per_worker (ctl_limits c)))%N
    (btree_values (ctl_workers c)).

(** ** Runs of the ledger *)
Inductive Operation :=
| ReplaceLimits (limits : DispatchLimits)
| Grant (worker_id : string) (credits : N)
| Reserve (worker_id task_id : string)
| Complete (worker_id task_id : string)
| Disconnect (worker_id : string).

Definition perform (op : Operation) : ledger unit :=
  match op with
  | ReplaceLimits limits => replace_limits limits
  | Grant worker_id credits => grant worker_id credits
  | Reserve worker_id task_id => reserve worker_id task_id
  | Complete worker_id task_id => complete worker_id task_id
  | Disconnect worker_id => λ c, ((disconnect c worker_id).1, Ok tt)
  end.

(** The ledger after a sequence of calls, and the calls that succeeded, last
    first. *)
Fixpoint perform_all (ops : list Operation) (c : CreditController) (log : list Operation)
    : CreditController * list Operation :=
  match ops with
  | [] => (c, log)
  | op :: ops =>
      match perform op c with
      | (c, Ok _) => perform_all ops c (op :: log)
      | (c, _) => perform_all ops c log
      end
  end.

(** ** What the log says

    The credit a worker holds is its last grant since it last disconnected;
    a task is outstanding when it was reserved and since then neither
    completed nor its worker disconnected. *)
Fixpoint credit_of (log : list Operation) (w : string) : option N :=
  match log with
  | [] => None
  | Grant w' n :: log => if bool_decide (w' = w) then Some n else credit_of log w
  | Disconnect w' :: log => if bool_decide (w' = w) then None else credit_of log w
  | _ :: log => credit_of log w
  end.

Fixpoint outstanding (log : list Operation) (w t : string) : bool :=
  match log with
  | [] => false
  | Reserve w' t' :: log =>
      if bool_decide (w' = w ∧ t' = t) then true else outstanding log w t
  | Complete w' t' :: log =>
      if bool_decide (w' = w ∧ t' = t) then false else outstanding log w t
  | Disconnect w' :: log => if bool_decide (w' = w) then false else outstanding log w t
  | _ :: log => outstanding log w t
  end.

(** ** Lemmas *)
Lemma set_worker_id c k w : ctl_workers c !! k = Some w → set_worker c k w = c.
Proof. intros H. unfold set_worker. rewrite insert_id by done. by destruct c. Qed.

(** What a successful call of each method does and when it succeeds. *)
Definition performs (op : Operation) (c c' : CreditController) : Prop :=
  match op with
  | ReplaceLimits l =>
      DispatchLimits_validate l = Ok tt ∧ c' = mkController l (ctl_workers c) ∧
      (N.of_nat (size (ctl_workers c)) ≤ dl_max_workers l)%N ∧
      ∀ k w, ctl_workers c !! k = Some w → (wk_granted w ≤ dl_max_credits_per_worker l)%N
  | Grant k n =>
      ∃ w, w = default (mkWorker 0 ∅) (ctl_workers c !! k) ∧
        c' = set_worker c k (mkWorker n (wk_inflight w)) ∧
        (inflight_count w ≤ n ≤ dl_max_credits_per_worker (ctl_limits c))%N ∧
        (is_Some (ctl_workers c !! k) ∨
         (N.of_nat (size (ctl_workers c)) < dl_max_workers (ctl_limits c))%N)
  | Reserve k t =>
      ∃ w, ctl_workers c !! k = Some w ∧ t ∉ wk_inflight w ∧
        (inflight_count w < wk_granted w)%N ∧
        c' = set_worker c k (mkWorker (wk_granted w) ({[t]} ∪ wk_inflight w))
  | Complete k t =>
      ∃ w, ctl_workers c !! k = Some w ∧ t ∈ wk_inflight w ∧
        c' = set_worker c k (mkWorker (wk_granted w) (wk_inflight w ∖ {[t]}))
  | Disconnect k => c' = (disconnect c k).1
  end.

Lemma validate_identifier_then {B} value (k : unit → ledger B) c :
  (validate_identifier value ≫= k) c =
    if is_blank value
       || (dl_max_identifier_bytes (ctl_limits c) <? N.of_nat (String.length value))%N
    then (c, Err InvalidIdentifier) else k tt c.
Proof. cbv [mbind method_bind validate_identifier self lift bail_if]. by destruct (_ || _). Qed.
Lemma validate_limits_then {B} l (k : unit → ledger B) c :
  (lift (DispatchLimits_validate l) ≫= k) c =
    if ((dl_max_workers l =? 0) || (dl_max_credits_per_worker l =? 0)
        || (dl_max_identifier_bytes l =? 0))%N
    then (c, Err InvalidLimits) else k tt c.
Proof. apply bail_if_then. Qed.
#[local] Hint Rewrite @validate_identifier_then @validate_limits_then : methods.

Lemma replace_limits_spec l c c' r :
  replace_limits l c = (c', r) →
  (r = Ok tt ∧ performs (ReplaceLimits l) c c') ∨ (c' = c ∧ ∃ e, r = Err e).
Proof.
  intros H. unfold replace_limits in H. open_method H; eauto. left. split; [done|].
  match goal with Hb : _ || _ = false |- _ => apply orb_false_iff in Hb as [Hn Ha] end.
  split_and!; [|done|lia|].
  { unfold DispatchLimits_validate, bail_if. by case_match. }
  intros k w Hw.
  rewrite <-not_true_iff_false, existsb_exists in Ha.
  destruct (N.leb_spec (wk_granted w) (dl_max_credits_per_worker l)); [done|].
  destruct Ha. exists w. split; [|lia].
  apply list_elem_of_In, elem_of_btree_values. by exists k.
Qed.

Lemma grant_spec k n c c' r :
  grant k n c = (c', r) →
  (r = Ok tt ∧ performs (Grant k n) c c') ∨ (c' = c ∧ ∃ e, r = Err e).
Proof.
  intros H. unfold grant in H. open_method H; eauto.
  - right. destruct (ctl_workers c !! k) as [w|] eqn:Hw; simpl in *.
    + rewrite set_worker_id by done. eauto.
    + assert (inflight_count (mkWorker 0 ∅) = 0%N) by reflexivity. lia.
  - left. split; [done|]. eexists. split; [done|]. split; [done|].
    rewrite <-is_some_true. split; [lia|].
    destruct (is_some _); simpl in *; [by left|right; lia].
Qed.

Lemma reserve_spec k t c c' r :
  reserve k t c = (c', r) →
  (r = Ok tt ∧ performs (Reserve k t) c c') ∨ (c' = c ∧ ∃ e, r = Err e).
Proof.
  intros H. unfold reserve in H. open_method H; eauto.
  left. split; [done|]. eexists. rewrite bool_decide_eq_false in *. split_and!; [done|done|lia|done].
Qed.

Lemma complete_spec k t c c' r :
  complete k t c = (c', r) →
  (r = Ok tt ∧ performs (Complete k t) c c') ∨ (c' = c ∧ ∃ e, r = Err e).
Proof.
  intros H. unfold complete in H. open_method H; eauto.
  - right. split; [|eauto]. rewrite bool_decide_eq_true in *.
    match goal with Hw : _ !! k = Some ?w |- _ => rewrite <-(set_worker_id c k w) at 2 by done end.
    f_equal. destruct w as [g s]. simpl in *. f_equal. set_solver.
  - left. rewrite bool_decide_eq_false in *. split; [done|].
    eexists. split_and!; [done|by apply dec_stable|done].
Qed.

Lemma perform_spec op c c' r :
  perform op c = (c', r) → (r = Ok tt ∧ performs op c c') ∨ (c' = c ∧ ∃ e, r = Err e).
Proof.
  destruct op; simpl perform.
  - apply replace_limits_spec.
  - apply grant_spec.
  - apply reserve_spec.
  - apply complete_spec.
  - intros [= <- <-]. by left.
Qed.

(** ** The invariant *)
Record ledger_ok (c : CreditController) : Prop := {
  lo_limits : DispatchLimits_validate (ctl_limits c) = Ok tt;
  lo_workers : (N.of_nat (size (ctl_workers c)) ≤ dl_max_workers (ctl_limits c))%N;
  lo_credit k w : ctl_workers c !! k = Some w →
    (inflight_count w ≤ wk_granted w ≤ dl_max_credits_per_worker (ctl_limits c))%N;
}.

Lemma set_worker_ok c k w :
  ledger_ok c →
  is_Some (ctl_workers c !! k) ∨
    (N.of_nat (size (ctl_workers c)) < dl_max_workers (ctl_limits c))%N →
  (inflight_count w ≤ wk_granted w ≤ dl_max_credits_per_worker (ctl_limits c))%N →
  ledger_ok (set_worker c k w).
Proof.
  intros [Hl Hn Hc] Hk Hw. split; simpl; [done| |].
  - rewrite map_size_insert. destruct (ctl_workers c !! k); simpl; [lia|].
    destruct Hk as [[? [=]]|]. lia.
  - intros k' w'. rewrite lookup_insert. case_decide; [by intros [= <-]|by apply Hc].
Qed.

Lemma inflight_count_add w t :
  t ∉ wk_inflight w → inflight_count (mkWorker (wk_granted w) ({[t]} ∪ wk_inflight w)) =
    (inflight_count w + 1)%N.
Proof.
  intros Ht. unfold inflight_count. simpl. rewrite size_union by set_solver.
  rewrite size_singleton. lia.
Qed.

Lemma performs_ok op c c' : ledger_ok c → performs op c c' → ledger_ok c'.
Proof.
  intros Hok. pose proof Hok as [Hl Hn Hc]. destruct op as [l|k n|k t|k t|k]; simpl.
  - intros (Hv & -> & Hs & Hg). split; simpl; [done|done|].
    intros k w Hw. specialize (Hc _ _ Hw). specialize (Hg _ _ Hw). lia.
  - intros (w & -> & -> & Hb & Hk). by apply set_worker_ok.
  - intros (w & Hw & Ht & Hlt & ->). apply set_worker_ok; [done|eauto|].
    specialize (Hc _ _ Hw). rewrite inflight_count_add by done. simpl. lia.
  - intros (w & Hw & Ht & ->). apply set_worker_ok; [done|eauto|].
    specialize (Hc _ _ Hw). unfold inflight_count in *. simpl.
    assert (size (wk_inflight w ∖ {[t]}) ≤ size (wk_inflight w)) by (apply subseteq_size; set_solver).
    lia.
  - intros ->. split; simpl; [done| |].
    + assert (size (delete k (ctl_workers c)) ≤ size (ctl_workers c)); [|lia].
      rewrite map_size_delete. destruct (ctl_workers c !! k); simpl; lia.
    + intros k' w [_ Hw]%lookup_delete_Some. by eapply Hc.
Qed.

Lemma perform_all_ind (P : CreditController → list Operation → Prop) ops c log :
  P c log →
  (∀ op c c' log, P c log → performs op c c' → P c' (op :: log)) →
  P (perform_all ops c log).1 (perform_all ops c log).2.
Proof.
  intros HP Hstep. revert c log HP. induction ops as [|op ops IH]; intros c log HP; simpl; [done|].
  destruct (perform op c) as [c' r] eqn:Hop.
  apply perform_spec in Hop as [[-> Hop]|[-> [e ->]]]; apply IH; eauto.
Qed.

Lemma ledger_ok_invariant c : ledger_ok c → invariant_holds c = true.
Proof.
  intros [_ _ Hc]. apply forallb_forall. intros w Hw.
  apply list_elem_of_In, elem_of_btree_values in Hw as [k Hw]. specialize (Hc _ _ Hw). lia.
Qed.

Lemma CreditController_new_Ok l c :
  CreditController_new l = Ok c → DispatchLimits_validate l = Ok tt ∧ c = mkController l ∅.
Proof. intros H. unfold CreditController_new in H. inv_res H. destruct v. by split. Qed.

Lemma CreditController_new_ok l c : CreditController_new l = Ok c → ledger_ok c.
Proof.
  intros [Hl ->]%CreditController_new_Ok. split; simpl; [done| |done].
  rewrite map_size_empty. lia.
Qed.

(** ** Agreement with the log *)
Definition inflight_of (c : CreditController) (k : string) : gset string :=
  default ∅ (wk_inflight <$> ctl_workers c !! k).
Definition agrees (c : CreditController) (log : list Operation) : Prop :=
  ∀ k, wk_granted <$> ctl_workers c !! k = credit_of log k ∧
       ∀ t, t ∈ inflight_of c k ↔ outstanding log k t = true.

Lemma inflight_of_set c k w k' :
  inflight_of (set_worker c k w) k' = if decide (k = k') then wk_inflight w else inflight_of c k'.
Proof. unfold inflight_of. simpl. rewrite lookup_insert. by case_decide. Qed.

Lemma performs_agrees op c c' log : agrees c log → performs op c c' → agrees c' (op :: log).
Proof.
  intros Ha. destruct op as [l|k n|k t|k t|k]; simpl performs.
  - intros (_ & -> & _). exact Ha.
  - intros (w & -> & -> & _) k'. destruct (Ha k') as [Hg Ht]. split; simpl.
    + rewrite lookup_insert.
      case_decide; [by rewrite bool_decide_true|by rewrite bool_decide_false].
    + intros t. rewrite inflight_of_set. case_decide as Hk; [subst k'|exact (Ht t)].
      rewrite <-Ht. unfold inflight_of. simpl. by destruct (ctl_workers c !! k).
  - intros (w & Hw & Hn & _ & ->) k'. destruct (Ha k') as [Hg Ht]. split; simpl.
    + rewrite <-Hg, lookup_insert. case_decide; [subst; by rewrite Hw|done].
    + intros t'. rewrite inflight_of_set. case_decide as Hk; [subst k'|].
      * simpl. assert (inflight_of c k = wk_inflight w) as He by (unfold inflight_of; by rewrite Hw).
        case_bool_decide as Hd; [|rewrite <-Ht, He]; set_solver.
      * rewrite bool_decide_false by tauto. apply Ht.
  - intros (w & Hw & Hn & ->) k'. destruct (Ha k') as [Hg Ht]. split; simpl.
    + rewrite <-Hg, lookup_insert. case_decide; [subst; by rewrite Hw|done].
    + intros t'. rewrite inflight_of_set. case_decide as Hk; [subst k'|].
      * simpl. assert (inflight_of c k = wk_inflight w) as He by (unfold inflight_of; by rewrite Hw).
        case_bool_decide as Hd; [set_solver|rewrite <-Ht, He; set_solver].
      * rewrite bool_decide_false by tauto. apply Ht.
  - intros -> k'. destruct (Ha k') as [Hg Ht]. split; simpl; [|intros t'; unfold inflight_of; simpl];
      rewrite lookup_delete; case_bool_decide; rewrite ?decide_True, ?decide_False by done; done.
Qed.

(** ** Theorems *)

(** Whatever calls are made on a new ledger, in any order and including
    failing ones, no worker ever has more tasks in flight than credit, no
    credit exceeds the configured limit and there are no more workers than
    allowed: the ledger's own [invariant_holds] is always true, also across
    changes of the limits. *)
Theorem credit_ledger_bounded limits c0 ops :
  CreditController_new limits = Ok c0 →
  let c := (perform_all ops c0 []).1 in
  invariant_holds c = true ∧
  (N.of_nat (size (ctl_workers c)) ≤ dl_max_workers (ctl_limits c))%N ∧
  DispatchLimits_validate (ctl_limits c) = Ok tt.
Proof.
  intros Hnew. cbv zeta. assert (ledger_ok (perform_all ops c0 []).1) as Hok.
  { apply (perform_all_ind (λ c _, ledger_ok c)); [by eapply CreditController_new_ok|].
    intros op c c' _. apply performs_ok. }
  split; [by apply ledger_ok_invariant|]. by destruct Hok.
Qed.

Definition two_workers : DispatchLimits := mkLimits 2 4 32.
Definition dispatches : list Operation :=
  [Grant "w1" 2; Reserve "w1" "a"; Reserve "w1" "b"; Reserve "w1" "c"; Complete "w1" "a";
   Grant "w2" 9; Grant "w2" 1; Reserve "w2" "a"; Disconnect "w1"; Complete "w1" "b"].
Lemma credit_ledger_bounded_witness :
  let c := (perform_all dispatches (mkController two_workers ∅) []).1 in
  invariant_holds c = true ∧
  (N.of_nat (size (ctl_workers c)) ≤ dl_max_workers (ctl_limits c))%N ∧
  DispatchLimits_validate (ctl_limits c) = Ok tt.
Proof. exact (credit_ledger_bounded two_workers _ dispatches eq_refl). Defined.

(** C38: The ledger is exactly what its successful calls say: the credit of a
    worker is its last grant since it last disconnected, and the tasks in
    flight are those reserved and since then neither completed nor lost by a
    disconnect. Calls that fail leave no trace. *)
Theorem credit_ledger_tracks_dispatches limits c0 ops k :
  CreditController_new limits = Ok c0 →
  let '(c, log) := perform_all ops c0 [] in
  wk_granted <$> ctl_workers c !! k = credit_of log k ∧
  ∀ t, t ∈ inflight_of c k ↔ outstanding log k t = true.
Proof.
  intros [_ ->]%CreditController_new_Ok.
  pose proof (perform_all_ind agrees ops (mkController limits ∅) []) as Hall.
  destruct (perform_all ops (mkController limits ∅) []) as [c log]. apply Hall.
  - done.
  - intros op c1 c2 log1. apply performs_agrees.
Qed.

Lemma credit_ledger_tracks_dispatches_witness :
  let '(c, log) := perform_all dispatches (mkController two_workers ∅) [] in
  length log = 7 ∧
  wk_granted <$> ctl_workers c !! "w2" = credit_of log "w2" ∧
  ∀ t, t ∈ inflight_of c "w2" ↔ outstanding log "w2" t = true.
Proof.
  pose proof (credit_ledger_tracks_dispatches two_workers _ dispatches "w2" eq_refl) as H.
  assert (length (perform_all dispatches (mkController two_workers ∅) []).2 = 7) as Hlen
    by (vm_compute; reflexivity).
  destruct (perform_all dispatches (mkController two_workers ∅) []) as [c log].
  split; [exact Hlen|exact H].
Defined.
