(* ===== verification/Authz.v ===== *)
(** * Transition authorization

    [crates/bpmp-authz-engine/src/lib.rs]: the pure evaluation of one
    transition against a verified policy bundle. The bundle types are those of
    the generated contract [bpmp.authorization.v1]. *)

From S2P Require Import Prelude.
From stdpp Require Import options.

(** ** The policy bundle *)
Record AuthorizationPolicyGrant := mkGrant {
  gr_grant_id : string;
  gr_actor_ids : list string;
  gr_roles : list string;
  gr_required_capabilities : list string;
  gr_workflow_type : string;
  gr_workflow_version : string;
  gr_active_node_id : string;
  gr_action : string;
  gr_effect : Z;
  gr_priority : N }.

Record ActorRevokeEpoch := mkActorEpoch {
  ae_actor_id : string;
  ae_revoke_epoch : N }.

Record AuthorizationPolicyBundle := mkBundle {
  bd_schema_version : N;
  bd_tenant_id : string;
  bd_bundle_sequence : N;
  bd_policy_version : string;
  bd_revoke_epoch : N;
  bd_valid_from_epoch_ms : N;
  bd_expires_at_epoch_ms : N;
  bd_grants : list AuthorizationPolicyGrant;
  bd_actor_revoke_epochs : list ActorRevokeEpoch;
  bd_signing_key_id : string;
  bd_content_hash : string;
  bd_signature : string }.

Inductive AuthorizationPolicyEffect := Effect_Unspecified | Effect_Allow | Effect_Deny.
(** [AuthorizationPolicyEffect::try_from(i32)] *)
Definition effect_try_from (n : Z) : option AuthorizationPolicyEffect :=
  match n with
  | 0%Z => Some Effect_Unspecified
  | 1%Z => Some Effect_Allow
  | 2%Z => Some Effect_Deny
  | _ => None
  end.

#[global] Instance grant_eq_dec : EqDecision AuthorizationPolicyGrant.
Proof. solve_decision. Defined.
#[global] Instance actor_epoch_eq_dec : EqDecision ActorRevokeEpoch.
Proof. solve_decision. Defined.

(** ** Requests and decisions *)
Record AuthorizationInput := mkInput {
  in_tenant_id : string;
  in_actor_id : string;
  in_roles : list string;
  in_capabilities : list string;
  in_actor_proof_revoke_epoch : N;
  in_evaluated_at_epoch_ms : N;
  in_workflow_type : string;
  in_workflow_version : string;
  in_active_node_id : string;
  in_action : string }.

Record RevocationSnapshot := mkRevocation {
  rs_tenant_epoch : N;
  rs_actor_epoch : N }.
Definition required_epoch (s : RevocationSnapshot) : N :=
  if (rs_actor_epoch s <? rs_tenant_epoch s)%N then rs_tenant_epoch s else rs_actor_epoch s.

Inductive DecisionType := Allow | Deny.
Inductive DenyReason :=
| BundleTenantMismatch
| BundleNotYetValid
| BundleExpired
| ActorProofRevoked
| InvalidPolicyEffect
| NoMatchingGrant
| ExplicitDeny.

Record AuthorizationDecision := mkDecision {
  ad_decision : DecisionType;
  ad_deny_reason : option DenyReason;
  ad_policy_version : string;
  ad_bundle_sequence : N;
  ad_required_revoke_epoch : N;
  ad_matched_grant_ids : list string }.

Definition deny (bundle : AuthorizationPolicyBundle) (reason : DenyReason)
    (required_revoke_epoch : N) (matched_grant_ids : list string) : AuthorizationDecision :=
  mkDecision Deny (Some reason) (bd_policy_version bundle) (bd_bundle_sequence bundle)
    required_revoke_epoch matched_grant_ids.

(** ** Evaluation *)
Definition required_revoke_epoch (bundle : AuthorizationPolicyBundle) (actor_id : string)
    (external : RevocationSnapshot) : N :=
  let epochs := bd_actor_revoke_epochs bundle in
  let actor_bundle_epoch :=
    match binary_search_by (λ entry, String.compare (ae_actor_id entry) actor_id) epochs with
    | Some index => default 0%N (ae_revoke_epoch <$> epochs !! index)
    | None => 0%N
    end in
  N.max (N.max (bd_revoke_epoch bundle) actor_bundle_epoch) (required_epoch external).

Definition selector_matches (selector actual : string) : bool :=
  bool_decide (selector = "*") || bool_decide (selector = actual).

Definition subject_matches (grant : AuthorizationPolicyGrant) (input : AuthorizationInput) : bool :=
  if is_empty (gr_actor_ids grant) && is_empty (gr_roles grant) then true
  else existsb (λ actor, bool_decide (actor = in_actor_id input)) (gr_actor_ids grant)
       || existsb (λ role, bool_decide (role ∈ in_roles input)) (gr_roles grant).

Definition grant_matches (input : AuthorizationInput) (grant : AuthorizationPolicyGrant) : bool :=
  subject_matches grant input
  && forallb (λ required, bool_decide (required ∈ in_capabilities input))
       (gr_required_capabilities grant)
  && selector_matches (gr_workflow_type grant) (in_workflow_type input)
  && selector_matches (gr_workflow_version grant) (in_workflow_version input)
  && selector_matches (gr_active_node_id grant) (in_active_node_id input)
  && selector_matches (gr_action grant) (in_action input).

(** The loop over the grants: the ids of the matching [allows] and [denies],
    or the first matching grant whose effect is invalid. *)
Fixpoint collect_grants (input : AuthorizationInput) (grants : list AuthorizationPolicyGrant)
    (allows denies : list string) : list string * list string + string :=
  match grants with
  | [] => inl (allows, denies)
  | grant :: grants =>
      if negb (grant_matches input grant) then collect_grants input grants allows denies
      else
        match effect_try_from (gr_effect grant) with
        | Some Effect_Allow => collect_grants input grants (allows ++ [gr_grant_id grant]) denies
        | Some Effect_Deny => collect_grants input grants allows (denies ++ [gr_grant_id grant])
        | Some Effect_Unspecified | None => inr (gr_grant_id grant)
        end
  end.

Definition evaluate (bundle : AuthorizationPolicyBundle) (input : AuthorizationInput)
    (external_revocation : RevocationSnapshot) : AuthorizationDecision :=
  let required := required_revoke_epoch bundle (in_actor_id input) external_revocation in
  if bool_decide (bd_tenant_id bundle ≠ in_tenant_id input)
  then deny bundle BundleTenantMismatch required []
  else if (in_evaluated_at_epoch_ms input <? bd_valid_from_epoch_ms bundle)%N
  then deny bundle BundleNotYetValid required []
  else if (bd_expires_at_epoch_ms bundle <=? in_evaluated_at_epoch_ms input)%N
  then deny bundle BundleExpired required []
  else if (in_actor_proof_revoke_epoch input <? required)%N
  then deny bundle ActorProofRevoked required []
  else
    match collect_grants input (bd_grants bundle) [] [] with
    | inr grant_id => deny bundle InvalidPolicyEffect required [grant_id]
    | inl (allows, denies) =>
        if negb (is_empty denies) then deny bundle ExplicitDeny required denies
        else if is_empty allows then deny bundle NoMatchingGrant required []
        else mkDecision Allow None (bd_policy_version bundle) (bd_bundle_sequence bundle)
               required allows
    end.

(** ** Lemmas *)

(** The grants that apply to a request. *)
Definition applicable (bundle : AuthorizationPolicyBundle) (input : AuthorizationInput)
    : list AuthorizationPolicyGrant := List.filter (grant_matches input) (bd_grants bundle).

Lemma collect_grants_spec input grants allows denies :
  collect_grants input grants allows denies =
    let ms := List.filter (grant_matches input) grants in
    match List.find (λ g, match effect_try_from (gr_effect g) with
                          | Some Effect_Allow | Some Effect_Deny => false | _ => true end) ms with
    | Some g => inr (gr_grant_id g)
    | None =>
        inl (allows ++ (gr_grant_id <$> List.filter (λ g, bool_decide (gr_effect g = 1%Z)) ms),
             denies ++ (gr_grant_id <$> List.filter (λ g, bool_decide (gr_effect g = 2%Z)) ms))
    end.
Proof.
  revert allows denies. induction grants as [|g grants IH]; intros allows denies; simpl.
  { by rewrite !app_nil_r. }
  destruct (grant_matches input g); simpl; [|apply IH].
  unfold effect_try_from. destruct (gr_effect g) as [|p|p]; [done| |done].
  destruct p as [p|[p|p|]|]; simpl; try done; rewrite IH; cbv zeta;
    destruct (List.find _ _); try done; by rewrite <-(assoc_L (++)).
Qed.

Lemma effect_invalid g :
  match effect_try_from (gr_effect g) with
  | Some Effect_Allow | Some Effect_Deny => false | _ => true
  end = negb (bool_decide (gr_effect g = 1%Z)) && negb (bool_decide (gr_effect g = 2%Z)).
Proof. unfold effect_try_from. by destruct (gr_effect g) as [|[?|[?|?|]|]|]. Qed.

Lemma find_none_iff {A} (p : A → bool) l : List.find p l = None ↔ ∀ x, x ∈ l → p x = false.
Proof.
  split.
  - intros H x Hx. by apply (List.find_none p l H), list_elem_of_In.
  - intros Hall. destruct (List.find p l) as [x|] eqn:Hf; [|done].
    apply find_some in Hf as [Hx Hp]. rewrite Hall in Hp; [done|by apply list_elem_of_In].
Qed.

(** The loop ends with a bare list of allows exactly when every applicable
    grant allows. *)
Lemma collect_grants_allows input grants allows :
  collect_grants input grants [] [] = inl (allows, []) ↔
  let ms := List.filter (grant_matches input) grants in
  (∀ g, g ∈ ms → gr_effect g = 1%Z) ∧ allows = gr_grant_id <$> ms.
Proof.
  rewrite collect_grants_spec. cbv zeta. set (ms := List.filter _ grants). split.
  - destruct (List.find _ ms) eqn:Hf; [done|]. intros [= <- Hd].
    assert (∀ g, g ∈ ms → gr_effect g = 1%Z) as Hall.
    { intros g Hg. rewrite find_none_iff in Hf. specialize (Hf g Hg). rewrite effect_invalid in Hf.
      assert (gr_effect g ≠ 2%Z).
      { intros H2. apply fmap_nil_inv in Hd. assert (In g []) as []. rewrite <-Hd.
        apply filter_In. split; [by apply list_elem_of_In|by apply bool_decide_eq_true]. }
      rewrite (bool_decide_false (gr_effect g = 2%Z)) in Hf by done.
      case_bool_decide; done. }
    split; [done|]. rewrite filter_all; [done|]. intros g Hg. by apply bool_decide_eq_true, Hall.
  - intros [Hall ->]. rewrite (proj2 (find_none_iff _ ms)).
    + rewrite filter_all, filter_none; [done| |].
      * intros g Hg. apply bool_decide_eq_false. rewrite (Hall g Hg). done.
      * intros g Hg. by apply bool_decide_eq_true, Hall.
    + intros g Hg. rewrite effect_invalid, bool_decide_true by auto. done.
Qed.

(** What the theorem says of a denial: it is right when [P] fails. *)
Lemma deny_exact bundle reason required ids (ms : list AuthorizationPolicyGrant) (P : Prop) :
  ¬ P →
  let d := deny bundle reason required ids in
  (ad_decision d = Allow ↔ P) ∧
  (ad_decision d = Allow → ad_matched_grant_ids d = gr_grant_id <$> ms) ∧
  (ad_decision d = Deny ↔ is_Some (ad_deny_reason d)) ∧ ad_required_revoke_epoch d = required.
Proof. intros HP. simpl. split_and!; [by split|done|split; eauto|done]. Qed.

(** ** Theorems *)

(** C39: The evaluation is exact and fails closed. A transition is allowed
    exactly when the bundle is of the tenant and within its validity, the
    actor's proof is not older than the required revocation epoch, some grant
    applies and every grant that applies allows (one that denies, or has an
    invalid effect, outweighs any number of others). An allowed decision lists
    exactly the grants that apply; a denied one always says why. *)
Theorem authorization_decision_exact bundle input external :
  let required := required_revoke_epoch bundle (in_actor_id input) external in
  let decision := evaluate bundle input external in
  (ad_decision decision = Allow ↔
     bd_tenant_id bundle = in_tenant_id input ∧
     (bd_valid_from_epoch_ms bundle ≤ in_evaluated_at_epoch_ms input
        < bd_expires_at_epoch_ms bundle)%N ∧
     (required ≤ in_actor_proof_revoke_epoch input)%N ∧
     applicable bundle input ≠ [] ∧
     ∀ g, g ∈ applicable bundle input → gr_effect g = 1%Z) ∧
  (ad_decision decision = Allow →
     ad_matched_grant_ids decision = gr_grant_id <$> applicable bundle input) ∧
  (ad_decision decision = Deny ↔ is_Some (ad_deny_reason decision)) ∧
  ad_required_revoke_epoch decision = required.
Proof.
  cbv zeta. unfold evaluate, applicable.
  set (required := required_revoke_epoch _ _ _). set (ms := List.filter _ _).
  case_bool_decide as Ht; [by apply deny_exact; intros [? _]|].
  destruct (N.ltb_spec (in_evaluated_at_epoch_ms input) (bd_valid_from_epoch_ms bundle));
    [apply deny_exact; lia|].
  destruct (N.leb_spec (bd_expires_at_epoch_ms bundle) (in_evaluated_at_epoch_ms input));
    [apply deny_exact; lia|].
  destruct (N.ltb_spec (in_actor_proof_revoke_epoch input) required); [apply deny_exact; lia|].
  pose proof (collect_grants_allows input (bd_grants bundle)) as Hc. fold ms in Hc.
  destruct (collect_grants input (bd_grants bundle) [] []) as [[allows denies]|id].
  2: { apply deny_exact. intros (_ & _ & _ & _ & Hall).
       discriminate (proj2 (Hc _) (conj Hall eq_refl)). }
  destruct denies as [|x denies]; cbn [is_empty negb].
  2: { apply deny_exact. intros (_ & _ & _ & _ & Hall).
       discriminate (proj2 (Hc _) (conj Hall eq_refl)). }
  destruct (proj1 (Hc _) eq_refl) as [Hall ->].
  destruct ms as [|g ms'] eqn:Hms; cbn [is_empty negb fmap list_fmap];
    [by apply (deny_exact _ _ _ _ []); intros (_ & _ & _ & [] & _)|].
  split_and!; try done. split; [by intros [=]|by intros [? [=]]].
Qed.
