(* ===== verification/AuthzBundle.v ===== *)
(** * Signed authorization artifacts

    [crates/bpmp-authz-contracts/src/authorization_artifact.rs]: the codecs of
    signed policy bundles and revocation updates. Byte vectors are byte
    strings. The protobuf encoding, SHA-256 and Ed25519 are code of other
    packages: they are parameters here. *)

From S2P Require Import Prelude Authz.
From stdpp Require Import options.

Definition AUTHORIZATION_BUNDLE_SCHEMA_VERSION : N := 1.

Record AuthorizationRevokeEpochUpdate := mkRevokeUpdate {
  ru_schema_version : N;
  ru_tenant_id : string;
  ru_actor_id : string;
  ru_revoke_epoch : N;
  ru_bundle_sequence : N;
  ru_issued_at_epoch_ms : N;
  ru_signing_key_id : string;
  ru_content_hash : string;
  ru_signature : string }.

Inductive AuthorizationArtifactError :=
| InvalidLimits
| UnsupportedSchema (expected actual : N)
| Decode (detail : string)
| ArtifactTooLarge (actual maximum : N)
| NonCanonicalArtifact
| HashMismatch
| InvalidSignature
| InvalidKeyId
| DuplicateKeyId (key_id : string)
| UnknownKey (key_id : string)
| InvalidPublicKey
| InvalidField (field : string)
| InvalidValidityWindow
| TooManyGrants (actual maximum : N)
| DuplicateGrantId (grant_id : string)
| DuplicateActorEpoch (actor_id : string)
| ActorEpochBelowTenantEpoch
| InvalidPolicyEffectValue (effect : Z).

Abbreviation artifact := (res AuthorizationArtifactError) (only parsing).

Record AuthorizationArtifactLimits := mkArtifactLimits {
  al_max_artifact_bytes : N;
  al_max_grants : N }.
Definition AuthorizationArtifactLimits_new (max_artifact_bytes max_grants : N)
    : artifact AuthorizationArtifactLimits :=
  if ((max_artifact_bytes =? 0) || (max_grants =? 0))%N then Err InvalidLimits
  else Ok (mkArtifactLimits max_artifact_bytes max_grants).

(** ** Validation *)
Definition validate_schema (schema_version : N) : artifact unit :=
  if (schema_version =? AUTHORIZATION_BUNDLE_SCHEMA_VERSION)%N then Ok tt
  else Err (UnsupportedSchema AUTHORIZATION_BUNDLE_SCHEMA_VERSION schema_version).

Definition validate_key_id (key_id : string) : artifact string :=
  if bool_decide (key_id = "") then Err InvalidKeyId else Ok key_id.

Definition validate_nonempty (field value : string) : artifact unit :=
  if bool_decide (value = "") then Err (InvalidField field) else Ok tt.

Definition validate_selector (field value : string) : artifact unit := validate_nonempty field value.

Definition validate_nonempty_values (field : string) (values : list string) : artifact unit :=
  if existsb (λ v, bool_decide (v = "")) values then Err (InvalidField field) else Ok tt.

Definition check_size (bytes : string) (limits : AuthorizationArtifactLimits) : artifact unit :=
  let actual := N.of_nat (String.length bytes) in
  if (al_max_artifact_bytes limits <? actual)%N
  then Err (ArtifactTooLarge actual (al_max_artifact_bytes limits)) else Ok tt.

(** One turn of the loop over the grants. *)
Definition validate_grant (grant : AuthorizationPolicyGrant) : artifact unit :=
  validate_nonempty "grant_id" (gr_grant_id grant);;
  validate_nonempty_values "actor_ids" (gr_actor_ids grant);;
  validate_nonempty_values "roles" (gr_roles grant);;
  validate_nonempty_values "required_capabilities" (gr_required_capabilities grant);;
  validate_selector "workflow_type" (gr_workflow_type grant);;
  validate_selector "workflow_version" (gr_workflow_version grant);;
  validate_selector "active_node_id" (gr_active_node_id grant);;
  validate_selector "action" (gr_action grant);;
  match effect_try_from (gr_effect grant) with
  | None | Some Effect_Unspecified => Err (InvalidPolicyEffectValue (gr_effect grant))
  | Some _ => Ok tt
  end.

Definition validate_bundle (bundle : AuthorizationPolicyBundle)
    (limits : AuthorizationArtifactLimits) : artifact unit :=
  validate_schema (bd_schema_version bundle);;
  validate_nonempty "tenant_id" (bd_tenant_id bundle);;
  validate_nonempty "policy_version" (bd_policy_version bundle);;
  validate_key_id (bd_signing_key_id bundle);;
  bail_if (bd_bundle_sequence bundle =? 0)%N (InvalidField "bundle_sequence");;
  bail_if (bd_expires_at_epoch_ms bundle <=? bd_valid_from_epoch_ms bundle)%N
    InvalidValidityWindow;;
  let count := N.of_nat (length (bd_grants bundle)) in
  bail_if (al_max_grants limits <? count)%N (TooManyGrants count (al_max_grants limits));;
  for_each (λ _ '(g1, g2),
    bail_if (bool_decide (gr_grant_id g1 = gr_grant_id g2)) (DuplicateGrantId (gr_grant_id g1)))
    (windows2 (bd_grants bundle)) tt;;
  for_each (λ _ grant, validate_grant grant) (bd_grants bundle) tt;;
  for_each (λ _ '(a1, a2),
    bail_if (bool_decide (ae_actor_id a1 = ae_actor_id a2)) (DuplicateActorEpoch (ae_actor_id a1)))
    (windows2 (bd_actor_revoke_epochs bundle)) tt;;
  for_each (λ _ actor,
    validate_nonempty "actor_id" (ae_actor_id actor);;
    bail_if (ae_revoke_epoch actor <? bd_revoke_epoch bundle)%N ActorEpochBelowTenantEpoch)
    (bd_actor_revoke_epochs bundle) tt.

Definition validate_revoke_update (update : AuthorizationRevokeEpochUpdate) : artifact unit :=
  validate_schema (ru_schema_version update);;
  validate_nonempty "tenant_id" (ru_tenant_id update);;
  validate_key_id (ru_signing_key_id update);;
  bail_if (ru_bundle_sequence update =? 0)%N (InvalidField "bundle_sequence");;
  bail_if (ru_revoke_epoch update =? 0)%N (InvalidField "revoke_epoch");;
  bail_if (ru_issued_at_epoch_ms update =? 0)%N (InvalidField "issued_at_epoch_ms").

(** ** The canonical form

    [sort_unstable_by] leaves the order of equal keys open; the model sorts
    stably. Bundles with equal keys are refused by [validate_bundle]. *)
Definition sort_dedup (l : list string) : list string := dedup (merge_sort String.le l).

Definition canonicalize_grant (g : AuthorizationPolicyGrant) : AuthorizationPolicyGrant :=
  mkGrant (gr_grant_id g) (sort_dedup (gr_actor_ids g)) (sort_dedup (gr_roles g))
    (sort_dedup (gr_required_capabilities g)) (gr_workflow_type g) (gr_workflow_version g)
    (gr_active_node_id g) (gr_action g) (gr_effect g) (gr_priority g).

Definition with_contents (b : AuthorizationPolicyBundle) (grants : list AuthorizationPolicyGrant)
    (epochs : list ActorRevokeEpoch) : AuthorizationPolicyBundle :=
  mkBundle (bd_schema_version b) (bd_tenant_id b) (bd_bundle_sequence b) (bd_policy_version b)
    (bd_revoke_epoch b) (bd_valid_from_epoch_ms b) (bd_expires_at_epoch_ms b) grants epochs
    (bd_signing_key_id b) (bd_content_hash b) (bd_signature b).

Definition canonicalize_bundle (b : AuthorizationPolicyBundle) : AuthorizationPolicyBundle :=
  with_contents b
    (merge_sort (by_key gr_grant_id String.le) (canonicalize_grant <$> bd_grants b))
    (merge_sort (by_key ae_actor_id String.le) (bd_actor_revoke_epochs b)).

(** Assignments to the envelope fields. *)
Definition with_key (b : AuthorizationPolicyBundle) (key_id : string) : AuthorizationPolicyBundle :=
  mkBundle (bd_schema_version b) (bd_tenant_id b) (bd_bundle_sequence b) (bd_policy_version b)
    (bd_revoke_epoch b) (bd_valid_from_epoch_ms b) (bd_expires_at_epoch_ms b) (bd_grants b)
    (bd_actor_revoke_epochs b) key_id (bd_content_hash b) (bd_signature b).
Definition with_seal (b : AuthorizationPolicyBundle) (content_hash signature : string)
    : AuthorizationPolicyBundle :=
  mkBundle (bd_schema_version b) (bd_tenant_id b) (bd_bundle_sequence b) (bd_policy_version b)
    (bd_revoke_epoch b) (bd_valid_from_epoch_ms b) (bd_expires_at_epoch_ms b) (bd_grants b)
    (bd_actor_revoke_epochs b) (bd_signing_key_id b) content_hash signature.
Definition update_with_key (u : AuthorizationRevokeEpochUpdate) (key_id : string)
    : AuthorizationRevokeEpochUpdate :=
  mkRevokeUpdate (ru_schema_version u) (ru_tenant_id u) (ru_actor_id u) (ru_revoke_epoch u)
    (ru_bundle_sequence u) (ru_issued_at_epoch_ms u) key_id (ru_content_hash u) (ru_signature u).
Definition update_with_seal (u : AuthorizationRevokeEpochUpdate) (content_hash signature : string)
    : AuthorizationRevokeEpochUpdate :=
  mkRevokeUpdate (ru_schema_version u) (ru_tenant_id u) (ru_actor_id u) (ru_revoke_epoch u)
    (ru_bundle_sequence u) (ru_issued_at_epoch_ms u) (ru_signing_key_id u) content_hash signature.

(** ** The codecs *)
Section codec.
(** SHA-256; Ed25519 public keys, their parsing and their check of a
    signature; [encode_to_vec] and [decode] of the two protobuf messages. *)
Context (sha256 : string → string).
Context {Key : Type} (key_from_bytes : string → option Key).
Context (verify_digest : Key → string → string → bool).
Context (encode_bundle : AuthorizationPolicyBundle → string).
Context (decode_bundle : string → AuthorizationPolicyBundle + string).
Context (encode_update : AuthorizationRevokeEpochUpdate → string).
Context (decode_update : string → AuthorizationRevokeEpochUpdate + string).

Abbreviation AuthorizationKeyring := (gmap string Key) (only parsing).

Definition keyring_insert (key_id public_key : string)
    : method AuthorizationKeyring AuthorizationArtifactError unit :=
  lift (bail_if (bool_decide (key_id = "")) InvalidKeyId);;
  keys ← self;
  lift (bail_if (is_some (keys !! key_id)) (DuplicateKeyId key_id));;
  verifier ← lift (ok_or (key_from_bytes public_key) InvalidPublicKey);
  set_self (<[key_id:=verifier]> keys).

Definition keyring_verify (keys : AuthorizationKeyring) (key_id digest signature : string)
    : artifact unit :=
  verifier ← ok_or (keys !! key_id) (UnknownKey key_id);
  if verify_digest verifier digest signature then Ok tt else Err InvalidSignature.

Definition bundle_digest (bundle : AuthorizationPolicyBundle) : string :=
  sha256 (encode_bundle (with_seal bundle "" "")).
Definition revoke_digest (update : AuthorizationRevokeEpochUpdate) : string :=
  sha256 (encode_update (update_with_seal update "" "")).

Definition seal_bundle (bundle : AuthorizationPolicyBundle) (key_id : string)
    (sign : string → string) (limits : AuthorizationArtifactLimits) : artifact string :=
  key_id ← validate_key_id key_id;
  let bundle := canonicalize_bundle (with_key bundle key_id) in
  validate_bundle bundle limits;;
  let digest := bundle_digest bundle in
  let encoded := encode_bundle (with_seal bundle digest (sign digest)) in
  check_size encoded limits;;
  Ok encoded.

Definition open_bundle (bytes : string) (keys : AuthorizationKeyring)
    (limits : AuthorizationArtifactLimits) : artifact AuthorizationPolicyBundle :=
  check_size bytes limits;;
  bundle ← match decode_bundle bytes with inl b => Ok b | inr e => Err (Decode e) end;
  bail_if (bool_decide (encode_bundle bundle ≠ bytes)) NonCanonicalArtifact;;
  validate_bundle bundle limits;;
  let canonical := canonicalize_bundle bundle in
  bail_if (bool_decide (bd_grants canonical ≠ bd_grants bundle)
           || bool_decide (bd_actor_revoke_epochs canonical ≠ bd_actor_revoke_epochs bundle))
    NonCanonicalArtifact;;
  let digest := bundle_digest bundle in
  bail_if (bool_decide (bd_content_hash bundle ≠ digest)) HashMismatch;;
  keyring_verify keys (bd_signing_key_id bundle) digest (bd_signature bundle);;
  Ok bundle.

Definition seal_update (update : AuthorizationRevokeEpochUpdate) (key_id : string)
    (sign : string → string) (limits : AuthorizationArtifactLimits) : artifact string :=
  key_id ← validate_key_id key_id;
  let update := update_with_key update key_id in
  validate_revoke_update update;;
  let digest := revoke_digest update in
  let encoded := encode_update (update_with_seal update digest (sign digest)) in
  check_size encoded limits;;
  Ok encoded.

Definition open_update (bytes : string) (keys : AuthorizationKeyring)
    (limits : AuthorizationArtifactLimits) : artifact AuthorizationRevokeEpochUpdate :=
  check_size bytes limits;;
  update ← match decode_update bytes with inl u => Ok u | inr e => Err (Decode e) end;
  bail_if (bool_decide (encode_update update ≠ bytes)) NonCanonicalArtifact;;
  validate_revoke_update update;;
  let digest := revoke_digest update in
  bail_if (bool_decide (ru_content_hash update ≠ digest)) HashMismatch;;
  keyring_verify keys (ru_signing_key_id update) digest (ru_signature update);;
  Ok update.

(** ** Lemmas on validation and the canonical form *)
Lemma windows_distinct {A K} `{EqDecision K} (k : A → K) {E} (e : A → E) l :
  for_each (λ _ '(a1, a2), bail_if (bool_decide (k a1 = k a2)) (e a1)) (windows2 l) tt = Ok tt ↔
  ∀ x y, (x, y) ∈ windows2 l → k x ≠ k y.
Proof.
  rewrite for_each_unit. split.
  - intros H x y Hin. specialize (H _ Hin). simpl in H. by apply bail_if_Ok, bool_decide_eq_false in H.
  - intros H [x y] Hin. apply bail_if_Ok, bool_decide_eq_false. by apply H.
Qed.

Lemma validate_bundle_Ok bundle limits u :
  validate_bundle bundle limits = Ok u →
  (∀ x y, (x, y) ∈ windows2 (bd_grants bundle) → gr_grant_id x ≠ gr_grant_id y) ∧
  (∀ x y, (x, y) ∈ windows2 (bd_actor_revoke_epochs bundle) → ae_actor_id x ≠ ae_actor_id y) ∧
  (∀ g, g ∈ bd_grants bundle → gr_effect g = 1%Z ∨ gr_effect g = 2%Z).
Proof.
  unfold validate_bundle. intros H.
  repeat (apply bind_Ok in H as (? & ? & H)).
  match goal with H1 : for_each _ (windows2 (bd_grants bundle)) tt = Ok _,
    H2 : for_each _ (bd_grants bundle) tt = Ok _,
    H3 : for_each _ (windows2 (bd_actor_revoke_epochs bundle)) tt = Ok _ |- _ =>
      rename H1 into Hg; rename H2 into Hv; rename H3 into Ha end.
  destruct_units. split_and!.
  - by apply (windows_distinct gr_grant_id (λ g, DuplicateGrantId (gr_grant_id g))).
  - by apply (windows_distinct ae_actor_id (λ a, DuplicateActorEpoch (ae_actor_id a))).
  - intros g Hin. rewrite for_each_unit in Hv. specialize (Hv g Hin).
    unfold validate_grant in Hv. repeat (apply bind_Ok in Hv as (? & ? & Hv)).
    unfold effect_try_from in Hv. destruct (gr_effect g) as [|[?|[?|?|]|]|]; try done; auto.
Qed.

Lemma merge_sort_sorted l : StronglySorted String.le l → merge_sort String.le l = l.
Proof.
  intros Hs. apply (StronglySorted_unique String.le); [apply StronglySorted_merge_sort; apply _|done|].
  apply merge_sort_Permutation.
Qed.

Lemma sort_dedup_idem l : sort_dedup (sort_dedup l) = sort_dedup l.
Proof.
  unfold sort_dedup. rewrite merge_sort_sorted; [apply dedup_idem|].
  apply dedup_sorted, StronglySorted_merge_sort; apply _.
Qed.

Lemma canonicalize_grant_idem g : canonicalize_grant (canonicalize_grant g) = canonicalize_grant g.
Proof. unfold canonicalize_grant. simpl. by rewrite !sort_dedup_idem. Qed.

Lemma merge_sort_by_key {A} (k : A → string) l :
  StronglySorted (by_key k String.le) l → NoDup (k <$> l) →
  merge_sort (by_key k String.le) l = l.
Proof.
  intros Hs Hnd. symmetry. apply (sorted_key_unique k String.le); [done| |done|].
  - apply StronglySorted_merge_sort; apply _.
  - symmetry. apply merge_sort_Permutation.
Qed.

(** A validated canonical bundle is a fixed point of [canonicalize_bundle]. *)
Lemma canonicalize_bundle_fixed b limits u :
  validate_bundle (canonicalize_bundle b) limits = Ok u →
  bd_grants (canonicalize_bundle (canonicalize_bundle b)) = bd_grants (canonicalize_bundle b) ∧
  bd_actor_revoke_epochs (canonicalize_bundle (canonicalize_bundle b)) =
    bd_actor_revoke_epochs (canonicalize_bundle b).
Proof.
  intros (Hg & Ha & _)%validate_bundle_Ok. split.
  - unfold canonicalize_bundle at 1. cbn [with_contents bd_grants].
    assert (canonicalize_grant <$> bd_grants (canonicalize_bundle b) =
      bd_grants (canonicalize_bundle b)) as ->.
    { rewrite <-(list_fmap_id (bd_grants (canonicalize_bundle b))) at 2.
      apply list_fmap_ext. intros i g Hi%list_elem_of_lookup_2. simpl in Hi.
      rewrite merge_sort_Permutation in Hi. apply list_elem_of_fmap in Hi as (g0 & -> & _).
      apply canonicalize_grant_idem. }
    apply merge_sort_by_key; [|apply (sorted_windows_NoDup gr_grant_id String.le); [|done]];
      apply StronglySorted_merge_sort; apply _.
  - apply merge_sort_by_key;
      [|apply (sorted_windows_NoDup ae_actor_id String.le); [|done]];
      apply StronglySorted_merge_sort; apply _.
Qed.

(** The bundle inside the bytes [seal_bundle] returns. *)
Definition sealed_form (bundle : AuthorizationPolicyBundle) (key_id : string)
    (sign : string → string) : AuthorizationPolicyBundle :=
  let canonical := canonicalize_bundle (with_key bundle key_id) in
  with_seal canonical (bundle_digest canonical) (sign (bundle_digest canonical)).

Lemma seal_then_open bundle key_id sign limits keys verifier bytes :
  let sealed := sealed_form bundle key_id sign in
  decode_bundle (encode_bundle sealed) = inl sealed →
  keys !! key_id = Some verifier →
  (∀ digest, verify_digest verifier digest (sign digest) = true) →
  seal_bundle bundle key_id sign limits = Ok bytes →
  open_bundle bytes keys limits = Ok sealed.
Proof.
  intros sealed Hdec Hkey Hver Hseal. unfold seal_bundle in Hseal.
  apply bind_Ok in Hseal as (key & Hk & Hseal). unfold validate_key_id in Hk.
  case_bool_decide; [done|]. injection Hk as <-. cbv zeta in Hseal.
  apply bind_Ok in Hseal as (u & Hval & Hseal). apply bind_Ok in Hseal as ([] & Hsize & [= <-]).
  unfold open_bundle. fold sealed in Hsize |- *.
  change (with_seal _ _ _) with sealed in Hsize |- *. rewrite Hsize. simpl.
  rewrite Hdec. simpl. rewrite bool_decide_false by (intros []; done). simpl.
  change (validate_bundle sealed limits) with
    (validate_bundle (canonicalize_bundle (with_key bundle key_id)) limits).
  rewrite Hval. simpl. destruct (canonicalize_bundle_fixed _ _ _ Hval) as [Hg Ha].
  rewrite !bool_decide_false by (intros Hne; apply Hne; first [exact Hg|exact Ha]). simpl.
  rewrite bool_decide_false by (intros Hne; by apply Hne). simpl.
  unfold keyring_verify. change (bd_signing_key_id sealed) with key_id. rewrite Hkey. simpl.
  by rewrite Hver.
Qed.

(** What [open_bundle] has checked. *)
Lemma open_bundle_Ok bytes keys limits b :
  open_bundle bytes keys limits = Ok b →
  encode_bundle b = bytes ∧ (∃ u, validate_bundle b limits = Ok u) ∧
  bd_actor_revoke_epochs (canonicalize_bundle b) = bd_actor_revoke_epochs b ∧
  bd_content_hash b = bundle_digest b ∧
  ∃ verifier, keys !! bd_signing_key_id b = Some verifier ∧
    verify_digest verifier (bundle_digest b) (bd_signature b) = true.
Proof.
  unfold open_bundle. intros H. apply bind_Ok in H as (_ & _ & H).
  apply bind_Ok in H as (b' & _ & H). apply bind_Ok in H as (_ & He%bail_if_Ok & H).
  apply bind_Ok in H as (u & Hv & H). cbv zeta in H.
  apply bind_Ok in H as (_ & Hc%bail_if_Ok & H). apply bind_Ok in H as (_ & Hh%bail_if_Ok & H).
  apply bind_Ok in H as ([] & Hk & [= <-]). apply orb_false_iff in Hc as [_ Hc].
  apply bool_decide_eq_false, dec_stable in He, Hc, Hh. unfold keyring_verify in Hk.
  apply bind_Ok in Hk as (verifier & Hverifier%ok_or_Ok & Hk).
  split_and!; eauto. exists verifier. split; [done|]. by destruct (verify_digest _ _ _).
Qed.

(** The update inside the bytes [seal_update] returns, and its round trip. *)
Definition sealed_update (update : AuthorizationRevokeEpochUpdate) (key_id : string)
    (sign : string → string) : AuthorizationRevokeEpochUpdate :=
  let keyed := update_with_key update key_id in
  update_with_seal keyed (revoke_digest keyed) (sign (revoke_digest keyed)).

Lemma seal_then_open_update update key_id sign limits keys verifier bytes :
  let sealed := sealed_update update key_id sign in
  decode_update (encode_update sealed) = inl sealed →
  keys !! key_id = Some verifier →
  (∀ digest, verify_digest verifier digest (sign digest) = true) →
  seal_update update key_id sign limits = Ok bytes →
  open_update bytes keys limits = Ok sealed.
Proof.
  intros sealed Hdec Hkey Hver Hseal. unfold seal_update in Hseal.
  apply bind_Ok in Hseal as (key & Hk & Hseal). unfold validate_key_id in Hk.
  case_bool_decide; [done|]. injection Hk as <-. cbv zeta in Hseal.
  apply bind_Ok in Hseal as (u & Hval & Hseal). apply bind_Ok in Hseal as ([] & Hsize & [= <-]).
  unfold open_update. change (update_with_seal _ _ _) with sealed in Hsize |- *.
  rewrite Hsize. simpl. rewrite Hdec. simpl. rewrite bool_decide_false by (intros []; done). simpl.
  change (validate_revoke_update sealed) with
    (validate_revoke_update (update_with_key update key_id)). rewrite Hval. simpl.
  rewrite bool_decide_false by (intros Hne; by apply Hne). simpl.
  unfold keyring_verify. change (ru_signing_key_id sealed) with key_id. rewrite Hkey. simpl.
  by rewrite Hver.
Qed.
End codec.

(** ** Revocation epochs of an opened bundle *)
Lemma string_compare_le x y : String.le x y ↔ String.compare x y ≠ Gt.
Proof. unfold String.le, String.leb. destruct (String.compare x y); simpl; split; done. Qed.

Lemma string_compare_Gt x y : String.compare x y = Gt ↔ String.compare y x = Lt.
Proof. rewrite (String.compare_antisym x y). by destruct (String.compare y x). Qed.

Lemma string_le_lt x y z : String.le x y → String.compare y z = Lt → String.compare x z = Lt.
Proof.
  intros Hxy Hyz. destruct (String.compare x z) eqn:Hxz; [|done|].
  - apply string_compare_Eq in Hxz as ->. apply string_compare_Gt in Hyz.
    by apply string_compare_le in Hxy.
  - assert (y = z) as ->; [|by rewrite string_compare_refl in Hyz].
    apply (anti_symm String.le); [apply string_compare_le; by rewrite Hyz|].
    trans x; [|done]. apply string_compare_le. apply string_compare_Gt in Hxz. by rewrite Hxz.
Qed.

Lemma string_gt_le x y z : String.le x y → String.compare x z = Gt → String.compare y z = Gt.
Proof.
  intros Hxy Hxz. destruct (String.compare y z) eqn:Hyz; [| |done].
  - apply string_compare_Eq in Hyz as ->. by apply string_compare_le in Hxy.
  - by rewrite (string_le_lt _ _ _ Hxy Hyz) in Hxz.
Qed.

Section revocation.
Context (epochs : list ActorRevokeEpoch).
Hypothesis Hsorted : StronglySorted (by_key ae_actor_id String.le) epochs.

Lemma epochs_ordered i j a b :
  i ≤ j → epochs !! i = Some a → epochs !! j = Some b →
  String.le (ae_actor_id a) (ae_actor_id b).
Proof using Hsorted.
  intros Hij Hi Hj. destruct (decide (i = j)) as [->|Hne].
  { simplify_eq. apply reflexivity. }
  revert i j Hij Hne Hi Hj. induction Hsorted as [|x l Hs IH Hx]; intros i j Hij Hne Hi Hj; [done|].
  destruct i as [|i], j as [|j]; try lia; simpl in *; simplify_eq.
  - rewrite Forall_forall in Hx. apply Hx. by eapply list_elem_of_lookup_2.
  - apply (IH Hs i j); [lia|lia|done|done].
Qed.

(** The search finds the entry of an actor iff there is one. *)
Lemma search_epochs actor :
  match binary_search_by (λ e, String.compare (ae_actor_id e) actor) epochs with
  | Some i => ∃ e, epochs !! i = Some e ∧ ae_actor_id e = actor
  | None => ∀ e, e ∈ epochs → ae_actor_id e ≠ actor
  end.
Proof using Hsorted.
  pose proof (binary_search_by_spec (λ e, String.compare (ae_actor_id e) actor) epochs) as Hs.
  destruct (binary_search_by _ epochs) as [i|].
  - destruct Hs as (e & He & Hc%string_compare_Eq); eauto.
    + intros i' j' a b Hle Hi Hj. eapply string_le_lt, epochs_ordered; eauto.
    + intros i' j' a b Hle Hi Hj. eapply string_gt_le, epochs_ordered; eauto.
  - intros e He Heq. eapply Hs; [..|exact He|by apply string_compare_Eq].
    + intros i' j' a b Hle Hi Hj. eapply string_le_lt, epochs_ordered; eauto.
    + intros i' j' a b Hle Hi Hj. eapply string_gt_le, epochs_ordered; eauto.
Qed.

Lemma required_epoch_exact b actor external :
  bd_actor_revoke_epochs b = epochs →
  ∃ floor,
    ((∃ e, e ∈ epochs ∧ ae_actor_id e = actor ∧ floor = ae_revoke_epoch e) ∨
     ((∀ e, e ∈ epochs → ae_actor_id e ≠ actor) ∧ floor = 0%N)) ∧
    required_revoke_epoch b actor external =
      N.max (N.max (bd_revoke_epoch b) floor)
        (N.max (rs_tenant_epoch external) (rs_actor_epoch external)).
Proof using Hsorted.
  intros Hb. unfold required_revoke_epoch. rewrite Hb.
  assert (required_epoch external = N.max (rs_tenant_epoch external) (rs_actor_epoch external)) as ->.
  { unfold required_epoch. case_match; lia. }
  pose proof (search_epochs actor) as Hs. destruct (binary_search_by _ epochs) as [i|].
  - destruct Hs as (e & He & Ha). rewrite He. simpl. exists (ae_revoke_epoch e). split; [|done].
    left. exists e. split; [by eapply list_elem_of_lookup_2|done].
  - exists 0%N. split; [by right|done].
Qed.
End revocation.

Lemma opened_epochs_sorted b :
  bd_actor_revoke_epochs (canonicalize_bundle b) = bd_actor_revoke_epochs b →
  StronglySorted (by_key ae_actor_id String.le) (bd_actor_revoke_epochs b).
Proof. intros <-. apply StronglySorted_merge_sort; apply _. Qed.

(** Valid effects rule out the denial for an invalid one. *)
Lemma evaluate_valid_effects b input external :
  (∀ g, g ∈ bd_grants b → gr_effect g = 1%Z ∨ gr_effect g = 2%Z) →
  ad_deny_reason (evaluate b input external) ≠ Some InvalidPolicyEffect.
Proof.
  intros Heff. unfold evaluate. repeat case_match; try done.
  match goal with Hc : collect_grants _ _ _ _ = inr _ |- _ =>
    rewrite collect_grants_spec in Hc; cbv zeta in Hc end.
  destruct (List.find _ _) as [g|] eqn:Hf; [|done].
  apply find_some in Hf as [Hg Hbad]. apply filter_In in Hg as [Hg _].
  rewrite effect_invalid in Hbad. apply list_elem_of_In, Heff in Hg as [Hg|Hg];
    by rewrite Hg in Hbad.
Qed.

(** ** A concrete instance of the parameters *)
Definition toy_encode (b : AuthorizationPolicyBundle) : string :=
  bd_tenant_id b +:+ ":" +:+ bd_policy_version b +:+ ":" +:+ bd_signing_key_id b +:+ ":" +:+
  bd_content_hash b +:+ ":" +:+ bd_signature b.
Definition toy_sign (digest : string) : string := "signed:" +:+ digest.
Definition toy_verify (key digest signature : string) : bool :=
  bool_decide (signature = key +:+ ":" +:+ digest).
Definition toy_hash (s : string) : string := "hash".

Definition policy : AuthorizationPolicyBundle :=
  mkBundle 1 "acme" 7 "v7" 3 100 1000
    [mkGrant "b" ["zoe"; "ann"; "zoe"] [] ["start"] "order" "*" "*" "START" 1 0;
     mkGrant "a" [] [] [] "order" "1" "start" "STOP" 2 0]
    [mkActorEpoch "zoe" 5; mkActorEpoch "ann" 4] "" "" "".
Definition artifact_limits : AuthorizationArtifactLimits := mkArtifactLimits 1000000 10.
Definition keyring : gmap string string := {["k1" := "signed"]}.
Definition sealed_policy : AuthorizationPolicyBundle :=
  sealed_form toy_hash toy_encode policy "k1" toy_sign.
(** A decoder that knows this artifact only. *)
Definition toy_decode (bytes : string) : AuthorizationPolicyBundle + string :=
  if bool_decide (bytes = toy_encode sealed_policy) then inl sealed_policy else inr "malformed".

(** ** Theorems *)

(** Sealing and opening a policy bundle are inverse. If sealing succeeds,
    the bytes open, under the same limits and a keyring that holds the
    signer's key, to the sealed bundle: the given one in canonical order (its
    grants sorted, their lists sorted without repetitions, its actor epochs
    sorted), with the key id, the hash of its contents and the signature. *)
Theorem sealed_bundle_opens (sha256 : string → string) {Key} (verify : Key → string → string → bool)
    encode_bundle decode_bundle bundle key_id sign limits keys verifier bytes :
  let sealed := sealed_form sha256 encode_bundle bundle key_id sign in
  decode_bundle (encode_bundle sealed) = inl sealed →
  keys !! key_id = Some verifier →
  (∀ digest, verify verifier digest (sign digest) = true) →
  seal_bundle sha256 encode_bundle bundle key_id sign limits = Ok bytes →
  open_bundle sha256 verify encode_bundle decode_bundle bytes keys limits = Ok sealed.
Proof. apply seal_then_open. Qed.

Lemma sealed_bundle_opens_witness :
  ∃ bytes, seal_bundle toy_hash toy_encode policy "k1" toy_sign artifact_limits = Ok bytes ∧
    open_bundle toy_hash toy_verify toy_encode toy_decode bytes keyring artifact_limits =
      Ok sealed_policy ∧
    gr_grant_id <$> bd_grants sealed_policy = ["a"; "b"].
Proof.
  exists (toy_encode sealed_policy).
  assert (seal_bundle toy_hash toy_encode policy "k1" toy_sign artifact_limits =
    Ok (toy_encode sealed_policy)) as Hseal by (vm_compute; reflexivity).
  split; [exact Hseal|]. split; [|vm_compute; reflexivity].
  apply (sealed_bundle_opens toy_hash toy_verify toy_encode toy_decode policy "k1" toy_sign
    artifact_limits keyring "signed").
  - vm_compute. reflexivity.
  - reflexivity.
  - intros digest. apply bool_decide_eq_true. reflexivity.
  - exact Hseal.
Defined.

(** What opening a bundle guarantees the evaluator. The bytes are the
    canonical encoding of the bundle, its contents hash to the recorded hash
    and a known key signed that hash; and since the actor epochs are sorted
    and distinct, the binary search of the evaluator finds the entry of an
    actor iff there is one: the revocation epoch required of an actor is
    exactly the maximum of the bundle's, the actor's and the external ones,
    and no request is denied for an invalid effect. *)
Theorem opened_bundle_guarantee (sha256 : string → string) {Key}
    (verify : Key → string → string → bool) encode_bundle decode_bundle bytes keys limits b :
  open_bundle sha256 verify encode_bundle decode_bundle bytes keys limits = Ok b →
  encode_bundle b = bytes ∧
  bd_content_hash b = bundle_digest sha256 encode_bundle b ∧
  (∃ verifier, keys !! bd_signing_key_id b = Some verifier ∧
     verify verifier (bd_content_hash b) (bd_signature b) = true) ∧
  NoDup (ae_actor_id <$> bd_actor_revoke_epochs b) ∧
  (∀ actor external, ∃ floor,
     ((∃ e, e ∈ bd_actor_revoke_epochs b ∧ ae_actor_id e = actor ∧ floor = ae_revoke_epoch e) ∨
      ((∀ e, e ∈ bd_actor_revoke_epochs b → ae_actor_id e ≠ actor) ∧ floor = 0%N)) ∧
     required_revoke_epoch b actor external =
       N.max (N.max (bd_revoke_epoch b) floor)
         (N.max (rs_tenant_epoch external) (rs_actor_epoch external))) ∧
  (∀ input external, ad_deny_reason (evaluate b input external) ≠ Some InvalidPolicyEffect).
Proof.
  intros (He & [u Hv] & Hc & Hh & verifier & Hk & Hs)%open_bundle_Ok.
  apply validate_bundle_Ok in Hv as (_ & Ha & Heff).
  pose proof (opened_epochs_sorted b Hc) as Hsorted. split_and!; [done|done| | | |].
  - exists verifier. by rewrite Hh.
  - by apply (sorted_windows_NoDup ae_actor_id String.le).
  - intros actor external. by apply required_epoch_exact.
  - intros input external. by apply evaluate_valid_effects.
Qed.

Lemma opened_bundle_guarantee_witness :
  bd_content_hash sealed_policy = bundle_digest toy_hash toy_encode sealed_policy ∧
  ∃ floor, required_revoke_epoch sealed_policy "zoe" (mkRevocation 0 0) =
    N.max (N.max (bd_revoke_epoch sealed_policy) floor) (N.max 0 0).
Proof.
  assert (open_bundle toy_hash toy_verify toy_encode toy_decode (toy_encode sealed_policy) keyring
    artifact_limits = Ok sealed_policy) as Hopen by (vm_compute; reflexivity).
  destruct (opened_bundle_guarantee toy_hash toy_verify toy_encode toy_decode _ _ _ _ Hopen)
    as (_ & Hh & _ & _ & Hr & _).
  split; [exact Hh|]. destruct (Hr "zoe" (mkRevocation 0 0)) as (floor & _ & Hf).
  exists floor. exact Hf.
Defined.
