(* ===== verification/Governance.v ===== *)
(** * Compliance termination under dual control

    [crates/bpmp-governance-domain/src/lib.rs]: the decision to abort an
    instance and hand its pending compensations to reconciliation. Byte
    vectors and digests are byte strings. SHA-256 and Ed25519 are code of
    other packages: they are parameters here. *)

From Stdlib Require Import Ascii.
From S2P Require Import Prelude Bytes.
From stdpp Require Import options.

(** ** Data *)
Record GovernancePolicy := mkPolicy {
  gp_abort_capability : string;
  gp_accepted_auth_assurance : gset string;
  gp_approval_public_keys : gmap string string;
  gp_required_approver_count : N;
  gp_max_proof_age_ms : N;
  gp_max_approval_ttl_ms : N;
  gp_max_pending_ledger_entries : N }.

Inductive CompensationStatus := Pending | Compensated | ReconciliationRequired.
#[global] Instance status_eq_dec : EqDecision CompensationStatus.
Proof. solve_decision. Defined.

Record CompensationLedgerEntry := mkEntry {
  le_tenant_id : string;
  le_instance_id : string;
  le_saga_ref : string;
  le_ledger_entry_id : string;
  le_effect_sequence : N;
  le_ledger_sequence : N;
  le_side_effect_type : string;
  le_target_system : string;
  le_handler_ref : string;
  le_opaque_operation_ref : string;
  le_idempotency_key : string;
  le_status : CompensationStatus;
  le_updated_at_epoch_ms : N }.

Record AbortAndReconcileRequest := mkRequest {
  ar_tenant_id : string;
  ar_instance_id : string;
  ar_policy_id : string;
  ar_legal_deadline_epoch_ms : N;
  ar_key_scope : string;
  ar_key_epoch : N;
  ar_pending_ledger_digest : string;
  ar_reason_code : string }.

Record SignedApproval := mkApproval {
  sa_request_digest : string;
  sa_tenant_id : string;
  sa_actor_id : string;
  sa_capability : string;
  sa_auth_assurance : string;
  sa_approved_at_epoch_ms : N;
  sa_expires_at_epoch_ms : N;
  sa_key_id : string;
  sa_signature : string }.

Record DualControlProof := mkProof {
  dp_requester : SignedApproval;
  dp_approvers : list SignedApproval }.

Record ReconciliationWorkItem := mkWorkItem {
  wi_tenant_id : string;
  wi_instance_id : string;
  wi_reconciliation_id : string;
  wi_ledger_entry_id : string;
  wi_side_effect_type : string;
  wi_target_system : string;
  wi_handler_ref : string;
  wi_opaque_operation_ref : string;
  wi_deadline_epoch_ms : N }.

Record GovernanceAuditRef := mkAudit {
  au_actor_id : string;
  au_approved_at_epoch_ms : N;
  au_key_id : string }.

Record AbortAndReconcileDecision := mkAbortDecision {
  aa_request_digest : string;
  aa_ledger_digest : string;
  aa_requester_audit : GovernanceAuditRef;
  aa_approver_audits : list GovernanceAuditRef;
  aa_work_items : list ReconciliationWorkItem }.

Inductive GovernanceError :=
| InvalidPolicy
| InvalidRequest
| PendingLedgerLimitExceeded (configured_limit : N)
| LedgerScopeMismatch
| LedgerEntryNotPending
| MissingReconciliationMetadata
| DuplicateLedgerEntry
| StaleLedgerDigest
| ProofDigestMismatch
| InsufficientApprovers
| ActorSeparationViolation
| ApprovalTenantMismatch
| CapabilityDenied
| AuthenticationAssuranceDenied
| ApprovalOutsideValidity
| ApprovalLifetimeExceeded
| UnknownApprovalKey
| InvalidApprovalSignature.

Abbreviation governed := (res GovernanceError) (only parsing).

Definition GovernancePolicy_validate (p : GovernancePolicy) : governed unit :=
  bail_if (is_blank (gp_abort_capability p)
           || bool_decide (gp_accepted_auth_assurance p = ∅)
           || map_is_empty (gp_approval_public_keys p)
           || (gp_required_approver_count p =? 0)%N
           || (gp_max_proof_age_ms p =? 0)%N
           || (gp_max_approval_ttl_ms p =? 0)%N
           || (gp_max_pending_ledger_entries p =? 0)%N) InvalidPolicy;;
  bail_if (existsb is_blank (btree_keys (gp_approval_public_keys p))
           || existsb is_blank (btree_set_iter (gp_accepted_auth_assurance p))) InvalidPolicy.

(** ** The canonical encoding

    [Canonical] collects bytes: every string with its length in front, every
    number as eight bytes, most significant first ([Bytes]). *)
(** [Canonical::new] *)
Definition canonical_new (domain : string) : string := canonical_bytes domain.

(** ** Sorting the ledger *)
Definition ledger_key (e : CompensationLedgerEntry) : N * N * string :=
  (le_effect_sequence e, le_ledger_sequence e, le_ledger_entry_id e).
(** The lexicographic order on the keys. *)
Definition ledger_key_le (a b : N * N * string) : Prop :=
  let '(e1, l1, i1) := a in
  let '(e2, l2, i2) := b in
  (e1 < e2)%N ∨ (e1 = e2 ∧ ((l1 < l2)%N ∨ (l1 = l2 ∧ String.le i1 i2))).
#[global] Instance ledger_key_le_dec : RelDecision ledger_key_le.
Proof. intros [[e1 l1] i1] [[e2 l2] i2]. unfold ledger_key_le. apply _. Defined.
Definition sort_ledger (entries : list CompensationLedgerEntry) : list CompensationLedgerEntry :=
  merge_sort (by_key ledger_key ledger_key_le) entries.

Definition status_code (s : CompensationStatus) : N :=
  match s with Pending => 1 | Compensated => 2 | ReconciliationRequired => 3 end.

Definition entry_bytes (e : CompensationLedgerEntry) : string :=
  canonical_bytes (le_tenant_id e) +:+
  canonical_bytes (le_instance_id e) +:+
  canonical_bytes (le_saga_ref e) +:+
  canonical_bytes (le_ledger_entry_id e) +:+
  canonical_u64 (le_effect_sequence e) +:+
  canonical_u64 (le_ledger_sequence e) +:+
  canonical_bytes (le_side_effect_type e) +:+
  canonical_bytes (le_target_system e) +:+
  canonical_bytes (le_handler_ref e) +:+
  canonical_bytes (le_opaque_operation_ref e) +:+
  canonical_bytes (le_idempotency_key e) +:+
  canonical_u8 (status_code (le_status e)) +:+
  canonical_u64 (le_updated_at_epoch_ms e).

Definition entries_bytes (entries : list CompensationLedgerEntry) : string :=
  foldr (λ e bytes, entry_bytes e +:+ bytes) "" entries.

(** The bytes [pending_ledger_digest] hashes. *)
Definition pending_ledger_bytes (entries : list CompensationLedgerEntry) : string :=
  let sorted := sort_ledger entries in
  canonical_new "bpmp-pending-compensation-ledger-v1" +:+
  canonical_u64 (N.of_nat (length sorted)) +:+
  entries_bytes sorted.

Definition request_bytes (r : AbortAndReconcileRequest) : string :=
  canonical_new "bpmp-abort-and-reconcile-request-v1" +:+
  canonical_bytes (ar_tenant_id r) +:+
  canonical_bytes (ar_instance_id r) +:+
  canonical_bytes (ar_policy_id r) +:+
  canonical_u64 (ar_legal_deadline_epoch_ms r) +:+
  canonical_bytes (ar_key_scope r) +:+
  canonical_u64 (ar_key_epoch r) +:+
  canonical_bytes (ar_pending_ledger_digest r) +:+
  canonical_bytes (ar_reason_code r).

Definition approval_signing_payload (a : SignedApproval) : string :=
  canonical_new "bpmp-governance-approval-v1" +:+
  canonical_bytes (sa_request_digest a) +:+
  canonical_bytes (sa_tenant_id a) +:+
  canonical_bytes (sa_actor_id a) +:+
  canonical_bytes (sa_capability a) +:+
  canonical_bytes (sa_auth_assurance a) +:+
  canonical_u64 (sa_approved_at_epoch_ms a) +:+
  canonical_u64 (sa_expires_at_epoch_ms a) +:+
  canonical_bytes (sa_key_id a).

(** [{byte:02x}] for every byte. *)
Definition hex_digit (n : N) : ascii :=
  ascii_of_N (if (n <? 10)%N then 48 + n else 87 + n)%N.
Fixpoint hex (s : string) : string :=
  match s with
  | "" => ""
  | String a s =>
      String (hex_digit (N_of_ascii a / 16)) (String (hex_digit (N_of_ascii a mod 16)) (hex s))
  end.

Definition audit_ref (a : SignedApproval) : GovernanceAuditRef :=
  mkAudit (sa_actor_id a) (sa_approved_at_epoch_ms a) (sa_key_id a).

(** ** Validation *)
Definition validate_request (r : AbortAndReconcileRequest) : governed unit :=
  bail_if (is_blank (ar_tenant_id r) || is_blank (ar_instance_id r) || is_blank (ar_policy_id r)
           || is_blank (ar_key_scope r) || is_blank (ar_reason_code r)
           || (ar_legal_deadline_epoch_ms r =? 0)%N) InvalidRequest.

(** One turn of the loop; the accumulator is [(identities, order)]. *)
Definition validate_entry (r : AbortAndReconcileRequest) (acc : gset string * gset (N * N))
    (e : CompensationLedgerEntry) : governed (gset string * gset (N * N)) :=
  let '(identities, order) := acc in
  bail_if (bool_decide (le_tenant_id e ≠ ar_tenant_id r)
           || bool_decide (le_instance_id e ≠ ar_instance_id r)) LedgerScopeMismatch;;
  bail_if (bool_decide (le_status e ≠ Pending)) LedgerEntryNotPending;;
  bail_if (is_blank (le_ledger_entry_id e) || is_blank (le_side_effect_type e)
           || is_blank (le_target_system e) || is_blank (le_handler_ref e)
           || is_blank (le_opaque_operation_ref e) || is_blank (le_idempotency_key e))
    MissingReconciliationMetadata;;
  let position := (le_effect_sequence e, le_ledger_sequence e) in
  bail_if (bool_decide (le_ledger_entry_id e ∈ identities) || bool_decide (position ∈ order))
    DuplicateLedgerEntry;;
  Ok ({[le_ledger_entry_id e]} ∪ identities, {[position]} ∪ order).

Definition validate_ledger (r : AbortAndReconcileRequest) (entries : list CompensationLedgerEntry)
    : governed unit :=
  for_each (validate_entry r) entries (∅, ∅);;
  Ok tt.

Section governance.
(** SHA-256; Ed25519 public keys and signatures, their parsing and the strict
    check of a signature. *)
Context (sha256 : string → string).
Context {Key Signature : Type} (key_from_bytes : string → option Key).
Context (signature_from_slice : string → option Signature).
Context (verify_strict : Key → string → Signature → bool).

Definition pending_ledger_digest (entries : list CompensationLedgerEntry) : string :=
  sha256 (pending_ledger_bytes entries).
Definition abort_request_digest (r : AbortAndReconcileRequest) : string := sha256 (request_bytes r).
Definition reconciliation_id (request_digest ledger_entry_id : string) : string :=
  hex (sha256 (canonical_new "bpmp-reconciliation-work-item-v1" +:+
               canonical_bytes request_digest +:+ canonical_bytes ledger_entry_id)).

Definition validate_approval (a : SignedApproval) (r : AbortAndReconcileRequest)
    (request_digest : string) (p : GovernancePolicy) (evaluated_at : N) : governed unit :=
  bail_if (bool_decide (sa_request_digest a ≠ request_digest)) ProofDigestMismatch;;
  bail_if (bool_decide (sa_tenant_id a ≠ ar_tenant_id r)) ApprovalTenantMismatch;;
  bail_if (bool_decide (sa_capability a ≠ gp_abort_capability p)) CapabilityDenied;;
  bail_if (bool_decide (sa_auth_assurance a ∉ gp_accepted_auth_assurance p))
    AuthenticationAssuranceDenied;;
  lifetime ← ok_or (checked_sub (sa_expires_at_epoch_ms a) (sa_approved_at_epoch_ms a))
    ApprovalOutsideValidity;
  bail_if (gp_max_approval_ttl_ms p <? lifetime)%N ApprovalLifetimeExceeded;;
  age ← ok_or (checked_sub evaluated_at (sa_approved_at_epoch_ms a)) ApprovalOutsideValidity;
  bail_if ((sa_expires_at_epoch_ms a <=? evaluated_at) || (gp_max_proof_age_ms p <? age))%N
    ApprovalOutsideValidity;;
  bytes ← ok_or (gp_approval_public_keys p !! sa_key_id a) UnknownApprovalKey;
  key ← ok_or (key_from_bytes bytes) UnknownApprovalKey;
  signature ← ok_or (signature_from_slice (sa_signature a)) InvalidApprovalSignature;
  if verify_strict key (approval_signing_payload a) signature then Ok tt
  else Err InvalidApprovalSignature.

Definition work_item (r : AbortAndReconcileRequest) (request_digest : string)
    (e : CompensationLedgerEntry) : ReconciliationWorkItem :=
  mkWorkItem (ar_tenant_id r) (ar_instance_id r)
    (reconciliation_id request_digest (le_ledger_entry_id e)) (le_ledger_entry_id e)
    (le_side_effect_type e) (le_target_system e) (le_handler_ref e) (le_opaque_operation_ref e)
    (ar_legal_deadline_epoch_ms r).

Definition decide_abort_and_reconcile (r : AbortAndReconcileRequest)
    (pending_entries : list CompensationLedgerEntry) (proof : DualControlProof)
    (p : GovernancePolicy) (evaluated_at : N) : governed AbortAndReconcileDecision :=
  GovernancePolicy_validate p;;
  validate_request r;;
  let entry_count := default u32_max (u32_of_usize (length pending_entries)) in
  bail_if (gp_max_pending_ledger_entries p <? entry_count)%N
    (PendingLedgerLimitExceeded (gp_max_pending_ledger_entries p));;
  validate_ledger r pending_entries;;
  let ledger_digest := pending_ledger_digest pending_entries in
  bail_if (bool_decide (ledger_digest ≠ ar_pending_ledger_digest r)) StaleLedgerDigest;;
  let request_digest := abort_request_digest r in
  bail_if (N.of_nat (length (dp_approvers proof)) <? gp_required_approver_count p)%N
    InsufficientApprovers;;
  validate_approval (dp_requester proof) r request_digest p evaluated_at;;
  for_each (λ actors a,
    validate_approval a r request_digest p evaluated_at;;
    bail_if (bool_decide (sa_actor_id a ∈ actors)) ActorSeparationViolation;;
    Ok ({[sa_actor_id a]} ∪ actors))
    (dp_approvers proof) ({[sa_actor_id (dp_requester proof)]} : gset string);;
  Ok (mkAbortDecision request_digest ledger_digest (audit_ref (dp_requester proof))
        (audit_ref <$> dp_approvers proof)
        (work_item r request_digest <$> sort_ledger pending_entries)).
End governance.

(** ** The canonical encoding is injective *)

(** What holds of every entry, request and approval in memory: lengths and
    numbers have 64 bits. *)
Definition entry_fits (e : CompensationLedgerEntry) : Prop :=
  fits (le_tenant_id e) ∧ fits (le_instance_id e) ∧ fits (le_saga_ref e) ∧
  fits (le_ledger_entry_id e) ∧ (le_effect_sequence e ≤ u64_max)%N ∧
  (le_ledger_sequence e ≤ u64_max)%N ∧ fits (le_side_effect_type e) ∧
  fits (le_target_system e) ∧ fits (le_handler_ref e) ∧ fits (le_opaque_operation_ref e) ∧
  fits (le_idempotency_key e) ∧ (le_updated_at_epoch_ms e ≤ u64_max)%N.
Definition request_fits (r : AbortAndReconcileRequest) : Prop :=
  fits (ar_tenant_id r) ∧ fits (ar_instance_id r) ∧ fits (ar_policy_id r) ∧
  (ar_legal_deadline_epoch_ms r ≤ u64_max)%N ∧ fits (ar_key_scope r) ∧
  (ar_key_epoch r ≤ u64_max)%N ∧ fits (ar_pending_ledger_digest r) ∧ fits (ar_reason_code r).
Definition approval_fits (a : SignedApproval) : Prop :=
  fits (sa_request_digest a) ∧ fits (sa_tenant_id a) ∧ fits (sa_actor_id a) ∧
  fits (sa_capability a) ∧ fits (sa_auth_assurance a) ∧
  (sa_approved_at_epoch_ms a ≤ u64_max)%N ∧ (sa_expires_at_epoch_ms a ≤ u64_max)%N ∧
  fits (sa_key_id a).

Lemma status_code_inj s s' : canonical_u8 (status_code s) = canonical_u8 (status_code s') → s = s'.
Proof. by destruct s, s'. Qed.

Lemma entry_bytes_inj e e' s t :
  entry_fits e → entry_fits e' → entry_bytes e +:+ s = entry_bytes e' +:+ t → e = e' ∧ s = t.
Proof.
  unfold entry_fits, entry_bytes. rewrite !append_assoc. intros He He' H.
  destruct_and! He. destruct_and! He'. peel H. split; [|done].
  match goal with Hc : canonical_u8 _ = canonical_u8 _ |- _ => apply status_code_inj in Hc end.
  destruct e, e'. simpl in *. by subst.
Qed.

Lemma entries_bytes_inj l l' :
  Forall entry_fits l → Forall entry_fits l' → length l = length l' →
  entries_bytes l = entries_bytes l' → l = l'.
Proof.
  intros Hl. revert l'. induction Hl as [|e l He Hl IH]; intros [|e' l'] Hl' Hlen H; try done.
  apply Forall_cons in Hl' as [He' Hl']. simpl in H. apply entry_bytes_inj in H as [-> H]; [|done..].
  f_equal. apply IH; [done|by injection Hlen|done].
Qed.

Lemma request_bytes_inj r r' :
  request_fits r → request_fits r' → request_bytes r = request_bytes r' → r = r'.
Proof.
  unfold request_fits, request_bytes. intros Hr Hr' H.
  apply (f_equal (λ s, s +:+ "")) in H. rewrite !append_assoc in H.
  apply append_inj in H as [_ H]; [|reflexivity].
  destruct_and! Hr. destruct_and! Hr'. peel H. destruct r, r'. simpl in *. by subst.
Qed.

(** The signature of an approval does not cover itself; everything else it
    does. *)
Lemma approval_payload_inj a a' :
  approval_fits a → approval_fits a' → approval_signing_payload a = approval_signing_payload a' →
  sa_signature a = sa_signature a' → a = a'.
Proof.
  unfold approval_fits, approval_signing_payload. intros Ha Ha' H Hs.
  apply (f_equal (λ s, s +:+ "")) in H. rewrite !append_assoc in H.
  apply append_inj in H as [_ H]; [|reflexivity].
  destruct_and! Ha. destruct_and! Ha'. peel H. destruct a, a'. simpl in *. by subst.
Qed.

(** ** The order of the ledger *)
#[global] Instance ledger_key_le_antisymm : AntiSymm (=) ledger_key_le.
Proof.
  intros [[e1 l1] i1] [[e2 l2] i2]. unfold ledger_key_le.
  intros [?|[-> [?|[-> Hi]]]] [?|[? [?|[? Hi']]]]; try lia.
  f_equal. by apply (anti_symm String.le).
Qed.
#[global] Instance ledger_key_le_trans : Transitive ledger_key_le.
Proof.
  intros [[e1 l1] i1] [[e2 l2] i2] [[e3 l3] i3]. unfold ledger_key_le.
  intros [?|[-> [?|[-> Hi]]]] [?|[-> [?|[-> Hi']]]]; try (left; lia); right; split; try done;
    try (left; lia). right. split; [done|]. by trans i2.
Qed.
#[global] Instance ledger_key_le_total : Total ledger_key_le.
Proof.
  intros [[e1 l1] i1] [[e2 l2] i2]. unfold ledger_key_le.
  destruct (N.lt_total e1 e2) as [?|[->|?]]; [by left; left| |by right; left].
  destruct (N.lt_total l1 l2) as [?|[->|?]]; [left; right; auto| |right; right; auto].
  destruct (total String.le i1 i2); [left|right]; auto 6.
Qed.

Lemma sort_ledger_perm entries : sort_ledger entries ≡ₚ entries.
Proof. apply merge_sort_Permutation. Qed.

Lemma sort_ledger_unique l l' :
  NoDup (ledger_key <$> l) → l ≡ₚ l' → sort_ledger l = sort_ledger l'.
Proof.
  intros Hnd Hp. apply (sorted_key_unique ledger_key ledger_key_le).
  - apply StronglySorted_merge_sort; apply _.
  - apply StronglySorted_merge_sort; apply _.
  - by rewrite sort_ledger_perm.
  - by rewrite !sort_ledger_perm.
Qed.

Lemma pending_ledger_bytes_inj l l' :
  Forall entry_fits l → Forall entry_fits l' →
  (N.of_nat (length l) ≤ u64_max)%N → (N.of_nat (length l') ≤ u64_max)%N →
  pending_ledger_bytes l = pending_ledger_bytes l' → l ≡ₚ l'.
Proof.
  intros Hl Hl' Hn Hn' H. unfold pending_ledger_bytes in H. cbv zeta in H.
  apply append_inj in H as [_ H]; [|reflexivity].
  apply canonical_u64_inj in H as [Hlen H]; [|by rewrite sort_ledger_perm..].
  rewrite <-(sort_ledger_perm l), <-(sort_ledger_perm l').
  rewrite (entries_bytes_inj (sort_ledger l) (sort_ledger l')); [done|..|lia|done];
    by rewrite sort_ledger_perm.
Qed.

(** ** What the checks mean *)
Definition entry_position (e : CompensationLedgerEntry) : N * N :=
  (le_effect_sequence e, le_ledger_sequence e).

Record entry_ok (r : AbortAndReconcileRequest) (e : CompensationLedgerEntry) : Prop := {
  eo_tenant : le_tenant_id e = ar_tenant_id r;
  eo_instance : le_instance_id e = ar_instance_id r;
  eo_pending : le_status e = Pending;
  eo_metadata : Forall (λ s, is_blank s = false)
    [le_ledger_entry_id e; le_side_effect_type e; le_target_system e; le_handler_ref e;
     le_opaque_operation_ref e; le_idempotency_key e];
}.

Lemma validate_entry_Ok r ids order e acc :
  validate_entry r (ids, order) e = Ok acc ↔
  entry_ok r e ∧ le_ledger_entry_id e ∉ ids ∧ entry_position e ∉ order ∧
  acc = ({[le_ledger_entry_id e]} ∪ ids, {[entry_position e]} ∪ order).
Proof.
  unfold validate_entry, entry_position. split.
  - intros H. inv_res H. rewrite !orb_false_iff, !bool_decide_eq_false in *.
    destruct_and?. split_and!; try done. split; try by apply dec_stable. by repeat constructor.
  - intros ([Ht Hi Hp Hm] & Hid & Hord & ->). rewrite !Forall_cons in Hm.
    destruct Hm as (H1 & H2 & H3 & H4 & H5 & H6 & _).
    rewrite Ht, Hi, Hp, H1, H2, H3, H4, H5, H6, !bool_decide_false by (first [done|tauto]). done.
Qed.

Lemma validate_entries_Ok r l ids order :
  (∃ acc, for_each (validate_entry r) l (ids, order) = Ok acc) ↔
  Forall (entry_ok r) l ∧ NoDup (le_ledger_entry_id <$> l) ∧ NoDup (entry_position <$> l) ∧
  (∀ e, e ∈ l → le_ledger_entry_id e ∉ ids ∧ entry_position e ∉ order).
Proof.
  revert ids order. induction l as [|e l IH]; intros ids order; cbn [for_each].
  { split; [|eauto]. intros _. split_and!; [constructor..|by intros e ?%elem_of_nil]. }
  split.
  - intros (acc & H). apply bind_Ok in H as (acc1 & He & H).
    apply validate_entry_Ok in He as (Hok & Hid & Hord & ->).
    destruct (proj1 (IH _ _) (ex_intro _ acc H)) as (Hl & Hn1 & Hn2 & Hout).
    split_and!; [by constructor|..].
    + simpl. constructor; [|done]. intros (e' & Heq & He')%list_elem_of_fmap.
      destruct (Hout e' He') as [Hx _]. apply Hx, elem_of_union. left. by apply elem_of_singleton.
    + simpl. constructor; [|done]. intros (e' & Heq & He')%list_elem_of_fmap.
      destruct (Hout e' He') as [_ Hx]. apply Hx, elem_of_union. left. by apply elem_of_singleton.
    + intros e' [->|He']%elem_of_cons; [done|].
      destruct (Hout e' He') as [Hx Hy]. rewrite elem_of_union in Hx.
      rewrite elem_of_union in Hy. tauto.
  - intros ([He Hl]%Forall_cons & [Hid Hn1]%NoDup_cons & [Hord Hn2]%NoDup_cons & Hout).
    destruct (Hout e) as [Ho1 Ho2]; [by left|].
    rewrite (proj2 (validate_entry_Ok r ids order e _)) by (split_and!; done). simpl. apply IH.
    split_and!; [done..|]. intros e' He'. destruct (Hout e') as [??]; [by right|].
    split; (intros [Heq%elem_of_singleton|?]%elem_of_union; [|done]);
      [apply Hid|apply Hord]; rewrite <-Heq; by apply list_elem_of_fmap_2.
Qed.

Section governance_lemmas.
Context {Key Signature : Type} (key_from_bytes : string → option Key).
Context (signature_from_slice : string → option Signature).
Context (verify_strict : Key → string → Signature → bool).

(** An approval that counts: of this request, tenant and capability, with an
    accepted assurance, alive and fresh at the given time, and signed with a
    key of the policy. *)
Record approval_ok (r : AbortAndReconcileRequest) (digest : string) (p : GovernancePolicy)
    (now : N) (a : SignedApproval) : Prop := {
  ao_digest : sa_request_digest a = digest;
  ao_tenant : sa_tenant_id a = ar_tenant_id r;
  ao_capability : sa_capability a = gp_abort_capability p;
  ao_assurance : sa_auth_assurance a ∈ gp_accepted_auth_assurance p;
  ao_alive : (sa_approved_at_epoch_ms a ≤ now < sa_expires_at_epoch_ms a)%N;
  ao_lifetime :
    (sa_expires_at_epoch_ms a - sa_approved_at_epoch_ms a ≤ gp_max_approval_ttl_ms p)%N;
  ao_fresh : (now - sa_approved_at_epoch_ms a ≤ gp_max_proof_age_ms p)%N;
  ao_signed : ∃ bytes key signature, gp_approval_public_keys p !! sa_key_id a = Some bytes ∧
    key_from_bytes bytes = Some key ∧ signature_from_slice (sa_signature a) = Some signature ∧
    verify_strict key (approval_signing_payload a) signature = true;
}.

Lemma validate_approval_Ok a r digest p now u :
  validate_approval key_from_bytes signature_from_slice verify_strict a r digest p now = Ok u ↔
  approval_ok r digest p now a.
Proof.
  destruct u. unfold validate_approval. split.
  - intros H. inv_res H. rewrite !bool_decide_eq_false in *.
    match goal with H1 : checked_sub (sa_expires_at_epoch_ms a) _ = Some _,
      H2 : checked_sub now _ = Some _ |- _ =>
        apply checked_sub_Some in H1 as [-> ?]; apply checked_sub_Some in H2 as [-> ?] end.
    destruct (verify_strict _ _ _) eqn:Hs; [|done].
    split; try (by apply dec_stable); try lia. eauto 10.
  - intros [Hd Ht Hc Ha Hl Hf Hg (bytes & key & signature & Hk & Hp & Hs & Hv)].
    unfold checked_sub. rewrite !bool_decide_false by (first [tauto|done]). simpl.
    rewrite (proj2 (N.leb_le (sa_approved_at_epoch_ms a) (sa_expires_at_epoch_ms a))) by lia.
    rewrite (proj2 (N.leb_le (sa_approved_at_epoch_ms a) now)) by lia. simpl.
    rewrite (proj2 (N.ltb_ge (gp_max_approval_ttl_ms p) _)) by lia. simpl.
    rewrite (proj2 (N.leb_gt (sa_expires_at_epoch_ms a) now)) by lia. simpl.
    rewrite (proj2 (N.ltb_ge (gp_max_proof_age_ms p) _)) by lia. simpl.
    by rewrite Hk; simpl; rewrite Hp; simpl; rewrite Hs; simpl; rewrite Hv.
Qed.

Lemma approvers_Ok r digest p now l actors :
  (∃ actors', for_each (λ (actors : gset string) a,
      validate_approval key_from_bytes signature_from_slice verify_strict a r digest p now;;
      bail_if (bool_decide (sa_actor_id a ∈ actors)) ActorSeparationViolation;;
      Ok ({[sa_actor_id a]} ∪ actors)) l actors = Ok actors') ↔
  Forall (approval_ok r digest p now) l ∧ NoDup (sa_actor_id <$> l) ∧
  (∀ a, a ∈ l → sa_actor_id a ∉ actors).
Proof.
  revert actors. induction l as [|a l IH]; intros actors; cbn [for_each].
  { split; [|eauto]. intros _. split_and!; [constructor..|by intros a ?%elem_of_nil]. }
  split.
  - intros (actors' & H). apply bind_Ok in H as (acc & Ha & H).
    apply bind_Ok in Ha as (u & Hv%validate_approval_Ok & Ha).
    apply bind_Ok in Ha as (? & Hn%bail_if_Ok & [= <-]). apply bool_decide_eq_false in Hn.
    destruct (proj1 (IH _) (ex_intro _ actors' H)) as (Hl & Hnd & Hout).
    split_and!; [by constructor| |].
    + simpl. constructor; [|done]. intros (a' & Heq & Ha')%list_elem_of_fmap.
      apply (Hout a' Ha'), elem_of_union. left. by apply elem_of_singleton.
    + intros a' [->|Ha']%elem_of_cons; [done|]. specialize (Hout a' Ha').
      rewrite elem_of_union in Hout. tauto.
  - intros ([Ha Hl]%Forall_cons & [Hna Hnd]%NoDup_cons & Hout).
    rewrite (proj2 (validate_approval_Ok a r digest p now tt) Ha). simpl.
    rewrite bool_decide_false by (apply Hout; by left). simpl. apply IH. split_and!; [done..|].
    intros a' Ha' [Heq%elem_of_singleton|Hin]%elem_of_union.
    + apply Hna. rewrite <-Heq. by apply list_elem_of_fmap_2.
    + revert Hin. apply Hout. by right.
Qed.

Lemma validate_ledger_Ok r l u :
  validate_ledger r l = Ok u ↔
  Forall (entry_ok r) l ∧ NoDup (le_ledger_entry_id <$> l) ∧ NoDup (entry_position <$> l).
Proof.
  destruct u. unfold validate_ledger.
  pose proof (validate_entries_Ok r l ∅ ∅) as Hl. split.
  - intros H. apply bind_Ok in H as (acc & H & _).
    destruct (proj1 Hl (ex_intro _ acc H)) as (? & ? & ? & _). done.
  - intros (H1 & H2 & H3). destruct (proj2 Hl) as [acc ->]; [|done]. split_and!; done.
Qed.

Context (sha256 : string → string).

(** The conditions under which an abort is decided. *)
Record abort_conditions (r : AbortAndReconcileRequest) (entries : list CompensationLedgerEntry)
    (proof : DualControlProof) (p : GovernancePolicy) (now : N) : Prop := {
  ac_policy : GovernancePolicy_validate p = Ok tt;
  ac_request : validate_request r = Ok tt;
  ac_limit :
    (N.min (N.of_nat (length entries)) u32_max ≤ gp_max_pending_ledger_entries p)%N;
  ac_entries : Forall (entry_ok r) entries;
  ac_identities : NoDup (le_ledger_entry_id <$> entries);
  ac_positions : NoDup (entry_position <$> entries);
  ac_ledger : ar_pending_ledger_digest r = pending_ledger_digest sha256 entries;
  ac_quorum : (gp_required_approver_count p ≤ N.of_nat (length (dp_approvers proof)))%N;
  ac_approvals :
    Forall (approval_ok r (abort_request_digest sha256 r) p now)
      (dp_requester proof :: dp_approvers proof);
  ac_separation : NoDup (sa_actor_id <$> dp_requester proof :: dp_approvers proof);
}.

Lemma entry_count_min n : default u32_max (u32_of_usize n) = N.min (N.of_nat n) u32_max.
Proof. unfold u32_of_usize. destruct (N.leb_spec (N.of_nat n) u32_max); simpl; lia. Qed.

Lemma decide_abort_Ok r entries proof p now d :
  decide_abort_and_reconcile sha256 key_from_bytes signature_from_slice verify_strict
    r entries proof p now = Ok d ↔
  abort_conditions r entries proof p now ∧
  d = mkAbortDecision (abort_request_digest sha256 r) (pending_ledger_digest sha256 entries)
        (audit_ref (dp_requester proof)) (audit_ref <$> dp_approvers proof)
        (work_item sha256 r (abort_request_digest sha256 r) <$> sort_ledger entries).
Proof.
  unfold decide_abort_and_reconcile. cbv zeta. rewrite entry_count_min.
  pose proof (approvers_Ok r (abort_request_digest sha256 r) p now (dp_approvers proof)
    {[sa_actor_id (dp_requester proof)]}) as Happ. split.
  - intros H. repeat (apply bind_Ok in H as (? & ? & H)). injection H as <-. destruct_units.
    repeat match goal with H : bail_if _ _ = Ok _ |- _ => apply bail_if_Ok in H end.
    match goal with H : validate_ledger _ _ = Ok _ |- _ =>
      apply validate_ledger_Ok in H as (? & ? & ?) end.
    match goal with H : validate_approval _ _ _ _ _ _ _ _ = Ok _ |- _ =>
      apply validate_approval_Ok in H end.
    match goal with H : for_each _ (dp_approvers proof) _ = Ok ?a |- _ =>
      destruct (proj1 Happ (ex_intro _ a H)) as (? & ? & Hout) end.
    split; [|done]. split; try done; try lia.
    + by match goal with H : bool_decide _ = false |- _ =>
        apply bool_decide_eq_false, dec_stable in H end.
    + by constructor.
    + simpl. constructor; [|done]. intros (a & Heq & Ha)%list_elem_of_fmap.
      apply (Hout a Ha). by apply elem_of_singleton.
  - intros [[Hp Hr Hn He Hi Hpos Hd Hq Ha Hs] ->].
    apply Forall_cons in Ha as [Hreq Ha]. apply NoDup_cons in Hs as [Hnot Hs].
    rewrite Hp. simpl. rewrite Hr. simpl. rewrite (proj2 (N.ltb_ge _ _)) by done. simpl.
    rewrite (proj2 (validate_ledger_Ok r entries tt)) by done. simpl.
    rewrite bool_decide_false by (intros Hne; by apply Hne). simpl.
    rewrite (proj2 (N.ltb_ge _ _)) by done. simpl.
    rewrite (proj2 (validate_approval_Ok _ r _ p now tt) Hreq). simpl.
    destruct (proj2 Happ) as [actors ->]; [|done]. split_and!; [done..|].
    intros a Hin Heq%elem_of_singleton. apply Hnot. rewrite <-Heq. by apply list_elem_of_fmap_2.
Qed.
End governance_lemmas.

(** ** A concrete instance of the parameters *)
Definition toy_sha (s : string) : string := hex s.
Definition toy_key (bytes : string) : option string := Some bytes.
Definition toy_signature (bytes : string) : option string := Some bytes.
Definition toy_verify (key payload signature : string) : bool :=
  bool_decide (signature = key +:+ payload).

Definition refund (id : string) (n : N) : CompensationLedgerEntry :=
  mkEntry "acme" "i-1" "saga" id n n "payment" "bank" "refund-v1" ("op-" +:+ id) ("idem-" +:+ id)
    Pending 40.
Definition abort_policy : GovernancePolicy :=
  mkPolicy "abort" {["high"]} {["k" := "key:"]} 1 10 20 10.
Definition abort_request : AbortAndReconcileRequest :=
  mkRequest "acme" "i-1" "p-7" 100 "subject" 9
    (pending_ledger_digest toy_sha [refund "second" 2; refund "first" 1]) "deadline".
Definition approval_of (actor : string) : SignedApproval :=
  let unsigned := mkApproval (abort_request_digest toy_sha abort_request) "acme" actor "abort" "high"
                    45 55 "k" "" in
  mkApproval (abort_request_digest toy_sha abort_request) "acme" actor "abort" "high" 45 55 "k"
    ("key:" +:+ approval_signing_payload unsigned).

Example abort_decided :
  match decide_abort_and_reconcile toy_sha toy_key toy_signature toy_verify abort_request
    [refund "first" 1; refund "second" 2] (mkProof (approval_of "ann") [approval_of "bob"])
    abort_policy 50 with
  | Ok d => wi_ledger_entry_id <$> aa_work_items d = ["first"; "second"]
  | _ => False
  end.
Proof. vm_compute. reflexivity. Qed.

(** ** Theorems *)

(** C40: Dual control is exact and fails closed. An abort is decided exactly
    when the policy and the request are valid, the pending ledger is within
    its bound, belongs to the instance, is all pending, complete and free of
    duplicates, hashes to the digest the request names, at least the required
    number of approvers signed, and the requester's and every approver's
    approval is for this very request, tenant and capability, with an accepted
    assurance, within its lifetime and the policy's bounds, signed with a key
    of the policy, by pairwise distinct actors. The decision then holds one
    work item per pending entry, in the order of the effects. *)
Theorem abort_requires_dual_control (sha256 : string → string) {Key Signature}
    (key_from_bytes : string → option Key) (signature_from_slice : string → option Signature)
    (verify_strict : Key → string → Signature → bool) r entries proof p now d :
  (decide_abort_and_reconcile sha256 key_from_bytes signature_from_slice verify_strict
     r entries proof p now = Ok d ↔
   abort_conditions key_from_bytes signature_from_slice verify_strict sha256 r entries proof p now ∧
   d = mkAbortDecision (abort_request_digest sha256 r) (pending_ledger_digest sha256 entries)
         (audit_ref (dp_requester proof)) (audit_ref <$> dp_approvers proof)
         (work_item sha256 r (abort_request_digest sha256 r) <$> sort_ledger entries)) ∧
  sort_ledger entries ≡ₚ entries ∧
  StronglySorted (by_key ledger_key ledger_key_le) (sort_ledger entries).
Proof.
  split; [apply decide_abort_Ok|]. split; [apply sort_ledger_perm|].
  apply StronglySorted_merge_sort; apply _.
Qed.

(** The digest of the pending ledger binds exactly its entries. The bytes
    that are hashed do not depend on the order the entries come in, and two
    ledgers with the same bytes have the same entries in every field: the
    length prefixes leave no two ways to read them. (Entries in memory have
    64-bit numbers and lengths, and the checked ledgers have distinct keys.) *)
Theorem ledger_bytes_bind_entries l l' :
  Forall entry_fits l → Forall entry_fits l' →
  (N.of_nat (length l) ≤ u64_max)%N → (N.of_nat (length l') ≤ u64_max)%N →
  NoDup (ledger_key <$> l) →
  pending_ledger_bytes l = pending_ledger_bytes l' ↔ l ≡ₚ l'.
Proof.
  intros Hl Hl' Hn Hn' Hnd. split; [by apply pending_ledger_bytes_inj|].
  intros Hp. unfold pending_ledger_bytes. by rewrite (sort_ledger_unique l l').
Qed.

Lemma ledger_bytes_bind_entries_witness :
  pending_ledger_bytes [refund "first" 1; refund "second" 2] =
    pending_ledger_bytes [refund "second" 2; refund "first" 1] ↔
  [refund "first" 1; refund "second" 2] ≡ₚ [refund "second" 2; refund "first" 1].
Proof.
  apply ledger_bytes_bind_entries.
  - repeat constructor; vm_compute; discriminate.
  - repeat constructor; vm_compute; discriminate.
  - vm_compute. discriminate.
  - vm_compute. discriminate.
  - apply (bool_decide_unpack _). vm_compute. exact I.
Defined.
