(* ===== verification/Outbox.v ===== *)
(** * The outbox and its publisher

    [apps/rust/bpmp-engine/src/outbox.rs], and the publisher loop of
    [apps/rust/bpmp-engine-server/src/linux_runtime.rs].  The store and the
    broker are ports: the store through the contract [LawfulOutbox], the
    broker through a relation on its own state. *)

From S2P Require Import Prelude Effects.
From stdpp Require Import options.

Record OutboxRecord := mkOutboxRecord {
  ob_cursor : N;
  ob_tenant_id : string;
  ob_instance_id : string;
  ob_event_id : string;
  ob_correlation_id : string;
  ob_causation_command_id : string;
  ob_payload : string }.

Record PublishAcknowledgement := mkAck { ack_event_id : string }.

Inductive OutboxError :=
| Outbox_InvalidConfiguration
| Outbox_BatchLimitExceeded
| InvalidRecordOrder
| AcknowledgementMismatch
| PublishAttemptsExhausted
| Outbox_CheckpointConflict
| Outbox_StoreUnavailable (detail : string)
| BrokerUnavailable (detail : string).

Class OutboxStorePort (S : Type) := {
  publisher_checkpoint : S → res OutboxError N;
  read_after : S → N → nat → res OutboxError (list OutboxRecord);
  checkpoint : N → N → method S OutboxError unit }.

Record OutboxPublisherConfig := mkPublisherConfig {
  pc_batch_size : nat;
  pc_max_publish_attempts : N;
  pc_initial_retry_delay_ms : N;
  pc_max_retry_delay_ms : N;
  pc_retry_multiplier_millis : N }.

Definition OutboxPublisherConfig_new (batch_size : nat)
    (max_publish_attempts initial_retry_delay_ms max_retry_delay_ms retry_multiplier_millis : N) :
    res OutboxError OutboxPublisherConfig :=
  bail_if ((batch_size =? 0)%nat || (max_publish_attempts =? 0)%N
           || (initial_retry_delay_ms =? 0)%N
           || (max_retry_delay_ms <? initial_retry_delay_ms)%N
           || (retry_multiplier_millis <? 1000)%N) Outbox_InvalidConfiguration;;
  Ok (mkPublisherConfig batch_size max_publish_attempts initial_retry_delay_ms
        max_retry_delay_ms retry_multiplier_millis).

Record PublishBatchOutcome := mkBatchOutcome {
  bo_published : nat;
  bo_checkpoint : N }.

(** The calls of the publisher to its ports. *)
Inductive outbox_op : Type → Type :=
| PublisherCheckpoint : outbox_op (res OutboxError N)
| ReadAfter (cursor : N) (limit : nat) : outbox_op (res OutboxError (list OutboxRecord))
| Checkpoint (expected committed : N) : outbox_op (res OutboxError unit)
| Publish (record : OutboxRecord) : outbox_op (res OutboxError PublishAcknowledgement)
| Wait (delay_ms : N) : outbox_op unit.
Abbreviation publisher := (effect outbox_op OutboxError).

Fixpoint validate_records (previous : N) (records : list OutboxRecord) : res OutboxError unit :=
  match records with
  | [] => Ok tt
  | record :: records =>
      bail_if ((ob_cursor record <=? previous)%N || bool_decide (ob_event_id record = "")
               || bool_decide (ob_payload record = "")) InvalidRecordOrder;;
      validate_records (ob_cursor record) records
  end.
Definition validate_batch (records : list OutboxRecord) (checkpoint : N) (configured_limit : nat) :
    res OutboxError unit :=
  bail_if (configured_limit <? length records)%nat Outbox_BatchLimitExceeded;;
  validate_records checkpoint records.

Definition next_delay (current : N) (config : OutboxPublisherConfig) : N :=
  N.min (N.min (current * pc_retry_multiplier_millis config) u64_max / 1000)
        (pc_max_retry_delay_ms config).

(** The loop [for attempt in 1..=max_publish_attempts]; [remaining] counts the
    attempts that remain. *)
Fixpoint publish_attempts (record : OutboxRecord) (config : OutboxPublisherConfig)
    (remaining : nat) (attempt delay_ms : N) : publisher unit :=
  match remaining with
  | O => throw PublishAttemptsExhausted
  | S remaining =>
      Vis (Publish record) (λ answer,
        match answer return publisher unit with
        | Ok ack => if bool_decide (ack_event_id ack = ob_event_id record) then mret tt
                    else throw AcknowledgementMismatch
        | Err error =>
            if (attempt =? pc_max_publish_attempts config)%N then throw error
            else ask (Wait delay_ms);;
                 publish_attempts record config remaining (attempt + 1)%N (next_delay delay_ms config)
        | Panic s => Done (Panic s)
        end)
  end.
Definition publish_with_retry (record : OutboxRecord) (config : OutboxPublisherConfig) :
    publisher unit :=
  publish_attempts record config (N.to_nat (pc_max_publish_attempts config)) 1
    (pc_initial_retry_delay_ms config).

Fixpoint publish_records (config : OutboxPublisherConfig) (checkpoint : N)
    (records : list OutboxRecord) : publisher N :=
  match records with
  | [] => mret checkpoint
  | record :: records =>
      publish_with_retry record config;;
      try_ (Checkpoint checkpoint (ob_cursor record));;
      publish_records config (ob_cursor record) records
  end.

Definition run_once_with_config (initial_checkpoint : N) (config : OutboxPublisherConfig) :
    publisher PublishBatchOutcome :=
  records ← try_ (ReadAfter initial_checkpoint (pc_batch_size config));
  liftr (validate_batch records initial_checkpoint (pc_batch_size config));;
  checkpoint ← publish_records config initial_checkpoint records;
  mret (mkBatchOutcome (length records) checkpoint).

(** One turn of the worker loop, which starts from the stored checkpoint. *)
Definition outbox_turn (config : OutboxPublisherConfig) : publisher PublishBatchOutcome :=
  checkpoint ← try_ PublisherCheckpoint;
  run_once_with_config checkpoint config.

(** The loop itself: a failed turn is logged and the next one starts. *)
Fixpoint outbox_worker (config : OutboxPublisherConfig) (turns : nat) : prog outbox_op unit :=
  match turns with
  | O => Done tt
  | S turns => prog_bind (outbox_turn config) (λ _, outbox_worker config turns)
  end.

(** ** What the store promises *)

(** Records numbered [first], [first + 1], ... *)
Fixpoint numbered_from (first : N) (records : list OutboxRecord) : Prop :=
  match records with
  | [] => True
  | r :: records => ob_cursor r = first ∧ numbered_from (first + 1)%N records
  end.

Class LawfulOutbox (S : Type) `{OutboxStorePort S} := {
  outbox_log : S → list OutboxRecord;
  outbox_cursor : S → N;
  publisher_checkpoint_law s c : publisher_checkpoint s = Ok c → c = outbox_cursor s;
  read_after_law s c limit records :
    read_after s c limit = Ok records →
    records = take limit (List.filter (λ r, c <? ob_cursor r)%N (outbox_log s));
  checkpoint_law expected committed s s' r :
    checkpoint expected committed s = (s', r) →
    outbox_log s' = outbox_log s ∧
    match r with
    | Ok _ => outbox_cursor s = expected ∧ outbox_cursor s' = committed ∧
              (expected < committed ≤ N.of_nat (length (outbox_log s)))%N
    | _ => outbox_cursor s' = outbox_cursor s
    end }.

(** A store that answers: its operations fail on misuse only. *)
Class AvailableOutbox (S : Type) `{LawfulOutbox S} (up : S → Prop) := {
  publisher_checkpoint_up s : up s → ∃ c, publisher_checkpoint s = Ok c;
  read_after_up s c limit : up s → limit ≠ 0 → ∃ records, read_after s c limit = Ok records;
  checkpoint_up s committed :
    up s → (outbox_cursor s < committed ≤ N.of_nat (length (outbox_log s)))%N →
    ∃ s', checkpoint (outbox_cursor s) committed s = (s', Ok tt) ∧ up s' }.

(** ** Numbered logs *)
Lemma numbered_lookup first l i r :
  numbered_from first l → l !! i = Some r → ob_cursor r = (first + N.of_nat i)%N.
Proof.
  revert first i. induction l as [|r' l IH]; intros first [|i] Hnum Hi; simplify_eq/=; [lia|].
  destruct Hnum as [_ Hnum]. rewrite (IH _ i Hnum Hi). lia.
Qed.

Lemma numbered_bounds first l r :
  numbered_from first l → r ∈ l → (first ≤ ob_cursor r < first + N.of_nat (length l))%N.
Proof.
  intros Hnum [i Hi]%list_elem_of_lookup. rewrite (numbered_lookup _ _ _ _ Hnum Hi).
  apply lookup_lt_Some in Hi. lia.
Qed.

Lemma numbered_inj first l r r' :
  numbered_from first l → r ∈ l → r' ∈ l → ob_cursor r = ob_cursor r' → r = r'.
Proof.
  intros Hnum [i Hi]%list_elem_of_lookup [j Hj]%list_elem_of_lookup Heq.
  rewrite (numbered_lookup _ _ _ _ Hnum Hi), (numbered_lookup _ _ _ _ Hnum Hj) in Heq.
  replace j with i in Hj by lia. congruence.
Qed.

Lemma numbered_app first l1 l2 :
  numbered_from first (l1 ++ l2) ↔
  numbered_from first l1 ∧ numbered_from (first + N.of_nat (length l1)) l2.
Proof.
  revert first. induction l1 as [|r l1 IH]; intros first; simpl.
  - replace (first + N.of_nat 0)%N with first by lia. tauto.
  - rewrite IH. replace (first + 1 + N.of_nat (length l1))%N
      with (first + N.of_nat (Datatypes.S (length l1)))%N by lia. tauto.
Qed.

(** Reading after a cursor skips the records up to it. *)
Lemma numbered_filter first l c :
  numbered_from first l → (first ≤ c + 1)%N →
  List.filter (λ r, c <? ob_cursor r)%N l = drop (N.to_nat (c + 1 - first)) l.
Proof.
  revert first. induction l as [|r l IH]; intros first Hnum Hc; simpl.
  - by rewrite drop_nil.
  - destruct Hnum as [Hr Hnum]. rewrite Hr. destruct (N.ltb_spec c first).
    + replace (c + 1 - first)%N with 0%N by lia. simpl. f_equal. apply filter_all.
      intros r' Hr'. apply (numbered_bounds _ _ _ Hnum) in Hr'. apply N.ltb_lt. lia.
    + rewrite (IH _ Hnum) by lia.
      by replace (N.to_nat (c + 1 - first)) with (Datatypes.S (N.to_nat (c + 1 - (first + 1)))) by lia.
Qed.

Lemma numbered_drop l c :
  numbered_from 1 l → (c ≤ N.of_nat (length l))%N →
  numbered_from (c + 1) (drop (N.to_nat c) l).
Proof.
  intros Hnum Hc. rewrite <-(take_drop (N.to_nat c) l) in Hnum.
  apply numbered_app in Hnum as [_ Hnum]. rewrite length_take in Hnum.
  by replace (1 + N.of_nat (N.to_nat c `min` length l))%N with (c + 1)%N in Hnum by lia.
Qed.

Section world.
Context {S : Type} `{LawfulOutbox S}.
Context {B : Type} (broker : B → OutboxRecord → res OutboxError PublishAcknowledgement → B → Prop).

(** The store, the broker, every delivery with its answer, and the delays
    waited. *)
Record OutboxWorld := mkOutboxWorld {
  ow_store : S;
  ow_broker : B;
  ow_deliveries : list (OutboxRecord * res OutboxError PublishAcknowledgement);
  ow_waits : list N }.

Definition outbox_handle X (op : outbox_op X) (w : OutboxWorld) : X → OutboxWorld → Prop :=
  match op in outbox_op X return X → OutboxWorld → Prop with
  | PublisherCheckpoint => λ x w', x = publisher_checkpoint (ow_store w) ∧ w' = w
  | ReadAfter c limit => λ x w', x = read_after (ow_store w) c limit ∧ w' = w
  | Checkpoint expected committed => λ x w', ∃ s',
      checkpoint expected committed (ow_store w) = (s', x) ∧
      w' = mkOutboxWorld s' (ow_broker w) (ow_deliveries w) (ow_waits w)
  | Publish r => λ x w', ∃ b',
      broker (ow_broker w) r x b' ∧
      w' = mkOutboxWorld (ow_store w) b' (ow_deliveries w ++ [(r, x)]) (ow_waits w)
  | Wait ms => λ _ w',
      w' = mkOutboxWorld (ow_store w) (ow_broker w) (ow_deliveries w) (ow_waits w ++ [ms])
  end.

(** Commits append to the log while publishers run. *)
Definition outbox_grows (w w' : OutboxWorld) : Prop :=
  ∃ new, outbox_log (ow_store w') = outbox_log (ow_store w) ++ new ∧
    numbered_from (N.of_nat (length (outbox_log (ow_store w))) + 1) new ∧
    outbox_cursor (ow_store w') = outbox_cursor (ow_store w) ∧
    ow_deliveries w' = ow_deliveries w.

(** The broker has acknowledged [r] among the deliveries [l]. *)
Definition acknowledged (l : list (OutboxRecord * res OutboxError PublishAcknowledgement))
    (r : OutboxRecord) : Prop := (r, Ok (mkAck (ob_event_id r))) ∈ l.

Record outbox_inv (w : OutboxWorld) : Prop := {
  oi_numbered : numbered_from 1 (outbox_log (ow_store w));
  oi_cursor : (outbox_cursor (ow_store w) ≤ N.of_nat (length (outbox_log (ow_store w))))%N;
  oi_acknowledged r : r ∈ outbox_log (ow_store w) → (ob_cursor r ≤ outbox_cursor (ow_store w))%N →
    acknowledged (ow_deliveries w) r;
  oi_order l1 r x l2 : ow_deliveries w = l1 ++ (r, x) :: l2 →
    r ∈ outbox_log (ow_store w) ∧
    ∀ r', r' ∈ outbox_log (ow_store w) → (ob_cursor r' < ob_cursor r)%N → acknowledged l1 r' }.

Definition outbox_rely (w w' : OutboxWorld) : Prop :=
  outbox_log (ow_store w) `prefix_of` outbox_log (ow_store w') ∧
  (outbox_cursor (ow_store w) ≤ outbox_cursor (ow_store w'))%N ∧
  ow_deliveries w `prefix_of` ow_deliveries w'.

#[local] Instance outbox_rely_preorder : PreOrder outbox_rely.
Proof.
  split.
  - by intros w.
  - intros w1 w2 w3 (? & ? & ?) (? & ? & ?). split_and!; [by etrans|lia|by etrans].
Qed.

(** Everything up to [c] has been acknowledged. *)
Definition published_to (c : N) (w : OutboxWorld) : Prop :=
  (c ≤ N.of_nat (length (outbox_log (ow_store w))))%N ∧
  ∀ r, r ∈ outbox_log (ow_store w) → (ob_cursor r ≤ c)%N → acknowledged (ow_deliveries w) r.

Lemma log_prefix_below w w' r c :
  outbox_inv w' → outbox_log (ow_store w) `prefix_of` outbox_log (ow_store w') →
  (c ≤ N.of_nat (length (outbox_log (ow_store w))))%N →
  r ∈ outbox_log (ow_store w') → (ob_cursor r ≤ c)%N → r ∈ outbox_log (ow_store w).
Proof.
  intros HI [l Hl] Hc Hr Hcr. pose proof (oi_numbered _ HI) as Hnum. rewrite Hl in Hnum, Hr.
  apply elem_of_app in Hr as [|Hr]; [done|]. apply numbered_app in Hnum as [_ Hnum].
  apply (numbered_bounds _ _ _ Hnum) in Hr. lia.
Qed.

Lemma published_to_rely c w w' :
  published_to c w → outbox_rely w w' → outbox_inv w' → published_to c w'.
Proof.
  intros [Hlen Hack] (Hlog & _ & Hdel) HI. split.
  - apply prefix_length in Hlog. lia.
  - intros r Hr Hcr. eapply elem_of_prefix; [|done].
    apply Hack; [by eapply log_prefix_below|done].
Qed.

Lemma outbox_grows_safe w w' :
  outbox_grows w w' → outbox_inv w → outbox_inv w' ∧ outbox_rely w w'.
Proof.
  intros (new & Hlog & Hnew & Hcur & Hdel) HI.
  assert (numbered_from 1 (outbox_log (ow_store w'))) as Hnum.
  { rewrite Hlog, numbered_app. split; [apply HI|].
    by replace (1 + N.of_nat (length (outbox_log (ow_store w))))%N
      with (N.of_nat (length (outbox_log (ow_store w))) + 1)%N by lia. }
  assert (∀ r c, r ∈ outbox_log (ow_store w') →
    (ob_cursor r ≤ c)%N → (c ≤ N.of_nat (length (outbox_log (ow_store w))))%N →
    r ∈ outbox_log (ow_store w)) as Hold.
  { intros r c Hr Hrc Hc. rewrite Hlog in Hr. apply elem_of_app in Hr as [|Hr]; [done|].
    apply (numbered_bounds _ _ _ Hnew) in Hr. lia. }
  split.
  - split; [done| | |].
    + rewrite Hcur, Hlog, length_app. pose proof (oi_cursor _ HI). lia.
    + rewrite Hcur, Hdel. intros r Hr Hrc. apply HI; [|done].
      eapply Hold; [done..|]. apply HI.
    + rewrite Hdel. intros l1 r x l2 Hl. destruct (oi_order _ HI _ _ _ _ Hl) as [Hr Hbefore].
      split; [rewrite Hlog; apply elem_of_app; by left|].
      intros r' Hr' Hlt. apply Hbefore; [|done]. eapply (Hold r' (ob_cursor r)); [done|lia|].
      pose proof (numbered_bounds _ _ _ (oi_numbered _ HI) Hr). lia.
  - split_and!; [rewrite Hlog; by eexists|lia|by rewrite Hdel].
Qed.

Abbreviation outbox_safe := (safe outbox_handle outbox_inv outbox_rely) (only parsing).

(** A publisher that has published everything up to [c] may publish the
    record after [c]. *)
Lemma publish_attempts_safe c config r remaining attempt delay w :
  published_to c w → r ∈ outbox_log (ow_store w) → ob_cursor r = (c + 1)%N →
  outbox_safe (λ a w', match a with Ok _ => published_to (c + 1) w' | _ => True end)
    (publish_attempts r config remaining attempt delay) w.
Proof.
  revert attempt delay w. induction remaining as [|remaining IH]; intros attempt delay w Hc Hr Hcur;
    [done|]. simpl.
  intros w1 Hw1 HI1 x w2 (b' & Hbroker & ->).
  pose proof (published_to_rely _ _ _ Hc Hw1 HI1) as Hc1.
  assert (r ∈ outbox_log (ow_store w1)) as Hr1 by (eapply elem_of_prefix; [done|apply Hw1]).
  assert (outbox_rely w1 (mkOutboxWorld (ow_store w1) b' (ow_deliveries w1 ++ [(r, x)]) (ow_waits w1)))
    as Hrely by (split_and!; [done..|by eexists]).
  assert (outbox_inv (mkOutboxWorld (ow_store w1) b' (ow_deliveries w1 ++ [(r, x)]) (ow_waits w1)))
    as HI2.
  { split; simpl; [apply HI1|apply HI1| |].
    - intros r' ? ?. apply elem_of_app. left. by apply HI1.
    - intros l1 r' x' l2 Hl. destruct l2 as [|y l2 _] using rev_ind.
      + apply app_inj_tail in Hl as [<- [= <- <-]]. split; [done|]. intros r' Hr' Hlt.
        apply Hc1; [done|lia].
      + rewrite app_comm_cons, app_assoc in Hl. apply app_inj_tail in Hl as [Hl _].
        by apply (oi_order _ HI1 _ _ _ _ Hl). }
  split_and!; [done..|].
  destruct x as [ack|e|s]; [|destruct (_ =? _)%N|]; [| | |done].
  - case_bool_decide as Hack; [|done]. simpl. intros w3 Hw3 HI3.
    assert (published_to (c + 1) (mkOutboxWorld (ow_store w1) b'
      (ow_deliveries w1 ++ [(r, Ok ack)]) (ow_waits w1))) as Hc2.
    { split; simpl.
      - pose proof (numbered_bounds _ _ _ (oi_numbered _ HI1) Hr1). lia.
      - intros r' Hr' Hle. apply elem_of_app. destruct (decide (ob_cursor r' ≤ c)%N).
        + left. by apply Hc1.
        + right. rewrite (numbered_inj _ _ r' r (oi_numbered _ HI1)) by (done || lia).
          apply list_elem_of_singleton. destruct ack; simpl in *; congruence. }
    by eapply published_to_rely.
  - done.
  - simpl. intros w3 Hw3 HI3 _ w4 ->. split_and!.
    + by destruct HI3.
    + done.
    + apply IH; [|eapply elem_of_prefix; [exact Hr1|]; apply Hw3|done].
      eapply (published_to_rely c w1); [done| |by destruct HI3].
      etrans; [exact Hrely|]. etrans; [exact Hw3|]. done.
Qed.

Definition batch_post (a : res OutboxError N) (w : OutboxWorld) : Prop :=
  match a with Ok c => published_to c w | _ => True end.

Lemma publish_records_safe config c records w :
  published_to c w → numbered_from (c + 1) records →
  Forall (λ r, r ∈ outbox_log (ow_store w)) records →
  outbox_safe batch_post (publish_records config c records) w.
Proof.
  revert c w. induction records as [|r records IH]; intros c w Hc Hnum Hin.
  - intros w' Hw' HI'. by eapply published_to_rely.
  - destruct Hnum as [Hr Hnum]. apply Forall_cons in Hin as [Hrin Hin]. simpl.
    apply safe_bind; [apply _|]. eapply safe_mono; [apply _| |by apply (publish_attempts_safe c)].
    intros [[]|e|s] w1 Hw1 Hc1; [|done..].
    apply safe_try. intros w2 Hw2 HI2 x w3 (s' & Hck & ->).
    destruct (checkpoint_law _ _ _ _ _ Hck) as [Hlog Hx].
    pose proof (published_to_rely _ _ _ Hc1 Hw2 HI2) as Hc2.
    set (w3 := mkOutboxWorld s' _ _ _).
    assert (outbox_cursor (ow_store w2) ≤ outbox_cursor s' ∧
      outbox_cursor s' ≤ N.of_nat (length (outbox_log (ow_store w2))) ∧
      ∀ r', r' ∈ outbox_log (ow_store w2) → (ob_cursor r' ≤ outbox_cursor s')%N →
        acknowledged (ow_deliveries w2) r')%N as (Hcur & Hlen & Hack).
    { destruct x as [u| |]; [|rewrite Hx; split_and!; [lia|apply HI2|apply HI2]..].
      destruct Hx as (Hx1 & Hx2 & ?). rewrite Hx1, Hx2, Hr in *. split_and!; [lia..|apply Hc2]. }
    assert (outbox_rely w2 w3) as Hrely3.
    { split_and!; simpl; [by rewrite Hlog|done|done]. }
    assert (outbox_inv w3) as HI3.
    { split; simpl; rewrite ?Hlog; [apply HI2|done|done|apply HI2]. }
    split_and!; [done..|]. destruct x; [|done..].
    replace (ob_cursor r) with (c + 1)%N. apply IH.
    + by eapply published_to_rely.
    + done.
    + eapply Forall_impl; [done|]. intros r' Hr'. eapply elem_of_prefix; [exact Hr'|].
      apply (transitivity (transitivity Hw1 Hw2) Hrely3).
Qed.

(** One turn is safe next to anything, and what it reports as its
    checkpoint has been published. *)
Lemma outbox_turn_safe config w :
  outbox_safe (λ a w', match a with Ok o => published_to (bo_checkpoint o) w' | _ => True end)
    (outbox_turn config) w.
Proof.
  apply safe_try. intros w1 _ HI1 x _ (-> & ->). split_and!; [done..|].
  destruct (publisher_checkpoint _) as [c|e|s] eqn:Hc; [|done..].
  apply publisher_checkpoint_law in Hc as ->.
  set (c := outbox_cursor (ow_store w1)).
  assert (published_to c w1) as Hpub by (split; apply HI1).
  apply safe_try. intros w2 Hw2 HI2 x _ (-> & ->). split_and!; [done..|].
  destruct (read_after _ _ _) as [records|e|s] eqn:Hread; [|done..].
  apply read_after_law in Hread as ->.
  pose proof (published_to_rely _ _ _ Hpub Hw2 HI2) as Hpub2.
  apply safe_bind; [apply _|]. intros w3 Hw3 HI3. destruct (validate_batch _ _ _) as [[]|e|s]; [|done..].
  apply safe_bind; [apply _|]. eapply safe_mono; [apply _| |apply publish_records_safe].
  - intros [c'|e|s] w4 Hw4 Hpost; [|done..]. intros w5 Hw5 HI5. simpl in *.
    by eapply published_to_rely.
  - by eapply published_to_rely.
  - rewrite (numbered_filter 1) by (apply HI2 || lia).
    replace (N.to_nat (c + 1 - 1)) with (N.to_nat c) by lia.
    pose proof (numbered_drop _ c (oi_numbered _ HI2) (proj1 Hpub2)) as Hnum.
    rewrite <-(take_drop (pc_batch_size config) (drop _ _)) in Hnum.
    by apply numbered_app in Hnum as [Hnum _].
  - apply Forall_forall. intros r Hr. eapply elem_of_prefix; [|apply Hw3].
    apply elem_of_take in Hr as (i & Hi & _).
    apply list_elem_of_lookup_2, list_elem_of_In, filter_In in Hi as [Hi _]. by apply list_elem_of_In.
Qed.

Lemma outbox_worker_safe config turns w :
  outbox_safe (λ _ _, True) (outbox_worker config turns) w.
Proof.
  revert w. induction turns as [|turns IH]; intros w; [done|].
  apply safe_bind; [apply _|]. eapply safe_mono; [apply _| |apply outbox_turn_safe]. intros a w' _ _.
  apply IH.
Qed.

Lemma outbox_inv_start w :
  numbered_from 1 (outbox_log (ow_store w)) → outbox_cursor (ow_store w) = 0%N →
  ow_deliveries w = [] → outbox_inv w.
Proof.
  intros Hnum Hcur Hdel. split; [done|lia| |].
  - intros r Hr Hle. apply (numbered_bounds _ _ _ Hnum) in Hr. lia.
  - rewrite Hdel. intros l1 r x l2 Hl. by destruct l1.
Qed.

(** Publishers and commits keep the invariant, in any interleaving. *)
Lemma outbox_pool_inv w ps w' :
  outbox_inv w →
  rtc (pool_step outbox_handle outbox_grows (λ p, ∃ config turns, p = outbox_worker config turns))
    ([], w) (ps, w') → outbox_inv w'.
Proof.
  intros HI Hrun.
  destruct (pool_safe outbox_handle outbox_inv outbox_rely (λ _ _, True) outbox_grows
    (λ p, ∃ config turns, p = outbox_worker config turns) [] w ps w') as (HI' & _); [..|done].
  - apply outbox_grows_safe.
  - intros p w1 (config & turns & ->) _. apply outbox_worker_safe.
  - constructor.
  - done.
  - done.
Qed.

(** ** Progress *)

(** The broker acknowledges [r] within [n] attempts. *)
Fixpoint answers (n : nat) (r : OutboxRecord) (b : B) : Prop :=
  match n with
  | O => False
  | Datatypes.S n => ∀ x b', broker b r x b' →
      match x with
      | Ok ack => ack_event_id ack = ob_event_id r
      | Err _ => answers n r b'
      | Panic _ => False
      end
  end.

Definition publishable (r : OutboxRecord) : bool :=
  negb (bool_decide (ob_event_id r = "")) && negb (bool_decide (ob_payload r = "")).

Lemma validate_numbered c records :
  numbered_from (c + 1) records → forallb publishable records = true →
  validate_records c records = Ok tt.
Proof.
  revert c. induction records as [|r records IH]; intros c; simpl; [done|].
  intros [Hr Hnum] [Hp Hps]%andb_true_iff. unfold publishable in Hp.
  apply andb_true_iff in Hp as [->%negb_true_iff ->%negb_true_iff].
  rewrite (proj2 (N.leb_gt _ _)) by lia. simpl. rewrite Hr. by apply IH.
Qed.

(** Under such a broker a record is published, and the store stays as it is. *)
Lemma publish_attempts_answered config r remaining attempt delay w a w' :
  (attempt + N.of_nat remaining = pc_max_publish_attempts config + 1)%N →
  answers remaining r (ow_broker w) →
  exec outbox_handle (publish_attempts r config remaining attempt delay) w a w' →
  a = Ok tt ∧ ow_store w' = ow_store w.
Proof.
  revert attempt delay w. induction remaining as [|n IH]; intros attempt delay w Hn Hans Hrun; [done|].
  simpl in Hrun. destruct Hrun as (x & w1 & (b & Hb & ->) & Hrun). specialize (Hans x b Hb).
  destruct x as [ack|e|s]; [| |done].
  - rewrite bool_decide_true in Hrun by done. by destruct Hrun as [<- ->].
  - destruct (N.eqb_spec attempt (pc_max_publish_attempts config)) as [->|Hne].
    { by replace n with 0%nat in Hans by lia. }
    simpl in Hrun. destruct Hrun as (_ & w2 & -> & Hrun).
    by apply IH in Hrun; [|lia|done].
Qed.

Context (up : S → Prop) `{!AvailableOutbox S up}.

Lemma publish_records_complete config c records w a w' :
  (∀ r b, answers (N.to_nat (pc_max_publish_attempts config)) r b) →
  up (ow_store w) → outbox_cursor (ow_store w) = c → numbered_from (c + 1) records →
  (c + N.of_nat (length records) ≤ N.of_nat (length (outbox_log (ow_store w))))%N →
  exec outbox_handle (publish_records config c records) w a w' →
  let c' := (c + N.of_nat (length records))%N in
  a = Ok c' ∧ outbox_cursor (ow_store w') = c' ∧ up (ow_store w') ∧
  outbox_log (ow_store w') = outbox_log (ow_store w).
Proof using Type*.
  intros Hans. revert c w. induction records as [|r records IH]; intros c w Hup Hc Hnum Hlen Hrun.
  - destruct Hrun as [<- ->]. simpl. replace (c + N.of_nat 0)%N with c by lia. done.
  - destruct Hnum as [Hr Hnum]. simpl in Hlen, Hrun.
    apply exec_bind in Hrun as (x & w1 & Hpub & Hrun).
    apply publish_attempts_answered in Hpub as [-> Hstore]; [|lia|apply Hans].
    simpl in Hrun. destruct Hrun as (y & w2 & (s' & Hck & ->) & Hrun).
    destruct (checkpoint_up (ow_store w1) (ob_cursor r)) as (s2 & Hck2 & Hup2);
      [by rewrite Hstore|rewrite Hstore; lia|].
    replace (outbox_cursor (ow_store w1)) with c in Hck2 by congruence.
    rewrite Hck in Hck2. injection Hck2 as <- ->.
    destruct (checkpoint_law _ _ _ _ _ Hck) as (Hlog & _ & Hcur & _). rewrite Hr in *.
    apply IH in Hrun; simpl in *; rewrite ?Hcur, ?Hlog, ?Hstore; [|done..|lia].
    replace (c + N.of_nat (Datatypes.S (length records)))%N
      with (c + 1 + N.of_nat (length records))%N by lia.
    rewrite Hlog, Hstore in Hrun. done.
Qed.

Lemma validate_batch_take config c l :
  numbered_from 1 l → (c ≤ N.of_nat (length l))%N → forallb publishable l = true →
  validate_batch (take (pc_batch_size config) (drop (N.to_nat c) l)) c (pc_batch_size config)
    = Ok tt.
Proof.
  intros Hnum Hc Hl. unfold validate_batch.
  rewrite (proj2 (Nat.ltb_ge _ _)) by (rewrite length_take; lia). simpl. apply validate_numbered.
  - pose proof (numbered_drop _ c Hnum Hc) as Hdrop.
    rewrite <-(take_drop (pc_batch_size config) (drop _ _)) in Hdrop.
    by apply numbered_app in Hdrop as [Hdrop _].
  - rewrite forallb_forall in *. intros r Hr. apply Hl. apply list_elem_of_In in Hr.
    apply elem_of_take in Hr as (i & Hi & _). rewrite lookup_drop in Hi.
    by eapply list_elem_of_In, list_elem_of_lookup_2.
Qed.

Lemma outbox_turn_complete config w a w' :
  (∀ r b, answers (N.to_nat (pc_max_publish_attempts config)) r b) → pc_batch_size config ≠ 0 →
  forallb publishable (outbox_log (ow_store w)) = true →
  outbox_inv w → up (ow_store w) →
  exec outbox_handle (outbox_turn config) w a w' →
  let log := outbox_log (ow_store w) in
  let c' := N.min (outbox_cursor (ow_store w) + N.of_nat (pc_batch_size config))
                  (N.of_nat (length log)) in
  outbox_cursor (ow_store w') = c' ∧ up (ow_store w') ∧ outbox_log (ow_store w') = log.
Proof using Type*.
  intros Hans Hbatch Hpub HI Hup Hrun log. pose proof (oi_cursor _ HI) as Hc. fold log in Hc.
  pose proof (oi_numbered _ HI) as Hnum. fold log in Hnum.
  destruct Hrun as (x & w1 & (-> & ->) & Hrun).
  destruct (publisher_checkpoint_up (ow_store w) Hup) as [c Ec]. rewrite Ec in Hrun.
  apply publisher_checkpoint_law in Ec. subst c. simpl in Hrun.
  destruct Hrun as (x & w1 & (-> & ->) & Hrun).
  destruct (read_after_up (ow_store w) (outbox_cursor (ow_store w)) (pc_batch_size config) Hup Hbatch)
    as [records Er]. rewrite Er in Hrun. apply read_after_law in Er.
  fold log in Er. rewrite (numbered_filter 1) in Er by (done || lia).
  replace (N.to_nat (_ + 1 - 1)) with (N.to_nat (outbox_cursor (ow_store w))) in Er by lia.
  simpl in Hrun. rewrite Er, validate_batch_take, <-Er in Hrun by done.
  apply exec_bind in Hrun as (u & w1 & [<- ->] & Hrun).
  apply exec_bind in Hrun as (b & w2 & Hrecords & Hrun).
  assert (length records = pc_batch_size config `min`
    (length log - N.to_nat (outbox_cursor (ow_store w)))) as Hlen
    by (by rewrite Er, length_take, length_drop).
  apply publish_records_complete in Hrecords as (-> & Hcur & Hup2 & Hlog);
    [|done..| |rewrite Hlen; fold log; lia].
  - destruct Hrun as [_ ->]. rewrite Hcur, Hlen. split_and!; [lia|done..].
  - rewrite Er. pose proof (numbered_drop _ _ Hnum Hc) as Hdrop.
    rewrite <-(take_drop (pc_batch_size config) (drop _ _)) in Hdrop.
    by apply numbered_app in Hdrop as [Hdrop _].
Qed.

Lemma outbox_worker_complete config turns w w' :
  (∀ r b, answers (N.to_nat (pc_max_publish_attempts config)) r b) → pc_batch_size config ≠ 0 →
  forallb publishable (outbox_log (ow_store w)) = true →
  outbox_inv w → up (ow_store w) →
  exec outbox_handle (outbox_worker config turns) w tt w' →
  let log := outbox_log (ow_store w) in
  outbox_inv w' ∧ outbox_log (ow_store w') = log ∧
  outbox_cursor (ow_store w') =
    N.min (outbox_cursor (ow_store w) + N.of_nat (turns * pc_batch_size config))
          (N.of_nat (length log)).
Proof using Type*.
  intros Hans Hbatch. revert w. induction turns as [|turns IH]; intros w Hpub HI Hup Hrun log.
  - destruct Hrun as [_ ->]. split_and!; [done..|]. pose proof (oi_cursor _ HI) as Hc.
    fold log in Hc. rewrite Nat.mul_0_l. lia.
  - apply exec_bind in Hrun as (a & w1 & Hturn & Hrun).
    destruct (safe_exec _ _ _ _ _ _ _ _ (outbox_turn_safe config w) HI Hturn) as (HI1 & _ & _).
    apply outbox_turn_complete in Hturn as (Hcur & Hup1 & Hlog); [|done..].
    apply IH in Hrun as (HI' & Hlog' & Hcur'); [|by rewrite ?Hlog..].
    split_and!; [done|by rewrite Hlog', Hlog|]. rewrite Hcur', Hcur, Hlog. fold log.
    rewrite Nat.mul_succ_l. lia.
Qed.

End world.
Arguments OutboxWorld : clear implicits.
