(* ===== verification/BoundaryTimer.v ===== *)
(** * Timer expressions of boundary events

    The timer part of [apps/rust/bpmp-engine/src/boundary_runtime.rs]:
    ISO 8601 durations, repeating intervals and dates, and the schedule of an
    armed timer. Dates are parsed by the package [time], a parameter here.
    [duration_text] is a grammar of durations and [parse_duration_exact] shows
    that the parser accepts exactly its texts, with their value. *)

From S2P Require Import Prelude Types Config Text Outbox.
From Stdlib Require Import Ascii.
From stdpp Require Import options.

Inductive BoundaryRuntimeError :=
| Boundary_PolicyUnavailable
| Boundary_Outbox (error : OutboxError)
| Boundary_CorruptEvent (detail : string)
| Boundary_EventScopeMismatch
| Boundary_AdapterBatchLimitExceeded
| NonContiguousProjection
| ProjectionCursorOverflow
| ProjectionCheckpointConflict
| TimerExpressionTooLarge
| InvalidTimerExpression
| TimerHorizonExceeded
| TimerOverflow
| ClaimWithoutTimer
| InvalidSignalId
| InvalidSignalReference
| InvalidAuthorizationContextReference
| SignalConflict
| AmbiguousCorrelation
| CorrelationScanLimitExceeded
| LeaseConflict
| Boundary_Clock (detail : string)
| ClockOverflow
| InvalidDispatchIdentity
| DefinitionScopeMismatch
| DefinitionUnavailable (detail : string)
| InvalidDispatchCredentials
| Boundary_Dispatch (detail : string)
| Boundary_Store (detail : string).

Abbreviation boundary_res := (res BoundaryRuntimeError) (only parsing).

Record TimerSchedule := mkSchedule {
  ts_due_at_epoch_ms : N;
  ts_interval_ms : option N;
  ts_remaining_firings : option N }.

(** ** Numbers *)

(** [str::parse] for an unsigned type with the given maximum: an optional
    plus sign and at least one digit. *)
Definition parse_unsigned (max : N) (s : string) : option N :=
  let digits := match s with String "+" s => s | _ => s end in
  match digits with
  | "" => None
  | _ => n ← parse_digits 0 digits; if (n <=? max)%N then Some n else None
  end.
Definition parse_u64 : string → option N := parse_unsigned u64_max.
Definition parse_u32 : string → option N := parse_unsigned u32_max.

Definition checked_mul (max a b : N) : option N :=
  if (a * b <=? max)%N then Some (a * b)%N else None.

(** [str::split_once] at an ASCII character. *)
Fixpoint split_once (c : ascii) (s : string) : option (string * string) :=
  match s with
  | "" => None
  | String a s =>
      if bool_decide (a = c) then Some ("", s)
      else '(whole, rest) ← split_once c s; Some (String a whole, rest)
  end.

(** [str::split] at an ASCII character. *)
Fixpoint split_at (c : ascii) (s : string) : list string :=
  match s with
  | "" => [""]
  | String a s =>
      if bool_decide (a = c) then "" :: split_at c s
      else match split_at c s with
           | part :: parts => String a part :: parts
           | [] => []
           end
  end.

(** ** Durations *)
Definition decimal_component_ms (value : string) (unit_ms : N) : boundary_res N :=
  match split_once "." value with
  | None =>
      n ← ok_or (parse_u64 value) InvalidTimerExpression;
      ok_or (checked_mul u64_max n unit_ms) TimerOverflow
  | Some (whole, fraction) =>
      bail_if (bool_decide (whole = "") || bool_decide (fraction = "")
               || (9 <? String.length fraction)%nat) InvalidTimerExpression;;
      n ← ok_or (parse_u64 whole) InvalidTimerExpression;
      whole_ms ← ok_or (checked_mul u64_max n unit_ms) TimerOverflow;
      exponent ← ok_or (u32_of_usize (String.length fraction)) InvalidTimerExpression;
      denominator ← ok_or (if (10 ^ exponent <=? u64_max)%N then Some (10 ^ exponent)%N else None)
        TimerOverflow;
      f ← ok_or (parse_u64 fraction) InvalidTimerExpression;
      scaled ← ok_or (checked_mul u64_max f unit_ms) TimerOverflow;
      ok_or (checked_add u64_max whole_ms (scaled / denominator)%N) TimerOverflow
  end.

(** The unit of a designator, before and after the [T]. *)
Definition unit_ms (character : ascii) (in_time : bool) : option N :=
  match character, in_time with
  | "W"%char, false => Some (7 * 24 * 60 * 60 * 1000)%N
  | "D"%char, false => Some (24 * 60 * 60 * 1000)%N
  | "H"%char, true => Some (60 * 60 * 1000)%N
  | "M"%char, true => Some (60 * 1000)%N
  | "S"%char, true => Some 1000%N
  | _, _ => None
  end.

Definition is_number_char (c : ascii) : bool := is_some (Ascii.is_nat c) || bool_decide (c = "."%char).

(** The loop over the characters; [number] is the text from [number_start] to
    the current index. The source walks over characters and this over bytes:
    a character that is not ASCII ends the loop with the same error as its
    first byte. *)
Fixpoint duration_loop (in_time : bool) (number : string) (total_ms : N) (rest : string) :
    boundary_res N :=
  match rest with
  | "" =>
      bail_if (negb (bool_decide (number = "")) || (total_ms =? 0)%N) InvalidTimerExpression;;
      Ok total_ms
  | String character rest =>
      if bool_decide (character = "T"%char) then
        bail_if (negb (bool_decide (number = ""))) InvalidTimerExpression;;
        duration_loop true "" total_ms rest
      else if is_number_char character then
        duration_loop in_time (number +:+ String character "") total_ms rest
      else
        bail_if (bool_decide (number = "")) InvalidTimerExpression;;
        unit ← ok_or (unit_ms character in_time) InvalidTimerExpression;
        component ← decimal_component_ms number unit;
        total_ms ← ok_or (checked_add u64_max total_ms component) TimerOverflow;
        duration_loop in_time "" total_ms rest
  end.

Definition parse_duration_ms (expression : string) : boundary_res N :=
  rest ← ok_or (strip_prefix "P" (trim expression)) InvalidTimerExpression;
  bail_if (bool_decide (rest = "") || contains "Y" rest) InvalidTimerExpression;;
  duration_loop false "" 0 rest.

(** ** Dates and cycles *)
Section dates.
(** [OffsetDateTime::parse] with RFC 3339, as nanoseconds since the epoch. *)
Context (parse_rfc3339 : string → option Z).

Definition parse_date (expression : string) : boundary_res N :=
  parsed ← ok_or (parse_rfc3339 (trim expression)) InvalidTimerExpression;
  let millis := (parsed / 1000000)%Z in
  bail_if ((millis <? 0) || (Z.of_N u64_max <? millis))%Z InvalidTimerExpression;;
  Ok (Z.to_N millis).

Definition parse_firings (repeat : string) : boundary_res (option N) :=
  if bool_decide (repeat = "R") then Ok None
  else
    count ← ok_or (parse_u32 (default "" (strip_prefix "R" repeat))) InvalidTimerExpression;
    bail_if (count =? 0)%N InvalidTimerExpression;;
    Ok (Some count).

Definition parse_cycle (expression : string) (armed_at_epoch_ms : N) : boundary_res TimerSchedule :=
  let schedule repeat due duration :=
    remaining_firings ← parse_firings repeat;
    interval ← parse_duration_ms duration;
    due_at_epoch_ms ← due interval;
    Ok (mkSchedule due_at_epoch_ms (Some interval) remaining_firings) in
  match split_at "/" (trim expression) with
  | [repeat; duration] =>
      bail_if (negb (is_some (strip_prefix "R" repeat))) InvalidTimerExpression;;
      schedule repeat (λ interval,
        ok_or (checked_add u64_max armed_at_epoch_ms interval) TimerOverflow) duration
  | [repeat; start; duration] =>
      bail_if (negb (is_some (strip_prefix "R" repeat))) InvalidTimerExpression;;
      schedule repeat (λ _,
        date ← parse_date start; Ok (N.max date armed_at_epoch_ms)) duration
  | _ => Err InvalidTimerExpression
  end.

(** ** The schedule of an armed boundary event *)
Definition timer_schedule (trigger : BoundaryTrigger) (armed_at_epoch_ms : N)
    (policy : BoundaryRuntimePolicy) : boundary_res (option TimerSchedule) :=
  match trigger with
  | Trigger_Timer kind expression =>
      bail_if (br_max_expression_bytes policy <? N.of_nat (String.length expression))%N
        TimerExpressionTooLarge;;
      schedule ←
        match kind with
        | Date =>
            date ← parse_date expression;
            Ok (mkSchedule (N.max date armed_at_epoch_ms) None (Some 1%N))
        | Duration =>
            duration ← parse_duration_ms expression;
            due ← ok_or (checked_add u64_max armed_at_epoch_ms duration) TimerOverflow;
            Ok (mkSchedule due None (Some 1%N))
        | Cycle => parse_cycle expression armed_at_epoch_ms
        end;
      let horizon := (ts_due_at_epoch_ms schedule - armed_at_epoch_ms)%N in
      bail_if ((br_max_timer_horizon_ms policy <? horizon)
               || match ts_interval_ms schedule with
                  | Some interval => br_max_timer_horizon_ms policy <? interval
                  | None => false
                  end)%N TimerHorizonExceeded;;
      Ok (Some schedule)
  | _ => Ok None
  end.
End dates.

(** ** The grammar of durations *)
Definition digits (s : string) : option N :=
  match s with "" => None | _ => parse_digits 0 s end.

(** The value of a number with a unit, in whole milliseconds. *)
Definition component_value (number : string) (unit : N) : option N :=
  match split_once "." number with
  | None => n ← digits number; Some (n * unit)%N
  | Some (whole, fraction) =>
      w ← digits whole; f ← digits fraction;
      let scale := (10 ^ N.of_nat (String.length fraction))%N in
      if (String.length fraction <=? 9)%nat then Some ((w * scale + f) * unit / scale)%N else None
  end.

Fixpoint all_number (s : string) : bool :=
  match s with "" => true | String c s => is_number_char c && all_number s end.

(** [duration_text in_time s ms]: the text [s] after the [P] stands for [ms]. *)
Inductive duration_text : bool → string → N → Prop :=
| duration_end in_time : duration_text in_time "" 0
| duration_time in_time s ms : duration_text true s ms → duration_text in_time (String "T" s) ms
| duration_component in_time number c unit v s ms :
    all_number number = true → unit_ms c in_time = Some unit → component_value number unit = Some v →
    duration_text in_time s ms → duration_text in_time (number +:+ String c s) (v + ms).

Lemma unit_ms_cases c b u :
  unit_ms c b = Some u →
  c ≠ "T"%char ∧ c ≠ "Y"%char ∧ is_number_char c = false ∧ (1 ≤ u ≤ 604800000)%N.
Proof.
  unfold unit_ms. intros H. repeat case_match; simplify_eq; vm_compute; naive_solver.
Qed.

Lemma parse_digits_bound acc s n :
  parse_digits acc s = Some n → (n < (acc + 1) * 10 ^ N.of_nat (String.length s))%N.
Proof.
  revert acc. induction s as [|a s IH]; intros acc; simpl.
  - intros [= <-]. change (10 ^ 0)%N with 1%N. lia.
  - destruct (Ascii.is_nat a) as [d|] eqn:Hd; [|done]. intros H%IH.
    assert (d < 10) as Hd10 by (clear -Hd; destruct a as [[] [] [] [] [] [] [] []]; vm_compute in Hd; simplify_eq; lia).
    replace (N.of_nat (S (String.length s))) with (N.succ (N.of_nat (String.length s))) by lia.
    rewrite N.pow_succ_r'. nia.
Qed.

Lemma all_number_app s t : all_number (s +:+ t) = all_number s && all_number t.
Proof.
  induction s as [|a s IH]; [done|].
  change (is_number_char a && all_number (s +:+ t) = is_number_char a && all_number s && all_number t).
  rewrite IH. by destruct (is_number_char a).
Qed.

Lemma split_once_number s whole fraction :
  all_number s = true → split_once "." s = Some (whole, fraction) →
  all_number whole = true ∧ all_number fraction = true.
Proof.
  revert whole. induction s as [|a s IH]; intros whole Hs Hsplit; simpl in *; [done|].
  apply andb_true_iff in Hs as [Ha Hs]. case_bool_decide; simplify_eq/=; [done|].
  destruct (split_once "." s) as [[w f]|] eqn:Hw; simplify_eq/=.
  destruct (IH w Hs eq_refl) as [??]. split; [|done]. simpl. by rewrite Ha.
Qed.

(** On digits and dots there is no sign to skip. *)
Lemma parse_u64_number s n :
  all_number s = true → parse_u64 s = Some n ↔ digits s = Some n ∧ (n ≤ u64_max)%N.
Proof.
  intros Hs. unfold parse_u64, parse_unsigned, digits.
  assert (match s with String "+" s0 => s0 | _ => s end = s) as ->.
  { destruct s as [|a s]; [done|]. simpl in Hs. apply andb_true_iff in Hs as [Ha _].
    destruct a as [[] [] [] [] [] [] [] []]; try done. }
  destruct s; [naive_solver|]. destruct (parse_digits _ _) as [m|]; [|naive_solver].
  cbn [mbind option_bind]. destruct (N.leb_spec m u64_max); [|naive_solver lia]. naive_solver.
Qed.

Lemma checked_mul_Some max a b c : checked_mul max a b = Some c ↔ c = (a * b)%N ∧ (c ≤ max)%N.
Proof. unfold checked_mul. destruct (N.leb_spec (a * b) max); naive_solver lia. Qed.

Lemma scaled_value w f unit scale :
  (scale ≠ 0)%N → ((w * scale + f) * unit / scale = w * unit + f * unit / scale)%N.
Proof.
  intros Hs. replace ((w * scale + f) * unit)%N with (w * unit * scale + f * unit)%N by lia.
  by rewrite N.div_add_l.
Qed.

Lemma scale_small k : k ≤ 9 → (10 ^ N.of_nat k ≤ 1000000000)%N ∧ (10 ^ N.of_nat k ≠ 0)%N.
Proof.
  intros Hk. split; [|by apply N.pow_nonzero].
  change 1000000000%N with (10 ^ 9)%N. apply N.pow_le_mono_r; lia.
Qed.

Lemma decimal_component_exact number unit v :
  all_number number = true → (1 ≤ unit ≤ 604800000)%N →
  decimal_component_ms number unit = Ok v ↔ component_value number unit = Some v ∧ (v ≤ u64_max)%N.
Proof.
  intros Hnum Hunit. unfold decimal_component_ms, component_value.
  destruct (split_once "." number) as [[whole fraction]|] eqn:Hsplit.
  - destruct (split_once_number _ _ _ Hnum Hsplit) as [Hw Hf]. split.
    + intros H. inv_res H.
      repeat match goal with
      | H : _ || _ = false |- _ => apply orb_false_iff in H as [? H]
      | H : (_ <? _)%nat = false |- _ => apply Nat.ltb_ge in H
      | H : parse_u64 _ = Some _ |- _ => apply parse_u64_number in H as [H ?]; [|done]
      | H : checked_mul _ _ _ = Some _ |- _ => apply checked_mul_Some in H as [-> ?]
      | H : checked_add _ _ _ = Some _ |- _ => apply checked_add_Some in H as [-> ?]
      | H : u32_of_usize _ = Some _ |- _ => apply u32_of_usize_Some in H as [-> ?]
      | H : (if _ then Some _ else None) = Some _ |- _ => apply if_Some_iff in H as [_ <-]
      end.
      match goal with H : String.length _ ≤ 9 |- _ => rename H into Hlen end.
      destruct (scale_small _ Hlen) as [_ Hscale].
      repeat match goal with H : digits _ = Some _ |- _ => rewrite H; clear H end.
      cbn [mbind option_bind]. apply Nat.leb_le in Hlen. rewrite Hlen, scaled_value by done. done.
    + intros [H Hv].
      destruct (digits whole) as [w|] eqn:Hdw; [|done]. destruct (digits fraction) as [f|] eqn:Hdf; [|done].
      cbn [mbind option_bind] in H. destruct (Nat.leb_spec (String.length fraction) 9) as [Hlen|]; [|done].
      destruct (scale_small _ Hlen) as [Hsmall Hscale]. rewrite scaled_value in H by done.
      injection H as <-.
      assert (w * unit ≤ u64_max)%N as Hw2.
      { etrans; [|exact Hv]. apply N.le_add_r. }
      assert (w ≤ u64_max)%N as Hw1 by nia.
      assert (f < 10 ^ N.of_nat (String.length fraction))%N as Hf1.
      { destruct fraction; [done|]. apply parse_digits_bound in Hdf. lia. }
      assert (f ≤ u64_max ∧ f * unit ≤ u64_max)%N as [Hf2 Hf3].
      { change u64_max with 18446744073709551615%N. nia. }
      apply bind_Ok. exists tt. split.
      { apply bail_if_Ok. rewrite !orb_false_iff. split_and!.
        - by destruct whole.
        - by destruct fraction.
        - by apply Nat.ltb_ge. }
      repeat (apply bind_Ok; eexists; split; [apply ok_or_Ok|]).
      * apply parse_u64_number; done.
      * by apply checked_mul_Some.
      * apply u32_of_usize_Some. split; [reflexivity|]. unfold u32_max. lia.
      * apply if_Some_iff. split; [|reflexivity]. apply N.leb_le. unfold u64_max. lia.
      * apply parse_u64_number; done.
      * by apply checked_mul_Some.
      * apply ok_or_Ok, checked_add_Some. done.
  - split.
    + intros H. inv_res H.
      repeat match goal with
      | H : parse_u64 _ = Some _ |- _ => apply parse_u64_number in H as [H ?]; [|done]
      | H : checked_mul _ _ _ = Some _ |- _ => apply checked_mul_Some in H as [-> ?]
      end.
      match goal with H : digits _ = Some _ |- _ => by rewrite H end.
    + intros [H Hv]. destruct (digits number) as [n|] eqn:Hd; [|done]. injection H as <-.
      apply bind_Ok. exists n. split.
      * apply ok_or_Ok, parse_u64_number; [done|]. split; [done|]. nia.
      * by apply ok_or_Ok, checked_mul_Some.
Qed.

Lemma duration_loop_number in_time acc total number c s :
  all_number number = true →
  duration_loop in_time acc total (number +:+ String c s) =
  duration_loop in_time (acc +:+ number) total (String c s).
Proof.
  revert acc. induction number as [|a number IH]; intros acc Hnum.
  - assert (acc +:+ "" = acc) as ->; [|done]. clear. induction acc as [|x acc IH]; [done|].
    change (String x (acc +:+ "") = String x acc). by rewrite IH.
  - simpl in Hnum. apply andb_true_iff in Hnum as [Ha Hnum].
    change (duration_loop in_time acc total (String a (number +:+ String c s)) =
            duration_loop in_time (acc +:+ String a number) total (String c s)).
    transitivity (duration_loop in_time (acc +:+ String a "") total (number +:+ String c s)).
    + cbn [duration_loop]. rewrite Ha, bool_decide_eq_false_2; [done|]. by intros ->.
    + rewrite IH by done. f_equal. apply append_assoc.
Qed.

Lemma duration_loop_sound in_time number total rest ms :
  all_number number = true → (total ≤ u64_max)%N →
  duration_loop in_time number total rest = Ok ms →
  ∃ n, duration_text in_time (number +:+ rest) n ∧ ms = (total + n)%N ∧ (0 < ms ≤ u64_max)%N.
Proof.
  revert in_time number total. induction rest as [|c rest IH]; intros in_time number total Hnum Hmax Hrun;
    cbn [duration_loop] in Hrun.
  - inv_res Hrun. match goal with H : _ || _ = false |- _ => apply orb_false_iff in H as [Hn Ht] end.
    apply N.eqb_neq in Ht.
    apply negb_false_iff, bool_decide_eq_true in Hn as ->.
    exists 0%N. split_and!; [constructor|lia..].
  - case_bool_decide as Hc; [|destruct (is_number_char c) eqn:Hnc].
    + subst c. inv_res Hrun.
      match goal with H : negb _ = false |- _ => apply negb_false_iff, bool_decide_eq_true in H as -> end.
      destruct (IH true "" total eq_refl Hmax Hrun) as (n & Htext & ? & ?).
      exists n. split; [by constructor|done].
    + assert (all_number (number +:+ String c "") = true) as Hnum'.
      { rewrite all_number_app, Hnum. cbn [all_number]. by rewrite Hnc. }
      destruct (IH _ _ _ Hnum' Hmax Hrun) as (n & Htext & ? & ?).
      exists n. rewrite append_assoc in Htext. done.
    + inv_res Hrun.
      match goal with H : unit_ms _ _ = Some _ |- _ => rename H into Hunit end.
      destruct (unit_ms_cases _ _ _ Hunit) as (_ & _ & _ & Hbound).
      match goal with H : decimal_component_ms _ _ = Ok _ |- _ =>
        apply decimal_component_exact in H as [Hval _]; [|done..] end.
      match goal with H : checked_add _ _ _ = Some _ |- _ => apply checked_add_Some in H as [-> Hsum] end.
      destruct (IH in_time "" _ eq_refl Hsum Hrun) as (n & Htext & -> & ?).
      eexists. split; [by eapply duration_component|]. split; [lia|done].
Qed.

Lemma duration_loop_complete in_time s n :
  duration_text in_time s n → ∀ total, (0 < total + n ≤ u64_max)%N →
  duration_loop in_time "" total s = Ok (total + n)%N.
Proof.
  induction 1 as [b|b s n _ IH|b number c unit v s n Hnum Hunit Hval _ IH]; intros total Hmax.
  - simpl. destruct (N.eqb_spec (total + 0) 0); [lia|]. replace (total + 0)%N with total in * by lia.
    destruct (N.eqb_spec total 0); [lia|done].
  - cbn [duration_loop]. rewrite bool_decide_eq_true_2 by done. simpl. by apply IH.
  - destruct (unit_ms_cases _ _ _ Hunit) as (HT & _ & Hnc & Hbound).
    rewrite duration_loop_number by done. change ("" +:+ number) with number. cbn [duration_loop].
    rewrite bool_decide_eq_false_2, Hnc by done.
    apply bind_Ok. exists tt. split.
    { apply bail_if_Ok, bool_decide_eq_false. intros ->. done. }
    rewrite Hunit. cbn [ok_or mbind res_bind].
    rewrite (proj2 (decimal_component_exact number unit v Hnum Hbound)) by (split; [done|lia]).
    cbn [mbind res_bind].
    rewrite (proj2 (checked_add_Some u64_max total v (total + v)%N)) by (split; [done|lia]).
    cbn [ok_or mbind res_bind]. rewrite IH by lia. f_equal. lia.
Qed.

Lemma duration_text_no_year in_time s n : duration_text in_time s n → contains "Y" s = false.
Proof.
  induction 1 as [b|b s n _ IH|b number c unit v s n Hnum Hunit Hval _ IH]; [done|done|].
  destruct (unit_ms_cases _ _ _ Hunit) as (_ & HY & _ & _). clear Hval.
  induction number as [|a number IHn].
  - simpl. by rewrite bool_decide_eq_false_2.
  - simpl in Hnum. apply andb_true_iff in Hnum as [Ha Hnum].
    change (bool_decide (a = "Y"%char) || contains "Y" (number +:+ String c s) = false).
    rewrite (IHn Hnum), bool_decide_eq_false_2; [done|]. by intros ->.
Qed.

Lemma strip_prefix_P s rest : strip_prefix "P" s = Some rest ↔ s = String "P" rest.
Proof.
  destruct s as [|a s]; simpl; [naive_solver|]. case_bool_decide; naive_solver.
Qed.

Lemma parse_duration_iff expression ms :
  parse_duration_ms expression = Ok ms ↔
  ∃ rest, trim expression = String "P" rest ∧ duration_text false rest ms ∧ (0 < ms ≤ u64_max)%N.
Proof.
  unfold parse_duration_ms. split.
  - intros H. apply bind_Ok in H as (rest & Hrest%ok_or_Ok%strip_prefix_P & H). inv_res H.
    destruct (duration_loop_sound false "" 0 _ _ eq_refl ltac:(done) H) as (n & Htext & -> & Hmax).
    exists rest. split_and!; [done|done|lia..].
  - intros (rest & Htrim & Htext & Hmax). apply bind_Ok. exists rest. split.
    { by apply ok_or_Ok, strip_prefix_P. }
    apply bind_Ok. exists tt. split.
    { apply bail_if_Ok. rewrite (duration_text_no_year _ _ _ Htext), orb_false_r.
      apply bool_decide_eq_false. intros ->. inversion Htext as [| |? number]; subst; [lia|].
      by destruct number. }
    by rewrite (duration_loop_complete _ _ _ Htext).
Qed.

(** ** What a schedule satisfies *)
Record schedule_ok (armed_at horizon : N) (s : TimerSchedule) : Prop := {
  so_due : (armed_at ≤ ts_due_at_epoch_ms s ≤ armed_at + horizon)%N;
  so_interval i : ts_interval_ms s = Some i → (0 < i ≤ horizon)%N;
  so_firings n : ts_remaining_firings s = Some n → (1 ≤ n ≤ u32_max)%N;
  so_once : ts_interval_ms s = None → ts_remaining_firings s = Some 1%N }.

Section schedules.
Context (parse_rfc3339 : string → option Z).

Lemma parse_u32_max s n : parse_u32 s = Some n → (n ≤ u32_max)%N.
Proof.
  unfold parse_u32, parse_unsigned. intros H. repeat case_match; simplify_eq/=.
  all: repeat match goal with H : (_ ≫= _) = Some _ |- _ => apply bind_Some in H as (? & _ & ?) end.
  all: by repeat case_match; simplify_eq/=; apply N.leb_le.
Qed.

Lemma parse_cycle_shape e armed s :
  parse_cycle parse_rfc3339 e armed = Ok s →
  (armed ≤ ts_due_at_epoch_ms s)%N ∧
  (∃ i, ts_interval_ms s = Some i ∧ (0 < i)%N) ∧
  ∀ n, ts_remaining_firings s = Some n → (1 ≤ n ≤ u32_max)%N.
Proof.
  assert (∀ r f, parse_firings r = Ok f → ∀ n, f = Some n → (1 ≤ n ≤ u32_max)%N) as Hfir.
  { unfold parse_firings. intros r f H. case_bool_decide; [by simplify_eq|]. inv_res H.
    intros n [= <-]. match goal with H : parse_u32 _ = Some _ |- _ => apply parse_u32_max in H end.
    match goal with H : (_ =? _)%N = false |- _ => apply N.eqb_neq in H end. lia. }
  unfold parse_cycle. intros H. destruct (split_at "/" (trim e)) as [|r [|d [|d' [|]]]]; try done.
  all: apply bind_Ok in H as ([] & _ & H); apply bind_Ok in H as (f & Hf & H);
    apply bind_Ok in H as (i & Hi & H); apply bind_Ok in H as (due & Hdue & H); injection H as <-;
    apply parse_duration_iff in Hi as (_ & _ & _ & Hi); simpl; split_and!;
    [|exists i; split; [done|lia]|by apply (Hfir _ _ Hf)].
  - apply ok_or_Ok, checked_add_Some in Hdue as [-> _]. lia.
  - inv_res Hdue. lia.
Qed.

Lemma timer_schedule_ok trigger armed policy s :
  timer_schedule parse_rfc3339 trigger armed policy = Ok (Some s) →
  schedule_ok armed (br_max_timer_horizon_ms policy) s.
Proof.
  destruct trigger as [kind e| |]; simpl; [|done..]. intros H.
  apply bind_Ok in H as ([] & _ & H). apply bind_Ok in H as (s' & Hs & H).
  apply bind_Ok in H as ([] & Hh%bail_if_Ok & [= ->]).
  apply orb_false_iff in Hh as [Hdue Hint]. apply N.ltb_ge in Hdue.
  assert ((armed ≤ ts_due_at_epoch_ms s)%N ∧
    (∀ i, ts_interval_ms s = Some i → (0 < i)%N) ∧
    (∀ n, ts_remaining_firings s = Some n → (1 ≤ n ≤ u32_max)%N) ∧
    (ts_interval_ms s = None → ts_remaining_firings s = Some 1%N)) as (Harm & Hpos & Hfir & Honce).
  { destruct kind.
    - inv_res Hs. simpl. split_and!; [lia|done| |done]. intros n [= <-]. unfold u32_max. lia.
    - apply bind_Ok in Hs as (n & Hn & Hs). apply bind_Ok in Hs as (due & Hd & [= <-]).
      apply ok_or_Ok, checked_add_Some in Hd as [-> _]. simpl.
      split_and!; [lia|done| |done]. intros m [= <-]. unfold u32_max. lia.
    - apply parse_cycle_shape in Hs as (? & (i & Hi & ?) & ?). rewrite Hi.
      split_and!; [done|by intros i' [= <-]|done|done]. }
  split; [lia| |done|done].
  intros i Hi. rewrite Hi in Hint. apply N.ltb_ge in Hint. pose proof (Hpos i Hi). lia.
Qed.
End schedules.
