(* ===== verification/Ports.v ===== *)
(** * Ports and messages of the engine

    [apps/rust/bpmp-engine/src/ports.rs] and the data types of
    [application.rs]: what the engine's command handler exchanges with its
    store, its configuration provider and its authorization provider. The
    store port is a class; a second class states what a store owes its
    clients, in terms of an abstract view of its contents. *)

From S2P Require Import Prelude Types Config Evolve.
From stdpp Require Import options.

Abbreviation InstanceId := string (only parsing).
Abbreviation CommandId := string (only parsing).
Abbreviation IdempotencyKey := string (only parsing).
Abbreviation CorrelationId := string (only parsing).
Abbreviation ActorId := string (only parsing).
Abbreviation KeyScope := string (only parsing).
Abbreviation ConfigVersion := string (only parsing).
Abbreviation PolicyVersion := string (only parsing).

(** ** Authorization port *)
Inductive ActorProofKind := OriginalJwt | SignedInternalContext.

Record AuthorizationRequest := mkAuthorizationRequest {
  aq_tenant_id : TenantId;
  aq_command_id : CommandId;
  aq_evaluated_at_epoch_ms : N;
  aq_actor_proof : string;
  aq_actor_proof_kind : ActorProofKind;
  aq_workload_proof : string;
  aq_workflow_type : WorkflowType;
  aq_workflow_version : WorkflowVersion;
  aq_active_node_id : string;
  aq_action : string }.

Record AuthorizedPrincipal := mkPrincipal {
  ap_actor_id : ActorId;
  ap_roles : list string;
  ap_workload_id : string;
  ap_policy_version : PolicyVersion;
  ap_bundle_sequence : N;
  ap_revoke_epoch : N;
  ap_matched_grant_ids : list string }.

Inductive AuthorizationError :=
| InvalidActorProof (detail : string)
| InvalidWorkloadProof (detail : string)
| ScopeMismatch
| ActorProofOutsideValidity
| WorkloadProofOutsideValidity
| WorkloadAudienceMismatch
| Denied (reason : string)
| Unavailable_Authorization (detail : string)
| InvalidVerifiedIdentity.

(** ** Configuration port *)
Record ConfigurationLookup := mkLookup {
  cl_tenant_id : TenantId;
  cl_workflow_type : WorkflowType;
  cl_workflow_version : WorkflowVersion }.

(** ** Commands, events and snapshots at the engine's boundary *)
Definition EVENT_SCHEMA_VERSION : N := 1.

Record AuthorizedCommand := mkAuthorizedCommand {
  rq_tenant_id : TenantId;
  rq_instance_id : InstanceId;
  rq_command_id : CommandId;
  rq_idempotency_key : IdempotencyKey;
  rq_correlation_id : CorrelationId;
  rq_evaluated_at_epoch_ms : N;
  rq_actor_proof : string;
  rq_actor_proof_kind : ActorProofKind;
  rq_workload_proof : string;
  rq_encryption_key_scope : KeyScope;
  rq_variables : Variables;
  rq_command : Command }.

Record AuthorizationAudit := mkAuthorizationAudit {
  au_decision_id : string;
  au_tenant_id : TenantId;
  au_actor_id : ActorId;
  au_workload_id : string;
  au_roles : list string;
  au_action : string;
  au_workflow_type : WorkflowType;
  au_workflow_version : WorkflowVersion;
  au_instance_id : InstanceId;
  au_active_node_id : string;
  au_policy_version : PolicyVersion;
  au_config_version : ConfigVersion;
  au_bundle_sequence : N;
  au_revoke_epoch : N;
  au_occurred_at_epoch_ms : N;
  au_command_id : CommandId;
  au_correlation_id : CorrelationId;
  au_matched_grant_ids : list string;
  au_encryption_key_scope : KeyScope }.

Record EventMetadata := mkEventMetadata {
  em_event_id : string;
  em_tenant_id : TenantId;
  em_instance_id : InstanceId;
  em_sequence : N;
  em_schema_version : N;
  em_correlation_id : CorrelationId;
  em_causation_command_id : CommandId;
  em_occurred_at_epoch_ms : N;
  em_config_version : ConfigVersion;
  em_policy_version : PolicyVersion;
  em_actor_id : ActorId;
  em_encryption_key_scope : KeyScope;
  em_workflow_type : WorkflowType;
  em_workflow_version : WorkflowVersion }.

Record EventEnvelope := mkEnvelope {
  ee_metadata : EventMetadata;
  ee_event : DomainEvent }.

Record SnapshotEnvelope := mkSnapshot {
  sn_tenant_id : TenantId;
  sn_instance_id : InstanceId;
  sn_workflow_type : WorkflowType;
  sn_workflow_version : WorkflowVersion;
  sn_state : InstanceState;
  sn_config_version : ConfigVersion;
  sn_policy_version : PolicyVersion;
  sn_encryption_key_scope : KeyScope }.

Record CommittedResult := mkCommitted {
  cr_version : N;
  cr_event_ids : list string;
  cr_config_version : ConfigVersion;
  cr_policy_version : PolicyVersion }.

(** ** Store port *)
Record LoadedInstance := mkLoaded {
  li_snapshot : option SnapshotEnvelope;
  li_events : list EventEnvelope;
  li_version : N }.

Record CommitRequest := mkCommit {
  cq_tenant_id : TenantId;
  cq_instance_id : InstanceId;
  cq_actor_id : ActorId;
  cq_idempotency_key : IdempotencyKey;
  cq_command_id : CommandId;
  cq_expected_version : N;
  cq_events : list EventEnvelope;
  cq_snapshot : option SnapshotEnvelope;
  cq_authorization_audit : AuthorizationAudit;
  cq_result : CommittedResult }.

Inductive StoreError :=
| NotLeader (leader_id : option N) (leader_address : option string)
| VersionConflict (expected actual : N)
| IdempotencyConflict
| NonContiguousSequence
| DuplicateEvent
| InvalidSnapshot
| InvalidAuthorizationAudit
| InvalidGovernanceTransition (detail : string)
| Store_DataUnavailableForCompliance (key_scope key_version : string) (key_epoch : N)
| CryptoUnavailable
| CorruptData (detail : string)
| ReplayLimitExceeded (configured_limit : N)
| Store_Unavailable (detail : string).

Inductive CommitOutcome :=
| Committed (result : CommittedResult)
| Duplicate (result : CommittedResult).

(** [CommitRequest::validate_authorization_audit] *)
Definition audit_covers_event (audit : AuthorizationAudit) (event : EventEnvelope) : bool :=
  let m := ee_metadata event in
  bool_decide (em_tenant_id m = au_tenant_id audit)
  && bool_decide (em_actor_id m = au_actor_id audit)
  && bool_decide (em_causation_command_id m = au_command_id audit)
  && bool_decide (em_correlation_id m = au_correlation_id audit)
  && bool_decide (em_policy_version m = au_policy_version audit)
  && bool_decide (em_config_version m = au_config_version audit).

Definition validate_authorization_audit (c : CommitRequest) : res StoreError unit :=
  let audit := cq_authorization_audit c in
  bail_if
    (bool_decide (au_tenant_id audit ≠ cq_tenant_id c)
     || bool_decide (au_actor_id audit ≠ cq_actor_id c)
     || bool_decide (au_command_id audit ≠ cq_command_id c)
     || bool_decide (au_policy_version audit ≠ cr_policy_version (cq_result c))
     || bool_decide (au_config_version audit ≠ cr_config_version (cq_result c))
     || bool_decide (au_decision_id audit = "")
     || bool_decide (au_workload_id audit = "")
     || bool_decide (au_action audit = "")
     || bool_decide (au_matched_grant_ids audit = [])
     || existsb (λ e, negb (audit_covers_event audit e)) (cq_events c))
    InvalidAuthorizationAudit.

(** The three operations of [WorkflowStorePort]. *)
Class WorkflowStorePort (S : Type) := {
  lookup_idempotency :
    S → TenantId → ActorId → IdempotencyKey → CommandId →
    res StoreError (option CommittedResult);
  load : S → TenantId → InstanceId → res StoreError LoadedInstance;
  commit : CommitRequest → method S StoreError CommitOutcome }.

(** ** What a store promises *)

Abbreviation StreamKey := (string * string)%type (only parsing).
Abbreviation IdempotencyScope := (string * string * string)%type (only parsing).
Record StoredResult := mkStored {
  sr_command_id : CommandId;
  sr_result : CommittedResult }.

Definition stream_key (c : CommitRequest) : StreamKey := (cq_tenant_id c, cq_instance_id c).
Definition idempotency_scope (c : CommitRequest) : IdempotencyScope :=
  (cq_tenant_id c, cq_actor_id c, cq_idempotency_key c).
Definition audit_key (c : CommitRequest) : StreamKey := (cq_tenant_id c, cq_command_id c).

(** The contents of a store as its clients see them: the events of each
    stream in order, its latest snapshot, the results recorded for
    idempotency keys and the commands already audited. *)
Record StoreView := mkView {
  sv_stream : StreamKey → list EventEnvelope;
  sv_snapshot : StreamKey → option SnapshotEnvelope;
  sv_result : IdempotencyScope → option StoredResult;
  sv_audit : StreamKey → option AuthorizationAudit }.

(** Views are compared pointwise. *)
#[global] Instance view_equiv : Equiv StoreView := λ v w,
  (∀ k, sv_stream v k = sv_stream w k) ∧ (∀ k, sv_snapshot v k = sv_snapshot w k) ∧
  (∀ k, sv_result v k = sv_result w k) ∧ (∀ k, sv_audit v k = sv_audit w k).
#[global] Instance view_equivalence : Equivalence (≡@{StoreView}).
Proof.
  split.
  - done.
  - intros v w (H1 & H2 & H3 & H4). by split_and!.
  - intros u v w (H1 & H2 & H3 & H4) (H5 & H6 & H7 & H8).
    split_and!; intros k; [by rewrite H1|by rewrite H2|by rewrite H3|by rewrite H4].
Qed.
#[global] Instance sv_stream_proper : Proper ((≡@{StoreView}) ==> (=) ==> (=)) sv_stream.
Proof. by intros v w (H & _) k _ <-. Qed.
#[global] Instance sv_snapshot_proper : Proper ((≡@{StoreView}) ==> (=) ==> (=)) sv_snapshot.
Proof. by intros v w (_ & H & _) k _ <-. Qed.
#[global] Instance sv_result_proper : Proper ((≡@{StoreView}) ==> (=) ==> (=)) sv_result.
Proof. by intros v w (_ & _ & H & _) k _ <-. Qed.
#[global] Instance sv_audit_proper : Proper ((≡@{StoreView}) ==> (=) ==> (=)) sv_audit.
Proof. by intros v w (_ & _ & _ & H) k _ <-. Qed.

Definition snapshot_sequence (snapshot : option SnapshotEnvelope) : N :=
  match snapshot with Some s => st_sequence (sn_state s) | None => 0 end.
Definition is_after (sequence : N) (e : EventEnvelope) : bool :=
  (sequence <? em_sequence (ee_metadata e))%N.

(** Events numbered [first], [first + 1], ... *)
Fixpoint contiguous_from (first : N) (events : list EventEnvelope) : Prop :=
  match events with
  | [] => True
  | e :: events => em_sequence (ee_metadata e) = first ∧ contiguous_from (first + 1)%N events
  end.

(** The view after a successful commit. *)
Definition set_at {K V} `{EqDecision K} (k : K) (v : V) (f : K → V) : K → V :=
  λ k', if decide (k' = k) then v else f k'.
Definition view_append (v : StoreView) (c : CommitRequest) : StoreView :=
  mkView
    (set_at (stream_key c) (sv_stream v (stream_key c) ++ cq_events c) (sv_stream v))
    (match cq_snapshot c with
     | Some s => set_at (stream_key c) (Some s) (sv_snapshot v)
     | None => sv_snapshot v
     end)
    (set_at (idempotency_scope c) (Some (mkStored (cq_command_id c) (cq_result c))) (sv_result v))
    (set_at (audit_key c) (Some (cq_authorization_audit c)) (sv_audit v)).

(** A commit is acceptable: nothing recorded under its key, its command not
    yet audited, and its events continue the stream. *)
Record acceptable (v : StoreView) (c : CommitRequest) : Prop := {
  ac_fresh : sv_result v (idempotency_scope c) = None;
  ac_unaudited : sv_audit v (audit_key c) = None;
  ac_version : cq_expected_version c = N.of_nat (length (sv_stream v (stream_key c)));
  ac_contiguous : contiguous_from (cq_expected_version c + 1) (cq_events c);
  ac_scope : Forall (λ e, audit_covers_event (cq_authorization_audit c) e = true) (cq_events c);
  ac_audit : au_tenant_id (cq_authorization_audit c) = cq_tenant_id c ∧
             au_actor_id (cq_authorization_audit c) = cq_actor_id c ∧
             au_command_id (cq_authorization_audit c) = cq_command_id c }.

(** The contract of [WorkflowStorePort]: reads report the view; a commit
    either appends everything, or answers a duplicate, or fails, and in the
    last two cases leaves the view as it was. *)
Class LawfulStore (S : Type) `{WorkflowStorePort S} := {
  view : S → StoreView;
  lookup_law s tenant actor key command :
    lookup_idempotency s tenant actor key command =
      match sv_result (view s) (tenant, actor, key) with
      | Some stored => if decide (sr_command_id stored = command)
                       then Ok (Some (sr_result stored)) else Err IdempotencyConflict
      | None => Ok None
      end;
  load_law s tenant instance loaded :
    load s tenant instance = Ok loaded →
    li_version loaded = N.of_nat (length (sv_stream (view s) (tenant, instance))) ∧
    li_snapshot loaded = sv_snapshot (view s) (tenant, instance) ∧
    li_events loaded =
      List.filter (is_after (snapshot_sequence (li_snapshot loaded)))
        (sv_stream (view s) (tenant, instance));
  commit_law c s s' r :
    commit c s = (s', r) →
    match r with
    | Ok (Committed result) =>
        acceptable (view s) c ∧ result = cq_result c ∧ view s' ≡ view_append (view s) c
    | Ok (Duplicate result) =>
        sv_result (view s) (idempotency_scope c) = Some (mkStored (cq_command_id c) result) ∧
        view s' ≡ view s
    | _ => view s' ≡ view s
    end }.
