(* ===== verification/Engine.v ===== *)
(** * The command handler

    [apps/rust/bpmp-engine/src/application.rs]: [Engine::handle] authorizes a
    command, looks for an earlier result under its idempotency key, resolves
    the configuration, loads and rehydrates the instance, decides, numbers
    the events and commits them. The two providers are parameters; the store
    is any instance of the store port. *)

From S2P Require Import Prelude Types Config WorkflowDef Evolve Decide Loop Ports.
From stdpp Require Import options.

Inductive EngineError :=
| Engine_Authorization (source : AuthorizationError)
| Engine_Configuration (source : ConfigError)
| Engine_Domain (source : DomainError)
| Engine_Store (source : StoreError)
| DataUnavailableForCompliance (key_scope key_version : string) (key_epoch : N)
| SequenceOverflow
| SnapshotWorkflowMismatch
| PersistedWorkflowMismatch
| DefinitionTenantMismatch
| EncryptionKeyScopeMismatch
| PolicyVersionMismatch (configured authorized : PolicyVersion).

Inductive HandleOutcome :=
| Handle_Committed (result : CommittedResult)
| Handle_Duplicate (result : CommittedResult).

(** [EngineError::from_store_load] *)
Definition from_store_load (error : StoreError) : EngineError :=
  match error with
  | Store_DataUnavailableForCompliance key_scope key_version key_epoch =>
      DataUnavailableForCompliance key_scope key_version key_epoch
  | other => Engine_Store other
  end.

Definition transition_selector (definition : WorkflowDefinition) (command : Command)
    : string * string :=
  match command with
  | ActivateCase case_id _ _ => (case_id, "ACTIVATE_CASE")
  | EvaluateCaseSentries case_id _ => (case_id, "EVALUATE_CASE_SENTRIES")
  | StartWorkflow _ _ => (wd_start_node definition, "START")
  | CompleteServiceTask node_id _ _ => (node_id, "COMPLETE_SERVICE_TASK")
  | CompleteUserTask node_id _ _ => (node_id, "COMPLETE_USER_TASK")
  | CompleteScriptTask node_id _ => (node_id, "COMPLETE_SCRIPT_TASK")
  | CompleteMultiInstanceIteration node_id _ _ => (node_id, "COMPLETE_MULTI_INSTANCE_ITERATION")
  | TriggerBoundaryEvent boundary_event_id _ => (boundary_event_id, "TRIGGER_BOUNDARY_EVENT")
  end.

Definition validate_configuration_binding (request : AuthorizedCommand)
    (configuration : ResolvedConfigSnapshot) (principal : AuthorizedPrincipal)
    : res EngineError unit :=
  bail_if (bool_decide (rc_policy_version configuration ≠ ap_policy_version principal))
    (PolicyVersionMismatch (rc_policy_version configuration) (ap_policy_version principal));;
  bail_if (bool_decide (rq_encryption_key_scope request ≠
                        en_event_payload_key_scope (rc_engine configuration)))
    EncryptionKeyScopeMismatch.

(** The body of the closure in [attach_metadata]. *)
Definition attach_one (definition : WorkflowDefinition) (request : AuthorizedCommand)
    (actor_id : ActorId) (configuration : ResolvedConfigSnapshot) (current_version : N)
    (ordinal : nat) (event : DomainEvent) : res EngineError EventEnvelope :=
  offset ← ok_or (u64_of_usize ordinal) SequenceOverflow;
  sequence ← ok_or (value ← checked_add u64_max current_version offset;
                    checked_add u64_max value 1) SequenceOverflow;
  Ok (mkEnvelope
    {| em_event_id := rq_command_id request +:+ ":" +:+ pretty sequence;
       em_tenant_id := rq_tenant_id request;
       em_instance_id := rq_instance_id request;
       em_sequence := sequence;
       em_schema_version := EVENT_SCHEMA_VERSION;
       em_correlation_id := rq_correlation_id request;
       em_causation_command_id := rq_command_id request;
       em_occurred_at_epoch_ms := event_time event;
       em_config_version := rc_config_version configuration;
       em_policy_version := rc_policy_version configuration;
       em_actor_id := actor_id;
       em_encryption_key_scope := rq_encryption_key_scope request;
       em_workflow_type := wd_workflow_type definition;
       em_workflow_version := wd_workflow_version definition |} event).

(** [events.into_iter().enumerate().map(...).collect()], from an ordinal on. *)
Fixpoint attach_from (definition : WorkflowDefinition) (request : AuthorizedCommand)
    (actor_id : ActorId) (configuration : ResolvedConfigSnapshot) (current_version : N)
    (ordinal : nat) (events : list DomainEvent) : res EngineError (list EventEnvelope) :=
  match events with
  | [] => Ok []
  | event :: events =>
      envelope ← attach_one definition request actor_id configuration current_version ordinal event;
      rest ← attach_from definition request actor_id configuration current_version (S ordinal) events;
      Ok (envelope :: rest)
  end.
Definition attach_metadata (definition : WorkflowDefinition) (request : AuthorizedCommand)
    (actor_id : ActorId) (configuration : ResolvedConfigSnapshot) (current_version : N)
    (events : list DomainEvent) : res EngineError (list EventEnvelope) :=
  attach_from definition request actor_id configuration current_version 0 events.

Definition committed_result (current_version : N) (events : list EventEnvelope)
    (configuration : ResolvedConfigSnapshot) : res EngineError CommittedResult :=
  event_count ← ok_or (u64_of_usize (length events)) SequenceOverflow;
  version ← ok_or (checked_add u64_max current_version event_count) SequenceOverflow;
  Ok (mkCommitted version ((λ e, em_event_id (ee_metadata e)) <$> events)
        (rc_config_version configuration) (rc_policy_version configuration)).

(** One turn of the loop of [snapshot_at_latest_boundary]. *)
Definition snapshot_turn (definition : WorkflowDefinition) (request : AuthorizedCommand)
    (configuration : ResolvedConfigSnapshot)
    (acc : InstanceState * option SnapshotEnvelope) (envelope : EventEnvelope)
    : res EngineError (InstanceState * option SnapshotEnvelope) :=
  let interval := en_snapshot_interval_events (rc_engine configuration) in
  let '(state, latest) := acc in
  let state := evolve state (ee_event envelope) in
  if (interval =? 0)%N then Panic "remainder with a divisor of zero"
  else if (em_sequence (ee_metadata envelope) mod interval =? 0)%N then
    Ok (state, Some (mkSnapshot (rq_tenant_id request) (rq_instance_id request)
      (wd_workflow_type definition) (wd_workflow_version definition) state
      (rc_config_version configuration) (rc_policy_version configuration)
      (rq_encryption_key_scope request)))
  else Ok (state, latest).
Definition snapshot_at_latest_boundary (definition : WorkflowDefinition)
    (request : AuthorizedCommand) (configuration : ResolvedConfigSnapshot)
    (state : InstanceState) (events : list EventEnvelope)
    : res EngineError (option SnapshotEnvelope) :=
  '(_, latest) ← for_each (snapshot_turn definition request configuration) events (state, None);
  Ok latest.

Definition build_authorization_audit (definition : WorkflowDefinition)
    (request : AuthorizedCommand) (configuration : ResolvedConfigSnapshot)
    (principal : AuthorizedPrincipal) (active_node_id action : string) : AuthorizationAudit :=
  {| au_decision_id := "allow:" +:+ rq_command_id request;
     au_tenant_id := rq_tenant_id request;
     au_actor_id := ap_actor_id principal;
     au_workload_id := ap_workload_id principal;
     au_roles := ap_roles principal;
     au_action := action;
     au_workflow_type := wd_workflow_type definition;
     au_workflow_version := wd_workflow_version definition;
     au_instance_id := rq_instance_id request;
     au_active_node_id := active_node_id;
     au_policy_version := ap_policy_version principal;
     au_config_version := rc_config_version configuration;
     au_bundle_sequence := ap_bundle_sequence principal;
     au_revoke_epoch := ap_revoke_epoch principal;
     au_occurred_at_epoch_ms := rq_evaluated_at_epoch_ms request;
     au_command_id := rq_command_id request;
     au_correlation_id := rq_correlation_id request;
     au_matched_grant_ids := ap_matched_grant_ids principal;
     au_encryption_key_scope := en_authorization_audit_key_scope (rc_engine configuration) |}.

(** ** The handler *)

(** The identity a stored event or snapshot has to carry. *)
Definition same_workflow (definition : WorkflowDefinition) (workflow_type : WorkflowType)
    (workflow_version : WorkflowVersion) : bool :=
  bool_decide (workflow_type = wd_workflow_type definition)
  && bool_decide (workflow_version = wd_workflow_version definition).

Definition loaded_state (loaded : LoadedInstance) : InstanceState :=
  rehydrate (sn_state <$> li_snapshot loaded) (ee_event <$> li_events loaded).

(** From the loaded instance to the commit request: no access to the store. *)
Definition plan_commit (definition : WorkflowDefinition) (request : AuthorizedCommand)
    (principal : AuthorizedPrincipal) (configuration : ResolvedConfigSnapshot)
    (loaded : LoadedInstance) : res EngineError CommitRequest :=
  bail_if (match li_snapshot loaded with
           | Some s => negb (same_workflow definition (sn_workflow_type s) (sn_workflow_version s))
           | None => false
           end) SnapshotWorkflowMismatch;;
  bail_if (existsb (λ e, negb (same_workflow definition (em_workflow_type (ee_metadata e))
                                 (em_workflow_version (ee_metadata e)))) (li_events loaded))
    PersistedWorkflowMismatch;;
  let state := loaded_state loaded in
  domain_events ← map_err Engine_Domain
    (Workflow.decide definition state (mkContext configuration (rq_variables request))
       (rq_command request));
  envelopes ← attach_metadata definition request (ap_actor_id principal) configuration
    (li_version loaded) domain_events;
  result ← committed_result (li_version loaded) envelopes configuration;
  snapshot ← snapshot_at_latest_boundary definition request configuration state envelopes;
  let '(active_node_id, action) := transition_selector definition (rq_command request) in
  Ok {| cq_tenant_id := rq_tenant_id request;
        cq_instance_id := rq_instance_id request;
        cq_actor_id := ap_actor_id principal;
        cq_idempotency_key := rq_idempotency_key request;
        cq_command_id := rq_command_id request;
        cq_expected_version := li_version loaded;
        cq_events := envelopes;
        cq_snapshot := snapshot;
        cq_authorization_audit := build_authorization_audit definition request configuration
          principal active_node_id action;
        cq_result := result |}.

Section handle.
Context {S : Type} `{WorkflowStorePort S}.
Context (authorize : AuthorizationRequest → res AuthorizationError AuthorizedPrincipal).
Context (resolve : ConfigurationLookup → res ConfigError ResolvedConfigSnapshot).

Definition authorization_request (definition : WorkflowDefinition) (request : AuthorizedCommand)
    : AuthorizationRequest :=
  let '(active_node_id, action) := transition_selector definition (rq_command request) in
  {| aq_tenant_id := rq_tenant_id request;
     aq_command_id := rq_command_id request;
     aq_evaluated_at_epoch_ms := rq_evaluated_at_epoch_ms request;
     aq_actor_proof := rq_actor_proof request;
     aq_actor_proof_kind := rq_actor_proof_kind request;
     aq_workload_proof := rq_workload_proof request;
     aq_workflow_type := wd_workflow_type definition;
     aq_workflow_version := wd_workflow_version definition;
     aq_active_node_id := active_node_id;
     aq_action := action |}.

(** A store read inside a method. *)
Definition read {E A} (f : S → res E A) : method S E A := s ← self; lift (f s).
Lemma read_then {E A B} (f : S → res E A) (k : A → method S E B) s :
  (read f ≫= k) s =
  match f s with Ok a => k a s | Err e => (s, Err e) | Panic p => (s, Panic p) end.
Proof. done. Qed.
(** A store call whose error is wrapped. *)
Definition call {E E' A} (f : E → E') (m : method S E A) : method S E' A := λ s,
  let '(s, r) := m s in (s, map_err f r).

Definition handle (definition : WorkflowDefinition) (request : AuthorizedCommand)
    : method S EngineError HandleOutcome :=
  lift (bail_if (bool_decide (rq_tenant_id request ≠ wd_tenant_id definition))
    DefinitionTenantMismatch);;
  principal ← lift (map_err Engine_Authorization
    (authorize (authorization_request definition request)));
  earlier ← read (λ s, map_err Engine_Store
    (lookup_idempotency s (rq_tenant_id request) (ap_actor_id principal)
       (rq_idempotency_key request) (rq_command_id request)));
  match earlier with
  | Some result => mret (Handle_Duplicate result)
  | None =>
      configuration ← lift (map_err Engine_Configuration
        (resolve (mkLookup (rq_tenant_id request) (wd_workflow_type definition)
                    (wd_workflow_version definition))));
      lift (validate_configuration_binding request configuration principal);;
      loaded ← read (λ s, map_err from_store_load
        (load s (rq_tenant_id request) (rq_instance_id request)));
      plan ← lift (plan_commit definition request principal configuration loaded);
      outcome ← call Engine_Store (commit plan);
      mret (match outcome with
            | Committed result => Handle_Committed result
            | Duplicate result => Handle_Duplicate result
            end)
  end.
End handle.
