(* ===== verification/EngineSpec.v ===== *)
(** * Interleaved command handling

    Several handlers share one store. A handler reads the instance, plans its
    commit, and commits later, when other handlers may have committed in
    between; the step relation below allows every such interleaving. The
    lemmas are proved against the contract of the store port, for any lawful
    store. *)

From S2P Require Import Prelude Types Expr Coverage Config WorkflowDef Routing Text Evolve.
From S2P Require Import Activation Decide Invariant Loop Decisions Instance Ports Engine.
From Stdlib Require Import Ascii.
From stdpp Require Import options.

(** The state a list of stored events stands for. *)
Definition replay_events (events : list EventEnvelope) : InstanceState :=
  foldl evolve InstanceState_default (ee_event <$> events).

Lemma replay_events_app l1 l2 :
  replay_events (l1 ++ l2) = foldl evolve (replay_events l1) (ee_event <$> l2).
Proof. unfold replay_events. by rewrite fmap_app, foldl_app. Qed.

Lemma replay_events_sequence l :
  (N.of_nat (length l) ≤ u64_max)%N → st_sequence (replay_events l) = N.of_nat (length l).
Proof.
  intros Hl. unfold replay_events. rewrite replay_sequence by done. simpl.
  rewrite length_fmap. lia.
Qed.

(** ** Numbered events *)
Lemma contiguous_from_app first l1 l2 :
  contiguous_from first (l1 ++ l2) ↔
  contiguous_from first l1 ∧ contiguous_from (first + N.of_nat (length l1)) l2.
Proof.
  revert first. induction l1 as [|e l1 IH]; intros first; simpl.
  - rewrite N.add_0_r. tauto.
  - rewrite IH. replace (first + 1 + N.of_nat (length l1))%N
      with (first + N.of_nat (S (length l1)))%N by lia. tauto.
Qed.

Lemma contiguous_from_bounds first l e :
  contiguous_from first l → e ∈ l →
  (first ≤ em_sequence (ee_metadata e) < first + N.of_nat (length l))%N.
Proof.
  revert first. induction l as [|e' l IH]; intros first; [set_solver|].
  intros [He Hl] [->|Hin]%elem_of_cons; simpl; [lia|].
  specialize (IH _ Hl Hin). lia.
Qed.

(** The event with a given number is the one at that position. *)
Lemma contiguous_from_lookup first l i e :
  contiguous_from first l → l !! i = Some e →
  em_sequence (ee_metadata e) = (first + N.of_nat i)%N.
Proof.
  revert first i. induction l as [|e' l IH]; intros first i; [done|].
  intros [He Hl]. destruct i as [|i]; simpl; [intros [= ->]; lia|].
  intros Hi. rewrite (IH _ _ Hl Hi). lia.
Qed.

Lemma filter_is_after first l1 l2 :
  contiguous_from first (l1 ++ l2) → (1 ≤ first)%N →
  List.filter (is_after (first - 1 + N.of_nat (length l1))) (l1 ++ l2) = l2.
Proof.
  intros [H1 H2]%contiguous_from_app Hfirst. rewrite List.filter_app.
  assert (List.filter (is_after (first - 1 + N.of_nat (length l1))) l1 = []) as ->.
  { apply filter_none. intros e He. pose proof (contiguous_from_bounds _ _ _ H1 He).
    unfold is_after. lia. }
  apply filter_all. intros e He. pose proof (contiguous_from_bounds _ _ _ H2 He).
  unfold is_after. lia.
Qed.

(** ** The pieces of a planned commit *)
Section plan.
Context (d : WorkflowDefinition) (request : AuthorizedCommand) (actor : ActorId)
  (cfg : ResolvedConfigSnapshot).

(** What [attach_metadata] writes into an event's metadata. *)
Record stamped_event (e : EventEnvelope) : Prop := {
  se_event_id : em_event_id (ee_metadata e) =
    rq_command_id request +:+ ":" +:+ pretty (em_sequence (ee_metadata e));
  se_tenant : em_tenant_id (ee_metadata e) = rq_tenant_id request;
  se_instance : em_instance_id (ee_metadata e) = rq_instance_id request;
  se_schema : em_schema_version (ee_metadata e) = EVENT_SCHEMA_VERSION;
  se_command : em_causation_command_id (ee_metadata e) = rq_command_id request;
  se_time : em_occurred_at_epoch_ms (ee_metadata e) = event_time (ee_event e);
  se_type : em_workflow_type (ee_metadata e) = wd_workflow_type d;
  se_version : em_workflow_version (ee_metadata e) = wd_workflow_version d }.

Lemma attach_from_Ok version ordinal evs envs :
  attach_from d request actor cfg version ordinal evs = Ok envs →
  ee_event <$> envs = evs ∧
  contiguous_from (version + N.of_nat ordinal + 1) envs ∧ Forall stamped_event envs.
Proof.
  revert ordinal envs. induction evs as [|ev evs IH]; intros ordinal envs H; simpl in H.
  { by injection H as <-. }
  apply bind_Ok in H as (e & He & H). apply bind_Ok in H as (rest & Hrest & [= <-]).
  unfold attach_one in He. apply bind_Ok in He as (offset & Ho%ok_or_Ok & He).
  apply bind_Ok in He as (sequence & Hs%ok_or_Ok & [= <-]).
  apply u64_of_usize_Some in Ho as [-> _]. apply bind_Some in Hs as (value & Hv & Hs).
  apply checked_add_Some in Hv as [-> _], Hs as [-> _].
  destruct (IH _ _ Hrest) as (<- & Hc & Hall). simpl. split_and!; [done|done| |].
  - by replace (version + N.of_nat ordinal + 1 + 1)%N
      with (version + N.of_nat (S ordinal) + 1)%N by lia.
  - constructor; [|done]. by split.
Qed.

Lemma snapshot_at_latest_boundary_Ok st envs latest :
  snapshot_at_latest_boundary d request cfg st envs = Ok latest →
  match latest with
  | Some s => ∃ pre post, envs = pre ++ post ∧ pre ≠ [] ∧
      sn_state s = foldl evolve st (ee_event <$> pre) ∧
      sn_tenant_id s = rq_tenant_id request ∧ sn_instance_id s = rq_instance_id request ∧
      sn_workflow_type s = wd_workflow_type d ∧ sn_workflow_version s = wd_workflow_version d
  | None => True
  end.
Proof.
  unfold snapshot_at_latest_boundary. intros H. apply bind_Ok in H as ([st' latest'] & H & [= <-]).
  revert H. set (I := λ (seen : list EventEnvelope) (acc : InstanceState * option SnapshotEnvelope),
    acc.1 = foldl evolve st (ee_event <$> seen) ∧
    match acc.2 with
    | Some s => ∃ pre post, seen = pre ++ post ∧ pre ≠ [] ∧
        sn_state s = foldl evolve st (ee_event <$> pre) ∧
        sn_tenant_id s = rq_tenant_id request ∧ sn_instance_id s = rq_instance_id request ∧
        sn_workflow_type s = wd_workflow_type d ∧ sn_workflow_version s = wd_workflow_version d
    | None => True
    end).
  intros H. cut (I envs (st', latest')); [by intros [_ ?]|].
  eapply for_each_inv; [exact H|done|].
  intros seen e [st1 l1] [st2 l2] [Hst Hl] _ Hturn. unfold snapshot_turn in Hturn.
  assert (evolve st1 (ee_event e) = foldl evolve st (ee_event <$> (seen ++ [e]))) as Hst2.
  { simpl in Hst. by rewrite fmap_app, foldl_app, Hst. }
  destruct (_ =? 0)%N; [done|]. destruct (_ mod _ =? 0)%N; injection Hturn as <- <-;
    (split; [done|]); simpl in *.
  - exists (seen ++ [e]), []. rewrite app_nil_r. split_and!; [done| |done..].
    intros [_ [=]]%app_eq_nil.
  - destruct l1 as [s|]; [|done]. destruct Hl as (pre & post & -> & Hpre & Hs).
    exists pre, (post ++ [e]). by rewrite <-app_assoc.
Qed.
End plan.

(** ** Histories *)
Section histories.
(** The published definitions: at most one per tenant, type and version. *)
Context (registry : TenantId → WorkflowType → WorkflowVersion → option WorkflowDefinition).

Definition registered (d : WorkflowDefinition) : Prop :=
  registry (wd_tenant_id d) (wd_workflow_type d) (wd_workflow_version d) = Some d.

(** The event belongs to the stream [k] of an instance of [d]. *)
Definition belongs (d : WorkflowDefinition) (k : StreamKey) (e : EventEnvelope) : Prop :=
  let m := ee_metadata e in
  em_tenant_id m = k.1 ∧ em_instance_id m = k.2 ∧
  em_workflow_type m = wd_workflow_type d ∧ em_workflow_version m = wd_workflow_version d ∧
  em_occurred_at_epoch_ms m = event_time (ee_event e) ∧
  em_schema_version m = EVENT_SCHEMA_VERSION ∧
  em_event_id m = em_causation_command_id m +:+ ":" +:+ pretty (em_sequence m).

(** [stream] is a history of an instance of [d]. *)
Record history (d : WorkflowDefinition) (k : StreamKey) (stream : list EventEnvelope) : Prop := {
  hi_registered : registered d;
  hi_tenant : k.1 = wd_tenant_id d;
  hi_belongs : Forall (belongs d k) stream;
  hi_numbered : contiguous_from 1 stream;
  hi_bounded : (N.of_nat (length stream) ≤ u64_max)%N;
  hi_decided : decided d (ee_event <$> stream) }.

(** The snapshot is the state after a prefix of the stream. *)
Definition snapshot_of (d : WorkflowDefinition) (k : StreamKey) (stream : list EventEnvelope)
    (s : SnapshotEnvelope) : Prop :=
  ∃ pre post, stream = pre ++ post ∧ pre ≠ [] ∧ sn_state s = replay_events pre ∧
    sn_tenant_id s = k.1 ∧ sn_instance_id s = k.2 ∧
    sn_workflow_type s = wd_workflow_type d ∧ sn_workflow_version s = wd_workflow_version d.

(** A stream with its snapshot: nothing at all, or a history. *)
Definition stream_ok (v : StoreView) (k : StreamKey) : Prop :=
  (sv_stream v k = [] ∧ sv_snapshot v k = None) ∨
  ∃ d, history d k (sv_stream v k) ∧
    ∀ s, sv_snapshot v k = Some s → snapshot_of d k (sv_stream v k) s.

(** Every committed event is covered by the audit of its command. *)
Definition audited (v : StoreView) : Prop := ∀ k e,
  e ∈ sv_stream v k →
  ∃ a, sv_audit v (k.1, em_causation_command_id (ee_metadata e)) = Some a ∧
    au_instance_id a = k.2 ∧ audit_covers_event a e = true.

(** The commit was decided on a prefix of what is now its stream. *)
Record planned (v : StoreView) (c : CommitRequest) : Prop := {
  pl_base : ∃ d base tail cfg vars cmd,
    sv_stream v (stream_key c) = base ++ tail ∧
    cq_expected_version c = N.of_nat (length base) ∧
    registered d ∧ cq_tenant_id c = wd_tenant_id d ∧ config_ok cfg ∧
    (base = [] ∨ history d (stream_key c) base) ∧
    Workflow.decide d (replay_events base) (mkContext cfg vars) cmd = Ok (ee_event <$> cq_events c) ∧
    (N.of_nat (length (base ++ cq_events c)) ≤ u64_max)%N ∧
    Forall (belongs d (stream_key c)) (cq_events c) ∧
    (∀ s, cq_snapshot c = Some s → snapshot_of d (stream_key c) (base ++ cq_events c) s);
  pl_commands : Forall (λ e, em_causation_command_id (ee_metadata e) = cq_command_id c)
    (cq_events c);
  pl_instance : au_instance_id (cq_authorization_audit c) = cq_instance_id c }.

Lemma history_decided d k stream :
  stream = [] ∨ history d k stream → decided d (ee_event <$> stream).
Proof. intros [->|H]; [constructor|apply H]. Qed.

Lemma history_reachable d k stream :
  stream = [] ∨ history d k stream → instance_reachable d (replay_events stream).
Proof. by intros H%history_decided%decided_reachable. Qed.

(** Deciding on a history extends it. *)
Lemma history_extend d k base cfg vars cmd events :
  registered d → k.1 = wd_tenant_id d → config_ok cfg →
  base = [] ∨ history d k base →
  Workflow.decide d (replay_events base) (mkContext cfg vars) cmd = Ok (ee_event <$> events) →
  (N.of_nat (length (base ++ events)) ≤ u64_max)%N →
  Forall (belongs d k) events →
  contiguous_from (N.of_nat (length base) + 1) events →
  history d k (base ++ events).
Proof.
  intros Hreg Ht Hcfg Hbase Hdec Hlen Hev Hnum. pose proof (history_decided _ _ _ Hbase) as Hr.
  split; [done|done| | |done|].
  - apply Forall_app. split; [|done]. destruct Hbase as [->|Hb]; [constructor|apply Hb].
  - apply contiguous_from_app. rewrite N.add_comm. split; [|done].
    destruct Hbase as [->|Hb]; [done|apply Hb].
  - rewrite fmap_app. by eapply (decided_app _ _ (mkContext cfg vars)).
Qed.

Lemma stream_history v k e :
  stream_ok v k → e ∈ sv_stream v k →
  ∃ d, history d k (sv_stream v k) ∧ belongs d k e ∧
    em_event_id (ee_metadata e) =
      em_causation_command_id (ee_metadata e) +:+ ":" +:+ pretty (em_sequence (ee_metadata e)).
Proof.
  intros [[Hnil _]|(d & Hd & _)] He; [rewrite Hnil in He; set_solver|].
  exists d. pose proof (proj1 (Forall_forall _ _) (hi_belongs _ _ _ Hd) e He) as Hb.
  split_and!; [done|done|apply Hb].
Qed.

(** Two histories of the same stream are histories of the same definition. *)
Lemma history_definition d d' k stream e :
  history d k stream → registered d' → k.1 = wd_tenant_id d' → e ∈ stream →
  same_workflow d' (em_workflow_type (ee_metadata e)) (em_workflow_version (ee_metadata e)) = true →
  d = d'.
Proof.
  intros [Hreg Ht Hb _ _ _] Hreg' Ht' He. unfold same_workflow.
  rewrite andb_true_iff, !bool_decide_eq_true. intros [H1 H2].
  rewrite Forall_forall in Hb. destruct (Hb e He) as (_ & _ & H3 & H4 & _).
  unfold registered in *. congruence.
Qed.

Lemma history_unique d d' k stream :
  history d k stream → history d' k stream → stream ≠ [] → d = d'.
Proof.
  intros H [Hreg' Ht' Hb' _ _ _] Hne. destruct stream as [|e stream]; [done|].
  apply Forall_cons in Hb' as [(_ & _ & Hty & Hve & _) _].
  eapply history_definition; [exact H|done|done|by left|].
  unfold same_workflow. rewrite Hty, Hve. by rewrite !bool_decide_true by done.
Qed.

(** ** Loading an instance gives the state of its whole history *)
Lemma loaded_view v k loaded :
  stream_ok v k →
  li_snapshot loaded = sv_snapshot v k →
  li_events loaded = List.filter (is_after (snapshot_sequence (li_snapshot loaded))) (sv_stream v k) →
  loaded_state loaded = replay_events (sv_stream v k) ∧
  (sv_stream v k = [] ∨ ∃ d, history d k (sv_stream v k) ∧
     ((∃ s, li_snapshot loaded = Some s ∧ sn_workflow_type s = wd_workflow_type d ∧
            sn_workflow_version s = wd_workflow_version d) ∨
      ∃ e, e ∈ li_events loaded ∧ e ∈ sv_stream v k)).
Proof.
  intros Hok Hs He. unfold loaded_state. destruct Hok as [[Hnil Hsnap]|(d & Hd & Hsnap)].
  { rewrite He, Hs, Hsnap, Hnil. simpl. by split; [|left]. }
  destruct (li_snapshot loaded) as [s|] eqn:Hl.
  - destruct (Hsnap s) as (pre & post & Happ & Hpre & Hst & _ & _ & Hty & Hve); [congruence|].
    pose proof (hi_numbered _ _ _ Hd) as Hnum. pose proof (hi_bounded _ _ _ Hd) as Hlen.
    rewrite Happ in *. rewrite length_app in Hlen.
    assert (li_events loaded = post) as ->.
    { rewrite He. simpl. rewrite Hst, replay_events_sequence by lia.
      rewrite <-(filter_is_after 1 pre post Hnum) at 2 by lia. done. }
    split; [|right; exists d; split; [done|left; eauto]].
    simpl. rewrite Hst, replay_events_app. done.
  - rewrite He. simpl. rewrite filter_all.
    2: { intros e Hin. pose proof (contiguous_from_bounds _ _ _ (hi_numbered _ _ _ Hd) Hin).
      unfold is_after. lia. }
    split; [done|]. destruct (sv_stream v k) as [|e l] eqn:Hstream; [by left|].
    right. exists d. split; [done|]. right. exists e. split; by left.
Qed.

(** ** Planning a commit *)
Lemma plan_commit_planned v d request principal cfg loaded c :
  stream_ok v (rq_tenant_id request, rq_instance_id request) →
  registered d → rq_tenant_id request = wd_tenant_id d → config_ok cfg →
  li_version loaded = N.of_nat (length (sv_stream v (rq_tenant_id request, rq_instance_id request))) →
  li_snapshot loaded = sv_snapshot v (rq_tenant_id request, rq_instance_id request) →
  li_events loaded = List.filter (is_after (snapshot_sequence (li_snapshot loaded)))
    (sv_stream v (rq_tenant_id request, rq_instance_id request)) →
  plan_commit d request principal cfg loaded = Ok c → planned v c.
Proof.
  intros Hok Hreg Ht Hcfg Hver Hsnap Hev H.
  destruct (loaded_view _ _ _ Hok Hsnap Hev) as [Hstate Hown].
  set (k := (rq_tenant_id request, rq_instance_id request)) in *.
  unfold plan_commit in H. apply bind_Ok in H as ([] & Hs1%bail_if_Ok & H).
  apply bind_Ok in H as ([] & Hs2%bail_if_Ok & H). cbv zeta in H. rewrite Hstate in H.
  apply bind_Ok in H as (evs & Hdec%map_err_Ok & H).
  apply bind_Ok in H as (envs & Hatt & H). apply bind_Ok in H as (result & Hres & H).
  apply bind_Ok in H as (snap & Hlatest & H).
  apply attach_from_Ok in Hatt as (<- & Hnum & Hst).
  apply snapshot_at_latest_boundary_Ok in Hlatest.
  unfold committed_result in Hres. apply bind_Ok in Hres as (n & Hn%ok_or_Ok & Hres).
  apply bind_Ok in Hres as (version & Hbound%ok_or_Ok & _).
  apply u64_of_usize_Some in Hn as [-> _]. apply checked_add_Some in Hbound as [_ Hbound].
  assert (sv_stream v k = [] ∨ history d k (sv_stream v k)) as Hbase.
  { destruct Hown as [Hnil|(d' & Hd' & Hid)]; [by left|]. right.
    enough (d' = d) as <- by done. destruct Hid as [(s & Hl & Hty & Hve)|(e & He & Hin)].
    - rewrite Hl, negb_false_iff in Hs1. unfold same_workflow in Hs1.
      rewrite andb_true_iff, !bool_decide_eq_true in Hs1. destruct Hs1 as [H1 H2].
      pose proof (hi_registered _ _ _ Hd') as Hreg'. pose proof (hi_tenant _ _ _ Hd') as Ht'.
      unfold registered in *. simpl in Ht'. congruence.
    - eapply history_definition; [done|done|done|exact Hin|].
      destruct (same_workflow _ _ _) eqn:Hw; [done|].
      enough (existsb (λ e, negb (same_workflow d (em_workflow_type (ee_metadata e))
        (em_workflow_version (ee_metadata e)))) (li_events loaded) = true) by congruence.
      apply existsb_exists. exists e. split; [by apply list_elem_of_In|by rewrite Hw]. }
  destruct (transition_selector d (rq_command request)) as [node action].
  injection H as <-. rewrite Hver in *.
  assert (Forall (belongs d k) envs) as Hbel.
  { eapply Forall_impl; [exact Hst|]. intros e [H1 H2 H3 H4 H5 H6 H7 H8].
    unfold belongs, k. simpl. split_and!; congruence. }
  split; [|eapply Forall_impl; [exact Hst|]; by intros e []|done].
  exists d, (sv_stream v k), [], cfg, (rq_variables request), (rq_command request).
  simpl. rewrite app_nil_r, length_app. split_and!; try done; [lia|].
  intros s ->. destruct Hlatest as (pre & post & -> & Hpre & Hs & Hid).
  exists (sv_stream v k ++ pre), post. rewrite replay_events_app, <-app_assoc.
  split_and!; try apply Hid; [done| |done]. by intros [_ ?]%app_eq_nil.
Qed.

(** ** The effect of a commit on the invariants *)
Lemma stream_ok_proper v w k : v ≡ w → stream_ok v k → stream_ok w k.
Proof. intros Hvw. unfold stream_ok. by setoid_rewrite Hvw. Qed.

Lemma audited_proper v w : v ≡ w → audited v → audited w.
Proof. intros Hvw. unfold audited. by setoid_rewrite Hvw. Qed.

Lemma planned_proper v w c : v ≡ w → planned v c → planned w c.
Proof. intros Hvw [H1 H2 H3]. split; [|done..]. by setoid_rewrite <-Hvw. Qed.

Lemma commit_stream_ok v c k :
  (∀ k, stream_ok v k) → planned v c → acceptable v c → stream_ok (view_append v c) k.
Proof.
  intros Hok Hpl Hacc. destruct (decide (k = stream_key c)) as [->|Hne].
  2: { specialize (Hok k). unfold stream_ok, view_append, set_at in *. simpl.
    rewrite decide_False by done. destruct (cq_snapshot c); [|done].
    by rewrite decide_False by done. }
  destruct Hpl as [(d & base & tail & cfg & vars & cmd & Happ & Hexp & Hreg & Ht & Hcfg & Hbase &
    Hdec & Hlen & Hbel & Hsnap) _ _].
  pose proof (ac_version _ _ Hacc) as Hver.
  assert (tail = []) as ->.
  { rewrite Happ, length_app in Hver. apply length_zero_iff_nil. lia. }
  rewrite app_nil_r in Happ. pose proof (ac_contiguous _ _ Hacc) as Hnum. rewrite Hexp in Hnum.
  right. exists d. unfold view_append, set_at. simpl. rewrite decide_True by done. rewrite Happ.
  split; [by eapply history_extend|]. intros s. destruct (cq_snapshot c) as [s'|].
  - rewrite decide_True by done. intros [= <-]. by apply Hsnap.
  - intros Hs. destruct (Hok (stream_key c)) as [[_ Hnone]|(d' & Hd' & Hs')]; [congruence|].
    destruct (Hs' s Hs) as (pre & post & Hpp & Hpre & Hst & Htn & Hin & Hty & Hve).
    rewrite Happ in Hpp, Hd'. assert (base ≠ []) as Hne by (rewrite Hpp; by destruct pre).
    destruct Hbase as [?|Hb]; [done|]. rewrite (history_unique _ _ _ _ Hb Hd' Hne).
    exists pre, (post ++ cq_events c). by rewrite Hpp, (assoc_L (++)).
Qed.

Lemma commit_planned v c c' :
  acceptable v c → planned v c' → planned (view_append v c) c'.
Proof.
  intros Hacc [(d & base & tail & cfg & vars & cmd & Happ & H) H2 H3]. split; [|done..].
  destruct (decide (stream_key c' = stream_key c)) as [Heq|Hne].
  - exists d, base, (tail ++ cq_events c), cfg, vars, cmd. split; [|done].
    unfold view_append, set_at. simpl. rewrite decide_True by done.
    by rewrite <-Heq, Happ, (assoc_L (++)).
  - exists d, base, tail, cfg, vars, cmd. split; [|done].
    unfold view_append, set_at. simpl. by rewrite decide_False by done.
Qed.

Lemma commit_audited v c :
  audited v → planned v c → acceptable v c → audited (view_append v c).
Proof.
  intros Hau [_ Hcmd Hinst] Hacc k e. unfold view_append, set_at. simpl. intros He.
  assert (e ∈ sv_stream v k ∨ (k = stream_key c ∧ e ∈ cq_events c)) as [Hin|[-> Hin]].
  { destruct (decide (k = stream_key c)) as [->|Hne]; [|by left].
    apply elem_of_app in He as [He|He]; [by left|by right]. }
  - destruct (Hau _ _ Hin) as (a & Ha & Hi). exists a. split; [|done].
    rewrite decide_False; [done|]. intros Heq. rewrite Heq in Ha.
    rewrite (ac_unaudited _ _ Hacc) in Ha. done.
  - rewrite Forall_forall in Hcmd. rewrite (Hcmd e Hin).
    rewrite decide_True by done. exists (cq_authorization_audit c). split_and!; [done|done|].
    by apply (proj1 (Forall_forall _ _) (ac_scope _ _ Hacc)).
Qed.
End histories.

(** ** Handlers over a shared store *)
Section system.
Context {S : Type} `{LawfulStore S}.
Context (registry : TenantId → WorkflowType → WorkflowVersion → option WorkflowDefinition).

(** A state: the store, and the commits planned so far. A planned commit may
    be sent at any later time, and more than once. *)
Abbreviation system := (S * list CommitRequest)%type (only parsing).

Inductive engine_step : system → system → Prop :=
| step_plan s pending d request principal cfg loaded c :
    registered registry d → rq_tenant_id request = wd_tenant_id d → config_ok cfg →
    load s (rq_tenant_id request) (rq_instance_id request) = Ok loaded →
    plan_commit d request principal cfg loaded = Ok c →
    engine_step (s, pending) (s, c :: pending)
| step_commit s pending c s' r :
    c ∈ pending → commit c s = (s', r) → engine_step (s, pending) (s', pending).

Definition empty_view (v : StoreView) : Prop :=
  (∀ k, sv_stream v k = []) ∧ (∀ k, sv_snapshot v k = None) ∧
  (∀ k, sv_result v k = None) ∧ (∀ k, sv_audit v k = None).

Inductive engine_reachable : system → Prop :=
| engine_start s : empty_view (view s) → engine_reachable (s, [])
| engine_continue x y : engine_reachable x → engine_step x y → engine_reachable y.

Record system_inv (x : system) : Prop := {
  sy_streams : ∀ k, stream_ok registry (view x.1) k;
  sy_audited : audited (view x.1);
  sy_planned : Forall (planned registry (view x.1)) x.2 }.

Lemma load_planned s d request principal cfg loaded c :
  (∀ k, stream_ok registry (view s) k) →
  registered registry d → rq_tenant_id request = wd_tenant_id d → config_ok cfg →
  load s (rq_tenant_id request) (rq_instance_id request) = Ok loaded →
  plan_commit d request principal cfg loaded = Ok c → planned registry (view s) c.
Proof.
  intros Hok Hreg Ht Hcfg (Hver & Hsnap & Hev)%load_law Hplan.
  by eapply plan_commit_planned.
Qed.

(** What a commit by any handler does to the invariants. *)
Lemma commit_system_inv s pending c s' r :
  system_inv (s, pending) → c ∈ pending → commit c s = (s', r) → system_inv (s', pending).
Proof.
  intros [Hok Hau Hpl] Hc Hcommit%commit_law. simpl in *.
  assert (view s' ≡ view s → system_inv (s', pending)) as Hsame.
  { intros Heq. symmetry in Heq. split; simpl.
    - intros k. by apply (stream_ok_proper _ (view s)).
    - by apply (audited_proper (view s)).
    - eapply Forall_impl; [exact Hpl|]. intros c'. by apply planned_proper. }
  destruct r as [[result|result]| |]; [|by apply Hsame; destruct Hcommit|by apply Hsame..].
  destruct Hcommit as (Hacc & _ & Heq). symmetry in Heq.
  pose proof (proj1 (Forall_forall _ _) Hpl c Hc) as Hplc. split; simpl.
  - intros k. eapply stream_ok_proper; [exact Heq|]. by apply commit_stream_ok.
  - eapply audited_proper; [exact Heq|]. by eapply commit_audited.
  - eapply Forall_impl; [exact Hpl|]. intros c' Hc'.
    eapply planned_proper; [exact Heq|]. by apply commit_planned.
Qed.

Lemma engine_step_inv x y : system_inv x → engine_step x y → system_inv y.
Proof.
  intros Hinv Hstep. destruct Hstep as [s pending d request principal cfg loaded c|s pending c s' r].
  - destruct Hinv as [Hok Hau Hpl]. split; simpl in *; [done|done|].
    constructor; [|done]. by eapply load_planned.
  - by eapply commit_system_inv.
Qed.

Lemma engine_reachable_inv x : engine_reachable x → system_inv x.
Proof.
  induction 1 as [s (H1 & H2 & H3 & H4)|x y _ IH Hstep]; [|by eapply engine_step_inv].
  split; simpl; [|intros k e; rewrite H1; set_solver|constructor].
  intros k. left. by rewrite H1, H2.
Qed.

(** ** What is recorded stays *)
Lemma commit_extends c s s' r k :
  commit c s = (s', r) → ∃ more, sv_stream (view s') k = sv_stream (view s) k ++ more.
Proof.
  intros Hcommit%commit_law.
  assert (view s' ≡ view s → ∃ more, sv_stream (view s') k = sv_stream (view s) k ++ more) as Hsame.
  { intros Heq. exists []. by rewrite Heq, app_nil_r. }
  destruct r as [[result|result]| |]; [|by apply Hsame; destruct Hcommit|by apply Hsame..].
  destruct Hcommit as (_ & _ & Heq). setoid_rewrite Heq. unfold view_append, set_at. simpl.
  destruct (decide (k = stream_key c)) as [->|]; [eauto|exists []; by rewrite app_nil_r].
Qed.

Lemma commit_keeps_result c s s' r scope stored :
  commit c s = (s', r) → sv_result (view s) scope = Some stored →
  sv_result (view s') scope = Some stored.
Proof.
  intros Hcommit%commit_law Hs. destruct r as [[result|result]| |].
  - destruct Hcommit as (Hacc & _ & ->). unfold view_append, set_at. simpl.
    case_decide as Heq; [|done]. rewrite Heq, (ac_fresh _ _ Hacc) in Hs. done.
  - by destruct Hcommit as [_ ->].
  - by rewrite Hcommit.
  - by rewrite Hcommit.
Qed.

Lemma steps_keep_result x y scope stored :
  rtc engine_step x y → sv_result (view x.1) scope = Some stored →
  sv_result (view y.1) scope = Some stored.
Proof.
  induction 1 as [|x y z Hstep _ IH]; [done|]. intros Hs. apply IH.
  destruct Hstep as [|s pending c s' r _ Hc]; [done|]. by eapply commit_keeps_result.
Qed.

Lemma steps_extend x y k :
  rtc engine_step x y → ∃ more, sv_stream (view y.1) k = sv_stream (view x.1) k ++ more.
Proof.
  induction 1 as [x|x y z Hstep _ [more IH]]; [exists []; by rewrite app_nil_r|].
  destruct Hstep as [|s pending c s' r _ Hc]; [by eauto|].
  destruct (commit_extends _ _ _ _ k Hc) as [more' Hm]. simpl in *.
  exists (more' ++ more). by rewrite IH, Hm, (assoc_L (++)).
Qed.

(** ** The handler as steps *)
Section handler.
Context (authorize : AuthorizationRequest → res AuthorizationError AuthorizedPrincipal).
Context (resolve : ConfigurationLookup → res ConfigError ResolvedConfigSnapshot).
Hypothesis resolve_valid : ∀ lookup cfg, resolve lookup = Ok cfg → config_ok cfg.

Definition outcome_of (r : res StoreError CommitOutcome) : res EngineError HandleOutcome :=
  outcome ← map_err Engine_Store r;
  Ok (match outcome with
      | Committed result => Handle_Committed result
      | Duplicate result => Handle_Duplicate result
      end).

(** [handle] ends without touching the store, with an error or an earlier
    result, or it ends in a commit. *)
Lemma handle_cases d request s s' r :
  handle authorize resolve d request s = (s', r) →
  (s' = s ∧ ∀ outcome, r = Ok outcome → ∃ principal result,
     outcome = Handle_Duplicate result ∧
     authorize (authorization_request d request) = Ok principal ∧
     lookup_idempotency s (rq_tenant_id request) (ap_actor_id principal)
       (rq_idempotency_key request) (rq_command_id request) = Ok (Some result)) ∨
  (∃ principal cfg loaded c r1,
     rq_tenant_id request = wd_tenant_id d ∧
     authorize (authorization_request d request) = Ok principal ∧
     (∃ lookup, resolve lookup = Ok cfg) ∧
     load s (rq_tenant_id request) (rq_instance_id request) = Ok loaded ∧
     plan_commit d request principal cfg loaded = Ok c ∧
     commit c s = (s', r1) ∧ r = outcome_of r1).
Proof.
  unfold handle. rewrite bail_if_then. case_bool_decide as Ht; [by intros [= <- <-]; left|].
  unfold read, call, self, lift, mbind, method_bind, mret, method_ret.
  destruct (authorize _) as [principal| |] eqn:Ha; cbn -[plan_commit]; [|by intros [= <- <-]; left..].
  destruct (lookup_idempotency _ _ _ _ _) as [[result|]| |] eqn:Hl; cbn -[plan_commit];
    [intros [= <- <-]; left; split; [done|]; intros ? [= <-]; by eauto 6| |by intros [= <- <-]; left..].
  destruct (resolve _) as [cfg| |] eqn:Hcfg; cbn -[plan_commit]; [|by intros [= <- <-]; left..].
  destruct (validate_configuration_binding _ _ _); cbn -[plan_commit]; [|by intros [= <- <-]; left..].
  destruct (load s _ _) as [loaded| |] eqn:Hload; cbn -[plan_commit]; [|by intros [= <- <-]; left..].
  destruct (plan_commit _ _ _ _ _) as [c| |] eqn:Hplan; cbn -[plan_commit];
    [|by intros [= <- <-]; left..].
  destruct (commit c s) as [s1 r1] eqn:Hcommit. intros Hrun. right.
  exists principal, cfg, loaded, c, r1. split_and!; try done; [by eauto|..].
  - rewrite Hcommit. destruct r1; simpl in Hrun; by injection Hrun as ->.
  - destruct r1; simpl in Hrun; by injection Hrun as _ <-.
Qed.

(** Every run of [handle] is a sequence of steps. *)
Lemma handle_steps d request s s' r pending :
  registered registry d →
  handle authorize resolve d request s = (s', r) →
  ∃ pending', rtc engine_step (s, pending) (s', pending').
Proof using resolve_valid.
  intros Hreg [[-> _]|(principal & cfg & loaded & c & r1 & Ht & _ & [lookup Hcfg] & Hload & Hplan &
    Hcommit & _)]%handle_cases; [by exists pending|].
  exists (c :: pending). eapply rtc_l; [eapply step_plan; eauto|]. apply rtc_once.
  eapply step_commit; [by left|done].
Qed.

(** The key a successful run leaves behind, and what it answers later. *)
Lemma handle_recorded d request s s' outcome :
  handle authorize resolve d request s = (s', Ok outcome) →
  ∃ principal result, authorize (authorization_request d request) = Ok principal ∧
    (outcome = Handle_Committed result ∨ outcome = Handle_Duplicate result) ∧
    sv_result (view s') (rq_tenant_id request, ap_actor_id principal, rq_idempotency_key request) =
      Some (mkStored (rq_command_id request) result).
Proof.
  intros [[-> Hdup]|(principal & cfg & loaded & c & r1 & Ht & Ha & _ & _ & Hplan & Hcommit &
    Hr)]%handle_cases.
  - destruct (Hdup _ eq_refl) as (principal & result & -> & Ha & Hl).
    exists principal, result. split; [done|]. split; [by right|]. rewrite lookup_law in Hl.
    destruct (sv_result _ _) as [[cmd res]|]; [|done]. simpl in Hl.
    case_decide as Heq; [|done]. by injection Hl as ->; subst.
  - assert (idempotency_scope c = (rq_tenant_id request, ap_actor_id principal,
      rq_idempotency_key request) ∧ cq_command_id c = rq_command_id request) as [Hscope Hcmd].
    { unfold plan_commit in Hplan. repeat (apply bind_Ok in Hplan as (? & _ & Hplan)).
      cbv zeta in Hplan. repeat (apply bind_Ok in Hplan as (? & _ & Hplan)).
      destruct (transition_selector _ _). by injection Hplan as <-. }
    apply commit_law in Hcommit.
    destruct r1 as [[result|result]| |]; try done; injection Hr as ->;
      exists principal, result; (split; [done|]); (split; [by eauto|]);
      rewrite <-Hscope, <-Hcmd.
    + destruct Hcommit as (_ & -> & ->). unfold view_append, set_at. simpl. by rewrite decide_True.
    + by destruct Hcommit as [Hs ->].
Qed.
(** A request under a key that was used gets the recorded answer, whatever
    was committed in between. *)
Lemma handle_again d request request' s s1 outcome s2 pending pending' :
  handle authorize resolve d request s = (s1, Ok outcome) →
  rtc engine_step (s1, pending) (s2, pending') →
  authorize (authorization_request d request') = authorize (authorization_request d request) →
  rq_tenant_id request' = rq_tenant_id request →
  rq_idempotency_key request' = rq_idempotency_key request →
  ∃ result, (outcome = Handle_Committed result ∨ outcome = Handle_Duplicate result) ∧
    handle authorize resolve d request' s2 =
      (s2, if decide (rq_command_id request' = rq_command_id request)
           then Ok (Handle_Duplicate result) else Err (Engine_Store IdempotencyConflict)).
Proof using H0.
  intros Hrun Hsteps Hauth Htenant Hkey.
  assert (rq_tenant_id request = wd_tenant_id d) as Hd.
  { unfold handle in Hrun. rewrite bail_if_then in Hrun. case_bool_decide as Ht; [done|].
    destruct (decide (rq_tenant_id request = wd_tenant_id d)); tauto. }
  destruct (handle_recorded d request s s1 outcome Hrun) as (principal & result & Ha & Hout & Hrec).
  exists result. split; [done|].
  pose proof (steps_keep_result (s1, pending) (s2, pending') _ _ Hsteps Hrec) as Hrec2. simpl in Hrec2.
  unfold handle. rewrite bail_if_then, bool_decide_false by (rewrite Htenant, Hd; auto).
  rewrite lift_then, Hauth, Ha. cbn [map_err].
  rewrite read_then, lookup_law, Htenant, Hkey, Hrec2. simpl.
  destruct (decide (rq_command_id request = _)), (decide (rq_command_id request' = _)); try congruence;
    done.
Qed.
End handler.
End system.
