(* ===== verification/Wire.v ===== *)
(** * Protocol messages

    The messages of [gen/rust/bpmp/engine/v1/bpmp.engine.v1.rs] that carry
    durable events and snapshots, and the conversions the two codecs of
    [apps/rust/bpmp-engine/src] share. Enumeration fields are [i32]; the
    fields of a record carry the prefix of its message. *)

From S2P Require Import Prelude Types.
From stdpp Require Import options.

Module Wire.

(** ** Values *)
Inductive WorkflowValueItem :=
| mkValueItem (value : option ItemValue)
with ItemValue :=
| Item_BooleanValue (b : bool)
| Item_IntegerValue (z : Z)
| Item_StringValue (s : string)
| Item_ListValue (items : list WorkflowValueItem).
(** [WorkflowValueList] has the one field [items]. *)
Abbreviation WorkflowValueList := (list WorkflowValueItem) (only parsing).

Inductive VariableValue :=
| BooleanValue (b : bool)
| IntegerValue (z : Z)
| StringValue (s : string)
| ListValue (items : WorkflowValueList).
Record WorkflowVariable := mkVariable {
  wv_name : string;
  wv_value : option VariableValue }.

(** ** Enumerations *)
Inductive MultiInstanceMode := Mode_Unspecified | Mode_Sequential | Mode_Parallel.
Definition mode_i32 (m : MultiInstanceMode) : Z :=
  match m with Mode_Unspecified => 0 | Mode_Sequential => 1 | Mode_Parallel => 2 end.
Definition mode_try_from (z : Z) : option MultiInstanceMode :=
  match z with
  | 0 => Some Mode_Unspecified | 1 => Some Mode_Sequential | 2 => Some Mode_Parallel
  | _ => None
  end%Z.

Inductive BoundaryTriggerKind :=
| Kind_Unspecified | Kind_TimerDate | Kind_TimerDuration | Kind_TimerCycle | Kind_Error
| Kind_Message.
Definition trigger_kind_i32 (k : BoundaryTriggerKind) : Z :=
  match k with
  | Kind_Unspecified => 0 | Kind_TimerDate => 1 | Kind_TimerDuration => 2
  | Kind_TimerCycle => 3 | Kind_Error => 4 | Kind_Message => 5
  end.
Definition trigger_kind_try_from (z : Z) : option BoundaryTriggerKind :=
  match z with
  | 0 => Some Kind_Unspecified | 1 => Some Kind_TimerDate | 2 => Some Kind_TimerDuration
  | 3 => Some Kind_TimerCycle | 4 => Some Kind_Error | 5 => Some Kind_Message
  | _ => None
  end%Z.

Inductive WorkflowLifecycle :=
| Lifecycle_Unspecified | Lifecycle_Initial | Lifecycle_Active | Lifecycle_Completed
| Lifecycle_TerminatedForCompliance.
Definition lifecycle_i32 (l : WorkflowLifecycle) : Z :=
  match l with
  | Lifecycle_Unspecified => 0 | Lifecycle_Initial => 1 | Lifecycle_Active => 2
  | Lifecycle_Completed => 3 | Lifecycle_TerminatedForCompliance => 4
  end.
Definition lifecycle_try_from (z : Z) : option WorkflowLifecycle :=
  match z with
  | 0 => Some Lifecycle_Unspecified | 1 => Some Lifecycle_Initial | 2 => Some Lifecycle_Active
  | 3 => Some Lifecycle_Completed | 4 => Some Lifecycle_TerminatedForCompliance
  | _ => None
  end%Z.

(** ** Events *)
Record EventMetadata := mkEventMetadata {
  m_event_id : string;
  m_tenant_id : string;
  m_instance_id : string;
  m_sequence : N;
  m_schema_version : N;
  m_correlation_id : string;
  m_causation_command_id : string;
  m_occurred_at_epoch_ms : N;
  m_config_version : string;
  m_policy_version : string;
  m_actor_id : string;
  m_encryption_key_scope : string;
  m_workflow_type : string;
  m_workflow_version : string }.

(** [event_envelope::Event]; each constructor carries the fields of its
    message, in the order of the message. *)
Inductive Event :=
| WorkflowStarted (workflow_type workflow_version start_node_id tenant_id : string)
| ServiceTaskActivated (node_id task_type : string)
| ServiceTaskCompleted (node_id : string) (outputs : list WorkflowVariable)
| WorkflowCompleted
| DecisionTaskEvaluated (node_id decision_table_id : string) (outputs : list WorkflowVariable)
| GatewaySplitActivated (gateway_id join_gateway_id : string)
    (selected_target_node_ids : list string)
| GatewayTokenArrived (gateway_id : string)
| GatewayJoined (gateway_id : string)
| MultiInstanceStarted (node_id task_type : string) (mode : Z)
    (total_instances max_parallelism : N) (item_variable : string)
    (items : list WorkflowValueItem)
| MultiInstanceIterationActivated (node_id task_type : string) (iteration : N)
    (item : option WorkflowValueItem)
| MultiInstanceIterationCompleted (node_id : string) (iteration : N)
| MultiInstanceCompleted (node_id : string) (completion_condition_satisfied : bool)
    (cancelled_iterations : list N)
| BoundaryEventTriggered (boundary_event_id attached_node_id target_node_id : string)
    (cancel_activity : bool) (cancelled_iterations : list N) (cancelled_task_tokens : N)
| WorkflowBranchCompleted (end_node_id : string)
| BoundaryEventArmed (boundary_event_id attached_node_id target_node_id : string)
    (cancel_activity : bool) (trigger_kind : Z) (trigger_reference : string)
| BoundaryEventsDisarmed (attached_node_id : string) (boundary_event_ids : list string)
| ScopeEntered (scope_instance_id scope_node_id start_node_id : string)
    (parent_scope_instance_id : option string) (invocation : N)
| ScopeCompleted (scope_instance_id scope_node_id end_node_id : string)
| UserTaskActivated (node_id task_type assignment_policy_ref form_key : string)
| UserTaskCompleted (node_id decision result_variable : string)
| ScriptTaskActivated (node_id task_type implementation_ref implementation_version : string)
| ScriptTaskCompleted (node_id : string)
| CaseActivated (case_id case_type : string) (stage_ids milestone_ids : list string)
| CasePlanItemTransitioned (case_id plan_item_id plan_item_kind status : string)
    (satisfied_sentry_ids : list string)
| UserTaskCancelled (node_id reason : string)
| CaseSentrySatisfied (case_id sentry_id : string)
| CaseCompleted (case_id : string)
| WorkflowTerminatedForCompliance (policy_id : string) (request_digest : list N)
    (reason_code : string) (reconciliation_count : N).

Record EventEnvelope := mkEventEnvelope {
  e_metadata : option EventMetadata;
  e_event : option Event }.

(** ** Snapshots *)
Record ActiveToken := mkActiveToken { t_node_id : string; t_count : N }.
Record PendingGatewayJoin := mkPendingGatewayJoin {
  j_gateway_id : string;
  j_expected_tokens : N;
  j_arrived_tokens : N }.
Record ActiveMultiInstance := mkActiveMultiInstance {
  a_node_id : string;
  a_task_type : string;
  a_mode : Z;
  a_total_instances : N;
  a_next_iteration : N;
  a_max_parallelism : N;
  a_item_variable : string;
  a_items : list WorkflowValueItem;
  a_active_iterations : list N;
  a_completed_iterations : list N }.
Record ActiveBoundarySubscription := mkActiveBoundarySubscription {
  b_boundary_event_id : string;
  b_attached_node_id : string;
  b_target_node_id : string;
  b_cancel_activity : bool;
  b_trigger_kind : Z;
  b_trigger_reference : string;
  b_armed_at_epoch_ms : N }.
Record ActiveExecutionScope := mkActiveExecutionScope {
  x_scope_instance_id : string;
  x_scope_node_id : string;
  x_start_node_id : string;
  x_parent_scope_instance_id : option string;
  x_invocation : N }.
Record ScopeInvocationCounter := mkScopeInvocationCounter {
  n_scope_node_id : string;
  n_invocations : N }.
Record CasePlanItemState := mkCasePlanItemState {
  p_plan_item_id : string;
  p_kind : string;
  p_status : string }.
Record ActiveCase := mkActiveCase {
  c_case_id : string;
  c_status : string;
  c_satisfied_sentry_ids : list string;
  c_plan_items : list CasePlanItemState;
  c_case_model_id : string }.
Record WorkflowSnapshot := mkWorkflowSnapshot {
  s_tenant_id : string;
  s_instance_id : string;
  s_sequence : N;
  s_schema_version : N;
  s_workflow_type : string;
  s_workflow_version : string;
  s_lifecycle : Z;
  s_active_node_id : string;
  s_config_version : string;
  s_policy_version : string;
  s_encryption_key_scope : string;
  s_variables : list WorkflowVariable;
  s_active_tokens : list ActiveToken;
  s_pending_gateway_joins : list PendingGatewayJoin;
  s_active_multi_instances : list ActiveMultiInstance;
  s_active_boundary_subscriptions : list ActiveBoundarySubscription;
  s_active_scopes : list ActiveExecutionScope;
  s_scope_invocation_counters : list ScopeInvocationCounter;
  s_active_cases : list ActiveCase }.
End Wire.

(** ** Conversions shared by the codecs *)
Fixpoint workflow_value_item_to_wire (value : WorkflowValue) : Wire.WorkflowValueItem :=
  Wire.mkValueItem (Some
    match value with
    | VBoolean b => Wire.Item_BooleanValue b
    | VInteger z => Wire.Item_IntegerValue z
    | VString s => Wire.Item_StringValue s
    | VList items => Wire.Item_ListValue (List.map workflow_value_item_to_wire items)
    end).
Definition workflow_value_list_to_wire (items : list WorkflowValue) : Wire.WorkflowValueList :=
  List.map workflow_value_item_to_wire items.
Definition workflow_value_to_wire (value : WorkflowValue) : Wire.VariableValue :=
  match value with
  | VBoolean b => Wire.BooleanValue b
  | VInteger z => Wire.IntegerValue z
  | VString s => Wire.StringValue s
  | VList items => Wire.ListValue (workflow_value_list_to_wire items)
  end.
(** [|(name, value)| wire::WorkflowVariable { .. }] over the map's entries. *)
Definition variables_to_wire (variables : Variables) : list Wire.WorkflowVariable :=
  (λ p, Wire.mkVariable p.1 (Some (workflow_value_to_wire p.2))) <$> btree_iter variables.

Definition multi_instance_mode_to_wire (mode : MultiInstanceMode) : Wire.MultiInstanceMode :=
  match mode with Sequential => Wire.Mode_Sequential | Parallel => Wire.Mode_Parallel end.

Definition boundary_trigger_to_wire (trigger : BoundaryTrigger)
    : Wire.BoundaryTriggerKind * string :=
  match trigger with
  | Trigger_Timer kind expression =>
      (match kind with
       | Date => Wire.Kind_TimerDate
       | Duration => Wire.Kind_TimerDuration
       | Cycle => Wire.Kind_TimerCycle
       end, expression)
  | Trigger_Error error_ref => (Wire.Kind_Error, default "" error_ref)
  | Trigger_Message message_ref => (Wire.Kind_Message, message_ref)
  end.

Definition case_plan_item_kind_name (kind : CasePlanItemKind) : string :=
  match kind with Stage => "STAGE" | Milestone => "MILESTONE" end.
Definition case_plan_item_status_name (status : CasePlanItemStatus) : string :=
  match status with
  | Item_Available => "AVAILABLE" | Item_Active => "ACTIVE" | Item_Completed => "COMPLETED"
  end.

Definition optional_non_empty (value : string) : option string :=
  if is_blank value then None else Some value.

(** [Option::map] followed by [transpose]. *)
Definition transpose {E A B} (f : A → res E B) (o : option A) : res E (option B) :=
  match o with Some a => b ← f a; Ok (Some b) | None => Ok None end.

(** The decoders; the two codecs differ in their error type only. *)
Section decode.
Context {E : Type} (empty_field : string → E) (missing_value : E)
  (invalid_mode invalid_trigger : Z → E) (invalid_identifier : string → IdentifierError → E).

Definition non_empty (value field : string) : res E string :=
  if is_blank value then Err (empty_field field) else Ok value.

Definition identifier (kind value field : string) : res E string :=
  map_err (invalid_identifier field) (identifier_new kind value).

Fixpoint workflow_value_item_from_wire (item : Wire.WorkflowValueItem) : res E WorkflowValue :=
  match item with
  | Wire.mkValueItem None => Err missing_value
  | Wire.mkValueItem (Some value) =>
      match value with
      | Wire.Item_BooleanValue b => Ok (VBoolean b)
      | Wire.Item_IntegerValue z => Ok (VInteger z)
      | Wire.Item_StringValue s => Ok (VString s)
      | Wire.Item_ListValue items =>
          items ← mapM workflow_value_item_from_wire items; Ok (VList items)
      end
  end.
Definition workflow_value_list_from_wire (items : Wire.WorkflowValueList) : res E WorkflowValue :=
  items ← mapM workflow_value_item_from_wire items; Ok (VList items).

Definition workflow_variable_from_wire (variable : Wire.WorkflowVariable)
    : res E (string * WorkflowValue) :=
  name ← non_empty (Wire.wv_name variable) "workflow_variable.name";
  value ← ok_or (Wire.wv_value variable) missing_value;
  value ← match value with
          | Wire.BooleanValue b => Ok (VBoolean b)
          | Wire.IntegerValue z => Ok (VInteger z)
          | Wire.StringValue s => Ok (VString s)
          | Wire.ListValue items => workflow_value_list_from_wire items
          end;
  Ok (name, value).
(** [.map(workflow_variable_from_wire).collect::<Result<BTreeMap<..>>>()] *)
Definition variables_from_wire (variables : list Wire.WorkflowVariable) : res E Variables :=
  entries ← mapM workflow_variable_from_wire variables; Ok (btree_extend ∅ entries).

Definition multi_instance_mode_from_wire (value : Z) : res E MultiInstanceMode :=
  match Wire.mode_try_from value with
  | Some Wire.Mode_Sequential => Ok Sequential
  | Some Wire.Mode_Parallel => Ok Parallel
  | _ => Err (invalid_mode value)
  end.

Definition boundary_trigger_from_wire (field : string) (kind : Z) (reference : string)
    : res E BoundaryTrigger :=
  match Wire.trigger_kind_try_from kind with
  | Some Wire.Kind_TimerDate => e ← non_empty reference field; Ok (Trigger_Timer Date e)
  | Some Wire.Kind_TimerDuration => e ← non_empty reference field; Ok (Trigger_Timer Duration e)
  | Some Wire.Kind_TimerCycle => e ← non_empty reference field; Ok (Trigger_Timer Cycle e)
  | Some Wire.Kind_Error => Ok (Trigger_Error (optional_non_empty reference))
  | Some Wire.Kind_Message => e ← non_empty reference field; Ok (Trigger_Message e)
  | _ => Err (invalid_trigger kind)
  end.
End decode.

(** ** What survives the wire *)

(** An optional text is sent as the empty string when absent, and read back
    as absent when blank. *)
Definition optional_ok (o : option string) : bool :=
  match o with Some s => negb (is_blank s) | None => true end.
Definition text_ok (s : string) : bool := negb (is_blank s).
Definition trigger_ok (t : BoundaryTrigger) : bool :=
  match t with
  | Trigger_Timer _ expression => text_ok expression
  | Trigger_Error error_ref => optional_ok error_ref
  | Trigger_Message message_ref => text_ok message_ref
  end.
Definition names_ok (variables : Variables) : bool := forallb text_ok (btree_keys variables).

Lemma optional_non_empty_default o :
  optional_non_empty (default "" o) = o ↔ optional_ok o = true.
Proof.
  unfold optional_non_empty. destruct o as [s|]; [|done]. simpl. destruct (is_blank s); done.
Qed.

Section round_trips.
Context {E : Type} (empty_field : string → E) (missing_value : E)
  (invalid_mode invalid_trigger : Z → E) (invalid_identifier : string → IdentifierError → E).

Lemma non_empty_Ok value field v :
  non_empty empty_field value field = Ok v ↔ v = value ∧ text_ok value = true.
Proof.
  unfold non_empty, text_ok. destruct (is_blank value); simpl;
    split; [done|by intros [_ [=]]|by intros [= ->]|by intros [-> _]].
Qed.

Lemma identifier_Ok kind value field v :
  identifier invalid_identifier kind value field = Ok v ↔ v = value ∧ text_ok value = true.
Proof.
  unfold identifier, identifier_new, text_ok. destruct (is_blank value); simpl;
    split; [done|by intros [_ [=]]|by intros [= ->]|by intros [-> _]].
Qed.

Lemma identifier_ok kind value field :
  text_ok value = true → identifier invalid_identifier kind value field = Ok value.
Proof. intros H. by apply identifier_Ok. Qed.

Lemma non_empty_ok value field :
  text_ok value = true → non_empty empty_field value field = Ok value.
Proof. intros H. by apply non_empty_Ok. Qed.

(** Decoding a list of encoded values. *)
Lemma mapM_round_trip {A B} (enc : A → B) (dec : B → res E A) l :
  (∀ a, a ∈ l → dec (enc a) = Ok a) → mapM dec (enc <$> l) = Ok l.
Proof.
  induction l as [|a l IH]; intros H; [done|]. rewrite fmap_cons. unfold mapM in *.
  rewrite (H a) by (by left). simpl in *. rewrite IH; [done|].
  intros b Hb. apply H. by right.
Qed.

Lemma value_item_round_trip v :
  workflow_value_item_from_wire missing_value (workflow_value_item_to_wire v) = Ok v.
Proof.
  induction v as [b|z|s|l IH] using WorkflowValue_ind'; try done. simpl.
  change (List.map workflow_value_item_to_wire l) with (workflow_value_item_to_wire <$> l).
  rewrite mapM_round_trip; [done|]. by apply Forall_forall.
Qed.

Lemma value_items_round_trip l :
  mapM (workflow_value_item_from_wire missing_value) (workflow_value_item_to_wire <$> l) = Ok l.
Proof. apply mapM_round_trip. intros v _. apply value_item_round_trip. Qed.

Lemma variable_round_trip name v :
  text_ok name = true →
  workflow_variable_from_wire empty_field missing_value
    (Wire.mkVariable name (Some (workflow_value_to_wire v))) = Ok (name, v).
Proof.
  intros H. unfold workflow_variable_from_wire. simpl. rewrite non_empty_ok by done. simpl.
  destruct v as [b|z|s|l]; try done. simpl. unfold workflow_value_list_from_wire.
  change (workflow_value_list_to_wire l) with (workflow_value_item_to_wire <$> l).
  by rewrite value_items_round_trip.
Qed.

Lemma names_ok_entry m name v : names_ok m = true → (name, v) ∈ btree_iter m → text_ok name = true.
Proof.
  unfold names_ok. rewrite forallb_forall. intros H Hin. apply H, list_elem_of_In.
  apply elem_of_btree_keys. exists v. by apply elem_of_btree_iter.
Qed.

Lemma variables_round_trip m :
  names_ok m = true →
  variables_from_wire empty_field missing_value (variables_to_wire m) = Ok m.
Proof.
  intros H. unfold variables_from_wire, variables_to_wire. rewrite mapM_round_trip; simpl.
  - f_equal. apply btree_extend_iter.
  - intros [name v] Hin. apply variable_round_trip. by eapply names_ok_entry.
Qed.

Lemma mode_round_trip mode :
  multi_instance_mode_from_wire invalid_mode
    (Wire.mode_i32 (multi_instance_mode_to_wire mode)) = Ok mode.
Proof. by destruct mode. Qed.

Lemma trigger_round_trip field t :
  let '(kind, reference) := boundary_trigger_to_wire t in
  boundary_trigger_from_wire empty_field invalid_trigger field
    (Wire.trigger_kind_i32 kind) reference = Ok t ↔ trigger_ok t = true.
Proof.
  destruct t as [kind e|r|m]; [destruct kind| |]; unfold boundary_trigger_from_wire; simpl;
    unfold non_empty, text_ok.
  1-3,5: destruct (is_blank _); simpl; split; congruence.
  rewrite <-optional_non_empty_default. split; [by intros [= ->]|by intros ->].
Qed.
End round_trips.
