(* ===== verification/EventCodec.v ===== *)
(** * The event codec

    [apps/rust/bpmp-engine/src/event_codec.rs]: durable events as protocol
    messages. The byte encoding of messages is code of the package [prost]
    and a parameter here. [wire_event] is the exact condition under which an
    event survives the round trip. *)

From S2P Require Import Prelude Types Loop Ports Wire.
From stdpp Require Import options.

Inductive EventCodecError :=
| Event_Decode (detail : string)
| MissingMetadata
| MissingEvent
| Event_TenantMismatch
| Event_EmptyField (field : string)
| MissingWorkflowVariableValue
| Event_InvalidMultiInstanceMode (value : Z)
| InvalidPositiveField (field : string)
| InvalidDigestLength
| Event_InvalidBoundaryTriggerKind (value : Z)
| Event_UnsupportedSchema (version : N)
| InvalidCaseEnum (field value : string)
| Event_Identifier (field : string) (source : IdentifierError).

Abbreviation codec := (res EventCodecError) (only parsing).

(** ** Encoding *)
Definition event_to_wire (event : DomainEvent) : Wire.Event :=
  match event with
  | CaseActivated case_id case_model_id stage_ids milestone_ids _ =>
      Wire.CaseActivated case_id case_model_id stage_ids milestone_ids
  | CaseSentrySatisfied case_id sentry_id _ => Wire.CaseSentrySatisfied case_id sentry_id
  | CasePlanItemTransitioned case_id plan_item_id kind status satisfied_sentry_ids _ =>
      Wire.CasePlanItemTransitioned case_id plan_item_id (case_plan_item_kind_name kind)
        (case_plan_item_status_name status) satisfied_sentry_ids
  | CaseCompleted case_id _ => Wire.CaseCompleted case_id
  | WorkflowStarted tenant_id workflow_type workflow_version start_node_id _ =>
      Wire.WorkflowStarted workflow_type workflow_version start_node_id tenant_id
  | ServiceTaskActivated node_id task_type _ => Wire.ServiceTaskActivated node_id task_type
  | ServiceTaskCompleted node_id outputs _ =>
      Wire.ServiceTaskCompleted node_id (variables_to_wire outputs)
  | UserTaskActivated node_id task_type assignment_policy_ref form_key _ =>
      Wire.UserTaskActivated node_id task_type assignment_policy_ref (default "" form_key)
  | UserTaskCompleted node_id decision result_variable _ =>
      Wire.UserTaskCompleted node_id decision result_variable
  | UserTaskCancelled node_id reason _ => Wire.UserTaskCancelled node_id reason
  | ScriptTaskActivated node_id task_type implementation_ref implementation_version _ =>
      Wire.ScriptTaskActivated node_id task_type implementation_ref implementation_version
  | ScriptTaskCompleted node_id _ => Wire.ScriptTaskCompleted node_id
  | DecisionTaskEvaluated node_id decision_table_id outputs _ =>
      Wire.DecisionTaskEvaluated node_id decision_table_id (variables_to_wire outputs)
  | GatewaySplitActivated gateway_id join_gateway_id selected_targets _ =>
      Wire.GatewaySplitActivated gateway_id join_gateway_id selected_targets
  | GatewayTokenArrived gateway_id _ => Wire.GatewayTokenArrived gateway_id
  | GatewayJoined gateway_id _ => Wire.GatewayJoined gateway_id
  | BoundaryEventArmed boundary_event_id attached_node_id target_node_id cancel_activity trigger _ =>
      let '(trigger_kind, trigger_reference) := boundary_trigger_to_wire trigger in
      Wire.BoundaryEventArmed boundary_event_id attached_node_id target_node_id cancel_activity
        (Wire.trigger_kind_i32 trigger_kind) trigger_reference
  | BoundaryEventsDisarmed attached_node_id boundary_event_ids _ =>
      Wire.BoundaryEventsDisarmed attached_node_id boundary_event_ids
  | MultiInstanceStarted node_id task_type mode total_instances max_parallelism item_variable
      items _ =>
      Wire.MultiInstanceStarted node_id task_type
        (Wire.mode_i32 (multi_instance_mode_to_wire mode)) total_instances max_parallelism
        (default "" item_variable) (workflow_value_item_to_wire <$> items)
  | MultiInstanceIterationActivated node_id task_type iteration item _ =>
      Wire.MultiInstanceIterationActivated node_id task_type iteration
        (workflow_value_item_to_wire <$> item)
  | MultiInstanceIterationCompleted node_id iteration _ =>
      Wire.MultiInstanceIterationCompleted node_id iteration
  | MultiInstanceCompleted node_id completion_condition_satisfied cancelled_iterations _ =>
      Wire.MultiInstanceCompleted node_id completion_condition_satisfied cancelled_iterations
  | BoundaryEventTriggered boundary_event_id attached_node_id target_node_id cancel_activity
      cancelled_iterations cancelled_task_tokens _ =>
      Wire.BoundaryEventTriggered boundary_event_id attached_node_id target_node_id
        cancel_activity cancelled_iterations cancelled_task_tokens
  | ScopeEntered scope_instance_id scope_node_id start_node_id parent_scope_instance_id
      invocation _ =>
      Wire.ScopeEntered scope_instance_id scope_node_id start_node_id parent_scope_instance_id
        invocation
  | ScopeCompleted scope_instance_id scope_node_id end_node_id _ =>
      Wire.ScopeCompleted scope_instance_id scope_node_id end_node_id
  | WorkflowBranchCompleted end_node_id _ => Wire.WorkflowBranchCompleted end_node_id
  | WorkflowCompleted _ => Wire.WorkflowCompleted
  | WorkflowTerminatedForCompliance policy_id request_digest reason_code reconciliation_count _ =>
      Wire.WorkflowTerminatedForCompliance policy_id request_digest reason_code
        reconciliation_count
  end.

Definition metadata_to_wire (m : EventMetadata) : Wire.EventMetadata :=
  {| Wire.m_event_id := em_event_id m;
     Wire.m_tenant_id := em_tenant_id m;
     Wire.m_instance_id := em_instance_id m;
     Wire.m_sequence := em_sequence m;
     Wire.m_schema_version := em_schema_version m;
     Wire.m_correlation_id := em_correlation_id m;
     Wire.m_causation_command_id := em_causation_command_id m;
     Wire.m_occurred_at_epoch_ms := em_occurred_at_epoch_ms m;
     Wire.m_config_version := em_config_version m;
     Wire.m_policy_version := em_policy_version m;
     Wire.m_actor_id := em_actor_id m;
     Wire.m_encryption_key_scope := em_encryption_key_scope m;
     Wire.m_workflow_type := em_workflow_type m;
     Wire.m_workflow_version := em_workflow_version m |}.

Definition to_wire (envelope : EventEnvelope) : Wire.EventEnvelope :=
  Wire.mkEventEnvelope (Some (metadata_to_wire (ee_metadata envelope)))
    (Some (event_to_wire (ee_event envelope))).

(** ** Decoding *)
Definition with_schema_version (m : Wire.EventMetadata) (version : N) : Wire.EventMetadata :=
  Wire.mkEventMetadata (Wire.m_event_id m) (Wire.m_tenant_id m) (Wire.m_instance_id m)
    (Wire.m_sequence m) version (Wire.m_correlation_id m) (Wire.m_causation_command_id m)
    (Wire.m_occurred_at_epoch_ms m) (Wire.m_config_version m) (Wire.m_policy_version m)
    (Wire.m_actor_id m) (Wire.m_encryption_key_scope m) (Wire.m_workflow_type m)
    (Wire.m_workflow_version m).

Definition upcast (envelope : Wire.EventEnvelope) : codec Wire.EventEnvelope :=
  metadata ← ok_or (Wire.e_metadata envelope) MissingMetadata;
  if (Wire.m_schema_version metadata =? EVENT_SCHEMA_VERSION)%N then Ok envelope
  else if (Wire.m_schema_version metadata =? 0)%N then
    Ok (Wire.mkEventEnvelope (Some (with_schema_version metadata EVENT_SCHEMA_VERSION))
          (Wire.e_event envelope))
  else Err (Event_UnsupportedSchema (Wire.m_schema_version metadata)).

Definition event_non_empty : string → string → codec string := non_empty Event_EmptyField.
Definition event_identifier : string → string → string → codec string :=
  identifier Event_Identifier.
Definition event_variables_from_wire : list Wire.WorkflowVariable → codec Variables :=
  variables_from_wire Event_EmptyField MissingWorkflowVariableValue.
Definition event_value_item_from_wire : Wire.WorkflowValueItem → codec WorkflowValue :=
  workflow_value_item_from_wire MissingWorkflowVariableValue.
Definition event_mode_from_wire : Z → codec MultiInstanceMode :=
  multi_instance_mode_from_wire Event_InvalidMultiInstanceMode.
Definition event_trigger_from_wire : Z → string → codec BoundaryTrigger :=
  boundary_trigger_from_wire Event_EmptyField Event_InvalidBoundaryTriggerKind
    "boundary_trigger.reference".

(** [.map(|id| identifier(.., id, field)).collect::<Result<Vec<_>, _>>()] *)
Definition event_identifiers (kind field : string) (ids : list string) : codec (list string) :=
  mapM (λ id, event_identifier kind id field) ids.

(** [positive] and [positive_u64] *)
Definition positive_field (value : N) (field : string) : codec N :=
  if (value =? 0)%N then Err (InvalidPositiveField field) else Ok value.

Definition case_plan_item_kind_from_name (value : string) : codec CasePlanItemKind :=
  if String.eqb value "STAGE" then Ok Stage
  else if String.eqb value "MILESTONE" then Ok Milestone
  else Err (InvalidCaseEnum "plan_item_kind" value).
Definition case_plan_item_status_from_name (value : string) : codec CasePlanItemStatus :=
  if String.eqb value "AVAILABLE" then Ok Item_Available
  else if String.eqb value "ACTIVE" then Ok Item_Active
  else if String.eqb value "COMPLETED" then Ok Item_Completed
  else Err (InvalidCaseEnum "plan_item_status" value).

(** The match of [from_wire] over the event. *)
Definition event_from_wire (at_ms : N) (event : Wire.Event) : codec DomainEvent :=
  match event with
  | Wire.WorkflowStarted workflow_type workflow_version start_node_id tenant_id =>
      tenant_id ← event_identifier "TenantId" tenant_id "workflow_started.tenant_id";
      workflow_type ← event_identifier "WorkflowType" workflow_type "workflow_type";
      workflow_version ← event_identifier "WorkflowVersion" workflow_version "workflow_version";
      start_node_id ← event_identifier "NodeId" start_node_id "start_node_id";
      Ok (WorkflowStarted tenant_id workflow_type workflow_version start_node_id at_ms)
  | Wire.ServiceTaskActivated node_id task_type =>
      node_id ← event_identifier "NodeId" node_id "node_id";
      task_type ← event_identifier "TaskType" task_type "task_type";
      Ok (ServiceTaskActivated node_id task_type at_ms)
  | Wire.ServiceTaskCompleted node_id outputs =>
      node_id ← event_identifier "NodeId" node_id "node_id";
      outputs ← event_variables_from_wire outputs;
      Ok (ServiceTaskCompleted node_id outputs at_ms)
  | Wire.UserTaskActivated node_id task_type assignment_policy_ref form_key =>
      node_id ← event_identifier "NodeId" node_id "node_id";
      task_type ← event_identifier "TaskType" task_type "task_type";
      assignment_policy_ref ← event_non_empty assignment_policy_ref "assignment_policy_ref";
      Ok (UserTaskActivated node_id task_type assignment_policy_ref
            (optional_non_empty form_key) at_ms)
  | Wire.UserTaskCompleted node_id decision result_variable =>
      node_id ← event_identifier "NodeId" node_id "node_id";
      decision ← event_non_empty decision "decision";
      result_variable ← event_non_empty result_variable "result_variable";
      Ok (UserTaskCompleted node_id decision result_variable at_ms)
  | Wire.ScriptTaskActivated node_id task_type implementation_ref implementation_version =>
      node_id ← event_identifier "NodeId" node_id "node_id";
      task_type ← event_identifier "TaskType" task_type "task_type";
      implementation_ref ← event_non_empty implementation_ref "implementation_ref";
      implementation_version ← event_non_empty implementation_version "implementation_version";
      Ok (ScriptTaskActivated node_id task_type implementation_ref implementation_version at_ms)
  | Wire.ScriptTaskCompleted node_id =>
      node_id ← event_identifier "NodeId" node_id "node_id";
      Ok (ScriptTaskCompleted node_id at_ms)
  | Wire.DecisionTaskEvaluated node_id decision_table_id outputs =>
      node_id ← event_identifier "NodeId" node_id "node_id";
      decision_table_id ← event_non_empty decision_table_id "decision_table_id";
      outputs ← event_variables_from_wire outputs;
      Ok (DecisionTaskEvaluated node_id decision_table_id outputs at_ms)
  | Wire.GatewaySplitActivated gateway_id join_gateway_id targets =>
      gateway_id ← event_identifier "NodeId" gateway_id "gateway_id";
      join_gateway_id ← event_identifier "NodeId" join_gateway_id "join_gateway_id";
      targets ← event_identifiers "NodeId" "selected_target_node_id" targets;
      Ok (GatewaySplitActivated gateway_id join_gateway_id targets at_ms)
  | Wire.GatewayTokenArrived gateway_id =>
      gateway_id ← event_identifier "NodeId" gateway_id "gateway_id";
      Ok (GatewayTokenArrived gateway_id at_ms)
  | Wire.GatewayJoined gateway_id =>
      gateway_id ← event_identifier "NodeId" gateway_id "gateway_id";
      Ok (GatewayJoined gateway_id at_ms)
  | Wire.BoundaryEventArmed boundary_event_id attached_node_id target_node_id cancel_activity
      trigger_kind trigger_reference =>
      boundary_event_id ← event_identifier "NodeId" boundary_event_id "boundary_event_id";
      attached_node_id ← event_identifier "NodeId" attached_node_id "attached_node_id";
      target_node_id ← event_identifier "NodeId" target_node_id "target_node_id";
      trigger ← event_trigger_from_wire trigger_kind trigger_reference;
      Ok (BoundaryEventArmed boundary_event_id attached_node_id target_node_id cancel_activity
            trigger at_ms)
  | Wire.BoundaryEventsDisarmed attached_node_id boundary_event_ids =>
      attached_node_id ← event_identifier "NodeId" attached_node_id "attached_node_id";
      boundary_event_ids ← event_identifiers "NodeId" "boundary_event_id" boundary_event_ids;
      Ok (BoundaryEventsDisarmed attached_node_id boundary_event_ids at_ms)
  | Wire.MultiInstanceStarted node_id task_type mode total_instances max_parallelism
      item_variable items =>
      node_id ← event_identifier "NodeId" node_id "node_id";
      task_type ← event_identifier "TaskType" task_type "task_type";
      mode ← event_mode_from_wire mode;
      max_parallelism ← positive_field max_parallelism "max_parallelism";
      items ← mapM event_value_item_from_wire items;
      Ok (MultiInstanceStarted node_id task_type mode total_instances max_parallelism
            (optional_non_empty item_variable) items at_ms)
  | Wire.MultiInstanceIterationActivated node_id task_type iteration item =>
      node_id ← event_identifier "NodeId" node_id "node_id";
      task_type ← event_identifier "TaskType" task_type "task_type";
      item ← transpose event_value_item_from_wire item;
      Ok (MultiInstanceIterationActivated node_id task_type iteration item at_ms)
  | Wire.MultiInstanceIterationCompleted node_id iteration =>
      node_id ← event_identifier "NodeId" node_id "node_id";
      Ok (MultiInstanceIterationCompleted node_id iteration at_ms)
  | Wire.MultiInstanceCompleted node_id completion_condition_satisfied cancelled_iterations =>
      node_id ← event_identifier "NodeId" node_id "node_id";
      Ok (MultiInstanceCompleted node_id completion_condition_satisfied cancelled_iterations at_ms)
  | Wire.BoundaryEventTriggered boundary_event_id attached_node_id target_node_id
      cancel_activity cancelled_iterations cancelled_task_tokens =>
      boundary_event_id ← event_identifier "NodeId" boundary_event_id "boundary_event_id";
      attached_node_id ← event_identifier "NodeId" attached_node_id "attached_node_id";
      target_node_id ← event_identifier "NodeId" target_node_id "target_node_id";
      Ok (BoundaryEventTriggered boundary_event_id attached_node_id target_node_id
            cancel_activity cancelled_iterations cancelled_task_tokens at_ms)
  | Wire.ScopeEntered scope_instance_id scope_node_id start_node_id parent invocation =>
      scope_instance_id ← event_identifier "ScopeInstanceId" scope_instance_id "scope_instance_id";
      scope_node_id ← event_identifier "NodeId" scope_node_id "scope_node_id";
      start_node_id ← event_identifier "NodeId" start_node_id "start_node_id";
      parent ← transpose
        (λ p, event_identifier "ScopeInstanceId" p "parent_scope_instance_id") parent;
      invocation ← positive_field invocation "scope_invocation";
      Ok (ScopeEntered scope_instance_id scope_node_id start_node_id parent invocation at_ms)
  | Wire.ScopeCompleted scope_instance_id scope_node_id end_node_id =>
      scope_instance_id ← event_identifier "ScopeInstanceId" scope_instance_id "scope_instance_id";
      scope_node_id ← event_identifier "NodeId" scope_node_id "scope_node_id";
      end_node_id ← event_identifier "NodeId" end_node_id "end_node_id";
      Ok (ScopeCompleted scope_instance_id scope_node_id end_node_id at_ms)
  | Wire.WorkflowBranchCompleted end_node_id =>
      end_node_id ← event_identifier "NodeId" end_node_id "end_node_id";
      Ok (WorkflowBranchCompleted end_node_id at_ms)
  | Wire.WorkflowCompleted => Ok (WorkflowCompleted at_ms)
  | Wire.WorkflowTerminatedForCompliance policy_id request_digest reason_code
      reconciliation_count =>
      policy_id ← event_non_empty policy_id "termination.policy_id";
      bail_if (negb (length request_digest =? 32)%nat) InvalidDigestLength;;
      reason_code ← event_non_empty reason_code "termination.reason_code";
      Ok (WorkflowTerminatedForCompliance policy_id request_digest reason_code
            reconciliation_count at_ms)
  | Wire.CaseActivated case_id case_type stage_ids milestone_ids =>
      case_id ← event_identifier "CaseId" case_id "case_id";
      case_model_id ← event_identifier "CaseModelId" case_type "case_type";
      stage_ids ← event_identifiers "PlanItemId" "stage_id" stage_ids;
      milestone_ids ← event_identifiers "PlanItemId" "milestone_id" milestone_ids;
      Ok (CaseActivated case_id case_model_id stage_ids milestone_ids at_ms)
  | Wire.CaseSentrySatisfied case_id sentry_id =>
      case_id ← event_identifier "CaseId" case_id "case_id";
      sentry_id ← event_identifier "SentryId" sentry_id "sentry_id";
      Ok (CaseSentrySatisfied case_id sentry_id at_ms)
  | Wire.CasePlanItemTransitioned case_id plan_item_id plan_item_kind status sentry_ids =>
      case_id ← event_identifier "CaseId" case_id "case_id";
      plan_item_id ← event_identifier "PlanItemId" plan_item_id "plan_item_id";
      kind ← case_plan_item_kind_from_name plan_item_kind;
      status ← case_plan_item_status_from_name status;
      sentry_ids ← event_identifiers "SentryId" "satisfied_sentry_id" sentry_ids;
      Ok (CasePlanItemTransitioned case_id plan_item_id kind status sentry_ids at_ms)
  | Wire.CaseCompleted case_id =>
      case_id ← event_identifier "CaseId" case_id "case_id";
      Ok (CaseCompleted case_id at_ms)
  | Wire.UserTaskCancelled node_id reason =>
      node_id ← event_identifier "NodeId" node_id "node_id";
      reason ← event_non_empty reason "cancellation.reason";
      Ok (UserTaskCancelled node_id reason at_ms)
  end.

Definition from_wire (envelope : Wire.EventEnvelope) : codec EventEnvelope :=
  metadata ← ok_or (Wire.e_metadata envelope) MissingMetadata;
  bail_if (negb (Wire.m_schema_version metadata =? EVENT_SCHEMA_VERSION)%N)
    (Event_UnsupportedSchema (Wire.m_schema_version metadata));;
  let at_ms := Wire.m_occurred_at_epoch_ms metadata in
  tenant_id ← event_identifier "TenantId" (Wire.m_tenant_id metadata) "tenant_id";
  event ← ok_or (Wire.e_event envelope) MissingEvent;
  event ← event_from_wire at_ms event;
  bail_if (match event with
           | WorkflowStarted started _ _ _ _ => bool_decide (started ≠ tenant_id)
           | _ => false
           end) Event_TenantMismatch;;
  instance_id ← event_identifier "InstanceId" (Wire.m_instance_id metadata) "instance_id";
  correlation_id ← event_identifier "CorrelationId" (Wire.m_correlation_id metadata)
    "correlation_id";
  causation ← event_identifier "CommandId" (Wire.m_causation_command_id metadata)
    "causation_command_id";
  config_version ← event_identifier "ConfigVersion" (Wire.m_config_version metadata)
    "config_version";
  policy_version ← event_identifier "PolicyVersion" (Wire.m_policy_version metadata)
    "policy_version";
  actor_id ← event_identifier "ActorId" (Wire.m_actor_id metadata) "actor_id";
  key_scope ← event_identifier "KeyScope" (Wire.m_encryption_key_scope metadata)
    "encryption_key_scope";
  workflow_type ← event_identifier "WorkflowType" (Wire.m_workflow_type metadata)
    "metadata.workflow_type";
  workflow_version ← event_identifier "WorkflowVersion" (Wire.m_workflow_version metadata)
    "metadata.workflow_version";
  Ok (mkEnvelope
    (mkEventMetadata (Wire.m_event_id metadata) tenant_id instance_id (Wire.m_sequence metadata)
       (Wire.m_schema_version metadata) correlation_id causation at_ms config_version
       policy_version actor_id key_scope workflow_type workflow_version) event).

(** ** [EventCodec] *)
Section bytes.
Context (encode_to_vec : Wire.EventEnvelope → string)
  (wire_decode : string → Wire.EventEnvelope + string).

Definition EventCodec_encode (event : EventEnvelope) : string := encode_to_vec (to_wire event).
Definition EventCodec_decode (bytes : string) : codec EventEnvelope :=
  envelope ← match wire_decode bytes with inl e => Ok e | inr detail => Err (Event_Decode detail) end;
  envelope ← upcast envelope;
  from_wire envelope.
End bytes.

(** ** Which events survive *)
Definition texts_ok (l : list string) : bool := forallb text_ok l.

Definition wire_event (event : DomainEvent) : bool :=
  match event with
  | CaseActivated case_id model_id stage_ids milestone_ids _ =>
      text_ok case_id && text_ok model_id && texts_ok stage_ids && texts_ok milestone_ids
  | CaseSentrySatisfied case_id sentry_id _ => text_ok case_id && text_ok sentry_id
  | CasePlanItemTransitioned case_id item_id _ _ sentry_ids _ =>
      text_ok case_id && text_ok item_id && texts_ok sentry_ids
  | CaseCompleted case_id _ => text_ok case_id
  | WorkflowStarted tenant_id workflow_type workflow_version start_node_id _ =>
      text_ok tenant_id && text_ok workflow_type && text_ok workflow_version
      && text_ok start_node_id
  | ServiceTaskActivated node_id task_type _ => text_ok node_id && text_ok task_type
  | ServiceTaskCompleted node_id outputs _ => text_ok node_id && names_ok outputs
  | UserTaskActivated node_id task_type policy form_key _ =>
      text_ok node_id && text_ok task_type && text_ok policy && optional_ok form_key
  | UserTaskCompleted node_id decision result_variable _ =>
      text_ok node_id && text_ok decision && text_ok result_variable
  | UserTaskCancelled node_id reason _ => text_ok node_id && text_ok reason
  | ScriptTaskActivated node_id task_type reference version _ =>
      text_ok node_id && text_ok task_type && text_ok reference && text_ok version
  | ScriptTaskCompleted node_id _ => text_ok node_id
  | DecisionTaskEvaluated node_id table_id outputs _ =>
      text_ok node_id && text_ok table_id && names_ok outputs
  | GatewaySplitActivated gateway_id join targets _ =>
      text_ok gateway_id && text_ok join && texts_ok targets
  | GatewayTokenArrived gateway_id _ | GatewayJoined gateway_id _ => text_ok gateway_id
  | BoundaryEventArmed id attached target _ trigger _ =>
      text_ok id && text_ok attached && text_ok target && trigger_ok trigger
  | BoundaryEventsDisarmed attached ids _ => text_ok attached && texts_ok ids
  | MultiInstanceStarted node_id task_type _ _ max_parallelism item_variable _ _ =>
      text_ok node_id && text_ok task_type && (0 <? max_parallelism)%N && optional_ok item_variable
  | MultiInstanceIterationActivated node_id task_type _ _ _ => text_ok node_id && text_ok task_type
  | MultiInstanceIterationCompleted node_id _ _ | MultiInstanceCompleted node_id _ _ _ =>
      text_ok node_id
  | BoundaryEventTriggered id attached target _ _ _ _ =>
      text_ok id && text_ok attached && text_ok target
  | ScopeEntered instance scope start parent invocation _ =>
      text_ok instance && text_ok scope && text_ok start && optional_ok parent
      && (0 <? invocation)%N
  | ScopeCompleted instance scope end_node _ => text_ok instance && text_ok scope && text_ok end_node
  | WorkflowBranchCompleted end_node _ => text_ok end_node
  | WorkflowCompleted _ => true
  | WorkflowTerminatedForCompliance policy digest reason _ _ =>
      text_ok policy && (length digest =? 32)%nat && text_ok reason
  end.

Definition wire_metadata (m : EventMetadata) : bool :=
  (em_schema_version m =? EVENT_SCHEMA_VERSION)%N
  && text_ok (em_tenant_id m) && text_ok (em_instance_id m) && text_ok (em_correlation_id m)
  && text_ok (em_causation_command_id m) && text_ok (em_config_version m)
  && text_ok (em_policy_version m) && text_ok (em_actor_id m)
  && text_ok (em_encryption_key_scope m) && text_ok (em_workflow_type m)
  && text_ok (em_workflow_version m).

(** The event repeats its tenant and its time in the metadata. *)
Definition wire_envelope (e : EventEnvelope) : bool :=
  wire_metadata (ee_metadata e) && wire_event (ee_event e)
  && (em_occurred_at_epoch_ms (ee_metadata e) =? event_time (ee_event e))%N
  && match ee_event e with
     | WorkflowStarted tenant _ _ _ _ => bool_decide (tenant = em_tenant_id (ee_metadata e))
     | _ => true
     end.

(** ** The round trip *)
Section bind_rules.
Context {A : Type}.

Lemma bind_identifier kind v field (K : string → codec A) r :
  event_identifier kind v field ≫= K = Ok r ↔ text_ok v = true ∧ K v = Ok r.
Proof. unfold event_identifier. rewrite bind_Ok. setoid_rewrite identifier_Ok. naive_solver. Qed.

Lemma bind_non_empty v field (K : string → codec A) r :
  event_non_empty v field ≫= K = Ok r ↔ text_ok v = true ∧ K v = Ok r.
Proof. unfold event_non_empty. rewrite bind_Ok. setoid_rewrite non_empty_Ok. naive_solver. Qed.

End bind_rules.

Lemma identifiers_Ok kind field ids l :
  event_identifiers kind field ids = Ok l ↔ l = ids ∧ texts_ok ids = true.
Proof.
  unfold event_identifiers, texts_ok. split.
  - revert l. induction ids as [|id ids IH]; intros l H; simpl in *; [by injection H as <-|].
    apply bind_identifier in H as [Hid H]. apply bind_Ok in H as (l' & Hl' & [= <-]).
    apply IH in Hl' as [-> Hids]. by rewrite Hid.
  - intros [-> Hall]. rewrite <-(list_fmap_id ids) at 1. apply mapM_round_trip.
    intros id Hin. apply identifier_ok. rewrite forallb_forall in Hall.
    by apply Hall, list_elem_of_In.
Qed.

Section bind_decoded.
Context {A : Type}.

Lemma bind_identifiers kind field ids (K : list string → codec A) r :
  event_identifiers kind field ids ≫= K = Ok r ↔ texts_ok ids = true ∧ K ids = Ok r.
Proof. rewrite bind_Ok. setoid_rewrite identifiers_Ok. naive_solver. Qed.

Lemma variables_Ok m m' :
  event_variables_from_wire (variables_to_wire m) = Ok m' ↔ m' = m ∧ names_ok m = true.
Proof.
  split.
  - intros H. enough (names_ok m = true) as Hn.
    { unfold event_variables_from_wire in H. rewrite variables_round_trip in H by done.
      by injection H as <-. }
    unfold event_variables_from_wire, variables_from_wire, variables_to_wire in H.
    apply bind_Ok in H as (entries & H & _). unfold names_ok, btree_keys. clear m'.
    revert entries H. induction (btree_iter m) as [|[name v] l IH]; intros entries H; [done|].
    simpl in *. apply bind_Ok in H as (entry & He & H). apply bind_Ok in H as (rest & Hr & _).
    unfold workflow_variable_from_wire in He. simpl in He.
    apply bind_non_empty in He as [-> _]. by eapply IH.
  - intros [-> H]. by apply variables_round_trip.
Qed.

Lemma bind_variables m (K : Variables → codec A) r :
  event_variables_from_wire (variables_to_wire m) ≫= K = Ok r ↔ names_ok m = true ∧ K m = Ok r.
Proof. rewrite bind_Ok. setoid_rewrite variables_Ok. naive_solver. Qed.

Lemma bind_positive n field (K : N → codec A) r :
  positive_field n field ≫= K = Ok r ↔ (0 <? n)%N = true ∧ K n = Ok r.
Proof.
  unfold positive_field. destruct (N.eqb_spec n 0) as [->|Hn]; simpl; [naive_solver|].
  rewrite N.ltb_lt. split; [intros H; split; [lia|done]|by intros []].
Qed.

Lemma bind_items l (K : list WorkflowValue → codec A) r :
  mapM event_value_item_from_wire (workflow_value_item_to_wire <$> l) ≫= K = Ok r ↔ K l = Ok r.
Proof. unfold event_value_item_from_wire. by rewrite value_items_round_trip. Qed.

Lemma bind_item o (K : option WorkflowValue → codec A) r :
  transpose event_value_item_from_wire (workflow_value_item_to_wire <$> o) ≫= K = Ok r ↔ K o = Ok r.
Proof.
  destruct o as [v|]; [|done]. cbn. unfold event_value_item_from_wire.
  by rewrite value_item_round_trip.
Qed.

Lemma bind_parent o (K : option string → codec A) r :
  transpose (λ p, event_identifier "ScopeInstanceId" p "parent_scope_instance_id") o ≫= K = Ok r ↔
  optional_ok o = true ∧ K o = Ok r.
Proof.
  destruct o as [p|]; simpl; [|naive_solver].
  rewrite !bind_Ok. setoid_rewrite bind_identifier. unfold text_ok. naive_solver.
Qed.

Lemma bind_mode mode (K : MultiInstanceMode → codec A) r :
  event_mode_from_wire (Wire.mode_i32 (multi_instance_mode_to_wire mode)) ≫= K = Ok r ↔
  K mode = Ok r.
Proof. by destruct mode. Qed.

Lemma bind_kind kind (K : CasePlanItemKind → codec A) r :
  case_plan_item_kind_from_name (case_plan_item_kind_name kind) ≫= K = Ok r ↔ K kind = Ok r.
Proof. by destruct kind. Qed.
Lemma bind_status status (K : CasePlanItemStatus → codec A) r :
  case_plan_item_status_from_name (case_plan_item_status_name status) ≫= K = Ok r ↔
  K status = Ok r.
Proof. by destruct status. Qed.

Lemma bind_bail b e (K : unit → codec A) r :
  bail_if b e ≫= K = Ok r ↔ b = false ∧ K tt = Ok r.
Proof. destruct b; simpl; naive_solver. Qed.
End bind_decoded.

#[export] Hint Rewrite @bind_identifier @bind_non_empty @bind_identifiers @bind_variables
  @bind_positive @bind_items @bind_item @bind_parent @bind_mode @bind_kind @bind_status @bind_bail
  : wire.

(** Decoding an encoded event gives the event back exactly when its texts are
    present and the metadata carries its time. *)
Lemma event_round_trip event time :
  event_from_wire time (event_to_wire event) = Ok event ↔
  wire_event event = true ∧ event_time event = time.
Proof.
  destruct event; try destruct trigger as [[]| |]; simpl; unfold event_trigger_from_wire; simpl;
    autorewrite with wire; rewrite ?andb_true_iff, ?negb_false_iff;
    rewrite <-?optional_non_empty_default; try naive_solver; try intuition congruence.
  all: rewrite bind_Ok; setoid_rewrite bind_non_empty; naive_solver.
Qed.

Lemma from_wire_to_wire envelope :
  from_wire (to_wire envelope) = Ok envelope ↔ wire_envelope envelope = true.
Proof.
  destruct envelope as [[] event]. unfold from_wire, to_wire, wire_envelope, wire_metadata. simpl.
  autorewrite with wire. rewrite bind_Ok. repeat setoid_rewrite bind_bail.
  repeat setoid_rewrite bind_identifier. rewrite !andb_true_iff, !negb_false_iff, N.eqb_eq.
  split.
  - intros (? & ? & event' & Hevent & Htenant & ? & ? & ? & ? & ? & ? & ? & ? & ? & [= ->]).
    apply event_round_trip in Hevent as [? ?]. split_and!; try done; [by rewrite N.eqb_eq|].
    destruct event; try done. by case_bool_decide; case_bool_decide.
  - intros [[[Hmeta ?] Htime] Htenant]. destruct_and!. apply N.eqb_eq in Htime.
    split_and!; try done. exists event. rewrite event_round_trip. split_and!; try done.
    destruct event; try done. by case_bool_decide; case_bool_decide.
Qed.
