(* ===== verification/SnapshotCodec.v ===== *)
(** * The snapshot codec

    [apps/rust/bpmp-engine/src/snapshot_codec.rs]: instance states as protocol
    messages.  The decoder checks the numbers of a state as well as its
    texts; [snapshot_numbers] and [snapshot_texts] separate the two. *)

From S2P Require Import Prelude Types Routing Loop Ports Wire EventCodec.
From stdpp Require Import options.

Inductive SnapshotCodecError :=
| Snapshot_Decode (detail : string)
| Snapshot_UnsupportedSchema (version : N)
| InvalidLifecycle (value : Z)
| InconsistentLifecycle (lifecycle : Wire.WorkflowLifecycle)
| Snapshot_EmptyField (field : string)
| Snapshot_MissingWorkflowVariableValue
| InvalidTokenState
| Snapshot_InvalidMultiInstanceMode (value : Z)
| InvalidMultiInstanceState
| InvalidScopeState
| InvalidCaseState
| Snapshot_InvalidBoundaryTriggerKind (value : Z)
| Snapshot_Identifier (field : string) (source : IdentifierError).

Abbreviation snapshot_codec := (res SnapshotCodecError) (only parsing).

Definition SNAPSHOT_SCHEMA_VERSION : N := 1.

(** ** Encoding *)
Definition lifecycle_to_wire (lifecycle : Lifecycle) : Wire.WorkflowLifecycle * string :=
  match lifecycle with
  | Life_Initial => (Wire.Lifecycle_Initial, "")
  | Life_Active active_node => (Wire.Lifecycle_Active, active_node)
  | Life_Completed => (Wire.Lifecycle_Completed, "")
  | Life_TerminatedForCompliance => (Wire.Lifecycle_TerminatedForCompliance, "")
  end.

Definition active_token_to_wire (p : NodeId * N) : Wire.ActiveToken := Wire.mkActiveToken p.1 p.2.
Definition pending_join_to_wire (p : NodeId * PendingGatewayJoin) : Wire.PendingGatewayJoin :=
  Wire.mkPendingGatewayJoin p.1 (pj_expected_tokens p.2) (pj_arrived_tokens p.2).
Definition active_multi_instance_to_wire (p : NodeId * ActiveMultiInstance) :
    Wire.ActiveMultiInstance :=
  let '(node_id, active) := p in
  {| Wire.a_node_id := node_id;
     Wire.a_task_type := am_task_type active;
     Wire.a_mode := Wire.mode_i32 (multi_instance_mode_to_wire (am_mode active));
     Wire.a_total_instances := am_total_instances active;
     Wire.a_next_iteration := am_next_iteration active;
     Wire.a_max_parallelism := am_max_parallelism active;
     Wire.a_item_variable := default "" (am_item_variable active);
     Wire.a_items := workflow_value_item_to_wire <$> am_items active;
     Wire.a_active_iterations := u32_set_iter (am_active_iterations active);
     Wire.a_completed_iterations := u32_set_iter (am_completed_iterations active) |}.
Definition active_boundary_subscription_to_wire (p : NodeId * ActiveBoundarySubscription) :
    Wire.ActiveBoundarySubscription :=
  let '(boundary_event_id, subscription) := p in
  let '(trigger_kind, trigger_reference) := boundary_trigger_to_wire (ab_trigger subscription) in
  {| Wire.b_boundary_event_id := boundary_event_id;
     Wire.b_attached_node_id := ab_attached_node_id subscription;
     Wire.b_target_node_id := ab_target_node_id subscription;
     Wire.b_cancel_activity := ab_cancel_activity subscription;
     Wire.b_trigger_kind := Wire.trigger_kind_i32 trigger_kind;
     Wire.b_trigger_reference := trigger_reference;
     Wire.b_armed_at_epoch_ms := ab_armed_at_epoch_ms subscription |}.
Definition active_execution_scope_to_wire (p : ScopeInstanceId * ActiveExecutionScope) :
    Wire.ActiveExecutionScope :=
  let '(scope_instance_id, scope) := p in
  Wire.mkActiveExecutionScope scope_instance_id (as_scope_node_id scope) (as_start_node_id scope)
    (as_parent_scope_instance_id scope) (as_invocation scope).
Definition scope_invocation_counter_to_wire (p : NodeId * N) : Wire.ScopeInvocationCounter :=
  Wire.mkScopeInvocationCounter p.1 p.2.

Definition case_lifecycle_name (lifecycle : CaseLifecycle) : string :=
  match lifecycle with Case_Active => "ACTIVE" | Case_Completed => "COMPLETED" end.
Definition plan_item_to_wire (p : PlanItemId * CasePlanItemState) : Wire.CasePlanItemState :=
  Wire.mkCasePlanItemState p.1 (case_plan_item_kind_name (pi_kind p.2))
    (case_plan_item_status_name (pi_status p.2)).
Definition active_case_to_wire (p : CaseId * ActiveCase) : Wire.ActiveCase :=
  let '(case_id, active) := p in
  {| Wire.c_case_id := case_id;
     Wire.c_status := case_lifecycle_name (ac_lifecycle active);
     Wire.c_satisfied_sentry_ids := btree_set_iter (ac_satisfied_sentries active);
     Wire.c_plan_items := plan_item_to_wire <$> btree_iter (ac_plan_items active);
     Wire.c_case_model_id := ac_model_id active |}.

Definition snapshot_to_wire (snapshot : SnapshotEnvelope) : Wire.WorkflowSnapshot :=
  let st := sn_state snapshot in
  let '(lifecycle, active_node_id) := lifecycle_to_wire (st_lifecycle st) in
  {| Wire.s_tenant_id := sn_tenant_id snapshot;
     Wire.s_instance_id := sn_instance_id snapshot;
     Wire.s_sequence := st_sequence st;
     Wire.s_schema_version := SNAPSHOT_SCHEMA_VERSION;
     Wire.s_workflow_type := sn_workflow_type snapshot;
     Wire.s_workflow_version := sn_workflow_version snapshot;
     Wire.s_lifecycle := Wire.lifecycle_i32 lifecycle;
     Wire.s_active_node_id := active_node_id;
     Wire.s_config_version := sn_config_version snapshot;
     Wire.s_policy_version := sn_policy_version snapshot;
     Wire.s_encryption_key_scope := sn_encryption_key_scope snapshot;
     Wire.s_variables := variables_to_wire (st_variables st);
     Wire.s_active_tokens := active_token_to_wire <$> btree_iter (st_active_tokens st);
     Wire.s_pending_gateway_joins :=
       pending_join_to_wire <$> btree_iter (st_pending_gateway_joins st);
     Wire.s_active_multi_instances :=
       active_multi_instance_to_wire <$> btree_iter (st_active_multi_instances st);
     Wire.s_active_boundary_subscriptions :=
       active_boundary_subscription_to_wire <$> btree_iter (st_active_boundary_subscriptions st);
     Wire.s_active_scopes := active_execution_scope_to_wire <$> btree_iter (st_active_scopes st);
     Wire.s_scope_invocation_counters :=
       scope_invocation_counter_to_wire <$> btree_iter (st_scope_invocation_counts st);
     Wire.s_active_cases := active_case_to_wire <$> btree_iter (st_active_cases st) |}.

(** ** Decoding *)
Definition snapshot_upcast (snapshot : Wire.WorkflowSnapshot) :
    snapshot_codec Wire.WorkflowSnapshot :=
  if (Wire.s_schema_version snapshot =? SNAPSHOT_SCHEMA_VERSION)%N then Ok snapshot
  else if (Wire.s_schema_version snapshot =? 0)%N then
    Ok {| Wire.s_tenant_id := Wire.s_tenant_id snapshot;
          Wire.s_instance_id := Wire.s_instance_id snapshot;
          Wire.s_sequence := Wire.s_sequence snapshot;
          Wire.s_schema_version := SNAPSHOT_SCHEMA_VERSION;
          Wire.s_workflow_type := Wire.s_workflow_type snapshot;
          Wire.s_workflow_version := Wire.s_workflow_version snapshot;
          Wire.s_lifecycle := Wire.s_lifecycle snapshot;
          Wire.s_active_node_id := Wire.s_active_node_id snapshot;
          Wire.s_config_version := Wire.s_config_version snapshot;
          Wire.s_policy_version := Wire.s_policy_version snapshot;
          Wire.s_encryption_key_scope := Wire.s_encryption_key_scope snapshot;
          Wire.s_variables := Wire.s_variables snapshot;
          Wire.s_active_tokens := Wire.s_active_tokens snapshot;
          Wire.s_pending_gateway_joins := Wire.s_pending_gateway_joins snapshot;
          Wire.s_active_multi_instances := Wire.s_active_multi_instances snapshot;
          Wire.s_active_boundary_subscriptions := Wire.s_active_boundary_subscriptions snapshot;
          Wire.s_active_scopes := Wire.s_active_scopes snapshot;
          Wire.s_scope_invocation_counters := Wire.s_scope_invocation_counters snapshot;
          Wire.s_active_cases := Wire.s_active_cases snapshot |}
  else Err (Snapshot_UnsupportedSchema (Wire.s_schema_version snapshot)).

Definition snapshot_identifier : string → string → string → snapshot_codec string :=
  identifier Snapshot_Identifier.
Definition snapshot_trigger_from_wire : Z → string → snapshot_codec BoundaryTrigger :=
  boundary_trigger_from_wire Snapshot_EmptyField Snapshot_InvalidBoundaryTriggerKind
    "boundary_subscription.trigger_reference".

Definition lifecycle_from_wire (lifecycle : Z) (active_node_id : string) :
    snapshot_codec Lifecycle :=
  value ← ok_or (Wire.lifecycle_try_from lifecycle) (InvalidLifecycle lifecycle);
  let none := bool_decide (active_node_id = "") in
  match value with
  | Wire.Lifecycle_Initial => if none then Ok Life_Initial else Err (InconsistentLifecycle value)
  | Wire.Lifecycle_Active =>
      if none then Err (InconsistentLifecycle value)
      else active_node ← snapshot_identifier "NodeId" active_node_id "active_node_id";
           Ok (Life_Active active_node)
  | Wire.Lifecycle_Completed =>
      if none then Ok Life_Completed else Err (InconsistentLifecycle value)
  | Wire.Lifecycle_TerminatedForCompliance =>
      if none then Ok Life_TerminatedForCompliance else Err (InconsistentLifecycle value)
  | Wire.Lifecycle_Unspecified => Err (InconsistentLifecycle value)
  end.

Definition active_token_from_wire (token : Wire.ActiveToken) : snapshot_codec (NodeId * N) :=
  bail_if (Wire.t_count token =? 0)%N InvalidTokenState;;
  node_id ← snapshot_identifier "NodeId" (Wire.t_node_id token) "active_token.node_id";
  Ok (node_id, Wire.t_count token).
Definition pending_join_from_wire (join : Wire.PendingGatewayJoin) :
    snapshot_codec (NodeId * PendingGatewayJoin) :=
  bail_if ((Wire.j_expected_tokens join =? 0)%N
           || (Wire.j_expected_tokens join <=? Wire.j_arrived_tokens join)%N) InvalidTokenState;;
  gateway_id ← snapshot_identifier "NodeId" (Wire.j_gateway_id join) "pending_join.gateway_id";
  Ok (gateway_id, mkPendingJoin (Wire.j_expected_tokens join) (Wire.j_arrived_tokens join)).

Definition validate_active_multi_instance (active : ActiveMultiInstance) : snapshot_codec unit :=
  let limit := am_total_instances active in
  bail_if
    ((am_max_parallelism active <? N.of_nat (size (am_active_iterations active)))%N
     || existsb (λ i, (limit <=? i)%N || (am_next_iteration active <=? i)%N)
          (u32_set_iter (am_active_iterations active) ++
           u32_set_iter (am_completed_iterations active))
     || negb (bool_decide (am_active_iterations active ## am_completed_iterations active))
     || (negb (is_empty (am_items active))
         && negb (N.of_nat (length (am_items active)) =? limit)%N))
    InvalidMultiInstanceState.

Definition active_multi_instance_from_wire (active : Wire.ActiveMultiInstance) :
    snapshot_codec (NodeId * ActiveMultiInstance) :=
  bail_if ((Wire.a_total_instances active =? 0)%N || (Wire.a_max_parallelism active =? 0)%N
           || (Wire.a_total_instances active <? Wire.a_next_iteration active)%N
           || (Wire.a_total_instances active <? Wire.a_max_parallelism active)%N)
    InvalidMultiInstanceState;;
  task_type ← snapshot_identifier "TaskType" (Wire.a_task_type active) "multi_instance.task_type";
  mode ← multi_instance_mode_from_wire Snapshot_InvalidMultiInstanceMode (Wire.a_mode active);
  items ← mapM (workflow_value_item_from_wire Snapshot_MissingWorkflowVariableValue)
    (Wire.a_items active);
  let decoded := {|
    am_task_type := task_type;
    am_mode := mode;
    am_total_instances := Wire.a_total_instances active;
    am_next_iteration := Wire.a_next_iteration active;
    am_max_parallelism := Wire.a_max_parallelism active;
    am_item_variable := optional_non_empty (Wire.a_item_variable active);
    am_items := items;
    am_active_iterations := list_to_set (Wire.a_active_iterations active);
    am_completed_iterations := list_to_set (Wire.a_completed_iterations active) |} in
  validate_active_multi_instance decoded;;
  node_id ← snapshot_identifier "NodeId" (Wire.a_node_id active) "multi_instance.node_id";
  Ok (node_id, decoded).

Definition active_boundary_subscription_from_wire (subscription : Wire.ActiveBoundarySubscription) :
    snapshot_codec (NodeId * ActiveBoundarySubscription) :=
  id ← snapshot_identifier "NodeId" (Wire.b_boundary_event_id subscription)
    "boundary_subscription.boundary_event_id";
  attached ← snapshot_identifier "NodeId" (Wire.b_attached_node_id subscription)
    "boundary_subscription.attached_node_id";
  target ← snapshot_identifier "NodeId" (Wire.b_target_node_id subscription)
    "boundary_subscription.target_node_id";
  trigger ← snapshot_trigger_from_wire (Wire.b_trigger_kind subscription)
    (Wire.b_trigger_reference subscription);
  Ok (id, mkSubscription attached target (Wire.b_cancel_activity subscription) trigger
            (Wire.b_armed_at_epoch_ms subscription)).

Definition active_execution_scope_from_wire (scope : Wire.ActiveExecutionScope) :
    snapshot_codec (ScopeInstanceId * ActiveExecutionScope) :=
  bail_if (Wire.x_invocation scope =? 0)%N InvalidScopeState;;
  id ← snapshot_identifier "ScopeInstanceId" (Wire.x_scope_instance_id scope)
    "active_scope.scope_instance_id";
  node ← snapshot_identifier "NodeId" (Wire.x_scope_node_id scope) "active_scope.scope_node_id";
  start ← snapshot_identifier "NodeId" (Wire.x_start_node_id scope) "active_scope.start_node_id";
  parent ← transpose (λ value, snapshot_identifier "ScopeInstanceId" value
      "active_scope.parent_scope_instance_id") (Wire.x_parent_scope_instance_id scope);
  Ok (id, mkScope node start parent (Wire.x_invocation scope)).
Definition scope_counter_from_wire (counter : Wire.ScopeInvocationCounter) :
    snapshot_codec (NodeId * N) :=
  bail_if (Wire.n_invocations counter =? 0)%N InvalidScopeState;;
  node ← snapshot_identifier "NodeId" (Wire.n_scope_node_id counter) "scope_counter.scope_node_id";
  Ok (node, Wire.n_invocations counter).

Definition case_lifecycle_from_name (status : string) : snapshot_codec CaseLifecycle :=
  if bool_decide (status = "ACTIVE") then Ok Case_Active
  else if bool_decide (status = "COMPLETED") then Ok Case_Completed
  else Err InvalidCaseState.
Definition plan_item_from_wire (item : Wire.CasePlanItemState) :
    snapshot_codec (PlanItemId * CasePlanItemState) :=
  kind ← (if bool_decide (Wire.p_kind item = "STAGE") then Ok Stage
          else if bool_decide (Wire.p_kind item = "MILESTONE") then Ok Milestone
          else Err InvalidCaseState);
  status ← (if bool_decide (Wire.p_status item = "AVAILABLE") then Ok Item_Available
            else if bool_decide (Wire.p_status item = "ACTIVE") then Ok Item_Active
            else if bool_decide (Wire.p_status item = "COMPLETED") then Ok Item_Completed
            else Err InvalidCaseState);
  id ← snapshot_identifier "PlanItemId" (Wire.p_plan_item_id item) "case.plan_item_id";
  Ok (id, mkPlanItem kind status).
Definition active_case_from_wire (active : Wire.ActiveCase) : snapshot_codec (CaseId * ActiveCase) :=
  lifecycle ← case_lifecycle_from_name (Wire.c_status active);
  plan_items ← mapM plan_item_from_wire (Wire.c_plan_items active);
  id ← snapshot_identifier "CaseId" (Wire.c_case_id active) "case.case_id";
  model_id ← snapshot_identifier "CaseModelId" (Wire.c_case_model_id active) "case.case_model_id";
  sentries ← mapM (λ id, snapshot_identifier "SentryId" id "case.satisfied_sentry_id")
    (Wire.c_satisfied_sentry_ids active);
  Ok (id, mkActiveCase model_id lifecycle (list_to_set sentries) (btree_extend ∅ plan_items)).

Definition snapshot_from_wire (snapshot : Wire.WorkflowSnapshot) : snapshot_codec SnapshotEnvelope :=
  bail_if (negb (Wire.s_schema_version snapshot =? SNAPSHOT_SCHEMA_VERSION)%N)
    (Snapshot_UnsupportedSchema (Wire.s_schema_version snapshot));;
  lifecycle ← lifecycle_from_wire (Wire.s_lifecycle snapshot) (Wire.s_active_node_id snapshot);
  active_tokens ← mapM active_token_from_wire (Wire.s_active_tokens snapshot);
  pending_gateway_joins ← mapM pending_join_from_wire (Wire.s_pending_gateway_joins snapshot);
  active_multi_instances ←
    mapM active_multi_instance_from_wire (Wire.s_active_multi_instances snapshot);
  active_boundary_subscriptions ←
    mapM active_boundary_subscription_from_wire (Wire.s_active_boundary_subscriptions snapshot);
  active_scopes ← mapM active_execution_scope_from_wire (Wire.s_active_scopes snapshot);
  counters ← mapM scope_counter_from_wire (Wire.s_scope_invocation_counters snapshot);
  active_cases ← mapM active_case_from_wire (Wire.s_active_cases snapshot);
  tenant_id ← snapshot_identifier "TenantId" (Wire.s_tenant_id snapshot) "tenant_id";
  instance_id ← snapshot_identifier "InstanceId" (Wire.s_instance_id snapshot) "instance_id";
  workflow_type ← snapshot_identifier "WorkflowType" (Wire.s_workflow_type snapshot) "workflow_type";
  workflow_version ← snapshot_identifier "WorkflowVersion" (Wire.s_workflow_version snapshot)
    "workflow_version";
  variables ← variables_from_wire Snapshot_EmptyField Snapshot_MissingWorkflowVariableValue
    (Wire.s_variables snapshot);
  config_version ← snapshot_identifier "ConfigVersion" (Wire.s_config_version snapshot)
    "config_version";
  policy_version ← snapshot_identifier "PolicyVersion" (Wire.s_policy_version snapshot)
    "policy_version";
  key_scope ← snapshot_identifier "KeyScope" (Wire.s_encryption_key_scope snapshot)
    "encryption_key_scope";
  Ok {| sn_tenant_id := tenant_id;
        sn_instance_id := instance_id;
        sn_workflow_type := workflow_type;
        sn_workflow_version := workflow_version;
        sn_state := {|
          st_lifecycle := lifecycle;
          st_sequence := Wire.s_sequence snapshot;
          st_variables := variables;
          st_active_tokens := btree_extend ∅ active_tokens;
          st_pending_gateway_joins := btree_extend ∅ pending_gateway_joins;
          st_active_multi_instances := btree_extend ∅ active_multi_instances;
          st_active_boundary_subscriptions := btree_extend ∅ active_boundary_subscriptions;
          st_active_scopes := btree_extend ∅ active_scopes;
          st_scope_invocation_counts := btree_extend ∅ counters;
          st_active_cases := btree_extend ∅ active_cases |};
        sn_config_version := config_version;
        sn_policy_version := policy_version;
        sn_encryption_key_scope := key_scope |}.

(** ** [SnapshotCodec] *)
Section bytes.
Context (encode_to_vec : Wire.WorkflowSnapshot → string)
  (wire_decode : string → Wire.WorkflowSnapshot + string).

Definition SnapshotCodec_encode (snapshot : SnapshotEnvelope) : string :=
  encode_to_vec (snapshot_to_wire snapshot).
Definition SnapshotCodec_decode (bytes : string) : snapshot_codec SnapshotEnvelope :=
  snapshot ← match wire_decode bytes with
             | inl s => Ok s
             | inr detail => Err (Snapshot_Decode detail)
             end;
  snapshot ← snapshot_upcast snapshot;
  snapshot_from_wire snapshot.
End bytes.

(** ** Which states survive *)

(** The texts of a state are present, and what its loops and scopes were
    started with is consistent. *)
Definition loop_carried (a : ActiveMultiInstance) : Prop :=
  text_ok (am_task_type a) = true ∧ optional_ok (am_item_variable a) = true ∧
  (am_max_parallelism a ≤ N.max (am_total_instances a) 1)%N ∧
  (am_items a = [] ∨ N.of_nat (length (am_items a)) = am_total_instances a).
Definition subscription_carried (s : ActiveBoundarySubscription) : Prop :=
  text_ok (ab_attached_node_id s) = true ∧ text_ok (ab_target_node_id s) = true ∧
  trigger_ok (ab_trigger s) = true.
Definition scope_carried (s : ActiveExecutionScope) : Prop :=
  text_ok (as_scope_node_id s) = true ∧ text_ok (as_start_node_id s) = true ∧
  optional_ok (as_parent_scope_instance_id s) = true ∧ (0 < as_invocation s)%N.
Definition case_carried (c : ActiveCase) : Prop :=
  text_ok (ac_model_id c) = true ∧ set_Forall (λ s, text_ok s = true) (ac_satisfied_sentries c) ∧
  map_Forall (λ id (_ : CasePlanItemState), text_ok id = true) (ac_plan_items c).
Abbreviation entries P m := (map_Forall (λ id x, text_ok id = true ∧ P x) m) (only parsing).

Record routing_carried (rt : RoutingState) : Prop := {
  ca_tokens : entries (λ _, True) (rt_active_tokens rt);
  ca_joins : entries (λ _, True) (rt_pending_joins rt);
  ca_loops : entries loop_carried (rt_active_multi_instances rt);
  ca_subscriptions : entries subscription_carried (rt_active_boundary_subscriptions rt);
  ca_scopes : entries scope_carried (rt_active_scopes rt);
  ca_counts : entries (λ n, (0 < n)%N) (rt_scope_invocation_counts rt) }.
Record carried (st : InstanceState) : Prop := {
  ca_lifecycle : match st_lifecycle st with Life_Active n => text_ok n = true | _ => True end;
  ca_variables : names_ok (st_variables st) = true;
  ca_routing : routing_carried (RoutingState_from st);
  ca_cases : entries case_carried (st_active_cases st) }.

(** The counters of a state between decisions. *)
Definition loop_counts (a : ActiveMultiInstance) : Prop :=
  (0 < am_max_parallelism a)%N ∧ (0 < am_total_instances a)%N ∧
  (am_next_iteration a ≤ am_total_instances a)%N ∧
  (N.of_nat (size (am_active_iterations a)) ≤ am_max_parallelism a)%N ∧
  set_Forall (λ i, i < am_next_iteration a)%N (am_active_iterations a ∪ am_completed_iterations a) ∧
  am_active_iterations a ## am_completed_iterations a.
Record counts_ok (st : InstanceState) : Prop := {
  co_tokens : map_Forall (λ _ c, 0 < c)%N (st_active_tokens st);
  co_joins : map_Forall (λ _ j, pj_arrived_tokens j < pj_expected_tokens j)%N
    (st_pending_gateway_joins st);
  co_loops : map_Forall (λ _ a, loop_counts a) (st_active_multi_instances st) }.

Definition envelope_texts (s : SnapshotEnvelope) : bool :=
  text_ok (sn_tenant_id s) && text_ok (sn_instance_id s) && text_ok (sn_workflow_type s)
  && text_ok (sn_workflow_version s) && text_ok (sn_config_version s)
  && text_ok (sn_policy_version s) && text_ok (sn_encryption_key_scope s).

(** ** The round trip *)
Lemma map_round_trip {V B} (enc : string * V → B) (dec : B → snapshot_codec (string * V))
    (m : gmap string V) :
  (∀ k v, m !! k = Some v → dec (enc (k, v)) = Ok (k, v)) →
  mapM dec (enc <$> btree_iter m) = Ok (btree_iter m).
Proof. intros H. apply mapM_round_trip. intros [k v] Hin. by apply H, elem_of_btree_iter. Qed.

Lemma list_to_set_u32 (s : gset N) : list_to_set (u32_set_iter s) = s.
Proof. apply set_eq. intros i. rewrite elem_of_list_to_set. apply elem_of_u32_set_iter. Qed.
Lemma list_to_set_btree (s : gset string) : list_to_set (btree_set_iter s) = s.
Proof. apply set_eq. intros i. rewrite elem_of_list_to_set. apply elem_of_btree_set_iter. Qed.

Lemma snapshot_identifier_ok kind value field :
  text_ok value = true → snapshot_identifier kind value field = Ok value.
Proof. apply identifier_ok. Qed.

Lemma lifecycle_round_trip l :
  match l with Life_Active n => text_ok n = true | _ => True end →
  lifecycle_from_wire (Wire.lifecycle_i32 (lifecycle_to_wire l).1) (lifecycle_to_wire l).2 = Ok l.
Proof.
  destruct l as [|n| |]; try done. intros Hn. unfold lifecycle_from_wire. simpl.
  rewrite bool_decide_false by (intros ->; done). by rewrite snapshot_identifier_ok.
Qed.

Lemma pending_join_round_trip k j :
  text_ok k = true → (pj_arrived_tokens j < pj_expected_tokens j)%N →
  pending_join_from_wire (pending_join_to_wire (k, j)) = Ok (k, j).
Proof.
  intros Hk Hj. unfold pending_join_from_wire. simpl.
  rewrite (proj2 (N.eqb_neq _ _)), (proj2 (N.leb_gt _ _)) by lia. simpl.
  rewrite snapshot_identifier_ok by done. by destruct j.
Qed.

Lemma validate_loop_counts a :
  loop_carried a → loop_counts a → validate_active_multi_instance a = Ok tt.
Proof.
  intros (_ & _ & _ & Hitems) (_ & _ & Hnext & Hsize & Hall & Hdisj).
  apply bail_if_Ok. rewrite !orb_false_iff. split_and!.
  - by apply N.ltb_ge.
  - apply not_true_iff_false. rewrite existsb_exists. intros (i & Hin & Hi).
    apply list_elem_of_In, elem_of_app in Hin. rewrite !elem_of_u32_set_iter in Hin.
    assert (i < am_next_iteration a)%N by (apply Hall, elem_of_union; done).
    apply orb_true_iff in Hi. rewrite !N.leb_le in Hi. lia.
  - by rewrite bool_decide_true.
  - destruct Hitems as [->| ->]; [done|]. rewrite N.eqb_refl. apply andb_false_r.
Qed.

Lemma multi_instance_round_trip k a :
  text_ok k = true → loop_carried a → loop_counts a →
  active_multi_instance_from_wire (active_multi_instance_to_wire (k, a)) = Ok (k, a).
Proof.
  intros Hk Hca Hco. pose proof Hca as (Htask & Hvar & Hpar & _).
  pose proof Hco as (Hp & Ht & Hn & _).
  unfold active_multi_instance_from_wire. simpl.
  rewrite !(proj2 (N.eqb_neq _ _)), !(proj2 (N.ltb_ge _ _)) by lia. simpl.
  rewrite !snapshot_identifier_ok by done. simpl. rewrite mode_round_trip. simpl.
  rewrite value_items_round_trip. simpl. rewrite !list_to_set_u32.
  rewrite (proj2 (optional_non_empty_default _)) by done.
  replace (mkActiveMI _ _ _ _ _ _ _ _ _) with a by (by destruct a).
  by rewrite validate_loop_counts.
Qed.

Lemma subscription_round_trip k s :
  text_ok k = true → subscription_carried s →
  active_boundary_subscription_from_wire (active_boundary_subscription_to_wire (k, s)) = Ok (k, s).
Proof.
  intros Hk (Ha & Ht & Htr). unfold active_boundary_subscription_to_wire.
  pose proof (trigger_round_trip Snapshot_EmptyField Snapshot_InvalidBoundaryTriggerKind
    "boundary_subscription.trigger_reference" (ab_trigger s)) as Hround.
  destruct (boundary_trigger_to_wire (ab_trigger s)) as [kind reference].
  unfold active_boundary_subscription_from_wire, snapshot_trigger_from_wire. simpl.
  rewrite !snapshot_identifier_ok by done. simpl. rewrite (proj2 Hround) by done. by destruct s.
Qed.

Lemma scope_round_trip k s :
  text_ok k = true → scope_carried s →
  active_execution_scope_from_wire (active_execution_scope_to_wire (k, s)) = Ok (k, s).
Proof.
  intros Hk (Hn & Hs & Hp & Hi). unfold active_execution_scope_from_wire. simpl.
  rewrite (proj2 (N.eqb_neq _ _)) by lia. simpl. rewrite !snapshot_identifier_ok by done. simpl.
  destruct s as [node start [parent|] n]; simpl in *; [|done].
  by rewrite snapshot_identifier_ok.
Qed.

Lemma plan_item_round_trip k i :
  text_ok k = true → plan_item_from_wire (plan_item_to_wire (k, i)) = Ok (k, i).
Proof.
  intros Hk. destruct i as [kind status]. unfold plan_item_from_wire. simpl.
  destruct kind, status; simpl; by rewrite snapshot_identifier_ok.
Qed.

Lemma case_round_trip k c :
  text_ok k = true → case_carried c →
  active_case_from_wire (active_case_to_wire (k, c)) = Ok (k, c).
Proof.
  intros Hk (Hm & Hs & Hp). destruct c as [model life sentries items]. simpl in *.
  unfold active_case_from_wire. simpl.
  replace (case_lifecycle_from_name _) with (Ok (E:=SnapshotCodecError) life) by (by destruct life).
  simpl. rewrite (map_round_trip plan_item_to_wire) by (intros ? ? ?%Hp; by apply plan_item_round_trip).
  simpl. rewrite !snapshot_identifier_ok by done. simpl.
  rewrite <-(list_fmap_id (btree_set_iter sentries)) at 1.
  rewrite mapM_round_trip; simpl.
  - by rewrite list_to_set_btree, btree_extend_iter.
  - intros s Hin. apply snapshot_identifier_ok, Hs. by apply elem_of_btree_set_iter.
Qed.

(** A snapshot of a state between decisions is decoded to itself. *)
Lemma snapshot_round_trip s :
  envelope_texts s = true → carried (sn_state s) → counts_ok (sn_state s) →
  snapshot_from_wire (snapshot_to_wire s) = Ok s.
Proof.
  intros Ht [Hlife Hvars [Htok Hjoin Hloop Hsub Hscope Hcount] Hcase] [Ktok Kjoin Kloop].
  unfold envelope_texts in Ht. rewrite !andb_true_iff in Ht. destruct_and! Ht.
  unfold snapshot_to_wire, snapshot_from_wire.
  pose proof (lifecycle_round_trip _ Hlife) as Hround.
  destruct (lifecycle_to_wire (st_lifecycle (sn_state s))) as [l n]. simpl in *. rewrite Hround. simpl.
  rewrite (map_round_trip active_token_to_wire); simpl.
  2: { intros k v Hk. unfold active_token_from_wire. simpl. destruct (Htok k v Hk) as [Hkt _].
    rewrite (proj2 (N.eqb_neq _ _)) by (specialize (Ktok k v Hk); simpl in Ktok; lia). simpl.
    by rewrite snapshot_identifier_ok. }
  rewrite (map_round_trip pending_join_to_wire); simpl.
  2: { intros k v Hk. apply pending_join_round_trip; [apply (Hjoin k v Hk)|apply (Kjoin k v Hk)]. }
  rewrite (map_round_trip active_multi_instance_to_wire); simpl.
  2: { intros k v Hk. destruct (Hloop k v Hk). apply multi_instance_round_trip; [done..|].
    apply (Kloop k v Hk). }
  rewrite (map_round_trip active_boundary_subscription_to_wire); simpl.
  2: { intros k v Hk. destruct (Hsub k v Hk). by apply subscription_round_trip. }
  rewrite (map_round_trip active_execution_scope_to_wire); simpl.
  2: { intros k v Hk. destruct (Hscope k v Hk). by apply scope_round_trip. }
  rewrite (map_round_trip scope_invocation_counter_to_wire); simpl.
  2: { intros k v Hk. unfold scope_counter_from_wire. simpl. destruct (Hcount k v Hk) as [Hkt Hpos].
    rewrite (proj2 (N.eqb_neq _ _)) by lia. simpl. by rewrite snapshot_identifier_ok. }
  rewrite (map_round_trip active_case_to_wire); simpl.
  2: { intros k v Hk. destruct (Hcase k v Hk). by apply case_round_trip. }
  rewrite !snapshot_identifier_ok by done. simpl.
  rewrite variables_round_trip by done. simpl.
  rewrite !btree_extend_iter. by destruct s as [? ? ? ? [] ? ? ?].
Qed.
