(* ===== verification/Boundary.v ===== *)
(** * The boundary runtime

    [apps/rust/bpmp-engine/src/boundary_runtime.rs]: the projection of armed
    boundary events from the committed log, and the workers that dispatch due
    timers and correlated signals as commands. The store, the event source,
    the dispatcher and the clock are ports: the workers are programs over
    their calls. *)

From S2P Require Import Prelude Effects Types Config Ports Outbox BoundaryTimer Wire EventCodec.
From stdpp Require Import options.

(** [BoundarySubscriptionKey]: tenant, instance, boundary event. *)
Abbreviation BoundarySubscriptionKey := (TenantId * InstanceId * NodeId)%type.

Record ProjectedBoundarySubscription := mkProjected {
  ps_key : BoundarySubscriptionKey;
  ps_attached_node_id : NodeId;
  ps_target_node_id : NodeId;
  ps_cancel_activity : bool;
  ps_trigger : BoundaryTrigger;
  ps_armed_at_epoch_ms : N;
  ps_armed_event_id : string;
  ps_timer_schedule : option TimerSchedule;
  ps_workflow_type : WorkflowType;
  ps_workflow_version : WorkflowVersion }.
Definition with_schedule (schedule : option TimerSchedule) (s : ProjectedBoundarySubscription) :
    ProjectedBoundarySubscription :=
  mkProjected (ps_key s) (ps_attached_node_id s) (ps_target_node_id s) (ps_cancel_activity s)
    (ps_trigger s) (ps_armed_at_epoch_ms s) (ps_armed_event_id s) schedule (ps_workflow_type s)
    (ps_workflow_version s).

Inductive BoundaryProjectionMutation :=
| Upsert (subscription : ProjectedBoundarySubscription)
| DisarmBoundary (key : BoundarySubscriptionKey)
| DisarmAttached (tenant_id : TenantId) (instance_id : InstanceId) (attached_node_id : NodeId)
| RemoveInstance (tenant_id : TenantId) (instance_id : InstanceId).

Record BoundaryProjectionRecord := mkProjectionRecord {
  pr_cursor : N;
  pr_envelope : EventEnvelope }.

(** ** Signals *)
Inductive BoundarySignalKind := Signal_Message | Signal_Error.
#[global] Instance BoundarySignalKind_eq_dec : EqDecision BoundarySignalKind.
Proof. solve_decision. Defined.

Record BoundarySignal := mkSignal {
  sg_signal_id : string;
  sg_tenant_id : TenantId;
  sg_instance_id : InstanceId;
  sg_kind : BoundarySignalKind;
  sg_reference : option string;
  sg_occurred_at_epoch_ms : N;
  sg_authorization_context_ref : string }.
#[global] Instance BoundarySignal_eq_dec : EqDecision BoundarySignal.
Proof. solve_decision. Defined.

Definition longer_than (s : string) (limit : N) : bool := (limit <? N.of_nat (String.length s))%N.

Definition BoundarySignal_validate (s : BoundarySignal) (policy : BoundaryRuntimePolicy) :
    boundary_res unit :=
  bail_if (is_blank (sg_signal_id s) || longer_than (sg_signal_id s) (br_max_signal_id_bytes policy))
    InvalidSignalId;;
  bail_if (match sg_reference s with
           | Some reference => longer_than reference (br_max_reference_bytes policy)
           | None => false
           end) InvalidSignalReference;;
  bail_if (bool_decide (sg_kind s = Signal_Message)
           && match sg_reference s with Some reference => is_blank reference | None => true end)
    InvalidSignalReference;;
  bail_if (is_blank (sg_authorization_context_ref s)
           || longer_than (sg_authorization_context_ref s) (br_max_reference_bytes policy))
    InvalidAuthorizationContextReference.

(** ** Claims and requests *)
Record ClaimedTimer := mkClaimedTimer {
  ct_subscription : ProjectedBoundarySubscription;
  ct_generation : N;
  ct_attempts : N;
  ct_lease_version : N }.
Record ClaimedCorrelation := mkClaimedCorrelation {
  cc_signal : BoundarySignal;
  cc_subscription : option ProjectedBoundarySubscription;
  cc_attempts : N;
  cc_lease_version : N }.
(** [TimerDispatchCompletion] has the one field [next_schedule]. *)
Definition TimerDispatchCompletion : Type := option TimerSchedule.
Inductive SignalEnqueueOutcome := Enqueued | SignalDuplicate.

Inductive BoundaryDispatchSource := Source_Timer | Source_Message | Source_Error | ExternalWorker.
Record BoundaryDispatchRequest := mkDispatchRequest {
  dr_tenant_id : TenantId;
  dr_instance_id : InstanceId;
  dr_command_id : CommandId;
  dr_idempotency_key : IdempotencyKey;
  dr_correlation_id : CorrelationId;
  dr_command : Command;
  dr_source : BoundaryDispatchSource;
  dr_occurred_at_epoch_ms : N;
  dr_workflow_type : WorkflowType;
  dr_workflow_version : WorkflowVersion;
  dr_authorization_context_ref : option string }.

Record ProjectionOutcome := mkProjectionOutcome { po_processed : nat; po_checkpoint : N }.
Record DispatchOutcome := mkDispatchOutcome {
  do_dispatched : nat; do_retried : nat; do_dead_lettered : nat }.

(** ** The events of the outbox *)
Section source.
Context (wire_decode : string → Wire.EventEnvelope + string) (display : EventCodecError → string).

Definition projection_record (record : OutboxRecord) : boundary_res BoundaryProjectionRecord :=
  envelope ← map_err (λ error, Boundary_CorruptEvent (display error))
    (EventCodec_decode wire_decode (ob_payload record));
  let metadata := ee_metadata envelope in
  bail_if (bool_decide (em_event_id metadata ≠ ob_event_id record)
           || bool_decide (em_tenant_id metadata ≠ ob_tenant_id record)
           || bool_decide (em_instance_id metadata ≠ ob_instance_id record))
    Boundary_EventScopeMismatch;;
  Ok (mkProjectionRecord (ob_cursor record) envelope).

(** [OutboxBoundaryEventSource::read_after] *)
Definition outbox_event_source {S} `{OutboxStorePort S} (store : S) (cursor : N) (limit : nat) :
    boundary_res (list BoundaryProjectionRecord) :=
  records ← map_err Boundary_Outbox (read_after store cursor limit);
  mapM projection_record records.
End source.

(** ** The projection *)
Fixpoint validate_cursors (expected : N) (records : list BoundaryProjectionRecord) :
    boundary_res unit :=
  match records with
  | [] => Ok tt
  | record :: records =>
      expected ← ok_or (checked_add u64_max expected 1) ProjectionCursorOverflow;
      bail_if (negb (pr_cursor record =? expected)%N) NonContiguousProjection;;
      validate_cursors expected records
  end.
Definition validate_projection_records (records : list BoundaryProjectionRecord) (checkpoint : N)
    (limit : nat) : boundary_res unit :=
  bail_if (limit <? length records)%nat Boundary_AdapterBatchLimitExceeded;;
  validate_cursors checkpoint records.

(** ** The ports of the workers *)
Class BoundaryRuntimeStorePort (S : Type) := {
  projection_checkpoint : S → boundary_res N;
  apply_projection : N → N → list BoundaryProjectionMutation → method S BoundaryRuntimeError unit;
  claim_due_timers : N → N → string → nat → method S BoundaryRuntimeError (list ClaimedTimer);
  complete_timer : ClaimedTimer → TimerDispatchCompletion → method S BoundaryRuntimeError unit;
  fail_timer : ClaimedTimer → N → bool → method S BoundaryRuntimeError unit;
  enqueue_signal : BoundarySignal → method S BoundaryRuntimeError SignalEnqueueOutcome;
  claim_correlations : N → N → string → nat → nat →
    method S BoundaryRuntimeError (list ClaimedCorrelation);
  complete_correlation : ClaimedCorrelation → method S BoundaryRuntimeError unit;
  fail_correlation : ClaimedCorrelation → N → bool → method S BoundaryRuntimeError unit }.

(** The calls of a worker over the store [S]: a method of the store port, and
    one operation of each of the other ports. *)
Inductive boundary_op (S : Type) : Type → Type :=
| StoreCall {A} (m : method S BoundaryRuntimeError A) : boundary_op S (boundary_res A)
| ReadEvents (cursor : N) (limit : nat) :
    boundary_op S (boundary_res (list BoundaryProjectionRecord))
| Dispatch (request : BoundaryDispatchRequest) : boundary_op S (boundary_res unit)
| Now : boundary_op S (boundary_res N).
Arguments StoreCall {S A} m.
Arguments ReadEvents {S} cursor limit.
Arguments Dispatch {S} request.
Arguments Now {S}.

Section runtime.
Context (parse_rfc3339 : string → option Z).

Definition projection_mutation (record : BoundaryProjectionRecord) (policy : BoundaryRuntimePolicy) :
    boundary_res (option BoundaryProjectionMutation) :=
  let metadata := ee_metadata (pr_envelope record) in
  let tenant_id := em_tenant_id metadata in
  let instance_id := em_instance_id metadata in
  let disarm_attached attached_node_id :=
    Ok (Some (DisarmAttached tenant_id instance_id attached_node_id)) in
  match ee_event (pr_envelope record) with
  | BoundaryEventArmed boundary_event_id attached_node_id target_node_id cancel_activity trigger
      occurred_at_epoch_ms =>
      schedule ← timer_schedule parse_rfc3339 trigger occurred_at_epoch_ms policy;
      Ok (Some (Upsert
        {| ps_key := (tenant_id, instance_id, boundary_event_id);
           ps_attached_node_id := attached_node_id;
           ps_target_node_id := target_node_id;
           ps_cancel_activity := cancel_activity;
           ps_trigger := trigger;
           ps_armed_at_epoch_ms := occurred_at_epoch_ms;
           ps_armed_event_id := em_event_id metadata;
           ps_timer_schedule := schedule;
           ps_workflow_type := em_workflow_type metadata;
           ps_workflow_version := em_workflow_version metadata |}))
  | BoundaryEventsDisarmed attached_node_id boundary_event_ids _ =>
      match boundary_event_ids with
      | [boundary_event_id] =>
          Ok (Some (DisarmBoundary (tenant_id, instance_id, boundary_event_id)))
      | _ => disarm_attached attached_node_id
      end
  | ServiceTaskCompleted node_id _ _ | UserTaskCompleted node_id _ _ _
  | ScriptTaskCompleted node_id _ | MultiInstanceCompleted node_id _ _ _ => disarm_attached node_id
  | BoundaryEventTriggered _ attached_node_id _ true _ _ _ => disarm_attached attached_node_id
  | WorkflowCompleted _ | WorkflowTerminatedForCompliance _ _ _ _ _ =>
      Ok (Some (RemoveInstance tenant_id instance_id))
  | _ => Ok None
  end.

Fixpoint projection_mutations (policy : BoundaryRuntimePolicy)
    (records : list BoundaryProjectionRecord) : boundary_res (list BoundaryProjectionMutation) :=
  match records with
  | [] => Ok []
  | record :: records =>
      mutation ← projection_mutation record policy;
      mutations ← projection_mutations policy records;
      Ok (match mutation with Some m => m :: mutations | None => mutations end)
  end.

(** ** Requests and completions *)
Definition dispatch_request (subscription : ProjectedBoundarySubscription) (identity : string)
    (source : BoundaryDispatchSource) (occurred_at_epoch_ms : N)
    (authorization_context_ref : option string) : boundary_res BoundaryDispatchRequest :=
  let '(tenant_id, instance_id, boundary_event_id) := ps_key subscription in
  let new kind := map_err (λ _, InvalidDispatchIdentity) (identifier_new kind identity) in
  command_id ← new "CommandId";
  idempotency_key ← new "IdempotencyKey";
  correlation_id ← new "CorrelationId";
  Ok {| dr_tenant_id := tenant_id;
        dr_instance_id := instance_id;
        dr_command_id := command_id;
        dr_idempotency_key := idempotency_key;
        dr_correlation_id := correlation_id;
        dr_command := TriggerBoundaryEvent boundary_event_id occurred_at_epoch_ms;
        dr_source := source;
        dr_occurred_at_epoch_ms := occurred_at_epoch_ms;
        dr_workflow_type := ps_workflow_type subscription;
        dr_workflow_version := ps_workflow_version subscription;
        dr_authorization_context_ref := authorization_context_ref |}.

Definition timer_identity (armed_event_id : string) (generation : N) : string :=
  armed_event_id +:+ ":timer:" +:+ pretty generation.
Definition timer_dispatch_request (claim : ClaimedTimer) (occurred_at_epoch_ms : N) :
    boundary_res BoundaryDispatchRequest :=
  dispatch_request (ct_subscription claim)
    (timer_identity (ps_armed_event_id (ct_subscription claim)) (ct_generation claim))
    Source_Timer occurred_at_epoch_ms None.

Definition correlation_dispatch_request (signal : BoundarySignal)
    (subscription : ProjectedBoundarySubscription) : boundary_res BoundaryDispatchRequest :=
  let source := match sg_kind signal with
                | Signal_Message => Source_Message
                | Signal_Error => Source_Error
                end in
  dispatch_request subscription
    (sg_signal_id signal +:+ ":boundary:" +:+ (ps_key subscription).2) source
    (sg_occurred_at_epoch_ms signal) (Some (sg_authorization_context_ref signal)).

Definition timer_completion (claim : ClaimedTimer) : boundary_res TimerDispatchCompletion :=
  schedule ← ok_or (ps_timer_schedule (ct_subscription claim)) ClaimWithoutTimer;
  if ps_cancel_activity (ct_subscription claim) then Ok None
  else
    match ts_interval_ms schedule with
    | None => Ok None
    | Some interval =>
        let next remaining_firings :=
          due ← ok_or (checked_add u64_max (ts_due_at_epoch_ms schedule) interval) TimerOverflow;
          Ok (Some (mkSchedule due (Some interval) remaining_firings)) in
        match ts_remaining_firings schedule with
        | Some 1%N => Ok None
        | Some 0%N => Panic "attempt to subtract with overflow"
        | Some remaining => next (Some (remaining - 1)%N)
        | None => next None
        end
    end.

(** ** The workers *)
Section workers.
Context {S : Type} `{BoundaryRuntimeStorePort S}.
Abbreviation worker := (effect (boundary_op S) BoundaryRuntimeError).
Implicit Types (policy : BoundaryRuntimePolicy) (outcome : DispatchOutcome).

Definition store_read {A} (f : S → boundary_res A) : worker A := try_ (StoreCall (λ s, (s, f s))).
Definition on_store {A} (m : method S BoundaryRuntimeError A) : worker A := try_ (StoreCall m).

Definition project_once policy : worker ProjectionOutcome :=
  checkpoint ← store_read projection_checkpoint;
  let limit := N.to_nat (br_projection_batch_size policy) in
  records ← try_ (ReadEvents checkpoint limit);
  liftr (validate_projection_records records checkpoint limit);;
  mutations ← liftr (projection_mutations policy records);
  let committed := match last records with
                   | Some record => pr_cursor record
                   | None => checkpoint
                   end in
  (if (committed =? checkpoint)%N then mret tt
   else on_store (apply_projection checkpoint committed mutations));;
  mret (mkProjectionOutcome (length records) committed).

(** [BoundaryRuntime::enqueue_signal] *)
Definition accept_signal policy (signal : BoundarySignal) : worker SignalEnqueueOutcome :=
  liftr (BoundarySignal_validate signal policy);;
  on_store (enqueue_signal signal).

Definition lease_until policy (now : N) : worker N :=
  liftr (ok_or (checked_add u64_max now (br_lease_duration_ms policy)) ClockOverflow).

Definition failure_outcome (dead_letter : bool) outcome : DispatchOutcome :=
  if dead_letter
  then mkDispatchOutcome (do_dispatched outcome) (do_retried outcome) (do_dead_lettered outcome + 1)
  else mkDispatchOutcome (do_dispatched outcome) (do_retried outcome + 1) (do_dead_lettered outcome).
Definition dispatched_outcome outcome : DispatchOutcome :=
  mkDispatchOutcome (do_dispatched outcome + 1) (do_retried outcome) (do_dead_lettered outcome).

Definition record_timer_failure (claim : ClaimedTimer) (now : N) policy outcome :
    worker DispatchOutcome :=
  let dead_letter := (br_max_dispatch_attempts policy <=? ct_attempts claim)%N in
  retry_at ← liftr (ok_or (checked_add u64_max now (br_retry_delay_ms policy)) ClockOverflow);
  on_store (fail_timer claim retry_at dead_letter);;
  mret (failure_outcome dead_letter outcome).

Fixpoint dispatch_timers (now : N) policy outcome (claims : list ClaimedTimer) :
    worker DispatchOutcome :=
  match claims with
  | [] => mret outcome
  | claim :: claims =>
      request ← liftr (timer_dispatch_request claim now);
      answer ← ask (Dispatch request);
      outcome ←
        match answer with
        | Ok _ =>
            completion ← liftr (timer_completion claim);
            on_store (complete_timer claim completion);;
            mret (dispatched_outcome outcome)
        | Err _ => record_timer_failure claim now policy outcome
        | Panic p => liftr (Panic p)
        end;
      dispatch_timers now policy outcome claims
  end.

Definition dispatch_due_timers_once policy : worker DispatchOutcome :=
  now ← try_ Now;
  until ← lease_until policy now;
  let limit := N.to_nat (br_dispatch_batch_size policy) in
  claims ← on_store (claim_due_timers now until (br_worker_id policy) limit);
  liftr (bail_if (limit <? length claims)%nat Boundary_AdapterBatchLimitExceeded);;
  dispatch_timers now policy (mkDispatchOutcome 0 0 0) claims.

Definition record_correlation_failure (claim : ClaimedCorrelation) (now : N) policy outcome :
    worker DispatchOutcome :=
  let dead_letter := (br_max_dispatch_attempts policy <=? cc_attempts claim)%N in
  retry_at ← liftr (ok_or (checked_add u64_max now (br_retry_delay_ms policy)) ClockOverflow);
  on_store (fail_correlation claim retry_at dead_letter);;
  mret (failure_outcome dead_letter outcome).

Definition dispatch_correlation (claim : ClaimedCorrelation) : worker bool :=
  match cc_subscription claim with
  | None => mret false
  | Some subscription =>
      request ← liftr (correlation_dispatch_request (cc_signal claim) subscription);
      answer ← ask (Dispatch request);
      match answer with
      | Ok _ => mret true
      | Err _ => mret false
      | Panic p => liftr (Panic p)
      end
  end.

Fixpoint dispatch_correlations (now : N) policy outcome (claims : list ClaimedCorrelation) :
    worker DispatchOutcome :=
  match claims with
  | [] => mret outcome
  | claim :: claims =>
      dispatched ← dispatch_correlation claim;
      outcome ←
        (if (dispatched : bool) then
           on_store (complete_correlation claim);; mret (dispatched_outcome outcome)
         else record_correlation_failure claim now policy outcome);
      dispatch_correlations now policy outcome claims
  end.

Definition dispatch_correlations_once policy : worker DispatchOutcome :=
  now ← try_ Now;
  until ← lease_until policy now;
  let limit := N.to_nat (br_dispatch_batch_size policy) in
  claims ← on_store (claim_correlations now until (br_worker_id policy) limit
                       (N.to_nat (br_max_subscriptions_per_instance policy)));
  liftr (bail_if (limit <? length claims)%nat Boundary_AdapterBatchLimitExceeded);;
  dispatch_correlations now policy (mkDispatchOutcome 0 0 0) claims.

(** One turn of the scheduler of the engine server. *)
Definition scheduler_turn policy : worker DispatchOutcome :=
  project_once policy;;
  dispatch_due_timers_once policy;;
  dispatch_correlations_once policy.
End workers.
End runtime.
