(* ===== verification/BoundaryStore.v ===== *)
(** * The boundary store in memory

    [InMemoryBoundaryRuntimeStore] of [apps/rust/bpmp-engine/src/memory.rs]:
    projected subscriptions, the queue of timers and the queue of signals,
    both with leases. A poisoned lock is not modelled. *)

From S2P Require Import Prelude Types Config Ports Boundary BoundaryTimer.
From stdpp Require Import options.

(** ** Ordered maps with compound keys *)
Definition lex_le {A B} (R : relation A) (R' : relation B) : relation (A * B) := λ p q,
  (p.1 ≠ q.1 ∧ R p.1 q.1) ∨ (p.1 = q.1 ∧ R' p.2 q.2).
#[global] Instance lex_le_dec {A B} `{EqDecision A} (R : relation A) (R' : relation B)
  `{!RelDecision R, !RelDecision R'} : RelDecision (lex_le R R').
Proof. unfold RelDecision, lex_le. intros. solve_decision. Defined.
#[global] Instance lex_le_total {A B} `{EqDecision A} (R : relation A) (R' : relation B)
  `{!Total R, !Total R'} : Total (lex_le R R').
Proof.
  intros [a b] [a' b']. unfold lex_le. simpl.
  destruct (decide (a = a')) as [->|Hne]; [destruct (total R' b b')|destruct (total R a a')]; naive_solver.
Qed.
#[global] Instance lex_le_trans {A B} (R : relation A) (R' : relation B)
  `{!Transitive R, !AntiSymm (=) R, !Transitive R'} : Transitive (lex_le R R').
Proof.
  intros [a1 b1] [a2 b2] [a3 b3]. unfold lex_le. simpl.
  intros [[Hne H1]|[-> H1]] [[Hne' H2]|[<- H2]]; [|left; eauto|by left|right; split; [done|by etrans]].
  left. split; [|by etrans]. intros ->. by apply Hne, (anti_symm R).
Qed.

Definition tree_iter {K V} `{Countable K} (R : relation K) `{!RelDecision R} (m : gmap K V) :
    list (K * V) := merge_sort (by_key fst R) (map_to_list m).
Lemma elem_of_tree_iter {K V} `{Countable K} (R : relation K) `{!RelDecision R} (m : gmap K V) k v :
  (k, v) ∈ tree_iter R m ↔ m !! k = Some v.
Proof. unfold tree_iter. by rewrite merge_sort_Permutation, elem_of_map_to_list. Qed.
Lemma NoDup_tree_iter {K V} `{Countable K} (R : relation K) `{!RelDecision R} (m : gmap K V) :
  NoDup (tree_iter R m).*1.
Proof. unfold tree_iter. rewrite merge_sort_Permutation. apply NoDup_fst_map_to_list. Qed.

Definition subscription_le : relation BoundarySubscriptionKey :=
  lex_le (lex_le String.le String.le) String.le.
Definition signal_le : relation (TenantId * string) := lex_le String.le String.le.
#[global] Instance subscription_le_dec : RelDecision subscription_le.
Proof. apply _. Defined.
#[global] Instance signal_le_dec : RelDecision signal_le.
Proof. apply _. Defined.

(** ** The state *)
Record MemoryTimerRecord := mkTimer {
  mt_subscription : ProjectedBoundarySubscription;
  mt_generation : N;
  mt_attempts : N;
  mt_available_at_epoch_ms : N;
  mt_lease_until_epoch_ms : N;
  mt_lease_version : N;
  mt_worker_id : string;
  mt_dead_lettered : bool }.
Record MemorySignalRecord := mkSignalRecord {
  sr_signal : BoundarySignal;
  sr_attempts : N;
  sr_available_at_epoch_ms : N;
  sr_lease_until_epoch_ms : N;
  sr_lease_version : N;
  sr_worker_id : string;
  sr_completed : bool;
  sr_dead_lettered : bool }.
Record MemoryBoundaryRuntimeState := mkBoundaryState {
  mb_projection_checkpoint : N;
  mb_subscriptions : gmap BoundarySubscriptionKey ProjectedBoundarySubscription;
  mb_timers : gmap BoundarySubscriptionKey MemoryTimerRecord;
  mb_signals : gmap (TenantId * string) MemorySignalRecord }.
Abbreviation state := MemoryBoundaryRuntimeState.
Abbreviation boundary_method := (method state BoundaryRuntimeError).

Definition MemoryBoundaryRuntimeState_default : state := mkBoundaryState 0 ∅ ∅ ∅.

Definition with_projection_checkpoint (c : N) (s : state) : state :=
  mkBoundaryState c (mb_subscriptions s) (mb_timers s) (mb_signals s).
Definition with_subscriptions
    (f : gmap BoundarySubscriptionKey ProjectedBoundarySubscription →
         gmap BoundarySubscriptionKey ProjectedBoundarySubscription) (s : state) : state :=
  mkBoundaryState (mb_projection_checkpoint s) (f (mb_subscriptions s)) (mb_timers s) (mb_signals s).
Definition with_timers
    (f : gmap BoundarySubscriptionKey MemoryTimerRecord →
         gmap BoundarySubscriptionKey MemoryTimerRecord) (s : state) : state :=
  mkBoundaryState (mb_projection_checkpoint s) (mb_subscriptions s) (f (mb_timers s)) (mb_signals s).
Definition with_signals
    (f : gmap (TenantId * string) MemorySignalRecord →
         gmap (TenantId * string) MemorySignalRecord) (s : state) : state :=
  mkBoundaryState (mb_projection_checkpoint s) (mb_subscriptions s) (mb_timers s) (f (mb_signals s)).

(** ** Diagnostics *)
Definition memory_subscription (s : state) (key : BoundarySubscriptionKey) :
    option ProjectedBoundarySubscription := mb_subscriptions s !! key.
Definition pending_timer_count (s : state) : nat :=
  length (List.filter (λ p, negb (mt_dead_lettered p.2)) (map_to_list (mb_timers s))).
Definition dead_letter_count (s : state) : nat :=
  length (List.filter (λ p, mt_dead_lettered p.2) (map_to_list (mb_timers s))) +
  length (List.filter (λ p, sr_dead_lettered p.2) (map_to_list (mb_signals s))).

(** ** Projections *)
Definition remove_memory_subscription (key : BoundarySubscriptionKey) (s : state) : state :=
  with_timers (delete key) (with_subscriptions (delete key) s).

(** The keys of an instance whose subscription satisfies [p], in key order. *)
Definition instance_keys (tenant_id : TenantId) (instance_id : InstanceId)
    (p : ProjectedBoundarySubscription → bool) (s : state) : list BoundarySubscriptionKey :=
  (List.filter (λ e : BoundarySubscriptionKey * ProjectedBoundarySubscription,
     bool_decide (e.1.1.1 = tenant_id) && bool_decide (e.1.1.2 = instance_id) && p e.2)
     (tree_iter subscription_le (mb_subscriptions s))).*1.
Definition remove_keys (keys : list BoundarySubscriptionKey) (s : state) : state :=
  foldl (λ s key, remove_memory_subscription key s) s keys.

Definition apply_memory_projection (s : state) (mutation : BoundaryProjectionMutation) : state :=
  match mutation with
  | Upsert subscription =>
      let s := with_subscriptions (<[ps_key subscription:=subscription]>) s in
      match ps_timer_schedule subscription with
      | Some schedule =>
          with_timers (<[ps_key subscription:=
            {| mt_subscription := subscription; mt_generation := 0; mt_attempts := 0;
               mt_available_at_epoch_ms := ts_due_at_epoch_ms schedule;
               mt_lease_until_epoch_ms := 0; mt_lease_version := 0; mt_worker_id := "";
               mt_dead_lettered := false |}]>) s
      | None => s
      end
  | DisarmBoundary key => remove_memory_subscription key s
  | DisarmAttached tenant_id instance_id attached_node_id =>
      remove_keys (instance_keys tenant_id instance_id
        (λ subscription, bool_decide (ps_attached_node_id subscription = attached_node_id)) s) s
  | RemoveInstance tenant_id instance_id =>
      remove_keys (instance_keys tenant_id instance_id (λ _, true) s) s
  end.

Definition memory_apply_projection (expected_checkpoint committed_checkpoint : N)
    (mutations : list BoundaryProjectionMutation) : boundary_method unit :=
  s ← self;
  lift (bail_if (negb (mb_projection_checkpoint s =? expected_checkpoint)%N)
    ProjectionCheckpointConflict);;
  lift (bail_if (committed_checkpoint <=? expected_checkpoint)%N NonContiguousProjection);;
  set_self (with_projection_checkpoint committed_checkpoint
    (foldl apply_memory_projection s mutations)).

(** ** Timers *)
Definition timer_due (now : N) (timer : MemoryTimerRecord) : bool :=
  negb (mt_dead_lettered timer) && (mt_available_at_epoch_ms timer <=? now)%N
  && (mt_lease_until_epoch_ms timer <=? now)%N.

Definition leased_timer (lease_until : N) (worker_id : string) (timer : MemoryTimerRecord) :
    MemoryTimerRecord :=
  {| mt_subscription := mt_subscription timer; mt_generation := mt_generation timer;
     mt_attempts := saturating_add u32_max (mt_attempts timer) 1;
     mt_available_at_epoch_ms := mt_available_at_epoch_ms timer;
     mt_lease_until_epoch_ms := lease_until;
     mt_lease_version := saturating_add u64_max (mt_lease_version timer) 1;
     mt_worker_id := worker_id; mt_dead_lettered := mt_dead_lettered timer |}.
Definition timer_claim (timer : MemoryTimerRecord) : ClaimedTimer :=
  mkClaimedTimer (mt_subscription timer) (mt_generation timer) (mt_attempts timer)
    (mt_lease_version timer).

Fixpoint lease_timers (lease_until : N) (worker_id : string) (keys : list BoundarySubscriptionKey) :
    boundary_method (list ClaimedTimer) :=
  match keys with
  | [] => mret []
  | key :: keys =>
      s ← self;
      timer ← lift (ok_or (mb_timers s !! key) (Boundary_Store "timer disappeared"));
      let timer := leased_timer lease_until worker_id timer in
      set_self (with_timers (<[key:=timer]>) s);;
      claims ← lease_timers lease_until worker_id keys;
      mret (timer_claim timer :: claims)
  end.

Definition due_timer_keys (now : N) (limit : nat) (s : state) : list BoundarySubscriptionKey :=
  take limit (List.filter (λ e : BoundarySubscriptionKey * MemoryTimerRecord, timer_due now e.2)
    (tree_iter subscription_le (mb_timers s))).*1.
Definition memory_claim_due_timers (now lease_until : N) (worker_id : string) (limit : nat) :
    boundary_method (list ClaimedTimer) :=
  s ← self;
  lease_timers lease_until worker_id (due_timer_keys now limit s).

Definition validate_timer_lease (s : state) (claim : ClaimedTimer) : boundary_res unit :=
  match mb_timers s !! ps_key (ct_subscription claim) with
  | Some timer =>
      bail_if (negb ((mt_lease_version timer =? ct_lease_version claim)%N
                     && (mt_generation timer =? ct_generation claim)%N
                     && negb (bool_decide (mt_worker_id timer = "")))) LeaseConflict
  | None => Err LeaseConflict
  end.

Definition rescheduled_timer (schedule : TimerSchedule) (timer : MemoryTimerRecord) :
    MemoryTimerRecord :=
  {| mt_subscription := with_schedule (Some schedule) (mt_subscription timer);
     mt_generation := saturating_add u64_max (mt_generation timer) 1;
     mt_attempts := 0;
     mt_available_at_epoch_ms := ts_due_at_epoch_ms schedule;
     mt_lease_until_epoch_ms := 0;
     mt_lease_version := mt_lease_version timer;
     mt_worker_id := ""; mt_dead_lettered := mt_dead_lettered timer |}.

Definition memory_complete_timer (claim : ClaimedTimer) (completion : TimerDispatchCompletion) :
    boundary_method unit :=
  s ← self;
  let key := ps_key (ct_subscription claim) in
  lift (validate_timer_lease s claim);;
  match completion with
  | Some schedule =>
      timer ← lift (ok_or (mb_timers s !! key) LeaseConflict);
      set_self (with_subscriptions (alter (with_schedule (Some schedule)) key)
        (with_timers (<[key:=rescheduled_timer schedule timer]>) s))
  | None =>
      set_self (with_subscriptions (alter (with_schedule None) key)
        (with_timers (delete key) s))
  end.

Definition failed_timer (retry_at : N) (dead_letter : bool) (timer : MemoryTimerRecord) :
    MemoryTimerRecord :=
  {| mt_subscription := mt_subscription timer; mt_generation := mt_generation timer;
     mt_attempts := mt_attempts timer; mt_available_at_epoch_ms := retry_at;
     mt_lease_until_epoch_ms := 0; mt_lease_version := mt_lease_version timer;
     mt_worker_id := ""; mt_dead_lettered := dead_letter |}.
Definition memory_fail_timer (claim : ClaimedTimer) (retry_at : N) (dead_letter : bool) :
    boundary_method unit :=
  s ← self;
  lift (validate_timer_lease s claim);;
  timer ← lift (ok_or (mb_timers s !! ps_key (ct_subscription claim)) LeaseConflict);
  set_self (with_timers (<[ps_key (ct_subscription claim):=failed_timer retry_at dead_letter timer]>) s).

(** ** Signals *)
Definition memory_enqueue_signal (signal : BoundarySignal) : boundary_method SignalEnqueueOutcome :=
  s ← self;
  let key := (sg_tenant_id signal, sg_signal_id signal) in
  match mb_signals s !! key with
  | Some existing =>
      if bool_decide (sr_signal existing = signal) then mret SignalDuplicate
      else lift (Err SignalConflict)
  | None =>
      set_self (with_signals (<[key:=
        {| sr_signal := signal; sr_attempts := 0;
           sr_available_at_epoch_ms := sg_occurred_at_epoch_ms signal;
           sr_lease_until_epoch_ms := 0; sr_lease_version := 0; sr_worker_id := "";
           sr_completed := false; sr_dead_lettered := false |}]>) s);;
      mret Enqueued
  end.

Definition trigger_matches_signal (trigger : BoundaryTrigger) (signal : BoundarySignal) : bool :=
  match trigger, sg_kind signal with
  | Trigger_Message message_ref, Signal_Message =>
      bool_decide (sg_reference signal = Some message_ref)
  | Trigger_Error error_ref, Signal_Error =>
      negb (is_some error_ref) || bool_decide (error_ref = sg_reference signal)
  | _, _ => false
  end.

(** [SubscriptionMatches]: the number of subscriptions scanned, the matches. *)
Definition matching_subscriptions
    (subscriptions : gmap BoundarySubscriptionKey ProjectedBoundarySubscription)
    (signal : BoundarySignal) : nat * list ProjectedBoundarySubscription :=
  let scoped := List.filter (λ s : ProjectedBoundarySubscription,
    bool_decide ((ps_key s).1.1 = sg_tenant_id signal)
    && bool_decide ((ps_key s).1.2 = sg_instance_id signal))
    (tree_iter subscription_le subscriptions).*2 in
  (length scoped, List.filter (λ s, trigger_matches_signal (ps_trigger s) signal) scoped).

Definition signal_due (now : N) (record : MemorySignalRecord) : bool :=
  negb (sr_completed record) && negb (sr_dead_lettered record)
  && (sr_available_at_epoch_ms record <=? now)%N && (sr_lease_until_epoch_ms record <=? now)%N.

Definition leased_signal (lease_until : N) (worker_id : string) (record : MemorySignalRecord) :
    MemorySignalRecord :=
  {| sr_signal := sr_signal record;
     sr_attempts := saturating_add u32_max (sr_attempts record) 1;
     sr_available_at_epoch_ms := sr_available_at_epoch_ms record;
     sr_lease_until_epoch_ms := lease_until;
     sr_lease_version := saturating_add u64_max (sr_lease_version record) 1;
     sr_worker_id := worker_id; sr_completed := sr_completed record;
     sr_dead_lettered := sr_dead_lettered record |}.

Fixpoint lease_signals (lease_until : N) (worker_id : string) (max_subscriptions : nat)
    (keys : list (TenantId * string)) : boundary_method (list ClaimedCorrelation) :=
  match keys with
  | [] => mret []
  | key :: keys =>
      s ← self;
      record ← lift (ok_or (mb_signals s !! key) (Boundary_Store "signal disappeared"));
      let signal := sr_signal record in
      let '(scanned, matches) := matching_subscriptions (mb_subscriptions s) signal in
      lift (bail_if (max_subscriptions <? scanned)%nat CorrelationScanLimitExceeded);;
      lift (bail_if (1 <? length matches)%nat AmbiguousCorrelation);;
      let record := leased_signal lease_until worker_id record in
      set_self (with_signals (<[key:=record]>) s);;
      claims ← lease_signals lease_until worker_id max_subscriptions keys;
      mret (mkClaimedCorrelation signal (head matches) (sr_attempts record)
              (sr_lease_version record) :: claims)
  end.

Definition due_signal_keys (now : N) (limit : nat) (s : state) : list (TenantId * string) :=
  take limit (List.filter (λ e : TenantId * string * MemorySignalRecord, signal_due now e.2)
    (tree_iter signal_le (mb_signals s))).*1.
Definition memory_claim_correlations (now lease_until : N) (worker_id : string) (limit : nat)
    (max_subscriptions_per_instance : nat) : boundary_method (list ClaimedCorrelation) :=
  s ← self;
  lease_signals lease_until worker_id max_subscriptions_per_instance (due_signal_keys now limit s).

Definition signal_key (claim : ClaimedCorrelation) : TenantId * string :=
  (sg_tenant_id (cc_signal claim), sg_signal_id (cc_signal claim)).
Definition validate_signal_lease (s : state) (claim : ClaimedCorrelation) : boundary_res unit :=
  match mb_signals s !! signal_key claim with
  | Some record =>
      bail_if (negb ((sr_lease_version record =? cc_lease_version claim)%N
                     && negb (bool_decide (sr_worker_id record = "")))) LeaseConflict
  | None => Err LeaseConflict
  end.

Definition completed_signal (record : MemorySignalRecord) : MemorySignalRecord :=
  mkSignalRecord (sr_signal record) (sr_attempts record) (sr_available_at_epoch_ms record) 0
    (sr_lease_version record) "" true (sr_dead_lettered record).
Definition memory_complete_correlation (claim : ClaimedCorrelation) : boundary_method unit :=
  s ← self;
  lift (validate_signal_lease s claim);;
  record ← lift (ok_or (mb_signals s !! signal_key claim) LeaseConflict);
  set_self (with_signals (<[signal_key claim:=completed_signal record]>) s).

Definition failed_signal (retry_at : N) (dead_letter : bool) (record : MemorySignalRecord) :
    MemorySignalRecord :=
  mkSignalRecord (sr_signal record) (sr_attempts record) retry_at 0 (sr_lease_version record) ""
    (sr_completed record) dead_letter.
Definition memory_fail_correlation (claim : ClaimedCorrelation) (retry_at : N)
    (dead_letter : bool) : boundary_method unit :=
  s ← self;
  lift (validate_signal_lease s claim);;
  record ← lift (ok_or (mb_signals s !! signal_key claim) LeaseConflict);
  set_self (with_signals (<[signal_key claim:=failed_signal retry_at dead_letter record]>) s).

#[export] Instance memory_boundary_port : BoundaryRuntimeStorePort state := {|
  projection_checkpoint s := Ok (mb_projection_checkpoint s);
  apply_projection := memory_apply_projection;
  claim_due_timers := memory_claim_due_timers;
  complete_timer := memory_complete_timer;
  fail_timer := memory_fail_timer;
  enqueue_signal := memory_enqueue_signal;
  claim_correlations := memory_claim_correlations;
  complete_correlation := memory_complete_correlation;
  fail_correlation := memory_fail_correlation |}.
