(* ===== verification/BoundaryLeases.v ===== *)
(** * Leases on timers

    How the operations of the boundary workers change one timer of the
    in-memory boundary store: a timer is leased, rescheduled or failed, and a
    lease taken over by another worker fences the first one off. *)

From S2P Require Import Prelude Types Config Ports BoundaryTimer Boundary BoundaryStore.
From stdpp Require Import options.

(** ** Steps of the store *)

(** The operations of the workers on the store, with any arguments. *)
Inductive worker_step (s : MemoryBoundaryRuntimeState) : MemoryBoundaryRuntimeState → Prop :=
| worker_claim_timers now until worker limit :
    worker_step s (memory_claim_due_timers now until worker limit s).1
| worker_complete_timer claim completion : worker_step s (memory_complete_timer claim completion s).1
| worker_fail_timer claim retry dead : worker_step s (memory_fail_timer claim retry dead s).1
| worker_enqueue signal : worker_step s (memory_enqueue_signal signal s).1
| worker_claim_correlations now until worker limit max :
    worker_step s (memory_claim_correlations now until worker limit max s).1
| worker_complete_correlation claim : worker_step s (memory_complete_correlation claim s).1
| worker_fail_correlation claim retry dead :
    worker_step s (memory_fail_correlation claim retry dead s).1.

(** The operations of the workers and the projector. *)
Inductive store_step (s : MemoryBoundaryRuntimeState) : MemoryBoundaryRuntimeState → Prop :=
| store_worker s' : worker_step s s' → store_step s s'
| store_project expected committed mutations :
    store_step s (memory_apply_projection expected committed mutations s).1.
Definition store_reachable : MemoryBoundaryRuntimeState → Prop :=
  rtc store_step MemoryBoundaryRuntimeState_default.

(** Every key due is leased, once, and nothing else changes. *)
Lemma lease_timers_spec until worker keys s :
  NoDup keys → (∀ key, key ∈ keys → is_Some (mb_timers s !! key)) →
  let '(s', r) := lease_timers until worker keys s in
  (∀ key, mb_timers s' !! key =
     if bool_decide (key ∈ keys) then leased_timer until worker <$> mb_timers s !! key
     else mb_timers s !! key) ∧
  r = Ok (omap (λ key, timer_claim ∘ leased_timer until worker <$> mb_timers s !! key) keys).
Proof.
  revert s. induction keys as [|key keys IH]; intros s Hnd Hin; [done|].
  apply NoDup_cons in Hnd as [Hnk Hnd]. destruct (Hin key) as [timer Ht]; [by left|].
  cbn [lease_timers]. rewrite self_then, lift_then, Ht. cbn [ok_or]. rewrite set_self_then.
  set (s1 := with_timers _ s).
  assert (∀ key', key' ≠ key → mb_timers s1 !! key' = mb_timers s !! key') as Hother
    by (intros key' Hne; simpl; by rewrite lookup_insert_ne).
  specialize (IH s1 Hnd). unfold mbind, method_bind.
  destruct (lease_timers until worker keys s1) as [s' r]. destruct IH as [Hs' ->].
  { intros key' Hk'. rewrite Hother by (by intros ->). apply Hin. by right. }
  split.
  - intros key'. rewrite Hs'. destruct (decide (key' = key)) as [->|Hne].
    + rewrite bool_decide_false, (bool_decide_true (_ ∈ _ :: _)), Ht by (done || by left).
      simpl. by rewrite lookup_insert_eq.
    + rewrite Hother by done. erewrite (bool_decide_ext (_ ∈ _ :: _)); [done|].
      rewrite elem_of_cons. naive_solver.
  - simpl. rewrite Ht. simpl. do 2 f_equal. apply list_omap_ext.
    assert (Forall (λ key', key' ≠ key) keys) as Hne by (apply Forall_forall; by intros ? ? ->).
    clear -Hne Hother. induction Hne as [|key' keys Hk' _ IH]; constructor; [|done].
    by rewrite Hother.
Qed.

Lemma NoDup_filter_fst {A B} (p : A * B → bool) (l : list (A * B)) :
  NoDup l.*1 → NoDup (List.filter p l).*1.
Proof.
  induction l as [|x l IH]; [done|]. simpl. intros [Hx Hl]%NoDup_cons.
  destruct (p x); [|by apply IH]. apply NoDup_cons. split; [|by apply IH].
  intros (y & Hy & Hin%list_elem_of_In)%list_elem_of_fmap. apply filter_In in Hin as [Hin _].
  apply Hx. rewrite Hy. apply list_elem_of_fmap_2. by apply list_elem_of_In.
Qed.

Lemma due_timer_keys_spec now limit s :
  NoDup (due_timer_keys now limit s) ∧
  ∀ key, key ∈ due_timer_keys now limit s →
    ∃ timer, mb_timers s !! key = Some timer ∧ timer_due now timer = true.
Proof.
  unfold due_timer_keys. set (p := λ e, timer_due now e.2). split.
  - eapply sublist_NoDup; [|apply sublist_take].
    apply NoDup_filter_fst, (NoDup_tree_iter subscription_le (mb_timers s)).
  - intros key (i & Hin & _)%elem_of_take. apply list_lookup_fmap_Some in Hin as ([key' timer] & -> & Hin).
    apply list_elem_of_lookup_2, list_elem_of_In, filter_In in Hin as [Hin Hdue].
    apply list_elem_of_In, elem_of_tree_iter in Hin. eauto.
Qed.

Lemma claim_due_timers_spec now until worker limit s :
  let '(s', r) := memory_claim_due_timers now until worker limit s in
  let keys := due_timer_keys now limit s in
  (∀ key, mb_timers s' !! key =
     if bool_decide (key ∈ keys) then leased_timer until worker <$> mb_timers s !! key
     else mb_timers s !! key) ∧
  r = Ok (omap (λ key, timer_claim ∘ leased_timer until worker <$> mb_timers s !! key) keys).
Proof.
  unfold memory_claim_due_timers. rewrite self_then.
  destruct (due_timer_keys_spec now limit s) as [Hnd Hin]. apply lease_timers_spec; [done|].
  intros key Hk. destruct (Hin key Hk) as (timer & -> & _). done.
Qed.

(** ** What happens to one timer *)
Inductive timer_moves (t : MemoryTimerRecord) : MemoryTimerRecord → Prop :=
| timer_same : timer_moves t t
| timer_leased until worker :
    mt_dead_lettered t = false → timer_moves t (leased_timer until worker t)
| timer_rescheduled schedule :
    mt_worker_id t ≠ "" → timer_moves t (rescheduled_timer schedule t)
| timer_failed retry dead : mt_worker_id t ≠ "" → timer_moves t (failed_timer retry dead t).

(** Between projections a timer moves, or is removed by the holder of its
    lease; none appears. *)
Definition timer_follows (before after : option MemoryTimerRecord) : Prop :=
  match before, after with
  | Some t, Some t' => timer_moves t t'
  | Some t, None => mt_worker_id t ≠ ""
  | None, Some _ => False
  | None, None => True
  end.

Lemma timer_follows_refl o : timer_follows o o.
Proof. destruct o; simpl; [apply timer_same|done]. Qed.
#[local] Hint Resolve timer_follows_refl : core.

Lemma validate_timer_lease_Ok s claim :
  validate_timer_lease s claim = Ok tt →
  ∃ t, mb_timers s !! ps_key (ct_subscription claim) = Some t ∧
    mt_lease_version t = ct_lease_version claim ∧ mt_generation t = ct_generation claim ∧
    mt_worker_id t ≠ "".
Proof.
  unfold validate_timer_lease. destruct (mb_timers s !! _) as [t|]; [|done].
  intros H%bail_if_Ok. rewrite negb_false_iff, !andb_true_iff, !N.eqb_eq, negb_true_iff in H.
  destruct H as [[Hv Hg] Hw%bool_decide_eq_false]. by exists t.
Qed.

Lemma lease_signals_timers until worker max keys s :
  mb_timers (lease_signals until worker max keys s).1 = mb_timers s.
Proof.
  revert s. induction keys as [|key keys IH]; intros s; [done|]. cbn [lease_signals].
  rewrite self_then, lift_then. destruct (mb_signals s !! key) as [record|]; [|done]. simpl.
  rewrite !bail_if_then. repeat (case_match; [done|]). rewrite set_self_then.
  unfold mbind, method_bind. specialize (IH (with_signals <[key:=leased_signal until worker record]> s)).
  destruct (lease_signals _ _ _ _ _) as [s' r]. simpl in IH. by destruct r.
Qed.

Lemma worker_step_timer s s' key :
  worker_step s s' → timer_follows (mb_timers s !! key) (mb_timers s' !! key).
Proof.
  destruct 1 as [now until worker limit|claim completion|claim retry dead|signal|now until worker limit max
    |claim|claim retry dead].
  - pose proof (claim_due_timers_spec now until worker limit s) as Hspec.
    destruct (memory_claim_due_timers now until worker limit s) as [s' r]. destruct Hspec as [-> _].
    case_bool_decide as Hin; [|done].
    apply due_timer_keys_spec in Hin as (t & -> & Hdue). simpl. apply timer_leased.
    unfold timer_due in Hdue. rewrite !andb_true_iff, negb_true_iff in Hdue. tauto.
  - unfold memory_complete_timer. rewrite self_then, lift_then.
    destruct (validate_timer_lease s claim) as [[]| |] eqn:Hv; [|done..].
    apply validate_timer_lease_Ok in Hv as (t & Ht & _ & _ & Hw).
    destruct completion as [schedule|]; [rewrite ok_or_then, Ht|]; simpl;
      (destruct (decide (ps_key (ct_subscription claim) = key)) as [<-|Hne];
       [rewrite Ht|rewrite ?lookup_insert_ne, ?lookup_delete_ne by done; done]).
    + rewrite lookup_insert_eq. by apply timer_rescheduled.
    + by rewrite lookup_delete_eq.
  - unfold memory_fail_timer. rewrite self_then, lift_then.
    destruct (validate_timer_lease s claim) as [[]| |] eqn:Hv; [|done..].
    apply validate_timer_lease_Ok in Hv as (t & Ht & _ & _ & Hw). rewrite ok_or_then, Ht. simpl.
    destruct (decide (ps_key (ct_subscription claim) = key)) as [<-|Hne];
      [rewrite Ht, lookup_insert_eq; by apply timer_failed|by rewrite lookup_insert_ne].
  - unfold memory_enqueue_signal. rewrite self_then.
    destruct (mb_signals s !! _); [by case_bool_decide|done].
  - unfold memory_claim_correlations. by rewrite self_then, lease_signals_timers.
  - unfold memory_complete_correlation. rewrite self_then, lift_then.
    destruct (validate_signal_lease s claim); [|done..]. rewrite ok_or_then. by destruct (mb_signals s !! _).
  - unfold memory_fail_correlation. rewrite self_then, lift_then.
    destruct (validate_signal_lease s claim); [|done..]. rewrite ok_or_then. by destruct (mb_signals s !! _).
Qed.

(** A property of a timer that every move keeps holds until it is removed. *)
Lemma worker_steps_timer (P : MemoryTimerRecord → Prop) s s' key :
  (∀ t t', timer_moves t t' → P t → P t') → rtc worker_step s s' →
  (∀ t, mb_timers s !! key = Some t → P t) → ∀ t, mb_timers s' !! key = Some t → P t.
Proof.
  intros HP. induction 1 as [s|s1 s2 s3 Hstep _ IH]; intros H1; [done|]. apply IH.
  intros t Ht. pose proof (worker_step_timer _ _ key Hstep) as Hf. rewrite Ht in Hf.
  destruct (mb_timers s1 !! key) as [t1|] eqn:Ht1; [|done]. eapply HP; [exact Hf|by apply H1].
Qed.

(** ** Invariants of the stored timers *)
Record timer_ok (key : BoundarySubscriptionKey) (t : MemoryTimerRecord) : Prop := {
  to_key : ps_key (mt_subscription t) = key;
  to_dead : mt_dead_lettered t = true → mt_worker_id t = "" }.
Definition timers_ok (s : MemoryBoundaryRuntimeState) : Prop :=
  ∀ key t, mb_timers s !! key = Some t → timer_ok key t.

Lemma timer_moves_ok key t t' : timer_moves t t' → timer_ok key t → timer_ok key t'.
Proof.
  intros Hm [Hk Hd]. destruct Hm; split; simpl; try done; naive_solver congruence.
Qed.

Lemma remove_keys_timers keys s key t :
  mb_timers (remove_keys keys s) !! key = Some t → mb_timers s !! key = Some t.
Proof.
  unfold remove_keys. revert s. induction keys as [|key' keys IH]; intros s; [done|].
  cbn [foldl]. intros H%IH. simpl in H. by apply lookup_delete_Some in H as [_ H].
Qed.

Lemma apply_memory_projection_ok s mutation :
  timers_ok s → timers_ok (apply_memory_projection s mutation).
Proof.
  intros HI. destruct mutation as [sub|key0|tenant instance node|tenant instance]; simpl.
  - destruct (ps_timer_schedule sub) as [schedule|]; [|done]. intros key t. simpl.
    intros [[<- <-]|[_ Ht]]%lookup_insert_Some; [done|by apply HI].
  - intros key t. simpl. intros [_ Ht]%lookup_delete_Some. by apply HI.
  - intros key t Ht%remove_keys_timers. by apply HI.
  - intros key t Ht%remove_keys_timers. by apply HI.
Qed.

Lemma store_step_ok s s' : store_step s s' → timers_ok s → timers_ok s'.
Proof.
  intros [s1 Hstep|expected committed mutations] HI.
  - intros key t Ht. pose proof (worker_step_timer _ _ key Hstep) as Hf. rewrite Ht in Hf.
    destruct (mb_timers s !! key) as [t0|] eqn:Ht0; [|done].
    eapply timer_moves_ok; [exact Hf|by apply HI].
  - unfold memory_apply_projection. rewrite self_then, !bail_if_then.
    repeat (case_match; [done|]). rewrite set_self_last. simpl.
    intros key t. simpl. revert key t. change (timers_ok (foldl apply_memory_projection s mutations)).
    clear -HI. revert s HI. induction mutations as [|m mutations IH]; intros s HI; [done|].
    by apply IH, apply_memory_projection_ok.
Qed.

Lemma worker_steps_ok s s' : rtc worker_step s s' → timers_ok s → timers_ok s'.
Proof. induction 1; eauto using store_step_ok, store_worker. Qed.

Lemma store_reachable_ok s : store_reachable s → timers_ok s.
Proof.
  unfold store_reachable. intros Hr.
  assert (timers_ok MemoryBoundaryRuntimeState_default) as H0 by done.
  revert H0. induction Hr; eauto using store_step_ok.
Qed.

(** ** Claims *)
Lemma claimed_timer now until worker limit s s' claims c :
  timers_ok s → memory_claim_due_timers now until worker limit s = (s', Ok claims) → c ∈ claims →
  let key := ps_key (ct_subscription c) in
  ∃ t, mb_timers s !! key = Some t ∧ timer_due now t = true ∧
    mb_timers s' !! key = Some (leased_timer until worker t) ∧
    c = timer_claim (leased_timer until worker t).
Proof.
  intros HI Hclaim Hc. pose proof (claim_due_timers_spec now until worker limit s) as Hspec.
  rewrite Hclaim in Hspec. destruct Hspec as [Hs' [= ->]].
  apply list_elem_of_omap in Hc as (key & Hkey & Hc).
  apply fmap_Some in Hc as (t & Ht & ->). pose proof (to_key _ _ (HI _ _ Ht)) as Hk.
  cbn [compose timer_claim ct_subscription leased_timer mt_subscription]. rewrite Hk.
  destruct (proj2 (due_timer_keys_spec now limit s) key Hkey) as (t' & Ht' & Hdue).
  exists t. rewrite Hs', bool_decide_true, Ht by done. naive_solver.
Qed.

Lemma claim_due_timers_ok now until worker limit s s' r :
  memory_claim_due_timers now until worker limit s = (s', r) → timers_ok s → timers_ok s'.
Proof.
  intros H. pose proof (store_step_ok s _ (store_worker _ _ (worker_claim_timers s now until worker limit)))
    as Hok. by rewrite H in Hok.
Qed.

(** The timer of a claim has moved on. *)
Lemma stale_claim c s :
  (∀ t, mb_timers s !! ps_key (ct_subscription c) = Some t →
     (ct_lease_version c < mt_lease_version t)%N) →
  validate_timer_lease s c = Err LeaseConflict.
Proof.
  intros Hv. unfold validate_timer_lease. destruct (mb_timers s !! _) as [t|]; [|done].
  specialize (Hv t eq_refl). by rewrite (proj2 (N.eqb_neq _ _)) by lia.
Qed.

Lemma refused_claim c s completion retry dead :
  validate_timer_lease s c = Err LeaseConflict →
  memory_complete_timer c completion s = (s, Err LeaseConflict) ∧
  memory_fail_timer c retry dead s = (s, Err LeaseConflict).
Proof.
  intros Hv. unfold memory_complete_timer, memory_fail_timer. by rewrite !self_then, !lift_then, Hv.
Qed.

Lemma lease_version_grows v t t' :
  (v ≤ u64_max)%N → timer_moves t t' → (v ≤ mt_lease_version t)%N → (v ≤ mt_lease_version t')%N.
Proof. intros Hv. destruct 1; simpl; try done. unfold saturating_add. lia. Qed.

Lemma dead_timer_stays t t' :
  mt_dead_lettered t = true → mt_worker_id t = "" → timer_moves t t' → t' = t.
Proof. intros Hd Hw. by destruct 1; congruence. Qed.
