(* ===== verification/BoundarySpec.v ===== *)
(** * What the boundary projection computes

    The boundary runtime rebuilds the armed boundary events of each instance
    from the committed log, by rules of its own ([projection_mutation]).
    [project] is what those rules do to the subscriptions of one instance.
    The core keeps the same map in the instance state. The lemmas show that
    the two agree after every decision. *)

From S2P Require Import Prelude Types Expr Coverage Config WorkflowDef Routing Text Evolve.
From S2P Require Import Activation Cases Decide Simulation MultiInstance Invariant Loop Decisions.
From S2P Require Import CaseSpec Instance.
From stdpp Require Import options.

Abbreviation Subs := (gmap NodeId ActiveBoundarySubscription).
Abbreviation subs := rt_active_boundary_subscriptions.

Definition unattached (k : NodeId) (m : Subs) : Subs :=
  filter (λ p, ab_attached_node_id p.2 ≠ k) m.

Definition project (m : Subs) (e : DomainEvent) : Subs :=
  match e with
  | BoundaryEventArmed id attached target cancel trigger at_ms =>
      <[id:=mkSubscription attached target cancel trigger at_ms]> m
  | BoundaryEventsDisarmed _ [id] _ => delete id m
  | BoundaryEventsDisarmed k _ _ | ServiceTaskCompleted k _ _ | UserTaskCompleted k _ _ _
  | ScriptTaskCompleted k _ | MultiInstanceCompleted k _ _ _
  | BoundaryEventTriggered _ k _ true _ _ _ => unattached k m
  | WorkflowCompleted _ | WorkflowTerminatedForCompliance _ _ _ _ _ => ∅
  | _ => m
  end.
Definition projects (m : Subs) (evs : list DomainEvent) (m' : Subs) : Prop :=
  foldl project m evs = m'.

(** Events on which the two rules agree in any state. *)
Definition neutral (e : DomainEvent) : bool :=
  match e with
  | BoundaryEventsDisarmed _ _ _ | ServiceTaskCompleted _ _ _ | UserTaskCompleted _ _ _ _
  | ScriptTaskCompleted _ _ | MultiInstanceCompleted _ _ _ _ => false
  | _ => true
  end.

Lemma neutral_agrees rt e : neutral e = true → project (subs rt) e = subs (evolve_routing rt e).
Proof.
  destruct e; try done. intros _. simpl. by match goal with |- context [if ?c then _ else _] => destruct c end.
Qed.

Lemma projects_app m evs1 m1 evs2 m2 :
  projects m evs1 m1 → projects m1 evs2 m2 → projects m (evs1 ++ evs2) m2.
Proof. unfold projects. intros <- <-. by rewrite foldl_app. Qed.

Lemma neutral_projects rt evs rt' :
  forallb neutral evs = true → replays rt evs rt' → projects (subs rt) evs (subs rt').
Proof.
  revert rt. induction evs as [|e evs IH]; intros rt Hn Hr.
  - by unfold replays in Hr; simpl in Hr; subst.
  - simpl in Hn. apply andb_true_iff in Hn as [He Hn]. unfold projects. cbn [foldl].
    rewrite neutral_agrees by done. by apply IH.
Qed.

(** ** Arming and disarming *)
Lemma arm_boundary_events_neutral d at_ms k rt rt' evs :
  arm_boundary_events d at_ms k rt = Ok (rt', evs) → forallb neutral evs = true.
Proof.
  unfold arm_boundary_events. intros H. change (forallb neutral (rt', evs).2 = true).
  eapply (for_each_inv _ (λ _ acc, forallb neutral acc.2 = true)); [done|done|].
  intros _ b [rt1 evs1] [rt2 evs2] Hn _ Hf. simpl in *. inv_res Hf. simplify_eq/=.
  by rewrite forallb_app, Hn.
Qed.

Lemma unattached_idem k m : unattached k (unattached k m) = unattached k m.
Proof.
  apply map_filter_id. by intros i sub [_ Hk]%map_lookup_filter_Some.
Qed.

Lemma unattached_none k m : armed_for m k = [] → unattached k m = m.
Proof.
  intros Hnone. apply map_filter_id. intros i sub Hi Hk. simpl in Hk.
  assert (i ∈ armed_for m k) as Hin by (apply elem_of_armed_for; eauto). rewrite Hnone in Hin. set_solver.
Qed.

(** Disarming, after the projection has or has not dropped the owner. *)
Lemma disarm_projects at_ms k rt rt' evs m :
  disarm_boundary_events at_ms k rt = (rt', evs) →
  m = subs rt ∨ m = unattached k (subs rt) → projects m evs (subs rt').
Proof.
  intros Hd Hm. rewrite (disarm_boundary_events_core _ _ _ _ _ Hd).
  rewrite disarm_boundaries_filter. cbn [set_subscriptions rt_active_boundary_subscriptions].
  fold (unattached k (subs rt)).
  assert (unattached k m = unattached k (subs rt)) as Hun
    by (destruct Hm as [->| ->]; [done|apply unattached_idem]).
  unfold disarm_boundary_events, disarm_boundaries in Hd. injection Hd as _ Hevs. subst evs.
  destruct (armed_for (subs rt) k) as [|i [|j l]] eqn:Ha; unfold projects; simpl; [|..|done].
  - destruct Hm as [->| ->]; [|done]. by rewrite unattached_none.
  - assert (m ⊆ subs rt) as Hsub by (destruct Hm as [->| ->]; [done|apply map_filter_subseteq]).
    assert (∀ i' sub, m !! i' = Some sub → ab_attached_node_id sub = k ↔ i' = i) as Hi.
    { intros i' sub Hs. pose proof (lookup_weaken _ _ _ _ Hs Hsub) as Hs'. split.
      - intros Hk. assert (i' ∈ armed_for (subs rt) k) as Hin by (apply elem_of_armed_for; eauto).
        rewrite Ha in Hin. by apply list_elem_of_singleton in Hin.
      - intros ->. assert (i ∈ armed_for (subs rt) k) as Hin by (rewrite Ha; by left).
        apply elem_of_armed_for in Hin as (sub' & ? & ?). congruence. }
    rewrite <-Hun. apply map_eq. intros i'. apply option_eq. intros sub. unfold unattached.
    rewrite lookup_delete_Some, map_lookup_filter_Some. simpl. naive_solver.
Qed.

(** ** The activation loop *)
Section loop.
Context (d : WorkflowDefinition) (cfg : ResolvedConfigSnapshot) (at_ms : N).
Hypotheses (Hok : definition_ok d) (Hplain : plain_scopes d) (Hcfg : config_ok cfg).

Lemma start_multi_instance_neutral k tt spec vars rt rt' evs :
  start_multi_instance cfg at_ms k tt spec vars rt = Ok (false, rt', evs) → forallb neutral evs = true.
Proof using Type.
  unfold start_multi_instance. intros H. inv_res H. destruct (_ =? 0)%N; [by inv_res H|].
  apply bind_Ok in H as ([rt2 evs2] & Hloop & [= <- <-]).
  change (forallb neutral (rt2, evs2).2 = true).
  eapply (for_each_inv _ (λ _ acc, forallb neutral acc.2 = true)); [done|done|].
  intros _ [] [rt3 evs3] [rt4 evs4] Hn _ Hf. unfold activate_iteration in Hf. inv_step Hf.
  by rewrite forallb_app, Hn.
Qed.

(** An activity about to start has no armed boundary event. *)
Lemma idle_owner_unarmed rt k spec :
  routing_inv d rt → is_multi_instance_activity (wd_nodes d !! k) = true →
  multi_instance_spec d k = Some spec → rt_active_multi_instances rt !! k = None →
  armed_for (subs rt) k = [].
Proof using Type.
  intros [Hcore Hbd] Hnode Hspec Hnone. destruct (armed_for (subs rt) k) as [|i l] eqn:Ha; [done|].
  assert (i ∈ armed_for (subs rt) k) as (sub & Hi & Hk)%elem_of_armed_for by (rewrite Ha; by left).
  destruct (inv_armed d _ Hbd _ _ Hi) as [Hact _]. rewrite Hk in Hact.
  destruct Hact as [[c Hc]|[[a Hl]|(s & sc & Hs & Hsc)]].
  - destruct (inv_tokens d _ Hcore _ _ Hc) as (_ & _ & ?). congruence.
  - congruence.
  - by destruct (activity_not_scope d rt k s sc).
Qed.

Lemma activate_activity_projects cur scope tt next e vars rt vars' rt' evs pushed :
  is_multi_instance_activity (wd_nodes d !! cur) = true → routing_inv d rt → neutral e = true →
  replays rt evs rt' →
  activate_activity d cfg at_ms cur scope tt next e vars rt = Ok (vars', rt', evs, pushed) →
  projects (subs rt) evs (subs rt').
Proof using Hok Hcfg.
  intros Hnode Hinv He Hrep H. unfold activate_activity in H.
  destruct (multi_instance_spec d cur) as [spec|] eqn:Hspec.
  - apply bind_Ok in H as ([[b rt1] evs1] & Hs & H). destruct b.
    + injection H as <- <- <- <-.
      pose proof (start_multi_instance_inv _ _ _ _ _ _ _ _ _ _ Hcfg (spec_parallelism d _ _ Hok Hspec) Hs)
        as [Hnone Hrt].
      subst rt1. unfold start_multi_instance in Hs. inv_res Hs. destruct (_ =? 0)%N; [|by inv_res Hs].
      injection Hs as _ <-. apply unattached_none. by eapply idle_owner_unarmed.
    + apply neutral_projects; [|done]. inv_step H. rewrite forallb_app.
      rewrite (start_multi_instance_neutral _ _ _ _ _ _ _ Hs). by eapply arm_boundary_events_neutral.
  - apply neutral_projects; [|done]. inv_step H. rewrite He. by eapply arm_boundary_events_neutral.
Qed.

Lemma node_step_projects node cur scope vars rt vars' rt' evs pushed :
  wd_nodes d !! cur = Some node → routing_inv d rt →
  node_step d cfg at_ms node cur scope vars rt = Ok (vars', rt', evs, pushed) →
  projects (subs rt) evs (subs rt').
Proof using Hok Hcfg.
  intros Hnode Hinv H. pose proof (node_step_replay _ _ _ _ _ _ _ _ _ _ _ _ H) as Hrep.
  assert (is_multi_instance_activity (Some node) = true →
    is_multi_instance_activity (wd_nodes d !! cur) = true) as Hmi by (by rewrite Hnode).
  destruct node; simpl in H.
  - unfold step_start in H. by inv_step H.
  - by eapply activate_activity_projects; [by apply Hmi|exact Hinv| |exact Hrep|exact H].
  - by eapply activate_activity_projects; [by apply Hmi|exact Hinv| |exact Hrep|exact H].
  - by eapply activate_activity_projects; [by apply Hmi|exact Hinv| |exact Hrep|exact H].
  - unfold step_decision_task in H. by inv_step H.
  - unfold step_call_activity in H. destruct (identifier_new _ _); [|done..].
    by eapply activate_activity_projects; [by apply Hmi|exact Hinv| |exact Hrep|exact H].
  - apply neutral_projects; [|done]. unfold step_sub_process in H. inv_step H.
    by eapply arm_boundary_events_neutral.
  - unfold step_exclusive_gateway in H. by inv_step H.
  - apply neutral_projects; [|done]. unfold step_parallel_split, split_into in H. by inv_step H.
  - apply neutral_projects; [|done]. unfold step_join in H.
    apply bind_Ok in H as ([rt1 b] & _ & H). by destruct b; inv_step H.
  - apply neutral_projects; [|done]. unfold step_inclusive_split, split_into in H. inv_res H.
    by inv_step H.
  - apply neutral_projects; [|done]. unfold step_join in H.
    apply bind_Ok in H as ([rt1 b] & _ & H). by destruct b; inv_step H.
  - unfold step_end in H. destruct (owner_scope_id d cur) as [owner|].
    + apply bind_Ok in H as (inst & _ & H). apply bind_Ok in H as ([rt1 sc] & Hc & H).
      destruct (disarm_boundary_events _ _ _) as [rt2 disarmed] eqn:Hd. inv_step H.
      apply (disarm_projects _ _ _ _ _ (subs rt) Hd). left. unfold complete_scope in Hc. by inv_step Hc.
    + apply neutral_projects; [|done]. by destruct (has_outstanding_work rt); simplify_eq.
Qed.

Lemma activation_loop_projects fuel start vars rt pending vars' rt' evs :
  routing_inv d rt →
  activation_loop d cfg at_ms fuel start vars rt pending = Ok (vars', rt', evs) →
  projects (subs rt) evs (subs rt').
Proof using Hok Hcfg Hplain.
  revert vars rt pending evs. induction fuel as [|fuel IH];
    intros vars rt [|[cur scope] rest] evs Hinv H; simpl in H; simplify_eq; [done..|].
  apply bind_Ok in H as (node & Hnode%ok_or_Ok & H).
  apply bind_Ok in H as ([[[vars1 rt1] evs1] pushed] & Hstep & H).
  apply bind_Ok in H as ([[vars2 rt2] evs2] & Hloop & [= <- <- <-]).
  eapply projects_app; [by eapply node_step_projects|]. eapply IH, Hloop.
  by eapply (node_step_inv d).
Qed.
End loop.

(** ** Decisions *)
Section decisions.
Context (d : WorkflowDefinition) (st : InstanceState) (ctx : DecisionContext).
Hypotheses (Hok : definition_ok d) (Hplain : plain_scopes d)
  (Hcfg : config_ok (dc_configuration ctx)).
Hypothesis Hinv : routing_inv d (RoutingState_from st).
Abbreviation agrees evs :=
  (projects (st_active_boundary_subscriptions st) evs
     (st_active_boundary_subscriptions (foldl evolve st evs))).

Lemma agrees_replay evs rt :
  replays (RoutingState_from st) evs rt →
  projects (subs (RoutingState_from st)) evs (subs rt) → agrees evs.
Proof using Type.
  intros Hrep Hproj. unfold replays in Hrep. rewrite <-RoutingState_from_replay in Hrep. by subst rt.
Qed.

Lemma activate_agrees at_ms prefix rt0 next vars scope more :
  replays (RoutingState_from st) prefix rt0 →
  projects (subs (RoutingState_from st)) prefix (subs rt0) →
  routing_inv d rt0 → activate d ctx at_ms next vars rt0 scope = Ok more →
  agrees (prefix ++ more).
Proof using Hok Hplain Hcfg.
  intros Hrep Hproj Hinv0 H. apply bind_Ok in H as ([[v rt] evs] & Hact & [= <-]).
  unfold activation_events in Hact. eapply agrees_replay.
  - eapply replays_app; [exact Hrep|]. by eapply activation_loop_replay.
  - eapply projects_app; [exact Hproj|]. by eapply activation_loop_projects.
Qed.

Lemma complete_and_continue_agrees k next completed vars at_ms evs :
  (∀ rt, evolve_routing rt completed = set_tokens rt (release_tokens (rt_active_tokens rt) k 1)) →
  (∀ m, project m completed = unattached k m) →
  complete_and_continue d st ctx k next completed vars at_ms = Ok evs → agrees evs.
Proof using Hok Hplain Hcfg Hinv.
  intros Hev Hproj H. unfold complete_and_continue in H.
  apply bind_Ok in H as (rt1 & Htask & H). pose proof (complete_task_replay _ _ _ Htask) as ->.
  destruct (disarm_boundary_events _ _ _) as [rt2 disarmed] eqn:Hd.
  apply bind_Ok in H as (scope & _ & H). apply bind_Ok in H as (more & Hact & [= <-]).
  eapply (activate_agrees _ (completed :: disarmed)); [..|exact Hact].
  - eapply replays_cons; [apply Hev|]. by eapply disarm_boundary_events_replay.
  - unfold projects. cbn [foldl]. rewrite Hproj. eapply disarm_projects; [exact Hd|by right].
  - apply disarm_boundary_events_core in Hd as ->.
    unfold complete_task in Htask. apply bind_Ok in Htask as (c & Hc%ok_or_Ok & _).
    by eapply release_disarm_inv.
Qed.

Lemma finish_iterations_agrees k i next sat rt b at_ms evs :
  routing_complete_iteration (RoutingState_from st) k i = Ok (rt, b) →
  finish_iterations d st ctx k next sat rt at_ms = Ok evs →
  agrees (MultiInstanceIterationCompleted k i at_ms :: evs).
Proof using Hok Hplain Hcfg Hinv.
  intros Hcomp H. unfold finish_iterations in H.
  set (cancelled := if sat then _ else _) in H.
  destruct (disarm_boundary_events _ _ _) as [rt2 disarmed] eqn:Hd.
  apply bind_Ok in H as (scope & _ & H). apply bind_Ok in H as (more & Hact & [= <-]).
  eapply (activate_agrees _ (MultiInstanceIterationCompleted k i at_ms ::
    MultiInstanceCompleted k sat cancelled at_ms :: disarmed)); [..|exact Hact].
  - eapply replays_cons; [by eapply complete_iteration_replay|].
    eapply replays_cons; [done|]. by eapply disarm_boundary_events_replay.
  - apply complete_iteration_inv in Hcomp as (a & Ha & _ & -> & _).
    unfold projects. cbn [foldl project]. eapply disarm_projects; [exact Hd|by right].
  - apply disarm_boundary_events_core in Hd as ->.
    apply complete_iteration_inv in Hcomp as (a & Ha & _ & -> & _).
    unfold finish_multi_instance. simpl. rewrite delete_insert_eq.
    by eapply (finish_disarm_inv d Hok (RoutingState_from st)).
Qed.

Lemma neutral_agrees_settled at_ms evs :
  forallb neutral evs = true → settled d at_ms st evs → agrees evs.
Proof using Type.
  intros Hn (rt & Hrep & _). eapply agrees_replay; [exact Hrep|]. by apply neutral_projects.
Qed.

Lemma complete_iteration_agrees k i at_ms evs :
  complete_multi_instance_iteration d st ctx k i at_ms = Ok evs → agrees evs.
Proof using Hok Hplain Hcfg Hinv.
  intros H. unfold complete_multi_instance_iteration in H.
  do 4 apply bind_Ok in H as (? & _ & H).
  apply bind_Ok in H as ([rt b] & Hcomp & H). apply bind_Ok in H as (spec & _ & H).
  apply bind_Ok in H as (sat & _ & H). apply bind_Ok in H as (more & Hm & [= <-]).
  destruct b; simpl in Hm; [by eapply finish_iterations_agrees|].
  destruct sat; [by eapply finish_iterations_agrees|].
  eapply neutral_agrees_settled; [|by eapply continue_iterations_settled].
  unfold continue_iterations in Hm. apply bind_Ok in Hm as (a & _ & Hm).
  destruct (_ <? _)%N; inv_step Hm; done.
Qed.

Lemma trigger_agrees id at_ms evs : trigger_boundary_event d st ctx id at_ms = Ok evs → agrees evs.
Proof using Hok Hplain Hcfg Hinv.
  intros H. apply (trigger_boundary_prefix d) in H
    as (b & owner & its & tks & cut & rt & vars & scope & more & -> & Hcut & Hrep & Hrt & Hmore);
    [|done..].
  eapply activate_agrees; [exact Hrep| |exact Hrt|exact Hmore].
  apply neutral_projects; [|exact Hrep]. by destruct Hcut as [->|[reason ->]].
Qed.

Lemma workflow_command_agrees cmd evs :
  is_case_command cmd = false → Workflow.decide d st ctx cmd = Ok evs → agrees evs.
Proof using Hok Hplain Hcfg Hinv.
  intros Hcmd H. apply bind_Ok in H as (evs' & H & H2). apply bind_Ok in H2 as (? & _ & [= ->]).
  destruct cmd; try done; simpl in H; unfold when_active in H; destruct (st_lifecycle st); try done.
  2-4: destruct (has_token st _); [|done]; apply bind_Ok in H as (node & _ & H);
       destruct node; try done;
       first [by eapply complete_and_continue_agrees in H
             |apply bind_Ok in H as (? & _ & H); by eapply complete_and_continue_agrees in H].
  - unfold decide_start in H. apply bind_Ok in H as (? & _ & H).
    apply bind_Ok in H as (node & _ & H). destruct node; try done.
    apply bind_Ok in H as (more & Hact & [= <-]).
    eapply (activate_agrees _ [_]); [done|done|exact Hinv|exact Hact].
  - by eapply complete_iteration_agrees.
  - by eapply trigger_agrees.
Qed.
End decisions.

(** After every decision the projection is the core's own map. *)
Lemma decision_projects d st ctx cmd evs :
  definition_ok d → plain_scopes d → config_ok (dc_configuration ctx) → state_inv d st →
  Workflow.decide d st ctx cmd = Ok evs →
  foldl project (st_active_boundary_subscriptions st) evs =
  st_active_boundary_subscriptions (foldl evolve st evs).
Proof.
  intros Hok Hplain Hcfg Hinv H. destruct (is_case_command cmd) eqn:Hcmd.
  - assert (Forall (case_event_at (command_at cmd)) evs) as Hev.
    { apply bind_Ok in H as (evs' & H & H2). apply bind_Ok in H2 as (? & _ & [= ->]).
      destruct cmd; try done; simpl in *; [by eapply activate_case_events|
        by eapply evaluate_case_sentries_events]. }
    destruct (case_events_frame _ st _ Hev) as (Hrt & _).
    apply (f_equal subs) in Hrt. simpl in Hrt. rewrite Hrt.
    clear -Hev. induction Hev as [|e evs He _ IH]; [done|]. cbn [foldl].
    assert (project (st_active_boundary_subscriptions st) e = st_active_boundary_subscriptions st) as ->;
      [|exact IH]. destruct He as [_ He]. by destruct e.
  - destruct Hinv as [Hr _ _]. by apply (workflow_command_agrees d st ctx Hok Hplain Hcfg Hr cmd).
Qed.

(** The projection of a whole log. *)
Lemma decided_projects d evs :
  definition_ok d → plain_scopes d → decided d evs →
  foldl project ∅ evs =
  st_active_boundary_subscriptions (foldl evolve InstanceState_default evs).
Proof.
  intros Hok Hplain. induction 1 as [|evs ctx cmd more Hd IH Hcfg Hdec]; [done|].
  rewrite !foldl_app, IH. apply (decision_projects d _ ctx cmd); [done..| |done].
  by apply instance_reachable_inv, decided_reachable.
Qed.
