(* ===== verification/BoundaryProofs.v ===== *)
(** * The boundary workers keep the projection

    The in-memory boundary store shows, for every instance, what [project]
    computes from the prefix of the log below the projection checkpoint,
    whatever projectors, dispatchers and commits run in between. *)

From S2P Require Import Prelude Effects Types Expr Config WorkflowDef Routing Ports Outbox Wire EventCodec.
From S2P Require Import Evolve BoundaryTimer Boundary BoundaryStore BoundarySpec.
From stdpp Require Import options.

(** The subscription as the core keeps it. *)
Definition core_sub (p : ProjectedBoundarySubscription) : ActiveBoundarySubscription :=
  mkSubscription (ps_attached_node_id p) (ps_target_node_id p) (ps_cancel_activity p) (ps_trigger p)
    (ps_armed_at_epoch_ms p).

(** The subscriptions of the instance [k] in the store are [m]. *)
Definition shows (s : MemoryBoundaryRuntimeState) (k : StreamKey) (m : Subs) : Prop :=
  ∀ b, core_sub <$> mb_subscriptions s !! (k, b) = m !! b.

Definition envelope_key (e : EventEnvelope) : StreamKey :=
  (em_tenant_id (ee_metadata e), em_instance_id (ee_metadata e)).

(** ** Removing subscriptions *)
Lemma lookup_remove_keys keys s key :
  mb_subscriptions (remove_keys keys s) !! key =
  if bool_decide (key ∈ keys) then None else mb_subscriptions s !! key.
Proof.
  unfold remove_keys. revert s. induction keys as [|key' keys IH]; intros s; [done|]. simpl.
  rewrite IH. simpl. destruct (decide (key = key')) as [->|Hne].
  - rewrite lookup_delete_eq, (bool_decide_true (_ ∈ _ :: _)) by (by left). by case_bool_decide.
  - rewrite lookup_delete_ne by done. erewrite (bool_decide_ext (_ ∈ _ :: _)); [done|].
    rewrite elem_of_cons. naive_solver.
Qed.

Lemma elem_of_instance_keys tenant instance p s key :
  key ∈ instance_keys tenant instance p s ↔
  key.1 = (tenant, instance) ∧ ∃ sub, mb_subscriptions s !! key = Some sub ∧ p sub = true.
Proof.
  unfold instance_keys. rewrite list_elem_of_fmap. split.
  - intros ([key' sub] & -> & Hin). apply list_elem_of_In, filter_In in Hin as [Hin Hp].
    apply list_elem_of_In, elem_of_tree_iter in Hin. simpl in *. rewrite !andb_true_iff in Hp.
    destruct Hp as [[Ht%bool_decide_eq_true Hi%bool_decide_eq_true] Hp].
    split; [|eauto]. destruct key' as [[t i] b]. simpl in *. congruence.
  - intros [Hk (sub & Hs & Hp)]. exists (key, sub). split; [done|].
    apply list_elem_of_In, filter_In. split; [by apply list_elem_of_In, elem_of_tree_iter|].
    simpl. rewrite Hk, Hp. simpl. by rewrite !bool_decide_true.
Qed.

Lemma remove_shows tenant instance p (q : ActiveBoundarySubscription → bool) s m :
  (∀ sub, p sub = q (core_sub sub)) → shows s (tenant, instance) m →
  shows (remove_keys (instance_keys tenant instance p s) s) (tenant, instance)
    (filter (λ x, q x.2 = false) m).
Proof.
  intros Hpq Hs b. rewrite lookup_remove_keys. specialize (Hs b). apply option_eq. intros x.
  rewrite map_lookup_filter_Some, <-Hs. simpl.
  case_bool_decide as Hin.
  - apply elem_of_instance_keys in Hin as [_ (sub & Hsub & Hp)]. rewrite Hsub. simpl.
    rewrite Hpq in Hp. split; [done|]. intros [[= <-] ?]. congruence.
  - destruct (mb_subscriptions s !! (tenant, instance, b)) as [sub|] eqn:Hsub; simpl; [|naive_solver].
    split; [|by intros [? _]]. intros [= <-]. split; [done|].
    apply not_true_is_false. intros Hq. apply Hin, elem_of_instance_keys. split; [done|].
    exists sub. by rewrite Hpq.
Qed.

Lemma remove_other_shows tenant instance p s k m :
  k ≠ (tenant, instance) → shows s k m →
  shows (remove_keys (instance_keys tenant instance p s) s) k m.
Proof.
  intros Hk Hs b. rewrite lookup_remove_keys, bool_decide_false; [apply Hs|].
  by intros [? _]%elem_of_instance_keys.
Qed.

(** ** One event *)
Section projection.
Context (parse_rfc3339 : string → option Z).
Abbreviation mutation_of := (projection_mutation parse_rfc3339).

Definition apply_mutation (s : MemoryBoundaryRuntimeState)
    (mutation : option BoundaryProjectionMutation) : MemoryBoundaryRuntimeState :=
  match mutation with Some m => apply_memory_projection s m | None => s end.

Lemma with_timers_shows f s k m : shows (with_timers f s) k m ↔ shows s k m.
Proof. done. Qed.

Lemma upsert_shows s sub k m :
  shows s k m →
  shows (apply_memory_projection s (Upsert sub)) k
    (if decide (k = (ps_key sub).1) then <[(ps_key sub).2:=core_sub sub]> m else m).
Proof.
  intros Hs.
  assert (shows (with_subscriptions <[ps_key sub:=sub]> s) k
    (if decide (k = (ps_key sub).1) then <[(ps_key sub).2:=core_sub sub]> m else m)) as Hsub.
  { intros b. specialize (Hs b). simpl. destruct (ps_key sub) as [k' b']. simpl.
    destruct (decide (k = k')) as [->|Hk]; [|by rewrite lookup_insert_ne by congruence].
    destruct (decide (b = b')) as [->|Hb]; [by rewrite !lookup_insert_eq|].
    by rewrite !lookup_insert_ne by congruence. }
  simpl. by destruct (ps_timer_schedule sub).
Qed.

Lemma disarm_shows s k b m : shows s k m → shows (remove_memory_subscription (k, b) s) k (delete b m).
Proof.
  intros Hs b'. simpl. destruct (decide (b' = b)) as [->|Hb]; [by rewrite !lookup_delete_eq|].
  rewrite !lookup_delete_ne by congruence. apply Hs.
Qed.

Lemma disarm_attached_shows s tenant instance a m :
  shows s (tenant, instance) m →
  shows (apply_memory_projection s (DisarmAttached tenant instance a)) (tenant, instance)
    (unattached a m).
Proof.
  intros Hs.
  pose proof (remove_shows tenant instance (λ p, bool_decide (ps_attached_node_id p = a))
    (λ x, bool_decide (ab_attached_node_id x = a)) s m (λ _, eq_refl) Hs) as H.
  intros b. etrans; [exact (H b)|]. unfold unattached. apply option_eq. intros x.
  rewrite !map_lookup_filter_Some. simpl. by rewrite bool_decide_eq_false.
Qed.

Lemma remove_instance_shows s tenant instance m :
  shows s (tenant, instance) m →
  shows (apply_memory_projection s (RemoveInstance tenant instance)) (tenant, instance) ∅.
Proof.
  intros Hs b. pose proof (remove_shows tenant instance (λ _, true) (λ _, true) s m (λ _, eq_refl) Hs b) as H.
  etrans; [exact H|]. rewrite lookup_empty. apply eq_None_not_Some. by intros [x [_ ?]%map_lookup_filter_Some].
Qed.

Lemma mutation_shows record policy mutation s k m :
  mutation_of record policy = Ok mutation → shows s k m →
  shows (apply_mutation s mutation) k
    (if decide (k = envelope_key (pr_envelope record))
     then project m (ee_event (pr_envelope record)) else m).
Proof.
  unfold projection_mutation, envelope_key. intros H Hs.
  set (tenant := em_tenant_id _) in *. set (instance := em_instance_id _) in *.
  assert (∀ a, shows (apply_memory_projection s (DisarmAttached tenant instance a)) k
    (if decide (k = (tenant, instance)) then unattached a m else m)) as Hatt.
  { intros a. destruct (decide _) as [->|Hk]; [by apply disarm_attached_shows|].
    by apply remove_other_shows. }
  assert (shows (apply_memory_projection s (RemoveInstance tenant instance)) k
    (if decide (k = (tenant, instance)) then ∅ else m)) as Hrem.
  { destruct (decide _) as [->|Hk]; [by eapply remove_instance_shows|].
    by apply remove_other_shows. }
  assert (shows (apply_mutation s None) k (if decide (k = (tenant, instance)) then m else m)) as Hnone
    by (by destruct (decide _)).
  destruct (ee_event (pr_envelope record)); 
    try (injection H as <-; first [exact Hnone|exact Hrem|apply Hatt]).
  - apply bind_Ok in H as (schedule & _ & [= <-]). cbn [apply_mutation].
    match goal with |- shows (_ _ (Upsert ?sub)) _ _ => exact (upsert_shows s sub k m Hs) end.
  - destruct boundary_event_ids as [|b [|b' bs]]; injection H as <-; try apply Hatt.
    simpl. destruct (decide _) as [->|Hk]; [by apply disarm_shows|].
    intros b'. simpl. rewrite lookup_delete_ne by congruence. apply Hs.
  - destruct cancel_activity; injection H as <-; [apply Hatt|exact Hnone].
Qed.
End projection.

(** ** Operations that leave the projection alone *)
Definition same_projection (s s' : MemoryBoundaryRuntimeState) : Prop :=
  mb_projection_checkpoint s' = mb_projection_checkpoint s ∧
  ∀ key, core_sub <$> mb_subscriptions s' !! key = core_sub <$> mb_subscriptions s !! key.

#[global] Instance same_projection_preorder : PreOrder same_projection.
Proof.
  split; [done|]. intros s1 s2 s3 [H1 H2] [H3 H4]. split; [congruence|].
  intros key. by rewrite H4.
Qed.

Lemma same_projection_shows s s' k m : same_projection s s' → shows s k m → shows s' k m.
Proof. intros [_ Hsubs] Hs b. by rewrite Hsubs. Qed.

Definition quiet_method {A} (m : method MemoryBoundaryRuntimeState BoundaryRuntimeError A) : Prop :=
  ∀ s, same_projection s (m s).1.

Lemma quiet_bind {A B} (m : method MemoryBoundaryRuntimeState BoundaryRuntimeError A)
    (f : A → method MemoryBoundaryRuntimeState BoundaryRuntimeError B) :
  quiet_method m → (∀ a, quiet_method (f a)) → quiet_method (m ≫= f).
Proof.
  intros Hm Hf s. unfold mbind, method_bind. specialize (Hm s).
  destruct (m s) as [s1 [a|e|p]]; simpl in *; [|done..]. etrans; [exact Hm|apply Hf].
Qed.

(** Reading the state and then running a method that is quiet from there. *)
Lemma quiet_self {B} (f : MemoryBoundaryRuntimeState →
    method MemoryBoundaryRuntimeState BoundaryRuntimeError B) :
  (∀ s, same_projection s (f s s).1) → quiet_method (s ← self; f s).
Proof. done. Qed.

Lemma lease_timers_quiet until worker keys : quiet_method (lease_timers until worker keys).
Proof.
  induction keys as [|key keys IH]; [done|]. intros s. simpl.
  rewrite self_then, lift_then. destruct (mb_timers s !! key) as [timer|]; [|done].
  simpl. rewrite set_self_then.
  apply (transitivity (y:=with_timers <[key:=leased_timer until worker timer]> s)); [done|].
  apply quiet_bind; [apply IH|]. by intros claims s'.
Qed.

Lemma lease_signals_quiet until worker limit keys :
  quiet_method (lease_signals until worker limit keys).
Proof.
  induction keys as [|key keys IH]; [done|]. intros s. simpl.
  rewrite self_then, lift_then. destruct (mb_signals s !! key) as [record|]; [|done]. simpl.
  rewrite !bail_if_then. repeat (case_match; [done|]). rewrite set_self_then.
  apply (transitivity (y:=with_signals <[key:=leased_signal until worker record]> s)); [done|].
  apply quiet_bind; [apply IH|]. by intros claims s'.
Qed.

Lemma core_sub_with_schedule schedule s : core_sub (with_schedule schedule s) = core_sub s.
Proof. done. Qed.

Lemma alter_schedule_same schedule key s :
  same_projection s (with_subscriptions (alter (with_schedule schedule) key) s).
Proof.
  split; [done|]. intros key'. simpl. destruct (decide (key = key')) as [->|Hk].
  - rewrite lookup_alter_eq. by destruct (mb_subscriptions s !! key').
  - by rewrite lookup_alter_ne.
Qed.

Lemma complete_timer_quiet claim completion : quiet_method (memory_complete_timer claim completion).
Proof.
  intros s. unfold memory_complete_timer. rewrite self_then, lift_then.
  destruct (validate_timer_lease s claim); [|done..].
  destruct completion as [schedule|]; [|apply (alter_schedule_same None _ (with_timers _ s))].
  rewrite ok_or_then. destruct (mb_timers s !! _); [|done].
  apply (alter_schedule_same (Some schedule) _ (with_timers _ s)).
Qed.

Lemma fail_timer_quiet claim retry dead : quiet_method (memory_fail_timer claim retry dead).
Proof.
  intros s. unfold memory_fail_timer. rewrite self_then, lift_then.
  destruct (validate_timer_lease s claim); [|done..]. rewrite ok_or_then.
  by destruct (mb_timers s !! _).
Qed.

Lemma complete_correlation_quiet claim : quiet_method (memory_complete_correlation claim).
Proof.
  intros s. unfold memory_complete_correlation. rewrite self_then, lift_then.
  destruct (validate_signal_lease s claim); [|done..]. rewrite ok_or_then.
  by destruct (mb_signals s !! _).
Qed.

Lemma fail_correlation_quiet claim retry dead :
  quiet_method (memory_fail_correlation claim retry dead).
Proof.
  intros s. unfold memory_fail_correlation. rewrite self_then, lift_then.
  destruct (validate_signal_lease s claim); [|done..]. rewrite ok_or_then.
  by destruct (mb_signals s !! _).
Qed.

Lemma enqueue_signal_quiet signal : quiet_method (memory_enqueue_signal signal).
Proof.
  intros s. unfold memory_enqueue_signal. rewrite self_then.
  destruct (mb_signals s !! _); [by case_bool_decide|done].
Qed.

(** ** Calls of the workers *)
Definition quiet_op X (op : boundary_op MemoryBoundaryRuntimeState X) : Prop :=
  match op with StoreCall m => quiet_method m | _ => True end.
Create HintDb quiet.
#[local] Hint Resolve lease_timers_quiet lease_signals_quiet complete_timer_quiet fail_timer_quiet
  complete_correlation_quiet fail_correlation_quiet enqueue_signal_quiet : quiet.

(** Walks over a worker whose calls are all quiet. *)
Ltac quiet_worker := repeat match goal with
  | |- only _ (_ ≫= _) => apply only_bind; [|intros ?]
  | |- only _ (try_ _) => apply only_try
  | |- only _ (on_store _) => apply only_try
  | |- only _ (ask _) => apply only_ask
  | |- only _ (liftr _) => apply only_liftr
  | |- only _ (lease_until _ _) => apply only_liftr
  | |- only _ (mret _) => exact I
  | |- only _ (match ?x with _ => _ end) => destruct x
  | |- quiet_op _ (StoreCall _) => simpl; auto with quiet
  | |- quiet_op _ _ => exact I
  end.

Lemma dispatch_timers_quiet now policy outcome claims :
  only quiet_op (dispatch_timers now policy outcome claims).
Proof.
  revert outcome. induction claims as [|claim claims IH]; intros outcome; [done|].
  cbn [dispatch_timers]. unfold record_timer_failure. quiet_worker; apply IH.
Qed.

Lemma dispatch_due_timers_quiet policy : only quiet_op (dispatch_due_timers_once policy).
Proof.
  unfold dispatch_due_timers_once. quiet_worker.
  - intros s. apply lease_timers_quiet.
  - apply dispatch_timers_quiet.
Qed.

Lemma dispatch_correlations_loop_quiet now policy outcome claims :
  only quiet_op (dispatch_correlations now policy outcome claims).
Proof.
  revert outcome. induction claims as [|claim claims IH]; intros outcome; [done|].
  cbn [dispatch_correlations]. unfold dispatch_correlation, record_correlation_failure.
  quiet_worker; apply IH.
Qed.

Lemma dispatch_correlations_quiet policy : only quiet_op (dispatch_correlations_once policy).
Proof.
  unfold dispatch_correlations_once. quiet_worker.
  - intros s. apply lease_signals_quiet.
  - apply dispatch_correlations_loop_quiet.
Qed.

Lemma accept_signal_quiet policy signal : only quiet_op (accept_signal policy signal).
Proof. unfold accept_signal. quiet_worker. Qed.

(** ** Batches of records *)
Section log.
Context (wire_decode : string → Wire.EventEnvelope + string) (display : EventCodecError → string).
Context (parse_rfc3339 : string → option Z).
Abbreviation decode_record := (projection_record wire_decode display).

(** The events of the instance [k] among the records. *)
Definition record_events (k : StreamKey) (r : OutboxRecord) : list DomainEvent :=
  match decode_record r with
  | Ok p => if decide (k = envelope_key (pr_envelope p)) then [ee_event (pr_envelope p)] else []
  | _ => []
  end.
Definition log_events (k : StreamKey) (l : list OutboxRecord) : list DomainEvent :=
  flat_map (record_events k) l.

Lemma mutations_show policy l records mutations s k m :
  mapM decode_record l = Ok records →
  projection_mutations parse_rfc3339 policy records = Ok mutations → shows s k m →
  shows (foldl apply_memory_projection s mutations) k (foldl project m (log_events k l)).
Proof.
  revert records mutations s m. induction l as [|r l IH]; intros records mutations s m Hl Hm Hs.
  - injection Hl as <-. by injection Hm as <-.
  - simpl in Hl. apply bind_Ok in Hl as (p & Hp & Hl). apply bind_Ok in Hl as (records' & Hl & [= <-]).
    simpl in Hm. apply bind_Ok in Hm as (mutation & Hmut & Hm).
    apply bind_Ok in Hm as (mutations' & Hm & [= <-]).
    pose proof (mutation_shows parse_rfc3339 _ _ _ s k m Hmut Hs) as Hs1.
    specialize (IH _ _ _ _ Hl Hm Hs1).
    replace (foldl apply_memory_projection s (match mutation with
      | Some m0 => m0 :: mutations' | None => mutations' end))
      with (foldl apply_memory_projection (apply_mutation s mutation) mutations') by (by destruct mutation).
    simpl. unfold record_events at 1. rewrite Hp, foldl_app. by destruct (decide _).
Qed.

Lemma mapM_cursors first l records :
  mapM decode_record l = Ok records → numbered_from first l →
  length records = length l ∧
  (∀ p, last records = Some p → pr_cursor p + 1 = first + N.of_nat (length l))%N.
Proof.
  revert first records. induction l as [|r l IH]; intros first records Hl Hnum.
  - injection Hl as <-. done.
  - simpl in Hl. apply bind_Ok in Hl as (p & Hp & Hl). apply bind_Ok in Hl as (records' & Hl & [= <-]).
    destruct Hnum as [Hr Hnum]. destruct (IH _ _ Hl Hnum) as [Hlen Hlast].
    split; [simpl; congruence|]. intros q. rewrite last_cons.
    destruct (last records') as [p'|] eqn:Hl'.
    + intros [= <-]. specialize (Hlast p' eq_refl). simpl. lia.
    + intros [= <-]. apply last_None in Hl' as ->. simpl in Hlen. destruct l; [|done].
      unfold projection_record in Hp. inv_res Hp. simplify_eq/=. lia.
Qed.
End log.

Lemma take_length_take {A} (l : list A) n : take (length (take n l)) l = take n l.
Proof.
  rewrite length_take. destruct (Nat.le_ge_cases n (length l)).
  - by rewrite Nat.min_l.
  - by rewrite Nat.min_r, !take_ge.
Qed.

(** ** The world of the workers *)
Section world.
Context {S : Type} `{LawfulOutbox S}.
Context (wire_decode : string → Wire.EventEnvelope + string) (display : EventCodecError → string).
Context (parse_rfc3339 : string → option Z).
(** The dispatcher runs commands on the workflow store. *)
Context (dispatcher : S → BoundaryDispatchRequest → boundary_res unit → S → Prop).

Record BoundaryWorld := mkBoundaryWorld {
  bw_store : S;
  bw_boundary : MemoryBoundaryRuntimeState;
  bw_dispatches : list (BoundaryDispatchRequest * boundary_res unit) }.

Definition boundary_handle X (op : boundary_op MemoryBoundaryRuntimeState X) (w : BoundaryWorld) :
    X → BoundaryWorld → Prop :=
  match op in boundary_op _ X return X → BoundaryWorld → Prop with
  | StoreCall m => λ x w', ∃ b,
      m (bw_boundary w) = (b, x) ∧ w' = mkBoundaryWorld (bw_store w) b (bw_dispatches w)
  | ReadEvents cursor limit => λ x w',
      x = outbox_event_source wire_decode display (bw_store w) cursor limit ∧ w' = w
  | Dispatch request => λ x w', ∃ s',
      dispatcher (bw_store w) request x s' ∧
      w' = mkBoundaryWorld s' (bw_boundary w) (bw_dispatches w ++ [(request, x)])
  | Now => λ _ w', w' = w
  end.

Definition log_grows (s s' : S) : Prop :=
  ∃ new, outbox_log s' = outbox_log s ++ new ∧
    numbered_from (N.of_nat (length (outbox_log s)) + 1) new.
Hypothesis dispatcher_grows : ∀ s request x s', dispatcher s request x s' → log_grows s s'.

(** Commits append to the log while the workers run. *)
Definition commits (w w' : BoundaryWorld) : Prop :=
  log_grows (bw_store w) (bw_store w') ∧ bw_boundary w' = bw_boundary w ∧
  bw_dispatches w' = bw_dispatches w.

Abbreviation checkpoint_of w := (mb_projection_checkpoint (bw_boundary w)).
Abbreviation log_of w := (outbox_log (bw_store w)).
Abbreviation projected_log w k :=
  (foldl project ∅ (log_events wire_decode display k (take (N.to_nat (checkpoint_of w)) (log_of w)))).

Record projection_inv (w : BoundaryWorld) : Prop := {
  pi_numbered : numbered_from 1 (log_of w);
  pi_checkpoint : (checkpoint_of w ≤ N.of_nat (length (log_of w)))%N;
  pi_shows k : shows (bw_boundary w) k (projected_log w k) }.

Definition projection_rely (w w' : BoundaryWorld) : Prop := log_of w `prefix_of` log_of w'.
#[local] Instance projection_rely_preorder : PreOrder projection_rely.
Proof.
  unfold projection_rely. split; [intros w; reflexivity|]. intros w1 w2 w3 H1 H2. by etrans.
Qed.

Lemma log_grows_inv w w' :
  log_grows (bw_store w) (bw_store w') → bw_boundary w' = bw_boundary w →
  projection_inv w → projection_inv w' ∧ projection_rely w w'.
Proof.
  intros (new & Hlog & Hnew) Hb [Hnum Hcp Hshow]. unfold projection_rely. rewrite Hlog.
  split; [|by eexists]. split; rewrite ?Hb, ?Hlog.
  - apply numbered_app. split; [done|]. by rewrite N.add_comm.
  - rewrite length_app. lia.
  - intros k. rewrite take_app_le by lia. apply Hshow.
Qed.

Lemma quiet_inv X (op : boundary_op MemoryBoundaryRuntimeState X) w x w' :
  quiet_op X op → boundary_handle X op w x w' → projection_inv w →
  projection_inv w' ∧ projection_rely w w'.
Proof using dispatcher_grows.
  destruct op as [A m|cursor limit|request|]; simpl.
  - intros Hq (b & Hm & ->) [Hnum Hcp Hshow]. specialize (Hq (bw_boundary w)). rewrite Hm in Hq. simpl in Hq.
    split; [|unfold projection_rely; reflexivity]. pose proof Hq as [Hc _]. split; simpl; [done|by rewrite Hc|].
    intros k. rewrite Hc. by eapply same_projection_shows.
  - intros _ [_ ->]. split; [done|reflexivity].
  - intros _ (s' & Hd & ->). apply log_grows_inv; [|done]. by eapply dispatcher_grows.
  - intros _ ->. split; [done|reflexivity].
Qed.

Abbreviation worker_safe := (safe boundary_handle projection_inv projection_rely (λ _ _, True)).

Lemma quiet_worker_safe {A} (p : prog (boundary_op MemoryBoundaryRuntimeState) A) w :
  only quiet_op p → worker_safe p w.
Proof using dispatcher_grows.
  intros Hp. eapply safe_only; [|exact Hp]. intros X op w1 x w2. apply quiet_inv.
Qed.

(** Applying a batch that was read at checkpoint [c] of an earlier log. *)
Lemma apply_batch_inv policy c limit l records mutations (log : list OutboxRecord) w b x :
  projection_inv w → log `prefix_of` log_of w → numbered_from 1 log →
  (c ≤ N.of_nat (length log))%N → l = take limit (drop (N.to_nat c) log) →
  mapM (projection_record wire_decode display) l = Ok records →
  projection_mutations parse_rfc3339 policy records = Ok mutations →
  memory_apply_projection c (match last records with Some r => pr_cursor r | None => c end) mutations
    (bw_boundary w) = (b, x) →
  projection_inv (mkBoundaryWorld (bw_store w) b (bw_dispatches w)).
Proof.
  intros HI [tail Hlog] Hnum Hc Hl Hrec Hmut Happ. unfold memory_apply_projection in Happ.
  rewrite self_then, !bail_if_then in Happ.
  assert (projection_inv (mkBoundaryWorld (bw_store w) (bw_boundary w) (bw_dispatches w))) as HIw
    by (by destruct w).
  destruct (N.eqb_spec (checkpoint_of w) c) as [Hcp|]; [|by simplify_eq/=].
  destruct (N.leb_spec (match last records with Some r => pr_cursor r | None => c end) c)
    as [|Hlt]; [by simplify_eq/=|]. simpl in Happ. rewrite set_self_last in Happ. injection Happ as <- <-.
  assert (numbered_from (c + 1) l) as Hnl.
  { pose proof (numbered_drop _ _ Hnum Hc) as Hd. rewrite <-(take_drop limit (drop _ _)) in Hd.
    apply numbered_app in Hd as [Hd _]. by rewrite Hl. }
  destruct (mapM_cursors _ _ _ _ _ Hrec Hnl) as [Hlen Hlast].
  destruct (last records) as [p|] eqn:Hp; [|lia]. specialize (Hlast p eq_refl).
  assert (length l ≤ length log - N.to_nat c) as Hll by (rewrite Hl, length_take, length_drop; lia).
  split; simpl; [apply HI| |].
  - rewrite Hlog, length_app. lia.
  - intros k. pose proof (pi_shows _ HI k) as Hs. rewrite Hcp in Hs.
    pose proof (mutations_show _ _ _ policy l _ _ _ _ _ Hrec Hmut Hs) as Hs'.
    rewrite <-foldl_app in Hs'. unfold log_events in *. rewrite <-flat_map_app in Hs'.
    replace (take (N.to_nat (pr_cursor p)) (log_of w)) with (take (N.to_nat c) (log_of w) ++ l); [done|].
    rewrite Hlog, !take_app_le by lia.
    replace (N.to_nat (pr_cursor p)) with (N.to_nat c + length l) by lia.
    rewrite <-take_take_drop. f_equal. rewrite Hl. symmetry. apply take_length_take.
Qed.

Lemma project_once_safe policy w : worker_safe (project_once parse_rfc3339 policy) w.
Proof.
  apply safe_try. intros w1 _ HI1 x w1' (b & [= <- <-] & ->).
  set (w1' := mkBoundaryWorld _ _ _). assert (projection_inv w1') as HI1' by (by destruct w1).
  split_and!; [done|unfold projection_rely; reflexivity|].
  apply safe_try. intros w2 Hw2 HI2 x w2' (-> & ->). split_and!; [done|reflexivity|].
  destruct (outbox_event_source _ _ _ _ _) as [records|e|p] eqn:Hread; [|done..].
  unfold outbox_event_source in Hread. apply bind_Ok in Hread as (l & Hl%map_err_Ok & Hread).
  apply read_after_law in Hl.
  pose proof (pi_checkpoint _ HI1) as Hcp. pose proof (prefix_length _ _ Hw2) as Hlen. simpl in Hlen.
  rewrite (numbered_filter 1) in Hl by (apply HI2 || lia).
  replace (N.to_nat (checkpoint_of w1 + 1 - 1)) with (N.to_nat (checkpoint_of w1)) in Hl by lia.
  apply safe_bind; [apply _|]. intros w3 Hw3 HI3. destruct (validate_projection_records _ _ _); [|done..].
  apply safe_bind; [apply _|]. intros w4 Hw4 HI4.
  destruct (projection_mutations _ _ _) as [mutations|e|p] eqn:Hmut; [|done..].
  apply safe_bind; [apply _|]. destruct (_ =? _)%N; [done|].
  intros w5 Hw5 HI5 x w6 (b & Happ & ->).
  split; [eapply apply_batch_inv; [exact HI5| |..|exact Happ]|].
  - exact (transitivity Hw3 (transitivity Hw4 Hw5)).
  - apply HI2.
  - lia.
  - exact Hl.
  - exact Hread.
  - exact Hmut.
  - split; [unfold projection_rely; reflexivity|]. by destruct x.
Qed.

Lemma scheduler_turn_safe policy w : worker_safe (scheduler_turn parse_rfc3339 policy) w.
Proof using dispatcher_grows.
  apply safe_bind; [apply _|]. eapply safe_mono; [apply _| |apply project_once_safe].
  intros [o|e|p] w1 _ _; [|done..].
  apply safe_bind; [apply _|]. eapply safe_mono; [apply _| |apply quiet_worker_safe, dispatch_due_timers_quiet].
  intros [o'|e|p] w2 _ _; [|done..]. apply quiet_worker_safe, dispatch_correlations_quiet.
Qed.

(** The programs of the server: scheduler turns, and signals from outside. *)
Definition boundary_program (p : effect (boundary_op MemoryBoundaryRuntimeState) BoundaryRuntimeError unit) :
    Prop :=
  (∃ policy, p = (scheduler_turn parse_rfc3339 policy;; mret tt)) ∨
  (∃ policy signal, p = (accept_signal policy signal;; mret tt)).

Lemma boundary_pool_inv w ps w' :
  projection_inv w →
  rtc (pool_step boundary_handle commits boundary_program) ([], w) (ps, w') → projection_inv w'.
Proof using dispatcher_grows.
  intros HI Hrun.
  destruct (pool_safe boundary_handle projection_inv projection_rely (λ _ _, True) commits
    boundary_program [] w ps w') as (HI' & _); [..|done].
  - intros w1 w2 (Hgrow & Hb & _) HI1. by apply log_grows_inv.
  - intros p w1 [(policy & ->)|(policy & signal & ->)] _.
    + apply safe_bind; [apply _|]. eapply safe_mono; [apply _| |apply scheduler_turn_safe].
      by intros [] w2.
    + apply safe_bind; [apply _|].
      eapply safe_mono; [apply _| |apply quiet_worker_safe, accept_signal_quiet]. by intros [] w2.
  - constructor.
  - done.
  - done.
Qed.
End world.
