(* ===== verification/BoundaryDispatch.v ===== *)
(** * Dispatching boundary commands through the engine

    [EngineBoundaryCommandDispatcher] of
    [apps/rust/bpmp-engine/src/boundary_runtime.rs]: a request of a boundary
    worker becomes a command of the engine. The providers of definitions and
    credentials are parameters. *)

From S2P Require Import Prelude Types Config WorkflowDef Ports Engine EngineSpec BoundaryTimer Boundary.
From stdpp Require Import options.

Record BoundaryDispatchCredentials := mkCredentials {
  dc_actor_proof : string;
  dc_workload_proof : string;
  dc_encryption_key_scope : KeyScope }.

Section dispatch.
Context {S : Type} `{WorkflowStorePort S}.
Context (authorize : AuthorizationRequest → res AuthorizationError AuthorizedPrincipal).
Context (resolve : ConfigurationLookup → res ConfigError ResolvedConfigSnapshot).
Context (definitions : TenantId → WorkflowType → WorkflowVersion → boundary_res WorkflowDefinition).
Context (credentials : BoundaryDispatchRequest → boundary_res BoundaryDispatchCredentials).
Context (display : EngineError → string).

Definition boundary_command (request : BoundaryDispatchRequest)
    (credentials : BoundaryDispatchCredentials) : AuthorizedCommand :=
  {| rq_tenant_id := dr_tenant_id request;
     rq_instance_id := dr_instance_id request;
     rq_command_id := dr_command_id request;
     rq_idempotency_key := dr_idempotency_key request;
     rq_correlation_id := dr_correlation_id request;
     rq_evaluated_at_epoch_ms := dr_occurred_at_epoch_ms request;
     rq_actor_proof := dc_actor_proof credentials;
     rq_actor_proof_kind := SignedInternalContext;
     rq_workload_proof := dc_workload_proof credentials;
     rq_encryption_key_scope := dc_encryption_key_scope credentials;
     rq_variables := ∅;
     rq_command := dr_command request |}.

Definition engine_dispatch (request : BoundaryDispatchRequest) :
    method S BoundaryRuntimeError unit :=
  definition ← lift (definitions (dr_tenant_id request) (dr_workflow_type request)
    (dr_workflow_version request));
  lift (bail_if (bool_decide (wd_tenant_id definition ≠ dr_tenant_id request)
                 || bool_decide (wd_workflow_type definition ≠ dr_workflow_type request)
                 || bool_decide (wd_workflow_version definition ≠ dr_workflow_version request))
    DefinitionScopeMismatch);;
  proofs ← lift (credentials request);
  lift (bail_if (bool_decide (dc_actor_proof proofs = "") || bool_decide (dc_workload_proof proofs = ""))
    InvalidDispatchCredentials);;
  call (λ error, Boundary_Dispatch (display error))
    (handle authorize resolve definition (boundary_command request proofs));;
  mret tt.

(** A dispatch that succeeds has run the handler, and one that fails either
    has as well or has left the store alone. *)
Lemma engine_dispatch_cases request s s' r :
  engine_dispatch request s = (s', r) →
  (s' = s ∧ r ≠ Ok tt) ∨
  ∃ d proofs r1,
    definitions (dr_tenant_id request) (dr_workflow_type request) (dr_workflow_version request) = Ok d ∧
    credentials request = Ok proofs ∧ dc_actor_proof proofs ≠ "" ∧ dc_workload_proof proofs ≠ "" ∧
    wd_tenant_id d = dr_tenant_id request ∧
    wd_workflow_type d = dr_workflow_type request ∧
    wd_workflow_version d = dr_workflow_version request ∧
    handle authorize resolve d (boundary_command request proofs) s = (s', r1) ∧
    r = (map_err (λ error, Boundary_Dispatch (display error)) r1 ≫= λ _, Ok tt).
Proof.
  unfold engine_dispatch. rewrite lift_then.
  destruct (definitions _ _ _) as [d| |] eqn:Hd; [|intros Hr; left; by simplify_eq..].
  rewrite bail_if_then.
  match goal with |- (if ?b then _ else _) = _ → _ => destruct b eqn:Hscope end; [intros Hr; left; by simplify_eq|].
  rewrite lift_then. destruct (credentials request) as [proofs| |] eqn:Hc; [|intros Hr; left; by simplify_eq..].
  rewrite bail_if_then.
  match goal with |- (if ?b then _ else _) = _ → _ => destruct b eqn:Hproof end; [intros Hr; left; by simplify_eq|].
  apply orb_false_iff in Hscope as [[H1 H2]%orb_false_iff H3].
  apply orb_false_iff in Hproof as [H4 H5].
  apply bool_decide_eq_false in H1, H2, H3, H4, H5.
  unfold call, mbind, method_bind. destruct (handle _ _ _ _ _) as [s1 r1] eqn:Hrun. intros Hr. right.
  exists d, proofs, r1. apply dec_stable in H1, H2, H3. split_and!; try done.
  - rewrite Hrun. destruct r1; by injection Hr as -> _.
  - destruct r1; by injection Hr as _ <-.
Qed.
End dispatch.
