(* ===== verification/Emission.v ===== *)
(** * What the engine writes can be read back

    Under a definition without blank texts, every event a decision emits
    satisfies the condition of the event codec, and every state reached by
    replaying such events the one of the snapshot codec.  In the source the
    identifiers of a definition cannot be blank; the remaining texts
    ([definition_texts]) are not checked by its constructor. *)

From S2P Require Import Prelude Types Expr Coverage Config WorkflowDef Routing Text Evolve.
From S2P Require Import Activation Cases Decide MultiInstance Simulation Invariant Loop Decisions.
From S2P Require Import CaseSpec Instance Ports Wire EventCodec SnapshotCodec.
From Stdlib Require Import Ascii.
From stdpp Require Import options.

(** ** Sound events *)
Definition sound_event (d : WorkflowDefinition) (e : DomainEvent) : Prop :=
  wire_event e = true ∧
  match e with
  | WorkflowStarted tenant_id _ _ _ _ => tenant_id = wd_tenant_id d
  | MultiInstanceStarted _ _ _ total max_parallelism _ items _ =>
      (max_parallelism ≤ N.max total 1)%N ∧ (items = [] ∨ N.of_nat (length items) = total)
  | _ => True
  end.
Abbreviation sound d := (Forall (sound_event d)) (only parsing).

Lemma map_Forall_alter {V} (P : string → V → Prop) (f : V → V) k (m : gmap string V) :
  (∀ x, P k x → P k (f x)) → map_Forall P m → map_Forall P (alter f k m).
Proof.
  intros Hf Hm i x Hi. destruct (decide (i = k)) as [->|Hne].
  - rewrite lookup_alter_eq in Hi. destruct (m !! k) as [y|] eqn:Hk; simplify_eq/=. by apply Hf, Hm.
  - rewrite lookup_alter_ne in Hi by done. by apply Hm.
Qed.

Lemma map_Forall_deletes {V} (P : string → V → Prop) (ks : list string) (m : gmap string V) :
  map_Forall P m → map_Forall P (foldl (λ m k, delete k m) m ks).
Proof. revert m. induction ks as [|k ks IH]; intros m Hm; [done|]. by apply IH, map_Forall_delete. Qed.

Lemma release_tokens_carried tokens k n :
  entries (λ _, True) tokens → entries (λ _, True) (release_tokens tokens k n).
Proof.
  intros H. unfold release_tokens. destruct (tokens !! k) as [c|] eqn:Hk; [|done].
  destruct (_ =? 0)%N; [by apply map_Forall_delete|]. apply map_Forall_insert_2; [|done].
  split; [by eapply H|done].
Qed.

Lemma evolve_routing_carried d rt e :
  sound_event d e → routing_carried rt → routing_carried (evolve_routing rt e).
Proof.
  intros [Hw Hs] [Ht Hj Hl Hb Hc Hn]. destruct e; simpl in *; rewrite ?andb_true_iff in Hw;
    destruct_and?; try done.
  all: try (split; simpl; try done; apply map_Forall_insert_2; done).
  all: try (split; simpl; try done; by apply release_tokens_carried).
  all: try (split; simpl; try done; by apply map_Forall_delete).
  - split; simpl; try done. by apply map_Forall_alter.
  - split; simpl; try done. by apply map_Forall_deletes.
  - split; simpl; try done. by apply map_Forall_alter.
  - split; simpl; try done. by apply map_Forall_alter.
  - destruct cancel_activity; [|done]. split; simpl; try done.
    + by apply release_tokens_carried.
    + by apply map_Forall_delete.
    + intros k sub [Hk _]%map_lookup_filter_Some. by apply (Hb k).
  - split; simpl; try done; (apply map_Forall_insert_2; [|done]).
    + rewrite N.ltb_lt in *. done.
    + rewrite N.ltb_lt in *. split; [done|lia].
Qed.

Lemma names_ok_spec m :
  names_ok m = true ↔ map_Forall (λ name (_ : WorkflowValue), text_ok name = true) m.
Proof.
  unfold names_ok. rewrite forallb_forall. split.
  - intros H k v Hk. apply H, list_elem_of_In, elem_of_btree_keys. eauto.
  - intros H k [v Hk]%list_elem_of_In%elem_of_btree_keys. by eapply H.
Qed.

Lemma evolve_variables_carried d vars e :
  sound_event d e → names_ok vars = true → names_ok (evolve_variables vars e) = true.
Proof.
  intros [Hw _] Hv. rewrite names_ok_spec in *. destruct e; simpl in *; try done;
    rewrite ?andb_true_iff in Hw; destruct_and?.
  1,3: intros k v [Hk|[_ Hk]]%lookup_union_Some_raw; [|by eapply Hv];
       match goal with H : names_ok _ = true |- _ => rewrite names_ok_spec in H; by eapply H end.
  by apply map_Forall_insert_2.
Qed.

Lemma btree_extend_texts kind ids (m : gmap string CasePlanItemState) :
  texts_ok ids = true → map_Forall (λ id _, text_ok id = true) m →
  map_Forall (λ id _, text_ok id = true) (btree_extend m (available kind <$> ids)).
Proof.
  unfold btree_extend. revert m. induction ids as [|id ids IH]; intros m Hids Hm; [done|].
  simpl in *. apply andb_true_iff in Hids as [Hid Hids]. apply IH; [done|].
  by apply map_Forall_insert_2.
Qed.

Lemma evolve_cases_carried d cases e :
  sound_event d e → entries case_carried cases → entries case_carried (evolve_cases cases e).
Proof.
  intros [Hw _] Hc. destruct e; simpl in *; try done; rewrite ?andb_true_iff in Hw; destruct_and?.
  - apply map_Forall_insert_2; [|done]. split; [done|]. split_and!; simpl; [done|done|].
    apply btree_extend_texts; [done|]. apply btree_extend_texts; [done|]. apply map_Forall_empty.
  - apply map_Forall_alter; [|done]. intros c (Hid & Hm & Hs & Hp). split; [done|]. split_and!; simpl; try done.
    intros s [->%elem_of_singleton|Hin]%elem_of_union; [done|by apply Hs].
  - apply map_Forall_alter; [|done]. intros c (Hid & Hm & Hs & Hp). split; [done|]. split_and!; simpl; try done.
    by apply map_Forall_insert_2.
  - by apply map_Forall_alter.
Qed.

Lemma first_active_carried (tokens : gmap NodeId N) k :
  entries (λ _, True) tokens → text_ok k = true → text_ok (default k (first_key tokens)) = true.
Proof.
  intros Ht Hk. destruct (first_key tokens) as [k'|] eqn:Hf; [|done]. simpl.
  unfold first_key in Hf. apply head_Some_elem_of, elem_of_btree_keys in Hf as [c Hc].
  by apply (Ht k' c Hc).
Qed.

(** Replaying sound events keeps a state readable. *)
Lemma evolve_carried d st e : sound_event d e → carried st → carried (evolve st e).
Proof.
  intros He [Hl Hv Hr Hc]. pose proof (evolve_routing_carried _ _ _ He Hr) as Hr'.
  split.
  - change (st_lifecycle (evolve st e)) with
      (evolve_lifecycle (st_lifecycle st) (rt_active_tokens (evolve_routing (RoutingState_from st) e)) e).
    pose proof (ca_tokens _ Hr') as Ht. revert Ht.
    generalize (rt_active_tokens (evolve_routing (RoutingState_from st) e)). intros tokens Ht.
    destruct He as [Hw _]. destruct e; simpl in *; try done; rewrite ?andb_true_iff in Hw;
      destruct_and?; try done; by apply first_active_carried.
  - by eapply evolve_variables_carried.
  - by rewrite RoutingState_from_evolve.
  - by eapply evolve_cases_carried.
Qed.

Lemma replay_carried d st evs : sound d evs → carried st → carried (foldl evolve st evs).
Proof.
  revert st. induction evs as [|e evs IH]; intros st Hev Hst; [done|].
  apply Forall_cons in Hev as [He Hev]. apply IH; [done|]. by eapply evolve_carried.
Qed.

Lemma replays_carried d rt evs rt' :
  replays rt evs rt' → sound d evs → routing_carried rt → routing_carried rt'.
Proof.
  intros <-. revert rt. induction evs as [|e evs IH]; intros rt Hev Hrt; [done|].
  apply Forall_cons in Hev as [He Hev]. apply IH; [done|]. by eapply evolve_routing_carried.
Qed.

Lemma carried_default : carried InstanceState_default.
Proof. split; [done|done|split|]; apply map_Forall_empty. Qed.

(** ** Definitions without blank texts *)
Definition node_texts (node : Node) : bool :=
  match node with
  | Node_ServiceTask task_type _ => text_ok task_type
  | Node_UserTask task_type policy form_key result_variable _ =>
      text_ok task_type && text_ok policy && optional_ok form_key && text_ok result_variable
  | Node_ScriptTask task_type reference version _ =>
      text_ok task_type && text_ok reference && text_ok version
  | Node_DecisionTask table _ => text_ok table
  | Node_SubProcess start _ _ => text_ok start
  | Node_ParallelSplit targets join => texts_ok targets && text_ok join
  | Node_InclusiveSplit transitions _ join =>
      texts_ok (gt_target <$> transitions) && text_ok join
  | Node_Start _ | Node_CallActivity _ _ _ | Node_ExclusiveGateway _ _ | Node_ParallelJoin _ _
  | Node_InclusiveJoin _ _ | Node_End => true
  end.
Definition case_texts (c : CaseDefinition) : bool :=
  texts_ok (cs_id <$> cd_stages c) && texts_ok (cm_id <$> cd_milestones c)
  && texts_ok (se_id <$> cd_sentries c)
  && forallb (λ s, texts_ok (cs_entry_sentry_ids s) && texts_ok (cs_exit_sentry_ids s)) (cd_stages c)
  && forallb (λ m, texts_ok (cm_entry_sentry_ids m)) (cd_milestones c).

Record definition_texts (d : WorkflowDefinition) : Prop := {
  dx_identity : text_ok (wd_tenant_id d) && text_ok (wd_workflow_type d)
    && text_ok (wd_workflow_version d) && text_ok (wd_start_node d) = true;
  dx_nodes k node : wd_nodes d !! k = Some node → text_ok k = true ∧ node_texts node = true;
  dx_tables k table : wd_decision_tables d !! k = Some table →
    texts_ok (do_name <$> dt_outputs table) = true;
  dx_boundaries k b : b ∈ boundary_events d k →
    text_ok (be_id b) = true ∧ text_ok (be_target b) = true ∧ trigger_ok (be_trigger b) = true;
  dx_owners k k' : owner_scope_id d k = Some k' → text_ok k' = true;
  dx_loops k spec : multi_instance_spec d k = Some spec → optional_ok (mi_item_variable spec) = true;
  dx_cases k c : wd_case_models d !! k = Some c → text_ok k = true ∧ case_texts c = true }.

Lemma texts_ok_subseteq l l' : texts_ok l' = true → l ⊆ l' → texts_ok l = true.
Proof.
  unfold texts_ok. rewrite !forallb_forall. intros H Hsub x Hx. apply H.
  apply list_elem_of_In, Hsub. by apply list_elem_of_In.
Qed.

(** The same, as a check. *)
Definition check_definition_texts (d : WorkflowDefinition) : bool :=
  text_ok (wd_tenant_id d) && text_ok (wd_workflow_type d) && text_ok (wd_workflow_version d)
  && text_ok (wd_start_node d)
  && forallb (λ p, text_ok p.1 && node_texts p.2) (btree_iter (wd_nodes d))
  && forallb (λ t, texts_ok (do_name <$> dt_outputs t)) (btree_values (wd_decision_tables d))
  && forallb (forallb (λ b, text_ok (be_id b) && text_ok (be_target b) && trigger_ok (be_trigger b)))
       (btree_values (wd_boundary_events d))
  && forallb (λ m, optional_ok (nm_owner_scope_id m)
                   && match nm_multi_instance m with
                      | Some spec => optional_ok (mi_item_variable spec)
                      | None => true
                      end) (btree_values (wd_node_metadata d))
  && forallb (λ p, text_ok p.1 && case_texts p.2) (btree_iter (wd_case_models d)).

Lemma forallb_elem {A} (p : A → bool) l x : forallb p l = true → x ∈ l → p x = true.
Proof. rewrite forallb_forall. intros H Hx. by apply H, list_elem_of_In. Qed.

Lemma check_definition_texts_ok d : check_definition_texts d = true → definition_texts d.
Proof.
  unfold check_definition_texts. intros H.
  apply andb_true_iff in H as [H Hcases]. apply andb_true_iff in H as [H Hmeta].
  apply andb_true_iff in H as [H Hbound]. apply andb_true_iff in H as [H Htables].
  apply andb_true_iff in H as [Hid Hnodes]. split; [done|..].
  - intros k node Hk. apply elem_of_btree_iter in Hk.
    by apply (forallb_elem _ _ _ Hnodes), andb_true_iff in Hk.
  - intros k table Hk. apply (forallb_elem _ _ _ Htables), elem_of_btree_values. eauto.
  - intros k b Hb. unfold boundary_events, boundaries_at in Hb.
    destruct (wd_boundary_events d !! k) as [bs|] eqn:Hk; simpl in Hb; [|set_solver].
    assert (bs ∈ btree_values (wd_boundary_events d)) as Hbs by (apply elem_of_btree_values; eauto).
    pose proof (forallb_elem _ _ _ (forallb_elem _ _ _ Hbound Hbs) Hb) as Hok. simpl in Hok.
    rewrite !andb_true_iff in Hok. tauto.
  - intros k k' Hk. unfold owner_scope_id in Hk. destruct (wd_node_metadata d !! k) as [m|] eqn:Hm;
      [|done]. simpl in Hk.
    assert (m ∈ btree_values (wd_node_metadata d)) as Hin by (apply elem_of_btree_values; eauto).
    pose proof (forallb_elem _ _ _ Hmeta Hin) as Hok. simpl in Hok. rewrite Hk in Hok.
    by apply andb_true_iff in Hok as [Hok _].
  - intros k spec Hk. unfold multi_instance_spec, node_execution_metadata in Hk.
    destruct (wd_node_metadata d !! k) as [m|] eqn:Hm; [|done]. simpl in Hk.
    assert (m ∈ btree_values (wd_node_metadata d)) as Hin by (apply elem_of_btree_values; eauto).
    pose proof (forallb_elem _ _ _ Hmeta Hin) as Hok. simpl in Hok. rewrite Hk in Hok.
    by apply andb_true_iff in Hok as [_ Hok].
  - intros k c Hk. apply elem_of_btree_iter in Hk.
    by apply (forallb_elem _ _ _ Hcases), andb_true_iff in Hk.
Qed.

(** One event whose texts are at hand. *)
Ltac sound_one := split; [simpl; rewrite ?andb_true_iff; split_and?; done|done].

(** ** What one step emits *)
Section step.
Context (d : WorkflowDefinition) (cfg : ResolvedConfigSnapshot) (at_ms : N).
Hypothesis Htexts : definition_texts d.
Hypothesis Hcfg : config_ok cfg.

Lemma materialize_items k spec vars total items :
  materialize_multi_instance k spec vars = Ok (total, items) →
  items = [] ∨ N.of_nat (length items) = total.
Proof.
  unfold materialize_multi_instance. intros H.
  apply bind_Ok in H as (l & Hl & H). apply bind_Ok in H as (n & Hn%ok_or_Ok & H).
  apply u32_of_usize_Some in Hn as [-> _]. apply bind_Ok in H as (card & _ & H).
  apply bind_Ok in H as (u & Hcheck & [= <- <-]).
  destruct (mi_collection_expression spec) as [expr|]; [|left; by injection Hl as <-].
  destruct card as [n|]; [|by right]. apply bail_if_Ok in Hcheck. simpl in Hcheck.
  apply negb_false_iff, N.eqb_eq in Hcheck. right. simpl. lia.
Qed.

Lemma activate_next_text rt k rt' n tt item :
  routing_carried rt → activate_next_multi_instance rt k = Ok (rt', (n, tt, item)) →
  text_ok k = true ∧ text_ok tt = true.
Proof.
  intros Hrt H. unfold activate_next_multi_instance in H.
  apply bind_Ok in H as (a & Ha%ok_or_Ok & H). inv_res H. simplify_eq.
  by destruct (ca_loops _ Hrt _ _ Ha) as (? & ? & _).
Qed.

Lemma start_multi_instance_sound k tt spec vars rt b rt' evs :
  text_ok k = true → text_ok tt = true → multi_instance_spec d k = Some spec →
  mi_max_parallelism spec ≠ Some 0%N → routing_carried rt →
  start_multi_instance cfg at_ms k tt spec vars rt = Ok (b, rt', evs) → sound d evs.
Proof using Htexts Hcfg.
  intros Hk Htt Hspec Hpar Hrt H. pose proof H as Hrep. unfold start_multi_instance in H.
  apply bind_Ok in H as ([total items] & Hm & H). apply materialize_items in Hm.
  pose proof (mi_parallelism_bounds cfg spec total Hcfg Hpar) as Hp.
  apply bind_Ok in H as (? & _ & H). apply bind_Ok in H as (rt1 & Hstart & H).
  assert (sound_event d (MultiInstanceStarted k tt (mi_mode spec) total (mi_parallelism cfg spec total)
    (mi_item_variable spec) items at_ms)) as Hstarted.
  { split; [|split; [lia|done]]. simpl. rewrite Hk, Htt, (dx_loops _ Htexts _ _ Hspec).
    rewrite andb_true_r. simpl. apply N.ltb_lt. lia. }
  destruct (total =? 0)%N.
  { injection H as <- <- <-. constructor; [done|]. by apply Forall_singleton. }
  apply bind_Ok in H as ([rt2 evs2] & Hloop & [= <- <- <-]).
  enough (sound d (rt2, evs2).2 ∧ routing_carried (rt2, evs2).1) by naive_solver.
  eapply (for_each_inv _ (λ _ acc, sound d acc.2 ∧ routing_carried acc.1)); [exact Hloop| |].
  - simpl. split; [by apply Forall_singleton|].
    eapply (replays_carried d rt [_]); [|apply Forall_singleton, Hstarted|exact Hrt].
    apply replays_one. unfold routing_start_multi_instance in Hstart. inv_res Hstart. by simplify_eq.
  - intros _ [] [rt3 evs3] [rt4 evs4] [Hev Hrt3] _ Hf. simpl in *. unfold activate_iteration in Hf.
    apply bind_Ok in Hf as ([rt5 [[n tt'] item]] & Hnext & [= <- <-]).
    destruct (activate_next_text _ _ _ _ _ _ Hrt3 Hnext) as [_ Htt'].
    assert (sound_event d (MultiInstanceIterationActivated k tt' n item at_ms)) as He
      by (split; [simpl; by rewrite Hk, Htt'|done]).
    split; [apply Forall_app; split; [done|by apply Forall_singleton]|].
    eapply replays_carried;
      [apply replays_one; by apply activate_next_replay|by apply Forall_singleton|done].
Qed.

Lemma arm_boundary_events_sound k rt rt' evs :
  text_ok k = true → arm_boundary_events d at_ms k rt = Ok (rt', evs) → sound d evs.
Proof using Htexts.
  intros Hk H. unfold arm_boundary_events in H. change (sound d (rt', evs).2).
  eapply (for_each_inv _ (λ _ acc, sound d acc.2)); [exact H|constructor|].
  intros _ b [rt1 evs1] [rt2 evs2] Hev Hin Hf. simpl in *.
  apply bind_Ok in Hf as (? & _ & [= <- <-]). apply Forall_app. split; [done|].
  apply Forall_singleton. split; [|done]. simpl.
  destruct (dx_boundaries _ Htexts k b Hin) as (-> & -> & ->). by rewrite Hk.
Qed.

Lemma disarm_boundary_events_sound k rt rt' evs :
  text_ok k = true → routing_carried rt → disarm_boundary_events at_ms k rt = (rt', evs) → sound d evs.
Proof.
  intros Hk Hrt. unfold disarm_boundary_events, disarm_boundaries. intros [= <- <-].
  destruct (is_empty _); [constructor|]. apply Forall_singleton. split; [|done]. simpl. rewrite Hk. simpl.
  unfold texts_ok. rewrite forallb_forall. intros id Hid.
  apply list_elem_of_In, list_elem_of_fmap in Hid as ([id' sub] & -> & Hin).
  apply list_elem_of_In, filter_In in Hin as [Hin _].
  by apply (ca_subscriptions _ Hrt id' sub), elem_of_btree_iter, list_elem_of_In.
Qed.

Lemma activate_activity_sound cur scope tt next e vars rt vars' rt' evs pushed :
  text_ok cur = true → text_ok tt = true → sound_event d e →
  (∀ spec, multi_instance_spec d cur = Some spec → mi_max_parallelism spec ≠ Some 0%N) →
  routing_carried rt →
  activate_activity d cfg at_ms cur scope tt next e vars rt = Ok (vars', rt', evs, pushed) →
  sound d evs ∧ (pushed = [] ∨ pushed = [(next, scope)]).
Proof using Htexts Hcfg.
  intros Hcur Htt He Hpar Hrt H. unfold activate_activity in H.
  destruct (multi_instance_spec d cur) as [spec|] eqn:Hspec.
  - apply bind_Ok in H as ([[b rt1] evs1] & Hs & H).
    pose proof (start_multi_instance_sound _ _ _ _ _ _ _ _ Hcur Htt Hspec (Hpar _ eq_refl) Hrt Hs) as Hev.
    destruct b; [injection H as <- <- <- <-; auto|].
    apply bind_Ok in H as ([rt2 evs2] & Ha%arm_boundary_events_sound & [= <- <- <- <-]); [|done].
    split; [by apply Forall_app|by left].
  - apply bind_Ok in H as (rt1 & _ & H).
    apply bind_Ok in H as ([rt2 evs2] & Ha%arm_boundary_events_sound & [= <- <- <- <-]); [|done].
    split; [by constructor|by left].
Qed.

Lemma table_outputs_names table vars outputs :
  texts_ok (do_name <$> dt_outputs table) = true →
  evaluate_decision_table table vars = Ok outputs → names_ok outputs = true.
Proof.
  intros Hnames H. unfold evaluate_decision_table in H.
  apply bind_Ok in H as (sel & _ & H). apply bind_Ok in H as (rule & _ & [= <-]).
  apply names_ok_spec. unfold texts_ok in Hnames.
  assert (map_Forall (λ name (_ : WorkflowValue), text_ok name = true) ∅) as Hm by apply map_Forall_empty.
  revert Hm. generalize (∅ : Variables). generalize (dr_output_values rule).
  unfold btree_extend. induction (dt_outputs table) as [|o os IH]; intros [|v vs] m Hm; simpl in *;
    try done.
  apply andb_true_iff in Hnames as [Ho Hos]. apply (IH Hos). by apply map_Forall_insert_2.
Qed.

Hypothesis Hok : definition_ok d.
Abbreviation scopes_ok pending := (Forall (λ p : Entry, optional_ok p.2 = true) pending) (only parsing).

Lemma activity_pushed (scope : option ScopeInstanceId) (next : NodeId) (pushed : list Entry) :
  optional_ok scope = true → pushed = [] ∨ pushed = [(next, scope)] → scopes_ok pushed.
Proof. intros Hs [->| ->]; [constructor|by apply Forall_singleton]. Qed.

Lemma step_end_sound cur scope vars rt vars' rt' evs pushed :
  text_ok cur = true → optional_ok scope = true → routing_carried rt →
  step_end d at_ms cur scope vars rt = Ok (vars', rt', evs, pushed) → sound d evs ∧ scopes_ok pushed.
Proof using Htexts.
  intros Hcur Hscope Hrt H. unfold step_end in H. destruct (owner_scope_id d cur) as [owner|] eqn:Ho.
  - pose proof (dx_owners _ Htexts _ _ Ho) as Howner.
    apply bind_Ok in H as (inst & Hinst%ok_or_Ok & H). subst scope.
    apply bind_Ok in H as ([rt1 sc] & Hc & H).
    destruct (disarm_boundary_events _ _ _) as [rt2 disarmed] eqn:Hd.
    apply bind_Ok in H as (exit & _ & [= <- <- <- <-]).
    unfold complete_scope in Hc. apply bind_Ok in Hc as (sc' & Hsc%ok_or_Ok & Hc). inv_res Hc.
    simplify_eq. destruct (ca_scopes _ Hrt _ _ Hsc) as (_ & _ & _ & Hparent & _).
    apply disarm_boundary_events_sound in Hd; [|done|].
    + split; [|by apply Forall_singleton]. constructor; [|done]. split; [|done]. simpl in *.
      unfold text_ok in *. by rewrite Hscope, Howner, Hcur.
    + destruct Hrt. split; simpl; try done. by apply map_Forall_delete.
  - destruct (has_outstanding_work rt); injection H as <- <- <- <-;
      (split; [apply Forall_singleton; by split|constructor]).
Qed.

Lemma enter_scope_texts rt cur start parent rt' inst n :
  enter_scope rt cur start parent = Ok (rt', (inst, n)) → text_ok inst = true ∧ (0 <? n)%N = true.
Proof.
  unfold enter_scope. intros H. apply bind_Ok in H as (? & _ & H).
  apply bind_Ok in H as (invocation & Hn%ok_or_Ok & H). apply checked_add_Some in Hn as [-> _].
  cbv zeta in H. unfold identifier_new in H. rewrite scope_identity_not_blank in H.
  injection H as <- <- <-. unfold text_ok. rewrite scope_identity_not_blank. split; [done|].
  apply N.ltb_lt. lia.
Qed.

Lemma step_join_sound cur scope next vars rt vars' rt' evs pushed :
  text_ok cur = true → optional_ok scope = true →
  step_join at_ms cur scope next vars rt = Ok (vars', rt', evs, pushed) → sound d evs ∧ scopes_ok pushed.
Proof.
  intros Hcur Hscope H. unfold step_join in H. apply bind_Ok in H as ([rt1 b] & _ & H).
  destruct b; injection H as <- <- <- <-.
  - split; [constructor; [sound_one|apply Forall_singleton; sound_one]|by apply Forall_singleton].
  - split; [apply Forall_singleton; sound_one|constructor].
Qed.

Lemma node_step_sound node cur scope vars rt vars' rt' evs pushed :
  wd_nodes d !! cur = Some node → optional_ok scope = true → routing_carried rt →
  node_step d cfg at_ms node cur scope vars rt = Ok (vars', rt', evs, pushed) →
  sound d evs ∧ scopes_ok pushed.
Proof using Htexts Hcfg Hok.
  intros Hnode Hscope Hrt H. destruct (dx_nodes _ Htexts _ _ Hnode) as [Hcur Hn].
  assert (∀ spec, multi_instance_spec d cur = Some spec → mi_max_parallelism spec ≠ Some 0%N) as Hpar
    by (intros spec; by apply spec_parallelism).
  destruct node; simpl in H, Hn; rewrite ?andb_true_iff in Hn; destruct_and?.
  - unfold step_start in H. inv_res H. simplify_eq. by split; [|apply Forall_singleton].
  - apply activate_activity_sound in H as [? ?]; [|done|done|sound_one|done|done].
    eauto using activity_pushed.
  - apply activate_activity_sound in H as [? ?]; [|done|done|sound_one|done|done].
    eauto using activity_pushed.
  - apply activate_activity_sound in H as [? ?]; [|done|done|sound_one|done|done].
    eauto using activity_pushed.
  - unfold step_decision_task in H. apply bind_Ok in H as (table & Ht%ok_or_Ok & H).
    apply bind_Ok in H as (outputs & Hout & [= <- <- <- <-]).
    apply table_outputs_names in Hout; [|by eapply dx_tables].
    split; apply Forall_singleton; [sound_one|done].
  - unfold step_call_activity in H. destruct (identifier_new _ _) as [tt| |] eqn:Hid; [|done..].
    assert (text_ok tt = true) as Htt.
    { unfold identifier_new in Hid. unfold text_ok. destruct (is_blank _) eqn:Hb; [done|].
      injection Hid as <-. by rewrite Hb. }
    apply activate_activity_sound in H as [? ?]; [|done|done|sound_one|done|done].
    eauto using activity_pushed.
  - unfold step_sub_process in H. apply bind_Ok in H as ([rt1 [inst n]] & He & H).
    apply bind_Ok in H as ([rt2 evs2] & Ha%arm_boundary_events_sound & [= <- <- <- <-]); [|done].
    apply enter_scope_texts in He as [Hi Hpos].
    split; [constructor; [|done]; sound_one|by apply Forall_singleton].
  - unfold step_exclusive_gateway in H. apply bind_Ok in H as (target & _ & [= <- <- <- <-]).
    split; [constructor|by apply Forall_singleton].
  - apply bind_Ok in H as (rt1 & _ & [= <- <- <- <-]).
    split; [apply Forall_singleton; sound_one|]. apply Forall_fmap, Forall_true. done.
  - eapply step_join_sound; [..|exact H]; done.
  - unfold step_inclusive_split in H. apply bind_Ok in H as (selected & Hsel & H).
    apply select_transitions_targets in Hsel. apply bind_Ok in H as (rt1 & _ & [= <- <- <- <-]).
    assert (texts_ok selected = true) by (by eapply texts_ok_subseteq).
    split; [apply Forall_singleton; sound_one|]. apply Forall_fmap, Forall_true. done.
  - eapply step_join_sound; [..|exact H]; done.
  - by eapply step_end_sound.
Qed.

(** Everything the activation of a node emits. *)
Lemma activation_loop_sound fuel start vars rt pending vars' rt' evs :
  routing_carried rt → scopes_ok pending →
  activation_loop d cfg at_ms fuel start vars rt pending = Ok (vars', rt', evs) → sound d evs.
Proof using Htexts Hcfg Hok.
  revert vars rt pending evs. induction fuel as [|fuel IH];
    intros vars rt [|[cur scope] rest] evs Hrt Hpend H; simpl in H; simplify_eq; [constructor|constructor|].
  apply Forall_cons in Hpend as [Hscope Hrest]. simpl in Hscope.
  apply bind_Ok in H as (node & Hnode%ok_or_Ok & H).
  apply bind_Ok in H as ([[[vars1 rt1] evs1] pushed] & Hstep & H).
  apply bind_Ok in H as ([[vars2 rt2] evs2] & Hloop & [= <- <- <-]).
  pose proof (node_step_replay _ _ _ _ _ _ _ _ _ _ _ _ Hstep) as Hrep.
  destruct (node_step_sound _ _ _ _ _ _ _ _ _ Hnode Hscope Hrt Hstep) as [Hev Hpushed].
  apply Forall_app. split; [done|]. eapply (IH vars1 rt1 (pushed ++ rest)); [|by apply Forall_app|exact Hloop].
  by eapply replays_carried.
Qed.
End step.

(** ** What a decision emits *)

(** The texts a command brings along that the definition does not fix. *)
Definition command_texts (command : Command) : bool :=
  match command with
  | ActivateCase case_id _ _ => text_ok case_id
  | CompleteServiceTask _ outputs _ => names_ok outputs
  | _ => true
  end.

Section decide.
Context (d : WorkflowDefinition) (st : InstanceState) (ctx : DecisionContext).
Hypotheses (Htexts : definition_texts d) (Hok : definition_ok d)
  (Hcfg : config_ok (dc_configuration ctx)) (Hst : carried st).

Lemma active_scope_text k scope :
  active_scope_for_node d st k = Ok scope → optional_ok scope = true.
Proof using Hst.
  unfold active_scope_for_node. destruct (owner_scope_id d k) as [owner|]; [|by intros [= <-]].
  destruct (scopes_of _ _) as [|found [|]] eqn:Hs; intros [= <-].
  assert (found ∈ scopes_of (st_active_scopes st) owner) as Hin by (rewrite Hs; by left).
  unfold scopes_of in Hin. apply list_elem_of_fmap in Hin as ([id sc] & -> & Hin).
  apply list_elem_of_In, filter_In in Hin as [Hin _].
  by apply (ca_scopes _ (ca_routing _ Hst) id sc), elem_of_btree_iter, list_elem_of_In.
Qed.

(** The events of a decision: some sound events, then an activation. *)
Lemma activate_sound at_ms prefix rt next vars scope more :
  sound d prefix → routing_carried rt → optional_ok scope = true →
  activate d ctx at_ms next vars rt scope = Ok more → sound d (prefix ++ more).
Proof using Htexts Hok Hcfg.
  intros Hpre Hrt Hscope H. apply bind_Ok in H as ([[v rt'] evs] & Hact & [= <-]).
  apply Forall_app. split; [done|].
  eapply activation_loop_sound; [done|done|done|done| |exact Hact]. by apply Forall_singleton.
Qed.

Lemma complete_and_continue_sound k next completed vars at_ms evs :
  text_ok k = true → sound_event d completed →
  (∀ rt, evolve_routing rt completed = set_tokens rt (release_tokens (rt_active_tokens rt) k 1)) →
  complete_and_continue d st ctx k next completed vars at_ms = Ok evs → sound d evs.
Proof using Htexts Hok Hcfg Hst.
  intros Hk Hcomp Hev H. unfold complete_and_continue in H.
  apply bind_Ok in H as (rt1 & Htask & H). pose proof (complete_task_replay _ _ _ Htask) as ->.
  destruct (disarm_boundary_events _ _ _) as [rt2 disarmed] eqn:Hd.
  apply bind_Ok in H as (scope & Hscope%active_scope_text & H).
  apply bind_Ok in H as (more & Hact & [= <-]).
  assert (routing_carried (set_tokens (RoutingState_from st)
    (release_tokens (rt_active_tokens (RoutingState_from st)) k 1))) as Hrt.
  { rewrite <-Hev. eapply evolve_routing_carried; [done|apply Hst]. }
  pose proof (disarm_boundary_events_sound d _ _ _ _ _ Hk Hrt Hd) as Hdis.
  eapply (activate_sound _ (completed :: disarmed)); [by constructor| |done|exact Hact].
  eapply replays_carried; [by eapply disarm_boundary_events_replay|done..].
Qed.

Lemma complete_iteration_sound k i at_ms evs :
  complete_multi_instance_iteration d st ctx k i at_ms = Ok evs → sound d evs.
Proof using Htexts Hok Hcfg Hst.
  intros H. unfold complete_multi_instance_iteration in H.
  apply bind_Ok in H as (node & Hnode%ok_or_Ok & H). destruct (dx_nodes _ Htexts _ _ Hnode) as [Hk _].
  do 3 apply bind_Ok in H as (? & _ & H).
  apply bind_Ok in H as ([rt b] & Hcomp & H). do 2 apply bind_Ok in H as (? & _ & H).
  apply bind_Ok in H as (more & Hm & [= <-]).
  assert (sound_event d (MultiInstanceIterationCompleted k i at_ms)) as He by sound_one.
  pose proof (complete_iteration_replay _ _ _ _ _ at_ms Hcomp) as Hrep.
  assert (routing_carried rt) as Hrt.
  { rewrite <-Hrep. eapply evolve_routing_carried; [done|apply Hst]. }
  destruct (b || _).
  - unfold finish_iterations in Hm. cbv zeta in Hm.
    destruct (disarm_boundary_events _ _ _) as [rt2 dis] eqn:Hd.
    apply bind_Ok in Hm as (scope & Hscope%active_scope_text & Hm).
    apply bind_Ok in Hm as (evs & Ha & [= <-]).
    match type of Hd with disarm_boundary_events _ _ ?r = _ => assert (routing_carried r) as Hrt1 end.
    { destruct Hrt. split; simpl; try done. by apply map_Forall_delete. }
    apply (disarm_boundary_events_sound d _ _ _ _ _ Hk Hrt1) in Hd as Hdis.
    rewrite !app_comm_cons.
    eapply activate_sound; [|  |exact Hscope|exact Ha].
    + constructor; [done|]. constructor; [sound_one|done].
    + eapply replays_carried; [by eapply disarm_boundary_events_replay|done..].
  - constructor; [done|]. unfold continue_iterations in Hm. apply bind_Ok in Hm as (a & _ & Hm).
    destruct (_ <? _)%N; [|simplify_eq; constructor].
    apply bind_Ok in Hm as ([? [[n tt] item]] & Hn & [= <-]).
    apply activate_next_text in Hn as [_ ?]; [|done]. apply Forall_singleton. sound_one.
Qed.

Lemma cancel_activity_carried rt k n rt' :
  routing_carried rt → cancel_activity rt k n = Ok rt' → routing_carried rt'.
Proof.
  intros Hrt H. unfold cancel_activity in H. cbv zeta in H.
  eapply (for_each_inv _ (λ _ rt, routing_carried rt)); [exact H| |].
  - destruct Hrt. split; simpl; try done; [by apply map_Forall_delete|by apply map_Forall_deletes].
  - intros _ [] rt1 rt2 Hrt1 _ Htask. apply complete_task_replay in Htask as ->.
    destruct Hrt1. split; simpl; try done. by apply release_tokens_carried.
Qed.

Lemma trigger_boundary_event_sound id at_ms evs :
  trigger_boundary_event d st ctx id at_ms = Ok evs → sound d evs.
Proof using Htexts Hok Hcfg Hst.
  intros H. unfold trigger_boundary_event in H. cbv zeta in H.
  apply bind_Ok in H as (sub & Hsub%ok_or_Ok & H).
  destruct (ca_subscriptions _ (ca_routing _ Hst) _ _ Hsub) as (Hid & Howner & Htarget & _).
  apply bind_Ok in H as (b & Hb%ok_or_Ok & H).
  apply bind_Ok in H as ([] & Hsame%bail_if_Ok & H).
  rewrite !orb_false_iff, !bool_decide_eq_false in Hsame. destruct Hsame as [[Ht _] _].
  apply dec_stable in Ht.
  assert (be_id b = id) as Hbid.
  { destruct (boundary_event d id) as [[o b']|] eqn:Hf; [|done]. injection Hb as <-.
    by apply find_boundary_Some in Hf as (bs & _ & _ & ?). }
  do 2 apply bind_Ok in H as (? & _ & H).
  apply bind_Ok in H as (cut & Hcut & H). apply bind_Ok in H as (rt & Hrt & H).
  apply bind_Ok in H as (scope & Hscope%active_scope_text & H).
  apply bind_Ok in H as (more & Hact & [= <-]). rewrite app_comm_cons.
  eapply activate_sound; [| |exact Hscope|exact Hact].
  - constructor; [split; [|done]; simpl; by rewrite Hbid, Ht, Hid, Howner, Htarget|].
    destruct (be_cancel_activity b); [|injection Hcut as <-; constructor].
    apply bind_Ok in Hcut as (node & _ & [= <-]). destruct (is_user_task node); [|constructor].
    apply Forall_singleton. split; [|done]. simpl. rewrite Howner. unfold text_ok.
    by rewrite (visible_not_blank "b"%char).
  - destruct (be_cancel_activity b); [|injection Hrt as <-; apply Hst].
    eapply cancel_activity_carried; [apply Hst|exact Hrt].
Qed.

(** *** Cases *)
Lemma activate_case_sound case_id model_id at_ms evs :
  text_ok case_id = true → activate_case d st case_id at_ms model_id = Ok evs → sound d evs.
Proof using Htexts.
  intros Hc H. apply bind_Ok in H as ([] & _ & H). apply bind_Ok in H as (model & Hm%ok_or_Ok & [= <-]).
  destruct (dx_cases _ Htexts _ _ Hm) as [Hid Hmodel]. unfold case_texts in Hmodel.
  rewrite !andb_true_iff in Hmodel. destruct Hmodel as [[[[Hstages ?] _] _] _].
  constructor; [sound_one|].
  apply Forall_fmap, Forall_forall. intros stage Hstage. simpl.
  assert (text_ok (cs_id stage) = true).
  { eapply (proj1 (forallb_forall _ _) Hstages), list_elem_of_In, list_elem_of_fmap.
    exists stage. split; [done|]. apply list_elem_of_In, filter_In in Hstage as [Hs _].
    by apply list_elem_of_In. }
  sound_one.
Qed.

Lemma push_case_transition_sound case_id at_ms acc id kind status ids sat :
  text_ok case_id = true → text_ok id = true → texts_ok ids = true → sound d acc.2 →
  sound d (push_case_transition case_id at_ms acc id kind status ids sat).2.
Proof.
  intros Hc Hid Hids Hacc. simpl. apply Forall_app. split; [done|]. apply Forall_singleton.
  assert (texts_ok (List.filter (λ id, bool_decide (id ∈ sat)) ids) = true); [|sound_one].
  eapply texts_ok_subseteq; [done|]. intros x Hx. apply list_elem_of_In, filter_In in Hx as [Hx _].
  by apply list_elem_of_In.
Qed.

Lemma evaluate_case_sentries_sound case_id at_ms facts evs :
  evaluate_case_sentries d st case_id at_ms facts = Ok evs → sound d evs.
Proof using Htexts Hst.
  intros H. unfold evaluate_case_sentries in H.
  apply bind_Ok in H as (active & Hactive%ok_or_Ok & H). apply bind_Ok in H as (? & _ & H).
  apply bind_Ok in H as (model & Hmodel%ok_or_Ok & H).
  destruct (ca_cases _ Hst _ _ Hactive) as [Hcase _].
  destruct (dx_cases _ Htexts _ _ Hmodel) as [_ Htx]. unfold case_texts in Htx.
  rewrite !andb_true_iff in Htx. destruct Htx as [[[[Hstage Hmile] Hsentry] Hstages] Hmiles].
  unfold texts_ok in Hstage, Hmile, Hsentry. rewrite forallb_forall in Hstage, Hmile, Hsentry, Hstages, Hmiles.
  apply bind_Ok in H as ([sat evs1] & Hf & H). apply bind_Ok in H as (? & _ & H).
  apply bind_Ok in H as ([p1 evs2] & Hs & H). apply bind_Ok in H as ([p2 evs3] & Hm & [= <-]).
  assert (sound d (sat, evs1).2) as H1.
  { eapply (for_each_inv _ (λ _ acc, sound d acc.2)); [exact Hf|constructor|].
    intros _ s [sat1 e1] [sat2 e2] He Hin Hb. simpl in *. apply bind_Ok in Hb as ([] & _ & Hb);
      simplify_eq; [|done]. apply Forall_app. split; [done|]. apply Forall_singleton.
    assert (text_ok (se_id s) = true); [|sound_one].
    apply Hsentry, list_elem_of_In, list_elem_of_fmap. eauto. }
  assert (sound d (p1, evs2).2) as H2.
  { eapply (for_each_inv _ (λ _ acc, sound d acc.2)); [exact Hs|done|].
    intros _ s acc acc' He Hin Hb. apply bind_Ok in Hb as (cur & _ & [= <-]).
    assert (text_ok (cs_id s) = true) by (apply Hstage, list_elem_of_In, list_elem_of_fmap; eauto).
    apply list_elem_of_In, Hstages, andb_true_iff in Hin as [? ?].
    repeat (destruct (_ && _)); by repeat apply push_case_transition_sound. }
  assert (sound d (p2, evs3).2) as H3.
  { eapply (for_each_inv _ (λ _ acc, sound d acc.2)); [exact Hm|done|].
    intros _ m acc acc' He Hin Hb. apply bind_Ok in Hb as (cur & _ & [= <-]).
    assert (text_ok (cm_id m) = true) by (apply Hmile, list_elem_of_In, list_elem_of_fmap; eauto).
    apply list_elem_of_In, Hmiles in Hin.
    repeat (destruct (_ && _)); by repeat apply push_case_transition_sound. }
  apply Forall_app. split; [done|]. destruct (all_completed p2); [|constructor].
  apply Forall_singleton. sound_one.
Qed.

(** Everything a decision emits can be read back. *)
Lemma decide_sound cmd evs :
  command_texts cmd = true → Workflow.decide d st ctx cmd = Ok evs → sound d evs.
Proof using Htexts Hok Hcfg Hst.
  intros Hcmd H. apply bind_Ok in H as (evs' & H & Hlim). apply bind_Ok in Hlim as (? & _ & [= <-]).
  destruct cmd; simpl in *.
  - by eapply activate_case_sound.
  - by eapply evaluate_case_sentries_sound.
  - destruct (st_lifecycle st); try done. unfold decide_start in H.
    apply bind_Ok in H as (? & Ht%bail_if_Ok & H). apply bind_Ok in H as (node & _ & H).
    destruct node; try done. apply bind_Ok in H as (more & Hact & [= <-]).
    eapply (activate_sound _ [_]); [|apply Hst| |exact Hact]; [|done]. apply Forall_singleton.
    pose proof (dx_identity _ Htexts) as Hid. rewrite !andb_true_iff in Hid. destruct_and! Hid.
    apply bool_decide_eq_false, dec_stable in Ht as ->. sound_one.
  - unfold when_active in H. destruct (st_lifecycle st); try done. destruct (has_token _ _); [|done].
    unfold decide_service_task in H. apply bind_Ok in H as (node & Hnode%ok_or_Ok & H).
    destruct (dx_nodes _ Htexts _ _ Hnode) as [Hk Hn].
    destruct node; try done; (eapply complete_and_continue_sound; [exact Hk| | |exact H]; [sound_one|done]).
  - unfold when_active in H. destruct (st_lifecycle st); try done. destruct (has_token _ _); [|done].
    unfold decide_user_task in H. apply bind_Ok in H as (node & Hnode%ok_or_Ok & H).
    destruct (dx_nodes _ Htexts _ _ Hnode) as [Hk Hn]. destruct node; try done.
    apply bind_Ok in H as (? & Hblank%bail_if_Ok & H). simpl in Hn. rewrite !andb_true_iff in Hn.
    destruct_and! Hn. eapply complete_and_continue_sound; [exact Hk| | |exact H]; [|done].
    split; [|done]. simpl. rewrite !andb_true_iff. split_and!; [done| |done]. unfold text_ok.
    by rewrite Hblank.
  - unfold when_active in H. destruct (st_lifecycle st); try done. destruct (has_token _ _); [|done].
    unfold decide_script_task in H. apply bind_Ok in H as (node & Hnode%ok_or_Ok & H).
    destruct (dx_nodes _ Htexts _ _ Hnode) as [Hk Hn]. destruct node; try done.
    eapply complete_and_continue_sound; [exact Hk| | |exact H]; [|done]. sound_one.
  - unfold when_active in H. destruct (st_lifecycle st); try done. by eapply complete_iteration_sound.
  - unfold when_active in H. destruct (st_lifecycle st); try done. by eapply trigger_boundary_event_sound.
Qed.
End decide.
