(* ===== verification/MemoryStore.v ===== *)
(** * The in-memory workflow store

    [InMemoryConfigurationProvider] and [InMemoryWorkflowStore] of
    [apps/rust/bpmp-engine/src/memory.rs].  The store implements the
    contracts [LawfulStore] and [LawfulOutbox]; [memory_inv] relates its
    outbox to its streams.  Its mutex makes each operation atomic, and is
    never poisoned because no operation panics within the range of [u64]. *)

From S2P Require Import Prelude Types Config Evolve Outbox Ports EngineSpec Wire EventCodec.
From stdpp Require Import options.

(** ** Configurations *)
Definition InMemoryConfigurationProvider : Type :=
  gmap (string * string * string) ResolvedConfigSnapshot.
Definition lookup_key (l : ConfigurationLookup) : string * string * string :=
  (cl_tenant_id l, cl_workflow_type l, cl_workflow_version l).
Definition Provider_insert (lookup : ConfigurationLookup) (snapshot : ResolvedConfigSnapshot)
    (p : InMemoryConfigurationProvider) :
    InMemoryConfigurationProvider * option ResolvedConfigSnapshot :=
  (<[lookup_key lookup := snapshot]> p, p !! lookup_key lookup).
Definition Provider_resolve (p : InMemoryConfigurationProvider) (lookup : ConfigurationLookup) :
    res ConfigError ResolvedConfigSnapshot :=
  ok_or (p !! lookup_key lookup) MissingPublishedSnapshot.

(** ** The store *)
Record MemoryState := mkMemory {
  ms_streams : gmap (string * string) (list EventEnvelope);
  ms_snapshots : gmap (string * string) SnapshotEnvelope;
  ms_idempotency : gmap (string * string * string) StoredResult;
  ms_authorization_audits : gmap (string * string) AuthorizationAudit;
  ms_outbox : list OutboxRecord;
  ms_outbox_checkpoint : N;
  ms_local_task_checkpoint : N }.
Definition MemoryState_default : MemoryState := mkMemory ∅ ∅ ∅ ∅ [] 0 0.

Definition with_streams (f : gmap (string * string) (list EventEnvelope) →
    gmap (string * string) (list EventEnvelope)) (s : MemoryState) : MemoryState :=
  mkMemory (f (ms_streams s)) (ms_snapshots s) (ms_idempotency s) (ms_authorization_audits s)
    (ms_outbox s) (ms_outbox_checkpoint s) (ms_local_task_checkpoint s).
Definition with_checkpoint (c : N) (s : MemoryState) : MemoryState :=
  mkMemory (ms_streams s) (ms_snapshots s) (ms_idempotency s) (ms_authorization_audits s)
    (ms_outbox s) c (ms_local_task_checkpoint s).
Definition with_local_task_checkpoint (c : N) (s : MemoryState) : MemoryState :=
  mkMemory (ms_streams s) (ms_snapshots s) (ms_idempotency s) (ms_authorization_audits s)
    (ms_outbox s) (ms_outbox_checkpoint s) c.

Definition authorization_audit (s : MemoryState) (tenant_id : TenantId) (command_id : CommandId) :
    option AuthorizationAudit := ms_authorization_audits s !! (tenant_id, command_id).
Definition authorization_audit_count (s : MemoryState) : nat := size (ms_authorization_audits s).

Definition memory_lookup_idempotency (s : MemoryState) (tenant_id : TenantId) (actor_id : ActorId)
    (idempotency_key : IdempotencyKey) (command_id : CommandId) :
    res StoreError (option CommittedResult) :=
  match ms_idempotency s !! (tenant_id, actor_id, idempotency_key) with
  | Some stored =>
      if decide (sr_command_id stored = command_id) then Ok (Some (sr_result stored))
      else Err IdempotencyConflict
  | None => Ok None
  end.

Definition conversion_error : string := "out of range integral type conversion attempted".

Definition memory_load (s : MemoryState) (tenant_id : TenantId) (instance_id : InstanceId) :
    res StoreError LoadedInstance :=
  let stream := default [] (ms_streams s !! (tenant_id, instance_id)) in
  version ← ok_or (u64_of_usize (length stream)) (Store_Unavailable conversion_error);
  let snapshot := ms_snapshots s !! (tenant_id, instance_id) in
  Ok (mkLoaded snapshot (List.filter (is_after (snapshot_sequence snapshot)) stream) version).

(** [+] on [u64], which panics on overflow. *)
Definition u64_succ {E} (n : N) : res E N :=
  match checked_add u64_max n 1 with
  | Some m => Ok m
  | None => Panic "attempt to add with overflow"
  end.

Definition invalid_snapshot (request : CommitRequest) : bool :=
  match cq_snapshot request with
  | Some snapshot =>
      bool_decide (sn_tenant_id snapshot ≠ cq_tenant_id request)
      || bool_decide (sn_instance_id snapshot ≠ cq_instance_id request)
      || (st_sequence (sn_state snapshot) <=? cq_expected_version request)%N
      || (cr_version (cq_result request) <? st_sequence (sn_state snapshot))%N
  | None => false
  end.

(** The adjacent pairs are inspected in order, up to the first gap. *)
Fixpoint gap_after (previous : N) (events : list EventEnvelope) : res StoreError bool :=
  match events with
  | [] => Ok false
  | e :: events =>
      next ← u64_succ previous;
      if (em_sequence (ee_metadata e) =? next)%N then gap_after next events else Ok true
  end.

Section store.
Context (encode_to_vec : Wire.EventEnvelope → string).

Definition outbox_record (request : CommitRequest) (cursor : N) (event : EventEnvelope) :
    OutboxRecord :=
  mkOutboxRecord cursor (cq_tenant_id request) (cq_instance_id request)
    (em_event_id (ee_metadata event)) (em_correlation_id (ee_metadata event))
    (em_causation_command_id (ee_metadata event)) (EventCodec_encode encode_to_vec event).

Fixpoint outbox_records (request : CommitRequest) (outbox_tail : N) (index : nat)
    (events : list EventEnvelope) : res StoreError (list OutboxRecord) :=
  match events with
  | [] => Ok []
  | event :: events =>
      offset ← ok_or (u64_of_usize index) (Store_Unavailable conversion_error);
      cursor ← ok_or (checked_add u64_max outbox_tail offset ≫= λ value, checked_add u64_max value 1)
        (Store_Unavailable "outbox cursor overflow");
      rest ← outbox_records request outbox_tail (S index) events;
      Ok (outbox_record request cursor event :: rest)
  end.

(** The state with the events, the outbox records, the snapshot, the result
    and the audit of a commit. *)
Definition memory_append (request : CommitRequest) (records : list OutboxRecord)
    (state : MemoryState) : MemoryState :=
  mkMemory
    (<[stream_key request :=
         default [] (ms_streams state !! stream_key request) ++ cq_events request]>
       (ms_streams state))
    (match cq_snapshot request with
     | Some snapshot => <[stream_key request := snapshot]> (ms_snapshots state)
     | None => ms_snapshots state
     end)
    (<[idempotency_scope request := mkStored (cq_command_id request) (cq_result request)]>
       (ms_idempotency state))
    (<[audit_key request := cq_authorization_audit request]> (ms_authorization_audits state))
    (ms_outbox state ++ records)
    (ms_outbox_checkpoint state) (ms_local_task_checkpoint state).

Definition memory_commit (request : CommitRequest) :
    method MemoryState StoreError CommitOutcome :=
  lift (validate_authorization_audit request);;
  state ← self;
  match ms_idempotency state !! idempotency_scope request with
  | Some stored =>
      if decide (sr_command_id stored = cq_command_id request)
      then mret (Duplicate (sr_result stored)) else lift (Err IdempotencyConflict)
  | None =>
      lift (bail_if (is_some (ms_authorization_audits state !! audit_key request))
              InvalidAuthorizationAudit);;
      lift (bail_if (invalid_snapshot request) InvalidSnapshot);;
      outbox_tail ← lift (ok_or (u64_of_usize (length (ms_outbox state)))
                            (Store_Unavailable conversion_error));
      records ← lift (outbox_records request outbox_tail 0 (cq_events request));
      let stream := default [] (ms_streams state !! stream_key request) in
      set_self (with_streams <[stream_key request := stream]> state);;
      actual ← lift (ok_or (u64_of_usize (length stream)) (Store_Unavailable conversion_error));
      lift (bail_if (negb (actual =? cq_expected_version request)%N)
              (VersionConflict (cq_expected_version request) actual));;
      gap ← lift (gap_after actual (cq_events request));
      lift (bail_if gap NonContiguousSequence);;
      set_self (memory_append request records state);;
      mret (Committed (cq_result request))
  end.

Definition memory_port : WorkflowStorePort MemoryState := {|
  lookup_idempotency := memory_lookup_idempotency;
  load := memory_load;
  commit := memory_commit |}.
End store.

(** ** The outbox of the store *)
Definition memory_read_after (s : MemoryState) (cursor : N) (limit : nat) :
    res OutboxError (list OutboxRecord) :=
  bail_if (limit =? 0)%nat Outbox_InvalidConfiguration;;
  Ok (take limit (List.filter (λ r, cursor <? ob_cursor r)%N (ms_outbox s))).

Definition memory_checkpoint (expected committed : N) : method MemoryState OutboxError unit :=
  state ← self;
  lift (bail_if (negb (ms_outbox_checkpoint state =? expected)%N) Outbox_CheckpointConflict);;
  tail ← lift (ok_or (u64_of_usize (length (ms_outbox state)))
                 (Outbox_StoreUnavailable conversion_error));
  lift (bail_if ((committed <=? expected)%N || (tail <? committed)%N)
          (Outbox_StoreUnavailable "outbox checkpoint is outside the committed range"));;
  set_self (with_checkpoint committed state).

#[global] Instance memory_outbox_port : OutboxStorePort MemoryState := {
  publisher_checkpoint s := Ok (ms_outbox_checkpoint s);
  read_after := memory_read_after;
  checkpoint := memory_checkpoint }.

(** ** The contract of the store *)
Definition memory_view (s : MemoryState) : StoreView :=
  mkView (λ k, default [] (ms_streams s !! k)) (λ k, ms_snapshots s !! k)
    (λ k, ms_idempotency s !! k) (λ k, ms_authorization_audits s !! k).

Lemma u64_succ_Ok {E} n m : u64_succ (E:=E) n = Ok m ↔ (m = n + 1 ∧ n < u64_max)%N.
Proof.
  unfold u64_succ. destruct (checked_add _ _ _) as [k|] eqn:Hk.
  - apply checked_add_Some in Hk. split; [intros [= ->]; lia|]. intros [-> ?]. f_equal. lia.
  - split; [done|]. intros [-> ?]. assert (checked_add u64_max n 1 = Some (n + 1)%N) as Hs
      by (apply checked_add_Some; lia). congruence.
Qed.

Lemma gap_after_false previous events :
  gap_after previous events = Ok false → contiguous_from (previous + 1) events.
Proof.
  revert previous. induction events as [|e events IH]; intros previous Hgap; simpl in *; [done|].
  apply bind_Ok in Hgap as (next & Hnext & Hgap). apply u64_succ_Ok in Hnext as [-> ?].
  destruct (N.eqb_spec (em_sequence (ee_metadata e)) (previous + 1)) as [->|]; [|done].
  split; [done|]. by apply IH.
Qed.

Lemma audit_valid request :
  validate_authorization_audit request = Ok tt →
  Forall (λ e, audit_covers_event (cq_authorization_audit request) e = true) (cq_events request) ∧
  au_tenant_id (cq_authorization_audit request) = cq_tenant_id request ∧
  au_actor_id (cq_authorization_audit request) = cq_actor_id request ∧
  au_command_id (cq_authorization_audit request) = cq_command_id request.
Proof.
  unfold validate_authorization_audit. rewrite bail_if_Ok, !orb_false_iff, !bool_decide_eq_false.
  intros (((((((((Htenant & Hactor) & Hcommand) & _) & _) & _) & _) & _) & _) & Hevents).
  split_and!; [|by apply dec_stable..]. apply Forall_forall. intros e He.
  destruct (audit_covers_event _ _) eqn:Hcover; [done|]. exfalso.
  assert (existsb (λ e, negb (audit_covers_event (cq_authorization_audit request) e))
    (cq_events request) = true) as Hex.
  { apply existsb_exists. exists e. split; [by apply list_elem_of_In|by rewrite Hcover]. }
  congruence.
Qed.

Section contract.
Context (encode_to_vec : Wire.EventEnvelope → string).
#[local] Instance memory_port_here : WorkflowStorePort MemoryState := memory_port encode_to_vec.

(** What a call of [commit] does: append everything; answer a duplicate; or
    fail, at most with an empty stream created. *)
Lemma memory_commit_cases request s s' r :
  memory_commit encode_to_vec request s = (s', r) →
  match r with
  | Ok (Committed result) =>
      ∃ tail records,
        validate_authorization_audit request = Ok tt ∧
        ms_idempotency s !! idempotency_scope request = None ∧
        ms_authorization_audits s !! audit_key request = None ∧
        u64_of_usize (length (ms_outbox s)) = Some tail ∧
        outbox_records encode_to_vec request tail 0 (cq_events request) = Ok records ∧
        cq_expected_version request =
          N.of_nat (length (default [] (ms_streams s !! stream_key request))) ∧
        contiguous_from (cq_expected_version request + 1) (cq_events request) ∧
        result = cq_result request ∧ s' = memory_append request records s
  | Ok (Duplicate result) =>
      ms_idempotency s !! idempotency_scope request = Some (mkStored (cq_command_id request) result)
      ∧ s' = s
  | _ => s' = s ∨ s' = with_streams <[stream_key request :=
                         default [] (ms_streams s !! stream_key request)]> s
  end.
Proof.
  unfold memory_commit. intros H. rewrite lift_then in H.
  destruct (validate_authorization_audit request) as [[]|e|p] eqn:Haudit; [|by simplify_eq; auto..].
  rewrite self_then in H. destruct (ms_idempotency s !! _) as [[command stored]|] eqn:Hid.
  { simpl in H. case_decide as Hcmd; injection H as <- <-; [|by auto]. by rewrite <-Hcmd. }
  rewrite bail_if_then in H. destruct (is_some _) eqn:Hnew; [by simplify_eq; auto|].
  apply is_some_false in Hnew.
  rewrite bail_if_then in H. destruct (invalid_snapshot request); [by simplify_eq; auto|].
  rewrite ok_or_then in H. destruct (u64_of_usize (length (ms_outbox s))) as [tail|] eqn:Htail;
    [|by simplify_eq; auto].
  rewrite lift_then in H. destruct (outbox_records _ _ _ _ _) as [records|e|p] eqn:Hrec;
    [|by simplify_eq; auto..].
  rewrite set_self_then, ok_or_then in H.
  destruct (u64_of_usize (length (default [] _))) as [actual|] eqn:Hactual; [|by simplify_eq; auto].
  apply u64_of_usize_Some in Hactual as [-> _].
  rewrite bail_if_then in H. destruct (N.eqb_spec (N.of_nat (length
    (default [] (ms_streams s !! stream_key request)))) (cq_expected_version request))
    as [Hver|Hver]; simpl in H; [|by simplify_eq; auto].
  rewrite lift_then in H. destruct (gap_after _ _) as [[]|e|p] eqn:Hgap;
    rewrite ?bail_if_then in H; [by simplify_eq; auto| |by simplify_eq; auto..].
  apply gap_after_false in Hgap. rewrite Hver in Hgap. injection H as <- <-.
  exists tail, records. by split_and!.
Qed.

Lemma gap_after_no_panic previous events m :
  (previous + N.of_nat (length events) ≤ u64_max)%N → gap_after previous events ≠ Panic m.
Proof.
  revert previous. induction events as [|e events IH]; intros previous Hmax; simpl in *; [done|].
  rewrite (proj2 (u64_succ_Ok previous (previous + 1))) by lia. simpl.
  destruct (_ =? _)%N; [|done]. apply IH. lia.
Qed.

Lemma outbox_records_no_panic request tail i events m :
  outbox_records encode_to_vec request tail i events ≠ Panic m.
Proof.
  revert i. induction events as [|e events IH]; intros i; simpl; [done|].
  intros H. no_panic H.
Qed.

(** A commit within the range of [u64] does not panic. *)
Lemma memory_commit_no_panic request s s' m :
  (cq_expected_version request + N.of_nat (length (cq_events request)) ≤ u64_max)%N →
  memory_commit encode_to_vec request s ≠ (s', Panic m).
Proof.
  intros Hmax H. unfold memory_commit in H. rewrite lift_then in H.
  destruct (validate_authorization_audit request) as [[]| |] eqn:Haudit; [|done|].
  2: { apply bail_if_Panic in Haudit. done. }
  rewrite self_then in H. destruct (ms_idempotency s !! _) as [stored|]; [by case_decide|].
  rewrite bail_if_then in H. destruct (is_some _); [done|].
  rewrite bail_if_then in H. destruct (invalid_snapshot request); [done|].
  rewrite ok_or_then in H. destruct (u64_of_usize (length (ms_outbox s))) as [tail|]; [|done].
  rewrite lift_then in H. destruct (outbox_records _ _ _ _ _) as [records| |] eqn:Hrec; [|done|].
  2: { by apply outbox_records_no_panic in Hrec. }
  rewrite set_self_then, ok_or_then in H.
  destruct (u64_of_usize (length (default [] _))) as [actual|]; [|done].
  rewrite bail_if_then in H. destruct (N.eqb_spec actual (cq_expected_version request)) as [Hver|];
    simpl in H; [|done].
  rewrite lift_then in H. destruct (gap_after _ _) as [gap| |] eqn:Hgap.
  - rewrite bail_if_then in H. by destruct gap.
  - done.
  - apply gap_after_no_panic in Hgap; [done|]. by rewrite Hver.
Qed.

Lemma view_touch k s :
  memory_view (with_streams <[k := default [] (ms_streams s !! k)]> s) ≡ memory_view s.
Proof.
  split_and!; intros k'; try done. simpl. destruct (decide (k' = k)) as [->|Hk].
  - by rewrite lookup_insert_eq.
  - by rewrite lookup_insert_ne.
Qed.

Lemma view_memory_append request records s :
  memory_view (memory_append request records s) ≡ view_append (memory_view s) request.
Proof.
  split_and!; intros k; simpl.
  - unfold set_at. case_decide as Hk; [subst; by rewrite lookup_insert_eq|].
    by rewrite lookup_insert_ne.
  - destruct (cq_snapshot request); [|done]. unfold set_at.
    case_decide as Hk; [subst; by rewrite lookup_insert_eq|]. by rewrite lookup_insert_ne.
  - unfold set_at. case_decide as Hk; [subst; by rewrite lookup_insert_eq|].
    by rewrite lookup_insert_ne.
  - unfold set_at. case_decide as Hk; [subst; by rewrite lookup_insert_eq|].
    by rewrite lookup_insert_ne.
Qed.

#[export] Program Instance memory_lawful : LawfulStore MemoryState := {| view := memory_view |}.
Next Obligation. done. Qed.
Next Obligation.
  intros s tenant instance loaded H. unfold load in H. simpl in H. unfold memory_load in H.
  inv_res H. by match goal with H : u64_of_usize _ = Some _ |- _ => apply u64_of_usize_Some in H as [-> _] end.
Qed.
Next Obligation.
  intros c s s' r H. apply memory_commit_cases in H. destruct r as [[result|result]|e|p].
  - destruct H as (tail & records & Haudit & ? & ? & _ & _ & ? & ? & -> & ->).
    destruct (audit_valid _ Haudit) as [? ?]. split; [by split|]. split; [done|].
    apply view_memory_append.
  - by destruct H as [? ->].
  - destruct H as [->| ->]; [done|apply view_touch].
  - destruct H as [->| ->]; [done|apply view_touch].
Qed.
End contract.

(** ** The contract of the outbox *)
#[global] Program Instance memory_lawful_outbox : LawfulOutbox MemoryState :=
  {| outbox_log := ms_outbox; outbox_cursor := ms_outbox_checkpoint |}.
Next Obligation. by intros s c [= <-]. Qed.
Next Obligation.
  intros s c limit records H. unfold read_after in H. simpl in H. unfold memory_read_after in H.
  by inv_res H.
Qed.
Next Obligation.
  intros expected committed s s' r H. unfold checkpoint in H. simpl in H. unfold memory_checkpoint in H.
  open_method H; try done. apply negb_false_iff, N.eqb_eq in H0.
  apply u64_of_usize_Some in H1 as [-> _]. apply orb_false_iff in H2 as [H2 H3].
  apply N.leb_gt in H2. apply N.ltb_ge in H3. split_and!; [done..|lia|lia].
Qed.

#[global] Program Instance memory_available :
  AvailableOutbox MemoryState (λ s, N.of_nat (length (ms_outbox s)) ≤ u64_max)%N.
Next Obligation. eauto. Qed.
Next Obligation.
  intros s c limit _ Hlimit. unfold read_after. simpl. unfold memory_read_after.
  destruct limit; [done|]. simpl. eauto.
Qed.
Next Obligation.
  intros s committed Hup Hrange. exists (with_checkpoint committed s). split; [|done].
  unfold checkpoint. simpl. unfold memory_checkpoint. rewrite self_then, bail_if_then.
  simpl in Hrange. rewrite N.eqb_refl, ok_or_then. simpl.
  replace (u64_of_usize _) with (Some (N.of_nat (length (ms_outbox s))))
    by (symmetry; by apply u64_of_usize_Some).
  rewrite bail_if_then, (proj2 (N.leb_gt _ _)), (proj2 (N.ltb_ge _ _)) by lia. done.
Qed.

(** ** The outbox holds the streams *)
Definition record_key (r : OutboxRecord) : string * string := (ob_tenant_id r, ob_instance_id r).
Definition records_of (k : string * string) (outbox : list OutboxRecord) : list OutboxRecord :=
  List.filter (λ r, bool_decide (record_key r = k)) outbox.

Section inv.
Context (encode_to_vec : Wire.EventEnvelope → string).

(** The record [r] announces the event [e]. *)
Definition announces (r : OutboxRecord) (e : EventEnvelope) : Prop :=
  ob_event_id r = em_event_id (ee_metadata e) ∧
  ob_payload r = EventCodec_encode encode_to_vec e.

(** The outbox is numbered from one, and the records of an instance announce
    the events of its stream, one each and in order. *)
Record memory_inv (s : MemoryState) : Prop := {
  mi_numbered : numbered_from 1 (ms_outbox s);
  mi_checkpoint : (ms_outbox_checkpoint s ≤ N.of_nat (length (ms_outbox s)))%N;
  mi_streams k : Forall2 announces (records_of k (ms_outbox s)) (default [] (ms_streams s !! k)) }.

Lemma memory_inv_default : memory_inv MemoryState_default.
Proof. split; [done|done|]. intros k. simpl. by rewrite lookup_empty. Qed.

Lemma outbox_records_Ok request tail i events records :
  outbox_records encode_to_vec request tail i events = Ok records →
  numbered_from (tail + N.of_nat i + 1) records ∧
  Forall (λ r, record_key r = stream_key request) records ∧
  Forall2 announces records events.
Proof.
  revert i records. induction events as [|e events IH]; intros i records H; simpl in H.
  - injection H as <-. by split_and!.
  - apply bind_Ok in H as (offset & Ho & H). apply ok_or_Ok, u64_of_usize_Some in Ho as [-> _].
    apply bind_Ok in H as (cursor & Hc & H). apply ok_or_Ok, bind_Some in Hc as (v & Hv & Hc).
    apply checked_add_Some in Hv as [-> _], Hc as [-> _].
    apply bind_Ok in H as (rest & Hrest & [= <-]). apply IH in Hrest as (Hnum & Hkey & Hann).
    split_and!; [|by constructor|by repeat constructor]. split; [done|].
    by replace (tail + N.of_nat i + 1 + 1)%N with (tail + N.of_nat (S i) + 1)%N by lia.
Qed.

(** A commit appends to the outbox. *)
Lemma memory_commit_grows request s s' r :
  memory_commit encode_to_vec request s = (s', r) →
  ms_outbox_checkpoint s' = ms_outbox_checkpoint s ∧
  ∃ new, ms_outbox s' = ms_outbox s ++ new ∧
    numbered_from (N.of_nat (length (ms_outbox s)) + 1) new.
Proof.
  intros H. apply memory_commit_cases in H. destruct r as [[result|result]|e|p].
  - destruct H as (tail & records & _ & _ & _ & Htail & Hrec & _ & _ & _ & ->).
    split; [done|]. exists records. apply outbox_records_Ok in Hrec as (Hnum & _ & _).
    apply u64_of_usize_Some in Htail as [-> _]. by rewrite N.add_0_r in Hnum.
  - destruct H as [_ ->]. split; [done|]. exists []. by rewrite app_nil_r.
  - split; [by destruct H as [->| ->]|]. exists []. rewrite app_nil_r. by destruct H as [->| ->].
  - split; [by destruct H as [->| ->]|]. exists []. rewrite app_nil_r. by destruct H as [->| ->].
Qed.

Lemma memory_inv_append request tail records s :
  memory_inv s → u64_of_usize (length (ms_outbox s)) = Some tail →
  outbox_records encode_to_vec request tail 0 (cq_events request) = Ok records →
  memory_inv (memory_append request records s).
Proof.
  intros [Hnum Hcp Hstreams] [-> _]%u64_of_usize_Some Hrec.
  apply outbox_records_Ok in Hrec as (Hrnum & Hkey & Hann). split; simpl.
  - rewrite numbered_app. split; [done|]. by rewrite (N.add_comm 1), <-(N.add_0_r (N.of_nat _)).
  - rewrite length_app. lia.
  - intros k. unfold records_of. rewrite List.filter_app. fold (records_of k (ms_outbox s)).
    destruct (decide (k = stream_key request)) as [->|Hk].
    + rewrite lookup_insert_eq, filter_all; [by apply Forall2_app|].
      intros r Hr. apply bool_decide_eq_true. rewrite Forall_forall in Hkey. by apply Hkey.
    + rewrite lookup_insert_ne by done. rewrite (filter_none _ records), app_nil_r; [done|].
      intros r Hr. apply bool_decide_eq_false. rewrite Forall_forall in Hkey. by rewrite (Hkey r Hr).
Qed.

Lemma memory_inv_commit request s s' r :
  memory_commit encode_to_vec request s = (s', r) → memory_inv s → memory_inv s'.
Proof.
  intros H HI. apply memory_commit_cases in H.
  assert (memory_inv (with_streams <[stream_key request :=
    default [] (ms_streams s !! stream_key request)]> s)) as Htouch.
  { destruct HI as [Hnum Hcp Hstreams]. split; [done..|]. intros k.
    pose proof (proj1 (view_touch (stream_key request) s) k) as Hview. simpl in *. by rewrite Hview. }
  destruct r as [[result|result]|e|p].
  - destruct H as (tail & records & _ & _ & _ & Htail & Hrec & _ & _ & _ & ->).
    by eapply memory_inv_append.
  - by destruct H as [_ ->].
  - by destruct H as [->| ->].
  - by destruct H as [->| ->].
Qed.

Lemma memory_inv_checkpoint expected committed s s' r :
  memory_checkpoint expected committed s = (s', r) → memory_inv s → memory_inv s'.
Proof.
  intros H [Hnum Hcp Hstreams]. destruct (@checkpoint_law _ _ memory_lawful_outbox expected committed s s' r H) as [Hlog Hr].
  unfold memory_checkpoint in H. open_method H; try done. split; [done| |done]. simpl in *. lia.
Qed.
End inv.
