(* ===== verification/RocksStore.v ===== *)
(** * The durable workflow store

    [RocksDbWorkflowStore] of [crates/bpmp-adapter-rocksdb/src/rocks.rs]: the
    ports of the engine and of the publisher over a database, with every
    payload encrypted; and the two halves of a replicated commit, preparing a
    batch for consensus and interpreting the answer. *)

From S2P Require Import Prelude Bytes RaftBatch StorageKeys Database PayloadCrypto.
From S2P Require Import Types Evolve Outbox Ports Wire EventCodec SnapshotCodec MemoryStore.
From stdpp Require Import options.

(** ** Stored messages *)
Class Message (M : Type) := {
  encode_message : M → string;
  decode_message : string → res string M }.
Class LawfulMessage (M : Type) `{Message M} :=
  decode_encode (m : M) : decode_message (encode_message m) = Ok m.

Definition STORAGE_SCHEMA_VERSION : N := 1.
Record EncryptedEventRecord := mkEventRecord {
  er_storage_schema_version : N;
  er_key_scope : string;
  er_key_version : string;
  er_key_epoch : N;
  er_algorithm : string;
  er_nonce : string;
  er_ciphertext : string }.
Record EncryptedSnapshotRecord := mkEncryptedSnapshot {
  es_storage_schema_version : N;
  es_snapshot_sequence : N;
  es_key_scope : string;
  es_key_version : string;
  es_key_epoch : N;
  es_algorithm : string;
  es_nonce : string;
  es_ciphertext : string }.
Record EncryptedAuthorizationAuditRecord := mkEncryptedAudit {
  ea_storage_schema_version : N;
  ea_key_scope : string;
  ea_key_version : string;
  ea_key_epoch : N;
  ea_algorithm : string;
  ea_nonce : string;
  ea_ciphertext : string }.
Record StoredCommandResult := mkStoredCommand {
  sc_command_id : string;
  sc_version : N;
  sc_event_ids : list string;
  sc_config_version : string;
  sc_policy_version : string }.
Record OutboxEntry := mkOutboxEntry {
  oe_tenant_id : string;
  oe_instance_id : string;
  oe_sequence : N;
  oe_event_id : string;
  oe_outbox_sequence : N }.
(** The allow decision of the authorization contract. *)
Record AuthorizationAuditRecord := mkAuditRecord {
  ar_decision_id : string;
  ar_tenant_id : string;
  ar_actor_id : string;
  ar_workload_id : string;
  ar_action : string;
  ar_resource_ref : string;
  ar_decision_allow : bool;
  ar_deny_reason_code : string;
  ar_policy_version : string;
  ar_revoke_epoch : N;
  ar_occurred_at_epoch_ms : N;
  ar_audit_command_id : string;
  ar_correlation_id : string;
  ar_workflow_type : string;
  ar_workflow_version : string;
  ar_instance_id : string;
  ar_active_node_id : string;
  ar_roles : list string;
  ar_config_version : string;
  ar_bundle_sequence : N;
  ar_matched_grant_ids : list string }.

Definition encrypted_record (payload : EncryptedPayload) : EncryptedEventRecord :=
  mkEventRecord STORAGE_SCHEMA_VERSION (ep_key_scope payload) (ep_key_version payload)
    (ep_key_epoch payload) (ep_algorithm payload) (ep_nonce payload) (ep_ciphertext payload).
Definition command_result (request : CommitRequest) : StoredCommandResult :=
  mkStoredCommand (cq_command_id request) (cr_version (cq_result request))
    (cr_event_ids (cq_result request)) (cr_config_version (cq_result request))
    (cr_policy_version (cq_result request)).
Definition audit_record (audit : AuthorizationAudit) : AuthorizationAuditRecord :=
  mkAuditRecord (au_decision_id audit) (au_tenant_id audit) (au_actor_id audit) (au_workload_id audit)
    (au_action audit) (au_instance_id audit) true "" (au_policy_version audit) (au_revoke_epoch audit)
    (au_occurred_at_epoch_ms audit) (au_command_id audit) (au_correlation_id audit)
    (au_workflow_type audit) (au_workflow_version audit) (au_instance_id audit)
    (au_active_node_id audit) (au_roles audit) (au_config_version audit) (au_bundle_sequence audit)
    (au_matched_grant_ids audit).

Definition map_runtime_payload_read_error (payload : EncryptedPayload) (error : CryptoError) :
    StoreError :=
  match error with
  | KeyRevoked => Store_DataUnavailableForCompliance (ep_key_scope payload) (ep_key_version payload)
                    (ep_key_epoch payload)
  | _ => CryptoUnavailable
  end.

Definition decode_u64_value (value : option string) : res string N :=
  match value with
  | None => Ok 0%N
  | Some bytes => ok_or (u64_from_be bytes) "invalid durable u64 value"
  end.

(** [validate_sequences] *)
Definition validate_sequences (request : CommitRequest) : res StoreError unit :=
  gap ← gap_after (cq_expected_version request) (cq_events request);
  bail_if (gap || existsb (λ event,
      bool_decide (em_tenant_id (ee_metadata event) ≠ cq_tenant_id request)
      || bool_decide (em_instance_id (ee_metadata event) ≠ cq_instance_id request))
      (cq_events request)) NonContiguousSequence;;
  bail_if (invalid_snapshot request) InvalidSnapshot.

Inductive WorkflowCommitPreparation :=
| AlreadyCommitted (result : CommittedResult)
| Proposal (batch : PreparedAtomicBatch).

Section store.
Context {D : Type} `{!Database D} {C : Type} `{!PayloadCryptoPort C}.
Context `{!Message EncryptedEventRecord, !Message EncryptedSnapshotRecord,
  !Message EncryptedAuthorizationAuditRecord, !Message StoredCommandResult, !Message OutboxEntry,
  !Message AuthorizationAuditRecord}.
Context (encode_event : Wire.EventEnvelope → string)
  (decode_event : string → Wire.EventEnvelope + string)
  (encode_snapshot : Wire.WorkflowSnapshot → string)
  (decode_snapshot : string → Wire.WorkflowSnapshot + string).
(** The texts of errors *)
Context (event_error : EventCodecError → string) (snapshot_error : SnapshotCodecError → string)
  (identifier_error : string → string) (store_error : StoreError → string).
Context (sha256 : string → ValueDigest).
(** The fields [crypto] and [max_replay_events] *)
Context (crypto : C) (max_replay_events : nat).

(** ** Reading *)
Definition store_cf (d : D) (name : string) : res StoreError unit :=
  bail_if (negb (db_has_family d name)) (Store_Unavailable ("missing RocksDB column family " +:+ name)).
Definition store_get (d : D) (key : StorageKey) : res StoreError (option string) :=
  store_cf d key.1;; map_err Store_Unavailable (db_get d key).

Definition read_version (d : D) (tenant instance : string) : res StoreError N :=
  value ← store_get d (STREAM_META_CF, stream_meta_key tenant instance);
  match value with
  | None => Ok 0%N
  | Some bytes => ok_or (u64_from_be bytes) (CorruptData "invalid stream version")
  end.
Definition read_u64_value (d : D) (key : StorageKey) : res StoreError N :=
  value ← store_get d key;
  map_err CorruptData (decode_u64_value value).

(** [ConfigVersion::new], [PolicyVersion::new], [KeyScope::new] *)
Definition stored_identifier (type_name value : string) : res StoreError string :=
  bail_if (is_blank value) (CorruptData (identifier_error type_name));; Ok value.

Definition stored_result (stored : StoredCommandResult) : res StoreError CommittedResult :=
  config_version ← stored_identifier "ConfigVersion" (sc_config_version stored);
  policy_version ← stored_identifier "PolicyVersion" (sc_policy_version stored);
  Ok (mkCommitted (sc_version stored) (sc_event_ids stored) config_version policy_version).

Definition load_result (d : D) (tenant_id actor_id idempotency_key command_id : string) :
    res StoreError (option CommittedResult) :=
  bytes ← store_get d (IDEMPOTENCY_CF, idempotency_storage_key tenant_id actor_id idempotency_key);
  match bytes with
  | None => Ok None
  | Some bytes =>
      stored ← map_err CorruptData (decode_message bytes);
      bail_if (bool_decide (sc_command_id stored ≠ command_id)) IdempotencyConflict;;
      result ← stored_result stored;
      Ok (Some result)
  end.

Definition encrypted_payload (record : EncryptedEventRecord) : res StoreError EncryptedPayload :=
  bail_if (negb (er_storage_schema_version record =? STORAGE_SCHEMA_VERSION)%N)
    (CorruptData "unsupported storage schema version");;
  key_scope ← stored_identifier "KeyScope" (er_key_scope record);
  Ok (mkPayload key_scope (er_key_version record) (er_key_epoch record) (er_algorithm record)
        (er_nonce record) (er_ciphertext record)).

Definition load_snapshot (d : D) (tenant_id instance_id : string) :
    res StoreError (option SnapshotEnvelope) :=
  let key := snapshot_storage_key tenant_id instance_id in
  bytes ← store_get d (SNAPSHOTS_CF, key);
  match bytes with
  | None => Ok None
  | Some bytes =>
      record ← map_err CorruptData (decode_message bytes);
      bail_if (negb (es_storage_schema_version record =? STORAGE_SCHEMA_VERSION)%N)
        (CorruptData "unsupported snapshot storage schema version");;
      key_scope ← stored_identifier "KeyScope" (es_key_scope record);
      let encrypted := mkPayload key_scope (es_key_version record) (es_key_epoch record)
                         (es_algorithm record) (es_nonce record) (es_ciphertext record) in
      plaintext ← map_err (map_runtime_payload_read_error encrypted) (decrypt crypto key encrypted);
      snapshot ← map_err (λ error, CorruptData (snapshot_error error))
                   (SnapshotCodec_decode decode_snapshot plaintext);
      bail_if (bool_decide (sn_tenant_id snapshot ≠ tenant_id)
               || bool_decide (sn_instance_id snapshot ≠ instance_id)
               || negb (st_sequence (sn_state snapshot) =? es_snapshot_sequence record)%N)
        (CorruptData "snapshot scope or sequence does not match its storage record");;
      Ok (Some snapshot)
  end.

Definition sequence_from_event_key (prefix key : string) : res StoreError N :=
  ok_or (strip_prefix prefix key ≫= u64_from_be) (CorruptData "invalid event storage key").

(** One stored event: decoded, decrypted and checked against its stream. *)
Definition load_event (tenant_id instance_id key value : string) : res StoreError EventEnvelope :=
  record ← map_err CorruptData (decode_message value);
  encrypted ← encrypted_payload record;
  plaintext ← map_err (map_runtime_payload_read_error encrypted) (decrypt crypto key encrypted);
  event ← map_err (λ error, CorruptData (event_error error)) (EventCodec_decode decode_event plaintext);
  bail_if (bool_decide (em_tenant_id (ee_metadata event) ≠ tenant_id)
           || bool_decide (em_instance_id (ee_metadata event) ≠ instance_id))
    (CorruptData "event scope does not match its storage key");;
  Ok event.

(** The loop of [load] over the items of the iteration. *)
Fixpoint load_events (tenant_id instance_id : string) (snapshot_sequence : N)
    (items : list (res string (string * string))) (events : list EventEnvelope) :
    res StoreError (list EventEnvelope) :=
  match items with
  | [] => Ok events
  | item :: items =>
      '(key, value) ← map_err Store_Unavailable item;
      let prefix := stream_prefix tenant_id instance_id in
      if negb (starts_with prefix key) then Ok events else
      sequence ← sequence_from_event_key prefix key;
      if (sequence <=? snapshot_sequence)%N
      then load_events tenant_id instance_id snapshot_sequence items events else
      bail_if (length events =? max_replay_events)%nat
        (ReplayLimitExceeded (N.of_nat max_replay_events));;
      event ← load_event tenant_id instance_id key value;
      load_events tenant_id instance_id snapshot_sequence items (events ++ [event])
  end.

Definition rocks_load (d : D) (tenant_id instance_id : string) : res StoreError LoadedInstance :=
  version ← read_version d tenant_id instance_id;
  snapshot ← load_snapshot d tenant_id instance_id;
  let snapshot_sequence := snapshot_sequence snapshot in
  bail_if (version <? snapshot_sequence)%N (CorruptData "snapshot sequence exceeds stream version");;
  store_cf d EVENTS_CF;;
  events ← load_events tenant_id instance_id snapshot_sequence
             (db_iterator d EVENTS_CF (stream_prefix tenant_id instance_id)) [];
  count ← ok_or (u64_of_usize (length events))
            (CorruptData ("event count cannot fit stream version: " +:+ conversion_error));
  replayed_version ← ok_or (checked_add u64_max snapshot_sequence count)
                       (CorruptData "stream version overflow");
  bail_if (negb (replayed_version =? version)%N)
    (CorruptData "stream metadata version does not match snapshot and tail events");;
  Ok (mkLoaded snapshot events version).

(** ** Encrypting a commit *)
Definition crypto_unavailable (error : CryptoError) : StoreError := CryptoUnavailable.

(** [prepare_encrypted_events]; [n] numbers the calls of the cipher. *)
Fixpoint prepare_encrypted_events (request : CommitRequest) (n : nat) (events : list EventEnvelope) :
    res StoreError (list (EventEnvelope * EncryptedEventRecord * string)) :=
  match events with
  | [] => Ok []
  | event :: events =>
      let key := event_storage_key (cq_tenant_id request) (cq_instance_id request)
                   (em_sequence (ee_metadata event)) in
      encrypted ← map_err crypto_unavailable
        (encrypt crypto n (em_encryption_key_scope (ee_metadata event)) key
           (EventCodec_encode encode_event event));
      rest ← prepare_encrypted_events request (S n) events;
      Ok ((event, encrypted_record encrypted, key) :: rest)
  end.

Definition prepare_encrypted_snapshot (request : CommitRequest) (n : nat) :
    res StoreError (option (string * EncryptedSnapshotRecord)) :=
  match cq_snapshot request with
  | None => Ok None
  | Some snapshot =>
      let key := snapshot_storage_key (cq_tenant_id request) (cq_instance_id request) in
      encrypted ← map_err crypto_unavailable
        (encrypt crypto n (sn_encryption_key_scope snapshot) key
           (SnapshotCodec_encode encode_snapshot snapshot));
      Ok (Some (key, mkEncryptedSnapshot STORAGE_SCHEMA_VERSION (st_sequence (sn_state snapshot))
        (ep_key_scope encrypted) (ep_key_version encrypted) (ep_key_epoch encrypted)
        (ep_algorithm encrypted) (ep_nonce encrypted) (ep_ciphertext encrypted)))
  end.

Definition prepare_encrypted_authorization_audit (request : CommitRequest) (n : nat) :
    res StoreError (string * EncryptedAuthorizationAuditRecord) :=
  let audit := cq_authorization_audit request in
  let key := authorization_audit_storage_key (au_tenant_id audit) (au_command_id audit) in
  encrypted ← map_err crypto_unavailable
    (encrypt crypto n (au_encryption_key_scope audit) key (encode_message (audit_record audit)));
  Ok (key, mkEncryptedAudit STORAGE_SCHEMA_VERSION (ep_key_scope encrypted) (ep_key_version encrypted)
    (ep_key_epoch encrypted) (ep_algorithm encrypted) (ep_nonce encrypted) (ep_ciphertext encrypted)).

(** The three calls in order, on distinct draws of the cipher. *)
Definition prepare_request (request : CommitRequest) :
    res StoreError (list (EventEnvelope * EncryptedEventRecord * string)
                    * option (string * EncryptedSnapshotRecord)
                    * (string * EncryptedAuthorizationAuditRecord)) :=
  events ← prepare_encrypted_events request 0 (cq_events request);
  snapshot ← prepare_encrypted_snapshot request (length (cq_events request));
  audit ← prepare_encrypted_authorization_audit request (S (length (cq_events request)));
  Ok (events, snapshot, audit).

(** ** Committing locally *)
Definition outbox_entry (request : CommitRequest) (event : EventEnvelope) (outbox_sequence : N) :
    OutboxEntry :=
  mkOutboxEntry (cq_tenant_id request) (cq_instance_id request) (em_sequence (ee_metadata event))
    (em_event_id (ee_metadata event)) outbox_sequence.
Definition put_cf (d : D) (family key value : string) : res StoreError Mutation :=
  store_cf d family;; Ok (Put (family, key) value).

(** The loop of [build_commit_batch]: the tail after the events, and the writes. *)
Fixpoint commit_events (d : D) (request : CommitRequest) (outbox_sequence : N)
    (prepared : list (EventEnvelope * EncryptedEventRecord * string)) :
    res StoreError (N * list Mutation) :=
  match prepared with
  | [] => Ok (outbox_sequence, [])
  | (event, record, event_key) :: prepared =>
      let dedup_key := dedup_storage_key (cq_tenant_id request) (em_event_id (ee_metadata event)) in
      known ← store_get d (DEDUP_CF, dedup_key);
      bail_if (is_some known) DuplicateEvent;;
      put_event ← put_cf d EVENTS_CF event_key (encode_message record);
      put_dedup ← put_cf d DEDUP_CF dedup_key "";
      outbox_sequence ← ok_or (checked_add u64_max outbox_sequence 1)
                          (Store_Unavailable "outbox sequence overflow");
      put_outbox ← put_cf d OUTBOX_CF (be_bytes 8 outbox_sequence)
                     (encode_message (outbox_entry request event outbox_sequence));
      '(tail, writes) ← commit_events d request outbox_sequence prepared;
      Ok (tail, put_event :: put_dedup :: put_outbox :: writes)
  end.

Definition build_commit_batch (d : D) (request : CommitRequest)
    (prepared_events : list (EventEnvelope * EncryptedEventRecord * string))
    (prepared_snapshot : option (string * EncryptedSnapshotRecord))
    (prepared_audit : string * EncryptedAuthorizationAuditRecord) (outbox_tail : N) :
    res StoreError (list Mutation) :=
  audited ← store_get d (AUTHORIZATION_AUDIT_CF, prepared_audit.1);
  bail_if (is_some audited) InvalidAuthorizationAudit;;
  '(tail, event_writes) ← commit_events d request outbox_tail prepared_events;
  put_tail ← put_cf d OUTBOX_META_CF OUTBOX_TAIL_KEY (be_bytes 8 tail);
  put_snapshot ← match prepared_snapshot with
                 | Some (snapshot_key, snapshot) =>
                     put ← put_cf d SNAPSHOTS_CF snapshot_key (encode_message snapshot); Ok [put]
                 | None => Ok []
                 end;
  put_meta ← put_cf d STREAM_META_CF (stream_meta_key (cq_tenant_id request) (cq_instance_id request))
               (be_bytes 8 (cr_version (cq_result request)));
  put_result ← put_cf d IDEMPOTENCY_CF
                 (idempotency_storage_key (cq_tenant_id request) (cq_actor_id request)
                    (cq_idempotency_key request))
                 (encode_message (command_result request));
  put_audit ← put_cf d AUTHORIZATION_AUDIT_CF prepared_audit.1 (encode_message prepared_audit.2);
  Ok (event_writes ++ put_tail :: put_snapshot ++ [put_meta; put_result; put_audit]).

(** [write_opt] with a synchronous log *)
Definition write_batch (batch : list Mutation) : method D StoreError unit := λ d,
  let '(d', r) := db_write batch d in (d', map_err Store_Unavailable r).

Definition rocks_commit (request : CommitRequest) : method D StoreError CommitOutcome :=
  lift (validate_authorization_audit request);;
  lift (validate_sequences request);;
  '(prepared, prepared_snapshot, prepared_audit) ← lift (prepare_request request);
  d ← self;
  earlier ← lift (load_result d (cq_tenant_id request) (cq_actor_id request)
                    (cq_idempotency_key request) (cq_command_id request));
  match earlier with
  | Some result =>
      audited ← lift (store_get d (AUTHORIZATION_AUDIT_CF,
                        authorization_audit_storage_key (cq_tenant_id request) (cq_command_id request)));
      lift (bail_if (negb (is_some audited))
        (CorruptData "idempotency result exists without authorization audit"));;
      mret (Duplicate result)
  | None =>
      actual ← lift (read_version d (cq_tenant_id request) (cq_instance_id request));
      lift (bail_if (negb (actual =? cq_expected_version request)%N)
        (VersionConflict (cq_expected_version request) actual));;
      outbox_tail ← lift (read_u64_value d (OUTBOX_META_CF, OUTBOX_TAIL_KEY));
      batch ← lift (build_commit_batch d request prepared prepared_snapshot prepared_audit outbox_tail);
      write_batch batch;;
      mret (Committed (cq_result request))
  end.

(** ** Committing through consensus *)
Definition missing (family key : string) : Precondition :=
  mkPrecondition (family, key) ExpectedMissing.
(** [add_current_value_precondition] *)
Definition current (family key : string) (value : option string) : Precondition :=
  mkPrecondition (family, key)
    (match value with Some value => ExpectedDigest (value_digest sha256 value) | None => ExpectedMissing end).
(** [add_current_db_precondition] *)
Definition current_db (d : D) (family key : string) : res StoreError Precondition :=
  value ← store_get d (family, key);
  Ok (current family key value).

(** The loop of [build_prepared_workflow_batch]. *)
Fixpoint prepare_events (request : CommitRequest) (event_ids : gset string) (outbox_sequence : N)
    (prepared : list (EventEnvelope * EncryptedEventRecord * string)) :
    res StoreError (N * list Precondition * list Mutation) :=
  match prepared with
  | [] => Ok (outbox_sequence, [], [])
  | (event, record, event_key) :: prepared =>
      let event_id := em_event_id (ee_metadata event) in
      bail_if (bool_decide (event_id ∈ event_ids)) DuplicateEvent;;
      let dedup_key := dedup_storage_key (cq_tenant_id request) event_id in
      outbox_sequence ← ok_or (checked_add u64_max outbox_sequence 1)
                          (Store_Unavailable "outbox sequence overflow");
      let outbox_key := be_bytes 8 outbox_sequence in
      '(tail, preconditions, mutations) ←
        prepare_events request ({[event_id]} ∪ event_ids) outbox_sequence prepared;
      Ok (tail,
          missing EVENTS_CF event_key :: missing DEDUP_CF dedup_key :: missing OUTBOX_CF outbox_key
            :: preconditions,
          Put (EVENTS_CF, event_key) (encode_message record)
            :: Put (DEDUP_CF, dedup_key) ""
            :: Put (OUTBOX_CF, outbox_key) (encode_message (outbox_entry request event outbox_sequence))
            :: mutations)
  end.

Definition build_prepared_workflow_batch (d : D) (request : CommitRequest)
    (prepared_events : list (EventEnvelope * EncryptedEventRecord * string))
    (prepared_snapshot : option (string * EncryptedSnapshotRecord))
    (prepared_audit : string * EncryptedAuthorizationAuditRecord) : res StoreError PreparedAtomicBatch :=
  let idempotency_key := idempotency_storage_key (cq_tenant_id request) (cq_actor_id request)
                           (cq_idempotency_key request) in
  let stream_key := stream_meta_key (cq_tenant_id request) (cq_instance_id request) in
  let version_condition := current STREAM_META_CF stream_key
    (if (0 <? cq_expected_version request)%N then Some (be_bytes 8 (cq_expected_version request))
     else None) in
  tail_condition ← current_db d OUTBOX_META_CF OUTBOX_TAIL_KEY;
  snapshot_conditions ← match prepared_snapshot with
                        | Some (snapshot_key, _) =>
                            condition ← current_db d SNAPSHOTS_CF snapshot_key; Ok [condition]
                        | None => Ok []
                        end;
  outbox_sequence ← read_u64_value d (OUTBOX_META_CF, OUTBOX_TAIL_KEY);
  '(tail, event_conditions, event_mutations) ← prepare_events request ∅ outbox_sequence prepared_events;
  let result := encode_message (command_result request) in
  Ok (PreparedAtomicBatch_new sha256 (cq_command_id request) idempotency_key
    (version_condition :: missing IDEMPOTENCY_CF idempotency_key
       :: missing AUTHORIZATION_AUDIT_CF prepared_audit.1 :: tail_condition
       :: snapshot_conditions ++ event_conditions)
    (event_mutations
       ++ Put (OUTBOX_META_CF, OUTBOX_TAIL_KEY) (be_bytes 8 tail)
       :: (match prepared_snapshot with
           | Some (snapshot_key, snapshot) => [Put (SNAPSHOTS_CF, snapshot_key) (encode_message snapshot)]
           | None => []
           end)
       ++ [Put (STREAM_META_CF, stream_key) (be_bytes 8 (cr_version (cq_result request)));
           Put (IDEMPOTENCY_CF, idempotency_key) result;
           Put (AUTHORIZATION_AUDIT_CF, prepared_audit.1) (encode_message prepared_audit.2)])
    result).

(** The stored result is looked up before the commit lock is taken: [d0] is the
    database then and [d] the one the batch is built on. *)
Definition prepare_workflow_batch (d0 d : D) (request : CommitRequest) :
    res StoreError WorkflowCommitPreparation :=
  validate_authorization_audit request;;
  validate_sequences request;;
  earlier ← load_result d0 (cq_tenant_id request) (cq_actor_id request) (cq_idempotency_key request)
              (cq_command_id request);
  match earlier with
  | Some result => Ok (AlreadyCommitted result)
  | None =>
      '(prepared_events, prepared_snapshot, prepared_audit) ← prepare_request request;
      batch ← build_prepared_workflow_batch d request prepared_events prepared_snapshot prepared_audit;
      Ok (Proposal batch)
  end.

(** [d0] and [d] are the database at the two reads. *)
Definition resolve_workflow_apply (d0 d : D) (request : CommitRequest) (response : ApplyResponse) :
    res StoreError CommitOutcome :=
  bail_if (bool_decide (ar_command_id response ≠ cq_command_id request))
    (CorruptData "Raft response command identity does not match request");;
  let answered (outcome : CommittedResult → CommitOutcome) :=
    stored ← map_err CorruptData (decode_message (ar_response_payload response));
    bail_if (bool_decide (sc_command_id stored ≠ cq_command_id request))
      (CorruptData "Raft response payload command identity does not match request");;
    result ← stored_result stored;
    Ok (outcome result) in
  match ar_outcome response with
  | Applied => answered Committed
  | Apply_Duplicate => answered Duplicate
  | PreconditionFailed _ | Rejected _ =>
      earlier ← load_result d0 (cq_tenant_id request) (cq_actor_id request)
                  (cq_idempotency_key request) (cq_command_id request);
      match earlier with
      | Some result => Ok (Duplicate result)
      | None =>
          actual ← read_version d (cq_tenant_id request) (cq_instance_id request);
          bail_if (negb (actual =? cq_expected_version request)%N)
            (VersionConflict (cq_expected_version request) actual);;
          Err (Store_Unavailable "authoritative workflow precondition failed")
      end
  end.

(** ** The outbox *)
Definition outbox_named_cf (d : D) (name : string) : res OutboxError unit :=
  bail_if (negb (db_has_family d name))
    (Outbox_StoreUnavailable ("missing RocksDB column family " +:+ name)).
Definition outbox_get (d : D) (key : StorageKey) : res OutboxError (option string) :=
  outbox_named_cf d key.1;; map_err Outbox_StoreUnavailable (db_get d key).
Definition read_outbox_u64 (d : D) (key : string) : res OutboxError N :=
  value ← outbox_get d (OUTBOX_META_CF, key);
  map_err Outbox_StoreUnavailable (decode_u64_value value).
Definition decode_outbox_cursor (key : string) : res OutboxError N :=
  ok_or (u64_from_be key) (Outbox_StoreUnavailable "invalid outbox cursor key").
(** [TenantId::new], [InstanceId::new] *)
Definition outbox_identifier (type_name value : string) : res OutboxError string :=
  bail_if (is_blank value) (Outbox_StoreUnavailable (identifier_error type_name));; Ok value.

Definition load_outbox_record (d : D) (entry : OutboxEntry) : res OutboxError OutboxRecord :=
  tenant_id ← outbox_identifier "TenantId" (oe_tenant_id entry);
  instance_id ← outbox_identifier "InstanceId" (oe_instance_id entry);
  let event_key := event_storage_key tenant_id instance_id (oe_sequence entry) in
  value ← outbox_get d (EVENTS_CF, event_key);
  bytes ← ok_or value (Outbox_StoreUnavailable "outbox event is missing");
  record ← map_err Outbox_StoreUnavailable (decode_message bytes);
  encrypted ← map_err (λ error, Outbox_StoreUnavailable (store_error error)) (encrypted_payload record);
  payload ← map_err (λ _, Outbox_StoreUnavailable "outbox event cannot be decrypted")
              (decrypt crypto event_key encrypted);
  event ← map_err (λ error, Outbox_StoreUnavailable (event_error error))
            (EventCodec_decode decode_event payload);
  Ok (mkOutboxRecord (oe_outbox_sequence entry) (oe_tenant_id entry) (oe_instance_id entry)
        (oe_event_id entry) (em_correlation_id (ee_metadata event))
        (em_causation_command_id (ee_metadata event)) payload).

Definition rocks_publisher_checkpoint (d : D) : res OutboxError N :=
  read_outbox_u64 d OUTBOX_CHECKPOINT_KEY.

Fixpoint read_outbox_items (d : D) (cursor : N) (limit : nat)
    (items : list (res string (string * string))) (records : list OutboxRecord) :
    res OutboxError (list OutboxRecord) :=
  match items with
  | [] => Ok records
  | item :: items =>
      if (length records =? limit)%nat then Ok records else
      '(key, value) ← map_err Outbox_StoreUnavailable item;
      stored_cursor ← decode_outbox_cursor key;
      entry ← map_err Outbox_StoreUnavailable (decode_message value);
      bail_if (negb (oe_outbox_sequence entry =? stored_cursor)%N
               || (oe_outbox_sequence entry <=? cursor)%N)
        (Outbox_StoreUnavailable "outbox key and payload sequence mismatch");;
      record ← load_outbox_record d entry;
      read_outbox_items d cursor limit items (records ++ [record])
  end.
Definition rocks_read_after (d : D) (cursor : N) (limit : nat) : res OutboxError (list OutboxRecord) :=
  bail_if (limit =? 0)%nat Outbox_InvalidConfiguration;;
  start ← ok_or (checked_add u64_max cursor 1) (Outbox_StoreUnavailable "outbox cursor overflow");
  outbox_named_cf d OUTBOX_CF;;
  read_outbox_items d cursor limit (db_iterator d OUTBOX_CF (be_bytes 8 start)) [].

Definition put_checkpoint (committed : N) : method D OutboxError unit := λ d,
  let '(d', r) := db_write [Put (OUTBOX_META_CF, OUTBOX_CHECKPOINT_KEY) (be_bytes 8 committed)] d in
  (d', map_err Outbox_StoreUnavailable r).
Definition rocks_checkpoint (expected committed : N) : method D OutboxError unit :=
  d ← self;
  current ← lift (read_outbox_u64 d OUTBOX_CHECKPOINT_KEY);
  tail ← lift (read_outbox_u64 d OUTBOX_TAIL_KEY);
  lift (bail_if (negb (current =? expected)%N) Outbox_CheckpointConflict);;
  lift (bail_if ((committed <=? expected)%N || (tail <? committed)%N)
    (Outbox_StoreUnavailable "outbox checkpoint is outside the committed range"));;
  lift (outbox_named_cf d OUTBOX_META_CF);;
  put_checkpoint committed.

Definition rocks_port : WorkflowStorePort D := {|
  lookup_idempotency := load_result;
  load := rocks_load;
  commit := rocks_commit |}.
Definition rocks_outbox_port : OutboxStorePort D := {|
  publisher_checkpoint := rocks_publisher_checkpoint;
  read_after := rocks_read_after;
  checkpoint := rocks_checkpoint |}.
End store.
