(* ===== verification/RocksSpec.v ===== *)
(** * What the durable store holds

    The records of the database stand for an abstract store: the streams,
    snapshots, results and audits of [Ports.StoreView], the events of the
    outbox in the order of their commits, and the publisher's checkpoint. The
    lemmas relate the reads and the writes of [RocksStore] to it. *)

From S2P Require Import Prelude Bytes RaftBatch StorageKeys Database PayloadCrypto.
From S2P Require Import Types Evolve Outbox Ports EngineSpec Wire EventCodec SnapshotCodec MemoryStore.
From S2P Require Import RocksStore.
From stdpp Require Import options.

(** ** Writes by family *)
Definition puts_of (family : string) (ms : list Mutation) : list (string * string) :=
  omap (λ m, match m with
             | Put (cf, key) value => if bool_decide (cf = family) then Some (key, value) else None
             | Delete _ => None
             end) ms.

Lemma puts_of_app family ms ms' : puts_of family (ms ++ ms') = puts_of family ms ++ puts_of family ms'.
Proof. apply omap_app. Qed.

Lemma puts_of_put family cf key value ms :
  puts_of family (Put (cf, key) value :: ms) =
  (if bool_decide (cf = family) then [(key, value)] else []) ++ puts_of family ms.
Proof. unfold puts_of. simpl. by case_bool_decide. Qed.

Lemma lookup_puts records ms family key :
  Forall (λ m, is_delete m = false) ms →
  foldl apply_mutation_record records ms !! (family, key) =
  btree_extend (family_of records family) (puts_of family ms) !! key.
Proof.
  intros Hms. rewrite <-lookup_family_of. f_equal. apply map_eq. intros k. rewrite lookup_family_of.
  revert records. induction Hms as [|m ms Hm _ IH]; intros records; simpl; [by rewrite lookup_family_of|].
  destruct m as [[cf k'] value|]; [|done]. rewrite IH. simpl.
  case_bool_decide as Hcf; simpl.
  - subst cf. unfold btree_extend at 2. simpl. f_equal. f_equal. apply map_eq. intros j.
    rewrite lookup_family_of, !lookup_insert, lookup_family_of. repeat case_decide; congruence.
  - f_equal. f_equal. apply map_eq. intros j. rewrite !lookup_family_of.
    rewrite lookup_insert_ne by congruence. done.
Qed.

(** ** The abstract store *)
Record RocksGhost := mkGhost {
  gh_view : StoreView;
  gh_outbox : list EventEnvelope;
  gh_checkpoint : N }.

Section spec.
Context {C : Type} `{!PayloadCryptoPort C} `{!LawfulCrypto C}.
Context `{!Message EncryptedEventRecord, !Message EncryptedSnapshotRecord,
  !Message EncryptedAuthorizationAuditRecord, !Message StoredCommandResult, !Message OutboxEntry,
  !Message AuthorizationAuditRecord}.
Context (encode_event : Wire.EventEnvelope → string)
  (decode_event : string → Wire.EventEnvelope + string)
  (encode_snapshot : Wire.WorkflowSnapshot → string)
  (decode_snapshot : string → Wire.WorkflowSnapshot + string).
Implicit Types (records : gmap StorageKey string) (g : RocksGhost) (c : CommitRequest).

(** Values that survive their codec. *)
Definition faithful_event (e : EventEnvelope) : Prop :=
  EventCodec_decode decode_event (EventCodec_encode encode_event e) = Ok e.
Definition faithful_snapshot (s : SnapshotEnvelope) : Prop :=
  SnapshotCodec_decode decode_snapshot (SnapshotCodec_encode encode_snapshot s) = Ok s.

Definition snapshot_record (s : SnapshotEnvelope) (payload : EncryptedPayload) : EncryptedSnapshotRecord :=
  mkEncryptedSnapshot STORAGE_SCHEMA_VERSION (st_sequence (sn_state s)) (ep_key_scope payload)
    (ep_key_version payload) (ep_key_epoch payload) (ep_algorithm payload) (ep_nonce payload)
    (ep_ciphertext payload).

Definition sealed_event (key : string) (e : EventEnvelope) (value : string) : Prop :=
  ∃ payload, value = encode_message (encrypted_record payload) ∧
    seals key payload (EventCodec_encode encode_event e) ∧ faithful_event e.
Definition sealed_snapshot (key : string) (s : SnapshotEnvelope) (value : string) : Prop :=
  ∃ payload, value = encode_message (snapshot_record s payload) ∧
    seals key payload (SnapshotCodec_encode encode_snapshot s) ∧ faithful_snapshot s.
Definition stored_command (stored : StoredResult) : StoredCommandResult :=
  let result := sr_result stored in
  mkStoredCommand (sr_command_id stored) (cr_version result) (cr_event_ids result)
    (cr_config_version result) (cr_policy_version result).
(** The stored entry number [n], counted from 1. *)
Definition event_entry (e : EventEnvelope) (n : N) : OutboxEntry :=
  let m := ee_metadata e in
  mkOutboxEntry (em_tenant_id m) (em_instance_id m) (em_sequence m) (em_event_id m) n.

Record represents records g : Prop := {
  rp_version t i : short t → short i →
    decode_u64_value (records !! (STREAM_META_CF, stream_meta_key t i)) =
    Ok (N.of_nat (length (sv_stream (gh_view g) (t, i))));
  rp_contiguous k : contiguous_from 1 (sv_stream (gh_view g) k);
  rp_bound k : (N.of_nat (length (sv_stream (gh_view g) k)) ≤ u64_max)%N;
  rp_event t i n e : short t → short i → sv_stream (gh_view g) (t, i) !! n = Some e →
    ∃ value, records !! (EVENTS_CF, event_storage_key t i (N.of_nat n + 1)) = Some value ∧
      sealed_event (event_storage_key t i (N.of_nat n + 1)) e value;
  rp_events key value : records !! (EVENTS_CF, key) = Some value →
    ∃ t i n, short t ∧ short i ∧ n < length (sv_stream (gh_view g) (t, i)) ∧
      key = event_storage_key t i (N.of_nat n + 1);
  rp_snapshot t i : short t → short i →
    match records !! (SNAPSHOTS_CF, snapshot_storage_key t i), sv_snapshot (gh_view g) (t, i) with
    | Some value, Some s => sealed_snapshot (snapshot_storage_key t i) s value
    | None, None => True
    | _, _ => False
    end;
  rp_result t a k : short t → short a → short k →
    records !! (IDEMPOTENCY_CF, idempotency_storage_key t a k) =
    (λ stored, encode_message (stored_command stored)) <$> sv_result (gh_view g) (t, a, k);
  rp_audit t cmd : short t → short cmd →
    is_Some (records !! (AUTHORIZATION_AUDIT_CF, authorization_audit_storage_key t cmd)) ↔
    is_Some (sv_audit (gh_view g) (t, cmd));
  rp_tail : decode_u64_value (records !! (OUTBOX_META_CF, OUTBOX_TAIL_KEY)) =
    Ok (N.of_nat (length (gh_outbox g)));
  rp_checkpoint : decode_u64_value (records !! (OUTBOX_META_CF, OUTBOX_CHECKPOINT_KEY)) =
    Ok (gh_checkpoint g);
  rp_outbox_bound : (N.of_nat (length (gh_outbox g)) ≤ u64_max)%N;
  rp_entry n e : gh_outbox g !! n = Some e →
    records !! (OUTBOX_CF, be_bytes 8 (N.of_nat n + 1)) =
      Some (encode_message (event_entry e (N.of_nat n + 1))) ∧
    let k := (em_tenant_id (ee_metadata e), em_instance_id (ee_metadata e)) in
    short k.1 ∧ short k.2 ∧ e ∈ sv_stream (gh_view g) k;
  rp_entries key value : records !! (OUTBOX_CF, key) = Some value →
    ∃ n, n < length (gh_outbox g) ∧ key = be_bytes 8 (N.of_nat n + 1) }.

(** An empty database is an empty store. *)
Definition empty_ghost : RocksGhost :=
  mkGhost (mkView (λ _, []) (λ _, None) (λ _, None) (λ _, None)) [] 0.
Lemma represents_empty : represents ∅ empty_ghost.
Proof.
  split; intros; try done; try (by rewrite lookup_empty); simplify_map_eq.
  simpl. split; by intros [].
Qed.

(** ** Commits *)
(** What the engine's commits satisfy: identifiers shorter than 4 GiB, values
    their codecs preserve, and a result that counts the events. *)
Record commit_ok c : Prop := {
  ck_small : small (cq_tenant_id c);
  ck_tenant : short (cq_tenant_id c);
  ck_instance : short (cq_instance_id c);
  ck_actor : short (cq_actor_id c);
  ck_key : short (cq_idempotency_key c);
  ck_command : short (cq_command_id c);
  ck_events : Forall faithful_event (cq_events c);
  ck_snapshot s : cq_snapshot c = Some s → faithful_snapshot s;
  ck_version : cr_version (cq_result c) =
    (cq_expected_version c + N.of_nat (length (cq_events c)))%N;
  ck_bound : (cr_version (cq_result c) ≤ u64_max)%N }.

Definition ghost_append g c : RocksGhost :=
  mkGhost (view_append (gh_view g) c) (gh_outbox g ++ cq_events c) (gh_checkpoint g).

(** The events of a commit belong to its stream. *)
Definition events_scoped c : Prop :=
  Forall (λ e, em_tenant_id (ee_metadata e) = cq_tenant_id c ∧
               em_instance_id (ee_metadata e) = cq_instance_id c) (cq_events c).

Abbreviation prepared_event := (EventEnvelope * EncryptedEventRecord * string)%type.
Definition commit_event_key c (e : EventEnvelope) : string :=
  event_storage_key (cq_tenant_id c) (cq_instance_id c) (em_sequence (ee_metadata e)).
(** The encrypted events of a commit. *)
Definition event_prepared c (e : EventEnvelope) (p : prepared_event) : Prop :=
  ∃ payload, p = (e, encrypted_record payload, commit_event_key c e) ∧
    seals (commit_event_key c e) payload (EventCodec_encode encode_event e).
Definition snapshot_prepared c (p : option (string * EncryptedSnapshotRecord)) : Prop :=
  match cq_snapshot c, p with
  | Some s, Some (key, record) =>
      key = snapshot_storage_key (cq_tenant_id c) (cq_instance_id c) ∧
      ∃ payload, record = snapshot_record s payload ∧
        seals key payload (SnapshotCodec_encode encode_snapshot s)
  | None, None => True
  | _, _ => False
  end.

Fixpoint event_writes c (tail : N) (prepared : list prepared_event) : list Mutation :=
  match prepared with
  | [] => []
  | (e, record, key) :: prepared =>
      Put (EVENTS_CF, key) (encode_message record)
      :: Put (DEDUP_CF, dedup_storage_key (cq_tenant_id c) (em_event_id (ee_metadata e))) ""
      :: Put (OUTBOX_CF, be_bytes 8 (tail + 1)) (encode_message (outbox_entry c e (tail + 1)))
      :: event_writes c (tail + 1) prepared
  end.
Definition commit_writes c (prepared : list prepared_event)
    (snapshot : option (string * EncryptedSnapshotRecord))
    (audit : string * EncryptedAuthorizationAuditRecord) (tail : N) : list Mutation :=
  event_writes c tail prepared
  ++ Put (OUTBOX_META_CF, OUTBOX_TAIL_KEY) (be_bytes 8 (tail + N.of_nat (length prepared)))
  :: (match snapshot with
      | Some (key, record) => [Put (SNAPSHOTS_CF, key) (encode_message record)]
      | None => []
      end)
  ++ [Put (STREAM_META_CF, stream_meta_key (cq_tenant_id c) (cq_instance_id c))
        (be_bytes 8 (cr_version (cq_result c)));
      Put (IDEMPOTENCY_CF, idempotency_storage_key (cq_tenant_id c) (cq_actor_id c)
        (cq_idempotency_key c)) (encode_message (command_result c));
      Put (AUTHORIZATION_AUDIT_CF, audit.1) (encode_message audit.2)].

(** *** The writes of each family *)
Fixpoint outbox_puts c (tail : N) (prepared : list prepared_event) : list (string * string) :=
  match prepared with
  | [] => []
  | (e, _, _) :: prepared =>
      (be_bytes 8 (tail + 1), encode_message (outbox_entry c e (tail + 1)))
      :: outbox_puts c (tail + 1) prepared
  end.
Definition event_puts (prepared : list prepared_event) : list (string * string) :=
  (λ p, (p.2, encode_message p.1.2)) <$> prepared.

Lemma event_writes_puts c tail prepared family :
  puts_of family (event_writes c tail prepared) =
  if bool_decide (family = EVENTS_CF) then event_puts prepared
  else if bool_decide (family = OUTBOX_CF) then outbox_puts c tail prepared
  else if bool_decide (family = DEDUP_CF)
  then (λ p : prepared_event,
          (dedup_storage_key (cq_tenant_id c) (em_event_id (ee_metadata p.1.1)), "")) <$> prepared
  else [].
Proof using.
  revert tail. induction prepared as [|[[e record] key] prepared IH]; intros tail; cbn.
  { by repeat case_bool_decide. }
  unfold puts_of in IH. rewrite IH. clear IH.
  repeat (case_bool_decide; simplify_eq); done.
Qed.

Lemma commit_writes_put c prepared snapshot audit tail :
  Forall (λ m, is_delete m = false) (commit_writes c prepared snapshot audit tail).
Proof using.
  unfold commit_writes. apply Forall_app. split.
  - revert tail. induction prepared as [|[[e record] key] prepared IH]; intros tail; cbn; [constructor|].
    by repeat constructor.
  - constructor; [done|]. apply Forall_app. split; [destruct snapshot as [[]|]; by repeat constructor|].
    by repeat constructor.
Qed.

Lemma commit_puts c prepared snapshot audit tail family :
  puts_of family (commit_writes c prepared snapshot audit tail) =
  puts_of family (event_writes c tail prepared)
  ++ (if bool_decide (OUTBOX_META_CF = family)
      then [(OUTBOX_TAIL_KEY, be_bytes 8 (tail + N.of_nat (length prepared)))] else [])
  ++ (match snapshot with
      | Some (k, record) => if bool_decide (SNAPSHOTS_CF = family) then [(k, encode_message record)] else []
      | None => []
      end)
  ++ (if bool_decide (STREAM_META_CF = family)
      then [(stream_meta_key (cq_tenant_id c) (cq_instance_id c), be_bytes 8 (cr_version (cq_result c)))]
      else [])
  ++ (if bool_decide (IDEMPOTENCY_CF = family)
      then [(idempotency_storage_key (cq_tenant_id c) (cq_actor_id c) (cq_idempotency_key c),
             encode_message (command_result c))] else [])
  ++ (if bool_decide (AUTHORIZATION_AUDIT_CF = family) then [(audit.1, encode_message audit.2)] else []).
Proof using.
  unfold commit_writes. rewrite puts_of_app, puts_of_put, puts_of_app, !puts_of_put.
  change (puts_of family []) with (@nil (string * string)). rewrite app_nil_r.
  destruct snapshot as [[k record]|]; [|done]. rewrite puts_of_put.
  change (puts_of family []) with (@nil (string * string)). by rewrite app_nil_r.
Qed.

Lemma commit_puts_one c prepared snapshot audit tail :
  let puts family := puts_of family (commit_writes c prepared snapshot audit tail) in
  puts STREAM_META_CF = [(stream_meta_key (cq_tenant_id c) (cq_instance_id c),
                          be_bytes 8 (cr_version (cq_result c)))] ∧
  puts IDEMPOTENCY_CF = [(idempotency_storage_key (cq_tenant_id c) (cq_actor_id c)
                            (cq_idempotency_key c), encode_message (command_result c))] ∧
  puts AUTHORIZATION_AUDIT_CF = [(audit.1, encode_message audit.2)] ∧
  puts OUTBOX_META_CF = [(OUTBOX_TAIL_KEY, be_bytes 8 (tail + N.of_nat (length prepared)))] ∧
  puts SNAPSHOTS_CF = (match snapshot with
                       | Some (k, record) => [(k, encode_message record)]
                       | None => []
                       end) ∧
  puts EVENTS_CF = event_puts prepared ∧
  puts OUTBOX_CF = outbox_puts c tail prepared.
Proof using.
  intros puts. subst puts. cbv beta. rewrite !commit_puts, !event_writes_puts.
  repeat first [rewrite bool_decide_true by done|rewrite bool_decide_false by done].
  destruct snapshot as [[k record]|]; rewrite ?app_nil_r; by split_and!.
Qed.

Lemma outbox_puts_lookup c tail prepared j :
  outbox_puts c tail prepared !! j =
  (λ p : prepared_event, let n := (tail + N.of_nat j + 1)%N in
     (be_bytes 8 n, encode_message (outbox_entry c p.1.1 n))) <$> prepared !! j.
Proof using.
  revert tail j. induction prepared as [|[[e record] key] prepared IH]; intros tail [|j];
    cbn [outbox_puts lookup list_lookup fmap option_fmap option_map]; [done|done|by rewrite N.add_0_r|].
  rewrite IH. destruct (prepared !! j); [|done]. cbn [fmap option_fmap option_map].
  by replace (tail + 1 + N.of_nat j)%N with (tail + N.of_nat (S j))%N by lia.
Qed.

(** *** The store after a commit *)
Section committed.
Context (records : gmap StorageKey string) (g : RocksGhost) (c : CommitRequest).
Context (prepared : list prepared_event) (snapshot : option (string * EncryptedSnapshotRecord))
  (audit : string * EncryptedAuthorizationAuditRecord).
Hypothesis Hrep : represents records g.
Hypothesis Hok : commit_ok c.
Hypothesis Hacc : acceptable (gh_view g) c.
Hypothesis Hscoped : events_scoped c.
Hypothesis Hprepared : Forall2 (event_prepared c) (cq_events c) prepared.
Hypothesis Hsnapshot : snapshot_prepared c snapshot.
Hypothesis Haudit : audit.1 = authorization_audit_storage_key (cq_tenant_id c) (cq_command_id c).
Let tail : N := N.of_nat (length (gh_outbox g)).
Let writes : list Mutation := commit_writes c prepared snapshot audit tail.
Let after : gmap StorageKey string := foldl apply_mutation_record records writes.
Let stream : list EventEnvelope := sv_stream (gh_view g) (stream_key c).

Lemma after_lookup family key :
  after !! (family, key) = btree_extend (family_of records family) (puts_of family writes) !! key.
Proof using. apply lookup_puts, commit_writes_put. Qed.

Lemma after_one family k value key :
  puts_of family writes = [(k, value)] →
  after !! (family, key) = if decide (key = k) then Some value else records !! (family, key).
Proof using.
  intros Hputs. rewrite after_lookup, Hputs. unfold btree_extend. simpl.
  rewrite lookup_insert, lookup_family_of. repeat case_decide; congruence.
Qed.

Lemma after_meta key :
  after !! (STREAM_META_CF, key) =
  if decide (key = stream_meta_key (cq_tenant_id c) (cq_instance_id c))
  then Some (be_bytes 8 (cr_version (cq_result c))) else records !! (STREAM_META_CF, key).
Proof using. apply after_one, (commit_puts_one c prepared snapshot audit tail). Qed.
Lemma after_result key :
  after !! (IDEMPOTENCY_CF, key) =
  if decide (key = idempotency_storage_key (cq_tenant_id c) (cq_actor_id c) (cq_idempotency_key c))
  then Some (encode_message (command_result c)) else records !! (IDEMPOTENCY_CF, key).
Proof using. apply after_one, (commit_puts_one c prepared snapshot audit tail). Qed.
Lemma after_audit key :
  after !! (AUTHORIZATION_AUDIT_CF, key) =
  if decide (key = audit.1) then Some (encode_message audit.2)
  else records !! (AUTHORIZATION_AUDIT_CF, key).
Proof using. apply after_one, (commit_puts_one c prepared snapshot audit tail). Qed.
Lemma after_outbox_meta key :
  after !! (OUTBOX_META_CF, key) =
  if decide (key = OUTBOX_TAIL_KEY) then Some (be_bytes 8 (tail + N.of_nat (length prepared)))
  else records !! (OUTBOX_META_CF, key).
Proof using. apply after_one, (commit_puts_one c prepared snapshot audit tail). Qed.
Lemma after_snapshot key :
  after !! (SNAPSHOTS_CF, key) =
  match snapshot with
  | Some (k, record) => if decide (key = k) then Some (encode_message record)
                        else records !! (SNAPSHOTS_CF, key)
  | None => records !! (SNAPSHOTS_CF, key)
  end.
Proof using.
  rewrite after_lookup, <-lookup_family_of.
  clear Hsnapshot. assert (puts_of SNAPSHOTS_CF writes = _) as -> by apply (commit_puts_one c prepared snapshot audit tail).
  case_match; [|done]. case_match. unfold btree_extend. simpl. rewrite lookup_insert.
  repeat case_decide; congruence.
Qed.

(** *** Events *)
Lemma stream_length : cq_expected_version c = N.of_nat (length stream).
Proof using Hacc. apply (ac_version _ _ Hacc). Qed.

Lemma new_sequence j e :
  cq_events c !! j = Some e → em_sequence (ee_metadata e) = (N.of_nat (length stream + j) + 1)%N.
Proof using Hacc.
  intros He. rewrite (contiguous_from_lookup _ _ _ _ (ac_contiguous _ _ Hacc) He), stream_length. lia.
Qed.

Lemma new_length : length prepared = length (cq_events c).
Proof using Hprepared. symmetry. by eapply Forall2_length. Qed.

Lemma stream_bound : (N.of_nat (length stream + length (cq_events c)) ≤ u64_max)%N.
Proof using Hacc Hok.
  pose proof (ck_bound _ Hok) as Hb. rewrite (ck_version _ Hok), stream_length in Hb. lia.
Qed.

(** The writes of the events, by position. *)
Lemma event_puts_lookup j :
  event_puts prepared !! j = (λ p : prepared_event, (p.2, encode_message p.1.2)) <$> prepared !! j.
Proof using. apply list_lookup_fmap. Qed.

Lemma event_puts_key j key value :
  event_puts prepared !! j = Some (key, value) →
  ∃ e, cq_events c !! j = Some e ∧ key = commit_event_key c e ∧
    ∃ payload, value = encode_message (encrypted_record payload) ∧
      seals key payload (EventCodec_encode encode_event e).
Proof using Hprepared.
  rewrite event_puts_lookup. intros (p & Hp & Heq)%fmap_Some.
  destruct (Forall2_lookup_r _ _ _ _ _ Hprepared Hp) as (e & He & payload & -> & Hseal).
  simpl in Heq. injection Heq as -> ->. exists e. split_and!; [done..|]. eauto.
Qed.

Lemma commit_event_key_inj e e' j j' :
  cq_events c !! j = Some e → cq_events c !! j' = Some e' →
  commit_event_key c e = commit_event_key c e' → j = j'.
Proof using Hacc Hok.
  intros He He' Heq. pose proof stream_bound as Hb.
  pose proof (lookup_lt_Some _ _ _ He). pose proof (lookup_lt_Some _ _ _ He').
  unfold commit_event_key in Heq. rewrite (new_sequence _ _ He), (new_sequence _ _ He') in Heq.
  apply event_storage_key_inj in Heq as [_ Heq]; [lia|apply Hok..|lia|lia].
Qed.

Lemma NoDup_event_puts : NoDup (event_puts prepared).*1.
Proof using Hacc Hok Hprepared.
  apply NoDup_alt. intros j j' key Hj Hj'.
  rewrite list_lookup_fmap in Hj, Hj'.
  apply fmap_Some in Hj as ([k v] & Hj & ->). apply fmap_Some in Hj' as ([k' v'] & Hj' & Heq).
  simpl in Heq. subst k'.
  apply event_puts_key in Hj as (e & He & -> & _). apply event_puts_key in Hj' as (e' & He' & Heq & _).
  by eapply commit_event_key_inj.
Qed.

Lemma after_event key :
  after !! (EVENTS_CF, key) =
  (list_to_map (event_puts prepared) : gmap string string) !! key ∪ records !! (EVENTS_CF, key).
Proof using Hacc Hok Hprepared.
  rewrite after_lookup.
  assert (puts_of EVENTS_CF writes = event_puts prepared) as ->
    by apply (commit_puts_one c prepared snapshot audit tail).
  rewrite lookup_btree_extend by apply NoDup_event_puts. by rewrite lookup_family_of.
Qed.

(** A new event is found under its key, and an old one as before. *)
Lemma after_event_new j e :
  cq_events c !! j = Some e →
  ∃ value, after !! (EVENTS_CF, commit_event_key c e) = Some value ∧
    sealed_event (commit_event_key c e) e value.
Proof using Hacc Hok Hprepared.
  intros He. destruct (Forall2_lookup_l _ _ _ _ _ Hprepared He) as (p & Hp & payload & -> & Hseal).
  exists (encode_message (encrypted_record payload)). split.
  - rewrite after_event.
    replace ((list_to_map (event_puts prepared) : gmap string string) !! commit_event_key c e)
      with (Some (encode_message (encrypted_record payload))); [by destruct (records !! _)|].
    symmetry. apply elem_of_list_to_map_1; [apply NoDup_event_puts|].
    apply list_elem_of_lookup. exists j. rewrite event_puts_lookup, Hp. done.
  - exists payload. split_and!; [done..|]. by eapply Forall_lookup_1; [apply Hok|].
Qed.

Lemma after_event_old key :
  (∀ e, e ∈ cq_events c → key ≠ commit_event_key c e) →
  after !! (EVENTS_CF, key) = records !! (EVENTS_CF, key).
Proof using Hacc Hok Hprepared.
  intros Hne. rewrite after_event, not_elem_of_list_to_map_1; [by rewrite (left_id_L None (∪))|].
  intros (p & -> & [j Hj]%list_elem_of_lookup)%list_elem_of_fmap. destruct p as [k v].
  apply event_puts_key in Hj as (e & He & -> & _). by eapply Hne; [eapply list_elem_of_lookup_2|].
Qed.

(** *** The outbox *)
Hypothesis Htail : (N.of_nat (length (gh_outbox g)) + N.of_nat (length prepared) ≤ u64_max)%N.

Lemma outbox_puts_key j key value :
  outbox_puts c tail prepared !! j = Some (key, value) →
  ∃ e, cq_events c !! j = Some e ∧ key = be_bytes 8 (tail + N.of_nat j + 1) ∧
    value = encode_message (event_entry e (tail + N.of_nat j + 1)).
Proof using Hprepared Hscoped.
  rewrite outbox_puts_lookup. intros (p & Hp & Heq)%fmap_Some.
  destruct (Forall2_lookup_r _ _ _ _ _ Hprepared Hp) as (e & He & payload & -> & _).
  injection Heq as -> ->. exists e. split_and!; [done..|].
  destruct (Forall_lookup_1 _ _ _ _ Hscoped He) as [Ht Hi].
  unfold outbox_entry, event_entry. simpl. by rewrite Ht, Hi.
Qed.

Lemma NoDup_outbox_puts : NoDup (outbox_puts c tail prepared).*1.
Proof using Hprepared Hscoped Htail.
  apply NoDup_alt. intros j j' key Hj Hj'. rewrite list_lookup_fmap in Hj, Hj'.
  apply fmap_Some in Hj as ([k v] & Hj & ->). apply fmap_Some in Hj' as ([k' v'] & Hj' & Heq).
  simpl in Heq. subst k'.
  apply outbox_puts_key in Hj as (e & He & -> & _). apply outbox_puts_key in Hj' as (e' & He' & Heq & _).
  apply lookup_lt_Some in He, He'. rewrite <-new_length in He, He'.
  apply be_bytes_8_inj in Heq; unfold tail in *; lia.
Qed.

Lemma after_outbox key :
  after !! (OUTBOX_CF, key) =
  (list_to_map (outbox_puts c tail prepared) : gmap string string) !! key ∪ records !! (OUTBOX_CF, key).
Proof using Hprepared Hscoped Htail.
  rewrite after_lookup.
  assert (puts_of OUTBOX_CF writes = outbox_puts c tail prepared) as ->
    by apply (commit_puts_one c prepared snapshot audit tail).
  rewrite lookup_btree_extend by apply NoDup_outbox_puts. by rewrite lookup_family_of.
Qed.

Lemma after_outbox_new j e :
  cq_events c !! j = Some e →
  after !! (OUTBOX_CF, be_bytes 8 (tail + N.of_nat j + 1)) =
  Some (encode_message (event_entry e (tail + N.of_nat j + 1))).
Proof using Hprepared Hscoped Htail.
  intros He. rewrite after_outbox.
  rewrite (elem_of_list_to_map_1 _ _ (encode_message (event_entry e (tail + N.of_nat j + 1))));
    [by destruct (records !! _)|apply NoDup_outbox_puts|].
  destruct (Forall2_lookup_l _ _ _ _ _ Hprepared He) as (p & Hp & _).
  destruct (outbox_puts c tail prepared !! j) as [[k v]|] eqn:Hj.
  - pose proof (outbox_puts_key _ _ _ Hj) as (e' & He' & -> & ->). simplify_eq.
    by eapply list_elem_of_lookup_2.
  - by rewrite outbox_puts_lookup, Hp in Hj.
Qed.

Lemma after_outbox_old key :
  (∀ j, j < length prepared → key ≠ be_bytes 8 (tail + N.of_nat j + 1)) →
  after !! (OUTBOX_CF, key) = records !! (OUTBOX_CF, key).
Proof using Hprepared Hscoped Htail.
  intros Hne. rewrite after_outbox, not_elem_of_list_to_map_1; [by rewrite (left_id_L None (∪))|].
  intros (p & -> & [j Hj]%list_elem_of_lookup)%list_elem_of_fmap. destruct p as [k v].
  pose proof (outbox_puts_key _ _ _ Hj) as (e & He & -> & _). apply lookup_lt_Some in He.
  apply (Hne j); [by rewrite new_length|done].
Qed.

(** *** The new store *)
Lemma append_stream k :
  sv_stream (view_append (gh_view g) c) k =
  if decide (k = stream_key c) then stream ++ cq_events c else sv_stream (gh_view g) k.
Proof using. done. Qed.

Lemma after_rep_version t i : short t → short i →
  decode_u64_value (after !! (STREAM_META_CF, stream_meta_key t i)) =
  Ok (N.of_nat (length (sv_stream (view_append (gh_view g) c) (t, i)))).
Proof using Hrep Hok Hacc Htail.
  intros Ht Hi. rewrite after_meta, append_stream. case_decide as Hkey.
  - apply stream_meta_key_inj in Hkey; [|done|done|apply Hok..]. rewrite decide_True by done.
    unfold decode_u64_value. rewrite u64_from_be_bytes by apply Hok. cbn [ok_or]. rewrite (ck_version _ Hok), stream_length.
    by rewrite length_app, Nat2N.inj_add.
  - rewrite decide_False; [by apply Hrep|]. intros [= -> ->]. done.
Qed.

Lemma after_rep_event t i n e : short t → short i →
  sv_stream (view_append (gh_view g) c) (t, i) !! n = Some e →
  ∃ value, after !! (EVENTS_CF, event_storage_key t i (N.of_nat n + 1)) = Some value ∧
    sealed_event (event_storage_key t i (N.of_nat n + 1)) e value.
Proof using Hrep Hok Hacc Hprepared Htail.
  intros Ht Hi. rewrite append_stream. intros Hn.
  destruct (decide ((t, i) = stream_key c ∧ length stream ≤ n)) as [[Hk Hlen]|Hold].
  - rewrite decide_True, lookup_app_r in Hn by done.
    pose proof (new_sequence _ _ Hn) as Hseq. injection Hk as -> ->.
    replace (length stream + (n - length stream)) with n in Hseq by lia.
    destruct (after_event_new _ _ Hn) as (value & Hv & Hs). unfold commit_event_key in Hv, Hs.
    rewrite Hseq in Hv, Hs. eauto.
  - assert (sv_stream (gh_view g) (t, i) !! n = Some e) as Hin.
    { case_decide as Hk; [|done]. rewrite Hk. rewrite lookup_app_l in Hn; [done|].
      destruct (decide (length stream ≤ n)); [|lia]. exfalso. by apply Hold. }
    rewrite after_event_old; [by apply (rp_event _ _ Hrep)|].
    intros e' [j He']%list_elem_of_lookup Heq. unfold commit_event_key in Heq.
    pose proof (rp_bound _ _ Hrep (t, i)). pose proof (lookup_lt_Some _ _ _ Hin).
    pose proof stream_bound. pose proof (lookup_lt_Some _ _ _ He'). rewrite (new_sequence _ _ He') in Heq.
    apply event_storage_key_inj in Heq as [Hk Hn']; [|done|done|apply Hok|apply Hok|lia|lia].
    apply Hold. split; [done|lia].
Qed.

Lemma after_rep_events key value : after !! (EVENTS_CF, key) = Some value →
  ∃ t i n, short t ∧ short i ∧ n < length (sv_stream (view_append (gh_view g) c) (t, i)) ∧
    key = event_storage_key t i (N.of_nat n + 1).
Proof using Hrep Hok Hacc Hprepared Htail.
  intros Hkey. destruct (decide (key ∈ commit_event_key c <$> cq_events c)) as [Hin|Hout].
  - apply list_elem_of_fmap in Hin as (e & -> & [j He]%list_elem_of_lookup).
    exists (cq_tenant_id c), (cq_instance_id c), (length stream + j). rewrite append_stream.
    rewrite decide_True by done. rewrite length_app. unfold commit_event_key.
    rewrite (new_sequence _ _ He). apply lookup_lt_Some in He.
    split_and!; [apply Hok|apply Hok|lia|done].
  - rewrite after_event_old in Hkey.
    2:{ intros e He ->. apply Hout. by apply list_elem_of_fmap_2. }
    destruct (rp_events _ _ Hrep _ _ Hkey) as (t & i & n & ? & ? & Hn & ->). exists t, i, n.
    split_and!; [done..| |done]. rewrite append_stream. case_decide as Hk; [|done].
    rewrite Hk in Hn. rewrite length_app. unfold stream. lia.
Qed.

Lemma after_rep_snapshot t i : short t → short i →
  match after !! (SNAPSHOTS_CF, snapshot_storage_key t i),
        sv_snapshot (view_append (gh_view g) c) (t, i) with
  | Some value, Some s => sealed_snapshot (snapshot_storage_key t i) s value
  | None, None => True
  | _, _ => False
  end.
Proof using Hrep Hok Hsnapshot.
  intros Ht Hi. pose proof (rp_snapshot _ _ Hrep t i Ht Hi) as Hold. rewrite after_snapshot. simpl.
  unfold snapshot_prepared in Hsnapshot. destruct (cq_snapshot c) as [s|] eqn:Hs.
  - destruct snapshot as [[key record]|]; [|done]. destruct Hsnapshot as (-> & payload & -> & Hseal).
    unfold set_at. case_decide as Hkey.
    + apply snapshot_storage_key_inj in Hkey as Hti; [|done|done|apply Hok..].
      rewrite decide_True by done. rewrite Hkey. exists payload. split_and!; [done..|].
      by apply (ck_snapshot _ Hok).
    + rewrite decide_False; [done|]. intros [= -> ->]. done.
  - by destruct snapshot as [[key record]|].
Qed.

Lemma after_rep_result t a k : short t → short a → short k →
  after !! (IDEMPOTENCY_CF, idempotency_storage_key t a k) =
  (λ stored, encode_message (stored_command stored)) <$> sv_result (view_append (gh_view g) c) (t, a, k).
Proof using Hrep Hok.
  intros Ht Ha Hk. rewrite after_result. simpl. unfold set_at. case_decide as Hkey.
  - apply idempotency_storage_key_inj in Hkey as Htak; [|done|done|done|apply Hok..].
    by rewrite decide_True.
  - rewrite decide_False; [by apply Hrep|]. intros [= -> -> ->]. done.
Qed.

Lemma after_rep_audit t cmd : short t → short cmd →
  is_Some (after !! (AUTHORIZATION_AUDIT_CF, authorization_audit_storage_key t cmd)) ↔
  is_Some (sv_audit (view_append (gh_view g) c) (t, cmd)).
Proof using Hrep Hok Haudit.
  intros Ht Hcmd. rewrite after_audit, Haudit. simpl. unfold set_at. case_decide as Hkey.
  - apply two_components_inj in Hkey as Htc; [|done|done|apply Hok..].
    rewrite decide_True by done. split; intros _; by eexists.
  - rewrite decide_False; [by apply Hrep|]. intros [= -> ->]. done.
Qed.

Lemma after_rep_entry n e : (gh_outbox g ++ cq_events c) !! n = Some e →
  after !! (OUTBOX_CF, be_bytes 8 (N.of_nat n + 1)) =
    Some (encode_message (event_entry e (N.of_nat n + 1))) ∧
  let k := (em_tenant_id (ee_metadata e), em_instance_id (ee_metadata e)) in
  short k.1 ∧ short k.2 ∧ e ∈ sv_stream (view_append (gh_view g) c) k.
Proof using Hrep Hok Hprepared Hscoped Htail.
  intros Hn. destruct (decide (n < length (gh_outbox g))) as [Hlt|Hge].
  - rewrite lookup_app_l in Hn by done. destruct (rp_entry _ _ Hrep _ _ Hn) as (Hr & Hk1 & Hk2 & Hin).
    cbv zeta in *. split_and!; [|done..|].
    + rewrite after_outbox_old; [done|]. intros j Hj Heq. apply be_bytes_8_inj in Heq; unfold tail in *; lia.
    + rewrite append_stream. case_decide as Hk; [|done]. apply elem_of_app. left.
      unfold stream. by rewrite <-Hk.
  - rewrite lookup_app_r in Hn by lia. destruct (Forall_lookup_1 _ _ _ _ Hscoped Hn) as [Ht Hi].
    pose proof (after_outbox_new _ _ Hn) as Hnew. unfold tail in Hnew.
    replace (N.of_nat (length (gh_outbox g)) + N.of_nat (n - length (gh_outbox g)))%N
      with (N.of_nat n) in Hnew by lia.
    split; [done|]. cbv zeta. rewrite Ht, Hi. split_and!; [apply Hok..|].
    rewrite append_stream, decide_True by done. apply elem_of_app. right. by eapply list_elem_of_lookup_2.
Qed.

Lemma after_rep_entries key value : after !! (OUTBOX_CF, key) = Some value →
  ∃ n, n < length (gh_outbox g ++ cq_events c) ∧ key = be_bytes 8 (N.of_nat n + 1).
Proof using Hrep Hprepared Hscoped Htail.
  intros Hkey. rewrite length_app, <-new_length.
  destruct (decide (key ∈ (λ j, be_bytes 8 (tail + N.of_nat j + 1)) <$> seq 0 (length prepared)))
    as [(j & -> & Hj)%list_elem_of_fmap|Hout].
  - apply elem_of_seq in Hj. exists (length (gh_outbox g) + j). split; [lia|]. f_equal. unfold tail. lia.
  - rewrite after_outbox_old in Hkey.
    + destruct (rp_entries _ _ Hrep _ _ Hkey) as (n & Hn & ->). exists n. split; [lia|done].
    + intros j Hj ->. apply Hout, list_elem_of_fmap. exists j. split; [done|]. apply elem_of_seq. lia.
Qed.

(** A commit takes a store that stands for [g] to one that stands for [g]
    with the commit appended. *)
Lemma represents_commit : represents after (ghost_append g c).
Proof using Hrep Hok Hacc Hscoped Hprepared Hsnapshot Haudit Htail.
  split; cbn [gh_view gh_outbox gh_checkpoint ghost_append].
  - apply after_rep_version.
  - intros k. rewrite append_stream. case_decide; [|apply Hrep]. apply contiguous_from_app. split.
    + apply (rp_contiguous _ _ Hrep).
    + rewrite (N.add_comm 1), <-stream_length. apply Hacc.
  - intros k. rewrite append_stream. case_decide; [|apply (rp_bound _ _ Hrep)]. rewrite length_app.
    apply stream_bound.
  - apply after_rep_event.
  - apply after_rep_events.
  - apply after_rep_snapshot.
  - apply after_rep_result.
  - apply after_rep_audit.
  - rewrite after_outbox_meta, decide_True by done. unfold decode_u64_value.
    rewrite u64_from_be_bytes by (unfold tail; lia). cbn [ok_or]. rewrite length_app, new_length. unfold tail.
    by rewrite Nat2N.inj_add.
  - rewrite after_outbox_meta, decide_False by done. apply Hrep.
  - rewrite length_app, <-new_length. lia.
  - apply after_rep_entry.
  - apply after_rep_entries.
Qed.
End committed.
End spec.
