(* ===== verification/RocksProofs.v ===== *)
(** * The durable store implements its contract

    Over a lawful database and cipher, the reads of [RocksStore] report the
    abstract store of [RocksSpec], a local commit appends to it or leaves it,
    and so does a commit that was prepared on one state and applied by
    consensus on another. *)

From S2P Require Import Prelude Bytes RaftBatch StorageKeys Database PayloadCrypto.
From S2P Require Import Types Evolve Outbox Ports EngineSpec Wire EventCodec SnapshotCodec MemoryStore.
From S2P Require Import RocksStore RocksSpec.
From stdpp Require Import options.

Section proofs.
Context {D : Type} `{!Database D} `{!LawfulDatabase D}.
Context {C : Type} `{!PayloadCryptoPort C} `{!LawfulCrypto C}.
Context `{!Message EncryptedEventRecord, !Message EncryptedSnapshotRecord,
  !Message EncryptedAuthorizationAuditRecord, !Message StoredCommandResult, !Message OutboxEntry,
  !Message AuthorizationAuditRecord}.
Context `{!LawfulMessage EncryptedEventRecord, !LawfulMessage EncryptedSnapshotRecord,
  !LawfulMessage StoredCommandResult, !LawfulMessage OutboxEntry}.
Context (encode_event : Wire.EventEnvelope → string)
  (decode_event : string → Wire.EventEnvelope + string)
  (encode_snapshot : Wire.WorkflowSnapshot → string)
  (decode_snapshot : string → Wire.WorkflowSnapshot + string).
Context (event_error : EventCodecError → string) (snapshot_error : SnapshotCodecError → string)
  (identifier_error : string → string) (store_error : StoreError → string).
Context (sha256 : string → ValueDigest).
Context (crypto : C) (max_replay_events : nat).
Implicit Types (d : D) (g : RocksGhost) (c : CommitRequest).
Abbreviation represents := (represents encode_event decode_event encode_snapshot decode_snapshot).
Abbreviation commit_ok := (commit_ok encode_event decode_event encode_snapshot decode_snapshot).
Abbreviation event_prepared := (event_prepared encode_event).
Abbreviation snapshot_prepared := (snapshot_prepared encode_snapshot).

(** ** Reading *)
Lemma store_get_Ok d key value : store_get d key = Ok value → value = db_records d !! key.
Proof using LawfulDatabase0.
  unfold store_get. intros Hget. inv_res Hget. rename select (db_get _ _ = _) into Hdb.
  by apply db_get_law in Hdb.
Qed.

Lemma read_version_Ok d g t i version :
  represents (db_records d) g → short t → short i →
  read_version d t i = Ok version → version = N.of_nat (length (sv_stream (gh_view g) (t, i))).
Proof using LawfulDatabase0.
  intros Hrep Ht Hi Hrun. pose proof (rp_version _ _ _ _ _ _ Hrep t i Ht Hi) as Hv.
  unfold read_version in Hrun. apply bind_Ok in Hrun as (value & ->%store_get_Ok & Hrun).
  unfold decode_u64_value in Hv. destruct (_ !! _) as [bytes|]; [|congruence].
  apply ok_or_Ok in Hrun. rewrite Hrun in Hv. by injection Hv.
Qed.

Lemma read_u64_Ok d key value n :
  read_u64_value d key = Ok value → decode_u64_value (db_records d !! key) = Ok n → value = n.
Proof using LawfulDatabase0.
  unfold read_u64_value. intros Hrun. apply bind_Ok in Hrun as (v & ->%store_get_Ok & Hrun%map_err_Ok).
  congruence.
Qed.

Lemma load_result_Ok d g t a k cmd r :
  represents (db_records d) g → short t → short a → short k →
  load_result identifier_error d t a k cmd = Ok r →
  match r with
  | Some result => sv_result (gh_view g) (t, a, k) = Some (mkStored cmd result)
  | None => sv_result (gh_view g) (t, a, k) = None
  end.
Proof using LawfulDatabase0 LawfulMessage2.
  intros Hrep Ht Ha Hk Hrun. pose proof (rp_result _ _ _ _ _ _ Hrep t a k Ht Ha Hk) as Hres.
  unfold load_result in Hrun. apply bind_Ok in Hrun as (bytes & ->%store_get_Ok & Hrun).
  rewrite Hres in Hrun. destruct (sv_result _ _) as [[cmd' result]|]; simpl in Hrun;
    [|by injection Hrun as <-].
  rewrite decode_encode in Hrun. simpl in Hrun. inv_res Hrun.
  rename select (bool_decide _ = false) into Hcmd. apply bool_decide_eq_false, dec_stable in Hcmd. subst cmd'.
  rename select (stored_result _ _ = _) into Hstored. unfold stored_result, stored_identifier in Hstored.
  simpl in Hstored. inv_res Hstored. by destruct result.
Qed.

Lemma load_result_conflict d g t a k cmd :
  represents (db_records d) g → short t → short a → short k →
  load_result identifier_error d t a k cmd = Err IdempotencyConflict →
  ∃ stored, sv_result (gh_view g) (t, a, k) = Some stored ∧ sr_command_id stored ≠ cmd.
Proof using LawfulDatabase0 LawfulMessage2.
  intros Hrep Ht Ha Hk Hrun. pose proof (rp_result _ _ _ _ _ _ Hrep t a k Ht Ha Hk) as Hres.
  unfold load_result in Hrun. apply bind_Err in Hrun as [Hrun|(bytes & ->%store_get_Ok & Hrun)].
  { unfold store_get, store_cf in Hrun. apply bind_Err in Hrun as [Hrun|(_ & _ & Hrun)].
    - by apply bail_if_Err in Hrun as [_ ?].
    - destruct (db_get _ _); simpl in Hrun; discriminate Hrun. }
  rewrite Hres in Hrun. destruct (sv_result _ _) as [[cmd' result]|]; [|done]. eexists. split; [done|].
  simpl in *. rewrite decode_encode in Hrun. simpl in Hrun.
  apply bind_Err in Hrun as [[Hne%bool_decide_eq_true _]%bail_if_Err|(_ & _ & Hrun)]; [done|].
  apply bind_Err in Hrun as [Hrun|(? & _ & Hrun)]; [|done].
  exfalso. unfold stored_result, stored_identifier, bail_if in Hrun. repeat (case_match; simplify_eq/=).
Qed.

Lemma encrypted_payload_Ok payload encrypted :
  encrypted_payload identifier_error (encrypted_record payload) = Ok encrypted → encrypted = payload.
Proof using.
  unfold encrypted_payload, stored_identifier. intros Hrun. inv_res Hrun. by destruct payload.
Qed.

Lemma load_event_Ok t i key value e e' :
  sealed_event encode_event decode_event key e value →
  load_event decode_event event_error identifier_error crypto t i key value = Ok e' → e' = e.
Proof using LawfulCrypto0 LawfulMessage0.
  intros (payload & -> & Hseal & Hfaithful) Hrun. unfold load_event in Hrun.
  rewrite decode_encode in Hrun. cbn [map_err mbind res_bind] in Hrun.
  apply bind_Ok in Hrun as (encrypted & ->%encrypted_payload_Ok & Hrun).
  apply bind_Ok in Hrun as (plaintext & Hdec%map_err_Ok & Hrun).
  apply (decrypt_law _ _ _ _ _ Hseal) in Hdec as ->.
  apply bind_Ok in Hrun as (event & Hev%map_err_Ok & Hrun). unfold faithful_event in Hfaithful.
  rewrite Hfaithful in Hev. injection Hev as <-. by inv_res Hrun.
Qed.

Lemma load_snapshot_Ok d g t i s :
  represents (db_records d) g → short t → short i →
  load_snapshot decode_snapshot snapshot_error identifier_error crypto d t i = Ok s →
  s = sv_snapshot (gh_view g) (t, i).
Proof using LawfulDatabase0 LawfulCrypto0 LawfulMessage1.
  intros Hrep Ht Hi Hrun. pose proof (rp_snapshot _ _ _ _ _ _ Hrep t i Ht Hi) as Hs.
  unfold load_snapshot in Hrun. apply bind_Ok in Hrun as (bytes & ->%store_get_Ok & Hrun).
  destruct (db_records d !! _) as [bytes|]; [|injection Hrun as <-; by destruct (sv_snapshot _ _)].
  destruct (sv_snapshot _ _) as [s'|]; [|done]. destruct Hs as (payload & -> & Hseal & Hfaithful).
  rewrite decode_encode in Hrun. cbn [map_err mbind res_bind] in Hrun.
  apply bind_Ok in Hrun as (_ & _ & Hrun). apply bind_Ok in Hrun as (scope & Hscope & Hrun).
  unfold stored_identifier in Hscope. inv_res Hscope. cbv zeta in Hrun.
  apply bind_Ok in Hrun as (plaintext & Hdec%map_err_Ok & Hrun).
  assert (plaintext = SnapshotCodec_encode encode_snapshot s') as ->.
  { eapply decrypt_law; [exact Hseal|]. destruct payload. exact Hdec. }
  apply bind_Ok in Hrun as (snapshot & Hsn%map_err_Ok & Hrun). unfold faithful_snapshot in Hfaithful.
  rewrite Hfaithful in Hsn. injection Hsn as <-. by inv_res Hrun.
Qed.

(** The stored events of a stream, in order. *)
Definition stream_entries (records : gmap StorageKey string) g t i : list (string * string) :=
  imap (λ n _, let key := event_storage_key t i (N.of_nat n + 1) in
          (key, default "" (records !! (EVENTS_CF, key)))) (sv_stream (gh_view g) (t, i)).

Lemma stream_entries_lookup records g t i n p :
  stream_entries records g t i !! n = Some p →
  ∃ e, sv_stream (gh_view g) (t, i) !! n = Some e ∧
    p = (event_storage_key t i (N.of_nat n + 1),
         default "" (records !! (EVENTS_CF, event_storage_key t i (N.of_nat n + 1)))).
Proof using. unfold stream_entries. intros (e & He & Hp)%list_lookup_imap_Some. by exists e. Qed.

Lemma scan_stream records g t i :
  represents records g → short t → short i →
  ∃ rest, scan records EVENTS_CF (stream_prefix t i) = stream_entries records g t i ++ rest ∧
    ∀ q, q ∈ rest → starts_with (stream_prefix t i) q.1 = false.
Proof using.
  intros Hrep Ht Hi. pose proof (rp_bound _ _ _ _ _ _ Hrep (t, i)) as Hbound.
  assert (∀ n k, (stream_entries records g t i).*1 !! n = Some k →
    n < length (sv_stream (gh_view g) (t, i)) ∧ k = event_storage_key t i (N.of_nat n + 1)) as Hkeys.
  { intros n k Hk. apply list_lookup_fmap_Some in Hk as (p & -> & Hp).
    apply stream_entries_lookup in Hp as (e & He & ->). by apply lookup_lt_Some in He. }
  apply (scan_expected _ _ _ (starts_with (stream_prefix t i))).
  - intros a b Ha Hab [s ->]%starts_with_spec. by eapply between_prefix.
  - apply StronglySorted_lookup. intros n n' a b Hn [? ->]%Hkeys [? ->]%Hkeys.
    apply event_storage_key_le; lia.
  - apply NoDup_alt. intros n n' k [? ->]%Hkeys [? Heq]%Hkeys.
    apply event_storage_key_inj in Heq as [_ Heq]; [lia|done..|lia|lia].
  - intros k v. split.
    + intros [n Hn]%list_elem_of_lookup. apply stream_entries_lookup in Hn as (e & He & [= -> ->]).
      destruct (rp_event _ _ _ _ _ _ Hrep t i n e Ht Hi He) as (value & -> & _).
      split_and!; [apply le_prefix|done|]. apply starts_with_spec. eauto.
    + intros (_ & Hv & [s Hs]%starts_with_spec).
      destruct (rp_events _ _ _ _ _ _ Hrep _ _ Hv) as (t' & i' & n & Ht' & Hi' & Hn & ->).
      apply stream_prefix_inj in Hs as (-> & -> & _); [|done..].
      apply lookup_lt_is_Some in Hn as [e He]. apply elem_of_lookup_imap. exists n, e. split; [|done].
      cbv beta zeta. by rewrite Hv.
Qed.

Lemma load_events_Ok t i snapshot_sequence found items acc out es n :
  short t → short i → (N.of_nat (n + length es) ≤ u64_max)%N →
  (∀ j p e, found !! j = Some p → es !! j = Some e →
     p.1 = event_storage_key t i (N.of_nat (n + j) + 1) ∧
     em_sequence (ee_metadata e) = (N.of_nat (n + j) + 1)%N ∧
     sealed_event encode_event decode_event p.1 e p.2) →
  length es ≤ length found →
  (∀ q, q ∈ drop (length es) found → starts_with (stream_prefix t i) q.1 = false) →
  iterates items found →
  load_events decode_event event_error identifier_error crypto max_replay_events t i
    snapshot_sequence items acc = Ok out →
  out = acc ++ List.filter (is_after snapshot_sequence) es.
Proof using LawfulCrypto0 LawfulMessage0.
  intros Ht Hi. revert items acc es n. induction found as [|[key value] found IH];
    intros items acc es n Hbound Hmatch Hlen Hrest Hit Hrun.
  - destruct es; [|simpl in Hlen; lia]. rewrite app_nil_r.
    apply iterates_nil in Hit as [->|(item & rest & Hitem & ->)]; [by injection Hrun as <-|].
    simpl in Hrun. by destruct item.
  - apply iterates_cons in Hit as [(item & rest & Hitem & ->)|(items' & -> & Hit)].
    { simpl in Hrun. by destruct item. }
    cbn [load_events map_err mbind res_bind] in Hrun. destruct es as [|e es].
    { pose proof (Hrest (key, value) ltac:(by left)) as Hstop. cbn [fst] in Hstop.
      rewrite Hstop in Hrun. injection Hrun as <-. by rewrite app_nil_r. }
    destruct (Hmatch 0 _ _ eq_refl eq_refl) as (Hkey & Hseq & Hseal).
    rewrite Nat.add_0_r in *. cbn [fst snd] in *. subst key.
    rewrite (proj2 (starts_with_spec _ _)) in Hrun by (unfold event_storage_key; eauto). cbn [negb] in Hrun.
    unfold sequence_from_event_key, event_storage_key in Hrun.
    rewrite (proj2 (strip_prefix_Some _ _ _) eq_refl) in Hrun. cbn [mbind option_bind] in Hrun.
    simpl in Hbound. rewrite u64_from_be_bytes in Hrun by lia. cbn [ok_or mbind res_bind] in Hrun.
    assert (∀ j p e', found !! j = Some p → es !! j = Some e' →
      p.1 = event_storage_key t i (N.of_nat (S n + j) + 1) ∧
      em_sequence (ee_metadata e') = (N.of_nat (S n + j) + 1)%N ∧
      sealed_event encode_event decode_event p.1 e' p.2) as Hmatch'.
    { intros j p e' Hp He'. rewrite Nat.add_succ_comm. by apply (Hmatch (S j)). }
    simpl in Hlen. unfold List.filter, is_after at 1. rewrite Hseq.
    destruct (N.leb_spec (N.of_nat n + 1) snapshot_sequence) as [Hle|Hgt].
    + rewrite (proj2 (N.ltb_ge _ _)) by lia. eapply (IH _ _ _ (S n)); [lia|done|lia|done..].
    + rewrite (proj2 (N.ltb_lt _ _)) by lia. apply bind_Ok in Hrun as (_ & _ & Hrun).
      apply bind_Ok in Hrun as (e' & He' & Hrun). eapply load_event_Ok in He'; [|exact Hseal]. subst e'.
      rewrite cons_middle, (assoc_L (++)). eapply (IH _ _ _ (S n)); [lia|done|lia|done..].
Qed.

Lemma rocks_load_Ok d g t i loaded :
  represents (db_records d) g → short t → short i →
  rocks_load decode_event decode_snapshot event_error snapshot_error identifier_error crypto
    max_replay_events d t i = Ok loaded →
  li_version loaded = N.of_nat (length (sv_stream (gh_view g) (t, i))) ∧
  li_snapshot loaded = sv_snapshot (gh_view g) (t, i) ∧
  li_events loaded =
    List.filter (is_after (snapshot_sequence (li_snapshot loaded))) (sv_stream (gh_view g) (t, i)).
Proof using LawfulDatabase0 LawfulCrypto0 LawfulMessage0 LawfulMessage1.
  intros Hrep Ht Hi Hrun. unfold rocks_load in Hrun.
  apply bind_Ok in Hrun as (version & Hver & Hrun). apply (read_version_Ok _ _ _ _ _ Hrep Ht Hi) in Hver.
  apply bind_Ok in Hrun as (snap & Hsnap & Hrun). apply (load_snapshot_Ok _ _ _ _ _ Hrep Ht Hi) in Hsnap.
  cbv zeta in Hrun. apply bind_Ok in Hrun as (_ & _ & Hrun). apply bind_Ok in Hrun as (_ & _ & Hrun).
  apply bind_Ok in Hrun as (events & Hev & Hrun). inv_res Hrun. simpl. split_and!; [done..|].
  destruct (scan_stream _ _ _ _ Hrep Ht Hi) as (rest & Hscan & Hrest).
  pose proof (db_iterator_law d EVENTS_CF (stream_prefix t i)) as Hit. rewrite Hscan in Hit.
  assert (length (stream_entries (db_records d) g t i) = length (sv_stream (gh_view g) (t, i))) as Hlen
    by apply length_imap.
  eapply (load_events_Ok t i _ (stream_entries (db_records d) g t i ++ rest) _ [] _
    (sv_stream (gh_view g) (t, i)) 0) in Hev; [exact Hev|done|done|..].
  - apply Hrep.
  - intros j p e Hp He. rewrite lookup_app_l in Hp by (rewrite Hlen; by eapply lookup_lt_Some).
    apply stream_entries_lookup in Hp as (_ & _ & ->). cbn [fst snd].
    destruct (rp_event _ _ _ _ _ _ Hrep t i j e Ht Hi He) as (value & Hvalue & Hseal). split_and!; [done|..].
    + rewrite (contiguous_from_lookup _ _ _ _ (rp_contiguous _ _ _ _ _ _ Hrep (t, i)) He). simpl. lia.
    + rewrite Hvalue. exact Hseal.
  - rewrite length_app, Hlen. lia.
  - rewrite <-Hlen, drop_app_length. exact Hrest.
  - exact Hit.
Qed.

(** ** Preparing a commit *)
Lemma validate_sequences_Ok c :
  validate_sequences c = Ok tt →
  contiguous_from (cq_expected_version c + 1) (cq_events c) ∧ events_scoped c.
Proof using.
  unfold validate_sequences. intros Hrun. apply bind_Ok in Hrun as (gap & Hgap & Hrun).
  apply bind_Ok in Hrun as ([] & Hscope & _). apply bail_if_Ok, orb_false_iff in Hscope as [-> Hscope].
  split; [by apply gap_after_false|]. apply Forall_forall. intros e He.
  destruct (decide (em_tenant_id (ee_metadata e) = cq_tenant_id c ∧
    em_instance_id (ee_metadata e) = cq_instance_id c)) as [|Hne]; [done|]. exfalso.
  apply not_true_iff_false in Hscope. apply Hscope, existsb_exists. exists e.
  split; [by apply list_elem_of_In|]. apply orb_true_iff. rewrite !bool_decide_eq_true.
  destruct (decide (em_tenant_id (ee_metadata e) = cq_tenant_id c)); [right; tauto|by left].
Qed.

Lemma prepare_encrypted_events_Ok c n events prepared :
  prepare_encrypted_events encode_event crypto c n events = Ok prepared →
  Forall2 (event_prepared c) events prepared.
Proof using LawfulCrypto0.
  revert n prepared. induction events as [|e events IH]; intros n prepared Hrun;
    cbn [prepare_encrypted_events] in Hrun; [injection Hrun as <-; constructor|].
  cbv zeta in Hrun. apply bind_Ok in Hrun as (payload & Henc%map_err_Ok & Hrun).
  apply bind_Ok in Hrun as (rest & Hrest & Hrun). injection Hrun as <-.
  constructor; [|by eapply IH]. exists payload. split; [done|]. by eapply encrypt_law.
Qed.

Lemma prepare_request_Ok c prepared snapshot audit :
  prepare_request encode_event encode_snapshot crypto c = Ok (prepared, snapshot, audit) →
  Forall2 (event_prepared c) (cq_events c) prepared ∧ snapshot_prepared c snapshot ∧
  audit.1 = authorization_audit_storage_key (au_tenant_id (cq_authorization_audit c))
              (au_command_id (cq_authorization_audit c)).
Proof using LawfulCrypto0.
  unfold prepare_request. intros Hrun. apply bind_Ok in Hrun as (prepared' & Hev & Hrun).
  apply bind_Ok in Hrun as (snapshot' & Hsnap & Hrun). apply bind_Ok in Hrun as (audit' & Haudit & Hrun).
  injection Hrun as <- <- <-. split_and!.
  - by eapply prepare_encrypted_events_Ok.
  - unfold prepare_encrypted_snapshot in Hsnap. unfold RocksSpec.snapshot_prepared.
    destruct (cq_snapshot c) as [s|]; [|by injection Hsnap as <-]. cbv zeta in Hsnap.
    apply bind_Ok in Hsnap as (payload & Henc%map_err_Ok & Hsnap). injection Hsnap as <-.
    split; [done|]. exists payload. split; [done|]. by eapply encrypt_law.
  - unfold prepare_encrypted_authorization_audit in Haudit. cbv zeta in Haudit.
    apply bind_Ok in Haudit as (payload & _ & Haudit). by injection Haudit as <-.
Qed.

(** ** Committing locally *)
Lemma put_cf_Ok d family key value put :
  put_cf d family key value = Ok put → put = Put (family, key) value.
Proof using. unfold put_cf. intros Hrun. by inv_res Hrun. Qed.

Lemma commit_events_Ok d c tail prepared tail' writes :
  commit_events d c tail prepared = Ok (tail', writes) → (tail ≤ u64_max)%N →
  writes = event_writes c tail prepared ∧ tail' = (tail + N.of_nat (length prepared))%N ∧
  (tail' ≤ u64_max)%N.
Proof using.
  revert tail writes. induction prepared as [|[[e record] key] prepared IH]; intros tail writes Hrun Htail;
    cbn [commit_events] in Hrun.
  { injection Hrun as <- <-. split_and!; [done|simpl; lia|done]. }
  cbv zeta in Hrun. apply bind_Ok in Hrun as (known & _ & Hrun). apply bind_Ok in Hrun as (_ & _ & Hrun).
  apply bind_Ok in Hrun as (? & ->%put_cf_Ok & Hrun). apply bind_Ok in Hrun as (? & ->%put_cf_Ok & Hrun).
  apply bind_Ok in Hrun as (next & Hnext%ok_or_Ok & Hrun). apply checked_add_Some in Hnext as [-> Hnext].
  apply bind_Ok in Hrun as (? & ->%put_cf_Ok & Hrun).
  apply bind_Ok in Hrun as ([tail2 ws] & Hws & Hrun). injection Hrun as <- <-.
  destruct (IH _ _ Hws) as (-> & -> & ?); [lia|]. split_and!; [done| |done]. cbn [length]. lia.
Qed.

Lemma build_commit_batch_Ok d c prepared snapshot audit tail batch :
  build_commit_batch d c prepared snapshot audit tail = Ok batch → (tail ≤ u64_max)%N →
  batch = commit_writes c prepared snapshot audit tail ∧
  db_records d !! (AUTHORIZATION_AUDIT_CF, audit.1) = None ∧
  (tail + N.of_nat (length prepared) ≤ u64_max)%N.
Proof using LawfulDatabase0.
  intros Hrun Htail. unfold build_commit_batch in Hrun.
  apply bind_Ok in Hrun as (audited & ->%store_get_Ok & Hrun).
  apply bind_Ok in Hrun as (_ & Hnew%bail_if_Ok%is_some_false & Hrun).
  apply bind_Ok in Hrun as ([tail' ws] & Hws & Hrun).
  destruct (commit_events_Ok _ _ _ _ _ _ Hws Htail) as (-> & -> & Hbound).
  apply bind_Ok in Hrun as (? & ->%put_cf_Ok & Hrun). apply bind_Ok in Hrun as (puts & Hputs & Hrun).
  apply bind_Ok in Hrun as (? & ->%put_cf_Ok & Hrun). apply bind_Ok in Hrun as (? & ->%put_cf_Ok & Hrun).
  apply bind_Ok in Hrun as (? & ->%put_cf_Ok & Hrun). injection Hrun as <-.
  split_and!; [|done|done]. unfold commit_writes. do 2 f_equal.
  destruct snapshot as [[key record]|]; [|by injection Hputs as <-].
  apply bind_Ok in Hputs as (? & ->%put_cf_Ok & Hputs). by injection Hputs as <-.
Qed.

(** What the checks before the write establish. *)
Lemma commit_acceptable records g c :
  represents records g → commit_ok c →
  validate_authorization_audit c = Ok tt → validate_sequences c = Ok tt →
  sv_result (gh_view g) (idempotency_scope c) = None →
  cq_expected_version c = N.of_nat (length (sv_stream (gh_view g) (stream_key c))) →
  records !! (AUTHORIZATION_AUDIT_CF,
    authorization_audit_storage_key (cq_tenant_id c) (cq_command_id c)) = None →
  acceptable (gh_view g) c.
Proof using.
  intros Hrep Hok Haudit [Hcont _]%validate_sequences_Ok Hfresh Hver Hnew.
  destruct (audit_valid _ Haudit) as (Hcover & Hscope). split; try done.
  apply eq_None_not_Some. intros Hsome. unfold audit_key in Hsome.
  apply (rp_audit _ _ _ _ _ _ Hrep _ _ (ck_tenant _ _ _ _ _ Hok) (ck_command _ _ _ _ _ Hok)) in Hsome.
  rewrite Hnew in Hsome. by destruct Hsome.
Qed.

(** What a commit leaves behind, by its answer. *)
Definition commit_effect g c (records : gmap StorageKey string) (r : res StoreError CommitOutcome) : Prop :=
  match r with
  | Ok (Committed result) =>
      acceptable (gh_view g) c ∧ result = cq_result c ∧ represents records (ghost_append g c)
  | Ok (Duplicate result) =>
      sv_result (gh_view g) (idempotency_scope c) = Some (mkStored (cq_command_id c) result) ∧
      represents records g
  | _ => represents records g ∨ acceptable (gh_view g) c ∧ represents records (ghost_append g c)
  end.

Lemma commit_failed d d' g c (r r' : res StoreError CommitOutcome) :
  represents (db_records d) g → (d, r') = (d', r) → is_ok r' = false →
  commit_effect g c (db_records d') r.
Proof using. intros Hrep [= <- <-] Hr. destruct r'; [done|by left..]. Qed.

Lemma rocks_commit_law d g c d' r :
  represents (db_records d) g → commit_ok c →
  rocks_commit encode_event encode_snapshot identifier_error crypto c d = (d', r) →
  commit_effect g c (db_records d') r.
Proof using LawfulDatabase0 LawfulCrypto0 LawfulMessage2.
  intros Hrep Hok Hrun.
  unfold rocks_commit in Hrun. rewrite lift_then in Hrun.
  destruct (validate_authorization_audit c) as [[]| |] eqn:Haudit; [|by apply (commit_failed _ _ _ _ _ _ Hrep Hrun)..].
  rewrite lift_then in Hrun.
  destruct (validate_sequences c) as [[]| |] eqn:Hseq; [|by apply (commit_failed _ _ _ _ _ _ Hrep Hrun)..].
  rewrite lift_then in Hrun.
  destruct (prepare_request _ _ _ c) as [[[prepared snapshot] audit]| |] eqn:Hprep; [|by apply (commit_failed _ _ _ _ _ _ Hrep Hrun)..].
  destruct (prepare_request_Ok _ _ _ _ Hprep) as (Hevents & Hsnap & Hkey).
  rewrite self_then, lift_then in Hrun.
  destruct (load_result _ d _ _ _ _) as [[result|]| |] eqn:Hres; [|..|by apply (commit_failed _ _ _ _ _ _ Hrep Hrun)|by apply (commit_failed _ _ _ _ _ _ Hrep Hrun)].
  { eapply load_result_Ok in Hres; [|exact Hrep|apply Hok..]. rewrite lift_then in Hrun.
    destruct (store_get d _) as [audited| |]; [|by apply (commit_failed _ _ _ _ _ _ Hrep Hrun)..].
    rewrite bail_if_then in Hrun. case_match; [by apply (commit_failed _ _ _ _ _ _ Hrep Hrun)|]. by injection Hrun as <- <-. }
  eapply load_result_Ok in Hres; [|exact Hrep|apply Hok..].
  rewrite lift_then in Hrun.
  destruct (read_version d _ _) as [actual| |] eqn:Hver; [|by apply (commit_failed _ _ _ _ _ _ Hrep Hrun)..].
  eapply read_version_Ok in Hver; [|exact Hrep|apply Hok..].
  rewrite bail_if_then in Hrun.
  destruct (N.eqb_spec actual (cq_expected_version c)) as [Hexp|]; cbn [negb] in Hrun; [|by apply (commit_failed _ _ _ _ _ _ Hrep Hrun)].
  rewrite lift_then in Hrun.
  destruct (read_u64_value d _) as [tail| |] eqn:Htail; [|by apply (commit_failed _ _ _ _ _ _ Hrep Hrun)..].
  eapply read_u64_Ok in Htail; [|apply (rp_tail _ _ _ _ _ _ Hrep)].
  rewrite lift_then in Hrun.
  destruct (build_commit_batch d c prepared snapshot audit tail) as [batch| |] eqn:Hbatch;
    [|by apply (commit_failed _ _ _ _ _ _ Hrep Hrun)..].
  pose proof (rp_outbox_bound _ _ _ _ _ _ Hrep) as Hob.
  apply build_commit_batch_Ok in Hbatch as (-> & Hnew & Hbound); [|by rewrite Htail].
  destruct (audit_valid _ Haudit) as (_ & Hat & _ & Hac). rewrite Hat, Hac in Hkey. rewrite Hkey in Hnew.
  assert (acceptable (gh_view g) c) as Hacc.
  { eapply commit_acceptable; [done..| |done]. rewrite <-Hexp. exact Hver. }
  apply validate_sequences_Ok in Hseq as [_ Hscoped].
  pose proof (represents_commit _ _ _ _ _ _ _ prepared snapshot audit Hrep Hok Hacc Hscoped Hevents Hsnap
    Hkey ltac:(by rewrite <-Htail)) as Hafter.
  rewrite <-Htail in Hafter. unfold mbind, method_bind, write_batch in Hrun.
  destruct (db_write _ d) as [d1 r1] eqn:Hw. apply db_write_law in Hw as [Hw|[Hr1 Hw]].
  - rewrite <-Hw in Hafter. destruct r1; injection Hrun as <- <-; [done|by right..].
  - destruct r1; [done|..]; injection Hrun as <- <-; left; by rewrite Hw.
Qed.

(** ** Committing through consensus *)
(** The families the workflow store reads. *)
Definition store_families : list string :=
  [EVENTS_CF; SNAPSHOTS_CF; STREAM_META_CF; OUTBOX_CF; IDEMPOTENCY_CF; AUTHORIZATION_AUDIT_CF;
   OUTBOX_META_CF].

(** The store is in the records of these families; the position of the publisher
    can move on its own. *)
Definition at_checkpoint g (checkpoint : N) : RocksGhost :=
  mkGhost (gh_view g) (gh_outbox g) checkpoint.

Lemma represents_agree_but records records' g checkpoint :
  (∀ key, key.1 ∈ store_families → key ≠ (OUTBOX_META_CF, OUTBOX_CHECKPOINT_KEY) →
     records !! key = records' !! key) →
  decode_u64_value (records' !! (OUTBOX_META_CF, OUTBOX_CHECKPOINT_KEY)) = Ok checkpoint →
  represents records g → represents records' (at_checkpoint g checkpoint).
Proof using.
  intros Heq Hcheckpoint [].
  assert (∀ family key, bool_decide (family ∈ store_families) = true →
    bool_decide (family = OUTBOX_META_CF) = false →
    records' !! (family, key) = records !! (family, key)) as Hlook.
  { intros family key Hin%bool_decide_eq_true Hne%bool_decide_eq_false. symmetry. apply Heq; [done|].
    intros Heq'. apply (f_equal fst) in Heq'. done. }
  split; cbn [gh_view gh_outbox gh_checkpoint at_checkpoint]; try done; try (setoid_rewrite Hlook; done).
  rewrite <-rp_tail. f_equal. symmetry. apply Heq; [apply (bool_decide_unpack _); reflexivity|done].
Qed.

Lemma represents_agree records records' g :
  (∀ key, key.1 ∈ store_families → records !! key = records' !! key) →
  represents records g → represents records' g.
Proof using.
  intros Heq Hrep. destruct g as [view outbox checkpoint].
  apply (represents_agree_but records records' (mkGhost view outbox checkpoint) checkpoint); auto.
  rewrite <-Heq; [exact (rp_checkpoint _ _ _ _ _ _ Hrep)|].
  apply (bool_decide_unpack _). reflexivity.
Qed.

Lemma current_db_Ok d family key condition :
  current_db sha256 d family key = Ok condition →
  condition = current sha256 family key (db_records d !! (family, key)).
Proof using LawfulDatabase0.
  unfold current_db. intros Hrun. apply bind_Ok in Hrun as (value & ->%store_get_Ok & Hrun).
  by injection Hrun as <-.
Qed.

Lemma prepare_events_Ok c ids tail prepared tail' conditions mutations :
  prepare_events c ids tail prepared = Ok (tail', conditions, mutations) → (tail ≤ u64_max)%N →
  mutations = event_writes c tail prepared ∧ tail' = (tail + N.of_nat (length prepared))%N ∧
  (tail' ≤ u64_max)%N ∧
  Forall (λ condition, (pre_storage_key condition).1 ∈ [EVENTS_CF; DEDUP_CF; OUTBOX_CF]) conditions.
Proof using.
  revert ids tail conditions mutations.
  induction prepared as [|[[e record] key] prepared IH]; intros ids tail conditions mutations Hrun Htail;
    cbn [prepare_events] in Hrun.
  { injection Hrun as <- <- <-. split_and!; [done|simpl; lia|done|constructor]. }
  cbv zeta in Hrun. apply bind_Ok in Hrun as (_ & _ & Hrun).
  apply bind_Ok in Hrun as (next & Hnext%ok_or_Ok & Hrun). apply checked_add_Some in Hnext as [-> Hnext].
  apply bind_Ok in Hrun as ([[tail2 cs] ms] & Hrest & Hrun). injection Hrun as <- <- <-.
  destruct (IH _ _ _ _ Hrest) as (-> & -> & ? & ?); [lia|]. split_and!; [done| |done|].
  - cbn [length]. lia.
  - repeat (constructor; [apply (bool_decide_unpack _); reflexivity|]). done.
Qed.

(** A proposal: the writes of the commit, on the outbox tail that was read,
    under conditions that pin the version, the tail and the new keys. *)
Record proposal c (b : PreparedAtomicBatch) : Prop := {
  pl_command : pb_command_id b = cq_command_id c;
  pl_scope : pb_idempotency_scope b =
    idempotency_storage_key (cq_tenant_id c) (cq_actor_id c) (cq_idempotency_key c);
  pl_response : pb_response_payload b = encode_message (command_result c);
  pl_audit : validate_authorization_audit c = Ok tt;
  pl_sequences : validate_sequences c = Ok tt;
  pl_writes : ∃ prepared snapshot audit tail value,
    Forall2 (event_prepared c) (cq_events c) prepared ∧ snapshot_prepared c snapshot ∧
    audit.1 = authorization_audit_storage_key (cq_tenant_id c) (cq_command_id c) ∧
    decode_u64_value value = Ok tail ∧ (tail + N.of_nat (length prepared) ≤ u64_max)%N ∧
    pb_mutations b = commit_writes c prepared snapshot audit tail ∧
    current sha256 OUTBOX_META_CF OUTBOX_TAIL_KEY value ∈ pb_preconditions b;
  pl_version : current sha256 STREAM_META_CF (stream_meta_key (cq_tenant_id c) (cq_instance_id c))
    (if (0 <? cq_expected_version c)%N then Some (be_bytes 8 (cq_expected_version c)) else None)
    ∈ pb_preconditions b;
  pl_fresh : missing IDEMPOTENCY_CF
    (idempotency_storage_key (cq_tenant_id c) (cq_actor_id c) (cq_idempotency_key c))
    ∈ pb_preconditions b;
  pl_unaudited : missing AUTHORIZATION_AUDIT_CF
    (authorization_audit_storage_key (cq_tenant_id c) (cq_command_id c)) ∈ pb_preconditions b;
  pl_families : Forall (λ condition, (pre_storage_key condition).1 ∈ DEDUP_CF :: store_families ∧
    pre_storage_key condition ≠ (OUTBOX_META_CF, OUTBOX_CHECKPOINT_KEY)) (pb_preconditions b) }.

Lemma prepare_workflow_batch_Ok d0 d c b :
  prepare_workflow_batch encode_event encode_snapshot identifier_error sha256 crypto d0 d c = Ok (Proposal b) →
  proposal c b.
Proof using LawfulDatabase0 LawfulCrypto0.
  unfold prepare_workflow_batch. intros Hrun. apply bind_Ok in Hrun as ([] & Haudit & Hrun).
  apply bind_Ok in Hrun as ([] & Hseq & Hrun). apply bind_Ok in Hrun as (earlier & _ & Hrun).
  destruct earlier; [done|]. apply bind_Ok in Hrun as ([[prepared snapshot] audit] & Hprep & Hrun).
  destruct (prepare_request_Ok _ _ _ _ Hprep) as (Hevents & Hsnap & Hkey).
  destruct (audit_valid _ Haudit) as (_ & Hat & _ & Hac). rewrite Hat, Hac in Hkey.
  apply bind_Ok in Hrun as (batch & Hbatch & Hrun). injection Hrun as ->.
  unfold build_prepared_workflow_batch in Hbatch. cbv zeta in Hbatch.
  apply bind_Ok in Hbatch as (tail_condition & ->%current_db_Ok & Hbatch).
  apply bind_Ok in Hbatch as (snapshot_conditions & Hsc & Hbatch).
  apply bind_Ok in Hbatch as (tail & Htail & Hbatch).
  apply bind_Ok in Hbatch as ([[tail' cs] ms] & Hpe & Hbatch).
  unfold read_u64_value in Htail. apply bind_Ok in Htail as (value & ->%store_get_Ok & Htail%map_err_Ok).
  assert (tail ≤ u64_max)%N as Hmax.
  { unfold decode_u64_value in Htail. destruct (_ !! _) as [bytes|]; [|injection Htail as <-; done].
    by apply ok_or_Ok, u64_from_be_max in Htail. }
  destruct (prepare_events_Ok _ _ _ _ _ _ _ Hpe Hmax) as (-> & -> & Hbound & Hcs).
  injection Hbatch as <-. split; try done; simpl.
  - exists prepared, snapshot, audit, tail, (db_records d !! (OUTBOX_META_CF, OUTBOX_TAIL_KEY)).
    split_and!; try done. right; right; right; left.
  - by left.
  - right; by left.
  - rewrite <-Hkey. right; right; by left.
  - repeat (apply Forall_cons; split; [by split; [apply (bool_decide_unpack _)|]|]). apply Forall_app. split.
    + destruct snapshot as [[k record]|]; [|injection Hsc as <-; constructor].
      apply bind_Ok in Hsc as (condition & ->%current_db_Ok & Hsc). injection Hsc as <-.
      apply Forall_singleton. by split; [apply (bool_decide_unpack _)|].
    + eapply Forall_impl; [exact Hcs|]. intros condition Hin. split; [simpl in *; set_solver +Hin|].
      intros Heq. cbv beta in Hin. rewrite Heq in Hin. revert Hin. by apply (bool_decide_unpack (_ ∉ _)).
Qed.
End proofs.
