(* ===== verification/RocksExamples.v ===== *)
(** * A small database, cipher and byte format

    Concrete instances of what the storage layer takes as parameters, and a
    commit, to evaluate it on. *)

From Stdlib Require Import Ascii.
From S2P Require Import Prelude Bytes RaftBatch RaftMachine StorageKeys Database RocksRaft PayloadCrypto.
From S2P Require Import Types Evolve Outbox Ports Wire EventCodec SnapshotCodec MemoryStore.
From S2P Require Import RocksStore RocksSpec RocksProofs.
From stdpp Require Import options.

(** ** Bytes *)
Fixpoint bits (p : positive) : string :=
  match p with
  | xH => ""
  | xO p => String "0" (bits p)
  | xI p => String "1" (bits p)
  end.
Fixpoint unbits (s : string) : positive :=
  match s with
  | "" => xH
  | String a s => if bool_decide (a = "0"%char) then xO (unbits s) else xI (unbits s)
  end.
Lemma unbits_bits p : unbits (bits p) = p.
Proof. induction p as [p IH|p IH|]; simpl; rewrite ?IH; by try case_bool_decide. Qed.

Section format.
Context {A : Type} `{Countable A}.
Definition write (a : A) : string := bits (encode a).
Definition read (s : string) : res string A := ok_or (decode (unbits s)) "malformed".
Lemma read_write a : read (write a) = Ok a.
Proof. unfold read, write. by rewrite unbits_bits, countable.decode_encode. Qed.
End format.

(** Records are lists of fields. *)
Definition unfield {A} `{Countable A, Inhabited A} (s : string) : A :=
  match read s with Ok a => a | _ => inhabitant end.
Lemma unfield_write {A} `{Countable A, Inhabited A} (a : A) : unfield (write a) = a.
Proof. unfold unfield. by rewrite read_write. Qed.

#[export] Instance EncryptedEventRecord_eq_dec : EqDecision EncryptedEventRecord.
Proof. solve_decision. Defined.
#[export] Instance EncryptedEventRecord_countable : Countable EncryptedEventRecord.
Proof.
  refine (inj_countable
    (λ '(mkEventRecord x0 x1 x2 x3 x4 x5 x6), [write x0; x1; x2; write x3; x4; x5; x6])
    (λ l, match l with [x0; x1; x2; x3; x4; x5; x6] => Some (mkEventRecord (unfield x0) x1 x2 (unfield x3) x4 x5 x6) | _ => None end) _).
  intros []. by rewrite ?unfield_write.
Defined.
#[export] Instance EncryptedSnapshotRecord_eq_dec : EqDecision EncryptedSnapshotRecord.
Proof. solve_decision. Defined.
#[export] Instance EncryptedSnapshotRecord_countable : Countable EncryptedSnapshotRecord.
Proof.
  refine (inj_countable
    (λ '(mkEncryptedSnapshot x0 x1 x2 x3 x4 x5 x6 x7), [write x0; write x1; x2; x3; write x4; x5; x6; x7])
    (λ l, match l with [x0; x1; x2; x3; x4; x5; x6; x7] => Some (mkEncryptedSnapshot (unfield x0) (unfield x1) x2 x3 (unfield x4) x5 x6 x7) | _ => None end) _).
  intros []. by rewrite ?unfield_write.
Defined.
#[export] Instance StoredCommandResult_eq_dec : EqDecision StoredCommandResult.
Proof. solve_decision. Defined.
#[export] Instance StoredCommandResult_countable : Countable StoredCommandResult.
Proof.
  refine (inj_countable
    (λ '(mkStoredCommand x0 x1 x2 x3 x4), [x0; write x1; write x2; x3; x4])
    (λ l, match l with [x0; x1; x2; x3; x4] => Some (mkStoredCommand x0 (unfield x1) (unfield x2) x3 x4) | _ => None end) _).
  intros []. by rewrite ?unfield_write.
Defined.
#[export] Instance OutboxEntry_eq_dec : EqDecision OutboxEntry.
Proof. solve_decision. Defined.
#[export] Instance OutboxEntry_countable : Countable OutboxEntry.
Proof.
  refine (inj_countable
    (λ '(mkOutboxEntry x0 x1 x2 x3 x4), [x0; x1; write x2; x3; write x4])
    (λ l, match l with [x0; x1; x2; x3; x4] => Some (mkOutboxEntry x0 x1 (unfield x2) x3 (unfield x4)) | _ => None end) _).
  intros []. by rewrite ?unfield_write.
Defined.

#[export] Instance message_format {M} `{Countable M} : Message M :=
  {| encode_message := write; decode_message := read |}.
#[export] Instance message_format_lawful {M} `{Countable M} : LawfulMessage M := read_write.
(** Audits are only written. *)
#[export] Instance audit_format : Message AuthorizationAuditRecord :=
  {| encode_message := ar_decision_id; decode_message _ := Err "unreadable" |}.
#[export] Instance encrypted_audit_format : Message EncryptedAuthorizationAuditRecord :=
  {| encode_message := ea_ciphertext; decode_message _ := Err "unreadable" |}.

(** ** A database in memory *)
#[export] Instance map_database : Database (gmap StorageKey string) := {|
  db_has_family _ _ := true;
  db_get d key := Ok (d !! key);
  db_iterator d family from := Ok <$> scan d family from;
  db_write batch d := (foldl apply_mutation_record d batch, Ok tt) |}.
#[export] Program Instance map_database_lawful : LawfulDatabase (gmap StorageKey string) :=
  {| db_records d := d |}.
Next Obligation. intros d key value Hget. by injection Hget as <-. Qed.
Next Obligation. intros d family from. by left. Qed.
Next Obligation. intros batch d d' r Hw. injection Hw as <- <-. by left. Qed.

(** ** A cipher that hides nothing *)
#[export] Instance plain_crypto : PayloadCryptoPort unit := {|
  encrypt _ _ scope aad plaintext := Ok (mkPayload scope "1" 1 "plain" aad plaintext);
  decrypt _ _ payload := Ok (ep_ciphertext payload) |}.
#[export] Program Instance plain_crypto_lawful : LawfulCrypto unit :=
  {| seals _ payload plaintext := ep_ciphertext payload = plaintext |}.
Next Obligation. intros c n scope aad plaintext payload Henc. by injection Henc as <-. Qed.
Next Obligation. intros c aad payload plaintext plaintext' <- Hdec. by injection Hdec as <-. Qed.

(** ** A commit *)
Definition first_event : EventEnvelope :=
  mkEnvelope
    (mkEventMetadata "c1:1" "acme" "order-1" 1 1 "trace" "c1" 1 "1" "1" "alice" "events" "order" "1")
    (WorkflowStarted "acme" "order" "1" "start" 1).
Definition first_audit : AuthorizationAudit :=
  mkAuthorizationAudit "d1" "acme" "alice" "engine" [] "start" "order" "1" "order-1" "" "1" "1" 1 1 1 "c1"
    "trace" ["g1"] "audit".
Definition first_result : CommittedResult := mkCommitted 1 ["c1:1"] "1" "1".
Definition first_commit : CommitRequest :=
  mkCommit "acme" "order-1" "alice" "k1" "c1" 0 [first_event] None first_audit first_result.

(** The byte format of the one event there is. *)
Definition event_bytes (_ : Wire.EventEnvelope) : string := "started".
Definition event_unbytes (_ : string) : Wire.EventEnvelope + string := inl (to_wire first_event).
Definition no_snapshot_bytes (_ : Wire.WorkflowSnapshot) : string := "".
Definition no_snapshot_unbytes (_ : string) : Wire.WorkflowSnapshot + string := inr "no snapshots".

Lemma short_small s : (N.of_nat (String.length s) <=? u32_max)%N = true → short s.
Proof. unfold short. lia. Qed.
Lemma first_commit_ok :
  commit_ok event_bytes event_unbytes no_snapshot_bytes no_snapshot_unbytes first_commit.
Proof.
  split; try (by apply short_small); try done.
  apply Forall_singleton. unfold faithful_event. by vm_compute.
Qed.

(** ** A node *)
Definition node_types : RaftTypes := {|
  LogId := N; Membership := list N; Membership_default := [];
  leader_id_display _ := "T1"; log_index i := i |}.
#[export] Existing Instance node_types.
#[export] Instance metadata_countable : Countable StateMachineMetadata.
Proof.
  refine (inj_countable' (A:=option N * (option N * list N))
    (λ m, (md_last_applied m, md_membership m)) (λ '(x0, x1), RaftBatch.mkMetadata x0 x1) _); by intros [].
Defined.
#[export] Instance outcome_countable : Countable ApplyOutcome.
Proof.
  refine (inj_countable' (A:=unit + (unit + (N + string)))
    (λ o, match o with
          | Applied => inl ()
          | Apply_Duplicate => inr (inl ())
          | PreconditionFailed i => inr (inr (inl i))
          | Rejected reason => inr (inr (inr reason))
          end)
    (λ o, match o with
          | inl _ => Applied
          | inr (inl _) => Apply_Duplicate
          | inr (inr (inl i)) => PreconditionFailed i
          | inr (inr (inr reason)) => Rejected reason
          end) _); by intros [].
Defined.
#[export] Instance outcome_inhabited : Inhabited ApplyOutcome := populate Applied.
#[export] Instance ApplyResponse_eq_dec : EqDecision ApplyResponse.
Proof. solve_decision. Defined.
#[export] Instance ApplyResponse_countable : Countable ApplyResponse.
Proof.
  refine (inj_countable
    (λ '(mkResponse x0 x1 x2 x3), [x0; x1; write x2; x3])
    (λ l, match l with [x0; x1; x2; x3] => Some (mkResponse x0 x1 (unfield x2) x3) | _ => None end) _).
  intros []. by rewrite ?unfield_write.
Defined.
#[export] Instance snapshot_record_eq_dec : EqDecision RocksStateSnapshotRecord.
Proof. solve_decision. Defined.
#[export] Instance snapshot_record_countable : Countable RocksStateSnapshotRecord.
Proof.
  refine (inj_countable' (λ '(mkSnapshotRecord x0 x1 x2), (x0, x1, x2))
    (λ '(x0, x1, x2), mkSnapshotRecord x0 x1 x2) _); by intros [].
Defined.
#[export] Instance rocks_snapshot_eq_dec : EqDecision RocksStateSnapshot.
Proof. solve_decision. Defined.
#[export] Instance rocks_snapshot_countable : Countable RocksStateSnapshot.
Proof.
  refine (inj_countable' (λ '(mkRocksSnapshot x0 x1), (x0, x1))
    (λ '(x0, x1), mkRocksSnapshot x0 x1) _); by intros [].
Defined.
#[export] Instance persisted_eq_dec : EqDecision PersistedSnapshot.
Proof. solve_decision. Defined.
#[export] Instance persisted_countable : Countable PersistedSnapshot.
Proof.
  refine (inj_countable' (λ p, (ps_metadata p, ps_application_state p))
    (λ '(x0, x1), mkPersisted x0 x1) _); by intros [].
Defined.

Definition write_ok {A} `{Countable A} (a : A) : res string string := Ok (write a).
Definition write_pieces {A} `{Countable A} (a : A) : res string (list string) := Ok [write a].
Lemma read_write_ok {A} `{Countable A} (a : A) bytes : write_ok a = Ok bytes → read bytes = Ok a.
Proof. intros Hw. injection Hw as <-. apply read_write. Qed.
Lemma read_write_pieces {A} `{Countable A} (a : A) pieces :
  write_pieces a = Ok pieces → read (join_pieces pieces) = Ok a.
Proof.
  intros Hw. injection Hw as <-. unfold join_pieces, concat_bytes. simpl. rewrite append_nil_r. apply read_write.
Qed.

Definition node_sha256 (bytes : string) : string := bytes.
Definition node_json (b : PreparedAtomicBatch) : option string := Some (pb_command_id b).
Definition node_limits : StateMachineLimits := mkLimits 32 32 65536 65536 "/snapshots" ∅.
Definition node_config_error (_ : string) : string := "blank identifier".
Definition first_batch : PreparedAtomicBatch :=
  match prepare_workflow_batch event_bytes no_snapshot_bytes node_config_error node_sha256 () ∅ ∅ first_commit with
  | Ok (Proposal b) => b
  | _ => PreparedAtomicBatch_new node_sha256 "" "" [] [] ""
  end.
Lemma first_prepared :
  prepare_workflow_batch event_bytes no_snapshot_bytes node_config_error node_sha256 () ∅ ∅ first_commit
  = Ok (Proposal first_batch).
Proof. by vm_compute. Qed.
