(* ===== verification/RocksOutbox.v ===== *)
(** * The outbox of the RocksDB store keeps its contract

    What the publisher reads are the committed events behind its position, in
    the order of their commits; its position only moves forward, over events
    that exist. *)

From S2P Require Import Prelude Bytes RaftBatch StorageKeys Database PayloadCrypto.
From S2P Require Import Types Evolve Outbox Ports EngineSpec Wire EventCodec SnapshotCodec MemoryStore.
From S2P Require Import RocksStore RocksSpec RocksProofs.
From stdpp Require Import options.

Section outbox.
Context {D : Type} `{!Database D} `{!LawfulDatabase D}.
Context {C : Type} `{!PayloadCryptoPort C} `{!LawfulCrypto C}.
Context `{!Message EncryptedEventRecord, !Message EncryptedSnapshotRecord,
  !Message EncryptedAuthorizationAuditRecord, !Message StoredCommandResult, !Message OutboxEntry,
  !Message AuthorizationAuditRecord}.
Context `{!LawfulMessage EncryptedEventRecord, !LawfulMessage EncryptedSnapshotRecord,
  !LawfulMessage StoredCommandResult, !LawfulMessage OutboxEntry}.
Context (encode_event : Wire.EventEnvelope → string)
  (decode_event : string → Wire.EventEnvelope + string)
  (encode_snapshot : Wire.WorkflowSnapshot → string)
  (decode_snapshot : string → Wire.WorkflowSnapshot + string).
Context (event_error : EventCodecError → string)
  (identifier_error : string → string) (store_error : StoreError → string) (crypto : C).
Implicit Types (d : D) (g : RocksGhost).
Abbreviation represents := (represents encode_event decode_event encode_snapshot decode_snapshot).

(** The record of the event number [n] of the outbox, counted from 1. *)
Definition published_record (n : N) (e : EventEnvelope) : OutboxRecord :=
  let m := ee_metadata e in
  mkOutboxRecord n (em_tenant_id m) (em_instance_id m) (em_event_id m) (em_correlation_id m)
    (em_causation_command_id m) (EventCodec_encode encode_event e).
Definition published_records g : list OutboxRecord :=
  imap (λ i e, published_record (N.of_nat i + 1) e) (gh_outbox g).

Lemma load_outbox_record_Ok d g n e record :
  represents (db_records d) g → gh_outbox g !! n = Some e →
  load_outbox_record decode_event event_error identifier_error store_error crypto d
    (event_entry e (N.of_nat n + 1)) = Ok record →
  record = published_record (N.of_nat n + 1) e.
Proof using LawfulDatabase0 LawfulCrypto0 LawfulMessage0.
  intros Hrep He Hrun. destruct (rp_entry _ _ _ _ _ _ Hrep _ _ He) as (_ & Ht & Hi & Hin).
  apply list_elem_of_lookup in Hin as [j Hj]. destruct (rp_event _ _ _ _ _ _ Hrep _ _ _ _ Ht Hi Hj) as
    (value & Hvalue & payload & -> & Hseal & Hfaithful).
  pose proof (contiguous_from_lookup _ _ _ _ (rp_contiguous _ _ _ _ _ _ Hrep _) Hj) as Hseq.
  unfold load_outbox_record, outbox_identifier in Hrun. cbn [event_entry oe_tenant_id oe_instance_id oe_sequence] in Hrun.
  apply bind_Ok in Hrun as (t & Ht' & Hrun). inv_res Ht'. apply bind_Ok in Hrun as (i & Hi' & Hrun). inv_res Hi'.
  cbv zeta in Hrun. replace (em_sequence (ee_metadata e)) with (N.of_nat j + 1)%N in Hrun by lia.
  apply bind_Ok in Hrun as (found & Hget & Hrun). unfold outbox_get in Hget.
  apply bind_Ok in Hget as (_ & _ & ->%map_err_Ok%db_get_law). cbn [fst snd] in *. rewrite Hvalue in Hrun.
  cbn [ok_or mbind res_bind] in Hrun. rewrite decode_encode in Hrun. cbn [map_err mbind res_bind] in Hrun.
  apply bind_Ok in Hrun as (encrypted & Henc%map_err_Ok & Hrun).
  apply encrypted_payload_Ok in Henc as ->.
  apply bind_Ok in Hrun as (plaintext & Hdec%map_err_Ok & Hrun).
  apply (decrypt_law _ _ _ _ _ Hseal) in Hdec as ->.
  apply bind_Ok in Hrun as (event & Hev%map_err_Ok & Hrun). unfold faithful_event in Hfaithful.
  rewrite Hfaithful in Hev. injection Hev as <-. by injection Hrun as <-.
Qed.

Definition outbox_entries g : list (string * string) :=
  imap (λ i e, (be_bytes 8 (N.of_nat i + 1), encode_message (event_entry e (N.of_nat i + 1)))) (gh_outbox g).

Lemma scan_outbox records g cursor :
  represents records g → (cursor + 1 ≤ u64_max)%N →
  scan records OUTBOX_CF (be_bytes 8 (cursor + 1)) = drop (N.to_nat cursor) (outbox_entries g).
Proof using.
  intros Hrep Hcursor. pose proof (rp_outbox_bound _ _ _ _ _ _ Hrep) as Hbound.
  assert (∀ n p, drop (N.to_nat cursor) (outbox_entries g) !! n = Some p →
    ∃ e, gh_outbox g !! (N.to_nat cursor + n) = Some e ∧
      p = (be_bytes 8 (cursor + N.of_nat n + 1), encode_message (event_entry e (cursor + N.of_nat n + 1)))) as Hkeys.
  { intros n p. rewrite lookup_drop. intros (e & He & ->)%list_lookup_imap_Some. exists e. split; [done|].
    by replace (N.of_nat (N.to_nat cursor + n)) with (cursor + N.of_nat n)%N by lia. }
  assert (∀ n k, (drop (N.to_nat cursor) (outbox_entries g)).*1 !! n = Some k →
    k = be_bytes 8 (cursor + N.of_nat n + 1) ∧ (cursor + N.of_nat n + 1 ≤ u64_max)%N) as Hfst.
  { intros n k Hk. apply list_lookup_fmap_Some in Hk as (p & -> & Hp).
    apply Hkeys in Hp as (e & He & ->). apply lookup_lt_Some in He. split; [done|lia]. }
  destruct (scan_expected records OUTBOX_CF (be_bytes 8 (cursor + 1)) (λ _, true)
    (drop (N.to_nat cursor) (outbox_entries g))) as (rest & -> & Hrest).
  - done.
  - apply StronglySorted_lookup. intros n n' a b Hn [-> ?]%Hfst [-> ?]%Hfst. apply be_bytes_8_le; lia.
  - apply NoDup_alt. intros n n' k [-> ?]%Hfst [Heq ?]%Hfst. apply be_bytes_8_inj in Heq; lia.
  - intros k v. split.
    + intros [n Hn]%list_elem_of_lookup. apply Hkeys in Hn as (e & He & [= -> ->]).
      pose proof (lookup_lt_Some _ _ _ He). destruct (rp_entry _ _ _ _ _ _ Hrep _ _ He) as (Hrec & _).
      replace (N.of_nat (N.to_nat cursor + n) + 1)%N with (cursor + N.of_nat n + 1)%N in Hrec by lia.
      split_and!; [apply be_bytes_8_le; lia|done|done].
    + intros (Hle & Hv & _). destruct (rp_entries _ _ _ _ _ _ Hrep _ _ Hv) as (n & Hn & ->).
      apply be_bytes_8_le in Hle; [|lia..]. pose proof Hn as [e He]%lookup_lt_is_Some.
      destruct (rp_entry _ _ _ _ _ _ Hrep _ _ He) as (Hrec & _). rewrite Hrec in Hv. injection Hv as <-.
      apply list_elem_of_lookup. exists (n - N.to_nat cursor). rewrite lookup_drop.
      replace (N.to_nat cursor + (n - N.to_nat cursor)) with n by lia.
      apply list_lookup_imap_Some. by exists e.
  - destruct rest as [|q rest]; [by rewrite app_nil_r|]. by specialize (Hrest q ltac:(by left)).
Qed.

Lemma read_items_Ok d g cursor limit n items found acc out :
  represents (db_records d) g → (cursor ≤ N.of_nat n)%N → found = drop n (outbox_entries g) →
  length acc ≤ limit → iterates items found →
  read_outbox_items decode_event event_error identifier_error store_error crypto d cursor limit items acc
    = Ok out →
  out = acc ++ take (limit - length acc) (drop n (published_records g)).
Proof using LawfulDatabase0 LawfulCrypto0 LawfulMessage0 LawfulMessage3.
  intros Hrep Hn. pose proof (rp_outbox_bound _ _ _ _ _ _ Hrep) as Hbound. revert n items acc Hn.
  induction found as [|p found IH]; intros n items acc Hn Hfound Hlen Hit Hrun.
  - assert (drop n (published_records g) = []) as ->.
    { apply drop_ge. apply (f_equal length) in Hfound. rewrite length_drop in Hfound.
      unfold outbox_entries, published_records in *. rewrite length_imap in Hfound. rewrite length_imap. simpl in Hfound. lia. }
    rewrite take_nil, app_nil_r.
    apply iterates_nil in Hit as [->|(item & rest & Hitem & ->)]; [by injection Hrun as <-|].
    simpl in Hrun. destruct (length acc =? limit)%nat; [by injection Hrun as <-|by destruct item].
  - assert (outbox_entries g !! n = Some p) as Hp by (by rewrite <-(Nat.add_0_r n), <-lookup_drop, <-Hfound).
    pose proof Hp as (e & He & ->)%list_lookup_imap_Some.
    assert (drop n (published_records g) = published_record (N.of_nat n + 1) e :: drop (S n) (published_records g)) as Hdrop.
    { apply drop_S. unfold published_records. rewrite list_lookup_imap, He. done. }
    apply iterates_cons in Hit as [(item & rest & Hitem & ->)|(items' & -> & Hit)].
    { simpl in Hrun. destruct (Nat.eqb_spec (length acc) limit) as [Heq|]; [|by destruct item].
      injection Hrun as <-. by rewrite Heq, Nat.sub_diag, take_0, app_nil_r. }
    cbn [read_outbox_items] in Hrun. destruct (Nat.eqb_spec (length acc) limit) as [Heq|Hne].
    { injection Hrun as <-. by rewrite Heq, Nat.sub_diag, take_0, app_nil_r. }
    cbn [map_err mbind res_bind] in Hrun. unfold decode_outbox_cursor in Hrun.
    pose proof (lookup_lt_Some _ _ _ He). rewrite u64_from_be_bytes in Hrun by lia.
    cbn [ok_or mbind res_bind] in Hrun. rewrite decode_encode in Hrun. cbn [map_err mbind res_bind] in Hrun.
    apply bind_Ok in Hrun as (_ & _ & Hrun). apply bind_Ok in Hrun as (record & Hrec & Hrun).
    apply (load_outbox_record_Ok _ _ _ _ _ Hrep He) in Hrec as ->.
    eapply (IH (S n)) in Hrun; [|lia| |rewrite length_app; simpl; lia|exact Hit].
    2:{ apply (f_equal (drop 1)) in Hfound. rewrite drop_drop in Hfound. by rewrite Nat.add_1_r in Hfound. }
    rewrite Hrun, Hdrop, <-(assoc_L (++)), length_app. f_equal. simpl.
    by replace (limit - length acc) with (S (limit - (length acc + 1))) by lia.
Qed.

(** Reads and the publisher's position. *)
Lemma rocks_read_after_Ok d g cursor limit records :
  represents (db_records d) g →
  rocks_read_after decode_event event_error identifier_error store_error crypto d cursor limit = Ok records →
  records = take limit (drop (N.to_nat cursor) (published_records g)).
Proof using LawfulDatabase0 LawfulCrypto0 LawfulMessage0 LawfulMessage3.
  intros Hrep Hrun. unfold rocks_read_after in Hrun. apply bind_Ok in Hrun as (_ & _ & Hrun).
  apply bind_Ok in Hrun as (start & Hstart%ok_or_Ok & Hrun). apply checked_add_Some in Hstart as [-> Hmax].
  apply bind_Ok in Hrun as (_ & _ & Hrun).
  pose proof (db_iterator_law d OUTBOX_CF (be_bytes 8 (cursor + 1))) as Hit.
  rewrite (scan_outbox _ _ _ Hrep Hmax) in Hit.
  eapply read_items_Ok in Hrun; [|exact Hrep| |done|simpl; lia|exact Hit]; [|lia].
  by rewrite Nat.sub_0_r in Hrun.
Qed.

Lemma read_outbox_u64_Ok d key n n' :
  decode_u64_value (db_records d !! (OUTBOX_META_CF, key)) = Ok n →
  read_outbox_u64 d key = Ok n' → n' = n.
Proof using LawfulDatabase0.
  intros Hn Hrun. unfold read_outbox_u64, outbox_get in Hrun. apply bind_Ok in Hrun as (value & Hget & Hrun).
  apply bind_Ok in Hget as (_ & _ & ->%map_err_Ok%db_get_law). rewrite Hn in Hrun. by injection Hrun as <-.
Qed.

Lemma rocks_publisher_checkpoint_Ok d g n :
  represents (db_records d) g → rocks_publisher_checkpoint d = Ok n → n = gh_checkpoint g.
Proof using LawfulDatabase0. intros Hrep. apply read_outbox_u64_Ok, Hrep. Qed.

(** A checkpoint moves the position as asked, if it is where the publisher
    expects it and the new one is behind no gap; otherwise nothing changes. A
    failed write may have been made. *)
Definition checkpoint_moves g (expected committed : N) records : Prop :=
  gh_checkpoint g = expected ∧ (expected < committed ≤ N.of_nat (length (gh_outbox g)))%N ∧
  represents records (at_checkpoint g committed).
Lemma rocks_checkpoint_law d g expected committed d' r :
  represents (db_records d) g →
  rocks_checkpoint expected committed d = (d', r) →
  if is_ok r then checkpoint_moves g expected committed (db_records d')
  else represents (db_records d') g ∨ checkpoint_moves g expected committed (db_records d').
Proof using LawfulDatabase0.
  intros Hrep Hrun.
  unfold rocks_checkpoint in Hrun. rewrite self_then, lift_then in Hrun.
  destruct (read_outbox_u64 d OUTBOX_CHECKPOINT_KEY) as [current| |] eqn:Hcur; [|injection Hrun as <- <-; by left..].
  eapply read_outbox_u64_Ok in Hcur; [|apply (rp_checkpoint _ _ _ _ _ _ Hrep)].
  rewrite lift_then in Hrun.
  destruct (read_outbox_u64 d OUTBOX_TAIL_KEY) as [tail| |] eqn:Htail; [|injection Hrun as <- <-; by left..].
  eapply read_outbox_u64_Ok in Htail; [|apply (rp_tail _ _ _ _ _ _ Hrep)].
  rewrite bail_if_then in Hrun.
  destruct (N.eqb_spec current expected) as [Heq|]; cbn [negb] in Hrun; [|injection Hrun as <- <-; by left].
  rewrite bail_if_then in Hrun. destruct (_ || _) eqn:Hrange; [injection Hrun as <- <-; by left|].
  apply orb_false_iff in Hrange as [Hlow%N.leb_gt Hhigh%N.ltb_ge].
  rewrite lift_then in Hrun. destruct (outbox_named_cf d OUTBOX_META_CF); [|injection Hrun as <- <-; by left..].
  assert (represents (foldl apply_mutation_record (db_records d)
    [Put (OUTBOX_META_CF, OUTBOX_CHECKPOINT_KEY) (be_bytes 8 committed)]) (at_checkpoint g committed)) as Hafter.
  { eapply represents_agree_but; [| |exact Hrep]; cbn [foldl apply_mutation_record].
    - intros key _ Hne. by rewrite lookup_insert_ne.
    - rewrite lookup_insert, decide_True by done. unfold decode_u64_value.
      pose proof (rp_outbox_bound _ _ _ _ _ _ Hrep). by rewrite u64_from_be_bytes by lia. }
  assert (∀ records, records = foldl apply_mutation_record (db_records d)
    [Put (OUTBOX_META_CF, OUTBOX_CHECKPOINT_KEY) (be_bytes 8 committed)] →
    checkpoint_moves g expected committed records) as Hmoves.
  { intros records ->. split_and!; [congruence|lia|lia|done]. }
  unfold put_checkpoint in Hrun. destruct (db_write _ d) as [d1 r1] eqn:Hw. injection Hrun as <- <-.
  apply db_write_law in Hw as [Hw|[Hr1 Hw]].
  - destruct r1; simpl; [by apply Hmoves|right; by apply Hmoves..].
  - destruct r1; [done|..]; simpl; left; by rewrite Hw.
Qed.
End outbox.
