(* ===== verification/ReplicatedStore.v ===== *)
(** * The workflow store behind consensus (bpmp-engine-server/src/raft_runtime.rs)

    [RaftWorkflowStore] prepares a commit as a batch of conditions and
    mutations, has consensus put it in the log, and answers from what applying
    it gave.  A batch is prepared on one state of the database and applied on
    another; here it is shown that it is a commit the latter accepts, or
    changes nothing, so that every prefix of the log is a serial history of
    accepted commits. *)

From S2P Require Import Prelude Effects Bytes RaftBatch RaftMachine RaftCluster.
From S2P Require Import StorageKeys Database RocksRaft PayloadCrypto.
From S2P Require Import Types Evolve Outbox Ports Wire EventCodec SnapshotCodec MemoryStore.
From S2P Require Import RocksStore RocksSpec RocksProofs.
From stdpp Require Import options.

(** A store after a series of commits, each accepted where it stands. *)
Definition committed_store (cs : list CommitRequest) : RocksGhost := foldl ghost_append empty_ghost cs.
Fixpoint serial (g : RocksGhost) (cs : list CommitRequest) : Prop :=
  match cs with
  | [] => True
  | c :: cs => acceptable (gh_view g) c ∧ serial (ghost_append g c) cs
  end.

Lemma serial_snoc g cs c :
  serial g cs → acceptable (gh_view (foldl ghost_append g cs)) c → serial g (cs ++ [c]).
Proof.
  revert g. induction cs as [|c' cs IH]; intros g; simpl; [done|]. intros [? ?] ?. split; auto.
Qed.

Section replicated.
Context `{RaftTypes} {D : Type} `{!Database D} `{!LawfulDatabase D}.
Context {C : Type} `{!PayloadCryptoPort C} `{!LawfulCrypto C}.
Context `{!Message EncryptedEventRecord, !Message EncryptedSnapshotRecord,
  !Message EncryptedAuthorizationAuditRecord, !Message StoredCommandResult, !Message OutboxEntry,
  !Message AuthorizationAuditRecord}.
Context `{!LawfulMessage EncryptedEventRecord, !LawfulMessage EncryptedSnapshotRecord,
  !LawfulMessage StoredCommandResult, !LawfulMessage OutboxEntry}.
Context (encode_event : Wire.EventEnvelope → string)
  (decode_event : string → Wire.EventEnvelope + string)
  (encode_snapshot : Wire.WorkflowSnapshot → string)
  (decode_snapshot : string → Wire.WorkflowSnapshot + string).
Context (identifier_error : string → string).
Context (sha256 : string → ValueDigest) (batch_json : PreparedAtomicBatch → option string).
Context (limits : StateMachineLimits).
(** The hash function does not collide on counters. *)
Hypothesis Hsha : ∀ x y, String.length x = 8 → String.length y = 8 → sha256 x = sha256 y → x = y.
Implicit Types (d : D) (g : RocksGhost) (c : CommitRequest) (b : PreparedAtomicBatch) (v : InMemoryState).
Abbreviation represents := (represents encode_event decode_event encode_snapshot decode_snapshot).
Abbreviation commit_ok := (commit_ok encode_event decode_event encode_snapshot decode_snapshot).
Abbreviation proposal := (proposal encode_event encode_snapshot sha256).
Abbreviation log_state := (log_state (sha256:=sha256) (batch_json:=batch_json) limits).
Abbreviation entry_response := (entry_response (sha256:=sha256) (batch_json:=batch_json) limits).

(** ** Applying a proposal *)
Lemma current_value records family key value n n' :
  condition_holds sha256 records (current sha256 family key value) →
  decode_u64_value (records !! (family, key)) = Ok n → decode_u64_value value = Ok n' → n = n'.
Proof using Hsha.
  unfold condition_holds, current, satisfied, decode_u64_value. simpl.
  destruct value as [x|], (records !! _) as [y|]; try done; [|congruence].
  intros Heq%bool_decide_eq_true Hn%ok_or_Ok Hn'%ok_or_Ok.
  assert (y = x) as ->; [|congruence].
  unfold u64_from_be in Hn, Hn'. apply Hsha; [| |exact Heq].
  - by destruct (Nat.eqb_spec (String.length y) 8).
  - by destruct (Nat.eqb_spec (String.length x) 8).
Qed.

Lemma missing_value records family key :
  condition_holds sha256 records (missing family key) → records !! (family, key) = None.
Proof using. unfold condition_holds, missing, satisfied. simpl. by destruct (_ !! _). Qed.

Lemma proposal_applied c b md v v' response g :
  proposal c b → commit_ok c → represents (im_records v) g →
  apply_result sha256 limits md b v v' response → ar_outcome response = Applied →
  acceptable (gh_view g) c ∧ represents (im_records v') (ghost_append g c).
Proof using Hsha LawfulCrypto0.
  intros Hp Hok Hrep Hres Hout. inversion Hres as [Hvalid Hnew Hpre Hs Hr|]; [|done]. clear Hres Hs Hr.
  destruct (pl_writes _ _ _ _ _ Hp) as
    (prepared & snapshot & audit & tail & value & Hev & Hsnap & Hkey & Hvalue & Hbound & Hms & Htail).
  pose proof (current_value _ _ _ _ _ _ (Hpre _ Htail) (rp_tail _ _ _ _ _ _ Hrep) Hvalue) as <-.
  assert (acceptable (gh_view g) c) as Hacc.
  { eapply commit_acceptable; [exact Hrep|exact Hok|apply Hp|apply Hp|..].
    - pose proof (missing_value _ _ _ (Hpre _ (pl_fresh _ _ _ _ _ Hp))) as Hnone.
      rewrite (rp_result _ _ _ _ _ _ Hrep) in Hnone by apply Hok. by apply fmap_None in Hnone.
    - symmetry. eapply current_value; [exact (Hpre _ (pl_version _ _ _ _ _ Hp))|by apply Hrep; apply Hok|].
      unfold decode_u64_value. destruct (N.ltb_spec 0 (cq_expected_version c)); [|f_equal; lia].
      rewrite u64_from_be_bytes; [done|]. pose proof (ck_bound _ _ _ _ _ Hok).
      pose proof (ck_version _ _ _ _ _ Hok). lia.
    - by apply missing_value, Hpre, Hp. }
  split; [done|]. cbn [im_records]. rewrite Hms.
  eapply represents_commit; try done. by eapply validate_sequences_Ok, Hp.
Qed.

(** The conditions and mutations stay within the store's families. *)
Lemma proposal_mutations c b m :
  proposal c b → m ∈ pb_mutations b → (mutation_key m).1 ∈ DEDUP_CF :: store_families ∧
    mutation_key m ≠ (OUTBOX_META_CF, OUTBOX_CHECKPOINT_KEY).
Proof using.
  intros Hp Hm. destruct (pl_writes _ _ _ _ _ Hp) as
    (prepared & snapshot & audit & tail & value & _ & _ & _ & _ & _ & Hms & _).
  rewrite Hms in Hm. unfold commit_writes in Hm. revert m Hm. apply Forall_forall.
  assert (∀ family key value, bool_decide (family ∈ DEDUP_CF :: store_families) = true →
    bool_decide (family = OUTBOX_META_CF) = false →
    (mutation_key (Put (family, key) value)).1 ∈ DEDUP_CF :: store_families ∧
    mutation_key (Put (family, key) value) ≠ (OUTBOX_META_CF, OUTBOX_CHECKPOINT_KEY)) as Hput.
  { intros family key value' ?%bool_decide_eq_true ?%bool_decide_eq_false. split; [done|]. intros Heq. apply (f_equal fst) in Heq. done. }
  apply Forall_app. split; [|apply Forall_cons; split].
  - clear Hms. generalize tail. induction prepared as [|[[e record] key] prepared IH]; intros tail'; cbn [event_writes];
      [constructor|]. do 3 (apply Forall_cons; split; [by apply Hput|]). apply IH.
  - by split; [apply (bool_decide_unpack _)|].
  - apply Forall_app. split; [destruct snapshot as [[]|]|];
      repeat (apply Forall_cons; split; [by apply Hput|]); constructor.
Qed.

(** ** The log *)
(** A batch of the log is prepared for a commit on some database, or it touches
    none of the records the workflow store reads. *)
Definition proposed c b : Prop :=
  ∃ (crypto : C) d0 d,
    prepare_workflow_batch encode_event encode_snapshot identifier_error sha256 crypto d0 d c = Ok (Proposal b).
Definition unrelated b : Prop :=
  (∀ m, m ∈ pb_mutations b → (mutation_key m).1 ∉ store_families) ∧
  (∀ tenant actor key, small tenant → pb_idempotency_scope b ≠ idempotency_storage_key tenant actor key).
Definition store_log (log : list Entry) : Prop :=
  ∀ e b, e ∈ log → en_payload e = Payload_Normal b →
    (∃ c, commit_ok c ∧ proposed c b) ∨ unrelated b.

(** The commits a log carries out. *)
Inductive history : list Entry → list CommitRequest → Prop :=
| history_nil : history [] []
| history_commit log cs e b c :
    history log cs → en_payload e = Payload_Normal b → proposed c b →
    entry_response (log_state log) e = Ok (applied_response b) →
    history (log ++ [e]) (cs ++ [c])
| history_other log cs e :
    history log cs →
    (∀ b, en_payload e = Payload_Normal b →
       unrelated b ∨ ∃ response, entry_response (log_state log) e = Ok response ∧
                       ar_outcome response ≠ Applied) →
    history (log ++ [e]) cs.

(** The response recorded for a scope is the stored result of its commit. *)
Definition applied_results v g : Prop :=
  ∀ t a k applied, small t → short a → short k →
    im_applied v !! idempotency_storage_key t a k = Some applied →
    ∃ stored, sv_result (gh_view g) (t, a, k) = Some stored ∧
      ap_response_payload applied = encode_message (stored_command stored).

Lemma applied_results_commit c b v g md :
  proposal c b → commit_ok c → acceptable (gh_view g) c → applied_results v g →
  applied_results (mkInMemory (foldl apply_mutation_record (im_records v) (pb_mutations b))
    (<[pb_idempotency_scope b:=applied_command b]> (im_applied v)) md) (ghost_append g c).
Proof using.
  intros Hp Hok Hacc Hv t a k applied Ht Ha Hk. cbn [im_applied ghost_append gh_view].
  rewrite (pl_scope _ _ _ _ _ Hp). unfold view_append, set_at, idempotency_scope. cbn [sv_result].
  intros [[Hscope <-]|[Hne Hin]]%lookup_insert_Some.
  - apply idempotency_storage_key_inj in Hscope; [|apply Hok|apply Hok|apply Hok|by apply small_short|done..].
    injection Hscope as -> -> ->.
    rewrite decide_True by done. eexists. split; [done|].
    cbn [ap_response_payload applied_command]. by rewrite (pl_response _ _ _ _ _ Hp).
  - rewrite decide_False; [by eapply Hv|]. by intros [= -> -> ->].
Qed.

(** The commits [cs] are what the log carries out: a serial history, and the
    state after the log is the store with these commits. *)
Record realises (log : list Entry) (cs : list CommitRequest) : Prop := {
  re_history : history log cs;
  re_serial : serial empty_ghost cs;
  re_records : represents (im_records (log_state log)) (committed_store cs);
  re_applied : applied_results (log_state log) (committed_store cs) }.

Lemma realises_nil : realises [] [].
Proof using.
  split; [constructor|done|apply represents_empty|].
  intros t a k applied _ _ _ Hin. change ((∅ : gmap string AppliedCommand) !! idempotency_storage_key t a k = Some applied) in Hin.
  by rewrite lookup_empty in Hin.
Qed.

(** An applied proposal is a commit more. *)
Lemma realises_commit log cs e b c :
  realises log cs → en_payload e = Payload_Normal b → commit_ok c → proposed c b →
  (∃ response, entry_response (log_state log) e = Ok response ∧ ar_outcome response = Applied) →
  realises (log ++ [e]) (cs ++ [c]).
Proof using Hsha LawfulDatabase0 LawfulCrypto0.
  intros [Hh Hser Hrep Happ] Hpay Hok (crypto & d0 & d & Hprep) (response & Hresp & Hout).
  pose proof (prepare_workflow_batch_Ok _ _ _ _ _ _ _ _ _ Hprep) as Hp.
  destruct (entry_effect_cases (sha256:=sha256) (batch_json:=batch_json) limits (log_state log) e)
    as [(b' & response' & Hpay' & Hresp' & _ & Hres)|(_ & response' & Hresp' & Hout')];
    rewrite Hresp in Hresp'; injection Hresp' as <-; [|exfalso; by eapply Hout'].
  rewrite Hpay in Hpay'. injection Hpay' as <-.
  destruct (proposal_applied _ _ _ _ _ _ _ Hp Hok Hrep Hres Hout) as [Hacc Hrep'].
  assert (committed_store (cs ++ [c]) = ghost_append (committed_store cs) c) as Hsnoc
    by (unfold committed_store; by rewrite foldl_app).
  split; rewrite ?log_state_snoc, ?Hsnoc; [|by apply serial_snoc|done|].
  - eapply history_commit; [done..|by exists crypto, d0, d|]. rewrite Hresp. by inversion Hres.
  - inversion Hres; [|done]. by apply applied_results_commit.
Qed.

Lemma realises_other log cs e :
  realises log cs →
  (∀ b, en_payload e = Payload_Normal b →
     unrelated b ∨ ∃ response, entry_response (log_state log) e = Ok response ∧
                     ar_outcome response ≠ Applied) →
  realises (log ++ [e]) cs.
Proof using.
  intros [Hh Hser Hrep Happ] He.
  split; rewrite ?log_state_snoc; [by apply history_other|done|..];
    (destruct (entry_effect_cases (sha256:=sha256) (batch_json:=batch_json) limits (log_state log) e)
      as [(b & response & Hpay & Hresp & Hout & Hres)|(-> & _)]; [|done]);
    (destruct (He _ Hpay) as [Hunrel|(response' & Hresp' & Hout')];
      [|rewrite Hresp in Hresp'; by injection Hresp' as <-]);
    (inversion Hres; [|done]); cbn [im_records].
  - eapply represents_agree; [|exact Hrep]. intros key Hkey. symmetry.
    apply apply_mutations_other. intros (m & -> & Hm)%list_elem_of_fmap. by apply (proj1 Hunrel m).
  - intros t a k applied Ht Ha Hk. cbn [im_applied].
    rewrite lookup_insert_ne by (by apply Hunrel). by apply Happ.
Qed.

Lemma realises_extend log cs log' :
  realises log cs → store_log (log ++ log') → ∃ new, realises (log ++ log') (cs ++ new).
Proof using Hsha LawfulDatabase0 LawfulCrypto0.
  intros Hre. induction log' as [|e log' IH] using rev_ind; intros Hlog.
  { exists []. by rewrite !app_nil_r. }
  rewrite (assoc_L (++)) in Hlog |- *. destruct IH as (new & Hnew).
  { intros e' b He'. apply Hlog. apply elem_of_app. by left. }
  destruct (entry_effect_cases (sha256:=sha256) (batch_json:=batch_json) limits (log_state (log ++ log')) e)
    as [(b & response & Hpay & Hresp & Hout & _)|(_ & response & Hresp & Hout)].
  2:{ exists new. apply realises_other; [done|]. eauto 6. }
  destruct (Hlog e b) as [(c & Hok & Hprop)|Hunrel]; [apply elem_of_app; right; by left|done|..].
  - exists (new ++ [c]). rewrite (assoc_L (++)). eapply realises_commit; eauto.
  - exists new. apply realises_other; [done|]. intros b' Hpay'. left. congruence.
Qed.

Lemma store_log_realises log : store_log log → ∃ cs, realises log cs.
Proof using Hsha LawfulDatabase0 LawfulCrypto0.
  intros Hlog. destruct (realises_extend [] [] log) as (cs & Hcs); [apply realises_nil|done|by exists cs].
Qed.

(** Results stay. *)
Lemma serial_keeps_result g cs scope stored :
  serial g cs → sv_result (gh_view g) scope = Some stored →
  sv_result (gh_view (foldl ghost_append g cs)) scope = Some stored.
Proof using.
  revert g. induction cs as [|c cs IH]; intros g; [done|]. cbn [serial foldl]. intros [Hacc Hser] Hstored.
  apply IH; [done|]. cbn [ghost_append gh_view view_append sv_result]. unfold set_at.
  rewrite decide_False; [done|]. intros ->. by rewrite (ac_fresh _ _ Hacc) in Hstored.
Qed.
Lemma serial_app g cs cs' :
  serial g (cs ++ cs') ↔ serial g cs ∧ serial (foldl ghost_append g cs) cs'.
Proof using. revert g. induction cs as [|c cs IH]; intros g; simpl; [tauto|]. rewrite IH. tauto. Qed.
Lemma committed_result cs c cs' :
  serial empty_ghost (cs ++ c :: cs') →
  sv_result (gh_view (committed_store (cs ++ c :: cs'))) (idempotency_scope c) =
  Some (mkStored (cq_command_id c) (cq_result c)).
Proof using.
  intros Hser. apply serial_app in Hser as [_ [_ Hser]]. unfold committed_store. rewrite foldl_app. cbn [foldl].
  apply serial_keeps_result; [done|]. cbn [ghost_append gh_view view_append sv_result]. unfold set_at.
  by rewrite decide_True.
Qed.

(** ** Nodes *)
Context (families : list string).
Hypothesis Hfamilies : DEDUP_CF :: store_families ⊆ families.

Lemma store_key_application key :
  key.1 ∈ DEDUP_CF :: store_families → key ≠ (OUTBOX_META_CF, OUTBOX_CHECKPOINT_KEY) →
  is_application families key.
Proof using Hfamilies.
  intros Hkey Hne. split; [by apply Hfamilies|]. revert Hkey.
  assert (Forall (λ family, family ≠ RAFT_APPLIED_COMMANDS_CF ∧
    family ∉ ["boundary_subscriptions"; "boundary_timer_index"; "boundary_signals"; "boundary_signal_index";
           "boundary_meta"; "local_task_meta"]) (DEDUP_CF :: store_families)) as Hall
    by (apply (bool_decide_unpack _); by vm_compute).
  rewrite Forall_forall in Hall. intros [? Hlocal]%Hall. split; [done|]. by intros [].
Qed.

Lemma proposal_batch_ok c b : proposal c b → rocks_batch_ok families b.
Proof using Hfamilies.
  intros Hp. split.
  - intros condition Hin. pose proof (pl_families _ _ _ _ _ Hp) as Hall. rewrite Forall_forall in Hall.
    destruct (Hall _ Hin). by apply store_key_application.
  - intros m Hm. destruct (proposal_mutations _ _ _ Hp Hm). by apply store_key_application.
Qed.

(** A database whose replicated records are those of a log is a store with the
    commits of the log. *)
Lemma node_store records v g checkpoint :
  application_records families records = im_records v → represents (im_records v) g →
  decode_u64_value (records !! (OUTBOX_META_CF, OUTBOX_CHECKPOINT_KEY)) = Ok checkpoint →
  represents records (at_checkpoint g checkpoint).
Proof using Hfamilies.
  intros Hv Hrep Hcheckpoint. eapply represents_agree_but; [|done..].
  intros key Hkey Hne. rewrite <-Hv, lookup_application, decide_True; [done|].
  apply store_key_application; [by right|done].
Qed.
End replicated.
