(* ===== verification/RaftStore.v ===== *)
(** * The workflow store of a node (bpmp-engine-server/src/raft_runtime.rs)

    [RaftWorkflowStore]: reads go to the node's own database, a commit is
    prepared on it, proposed to consensus and answered from what applying it
    gave, with a bounded number of attempts when only the outbox position was
    stale. *)

From S2P Require Import Prelude Effects Bytes RaftBatch RaftMachine RaftCluster.
From S2P Require Import StorageKeys Database RocksRaft PayloadCrypto.
From S2P Require Import Types Evolve Outbox Ports Wire EventCodec SnapshotCodec MemoryStore.
From S2P Require Import RocksStore RocksSpec RocksProofs ReplicatedStore.
From stdpp Require Import options.

(** How waiting for [raft.client_write] ends. *)
Inductive ClientWrite :=
| Write_Elapsed
| Write_TaskFailed (error : string)
| Write_Applied (response : ApplyResponse)
| Write_ForwardToLeader (leader_id : option N) (leader_address : option string)
| Write_Failed (error : string).

(** The calls of the store on its surroundings. *)
Inductive raft_op (D : Type) : Type → Type :=
| Op_Now : raft_op D N
| Op_Acquire : raft_op D bool
| Op_Database : raft_op D D
| Op_ClientWrite (batch : PreparedAtomicBatch) (deadline : N) : raft_op D ClientWrite.
Arguments Op_Now {D}.
Arguments Op_Acquire {D}.
Arguments Op_Database {D}.
Arguments Op_ClientWrite {D} batch deadline.

(** [RaftWorkflowStore::new] *)
Record RaftConfig := mkRaftConfig {
  rc_max_inflight_proposals : N;
  rc_max_prepare_attempts : N;
  rc_proposal_timeout : N }.
Definition RaftWorkflowStore_new (config : RaftConfig) : res StoreError RaftConfig :=
  bail_if ((rc_max_inflight_proposals config =? 0)%N || (4096 <? rc_max_inflight_proposals config)%N
           || negb ((1 <=? rc_max_prepare_attempts config)%N && (rc_max_prepare_attempts config <=? 20)%N)
           || (rc_proposal_timeout config =? 0)%N)
    (Store_Unavailable "invalid bounded Raft proposal configuration");;
  Ok config.

Section store.
Context {D : Type} `{!Database D}.
Context {C : Type} `{!PayloadCryptoPort C}.
Context `{!Message EncryptedEventRecord, !Message EncryptedSnapshotRecord,
  !Message EncryptedAuthorizationAuditRecord, !Message StoredCommandResult, !Message OutboxEntry,
  !Message AuthorizationAuditRecord}.
Context (encode_event : Wire.EventEnvelope → string) (encode_snapshot : Wire.WorkflowSnapshot → string).
Context (identifier_error : string → string).
Context (sha256 : string → ValueDigest) (crypto : C).
Context (config : RaftConfig).
Abbreviation call := (effect (raft_op D) StoreError).

Definition store_admit : call unit :=
  acquired ← ask Op_Acquire;
  liftr (bail_if (negb acquired) (Store_Unavailable "Raft proposal admission exhausted")).

Definition submit_admitted (batch : PreparedAtomicBatch) (deadline : N) : call ApplyResponse :=
  now ← ask Op_Now;
  liftr (bail_if (deadline <=? now)%N
           (Store_Unavailable "Raft proposal deadline exceeded before submission"));;
  written ← ask (Op_ClientWrite batch deadline);
  liftr match written with
        | Write_Elapsed =>
            Err (Store_Unavailable
              "Raft proposal timed out; outcome unknown, retry with the same idempotency key")
        | Write_TaskFailed error => Err (Store_Unavailable ("Raft proposal task failed: " +:+ error))
        | Write_Applied response => Ok response
        | Write_ForwardToLeader leader_id leader_address => Err (NotLeader leader_id leader_address)
        | Write_Failed error => Err (Store_Unavailable ("Raft client write failed: " +:+ error))
        end.

(** [propose_prepared] and [submit] *)
Definition propose_prepared (batch : PreparedAtomicBatch) : call ApplyResponse :=
  now ← ask Op_Now;
  store_admit;;
  submit_admitted batch (now + rc_proposal_timeout config)%N.

(** Only the outbox position can be rebased. *)
Definition outbox_condition (batch : PreparedAtomicBatch) : option nat :=
  fst <$> list_find (λ condition, pre_storage_key condition = ("outbox_meta", "tail"))
            (pb_preconditions batch).
Definition stale_outbox (batch : PreparedAtomicBatch) (response : ApplyResponse) : bool :=
  match ar_outcome response with
  | PreconditionFailed condition_index =>
      bool_decide (outbox_condition batch = Some (N.to_nat condition_index))
  | _ => false
  end.

(** The loop of [commit], with [remaining] attempts to go. *)
Fixpoint commit_attempts (remaining : nat) (deadline : N) (request : CommitRequest) : call CommitOutcome :=
  match remaining with
  | 0 => throw (Store_Unavailable "Raft workflow prepare budget exhausted")
  | S remaining =>
      store_admit;;
      d0 ← ask Op_Database;
      d ← ask Op_Database;
      preparation ← liftr (prepare_workflow_batch encode_event encode_snapshot identifier_error sha256
                             crypto d0 d request);
      match preparation with
      | AlreadyCommitted result => mret (Duplicate result)
      | Proposal batch =>
          response ← submit_admitted batch deadline;
          if stale_outbox batch response && (0 <? remaining)%nat then commit_attempts remaining deadline request
          else
            d0 ← ask Op_Database;
            d ← ask Op_Database;
            liftr (resolve_workflow_apply identifier_error d0 d request response)
      end
  end.
Definition raft_commit (request : CommitRequest) : call CommitOutcome :=
  now ← ask Op_Now;
  commit_attempts (N.to_nat (rc_max_prepare_attempts config)) (now + rc_proposal_timeout config)%N request.
End store.

(** ** A node among others *)
Section world.
Context `{RaftTypes} {D : Type} {sha256 : string → ValueDigest} {batch_json : PreparedAtomicBatch → option string}.
Context (limits : StateMachineLimits).
Abbreviation log_state := (log_state (sha256:=sha256) (batch_json:=batch_json) limits).
Abbreviation entry_response := (entry_response (sha256:=sha256) (batch_json:=batch_json) limits).

(** The committed log, how much of it the node has applied, and its database,
    which other records of the node may change as well. *)
Record raft_world := mkRaftWorld {
  rw_log : list Entry;
  rw_applied : nat;
  rw_db : D }.
Definition applied_log (w : raft_world) : list Entry := take (rw_applied w) (rw_log w).
(** The log and the applied part of it grow. *)
Definition world_next (w w' : raft_world) : Prop :=
  rw_log w `prefix_of` rw_log w' ∧ rw_applied w ≤ rw_applied w'.
#[global] Instance world_next_preorder : PreOrder world_next.
Proof. split; [done|]. intros w1 w2 w3 [? ?] [? ?]. split; [by etrans|lia]. Qed.

(** What the surroundings promise, which keep [ok].  A write that is answered was
    put in the log and applied on this node, with the answer of its position; a
    write that failed or timed out may be in the log or not. *)
Context (ok : raft_world → Prop).
Definition raft_handle (X : Type) (op : raft_op D X) (w : raft_world) : X → raft_world → Prop :=
  match op in raft_op _ X return X → raft_world → Prop with
  | Op_Now | Op_Acquire => λ _ w', w' = w
  | Op_Database => λ d w', d = rw_db w ∧ w' = w
  | Op_ClientWrite b _ => λ written w',
      world_next w w' ∧ ok w' ∧
      match written with
      | Write_Applied response =>
          ∃ i e, applied_log w' !! i = Some e ∧ en_payload e = Payload_Normal b ∧
            entry_response (log_state (take i (rw_log w'))) e = Ok response
      | _ => True
      end
  end.

Lemma applied_log_prefix w w' :
  rw_applied w ≤ length (rw_log w) → world_next w w' → ∃ more, applied_log w' = applied_log w ++ more.
Proof using.
  intros Hle' [[rest Hrest] Hle]. unfold applied_log. rewrite Hrest.
  exists (drop (rw_applied w) (take (rw_applied w') (rw_log w ++ rest))).
  rewrite <-(take_drop (rw_applied w) (take (rw_applied w') _)) at 1.
  by rewrite take_take, Nat.min_l, take_app_le by done.
Qed.
Lemma applied_log_split w i e :
  applied_log w !! i = Some e →
  applied_log w = take i (rw_log w) ++ e :: drop (S i) (applied_log w).
Proof using.
  intros Hi. rewrite <-(take_drop_middle _ _ _ Hi) at 1. unfold applied_log in *. rewrite take_take.
  apply lookup_take_Some in Hi as [_ Hlt]. by rewrite Nat.min_l by lia.
Qed.

Abbreviation safe := (safe raft_handle ok world_next).
Lemma admit_safe Q w :
  (∀ w', world_next w w' → ok w' → Q (Ok tt) w') → (∀ e w', Q (Err e) w') →
  safe Q store_admit w.
Proof using.
  intros Hok Herr. apply safe_ask. intros w1 Hw1 HI1 acquired w2 ->. split_and!; [done..|].
  destruct acquired; simpl; intros w' Hw' HI'; [apply Hok; [by etrans|done]|apply Herr].
Qed.
Lemma submit_safe Q b deadline w :
  (∀ w' i e response, world_next w w' → ok w' → applied_log w' !! i = Some e →
     en_payload e = Payload_Normal b →
     entry_response (log_state (take i (rw_log w'))) e = Ok response →
     ∀ w'', world_next w' w'' → ok w'' → Q (Ok response) w'') →
  (∀ e w', Q (Err e) w') →
  safe Q (submit_admitted b deadline) w.
Proof using.
  intros Hok Herr. apply safe_ask. intros w1 Hw1 HI1 now w2 ->. split_and!; [done..|].
  apply safe_liftr. unfold bail_if. destruct (_ <=? _)%N; [intros ???; apply Herr|].
  apply safe_ask. intros w3 Hw3 HI3 written w4 (Hw4 & HI4 & Hwritten). split_and!; [done..|].
  destruct written as [|error|response|leader address|error]; simpl; try (intros; apply Herr).
  intros w' Hw' HI'. destruct Hwritten as (i & e & Hi & Hpay & Hresp).
  eapply Hok; [|exact HI4|done..]. etrans; [exact Hw1|]. by etrans.
Qed.
End world.
Arguments raft_world {_} D.

(** ** What a commit answers *)
Section commit.
Context `{RaftTypes} {D : Type} `{!Database D} `{!LawfulDatabase D}.
Context {C : Type} `{!PayloadCryptoPort C} `{!LawfulCrypto C}.
Context `{!Message EncryptedEventRecord, !Message EncryptedSnapshotRecord,
  !Message EncryptedAuthorizationAuditRecord, !Message StoredCommandResult, !Message OutboxEntry,
  !Message AuthorizationAuditRecord}.
Context `{!LawfulMessage EncryptedEventRecord, !LawfulMessage EncryptedSnapshotRecord,
  !LawfulMessage StoredCommandResult, !LawfulMessage OutboxEntry}.
Context (encode_event : Wire.EventEnvelope → string)
  (decode_event : string → Wire.EventEnvelope + string)
  (encode_snapshot : Wire.WorkflowSnapshot → string)
  (decode_snapshot : string → Wire.WorkflowSnapshot + string).
Context (identifier_error : string → string).
Context (sha256 : string → ValueDigest) (batch_json : PreparedAtomicBatch → option string).
Context (crypto : C) (config : RaftConfig) (limits : StateMachineLimits) (families : list string).
Hypothesis Hsha : ∀ x y, String.length x = 8 → String.length y = 8 → sha256 x = sha256 y → x = y.
Hypothesis Hfamilies : DEDUP_CF :: store_families ⊆ families.
Abbreviation represents := (represents encode_event decode_event encode_snapshot decode_snapshot).
Abbreviation commit_ok := (commit_ok encode_event decode_event encode_snapshot decode_snapshot).
Abbreviation log_state := (log_state (sha256:=sha256) (batch_json:=batch_json) limits).
Abbreviation entry_response := (entry_response (sha256:=sha256) (batch_json:=batch_json) limits).
Abbreviation proposed :=
  (proposed (D:=D) (C:=C) encode_event encode_snapshot identifier_error sha256).
Abbreviation store_log := (store_log (D:=D) (C:=C) encode_event decode_event encode_snapshot
  decode_snapshot identifier_error sha256).
Abbreviation realises := (realises (D:=D) (C:=C) encode_event decode_event encode_snapshot
  decode_snapshot identifier_error sha256 batch_json limits).
Abbreviation attempts := (commit_attempts encode_event encode_snapshot identifier_error sha256 crypto).
Abbreviation commit := (raft_commit encode_event encode_snapshot identifier_error sha256 crypto config).
Implicit Types (c : CommitRequest) (b : PreparedAtomicBatch).

Abbreviation world := (raft_world D).
Record world_ok (w : world) : Prop := {
  wo_log : store_log (rw_log w);
  wo_applied : rw_applied w ≤ length (rw_log w);
  wo_records : application_records families (db_records (rw_db w)) = im_records (log_state (applied_log w));
  wo_checkpoint : ∃ checkpoint,
    decode_u64_value (db_records (rw_db w) !! (OUTBOX_META_CF, OUTBOX_CHECKPOINT_KEY)) = Ok checkpoint }.
(** The result stands in the history of the node; the request is part of it. *)
Definition recorded c (result : CommittedResult) (w : world) : Prop :=
  ∃ cs, realises (applied_log w) cs ∧
    sv_result (gh_view (committed_store cs)) (idempotency_scope c) = Some (mkStored (cq_command_id c) result).
Definition commit_answer c (r : res StoreError CommitOutcome) (w : world) : Prop :=
  match r with
  | Ok (Committed result) =>
      result = cq_result c ∧ ∃ before after, realises (applied_log w) (before ++ c :: after)
  | Ok (Duplicate result) => recorded c result w
  | _ => True
  end.

Lemma applied_log_next w w' :
  world_ok w → world_next w w' → ∃ more, applied_log w' = applied_log w ++ more.
Proof using. intros Hok. apply applied_log_prefix, Hok. Qed.

Lemma applied_store_log w : world_ok w → store_log (applied_log w).
Proof using.
  intros Hok e b He. apply (wo_log _ Hok). unfold applied_log in He. apply list_elem_of_lookup in He as (i & He). rewrite lookup_take_Some in He.
  eapply list_elem_of_lookup_2. by apply He.
Qed.

Lemma realises_later w w' cs :
  world_ok w → world_ok w' → world_next w w' → realises (applied_log w) cs →
  ∃ new, realises (applied_log w') (cs ++ new).
Proof using Hsha LawfulDatabase0 LawfulCrypto0.
  intros Hok Hok' Hnext Hre. destruct (applied_log_next _ _ Hok Hnext) as (more & Heq).
  pose proof (applied_store_log _ Hok') as Hlog. rewrite Heq in *. by eapply realises_extend.
Qed.

Lemma answer_stable c r w w' :
  world_ok w → world_ok w' → world_next w w' → commit_answer c r w → commit_answer c r w'.
Proof using Hsha LawfulDatabase0 LawfulCrypto0.
  intros Hok Hok' Hnext. destruct r as [[result|result]|error|message]; simpl; [| |done..].
  - intros [-> (before & after & Hre)]. split; [done|].
    destruct (realises_later _ _ _ Hok Hok' Hnext Hre) as (new & Hnew). exists before, (after ++ new).
    by rewrite <-(assoc_L (++)) in Hnew.
  - intros (cs & Hre & Hres). destruct (realises_later _ _ _ Hok Hok' Hnext Hre) as (new & Hnew).
    exists (cs ++ new). split; [done|]. unfold committed_store in *. rewrite foldl_app.
    apply serial_keeps_result; [|done].
    by eapply serial_app, (re_serial _ _ _ _ _ _ _ _ _ _ Hnew).
Qed.

(** A result found in the database of the node. *)
Lemma load_recorded c w result :
  world_ok w → commit_ok c →
  load_result identifier_error (rw_db w) (cq_tenant_id c) (cq_actor_id c) (cq_idempotency_key c)
    (cq_command_id c) = Ok (Some result) →
  recorded c result w.
Proof using Hsha Hfamilies LawfulDatabase0 LawfulCrypto0 LawfulMessage2.
  intros Hok Hc Hload. destruct (store_log_realises _ _ _ _ _ _ batch_json limits Hsha _ (applied_store_log _ Hok)) as (cs & Hre).
  destruct (wo_checkpoint _ Hok) as (checkpoint & Hcheck).
  exists cs. split; [done|].
  pose proof (node_store _ _ _ _ _ Hfamilies _ _ _ _ (wo_records _ Hok) (re_records _ _ _ _ _ _ _ _ _ _ Hre) Hcheck)
    as Hrep.
  by apply (load_result_Ok _ _ _ _ _ _ _ _ _ _ _ _ Hrep (ck_tenant _ _ _ _ _ Hc) (ck_actor _ _ _ _ _ Hc)
    (ck_key _ _ _ _ _ Hc)) in Hload.
Qed.

(** The answer of a position of the log. *)
Lemma stored_result_inv stored cmd result :
  stored_result identifier_error (stored_command stored) = Ok result →
  sc_command_id (stored_command stored) = cmd → stored = mkStored cmd result.
Proof using.
  destruct stored as [cmd' []]. unfold stored_result, stored_identifier. cbn. intros Hrun <-. inv_res Hrun. done.
Qed.

Lemma duplicate_response v e b response :
  en_payload e = Payload_Normal b → entry_response v e = Ok response →
  ar_outcome response = Apply_Duplicate →
  ∃ applied, im_applied v !! pb_idempotency_scope b = Some applied ∧
    ar_response_payload response = ap_response_payload applied.
Proof using.
  intros Hpay. unfold RaftCluster.entry_response. rewrite Hpay. unfold im_apply.
  destruct (PreparedAtomicBatch_validate _ _ _ _); [|by intros [= <-]|done].
  destruct (im_applied v !! _) as [applied|]; simpl.
  - intros [= <-] Hout. exists applied. split; [done|]. by case_match.
  - destruct (first_unsatisfied _ _ _ _); by intros [= <-].
Qed.

Lemma applied_response_inv v e b response :
  en_payload e = Payload_Normal b → entry_response v e = Ok response →
  ar_outcome response = Applied → response = applied_response b.
Proof using.
  intros Hpay. unfold RaftCluster.entry_response. rewrite Hpay. unfold im_apply.
  destruct (PreparedAtomicBatch_validate _ _ _ _); [|by intros [= <-]|done].
  destruct (im_applied v !! _) as [applied|]; simpl; [by case_match; intros [= <-]|].
  destruct (first_unsatisfied _ _ _ _); by intros [= <-].
Qed.

Lemma answered_stored w i e b c response stored :
  world_ok w → commit_ok c → proposed c b →
  applied_log w !! i = Some e → en_payload e = Payload_Normal b →
  entry_response (log_state (take i (rw_log w))) e = Ok response →
  match ar_outcome response with
  | Applied => decode_message (ar_response_payload response) = Ok stored →
      stored = command_result c ∧ ∃ before after, realises (applied_log w) (before ++ c :: after)
  | Apply_Duplicate => decode_message (ar_response_payload response) = Ok stored →
      ∃ cs result, realises (applied_log w) cs ∧ stored = stored_command result ∧
        sv_result (gh_view (committed_store cs)) (idempotency_scope c) = Some result
  | _ => True
  end.
Proof using Hsha LawfulDatabase0 LawfulCrypto0 LawfulMessage2.
  intros Hok Hc Hprop Hi Hpay Hresp.
  pose proof (applied_store_log _ Hok) as Hlog. pose proof (applied_log_split _ _ _ Hi) as Hsplit.
  rewrite Hsplit in Hlog |- *. set (before := take i (rw_log w)) in *.
  set (rest := drop (S i) (applied_log w)) in *. clearbody before rest. clear Hsplit Hi.
  assert (∃ cs, realises before cs) as (cs & Hre).
  { eapply store_log_realises; [exact Hsha|]. intros e' b' He'. apply Hlog. apply elem_of_app. by left. }
  destruct Hprop as (crypto' & d0 & d & Hprep).
  pose proof (prepare_workflow_batch_Ok _ _ _ _ _ _ _ _ _ Hprep) as Hp.
  destruct (ar_outcome response) eqn:Hout; [| |done..].
  - rewrite (applied_response_inv _ _ _ _ Hpay Hresp Hout). simpl. rewrite (pl_response _ _ _ _ _ Hp), decode_encode.
    intros [= <-]. split; [done|].
    assert (realises (before ++ [e]) (cs ++ [c])) as Hre'.
    { eapply realises_commit; [done..|by exists crypto', d0, d|by exists response]. }
    assert (∃ new, realises ((before ++ [e]) ++ rest) ((cs ++ [c]) ++ new)) as (new & Hnew).
    { eapply realises_extend; [exact Hsha|done|]. by rewrite <-(assoc_L (++)). }
    exists cs, new. by rewrite <-!(assoc_L (++)) in Hnew.
  - destruct (duplicate_response _ _ _ _ Hpay Hresp Hout) as (applied & Hin & ->).
    rewrite (pl_scope _ _ _ _ _ Hp) in Hin.
    destruct (re_applied _ _ _ _ _ _ _ _ _ _ Hre _ _ _ _ (ck_small _ _ _ _ _ Hc) (ck_actor _ _ _ _ _ Hc)
      (ck_key _ _ _ _ _ Hc) Hin) as (result & Hresult & ->).
    rewrite decode_encode. intros [= <-].
    assert (∃ new, realises (before ++ e :: rest) (cs ++ new)) as (new & Hnew)
      by (by eapply realises_extend).
    exists (cs ++ new), result. split_and!; [done..|]. unfold committed_store in *. rewrite foldl_app.
    apply serial_keeps_result; [|done].
    by eapply serial_app, (re_serial _ _ _ _ _ _ _ _ _ _ Hnew).
Qed.

Lemma resolve_answer c b w i e response w0 d :
  world_ok w → world_ok w0 → world_next w w0 → commit_ok c → proposed c b →
  applied_log w !! i = Some e → en_payload e = Payload_Normal b →
  entry_response (log_state (take i (rw_log w))) e = Ok response →
  commit_answer c (resolve_workflow_apply identifier_error (rw_db w0) d c response) w0.
Proof using Hsha Hfamilies LawfulDatabase0 LawfulCrypto0 LawfulMessage2.
  intros Hok Hok0 Hnext Hc Hprop Hi Hpay Hresp.
  unfold resolve_workflow_apply. destruct (bail_if _ _); [|done..]. simpl.
  pose proof (λ stored, answered_stored _ _ _ _ _ _ stored Hok Hc Hprop Hi Hpay Hresp) as Hanswer.
  destruct (ar_outcome response).
  3,4: destruct (load_result _ _ _ _ _ _) as [[result|]| |] eqn:Hload; simpl; [by apply load_recorded| |done..];
    destruct (read_version _ _ _); simpl; [|done..]; by destruct (bail_if _ _).
  all: apply (answer_stable _ _ _ _ Hok Hok0 Hnext);
    destruct (decode_message (ar_response_payload response)) as [stored| |]; [|done..];
    specialize (Hanswer _ eq_refl); simpl;
    (destruct (bool_decide (sc_command_id stored ≠ cq_command_id c)) eqn:Hcmd; [done|]);
    apply bool_decide_eq_false, dec_stable in Hcmd; simpl;
    (destruct (stored_result _ stored) as [result| |] eqn:Hresult; simpl; [|done..]).
  - destruct Hanswer as [-> Hre]. split; [|done].
    by apply (stored_result_inv (mkStored (cq_command_id c) (cq_result c)) (cq_command_id c) result) in Hresult
      as [= ->].
  - destruct Hanswer as (cs & recorded & Hre & -> & Hin). exists cs. split; [done|].
    by rewrite <-(stored_result_inv recorded _ _ Hresult Hcmd).
Qed.

(** ** The attempts *)
Abbreviation safe := (safe (raft_handle (sha256:=sha256) (batch_json:=batch_json) limits world_ok) world_ok world_next).

Lemma commit_attempts_safe remaining deadline c w :
  commit_ok c → safe (commit_answer c) (attempts remaining deadline c) w.
Proof using Hsha Hfamilies LawfulDatabase0 LawfulCrypto0 LawfulMessage2.
  intros Hc. revert w. induction remaining as [|remaining IH]; intros w; [intros ???; exact Logic.I|].
  cbn [commit_attempts]. apply safe_then; [apply _|]. apply admit_safe; [|intros ?????; exact Logic.I].
  intros w0 _ _. apply safe_ask. intros w1 _ HI1 d0 w2 [-> ->]. split_and!; [done..|].
  apply safe_ask. intros w3 Hw3 HI3 d w4 [-> ->]. split_and!; [done..|]. apply safe_liftr.
  destruct (prepare_workflow_batch _ _ _ _ _ _ _ _) as [[result|b]| |] eqn:Hprep; [|..|intros ???; exact Logic.I|intros ???; exact Logic.I].
  - intros w' Hw' HI'. apply (answer_stable _ _ w1); [done..|by etrans|].
    apply load_recorded; [done..|]. unfold prepare_workflow_batch in Hprep.
    apply bind_Ok in Hprep as (_ & _ & Hprep). apply bind_Ok in Hprep as (_ & _ & Hprep).
    apply bind_Ok in Hprep as ([earlier|] & Hload & Hprep); [by injection Hprep as ->|].
    apply bind_Ok in Hprep as ([[? ?] ?] & _ & Hprep). by apply bind_Ok in Hprep as (? & _ & ?).
  - apply safe_then; [apply _|]. apply submit_safe; [|intros ?????; exact Logic.I]. intros w5 i e response _ HI5 Hi Hpay Hresp w6 Hw6 HI6.
    destruct (_ && _); [apply IH|].
    apply safe_ask. intros w7 Hw7 HI7 d0 w8 [-> ->]. split_and!; [done..|].
    apply safe_ask. intros w9 Hw9 HI9 d w10 [-> ->]. split_and!; [done..|].
    intros w' Hw' HI'. apply (answer_stable _ _ w7); [done..|by etrans|].
    eapply resolve_answer; [exact HI5|done|by etrans|done| |done..]. by eexists _, _, _.
Qed.

Lemma raft_commit_safe c w : commit_ok c → safe (commit_answer c) (commit c) w.
Proof using Hsha Hfamilies LawfulDatabase0 LawfulCrypto0 LawfulMessage2.
  intros Hc. apply safe_ask. intros w1 _ HI1 now w2 ->. split_and!; [done..|]. by apply commit_attempts_safe.
Qed.
End commit.
