(* ===== verification/TaskTypes.v ===== *)
(** * Tasks that wait for a worker

    The data of [apps/rust/bpmp-engine/src/local_task_runtime.rs] and
    [remote_task.rs]: what a committed event asks a worker to do, the task a
    remote worker can be given, and the lease under which it holds it. *)

From S2P Require Import Prelude Types Outbox Ports.
From stdpp Require Import options.

(** ** Activations *)
Inductive LocalTaskKind := Kind_Service | Kind_Script.
#[global] Instance LocalTaskKind_eq_dec : EqDecision LocalTaskKind.
Proof. solve_decision. Defined.
Inductive LocalTaskExecutionOutcome := Execution_Completed | Execution_NotHandled.

Record LocalTaskActivation := mkActivation {
  la_cursor : N;
  la_event_id : string;
  la_event_sequence : N;
  la_tenant_id : TenantId;
  la_instance_id : string;
  la_workflow_type : WorkflowType;
  la_workflow_version : WorkflowVersion;
  la_node_id : NodeId;
  la_kind : LocalTaskKind;
  la_task_type : string;
  la_implementation_ref : string;
  la_implementation_version : string;
  la_occurred_at_epoch_ms : N;
  la_correlation_id : CorrelationId;
  la_config_version : ConfigVersion;
  la_policy_version : PolicyVersion }.

Inductive LocalTaskRuntimeError :=
| LocalTask_InvalidConfiguration
| LocalTask_PolicyUnavailable
| LocalTask_AdapterBatchLimitExceeded
| LocalTask_NonContiguousOutbox
| LocalTask_CorruptEvent (detail : string)
| LocalTask_EventScopeMismatch
| LocalTask_CheckpointConflict
| LocalTask_Store (detail : string)
| LocalTask_Execution (detail : string)
| LocalTask_Dispatch (detail : string)
| LocalTask_Outbox (error : OutboxError).

(** ** Remote tasks *)
Record RemoteTask := mkRemoteTask {
  rt_task_id : string;
  rt_tenant_id : TenantId;
  rt_instance_id : InstanceId;
  rt_workflow_type : WorkflowType;
  rt_workflow_version : WorkflowVersion;
  rt_node_id : NodeId;
  rt_task_type : string;
  rt_activation_event_id : string;
  rt_activation_sequence : N;
  rt_activated_at_epoch_ms : N;
  rt_correlation_id : CorrelationId;
  rt_config_version : ConfigVersion;
  rt_policy_version : PolicyVersion }.
#[global] Instance RemoteTask_eq_dec : EqDecision RemoteTask.
Proof. solve_decision. Defined.

Record RemoteTaskClaim := mkClaim {
  cl_task : RemoteTask;
  cl_assignment_id : string;
  cl_worker_id : string;
  cl_session_id : string;
  cl_attempt : N;
  cl_lease_version : N;
  cl_lease_until_epoch_ms : N;
  cl_assignment_token_digest : string }.
Record RemoteTaskClaimRequest := mkClaimRequest {
  cm_tenant_id : TenantId;
  cm_task_id : string;
  cm_assignment_id : string;
  cm_worker_id : string;
  cm_session_id : string;
  cm_now_epoch_ms : N;
  cm_lease_until_epoch_ms : N;
  cm_assignment_token_digest : string }.

Inductive RemoteTaskEnqueueOutcome := Task_Enqueued | Task_Duplicate.
Inductive RemoteTaskFailureOutcome := Task_RetryScheduled | Task_DeadLettered.

Inductive RemoteTaskError :=
| UnsupportedTaskKind
| InvalidActivation
| Remote_InvalidRequest
| StaleLease
| Remote_Conflict
| Remote_NotFound
| Remote_NotLeader (leader_id : option N) (leader_address : option string)
| Remote_Store (detail : string)
| Remote_Completion (detail : string).

(** [TryFrom<&LocalTaskActivation>] *)
Definition RemoteTask_try_from (value : LocalTaskActivation) : res RemoteTaskError RemoteTask :=
  bail_if (bool_decide (la_kind value ≠ Kind_Service)) UnsupportedTaskKind;;
  bail_if (is_blank (la_instance_id value)) InvalidActivation;;
  Ok (mkRemoteTask (la_event_id value) (la_tenant_id value) (la_instance_id value)
        (la_workflow_type value) (la_workflow_version value) (la_node_id value) (la_task_type value)
        (la_event_id value) (la_event_sequence value) (la_occurred_at_epoch_ms value)
        (la_correlation_id value) (la_config_version value) (la_policy_version value)).
