(* ===== verification/LocalTasks.v ===== *)
(** * The local task runtime

    [apps/rust/bpmp-engine/src/local_task_runtime.rs]: a worker reads the outbox
    behind a checkpoint of its own, executes each service or script task an event
    activates, dispatches the completion of what it executed to the engine, and
    hands what it has no implementation for to the remote queue. The executor, the
    dispatcher and the remote queue are ports. With the decorator that retries
    executions, and the checkpoint in memory and on RocksDB. *)

From S2P Require Import Prelude Effects Bytes RaftBatch StorageKeys Database.
From S2P Require Import Types Outbox Ports Wire EventCodec MemoryStore RocksStore TaskTypes.
From stdpp Require Import options.

(** ** Activations *)
Definition task_activation (cursor : N) (envelope : EventEnvelope) (node_id : NodeId) (kind : LocalTaskKind)
    (task_type implementation_ref implementation_version : string) : LocalTaskActivation :=
  let m := ee_metadata envelope in
  mkActivation cursor (em_event_id m) (em_sequence m) (em_tenant_id m) (em_instance_id m)
    (em_workflow_type m) (em_workflow_version m) node_id kind task_type implementation_ref
    implementation_version (em_occurred_at_epoch_ms m) (em_correlation_id m) (em_config_version m)
    (em_policy_version m).
Definition activation (cursor : N) (envelope : EventEnvelope) : option LocalTaskActivation :=
  match ee_event envelope with
  | ServiceTaskActivated node_id task_type _ =>
      Some (task_activation cursor envelope node_id Kind_Service task_type task_type "")
  | ScriptTaskActivated node_id task_type implementation_ref implementation_version _ =>
      Some (task_activation cursor envelope node_id Kind_Script task_type implementation_ref
              implementation_version)
  | _ => None
  end.

(** ** Retry policies *)
Record LocalTaskRetryPolicy := mkRetryPolicy {
  rp_max_attempts : N;
  rp_initial_backoff_ms : N;
  rp_max_backoff_ms : N;
  rp_multiplier_millis : N }.
Definition LocalTaskRetryPolicy_validate (policy : LocalTaskRetryPolicy) :
    res LocalTaskRuntimeError LocalTaskRetryPolicy :=
  bail_if ((rp_max_attempts policy =? 0)%N || (rp_initial_backoff_ms policy =? 0)%N
           || (rp_max_backoff_ms policy <? rp_initial_backoff_ms policy)%N
           || (rp_multiplier_millis policy =? 0)%N) LocalTask_InvalidConfiguration;;
  Ok policy.
(** The policy shared by the executors, behind a lock *)
Definition LocalTaskRetryPolicyHandle_new (policy : LocalTaskRetryPolicy) :
    res LocalTaskRuntimeError LocalTaskRetryPolicy := LocalTaskRetryPolicy_validate policy.
Definition LocalTaskRetryPolicyHandle_replace (policy : LocalTaskRetryPolicy) :
    method LocalTaskRetryPolicy LocalTaskRuntimeError unit :=
  policy ← lift (LocalTaskRetryPolicy_validate policy);
  set_self policy.

(** ** The ports *)
Class LocalTaskRuntimeStorePort (S : Type) := {
  local_task_checkpoint : S → res LocalTaskRuntimeError N;
  checkpoint_local_task : N → N → method S LocalTaskRuntimeError unit }.

Inductive local_task_op : Type → Type :=
| LocalCheckpoint : local_task_op (res LocalTaskRuntimeError N)
| LocalReadAfter (cursor : N) (limit : nat) : local_task_op (res OutboxError (list OutboxRecord))
| CheckpointLocal (expected committed : N) : local_task_op (res LocalTaskRuntimeError unit)
| ExecuteTask (activation : LocalTaskActivation) :
    local_task_op (res LocalTaskRuntimeError LocalTaskExecutionOutcome)
| DispatchCompletion (activation : LocalTaskActivation) : local_task_op (res LocalTaskRuntimeError unit)
| EnqueueRemote (activation : LocalTaskActivation) :
    local_task_op (res RemoteTaskError RemoteTaskEnqueueOutcome)
| LocalWait (delay_ms : N) : local_task_op unit
| PolicySnapshot : local_task_op (res LocalTaskRuntimeError LocalTaskRetryPolicy).
Abbreviation runtime := (effect local_task_op LocalTaskRuntimeError).

(** [map_err] on the answer of a port *)
Definition try_map {E X} (f : E → LocalTaskRuntimeError) (op : local_task_op (res E X)) : runtime X :=
  Vis op (λ r, Done (map_err f r)).

(** ** Retries *)
Definition next_backoff (policy : LocalTaskRetryPolicy) (backoff_ms : N) : N :=
  N.min (N.min (backoff_ms * rp_multiplier_millis policy) u64_max / 1000) (rp_max_backoff_ms policy).
(** The loop [for attempt in 1..=max_attempts]; [remaining] counts the attempts
    that remain. *)
Fixpoint execute_attempts (policy : LocalTaskRetryPolicy) (task : LocalTaskActivation) (remaining : nat)
    (attempt backoff_ms : N) : runtime LocalTaskExecutionOutcome :=
  match remaining with
  | 0 => throw LocalTask_InvalidConfiguration
  | S remaining =>
      Vis (ExecuteTask task) (λ answer,
        match answer return runtime LocalTaskExecutionOutcome with
        | Ok outcome => mret outcome
        | Err error =>
            if (attempt =? rp_max_attempts policy)%N then throw error
            else ask (LocalWait backoff_ms);;
                 execute_attempts policy task remaining (attempt + 1) (next_backoff policy backoff_ms)
        | Panic s => Done (Panic s)
        end)
  end.
Definition retrying_execute (task : LocalTaskActivation) : runtime LocalTaskExecutionOutcome :=
  policy ← try_ PolicySnapshot;
  execute_attempts policy task (N.to_nat (rp_max_attempts policy)) 1 (rp_initial_backoff_ms policy).

(** ** One batch *)
Record LocalTaskRunOutcome := mkRunOutcome {
  ro_scanned : nat;
  ro_executed : nat;
  ro_checkpoint : N }.

Section runtime.
Context (decode_event : string → Wire.EventEnvelope + string).
Context (event_error : EventCodecError → string) (remote_error : RemoteTaskError → string).
(** The field [executor] *)
Context (execute : LocalTaskActivation → runtime LocalTaskExecutionOutcome).

Definition LocalTaskRuntime_new (batch_size : nat) : res LocalTaskRuntimeError nat :=
  bail_if (batch_size =? 0)%nat LocalTask_InvalidConfiguration;; Ok batch_size.

(** The task is executed and completed, or handed on; 1 if it was executed. *)
Definition run_task (task : LocalTaskActivation) : runtime nat :=
  outcome ← execute task;
  match outcome with
  | Execution_Completed => try_ (DispatchCompletion task);; mret 1
  | Execution_NotHandled =>
      try_map (λ error, LocalTask_Dispatch (remote_error error)) (EnqueueRemote task);; mret 0
  end.
Definition decode_record (record : OutboxRecord) : res LocalTaskRuntimeError EventEnvelope :=
  envelope ← map_err (λ error, LocalTask_CorruptEvent (event_error error))
               (EventCodec_decode decode_event (ob_payload record));
  bail_if (bool_decide (em_event_id (ee_metadata envelope) ≠ ob_event_id record)
           || bool_decide (em_tenant_id (ee_metadata envelope) ≠ ob_tenant_id record)
           || bool_decide (em_instance_id (ee_metadata envelope) ≠ ob_instance_id record))
    LocalTask_EventScopeMismatch;;
  Ok envelope.
Fixpoint run_records (checkpoint : N) (executed : nat) (records : list OutboxRecord) : runtime (N * nat) :=
  match records with
  | [] => mret (checkpoint, executed)
  | record :: records =>
      liftr (bail_if (ob_cursor record <=? checkpoint)%N LocalTask_NonContiguousOutbox);;
      envelope ← liftr (decode_record record);
      count ← match activation (ob_cursor record) envelope with
              | Some task => run_task task
              | None => mret 0
              end;
      try_ (CheckpointLocal checkpoint (ob_cursor record));;
      run_records (ob_cursor record) (executed + count) records
  end.
Definition run_once_with_batch_size (batch_size : nat) : runtime LocalTaskRunOutcome :=
  liftr (bail_if (batch_size =? 0)%nat LocalTask_InvalidConfiguration);;
  checkpoint ← try_ LocalCheckpoint;
  records ← try_map LocalTask_Outbox (LocalReadAfter checkpoint batch_size);
  liftr (bail_if (batch_size <? length records)%nat LocalTask_AdapterBatchLimitExceeded);;
  '(checkpoint, executed) ← run_records checkpoint 0 records;
  mret (mkRunOutcome (length records) executed checkpoint).

(** The worker of the server: each turn reads its batch size from the current
    policy; a failed batch is logged and the next one starts. *)
Fixpoint local_task_worker (batch_sizes : list nat) : prog local_task_op unit :=
  match batch_sizes with
  | [] => Done tt
  | batch_size :: batch_sizes =>
      prog_bind (run_once_with_batch_size batch_size) (λ _, local_task_worker batch_sizes)
  end.
End runtime.

(** ** The checkpoint in memory *)
Definition with_local_checkpoint (committed : N) (s : MemoryState) : MemoryState :=
  mkMemory (ms_streams s) (ms_snapshots s) (ms_idempotency s) (ms_authorization_audits s) (ms_outbox s)
    (ms_outbox_checkpoint s) committed.
Definition memory_checkpoint_local_task (expected committed : N) :
    method MemoryState LocalTaskRuntimeError unit :=
  state ← self;
  lift (bail_if (negb (ms_local_task_checkpoint state =? expected)%N) LocalTask_CheckpointConflict);;
  lift (bail_if ((committed <=? expected)%N || (N.of_nat (length (ms_outbox state)) <? committed)%N)
    (LocalTask_Store "local task checkpoint is outside the committed outbox range"));;
  set_self (with_local_checkpoint committed state).
#[global] Instance memory_local_task_port : LocalTaskRuntimeStorePort MemoryState := {
  local_task_checkpoint s := Ok (ms_local_task_checkpoint s);
  checkpoint_local_task := memory_checkpoint_local_task }.

(** ** The checkpoint on RocksDB *)
Definition LOCAL_TASK_META_CF : string := "local_task_meta".
Definition LOCAL_TASK_CHECKPOINT_KEY : string := "checkpoint".
Section rocks.
Context {D : Type} `{!Database D}.
Context (store_error : StoreError → string) (outbox_error : OutboxError → string).

Definition read_meta_u64 (d : D) (family key : string) : res string N :=
  map_err store_error (store_cf d family);;
  value ← db_get d (family, key);
  decode_u64_value value.
Definition rocks_local_task_checkpoint (d : D) : res LocalTaskRuntimeError N :=
  map_err LocalTask_Store (read_meta_u64 d LOCAL_TASK_META_CF LOCAL_TASK_CHECKPOINT_KEY).
Definition put_local_checkpoint (committed : N) : method D LocalTaskRuntimeError unit := λ d,
  let '(d', r) := db_write [Put (LOCAL_TASK_META_CF, LOCAL_TASK_CHECKPOINT_KEY) (be_bytes 8 committed)] d in
  (d', map_err LocalTask_Store r).
Definition rocks_checkpoint_local_task (expected committed : N) : method D LocalTaskRuntimeError unit :=
  d ← self;
  current ← lift (map_err LocalTask_Store (read_meta_u64 d LOCAL_TASK_META_CF LOCAL_TASK_CHECKPOINT_KEY));
  tail ← lift (map_err (λ error, LocalTask_Store (outbox_error error)) (read_outbox_u64 d OUTBOX_TAIL_KEY));
  lift (bail_if (negb (current =? expected)%N) LocalTask_CheckpointConflict);;
  lift (bail_if ((committed <=? expected)%N || (tail <? committed)%N)
    (LocalTask_Store "local task checkpoint is outside the committed outbox range"));;
  lift (map_err (λ error, LocalTask_Store (store_error error)) (store_cf d LOCAL_TASK_META_CF));;
  put_local_checkpoint committed.
End rocks.
