(* ===== verification/LocalProofs.v ===== *)
(** * No activation is skipped

    The local task runtime over any lawful outbox, while commits append to the
    log and several workers run: what the checkpoint has passed has been handed
    over. *)

From S2P Require Import Prelude Effects Bytes RaftBatch StorageKeys Database.
From S2P Require Import Types Outbox Ports Wire EventCodec MemoryStore RocksStore TaskTypes LocalTasks.
From stdpp Require Import options.

(** What the store of the checkpoint promises: it moves as asked from where the
    caller expects it, within the log; when it fails, perhaps not. *)
Class LawfulLocalTasks (S : Type) `{LawfulOutbox S} `{!LocalTaskRuntimeStorePort S} := {
  local_cursor : S → N;
  local_checkpoint_law s c : local_task_checkpoint s = Ok c → c = local_cursor s;
  checkpoint_local_law expected committed s s' r :
    checkpoint_local_task expected committed s = (s', r) →
    outbox_log s' = outbox_log s ∧
    (local_cursor s = expected ∧ local_cursor s' = committed ∧
       (expected < committed ≤ N.of_nat (length (outbox_log s)))%N
     ∨ is_ok r = false ∧ local_cursor s' = local_cursor s) }.
#[global] Program Instance memory_lawful_local_tasks : LawfulLocalTasks MemoryState :=
  {| local_cursor := ms_local_task_checkpoint |}.
Next Obligation. intros s c H. by injection H. Qed.
Next Obligation.
  intros expected committed s s' r H. unfold checkpoint_local_task in H. simpl in H.
  unfold memory_checkpoint_local_task in H. open_method H; (split; [done|]); simpl; [by right..|left].
  apply negb_false_iff, N.eqb_eq in H0. apply orb_false_iff in H1 as [H1 H2]. split_and!; [done..|lia|lia].
Qed.

Section runtime.
Context {S : Type} `{LawfulLocalTasks S}.
Context (decode_event : string → Wire.EventEnvelope + string).
Context (event_error : EventCodecError → string) (remote_error : RemoteTaskError → string).
(** How the ports answer. *)
Context (executes : LocalTaskActivation → res LocalTaskRuntimeError LocalTaskExecutionOutcome → Prop)
  (dispatches : LocalTaskActivation → res LocalTaskRuntimeError unit → Prop)
  (enqueues : LocalTaskActivation → res RemoteTaskError RemoteTaskEnqueueOutcome → Prop).
Abbreviation decode_record := (decode_record decode_event event_error).
Implicit Types (task : LocalTaskActivation) (r : OutboxRecord).

(** The store, and the activations whose completion was dispatched or which were
    put in the remote queue. *)
Record LocalWorld := mkLocalWorld {
  lw_store : S;
  lw_completed : list LocalTaskActivation;
  lw_enqueued : list LocalTaskActivation }.
Definition local_handle X (op : local_task_op X) (w : LocalWorld) : X → LocalWorld → Prop :=
  match op in local_task_op X return X → LocalWorld → Prop with
  | LocalCheckpoint => λ x w', x = local_task_checkpoint (lw_store w) ∧ w' = w
  | LocalReadAfter c limit => λ x w', x = read_after (lw_store w) c limit ∧ w' = w
  | CheckpointLocal expected committed => λ x w', ∃ s',
      checkpoint_local_task expected committed (lw_store w) = (s', x) ∧
      w' = mkLocalWorld s' (lw_completed w) (lw_enqueued w)
  | ExecuteTask task => λ x w', executes task x ∧ w' = w
  | DispatchCompletion task => λ x w', dispatches task x ∧
      w' = mkLocalWorld (lw_store w) (if is_ok x then lw_completed w ++ [task] else lw_completed w) (lw_enqueued w)
  | EnqueueRemote task => λ x w', enqueues task x ∧
      w' = mkLocalWorld (lw_store w) (lw_completed w) (if is_ok x then lw_enqueued w ++ [task] else lw_enqueued w)
  | LocalWait _ | PolicySnapshot => λ _ w', w' = w
  end.

(** Commits append to the log. *)
Definition local_grows (w w' : LocalWorld) : Prop :=
  ∃ new, outbox_log (lw_store w') = outbox_log (lw_store w) ++ new ∧
    numbered_from (N.of_nat (length (outbox_log (lw_store w))) + 1) new ∧
    local_cursor (lw_store w') = local_cursor (lw_store w) ∧
    lw_completed w' = lw_completed w ∧ lw_enqueued w' = lw_enqueued w.

(** The event of the record was looked at, and the task it activates, if any, was
    completed or enqueued. *)
Definition handed_over (w : LocalWorld) task : Prop := task ∈ lw_completed w ∨ task ∈ lw_enqueued w.
Definition record_handled (w : LocalWorld) r : Prop :=
  ∃ envelope, decode_record r = Ok envelope ∧
    ∀ task, activation (ob_cursor r) envelope = Some task → handed_over w task.
Record local_inv (w : LocalWorld) : Prop := {
  li_numbered : numbered_from 1 (outbox_log (lw_store w));
  li_cursor : (local_cursor (lw_store w) ≤ N.of_nat (length (outbox_log (lw_store w))))%N;
  li_handled r : r ∈ outbox_log (lw_store w) → (ob_cursor r ≤ local_cursor (lw_store w))%N → record_handled w r }.
Definition local_rely (w w' : LocalWorld) : Prop :=
  outbox_log (lw_store w) `prefix_of` outbox_log (lw_store w') ∧
  lw_completed w `prefix_of` lw_completed w' ∧ lw_enqueued w `prefix_of` lw_enqueued w'.
#[export] Instance local_rely_preorder : PreOrder local_rely.
Proof. split; [by intros w|]. intros w1 w2 w3 (? & ? & ?) (? & ? & ?). split_and!; by etrans. Qed.
Abbreviation safe := (safe local_handle local_inv local_rely).

Lemma handed_over_later w w' task : local_rely w w' → handed_over w task → handed_over w' task.
Proof using. intros (_ & ? & ?) [?|?]; [left|right]; by eapply elem_of_prefix. Qed.
Lemma record_handled_later w w' r : local_rely w w' → record_handled w r → record_handled w' r.
Proof using. intros Hw (envelope & ? & Hall). exists envelope. split; [done|]. intros task ?. by eapply handed_over_later; eauto. Qed.

(** A step that keeps the store. *)
Lemma local_inv_same w w' :
  lw_store w' = lw_store w → local_rely w w' → local_inv w → local_inv w'.
Proof using.
  intros Hs Hw [Hnum Hcur Hall]. split; rewrite ?Hs; [done..|]. intros r Hr Hle. eapply record_handled_later; eauto.
Qed.
Lemma local_grows_safe w w' : local_grows w w' → local_inv w → local_inv w' ∧ local_rely w w'.
Proof using.
  intros (new & Hlog & Hnew & Hcur & Hc & He) HI.
  assert (local_rely w w') as Hw by (split_and!; [by exists new|by rewrite Hc|by rewrite He]).
  split; [|done]. split.
  - rewrite Hlog, numbered_app. split; [apply HI|].
    by replace (1 + N.of_nat (length (outbox_log (lw_store w))))%N
      with (N.of_nat (length (outbox_log (lw_store w))) + 1)%N by lia.
  - rewrite Hcur, Hlog, length_app. pose proof (li_cursor _ HI). lia.
  - intros r Hr Hle. rewrite Hcur in Hle. apply (record_handled_later w); [done|]. apply HI; [|done].
    rewrite Hlog in Hr. apply elem_of_app in Hr as [|Hr]; [done|].
    apply (numbered_bounds _ _ _ Hnew) in Hr. pose proof (li_cursor _ HI). lia.
Qed.

(** Executions change nothing. *)
Definition is_execution X (op : local_task_op X) : Prop :=
  match op with ExecuteTask _ | LocalWait _ | PolicySnapshot => True | _ => False end.
Context (execute : LocalTaskActivation → runtime LocalTaskExecutionOutcome).
Hypothesis Hexecute : ∀ task, only is_execution (execute task).

Lemma execute_safe task w : safe (λ _ _, True) (execute task) w.
Proof using Hexecute.
  eapply safe_only; [|apply Hexecute]. intros X op w1 x w2 Hop Hx HI. destruct op; try done; simpl in Hx.
  - by destruct Hx as [_ ->].
  - by subst.
  - by subst.
Qed.

Lemma run_task_safe task w :
  safe (λ a w', ∀ n, a = Ok n → handed_over w' task) (run_task remote_error execute task) w.
Proof using Hexecute.
  unfold run_task. apply safe_then; [apply _|]. eapply safe_mono; [apply _| |apply execute_safe].
  intros [outcome|error|message] w' _ _; [|by intros ???..]. destruct outcome.
  - apply safe_try. intros w1 Hw1 HI1 x w2 [_ ->].
    assert (local_rely w1 (mkLocalWorld (lw_store w1)
      (if is_ok x then lw_completed w1 ++ [task] else lw_completed w1) (lw_enqueued w1))) as Hw2.
    { split_and!; [done| |done]. destruct (is_ok x); [by eexists|done]. }
    split_and!; [by apply (local_inv_same w1)|done|]. destruct x as [[]| |]; [|by intros ???..].
    intros w3 Hw3 _ n _. eapply handed_over_later; [exact Hw3|]. left. simpl. apply elem_of_app. right. by left.
  - unfold try_map. simpl. intros w1 Hw1 HI1 x w2 [_ ->].
    assert (local_rely w1 (mkLocalWorld (lw_store w1) (lw_completed w1)
      (if is_ok x then lw_enqueued w1 ++ [task] else lw_enqueued w1))) as Hw2.
    { split_and!; [done|done|]. destruct (is_ok x); [by eexists|done]. }
    split_and!; [by apply (local_inv_same w1)|done|]. destruct x as [outcome| |]; [|by intros ???..].
    intros w3 Hw3 _ n _. eapply handed_over_later; [exact Hw3|]. right. simpl. apply elem_of_app. right. by left.
Qed.

(** Moving the checkpoint over a handled record. *)
Lemma checkpoint_record_safe w r s' x :
  local_inv w → r ∈ outbox_log (lw_store w) → record_handled w r → (1 ≤ ob_cursor r)%N →
  checkpoint_local_task (ob_cursor r - 1) (ob_cursor r) (lw_store w) = (s', x) →
  local_inv (mkLocalWorld s' (lw_completed w) (lw_enqueued w)) ∧
  local_rely w (mkLocalWorld s' (lw_completed w) (lw_enqueued w)).
Proof using.
  intros HI Hr Hhandled Hpos Hrun. apply checkpoint_local_law in Hrun as [Hlog Hx].
  assert (local_rely w (mkLocalWorld s' (lw_completed w) (lw_enqueued w))) as Hw by (split_and!; simpl; by rewrite ?Hlog).
  split; [|done]. split; simpl; rewrite ?Hlog; [apply HI|..].
  - destruct Hx as [(_ & -> & _ & ?)|[_ Hx]]; [done|rewrite Hx; apply HI].
  - intros r' Hr' Hle. apply (record_handled_later w); [done|].
    destruct Hx as [(Hold & Hnew & _)|[_ Hx]]; [|apply HI; [done|by rewrite Hx in Hle]]. rewrite Hnew in Hle.
    destruct (decide (ob_cursor r' = ob_cursor r)) as [Heq|Hne].
    + by rewrite (numbered_inj _ _ _ _ (li_numbered _ HI) Hr' Hr Heq).
    + apply HI; [done|]. rewrite Hold. lia.
Qed.

Lemma run_records_safe checkpoint executed records w :
  numbered_from (checkpoint + 1) records → (∀ r, r ∈ records → r ∈ outbox_log (lw_store w)) →
  safe (λ _ _, True) (run_records decode_event event_error remote_error execute checkpoint executed records) w.
Proof using Hexecute.
  revert checkpoint executed w. induction records as [|r records IH]; intros checkpoint executed w Hnum Hin;
    [by intros ???|]. destruct Hnum as [Hr Hnum]. cbn [run_records]. apply safe_liftr.
  destruct (bail_if _ _) as [[]| |]; [|by intros ???..]. apply safe_liftr.
  destruct (decode_record r) as [envelope| |] eqn:Hdec; [|by intros ???..].
  apply safe_then; [apply _|].
  apply safe_mono with (P := λ a w', local_rely w w' ∧ ∀ n, a = Ok n → record_handled w' r); [apply _|..].
  - intros [n|error|message] w1 _ [Hw1 Hhandled]; [|by intros ???..]. specialize (Hhandled n eq_refl).
    apply safe_try. intros w2 Hw2 HI2 x w3 (s' & Hrun & ->).
    assert (∀ r', r' ∈ r :: records → r' ∈ outbox_log (lw_store w2)) as Hin2.
    { intros r' Hr'. eapply elem_of_prefix; [by apply Hin|]. destruct Hw1 as (? & _), Hw2 as (? & _). by etrans. }
    replace checkpoint with (ob_cursor r - 1)%N in Hrun by lia.
    pose proof (checkpoint_local_law _ _ _ _ _ Hrun) as [Hlog _].
    destruct (checkpoint_record_safe w2 r s' x HI2) as [HI3 Hw3];
      [apply Hin2; by left|by eapply record_handled_later|lia|done|].
    split_and!; [done..|]. destruct x as [[]| |]; [|by intros ???..]. apply IH.
    + by rewrite Hr.
    + intros r' Hr'. simpl. rewrite Hlog. apply Hin2. by right.
  - destruct (activation (ob_cursor r) envelope) as [task|] eqn:Hact.
    + eapply safe_mono; [apply _| |apply run_task_safe]. intros a w' Hw' Ha. split; [done|]. intros n Hn.
      exists envelope. split; [done|]. rewrite Hact. intros task' [= <-]. by eapply Ha.
    + intros w' Hw' _. split; [done|]. intros n _. exists envelope. split; [done|]. by rewrite Hact.
Qed.

Lemma run_once_safe batch_size w :
  safe (λ _ _, True) (run_once_with_batch_size decode_event event_error remote_error execute batch_size) w.
Proof using Hexecute.
  unfold run_once_with_batch_size. apply safe_liftr. destruct (bail_if _ _) as [[]| |]; [|by intros ???..].
  apply safe_try. intros w1 _ HI1 x w2 [-> ->]. split_and!; [done..|].
  destruct (local_task_checkpoint _) as [c| |] eqn:Hc; [|by intros ???..]. apply local_checkpoint_law in Hc as ->.
  unfold try_map. simpl. intros w3 Hw3 HI3 x w4 [-> ->]. split_and!; [done..|].
  destruct (read_after _ _ _) as [records| |] eqn:Hread; [|by intros ???..]. simpl.
  apply read_after_law in Hread.
  change (safe (λ _ _, True) (liftr (bail_if (batch_size <? length records)%nat LocalTask_AdapterBatchLimitExceeded) ≫=
    λ _, '(checkpoint, executed) ← run_records decode_event event_error remote_error execute
      (local_cursor (lw_store w1)) 0 records; mret (mkRunOutcome (length records) executed checkpoint)) w3).
  apply safe_liftr. destruct (bail_if _ _) as [[]| |]; [|by intros ???..].
  apply safe_then; [apply _|]. eapply safe_mono; [apply _| |apply run_records_safe].
  - by intros [[]| |] w' _ _ w'' _ _.
  - assert (local_cursor (lw_store w1) ≤ N.of_nat (length (outbox_log (lw_store w3))))%N as Hle.
    { pose proof (li_cursor _ HI1). destruct Hw3 as (Hlog & _). apply prefix_length in Hlog. lia. }
    rewrite Hread, (numbered_filter 1) by (apply HI3 || lia).
    replace (local_cursor (lw_store w1) + 1 - 1)%N with (local_cursor (lw_store w1)) by lia.
    pose proof (numbered_drop _ _ (li_numbered _ HI3) Hle) as Hnum.
    rewrite <-(take_drop batch_size (drop _ _)) in Hnum. by apply numbered_app in Hnum as [? _].
  - intros r Hr. rewrite Hread in Hr. apply list_elem_of_lookup in Hr as [i Hi].
    apply lookup_take_Some in Hi as [Hi _]. apply list_elem_of_lookup_2, list_elem_of_In, filter_In in Hi as [Hi _].
    by apply list_elem_of_In.
Qed.

Lemma local_worker_safe batch_sizes w :
  safe (λ _ _, True) (local_task_worker decode_event event_error remote_error execute batch_sizes) w.
Proof using Hexecute.
  revert w. induction batch_sizes as [|batch_size batch_sizes IH]; intros w; [by intros ???|]. cbn [local_task_worker].
  apply safe_bind; [apply _|]. eapply safe_mono; [apply _| |apply run_once_safe]. intros; apply IH.
Qed.
End runtime.
