(* ===== verification/TaskDispatch.v ===== *)
(** * Completing tasks through the engine

    [LocalTaskCompletionDispatcher] and [RemoteTaskCompletionDispatcher] of
    [apps/rust/bpmp-engine-server/src/linux_runtime.rs]: the completion of a task
    is a command of the engine whose identity is derived from the activation, so
    that it takes effect once however often it is dispatched. The providers of
    definitions and credentials are parameters. *)

From S2P Require Import Prelude Types Config WorkflowDef Ports Engine EngineSpec BoundaryTimer Boundary.
From S2P Require Import BoundaryDispatch TaskTypes.
From stdpp Require Import options.

Section dispatch.
Context {S : Type} `{WorkflowStorePort S}.
Context (authorize : AuthorizationRequest → res AuthorizationError AuthorizedPrincipal).
Context (resolve : ConfigurationLookup → res ConfigError ResolvedConfigSnapshot).
Context (definitions : TenantId → WorkflowType → WorkflowVersion → boundary_res WorkflowDefinition).
Context (credentials : BoundaryDispatchRequest → boundary_res BoundaryDispatchCredentials).
Context (resolve_for_workload : BoundaryDispatchRequest → string → boundary_res BoundaryDispatchCredentials).
(** The texts of errors *)
Context (display : EngineError → string) (boundary_error : BoundaryRuntimeError → string)
  (identifier_error : IdentifierError → string).

Definition local_task_identity (task : LocalTaskActivation) : string := "local-task:" +:+ la_event_id task.
Definition local_completion_request (task : LocalTaskActivation) :
    res LocalTaskRuntimeError BoundaryDispatchRequest :=
  let identity := local_task_identity task in
  let new kind value := map_err (λ error, LocalTask_Dispatch (identifier_error error)) (identifier_new kind value) in
  command_id ← new "CommandId" identity;
  instance_id ← new "InstanceId" (la_instance_id task);
  idempotency_key ← new "IdempotencyKey" identity;
  correlation_id ← new "CorrelationId" identity;
  Ok {| dr_tenant_id := la_tenant_id task;
        dr_instance_id := instance_id;
        dr_command_id := command_id;
        dr_idempotency_key := idempotency_key;
        dr_correlation_id := correlation_id;
        dr_command := match la_kind task with
                      | Kind_Service => CompleteServiceTask (la_node_id task) ∅ (la_occurred_at_epoch_ms task)
                      | Kind_Script => CompleteScriptTask (la_node_id task) (la_occurred_at_epoch_ms task)
                      end;
        dr_source := Source_Timer;
        dr_occurred_at_epoch_ms := la_occurred_at_epoch_ms task;
        dr_workflow_type := la_workflow_type task;
        dr_workflow_version := la_workflow_version task;
        dr_authorization_context_ref := None |}.
Definition dispatch_completion (task : LocalTaskActivation) : method S LocalTaskRuntimeError unit :=
  definition ← lift (map_err (λ error, LocalTask_Dispatch (boundary_error error))
    (definitions (la_tenant_id task) (la_workflow_type task) (la_workflow_version task)));
  request ← lift (local_completion_request task);
  proofs ← lift (map_err (λ error, LocalTask_Dispatch (boundary_error error)) (credentials request));
  call (λ error, LocalTask_Dispatch (display error))
    (handle authorize resolve definition (boundary_command request proofs));;
  mret tt.

Definition remote_task_identity (claim : RemoteTaskClaim) : string := "remote-task:" +:+ cl_assignment_id claim.
Definition remote_completion_request (claim : RemoteTaskClaim) (outputs : Variables) (occurred_at : N) :
    res RemoteTaskError BoundaryDispatchRequest :=
  let task := cl_task claim in
  let identity := remote_task_identity claim in
  let new kind value := map_err (λ error, Remote_Completion (identifier_error error)) (identifier_new kind value) in
  command_id ← new "CommandId" identity;
  idempotency_key ← new "IdempotencyKey" identity;
  Ok {| dr_tenant_id := rt_tenant_id task;
        dr_instance_id := rt_instance_id task;
        dr_command_id := command_id;
        dr_idempotency_key := idempotency_key;
        dr_correlation_id := rt_correlation_id task;
        dr_command := CompleteServiceTask (rt_node_id task) outputs occurred_at;
        dr_source := ExternalWorker;
        dr_occurred_at_epoch_ms := occurred_at;
        dr_workflow_type := rt_workflow_type task;
        dr_workflow_version := rt_workflow_version task;
        dr_authorization_context_ref := Some (cl_worker_id claim) |}.
Definition complete_claim (claim : RemoteTaskClaim) (outputs : Variables) (occurred_at : N) :
    method S RemoteTaskError unit :=
  let task := cl_task claim in
  definition ← lift (map_err (λ error, Remote_Completion (boundary_error error))
    (definitions (rt_tenant_id task) (rt_workflow_type task) (rt_workflow_version task)));
  request ← lift (remote_completion_request claim outputs occurred_at);
  proofs ← lift (map_err (λ error, Remote_Completion (boundary_error error))
    (resolve_for_workload request (cl_worker_id claim)));
  call (λ error, Remote_Completion (display error))
    (handle authorize resolve definition (boundary_command request proofs));;
  mret tt.

(** ** Dispatches run the handler *)
Lemma dispatch_completion_Ok task s s' :
  dispatch_completion task s = (s', Ok tt) →
  ∃ d request proofs outcome,
    definitions (la_tenant_id task) (la_workflow_type task) (la_workflow_version task) = Ok d ∧
    local_completion_request task = Ok request ∧ credentials request = Ok proofs ∧
    handle authorize resolve d (boundary_command request proofs) s = (s', Ok outcome).
Proof.
  unfold dispatch_completion. rewrite lift_then. destruct (definitions _ _ _) as [d| |] eqn:Hd; [|done..].
  simpl map_err. cbn match. rewrite lift_then. destruct (local_completion_request task) as [request| |] eqn:Hreq; [|done..].
  rewrite lift_then. destruct (credentials request) as [proofs| |] eqn:Hc; [|done..]. simpl map_err. cbn match.
  unfold call, mbind, method_bind. destruct (handle _ _ _ _ _) as [s1 [outcome| |]] eqn:Hrun; [|done..].
  intros [= ->]. by exists d, request, proofs, outcome.
Qed.
Lemma dispatch_completion_run task s d request proofs s' r :
  definitions (la_tenant_id task) (la_workflow_type task) (la_workflow_version task) = Ok d →
  local_completion_request task = Ok request → credentials request = Ok proofs →
  handle authorize resolve d (boundary_command request proofs) s = (s', r) →
  dispatch_completion task s = (s', map_err (λ error, LocalTask_Dispatch (display error)) r ≫= λ _, Ok tt).
Proof.
  intros Hd Hreq Hc Hrun. unfold dispatch_completion. rewrite lift_then, Hd. simpl map_err. cbn match.
  rewrite lift_then, Hreq, lift_then, Hc. simpl map_err. cbn match.
  unfold call, mbind, method_bind. rewrite Hrun. by destruct r.
Qed.
Lemma complete_claim_Ok claim outputs at_ms s s' :
  complete_claim claim outputs at_ms s = (s', Ok tt) →
  ∃ d request proofs outcome,
    definitions (rt_tenant_id (cl_task claim)) (rt_workflow_type (cl_task claim))
      (rt_workflow_version (cl_task claim)) = Ok d ∧
    remote_completion_request claim outputs at_ms = Ok request ∧
    resolve_for_workload request (cl_worker_id claim) = Ok proofs ∧
    handle authorize resolve d (boundary_command request proofs) s = (s', Ok outcome).
Proof.
  unfold complete_claim. cbv zeta. rewrite lift_then. destruct (definitions _ _ _) as [d| |] eqn:Hd; [|done..].
  simpl map_err. cbn match. rewrite lift_then. destruct (remote_completion_request _ _ _) as [request| |] eqn:Hreq; [|done..].
  rewrite lift_then. destruct (resolve_for_workload request _) as [proofs| |] eqn:Hc; [|done..]. simpl map_err. cbn match.
  unfold call, mbind, method_bind. destruct (handle _ _ _ _ _) as [s1 [outcome| |]] eqn:Hrun; [|done..].
  intros [= ->]. by exists d, request, proofs, outcome.
Qed.
Lemma complete_claim_run claim outputs at_ms s d request proofs s' r :
  definitions (rt_tenant_id (cl_task claim)) (rt_workflow_type (cl_task claim))
    (rt_workflow_version (cl_task claim)) = Ok d →
  remote_completion_request claim outputs at_ms = Ok request →
  resolve_for_workload request (cl_worker_id claim) = Ok proofs →
  handle authorize resolve d (boundary_command request proofs) s = (s', r) →
  complete_claim claim outputs at_ms s = (s', map_err (λ error, Remote_Completion (display error)) r ≫= λ _, Ok tt).
Proof.
  intros Hd Hreq Hc Hrun. unfold complete_claim. cbv zeta. rewrite lift_then, Hd. simpl map_err. cbn match.
  rewrite lift_then, Hreq, lift_then, Hc. simpl map_err. cbn match.
  unfold call, mbind, method_bind. rewrite Hrun. by destruct r.
Qed.
End dispatch.
