(* ===== verification/RemoteTasks.v ===== *)
(** * Remote tasks on the replicated store

    The remote task queue: the operations of [RocksDbWorkflowStore] in
    [crates/bpmp-adapter-rocksdb/src/rocks.rs] that prepare a change of a task as
    a batch and list tasks through their indexes, and those of
    [RaftWorkflowStore] in [bpmp-engine-server/src/raft_runtime.rs] that have
    consensus apply the batches. A task is a record, with an entry in an index by
    the time it becomes available while it is ready and in another by the end of
    its lease while a worker holds it. *)

From Stdlib Require Import Ascii.
From S2P Require Import Prelude Effects Bytes RaftBatch StorageKeys Database PayloadCrypto.
From S2P Require Import Types Outbox Ports Wire EventCodec SnapshotCodec MemoryStore RocksStore.
From S2P Require Import RocksRaft RaftStore TaskTypes.
From stdpp Require Import options.

Definition REMOTE_TASKS_CF : string := "remote_tasks".
Definition REMOTE_TASK_READY_INDEX_CF : string := "remote_task_ready_index".
Definition REMOTE_TASK_LEASE_INDEX_CF : string := "remote_task_lease_index".

(** ** The stored record *)
Inductive RemoteTaskRecordStatus :=
| Status_Unspecified | Status_Ready | Status_Leased | Status_Completed | Status_DeadLettered.
#[global] Instance RemoteTaskRecordStatus_eq_dec : EqDecision RemoteTaskRecordStatus.
Proof. solve_decision. Defined.
Definition status_number (status : RemoteTaskRecordStatus) : Z :=
  match status with
  | Status_Unspecified => 0 | Status_Ready => 1 | Status_Leased => 2 | Status_Completed => 3
  | Status_DeadLettered => 4
  end.
Definition status_try_from (number : Z) : option RemoteTaskRecordStatus :=
  match number with
  | 0%Z => Some Status_Unspecified | 1%Z => Some Status_Ready | 2%Z => Some Status_Leased
  | 3%Z => Some Status_Completed | 4%Z => Some Status_DeadLettered
  | _ => None
  end.

Record RemoteTaskRecord := mkTaskRecord {
  tr_storage_schema_version : N;
  tr_task_id : string;
  tr_tenant_id : string;
  tr_instance_id : string;
  tr_workflow_type : string;
  tr_workflow_version : string;
  tr_node_id : string;
  tr_task_type : string;
  tr_activation_event_id : string;
  tr_activation_sequence : N;
  tr_activated_at_epoch_ms : N;
  tr_correlation_id : string;
  tr_config_version : string;
  tr_policy_version : string;
  tr_status : Z;
  tr_attempts : N;
  tr_available_at_epoch_ms : N;
  tr_assignment_id : string;
  tr_worker_id : string;
  tr_session_id : string;
  tr_lease_version : N;
  tr_lease_until_epoch_ms : N;
  tr_assignment_token_digest : string }.

Definition remote_task_record (task : RemoteTask) : RemoteTaskRecord :=
  mkTaskRecord STORAGE_SCHEMA_VERSION (rt_task_id task) (rt_tenant_id task) (rt_instance_id task)
    (rt_workflow_type task) (rt_workflow_version task) (rt_node_id task) (rt_task_type task)
    (rt_activation_event_id task) (rt_activation_sequence task) (rt_activated_at_epoch_ms task)
    (rt_correlation_id task) (rt_config_version task) (rt_policy_version task)
    (status_number Status_Ready) 0 (rt_activated_at_epoch_ms task) "" "" "" 0 0 "".

(** The assignments of [prepare_remote_task_claim]. *)
Definition leased_record (record : RemoteTaskRecord) (attempts lease_version : N)
    (request : RemoteTaskClaimRequest) : RemoteTaskRecord :=
  mkTaskRecord (tr_storage_schema_version record) (tr_task_id record) (tr_tenant_id record)
    (tr_instance_id record) (tr_workflow_type record) (tr_workflow_version record) (tr_node_id record)
    (tr_task_type record) (tr_activation_event_id record) (tr_activation_sequence record)
    (tr_activated_at_epoch_ms record) (tr_correlation_id record) (tr_config_version record)
    (tr_policy_version record) (status_number Status_Leased) attempts
    (tr_available_at_epoch_ms record) (cm_assignment_id request) (cm_worker_id request)
    (cm_session_id request) lease_version (cm_lease_until_epoch_ms request)
    (cm_assignment_token_digest request).
(** The assignments of [prepare_remote_task_terminal_mutation]. *)
Definition released_record (record : RemoteTaskRecord) (status : RemoteTaskRecordStatus)
    (available_at : N) : RemoteTaskRecord :=
  mkTaskRecord (tr_storage_schema_version record) (tr_task_id record) (tr_tenant_id record)
    (tr_instance_id record) (tr_workflow_type record) (tr_workflow_version record) (tr_node_id record)
    (tr_task_type record) (tr_activation_event_id record) (tr_activation_sequence record)
    (tr_activated_at_epoch_ms record) (tr_correlation_id record) (tr_config_version record)
    (tr_policy_version record) (status_number status) (tr_attempts record) available_at
    (tr_assignment_id record) (tr_worker_id record) (tr_session_id record) (tr_lease_version record) 0
    (tr_assignment_token_digest record).

Definition remote_status (record : RemoteTaskRecord) : res RemoteTaskError RemoteTaskRecordStatus :=
  status ← ok_or (status_try_from (tr_status record)) (Remote_Store "remote task status is invalid");
  bail_if (bool_decide (status = Status_Unspecified))
    (Remote_Store "remote task status is unspecified");;
  Ok status.

Definition non_empty_remote (value : string) : res RemoteTaskError string :=
  bail_if (is_blank value) InvalidActivation;; Ok value.
(** The constructor of an identifier, its error replaced. *)
Definition remote_identifier (value : string) : res RemoteTaskError string :=
  bail_if (is_blank value) InvalidActivation;; Ok value.
Definition remote_task_from_record (record : RemoteTaskRecord) : res RemoteTaskError RemoteTask :=
  task_id ← non_empty_remote (tr_task_id record);
  tenant_id ← remote_identifier (tr_tenant_id record);
  instance_id ← remote_identifier (tr_instance_id record);
  workflow_type ← remote_identifier (tr_workflow_type record);
  workflow_version ← remote_identifier (tr_workflow_version record);
  node_id ← remote_identifier (tr_node_id record);
  task_type ← non_empty_remote (tr_task_type record);
  activation_event_id ← non_empty_remote (tr_activation_event_id record);
  correlation_id ← remote_identifier (tr_correlation_id record);
  config_version ← remote_identifier (tr_config_version record);
  policy_version ← remote_identifier (tr_policy_version record);
  Ok (mkRemoteTask task_id tenant_id instance_id workflow_type workflow_version node_id task_type
        activation_event_id (tr_activation_sequence record) (tr_activated_at_epoch_ms record)
        correlation_id config_version policy_version).

Definition remote_claim_from_record (record : RemoteTaskRecord) : res RemoteTaskError RemoteTaskClaim :=
  status ← remote_status record;
  bail_if (bool_decide (status ≠ Status_Leased)
           || is_blank (tr_assignment_id record) || is_blank (tr_worker_id record)
           || is_blank (tr_session_id record) || (tr_attempts record =? 0)%N
           || (tr_lease_version record =? 0)%N || (tr_lease_until_epoch_ms record =? 0)%N
           || negb (String.length (tr_assignment_token_digest record) =? 32)%nat)
    (Remote_Store "remote leased task metadata is invalid");;
  task ← remote_task_from_record record;
  Ok (mkClaim task (tr_assignment_id record) (tr_worker_id record) (tr_session_id record)
        (tr_attempts record) (tr_lease_version record) (tr_lease_until_epoch_ms record)
        (tr_assignment_token_digest record)).

Definition validate_remote_task (task : RemoteTask) : res RemoteTaskError unit :=
  bail_if (is_blank (rt_task_id task) || is_blank (rt_task_type task)
           || bool_decide (rt_activation_event_id task ≠ rt_task_id task)
           || (rt_activation_sequence task =? 0)%N || (rt_activated_at_epoch_ms task =? 0)%N)
    InvalidActivation.
Definition validate_remote_claim_request (request : RemoteTaskClaimRequest) : res RemoteTaskError unit :=
  bail_if (is_blank (cm_task_id request) || is_blank (cm_assignment_id request)
           || is_blank (cm_worker_id request) || is_blank (cm_session_id request)
           || (cm_now_epoch_ms request =? 0)%N
           || (cm_lease_until_epoch_ms request <=? cm_now_epoch_ms request)%N
           || negb (String.length (cm_assignment_token_digest request) =? 32)%nat)
    Remote_InvalidRequest.
Definition validate_remote_lease (record : RemoteTaskRecord) (claim : RemoteTaskClaim) :
    res RemoteTaskError unit :=
  status ← remote_status record;
  bail_if (bool_decide (status ≠ Status_Leased)
           || bool_decide (tr_tenant_id record ≠ rt_tenant_id (cl_task claim))
           || bool_decide (tr_task_id record ≠ rt_task_id (cl_task claim))
           || bool_decide (tr_assignment_id record ≠ cl_assignment_id claim)
           || bool_decide (tr_worker_id record ≠ cl_worker_id claim)
           || bool_decide (tr_session_id record ≠ cl_session_id claim)
           || negb (tr_attempts record =? cl_attempt claim)%N
           || negb (tr_lease_version record =? cl_lease_version claim)%N
           || negb (tr_lease_until_epoch_ms record =? cl_lease_until_epoch_ms claim)%N
           || bool_decide (tr_assignment_token_digest record ≠ cl_assignment_token_digest claim))
    StaleLease.

(** ** Keys *)
Definition remote_task_storage_key (tenant_id task_id : string) : string :=
  component tenant_id +:+ component task_id.
Definition remote_task_due_index_key (due_at_epoch_ms : N) (storage_key : string) : string :=
  be_bytes 8 due_at_epoch_ms +:+ storage_key.
(** [split_at_checked(8)] *)
Definition split_remote_due_index_key (key : string) : res RemoteTaskError (N * string) :=
  bail_if (String.length key <? 8)%nat (Remote_Store "remote task index key is malformed");;
  due ← ok_or (u64_from_be (String.substring 0 8 key)) (Remote_Store "remote task due time is malformed");
  let storage_key := String.substring 8 (String.length key - 8) key in
  bail_if (bool_decide (storage_key = ""))
    (Remote_Store "remote task index has an empty storage key");;
  Ok (due, storage_key).
Definition remote_operation_scope (operation storage_key : string) (generation : N) : string :=
  "remote-task" +:+ String zero "" +:+ operation +:+ String zero "" +:+ storage_key
  +:+ be_bytes 8 generation.

(** ** Batches *)
Section store.
Context {D : Type} `{!Database D} `{!Message RemoteTaskRecord}.
Context (sha256 : string → ValueDigest).
Implicit Types d : D.

Definition missing_precondition (family key : string) : Precondition :=
  mkPrecondition (family, key) ExpectedMissing.
Definition digest_precondition (family key value : string) : Precondition :=
  mkPrecondition (family, key) (ExpectedDigest (value_digest sha256 value)).
Definition put_mutation (family key value : string) : Mutation := Put (family, key) value.
Definition delete_mutation (family key : string) : Mutation := Delete (family, key).

Definition remote_named_cf (d : D) (name : string) : res RemoteTaskError unit :=
  bail_if (negb (db_has_family d name)) (Remote_Store ("missing RocksDB column family " +:+ name)).
Definition remote_get (d : D) (family key : string) : res RemoteTaskError (option string) :=
  remote_named_cf d family;; map_err Remote_Store (db_get d (family, key)).
Definition decode_remote_task_record (bytes : string) : res RemoteTaskError RemoteTaskRecord :=
  record ← map_err Remote_Store (decode_message bytes);
  bail_if (negb (tr_storage_schema_version record =? STORAGE_SCHEMA_VERSION)%N)
    (Remote_Store "unsupported remote task storage schema version");;
  remote_status record;;
  Ok record.

Definition prepare_remote_task_enqueue (d : D) (task : RemoteTask) :
    res RemoteTaskError (option PreparedAtomicBatch) :=
  validate_remote_task task;;
  let storage_key := remote_task_storage_key (rt_tenant_id task) (rt_task_id task) in
  stored ← remote_get d REMOTE_TASKS_CF storage_key;
  match stored with
  | Some bytes =>
      existing ← decode_remote_task_record bytes;
      existing_task ← remote_task_from_record existing;
      if bool_decide (existing_task = task) then Ok None else Err Remote_Conflict
  | None =>
      let record := remote_task_record task in
      let ready_index := remote_task_due_index_key (tr_available_at_epoch_ms record) storage_key in
      let command_id := "remote-enqueue:" +:+ rt_tenant_id task +:+ ":" +:+ rt_task_id task in
      Ok (Some (PreparedAtomicBatch_new sha256 command_id
        (remote_operation_scope "enqueue" storage_key 0)
        [missing_precondition REMOTE_TASKS_CF storage_key;
         missing_precondition REMOTE_TASK_READY_INDEX_CF ready_index]
        [put_mutation REMOTE_TASKS_CF storage_key (encode_message record);
         put_mutation REMOTE_TASK_READY_INDEX_CF ready_index ""]
        ""))
  end.

(** The record is read in [d], the index in [d']: the database may change
    between the two. *)
Definition prepare_remote_task_claim (d d' : D) (request : RemoteTaskClaimRequest) :
    res RemoteTaskError (option PreparedAtomicBatch) :=
  validate_remote_claim_request request;;
  let storage_key := remote_task_storage_key (cm_tenant_id request) (cm_task_id request) in
  stored ← remote_get d REMOTE_TASKS_CF storage_key;
  match stored with
  | None => Ok None
  | Some bytes =>
      record ← decode_remote_task_record bytes;
      status ← remote_status record;
      if bool_decide (status ≠ Status_Ready)
         || (cm_now_epoch_ms request <? tr_available_at_epoch_ms record)%N
      then Ok None else
      let ready_index := remote_task_due_index_key (tr_available_at_epoch_ms record) storage_key in
      indexed ← remote_get d' REMOTE_TASK_READY_INDEX_CF ready_index;
      ready_bytes ← ok_or indexed (Remote_Store "remote ready task has no ready index");
      attempts ← ok_or (checked_add u32_max (tr_attempts record) 1) Remote_InvalidRequest;
      lease_version ← ok_or (checked_add u64_max (tr_lease_version record) 1) Remote_InvalidRequest;
      let leased := leased_record record attempts lease_version request in
      let lease_index := remote_task_due_index_key (tr_lease_until_epoch_ms leased) storage_key in
      Ok (Some (PreparedAtomicBatch_new sha256 (cm_assignment_id request)
        (remote_operation_scope "claim" storage_key (tr_lease_version leased))
        [digest_precondition REMOTE_TASKS_CF storage_key bytes;
         digest_precondition REMOTE_TASK_READY_INDEX_CF ready_index ready_bytes;
         missing_precondition REMOTE_TASK_LEASE_INDEX_CF lease_index]
        [put_mutation REMOTE_TASKS_CF storage_key (encode_message leased);
         delete_mutation REMOTE_TASK_READY_INDEX_CF ready_index;
         put_mutation REMOTE_TASK_LEASE_INDEX_CF lease_index ""]
        ""))
  end.

Definition load_remote_task_claim (d : D) (tenant_id task_id : string) :
    res RemoteTaskError (option RemoteTaskClaim) :=
  stored ← remote_get d REMOTE_TASKS_CF (remote_task_storage_key tenant_id task_id);
  match stored with
  | None => Ok None
  | Some bytes =>
      record ← decode_remote_task_record bytes;
      status ← remote_status record;
      if bool_decide (status = Status_Leased)
      then claim ← remote_claim_from_record record; Ok (Some claim)
      else Ok None
  end.

(** How a lease ends: the name of the operation, the new status, and when the
    task is available again. *)
Definition terminal_operation (record : RemoteTaskRecord) (retry_at_epoch_ms : option N)
    (dead_letter : bool) : string * RemoteTaskRecordStatus * N :=
  match retry_at_epoch_ms with
  | Some retry_at => ("retry", Status_Ready, retry_at)
  | None =>
      if dead_letter then ("dead-letter", Status_DeadLettered, tr_available_at_epoch_ms record)
      else ("complete", Status_Completed, tr_available_at_epoch_ms record)
  end.
Definition prepare_remote_task_terminal_mutation (d d' : D) (claim : RemoteTaskClaim)
    (retry_at_epoch_ms : option N) (dead_letter : bool) : res RemoteTaskError PreparedAtomicBatch :=
  let storage_key := remote_task_storage_key (rt_tenant_id (cl_task claim)) (rt_task_id (cl_task claim)) in
  stored ← remote_get d REMOTE_TASKS_CF storage_key;
  bytes ← ok_or stored Remote_NotFound;
  record ← decode_remote_task_record bytes;
  validate_remote_lease record claim;;
  let lease_index := remote_task_due_index_key (tr_lease_until_epoch_ms record) storage_key in
  indexed ← remote_get d' REMOTE_TASK_LEASE_INDEX_CF lease_index;
  lease_bytes ← ok_or indexed (Remote_Store "remote lease index is missing");
  let '(operation, status, available_at) := terminal_operation record retry_at_epoch_ms dead_letter in
  let released := released_record record status available_at in
  let ready_index := remote_task_due_index_key (tr_available_at_epoch_ms released) storage_key in
  let requeued := bool_decide (status = Status_Ready) in
  Ok (PreparedAtomicBatch_new sha256
    ("remote-" +:+ operation +:+ ":" +:+ cl_assignment_id claim +:+ ":" +:+ pretty (cl_lease_version claim))
    (remote_operation_scope operation storage_key (cl_lease_version claim))
    ([digest_precondition REMOTE_TASKS_CF storage_key bytes;
      digest_precondition REMOTE_TASK_LEASE_INDEX_CF lease_index lease_bytes]
     ++ if requeued then [missing_precondition REMOTE_TASK_READY_INDEX_CF ready_index] else [])
    ([put_mutation REMOTE_TASKS_CF storage_key (encode_message released);
      delete_mutation REMOTE_TASK_LEASE_INDEX_CF lease_index]
     ++ if requeued then [put_mutation REMOTE_TASK_READY_INDEX_CF ready_index ""] else [])
    "").
Definition prepare_remote_task_complete (d d' : D) (claim : RemoteTaskClaim) :
    res RemoteTaskError PreparedAtomicBatch :=
  prepare_remote_task_terminal_mutation d d' claim None false.
Definition prepare_remote_task_failure (d d' : D) (claim : RemoteTaskClaim) (retry_at_epoch_ms : N)
    (dead_letter : bool) : res RemoteTaskError PreparedAtomicBatch :=
  bail_if (negb dead_letter && (retry_at_epoch_ms <=? rt_activated_at_epoch_ms (cl_task claim))%N)
    Remote_InvalidRequest;;
  prepare_remote_task_terminal_mutation d d' claim
    (if dead_letter then None else Some retry_at_epoch_ms) dead_letter.

(** ** Listing tasks *)
(** The loop over an index, which the two listings share: up to [limit] tasks
    that are due, with the [status] and the due time the index says. An iteration
    sees the index as it was when the iteration began; the records are read one by
    one, the [n]-th in the database [live n]. *)
Section listing.
Context {A : Type} (status : RemoteTaskRecordStatus) (due_of : RemoteTaskRecord → N)
  (convert : RemoteTaskRecord → res RemoteTaskError A) (missing disagree : string).
Fixpoint index_items (live : nat → D) (now_epoch_ms : N) (limit : nat)
    (items : list (res string (string * string))) (found : list A) : res RemoteTaskError (list A) :=
  match items with
  | [] => Ok found
  | item :: items =>
      if (length found =? limit)%nat then Ok found else
      '(index_key, _) ← map_err Remote_Store item;
      '(due, storage_key) ← split_remote_due_index_key index_key;
      if (now_epoch_ms <? due)%N then Ok found else
      stored ← remote_get (live (length found)) REMOTE_TASKS_CF storage_key;
      bytes ← ok_or stored (Remote_Store missing);
      record ← decode_remote_task_record bytes;
      actual ← remote_status record;
      bail_if (bool_decide (actual ≠ status) || negb (due_of record =? due)%N) (Remote_Store disagree);;
      value ← convert record;
      index_items live now_epoch_ms limit items (found ++ [value])
  end.
End listing.

Definition ready_remote_tasks (d : D) (live : nat → D) (now_epoch_ms : N) (limit : nat) :
    res RemoteTaskError (list RemoteTask) :=
  bail_if (limit =? 0)%nat Remote_InvalidRequest;;
  remote_named_cf d REMOTE_TASK_READY_INDEX_CF;;
  index_items Status_Ready tr_available_at_epoch_ms remote_task_from_record
    "remote ready index references a missing task" "remote ready index and task record disagree"
    live now_epoch_ms limit (db_iterator d REMOTE_TASK_READY_INDEX_CF "") [].

Definition expired_remote_task_claims (d : D) (live : nat → D) (now_epoch_ms : N) (limit : nat) :
    res RemoteTaskError (list RemoteTaskClaim) :=
  bail_if (limit =? 0)%nat Remote_InvalidRequest;;
  remote_named_cf d REMOTE_TASK_LEASE_INDEX_CF;;
  index_items Status_Leased tr_lease_until_epoch_ms remote_claim_from_record
    "remote lease index references a missing task" "remote lease index and task record disagree"
    live now_epoch_ms limit (db_iterator d REMOTE_TASK_LEASE_INDEX_CF "") [].
End store.

(** ** Through consensus *)
Section replicated.
Context {D : Type} `{!Database D} `{!Message RemoteTaskRecord}.
Context (store_error : StoreError → string).
Context (sha256 : string → ValueDigest) (config : RaftConfig).
Abbreviation call := (effect (raft_op D) RemoteTaskError).

(** [remote_store_error] of [raft_runtime.rs] *)
Definition remote_store_error (error : StoreError) : RemoteTaskError :=
  match error with
  | NotLeader leader_id leader_address => Remote_NotLeader leader_id leader_address
  | other => Remote_Store (store_error other)
  end.
Definition propose_remote_batch (batch : PreparedAtomicBatch) : call ApplyResponse :=
  prog_bind (propose_prepared config batch) (λ r, Done (map_err remote_store_error r)).
Definition remote_mutation_applied (response : ApplyResponse) : res RemoteTaskError unit :=
  match ar_outcome response with
  | Applied | Apply_Duplicate => Ok tt
  | PreconditionFailed _ => Err Remote_Conflict
  | Rejected reason => Err (Remote_Store reason)
  end.

Definition enqueue_remote_task (activation : LocalTaskActivation) : call RemoteTaskEnqueueOutcome :=
  task ← liftr (RemoteTask_try_from activation);
  d ← ask Op_Database;
  prepared ← liftr (prepare_remote_task_enqueue sha256 d task);
  match prepared with
  | None => mret Task_Duplicate
  | Some batch =>
      response ← propose_remote_batch batch;
      liftr match ar_outcome response with
            | Applied => Ok Task_Enqueued
            | Apply_Duplicate => Ok Task_Duplicate
            | PreconditionFailed _ => Err Remote_Conflict
            | Rejected reason => Err (Remote_Store reason)
            end
  end.

Definition claim_remote_task (request : RemoteTaskClaimRequest) : call (option RemoteTaskClaim) :=
  d ← ask Op_Database;
  d' ← ask Op_Database;
  prepared ← liftr (prepare_remote_task_claim sha256 d d' request);
  match prepared with
  | None => mret None
  | Some batch =>
      response ← propose_remote_batch batch;
      match ar_outcome response with
      | Applied | Apply_Duplicate =>
          d ← ask Op_Database;
          claim ← liftr (load_remote_task_claim d (cm_tenant_id request) (cm_task_id request));
          liftr match claim with
                | Some claim =>
                    if bool_decide (cl_assignment_id claim = cm_assignment_id request)
                    then Ok (Some claim) else Err Remote_Conflict
                | None => Err Remote_Conflict
                end
      | PreconditionFailed _ => mret None
      | Rejected reason => throw (Remote_Store reason)
      end
  end.

Definition complete_remote_task (claim : RemoteTaskClaim) : call unit :=
  d ← ask Op_Database;
  d' ← ask Op_Database;
  batch ← liftr (prepare_remote_task_complete sha256 d d' claim);
  response ← propose_remote_batch batch;
  liftr (remote_mutation_applied response).

Definition fail_remote_task (claim : RemoteTaskClaim) (retry_at_epoch_ms : N) (dead_letter : bool) :
    call RemoteTaskFailureOutcome :=
  d ← ask Op_Database;
  d' ← ask Op_Database;
  batch ← liftr (prepare_remote_task_failure sha256 d d' claim retry_at_epoch_ms dead_letter);
  response ← propose_remote_batch batch;
  liftr (remote_mutation_applied response);;
  mret (if dead_letter then Task_DeadLettered else Task_RetryScheduled).

(** The databases in which [n] records are read. *)
Fixpoint live_databases (n : nat) : call (list D) :=
  match n with
  | 0 => mret []
  | S n => d ← ask Op_Database; ds ← live_databases n; mret (d :: ds)
  end.
Definition ready_tasks (now_epoch_ms : N) (limit : nat) : call (list RemoteTask) :=
  d ← ask Op_Database;
  live ← live_databases limit;
  liftr (ready_remote_tasks d (λ n, default d (live !! n)) now_epoch_ms limit).
Definition expired_claims (now_epoch_ms : N) (limit : nat) : call (list RemoteTaskClaim) :=
  d ← ask Op_Database;
  live ← live_databases limit;
  liftr (expired_remote_task_claims d (λ n, default d (live !! n)) now_epoch_ms limit).
End replicated.
