(* ===== verification/RemoteProofs.v ===== *)
(** * The life of a remote task

    What the batches of [RemoteTasks] do to the queue: a task is enqueued once,
    alternates between being ready and being leased, and ends completed or dead
    lettered; the two indexes always list exactly the ready and the leased
    tasks. *)

From S2P Require Import Prelude Effects Bytes RaftBatch RaftMachine RaftCluster StorageKeys Database.
From S2P Require Import Types Ports RocksRaft PayloadCrypto RocksStore RaftStore TaskTypes RemoteTasks.
From stdpp Require Import options.

Lemma remote_status_Ok r s :
  remote_status r = Ok s ↔ tr_status r = status_number s ∧ s ≠ Status_Unspecified.
Proof.
  unfold remote_status. split.
  - intros Hrun. inv_res Hrun. apply bool_decide_eq_false in Hrun0 || idtac.
    destruct r as [? ? ? ? ? ? ? ? ? ? ? ? ? ? z]. simpl in *.
    destruct z as [|[[[]|[]|]|[[]|[]|]|]|]; simplify_eq/=; done.
  - intros [-> Hs]. by destruct s.
Qed.

(** ** Keys *)
Lemma due_index_key_inj due due' sk sk' :
  remote_task_due_index_key due sk = remote_task_due_index_key due' sk' → sk = sk'.
Proof.
  unfold remote_task_due_index_key. intros [_ ->]%append_inj; [done|]. by rewrite !length_be_bytes.
Qed.
Lemma due_index_key_due due due' sk sk' :
  (due ≤ u64_max)%N → (due' ≤ u64_max)%N →
  remote_task_due_index_key due sk = remote_task_due_index_key due' sk' → due = due'.
Proof.
  intros ??. unfold remote_task_due_index_key. intros [Heq _]%append_inj; [|by rewrite !length_be_bytes].
  by apply be_bytes_8_inj in Heq.
Qed.

Lemma substring_app_l s t : String.substring 0 (String.length s) (s +:+ t) = s.
Proof. induction s as [|a s IH]; simpl; [by destruct t|]. by f_equal. Qed.
Lemma substring_all t : String.substring 0 (String.length t) t = t.
Proof. induction t as [|a t IH]; simpl; [done|]. by f_equal. Qed.

Lemma storage_key_not_empty tenant task : remote_task_storage_key tenant task ≠ "".
Proof.
  intros Heq. apply (f_equal String.length) in Heq. revert Heq. unfold remote_task_storage_key, component.
  rewrite !length_append, !length_be_bytes. simpl. lia.
Qed.

Lemma substring_app_r s t : String.substring (String.length s) (String.length t) (s +:+ t) = t.
Proof. induction s as [|a s IH]; [apply substring_all|done]. Qed.

(** An index key gives back the time and the key of the task. *)
Lemma split_due_index_key due sk :
  (due ≤ u64_max)%N → sk ≠ "" → split_remote_due_index_key (remote_task_due_index_key due sk) = Ok (due, sk).
Proof.
  intros Hdue Hsk. unfold split_remote_due_index_key, remote_task_due_index_key.
  pose proof (u64_from_be_bytes _ Hdue) as Hbytes. pose proof (length_be_bytes 8 due) as Hlen.
  generalize dependent (be_bytes 8 due). intros p Hbytes Hlen.
  pose proof (substring_app_l p sk) as Hl. pose proof (substring_app_r p sk) as Hr. rewrite Hlen in Hl, Hr.
  rewrite length_append, Hlen. replace (8 + String.length sk - 8) with (String.length sk) by lia.
  rewrite Hl, Hr, Hbytes. rewrite bool_decide_false by done.
  by replace (8 + String.length sk <? 8) with false by (symmetry; apply Nat.ltb_ge; lia).
Qed.

(** ** What the queue holds *)
Section queue.
Context `{!Message RemoteTaskRecord} `{!LawfulMessage RemoteTaskRecord}.
Implicit Types (records : gmap StorageKey string) (r : RemoteTaskRecord) (sk : string).

Definition ready_key r sk : option string :=
  if decide (tr_status r = status_number Status_Ready)
  then Some (remote_task_due_index_key (tr_available_at_epoch_ms r) sk) else None.
Definition lease_key r sk : option string :=
  if decide (tr_status r = status_number Status_Leased)
  then Some (remote_task_due_index_key (tr_lease_until_epoch_ms r) sk) else None.

(** A record of the queue: its fields are those of a task, and of a claim while
    it is leased. *)
Record stored_ok sk r : Prop := {
  so_schema : tr_storage_schema_version r = STORAGE_SCHEMA_VERSION;
  so_key : sk = remote_task_storage_key (tr_tenant_id r) (tr_task_id r);
  so_status : ∃ s, remote_status r = Ok s;
  so_task : ∃ task, remote_task_from_record r = Ok task;
  so_available : (tr_available_at_epoch_ms r ≤ u64_max)%N;
  so_lease_until : (tr_lease_until_epoch_ms r ≤ u64_max)%N;
  so_claim : tr_status r = status_number Status_Leased → ∃ claim, remote_claim_from_record r = Ok claim }.

Definition task_at records sk r : Prop := records !! (REMOTE_TASKS_CF, sk) = Some (encode_message r).
(** The index [family] lists exactly the tasks for which [key] gives a key. *)
Definition indexes records (family : string) (key : RemoteTaskRecord → string → option string) : Prop :=
  ∀ k value, records !! (family, k) = Some value ↔
    value = "" ∧ ∃ sk r, task_at records sk r ∧ key r sk = Some k.
Record queue_ok records : Prop := {
  qo_record sk bytes : records !! (REMOTE_TASKS_CF, sk) = Some bytes →
    ∃ r, bytes = encode_message r ∧ stored_ok sk r;
  qo_ready : indexes records REMOTE_TASK_READY_INDEX_CF ready_key;
  qo_lease : indexes records REMOTE_TASK_LEASE_INDEX_CF lease_key }.

Lemma encode_inj r r' : encode_message r = encode_message r' → r = r'.
Proof using LawfulMessage0.
  intros Heq. apply (f_equal decode_message) in Heq. rewrite !decode_encode in Heq. by injection Heq.
Qed.
Lemma task_at_inj records sk r r' : task_at records sk r → task_at records sk r' → r = r'.
Proof using LawfulMessage0. unfold task_at. intros -> [= Heq]. by apply encode_inj. Qed.
Lemma task_at_ok records sk r : queue_ok records → task_at records sk r → stored_ok sk r.
Proof using LawfulMessage0. intros Hq (r' & Heq & Hok)%(qo_record _ Hq). by apply encode_inj in Heq as ->. Qed.

Lemma queue_ok_empty : queue_ok ∅.
Proof using.
  assert (∀ (k : StorageKey) (value : string), (∅ : gmap StorageKey string) !! k = Some value → False) as Hno
    by (intros k value; by rewrite lookup_empty).
  split.
  - by intros sk bytes ?%Hno.
  - intros k value. split; [by intros ?%Hno|]. by intros (_ & sk & r & ?%Hno & _).
  - intros k value. split; [by intros ?%Hno|]. by intros (_ & sk & r & ?%Hno & _).
Qed.

(** ** One task changes *)
Definition task_now records sk (old : option RemoteTaskRecord) : Prop :=
  records !! (REMOTE_TASKS_CF, sk) = encode_message <$> old.
(** The index after the task [sk] has changed from [old] to [new]. *)
Definition reindexed records records' (family : string) (key : RemoteTaskRecord → string → option string)
    sk (old : option RemoteTaskRecord) (new : RemoteTaskRecord) : Prop :=
  ∀ k, records' !! (family, k) =
    if decide (key new sk = Some k) then Some ""
    else if decide ((old ≫= λ r, key r sk) = Some k) then None else records !! (family, k).
Record task_changes records records' sk old new : Prop := {
  tc_task sk' : records' !! (REMOTE_TASKS_CF, sk') =
    if decide (sk' = sk) then Some (encode_message new) else records !! (REMOTE_TASKS_CF, sk');
  tc_ready : reindexed records records' REMOTE_TASK_READY_INDEX_CF ready_key sk old new;
  tc_lease : reindexed records records' REMOTE_TASK_LEASE_INDEX_CF lease_key sk old new }.

Lemma task_at_changes records records' sk old new sk' r :
  task_changes records records' sk old new →
  task_at records' sk' r ↔ (sk' = sk ∧ r = new) ∨ (sk' ≠ sk ∧ task_at records sk' r).
Proof using LawfulMessage0.
  intros Hc. unfold task_at. rewrite (tc_task _ _ _ _ _ Hc). case_decide; [|naive_solver].
  split; [intros [= ->%encode_inj]; naive_solver|]. intros [[_ ->]|[]]; done.
Qed.

Lemma indexes_change records records' family key sk old new :
  (∀ r r' sk sk' k, key r sk = Some k → key r' sk' = Some k → sk = sk') →
  indexes records family key → task_now records sk old →
  task_changes records records' sk old new → reindexed records records' family key sk old new →
  indexes records' family key.
Proof using LawfulMessage0.
  intros Hinj Hidx Hold Hc Hre k value. rewrite (Hre k).
  assert (∀ r, task_at records sk r ↔ old = Some r) as Hat.
  { intros r. unfold task_at. rewrite Hold. destruct old as [r'|]; simpl; [|done].
    split; [by intros [= ->%encode_inj]|by intros [= ->]]. }
  setoid_rewrite (task_at_changes _ _ _ _ _ _ _ Hc).
  destruct (decide (key new sk = Some k)) as [Hnew|Hnew].
  { split; [intros [= <-]; naive_solver|]. by intros [-> _]. }
  destruct (decide (_ = Some k)) as [Hk|Hk].
  - split; [done|]. intros (_ & sk' & r & [[-> ->]|[Hne Hr]] & Hkey); [done|].
    destruct old as [r'|]; [|done]. simpl in Hk. by destruct (Hinj _ _ _ _ _ Hk Hkey).
  - rewrite (Hidx k). split.
    + intros (-> & sk' & r & Hr & Hkey). split; [done|]. exists sk', r. split; [|done]. right. split; [|done].
      intros ->. apply Hat in Hr as ->. done.
    + intros (-> & sk' & r & [[-> ->]|[Hne Hr]] & Hkey); [done|]. naive_solver.
Qed.

Lemma ready_key_inj r r' sk sk' k : ready_key r sk = Some k → ready_key r' sk' = Some k → sk = sk'.
Proof using. unfold ready_key. repeat case_decide; [|done..]. intros H1 H2. rewrite <-H2 in H1. apply (inj Some) in H1. by apply due_index_key_inj in H1. Qed.
Lemma lease_key_inj r r' sk sk' k : lease_key r sk = Some k → lease_key r' sk' = Some k → sk = sk'.
Proof using. unfold lease_key. repeat case_decide; [|done..]. intros H1 H2. rewrite <-H2 in H1. apply (inj Some) in H1. by apply due_index_key_inj in H1. Qed.

Lemma queue_ok_change records records' sk old new :
  queue_ok records → task_now records sk old → stored_ok sk new →
  task_changes records records' sk old new → queue_ok records'.
Proof using LawfulMessage0.
  intros Hq Hold Hnew Hc. split.
  - intros sk' bytes. rewrite (tc_task _ _ _ _ _ Hc). case_decide as Heq; [|apply Hq].
    intros [= <-]. exists new. by subst.
  - eapply indexes_change; [apply ready_key_inj|apply Hq|done..|apply Hc].
  - eapply indexes_change; [apply lease_key_inj|apply Hq|done..|apply Hc].
Qed.

(** Batches that touch no record of the queue. *)
Definition remote_families : list string :=
  [REMOTE_TASKS_CF; REMOTE_TASK_READY_INDEX_CF; REMOTE_TASK_LEASE_INDEX_CF].
Lemma indexes_agree records records' family key :
  (∀ k, records' !! (family, k) = records !! (family, k)) →
  (∀ sk, records' !! (REMOTE_TASKS_CF, sk) = records !! (REMOTE_TASKS_CF, sk)) →
  indexes records family key → indexes records' family key.
Proof using.
  intros Hfam Htasks Hidx k value. rewrite Hfam.
  assert (∀ sk r, task_at records' sk r ↔ task_at records sk r) as Hat by (intros sk r; unfold task_at; by rewrite Htasks).
  split.
  - intros Hk. apply Hidx in Hk as (Hv & sk & r & Hr & Hkey). split; [exact Hv|]. exists sk, r. split; [by apply Hat|exact Hkey].
  - intros (Hv & sk & r & Hr & Hkey). apply Hidx. split; [exact Hv|]. exists sk, r. split; [by apply Hat|exact Hkey].
Qed.
Lemma queue_ok_agree records records' :
  (∀ key, key.1 ∈ remote_families → records' !! key = records !! key) → queue_ok records → queue_ok records'.
Proof using.
  intros Hagree Hq.
  assert (∀ family, family ∈ remote_families → ∀ k, records' !! (family, k) = records !! (family, k)) as Hfam
    by (intros family Hf k; by apply Hagree).
  assert (REMOTE_TASKS_CF ∈ remote_families) as H1 by (by left).
  assert (REMOTE_TASK_READY_INDEX_CF ∈ remote_families) as H2 by (right; by left).
  assert (REMOTE_TASK_LEASE_INDEX_CF ∈ remote_families) as H3 by (do 2 right; by left).
  split.
  - intros sk bytes Hb. rewrite (Hfam _ H1) in Hb. by apply (qo_record _ Hq).
  - eapply indexes_agree; [by apply Hfam|by apply Hfam|exact (qo_ready _ Hq)].
  - eapply indexes_agree; [by apply Hfam|by apply Hfam|exact (qo_lease _ Hq)].
Qed.
End queue.

(** ** The mutations of a batch *)
Definition index_mutations (family : string) (old new : option string) : list Mutation :=
  match old with Some k => [Delete (family, k)] | None => [] end ++
  match new with Some k => [Put (family, k) ""] | None => [] end.

Lemma lookup_index_mutations (records : gmap StorageKey string) family old new k :
  foldl apply_mutation_record records (index_mutations family old new) !! (family, k) =
  if decide (new = Some k) then Some ""
  else if decide (old = Some k) then None else records !! (family, k).
Proof.
  assert (∀ k', (family, k) = (family, k') ↔ Some k' = Some k) as Hk by (intros k'; split; congruence).
  destruct old as [o|], new as [n|]; cbn [index_mutations app foldl]; rewrite ?lookup_apply_mutation;
    cbn [mutation_key mutation_value];
    repeat match goal with |- context [decide ((family, k) = (family, ?x))] =>
      rewrite (decide_ext _ _ _ _ (Hk x)) end; repeat case_decide; congruence.
Qed.
Lemma lookup_index_mutations_ne (records : gmap StorageKey string) family family' old new k :
  family' ≠ family →
  foldl apply_mutation_record records (index_mutations family old new) !! (family', k) = records !! (family', k).
Proof.
  intros Hne. apply apply_mutations_other. intros (m & Heq & Hm)%list_elem_of_fmap.
  apply Hne. destruct old, new; cbn [index_mutations app] in Hm; set_unfold in Hm;
    repeat destruct Hm as [Hm|Hm]; subst; try done; cbn [mutation_key] in Heq; congruence.
Qed.

Lemma lookup_batch (records : gmap StorageKey string) sk value f1 f2 old1 new1 old2 new2 :
  f1 ≠ f2 → REMOTE_TASKS_CF ≠ f1 → REMOTE_TASKS_CF ≠ f2 →
  let records' := foldl apply_mutation_record records
    (Put (REMOTE_TASKS_CF, sk) value :: index_mutations f1 old1 new1 ++ index_mutations f2 old2 new2) in
  (∀ k, records' !! (REMOTE_TASKS_CF, k) =
     if decide (k = sk) then Some value else records !! (REMOTE_TASKS_CF, k)) ∧
  (∀ k, records' !! (f1, k) = if decide (new1 = Some k) then Some ""
     else if decide (old1 = Some k) then None else records !! (f1, k)) ∧
  (∀ k, records' !! (f2, k) = if decide (new2 = Some k) then Some ""
     else if decide (old2 = Some k) then None else records !! (f2, k)).
Proof.
  intros Hne H1 H2. cbn [foldl]. rewrite foldl_app. cbn zeta.
  assert (∀ family' k', family' ≠ REMOTE_TASKS_CF →
    apply_mutation_record records (Put (REMOTE_TASKS_CF, sk) value) !! (family', k') = records !! (family', k')) as Hput.
  { intros family' k' Hf. rewrite lookup_apply_mutation, decide_False; [done|]. cbn [mutation_key]. congruence. }
  split_and!; intros k.
  - rewrite !lookup_index_mutations_ne by done. rewrite lookup_apply_mutation. cbn [mutation_key mutation_value].
    destruct (decide (k = sk)) as [->|Hk]; [by rewrite decide_True|]. rewrite decide_False; [done|congruence].
  - by rewrite lookup_index_mutations_ne, lookup_index_mutations, Hput.
  - by rewrite lookup_index_mutations, lookup_index_mutations_ne, Hput.
Qed.

Section changes.
Context `{!Message RemoteTaskRecord}.
Implicit Types (records : gmap StorageKey string) (sk : string) (old : option RemoteTaskRecord) (new : RemoteTaskRecord).

Lemma mutations_change records sk old new ms :
  let put := Put (REMOTE_TASKS_CF, sk) (encode_message new) in
  let ready := index_mutations REMOTE_TASK_READY_INDEX_CF (old ≫= λ r, ready_key r sk) (ready_key new sk) in
  let lease := index_mutations REMOTE_TASK_LEASE_INDEX_CF (old ≫= λ r, lease_key r sk) (lease_key new sk) in
  ms = put :: ready ++ lease ∨ ms = put :: lease ++ ready →
  task_changes records (foldl apply_mutation_record records ms) sk old new.
Proof.
  intros put ready lease [-> | ->]; unfold ready, lease, put.
  - edestruct (lookup_batch records sk (encode_message new) REMOTE_TASK_READY_INDEX_CF
      REMOTE_TASK_LEASE_INDEX_CF) as (H1 & H2 & H3); [done..|]. by split.
  - edestruct (lookup_batch records sk (encode_message new) REMOTE_TASK_LEASE_INDEX_CF
      REMOTE_TASK_READY_INDEX_CF) as (H1 & H2 & H3); [done..|]. by split.
Qed.
End changes.

(** ** Operations *)
Inductive remote_op :=
| Op_Enqueue (task : RemoteTask)
| Op_Claim (request : RemoteTaskClaimRequest)
| Op_Complete (claim : RemoteTaskClaim)
| Op_Fail (claim : RemoteTaskClaim) (retry_at_epoch_ms : N) (dead_letter : bool).

Definition claim_key (claim : RemoteTaskClaim) : string :=
  remote_task_storage_key (rt_tenant_id (cl_task claim)) (rt_task_id (cl_task claim)).
Definition op_key (op : remote_op) : string :=
  match op with
  | Op_Enqueue task => remote_task_storage_key (rt_tenant_id task) (rt_task_id task)
  | Op_Claim request => remote_task_storage_key (cm_tenant_id request) (cm_task_id request)
  | Op_Complete claim | Op_Fail claim _ _ => claim_key claim
  end.

(** What the types of the source promise: identifiers are not blank, times fit
    their width. *)
Record task_ok (task : RemoteTask) : Prop := {
  tk_tenant : is_blank (rt_tenant_id task) = false;
  tk_instance : is_blank (rt_instance_id task) = false;
  tk_type : is_blank (rt_workflow_type task) = false;
  tk_version : is_blank (rt_workflow_version task) = false;
  tk_node : is_blank (rt_node_id task) = false;
  tk_correlation : is_blank (rt_correlation_id task) = false;
  tk_config : is_blank (rt_config_version task) = false;
  tk_policy : is_blank (rt_policy_version task) = false;
  tk_activated : (rt_activated_at_epoch_ms task ≤ u64_max)%N }.
Definition op_ok (op : remote_op) : Prop :=
  match op with
  | Op_Enqueue task => task_ok task
  | Op_Claim request => (cm_lease_until_epoch_ms request ≤ u64_max)%N
  | Op_Complete claim => (cl_lease_version claim ≤ u64_max)%N
  | Op_Fail claim retry_at _ => (cl_lease_version claim ≤ u64_max)%N ∧ (retry_at ≤ u64_max)%N
  end.

(** What an operation does to the record of its task. *)
Definition op_step (op : remote_op) (old : option RemoteTaskRecord) (new : RemoteTaskRecord) : Prop :=
  match op with
  | Op_Enqueue task => old = None ∧ new = remote_task_record task
  | Op_Claim request => ∃ r, old = Some r ∧ tr_status r = status_number Status_Ready ∧
      (tr_available_at_epoch_ms r ≤ cm_now_epoch_ms request)%N ∧
      new = leased_record r (tr_attempts r + 1) (tr_lease_version r + 1) request
  | Op_Complete claim => ∃ r, old = Some r ∧ validate_remote_lease r claim = Ok tt ∧
      new = released_record r Status_Completed (tr_available_at_epoch_ms r)
  | Op_Fail claim retry_at dead_letter => ∃ r, old = Some r ∧ validate_remote_lease r claim = Ok tt ∧
      new = if dead_letter then released_record r Status_DeadLettered (tr_available_at_epoch_ms r)
            else released_record r Status_Ready retry_at
  end.

Section operations.
Context {D : Type} `{!Database D} `{!LawfulDatabase D}.
Context `{!Message RemoteTaskRecord} `{!LawfulMessage RemoteTaskRecord}.
Context (sha256 : string → ValueDigest).
Implicit Types (d : D) (records : gmap StorageKey string) (r : RemoteTaskRecord) (b : PreparedAtomicBatch).

Definition prepared_on d d' (op : remote_op) b : Prop :=
  match op with
  | Op_Enqueue task => prepare_remote_task_enqueue sha256 d task = Ok (Some b)
  | Op_Claim request => prepare_remote_task_claim sha256 d d' request = Ok (Some b)
  | Op_Complete claim => prepare_remote_task_complete sha256 d d' claim = Ok b
  | Op_Fail claim retry_at dead_letter =>
      prepare_remote_task_failure sha256 d d' claim retry_at dead_letter = Ok b
  end.

Lemma remote_get_Ok d family key value :
  remote_get d family key = Ok value → value = db_records d !! (family, key).
Proof using. unfold remote_get. intros (u & _ & H%map_err_Ok)%bind_Ok. by apply db_get_law in H. Qed.

Lemma decode_record_Ok bytes r :
  decode_remote_task_record bytes = Ok r → decode_message bytes = Ok r.
Proof using.
  unfold decode_remote_task_record. intros (r' & H%map_err_Ok & Hrest)%bind_Ok. inv_res Hrest. congruence.
Qed.
Lemma digest_current records family key value :
  condition_holds sha256 records (digest_precondition sha256 family key value) →
  ∃ y, records !! (family, key) = Some y ∧ sha256 y = sha256 value.
Proof using.
  unfold condition_holds, digest_precondition, satisfied. cbn [pre_expected pre_storage_key].
  destruct (records !! _) as [y|]; [|done]. intros Heq%bool_decide_eq_true. by exists y.
Qed.
Lemma missing_current records family key :
  condition_holds sha256 records (missing_precondition family key) → records !! (family, key) = None.
Proof using.
  unfold condition_holds, missing_precondition, satisfied. cbn [pre_expected pre_storage_key].
  by destruct (records !! _).
Qed.

(** ** What a prepared batch looks like *)
Definition put_task sk r : Mutation := Put (REMOTE_TASKS_CF, sk) (encode_message r).

Lemma enqueue_Ok d task b :
  prepare_remote_task_enqueue sha256 d task = Ok (Some b) →
  let sk := remote_task_storage_key (rt_tenant_id task) (rt_task_id task) in
  validate_remote_task task = Ok tt ∧ missing_precondition REMOTE_TASKS_CF sk ∈ pb_preconditions b ∧
  pb_idempotency_scope b = remote_operation_scope "enqueue" sk 0 ∧
  pb_mutations b = put_task sk (remote_task_record task) ::
    index_mutations REMOTE_TASK_READY_INDEX_CF None
      (Some (remote_task_due_index_key (rt_activated_at_epoch_ms task) sk)) ++
    index_mutations REMOTE_TASK_LEASE_INDEX_CF None None.
Proof using.
  unfold prepare_remote_task_enqueue. intros ([] & Hval & Hrun)%bind_Ok. cbv zeta in Hrun.
  apply bind_Ok in Hrun as ([bytes|] & _ & Hrun).
  { apply bind_Ok in Hrun as (? & _ & Hrun). apply bind_Ok in Hrun as (? & _ & Hrun). by case_match. }
  injection Hrun as <-. split; [exact Hval|]. split; [by left|]. split; reflexivity.
Qed.

Lemma claim_Ok d d' request b :
  prepare_remote_task_claim sha256 d d' request = Ok (Some b) →
  let sk := remote_task_storage_key (cm_tenant_id request) (cm_task_id request) in
  ∃ bytes r, validate_remote_claim_request request = Ok tt ∧
    db_records d !! (REMOTE_TASKS_CF, sk) = Some bytes ∧ decode_remote_task_record bytes = Ok r ∧
    tr_status r = status_number Status_Ready ∧ (tr_available_at_epoch_ms r ≤ cm_now_epoch_ms request)%N ∧
    (tr_lease_version r + 1 ≤ u64_max)%N ∧
    digest_precondition sha256 REMOTE_TASKS_CF sk bytes ∈ pb_preconditions b ∧
    pb_command_id b = cm_assignment_id request ∧
    pb_idempotency_scope b = remote_operation_scope "claim" sk (tr_lease_version r + 1) ∧
    pb_mutations b = put_task sk (leased_record r (tr_attempts r + 1) (tr_lease_version r + 1) request) ::
      index_mutations REMOTE_TASK_READY_INDEX_CF
        (Some (remote_task_due_index_key (tr_available_at_epoch_ms r) sk)) None ++
      index_mutations REMOTE_TASK_LEASE_INDEX_CF None
        (Some (remote_task_due_index_key (cm_lease_until_epoch_ms request) sk)).
Proof using LawfulDatabase0.
  unfold prepare_remote_task_claim. intros ([] & Hval & Hrun)%bind_Ok. cbv zeta in Hrun.
  apply bind_Ok in Hrun as ([bytes|] & Hget%remote_get_Ok & Hrun); [|done].
  apply bind_Ok in Hrun as (r & Hdec & Hrun). apply bind_Ok in Hrun as (s & [Hs _]%remote_status_Ok & Hrun).
  destruct (_ || _) eqn:Hguard; [done|]. apply orb_false_iff in Hguard as [Hready Havail].
  apply bool_decide_eq_false, dec_stable in Hready as ->.
  do 2 (apply bind_Ok in Hrun as (? & _ & Hrun)).
  apply bind_Ok in Hrun as (attempts & [-> _]%ok_or_Ok%checked_add_Some & Hrun).
  apply bind_Ok in Hrun as (version & [-> Hv]%ok_or_Ok%checked_add_Some & Hrun). injection Hrun as <-.
  exists bytes, r. split; [exact Hval|]. split; [by symmetry|]. split; [exact Hdec|]. split; [exact Hs|].
  split; [lia|]. split; [exact Hv|]. split; [by left|]. split_and!; reflexivity.
Qed.

Lemma terminal_Ok d d' claim retry_at dead_letter b :
  prepare_remote_task_terminal_mutation sha256 d d' claim retry_at dead_letter = Ok b →
  let sk := claim_key claim in
  ∃ bytes r, db_records d !! (REMOTE_TASKS_CF, sk) = Some bytes ∧ decode_remote_task_record bytes = Ok r ∧
    validate_remote_lease r claim = Ok tt ∧
    digest_precondition sha256 REMOTE_TASKS_CF sk bytes ∈ pb_preconditions b ∧
    let '(operation, status, available_at) := terminal_operation r retry_at dead_letter in
    pb_idempotency_scope b = remote_operation_scope operation sk (cl_lease_version claim) ∧
    pb_mutations b = put_task sk (released_record r status available_at) ::
      index_mutations REMOTE_TASK_LEASE_INDEX_CF
        (Some (remote_task_due_index_key (tr_lease_until_epoch_ms r) sk)) None ++
      index_mutations REMOTE_TASK_READY_INDEX_CF None
        (if decide (status = Status_Ready) then Some (remote_task_due_index_key available_at sk) else None).
Proof using LawfulDatabase0.
  unfold prepare_remote_task_terminal_mutation. intros Hrun. cbv zeta in Hrun.
  apply bind_Ok in Hrun as (stored & Hget%remote_get_Ok & Hrun).
  apply bind_Ok in Hrun as (bytes & ->%ok_or_Ok & Hrun). apply bind_Ok in Hrun as (r & Hdec & Hrun).
  apply bind_Ok in Hrun as ([] & Hlease & Hrun). do 2 (apply bind_Ok in Hrun as (? & _ & Hrun)).
  exists bytes, r. destruct (terminal_operation r retry_at dead_letter) as [[operation status] available_at].
  injection Hrun as <-. split; [by symmetry|]. split; [exact Hdec|]. split; [exact Hlease|]. split; [by left|].
  split; [reflexivity|]. by destruct status.
Qed.

(** The record a batch was prepared from is the one it finds. *)
Lemma current_record d records sk bytes r :
  queue_ok records → db_records d !! (REMOTE_TASKS_CF, sk) = Some bytes →
  decode_remote_task_record bytes = Ok r →
  (∀ x y, db_records d !! (REMOTE_TASKS_CF, sk) = Some x → records !! (REMOTE_TASKS_CF, sk) = Some y →
     sha256 y = sha256 x → y = x) →
  condition_holds sha256 records (digest_precondition sha256 REMOTE_TASKS_CF sk bytes) →
  task_now records sk (Some r) ∧ stored_ok sk r.
Proof using LawfulMessage0.
  intros Hq Hd Hdec%decode_record_Ok Hsha (y & Hy & Heq)%digest_current.
  rewrite (Hsha _ _ Hd Hy Heq) in Hy. destruct (qo_record _ Hq _ _ Hy) as (r' & -> & Hok).
  rewrite decode_encode in Hdec. injection Hdec as ->. done.
Qed.

Lemma validate_lease_leased r claim :
  validate_remote_lease r claim = Ok tt →
  tr_status r = status_number Status_Leased ∧ tr_lease_version r = cl_lease_version claim.
Proof using.
  unfold validate_remote_lease. intros (s & [Hs _]%remote_status_Ok & H%bail_if_Ok)%bind_Ok.
  rewrite !orb_false_iff, !bool_decide_eq_false, !negb_false_iff, !N.eqb_eq in H.
  destruct H as (((((((((H1 & _) & _) & _) & _) & _) & _) & H2) & _) & _). apply dec_stable in H1 as ->. done.
Qed.

(** ** The records the operations write *)
Lemma enqueued_ok (task : RemoteTask) :
  task_ok task → validate_remote_task task = Ok tt →
  stored_ok (remote_task_storage_key (rt_tenant_id task) (rt_task_id task)) (remote_task_record task).
Proof using.
  intros [] Hval%bail_if_Ok. rewrite !orb_false_iff in Hval. destruct Hval as ((((H1 & H2) & H3) & _) & _).
  apply bool_decide_eq_false, dec_stable in H3.
  split; [done|done|by eexists| |done|by vm_compute|done].
  exists task. unfold remote_task_from_record, non_empty_remote, remote_identifier. destruct task; simpl in *.
  subst. by rewrite H1, H2, tk_tenant0, tk_instance0, tk_type0, tk_version0, tk_node0, tk_correlation0,
    tk_config0, tk_policy0.
Qed.
Lemma leased_ok sk r (request : RemoteTaskClaimRequest) :
  stored_ok sk r → validate_remote_claim_request request = Ok tt →
  (cm_lease_until_epoch_ms request ≤ u64_max)%N →
  stored_ok sk (leased_record r (tr_attempts r + 1) (tr_lease_version r + 1) request).
Proof using.
  intros [] Hval%bail_if_Ok Hbound. rewrite !orb_false_iff in Hval.
  destruct Hval as ((((((_ & H1) & H2) & H3) & H4) & H5) & H6).
  split; [done|done|by eexists|done|done|done|]. intros _. destruct so_task0 as (task & Htask).
  assert (remote_task_from_record (leased_record r (tr_attempts r + 1) (tr_lease_version r + 1) request) =
    Ok task) as Hleased by exact Htask.
  unfold remote_claim_from_record. rewrite Hleased.
  rewrite (proj2 (remote_status_Ok _ Status_Leased)) by done. cbn [mbind res_bind leased_record tr_assignment_id
    tr_worker_id tr_session_id tr_attempts tr_lease_version tr_lease_until_epoch_ms tr_assignment_token_digest].
  rewrite H1, H2, H3, H6, bool_decide_false by (by intros []).
  replace (tr_attempts r + 1 =? 0)%N with false by lia.
  replace (tr_lease_version r + 1 =? 0)%N with false by lia.
  replace (cm_lease_until_epoch_ms request =? 0)%N with false by lia. by eexists.
Qed.
Lemma released_ok sk r s available :
  stored_ok sk r → (available ≤ u64_max)%N → s ≠ Status_Unspecified → s ≠ Status_Leased →
  stored_ok sk (released_record r s available).
Proof using.
  intros [] Hbound Hs Hl. split; [done|done| |done|done|by vm_compute|].
  - exists s. by apply remote_status_Ok.
  - by destruct s.
Qed.

(** ** A batch that is applied carries out its operation *)
Abbreviation no_collision d records sk :=
  (∀ x y, db_records d !! (REMOTE_TASKS_CF, sk) = Some x → records !! (REMOTE_TASKS_CF, sk) = Some y →
     sha256 y = sha256 x → y = x).
Definition carries_out (op : remote_op) records records' : Prop :=
  ∃ old new, op_step op old new ∧ task_now records (op_key op) old ∧ stored_ok (op_key op) new ∧
    task_changes records records' (op_key op) old new.

Lemma enqueue_change d task b records :
  prepare_remote_task_enqueue sha256 d task = Ok (Some b) → task_ok task →
  (∀ c, c ∈ pb_preconditions b → condition_holds sha256 records c) →
  carries_out (Op_Enqueue task) records (foldl apply_mutation_record records (pb_mutations b)).
Proof using.
  intros (Hval & Hin & _ & ->)%enqueue_Ok Htask Hpre. exists None, (remote_task_record task). split; [done|].
  split; [by apply missing_current, Hpre|]. split; [by apply enqueued_ok|]. apply mutations_change. by left.
Qed.

Lemma claim_change d d' request b records :
  prepare_remote_task_claim sha256 d d' request = Ok (Some b) →
  (cm_lease_until_epoch_ms request ≤ u64_max)%N → queue_ok records →
  no_collision d records (op_key (Op_Claim request)) →
  (∀ c, c ∈ pb_preconditions b → condition_holds sha256 records c) →
  carries_out (Op_Claim request) records (foldl apply_mutation_record records (pb_mutations b)).
Proof using LawfulDatabase0 LawfulMessage0.
  intros (bytes & r & Hval & Hd & Hdec & Hs & Hav & _ & Hin & _ & _ & ->)%claim_Ok Hbound Hq Hsha Hpre.
  destruct (current_record d records _ bytes r Hq Hd Hdec Hsha) as [Hnow Hok]; [by apply Hpre|].
  eexists (Some r), _. split; [by exists r|]. split; [done|]. split; [by apply leased_ok|].
  apply mutations_change. left. cbn [mbind option_bind]. unfold ready_key, lease_key. by rewrite Hs.
Qed.

Lemma release_change d d' claim retry_at dead_letter b records :
  prepare_remote_task_terminal_mutation sha256 d d' claim retry_at dead_letter = Ok b →
  queue_ok records → no_collision d records (claim_key claim) →
  (∀ c, c ∈ pb_preconditions b → condition_holds sha256 records c) →
  ∃ r, task_now records (claim_key claim) (Some r) ∧ stored_ok (claim_key claim) r ∧
    validate_remote_lease r claim = Ok tt ∧
    let '(_, status, available_at) := terminal_operation r retry_at dead_letter in
    task_changes records (foldl apply_mutation_record records (pb_mutations b)) (claim_key claim) (Some r)
      (released_record r status available_at).
Proof using LawfulDatabase0 LawfulMessage0.
  intros (bytes & r & Hd & Hdec & Hlease & Hin & Hb)%terminal_Ok Hq Hsha Hpre. exists r.
  destruct (current_record d records _ bytes r Hq Hd Hdec Hsha) as [Hnow Hok]; [by apply Hpre|].
  split_and!; [done..|]. destruct (terminal_operation r retry_at dead_letter) as [[operation status] available_at] eqn:Hop.
  destruct Hb as [_ ->]. apply mutations_change. right. cbn [mbind option_bind]. unfold ready_key, lease_key.
  destruct (validate_lease_leased _ _ Hlease) as [-> _].
  unfold terminal_operation in Hop. destruct retry_at; [|destruct dead_letter]; by injection Hop as <- <- <-.
Qed.

Lemma prepared_change d d' op b records :
  prepared_on d d' op b → op_ok op → queue_ok records → no_collision d records (op_key op) →
  (∀ c, c ∈ pb_preconditions b → condition_holds sha256 records c) →
  carries_out op records (foldl apply_mutation_record records (pb_mutations b)).
Proof using LawfulDatabase0 LawfulMessage0.
  intros Hprep Hop Hq Hsha Hpre. destruct op as [task|request|claim|claim retry_at dead_letter]; simpl in Hprep, Hop.
  - by eapply enqueue_change.
  - by eapply claim_change.
  - unfold prepare_remote_task_complete in Hprep.
    destruct (release_change _ _ _ _ _ _ _ Hprep Hq Hsha Hpre) as (r & Hnow & Hok & Hlease & Hc).
    eexists (Some r), _. split; [by exists r|]. split; [done|split; [|exact Hc]]. apply released_ok; [done|apply Hok|done..].
  - unfold prepare_remote_task_failure in Hprep. apply bind_Ok in Hprep as (_ & _ & Hprep).
    destruct (release_change _ _ _ _ _ _ _ Hprep Hq Hsha Hpre) as (r & Hnow & Hok & Hlease & Hc).
    destruct dead_letter; eexists (Some r), _; (split; [by exists r|]); (split; [done|split; [|exact Hc]]);
      (apply released_ok; [done| |done..]); [apply Hok|apply Hop].
Qed.
End operations.
