(* ===== verification/RemoteListing.v ===== *)
(** * Listing remote tasks

    [ready_remote_tasks] and [expired_remote_task_claims] read an index and look
    up each task it names: on a queue whose indexes are exact, they list the tasks
    that are due, in the order of their times, and never run into a missing or
    disagreeing record. *)

From Stdlib Require Import Ascii.
From S2P Require Import Prelude Effects Bytes RaftBatch StorageKeys Database.
From S2P Require Import Types Ports RocksRaft PayloadCrypto RocksStore RaftStore TaskTypes RemoteTasks.
From S2P Require Import RemoteProofs.
From stdpp Require Import options.

(** ** The order of an index *)
Lemma compare_app_length p q s t :
  String.length p = String.length q →
  String.compare (p +:+ s) (q +:+ t) =
  match String.compare p q with Eq => String.compare s t | c => c end.
Proof.
  revert q. induction p as [|a p IH]; intros [|b q] Hlen; [done..|].
  change (String a p +:+ s) with (String a (p +:+ s)). change (String b q +:+ t) with (String b (q +:+ t)).
  simpl. destruct (Ascii.compare a b); [|done..]. apply IH. by injection Hlen.
Qed.
Lemma due_index_key_le due due' sk sk' :
  (due ≤ u64_max)%N → (due' ≤ u64_max)%N →
  String.le (remote_task_due_index_key due sk) (remote_task_due_index_key due' sk') → (due ≤ due')%N.
Proof.
  intros Hd Hd'. unfold remote_task_due_index_key, String.le, String.leb.
  rewrite compare_app_length by (by rewrite !length_be_bytes).
  rewrite compare_be_bytes by (change (256 ^ N.of_nat 8)%N with (u64_max + 1)%N; lia).
  unfold N.le. by destruct (due ?= due')%N.
Qed.

Section listing.
Context {D : Type} `{!Database D} `{!LawfulDatabase D}.
Context `{!Message RemoteTaskRecord} `{!LawfulMessage RemoteTaskRecord}.
Context {A : Type} (status : RemoteTaskRecordStatus) (due_of : RemoteTaskRecord → N)
  (convert : RemoteTaskRecord → res RemoteTaskError A) (missing disagree family : string).
Context (d : D).
Hypothesis Hstatus : status ≠ Status_Unspecified.
Implicit Types (r : RemoteTaskRecord) (entry : N * string * RemoteTaskRecord).
Abbreviation items := (index_items status due_of convert missing disagree (λ _, d)).

(** An entry of the index: the due time, the key of the task and its record. *)
Definition entry_ok entry : Prop :=
  let '(due, sk, r) := entry in
  task_at (db_records d) sk r ∧ tr_storage_schema_version r = STORAGE_SCHEMA_VERSION ∧
  tr_status r = status_number status ∧ due_of r = due ∧
  (due ≤ u64_max)%N ∧ sk ≠ "" ∧ ∃ a, convert r = Ok a.
Definition entry_item entry : string * string := (remote_task_due_index_key entry.1.1 entry.1.2, "").
Definition due_by (now : N) entry : bool := (entry.1.1 <=? now)%N.

(** The database answers. *)
Record available : Prop := {
  av_family name : db_has_family d name = true;
  av_get key : is_ok (db_get d key) = true;
  av_iterator name from : Forall (λ item, is_ok item = true) (db_iterator d name from) }.

Lemma decode_stored r :
  tr_storage_schema_version r = STORAGE_SCHEMA_VERSION → tr_status r = status_number status →
  decode_remote_task_record (encode_message r) = Ok r.
Proof using Hstatus LawfulMessage0.
  intros Hv Hs. unfold decode_remote_task_record. rewrite decode_encode. cbn [map_err mbind res_bind].
  rewrite Hv. by rewrite (proj2 (remote_status_Ok r status)).
Qed.

(** One step of the loop on an entry that is due. *)
Lemma index_items_step now limit entry rest found a :
  entry_ok entry → convert entry.2 = Ok a → length found ≠ limit → due_by now entry = true →
  items now limit (Ok (entry_item entry) :: rest) found =
  (stored ← remote_get d REMOTE_TASKS_CF entry.1.2;
   ok_or stored (Remote_Store missing);;
   items now limit rest (found ++ [a])).
Proof using Hstatus LawfulDatabase0 LawfulMessage0.
  destruct entry as [[due sk] r]. intros (Hr & Hv & Hs & Hdue & Hbound & Hsk & _) Ha Hlen Hnow.
  cbn [index_items entry_item map_err mbind res_bind fst snd]. rewrite (proj2 (Nat.eqb_neq _ _) Hlen).
  rewrite split_due_index_key by done. cbn [mbind res_bind]. unfold due_by in Hnow. simpl in Hnow.
  replace (now <? due)%N with false by lia.
  destruct (remote_get d REMOTE_TASKS_CF sk) as [stored| |] eqn:Hget; [|done..].
  apply remote_get_Ok in Hget as ->. rewrite Hr. cbn [mbind res_bind ok_or].
  rewrite decode_stored by done. cbn [mbind res_bind].
  rewrite (proj2 (remote_status_Ok r status)) by done. cbn [mbind res_bind].
  rewrite bool_decide_false, Hdue, N.eqb_refl by (by intros []). cbn [orb negb bail_if mbind res_bind].
  simpl in Ha. by rewrite Ha.
Qed.
Lemma index_items_late now limit entry rest found :
  entry_ok entry → due_by now entry = false → items now limit (Ok (entry_item entry) :: rest) found = Ok found.
Proof using.
  destruct entry as [[due sk] r]. intros (_ & _ & _ & _ & Hbound & Hsk & _) Hnow.
  cbn [index_items entry_item map_err mbind res_bind fst snd]. destruct (_ =? _); [done|].
  rewrite split_due_index_key by done. cbn [mbind res_bind]. unfold due_by in Hnow. simpl in Hnow.
  by replace (now <? due)%N with true by lia.
Qed.
Lemma index_items_full now limit rest found : length found = limit → items now limit rest found = Ok found.
Proof using. intros <-. destruct rest; [done|]. simpl. by rewrite Nat.eqb_refl. Qed.

Lemma filter_late now entry entries :
  StronglySorted (λ x y, (x.1.1 ≤ y.1.1)%N) (entry :: entries) → due_by now entry = false →
  List.filter (due_by now) (entry :: entries) = [].
Proof using.
  intros [_ Hall]%StronglySorted_inv Hnow. apply filter_none. rewrite Forall_forall in Hall.
  intros x [->|Hx]%elem_of_cons; [done|]. specialize (Hall _ Hx). unfold due_by in *. simpl in *. lia.
Qed.

Lemma index_items_Ok now limit entries found its out :
  Forall entry_ok entries → StronglySorted (λ x y, (x.1.1 ≤ y.1.1)%N) entries →
  iterates its (entry_item <$> entries) → length found ≤ limit →
  items now limit its found = Ok out →
  ∃ more, out = found ++ more ∧
    Forall2 (λ entry a, convert entry.2 = Ok a) (take (limit - length found) (List.filter (due_by now) entries)) more.
Proof using Hstatus LawfulDatabase0 LawfulMessage0.
  revert found its. induction entries as [|entry entries IH]; intros found its Hall Hsorted Hits Hlen Hrun.
  all: destruct (decide (length found = limit)) as [Hfull|Hroom];
    [rewrite index_items_full in Hrun by done; injection Hrun as <-; exists []; rewrite app_nil_r;
     split; [done|]; rewrite Hfull, Nat.sub_diag; constructor|].
  - apply iterates_nil in Hits as [->|(item & rest & Hitem & ->)].
    + injection Hrun as <-. exists []. rewrite app_nil_r. split; [done|]. simpl. rewrite take_nil. constructor.
    + simpl in Hrun. rewrite (proj2 (Nat.eqb_neq _ _) Hroom) in Hrun. by destruct item.
  - apply iterates_cons in Hits as [(item & rest & Hitem & ->)|(its' & -> & Hits)].
    { simpl in Hrun. rewrite (proj2 (Nat.eqb_neq _ _) Hroom) in Hrun. by destruct item. }
    pose proof Hall as [Hentry Hentries]%Forall_cons. destruct (due_by now entry) eqn:Hnow.
    2:{ rewrite index_items_late in Hrun by done. injection Hrun as <-. exists [].
        rewrite app_nil_r, filter_late, take_nil by done. done. }
    assert (∃ a, convert entry.2 = Ok a) as [a Ha] by (destruct entry as [[??]?]; apply Hentry).
    rewrite (index_items_step _ _ _ _ _ a) in Hrun by done.
    apply bind_Ok in Hrun as (stored & _ & Hrun). apply bind_Ok in Hrun as (? & _ & Hrun).
    destruct (IH (found ++ [a]) its') as (more & -> & Hmore); [done|by apply StronglySorted_inv in Hsorted as []|done|rewrite length_app; simpl; lia|done|].
    exists (a :: more). split; [by rewrite <-(assoc_L (++))|]. simpl. rewrite Hnow.
    rewrite length_app in Hmore. simpl in Hmore.
    replace (limit - length found) with (S (limit - (length found + 1))) by lia. by constructor.
Qed.

(** If the database answers, so does the listing. *)
Lemma index_items_available now limit entries found :
  available → Forall entry_ok entries → ∃ out, items now limit (Ok ∘ entry_item <$> entries) found = Ok out.
Proof using Hstatus LawfulDatabase0 LawfulMessage0.
  intros Hav. revert found. induction entries as [|entry entries IH]; intros found Hall; [by eexists|].
  apply Forall_cons in Hall as [Hentry Hall]. rewrite fmap_cons.
  destruct (decide (length found = limit)) as [Hfull|Hroom]; [by rewrite index_items_full; eauto|].
  destruct (due_by now entry) eqn:Hnow; [|simpl compose; rewrite index_items_late by done; eauto].
  assert (∃ a, convert entry.2 = Ok a) as [a Ha] by (destruct entry as [[??]?]; apply Hentry).
  simpl compose. rewrite (index_items_step _ _ _ _ _ a) by done.
  destruct (IH (found ++ [a]) Hall) as [out Hout]. exists out. destruct entry as [[due sk] r].
  destruct (remote_get d REMOTE_TASKS_CF sk) as [stored|error|message] eqn:Hget.
  - cbn [fst snd]. rewrite Hget. apply remote_get_Ok in Hget as ->.
    destruct Hentry as (Hr & _). rewrite Hr. exact Hout.
  - exfalso. revert Hget. unfold remote_get, remote_named_cf. rewrite (av_family Hav). simpl.
    pose proof (av_get Hav (REMOTE_TASKS_CF, sk)). by destruct (db_get _ _).
  - exfalso. revert Hget. unfold remote_get, remote_named_cf. rewrite (av_family Hav). simpl.
    pose proof (av_get Hav (REMOTE_TASKS_CF, sk)). by destruct (db_get _ _).
Qed.
End listing.

(** ** Listings of a queue *)
Lemma Forall_preimage {A B} (f : A → B) (P : A → Prop) l :
  Forall (λ y, ∃ x, y = f x ∧ P x) l → ∃ xs, l = f <$> xs ∧ Forall P xs.
Proof.
  induction 1 as [|y l (x & -> & Hx) _ (xs & -> & Hxs)]; [by exists []|]. exists (x :: xs). by split; [|constructor].
Qed.

Section queue.
Context {D : Type} `{!Database D} `{!LawfulDatabase D}.
Context `{!Message RemoteTaskRecord} `{!LawfulMessage RemoteTaskRecord}.
Implicit Types (r : RemoteTaskRecord) (entry : N * string * RemoteTaskRecord) (d : D).

(** The tasks with [status] whose time has come, in the order of their times;
    [out] is what [convert] makes of the first [limit]. *)
Definition lists_due {A : Type} (records : gmap StorageKey string) (status : RemoteTaskRecordStatus)
    (due_of : RemoteTaskRecord → N) (convert : RemoteTaskRecord → res RemoteTaskError A) (now : N)
    (limit : nat) (out : list A) : Prop :=
  ∃ entries : list (N * string * RemoteTaskRecord),
    StronglySorted (λ x y, (x.1.1 ≤ y.1.1)%N) entries ∧ NoDup entries ∧
    (∀ due sk r, (due, sk, r) ∈ entries ↔
       task_at records sk r ∧ tr_status r = status_number status ∧ due_of r = due ∧ (due ≤ now)%N) ∧
    Forall2 (λ entry a, convert entry.2 = Ok a) (take limit entries) out.

Section one.
Context {A : Type} (status : RemoteTaskRecordStatus) (due_of : RemoteTaskRecord → N)
  (convert : RemoteTaskRecord → res RemoteTaskError A) (missing disagree family : string) (d : D).
Hypothesis Hstatus : status ≠ Status_Unspecified.
Hypothesis Hbound : ∀ sk r, stored_ok sk r → (due_of r ≤ u64_max)%N.
Hypothesis Hconvert : ∀ sk r, stored_ok sk r → tr_status r = status_number status → ∃ a, convert r = Ok a.
Definition index_key r sk : option string :=
  if decide (tr_status r = status_number status) then Some (remote_task_due_index_key (due_of r) sk) else None.
Hypothesis Hqueue : queue_ok (db_records d).
Hypothesis Hindex : indexes (db_records d) family index_key.
Abbreviation entry_ok := (entry_ok status due_of convert d).

Lemma task_entry_ok sk r :
  task_at (db_records d) sk r → tr_status r = status_number status → entry_ok (due_of r, sk, r).
Proof using Hbound Hconvert Hqueue LawfulMessage0.
  intros Hr Hs. pose proof (task_at_ok _ _ _ Hqueue Hr) as Hok.
  split_and!; [done|apply Hok|done|done|by eapply Hbound|rewrite (so_key _ _ Hok); apply storage_key_not_empty|
    by eapply Hconvert].
Qed.

Lemma index_entries : ∃ entries,
  scan (db_records d) family "" = entry_item <$> entries ∧ Forall entry_ok entries ∧
  StronglySorted (λ x y, (x.1.1 ≤ y.1.1)%N) entries ∧ NoDup entries ∧
  ∀ due sk r, (due, sk, r) ∈ entries ↔
    task_at (db_records d) sk r ∧ tr_status r = status_number status ∧ due_of r = due.
Proof using Hbound Hconvert Hqueue Hindex LawfulMessage0.
  destruct (Forall_preimage entry_item entry_ok (scan (db_records d) family "")) as (entries & Hscan & Hall).
  { apply Forall_forall. intros [k v] [_ (-> & sk & r & Hr & Hk)%Hindex]%elem_of_scan.
    unfold index_key in Hk. case_decide; [|done]. injection Hk as <-. exists (due_of r, sk, r). split; [done|].
    by apply task_entry_ok. }
  pose proof (scan_sorted (db_records d) family "") as Hsorted.
  pose proof (NoDup_scan (db_records d) family "") as Hnd. exists entries. rewrite Hscan in Hsorted, Hnd.
  split_and!; [done|done| | |].
  - clear Hscan Hnd. revert Hall Hsorted. induction entries as [|[[due sk] r] entries IH]; intros Hall Hsorted; [constructor|].
    apply Forall_cons in Hall as [(_ & _ & _ & _ & Hd & _) Hall]. apply StronglySorted_inv in Hsorted as [Hs Hle].
    constructor; [by apply IH|]. pose proof (proj1 (Forall_fmap entry_item (key_le (entry_item (due, sk, r))) entries) Hle) as Hle'.
    rewrite Forall_forall in Hle', Hall |- *.
    intros [[due' sk'] r'] Hin. destruct (Hall _ Hin) as (_ & _ & _ & _ & Hd' & _).
    exact (due_index_key_le _ _ _ _ Hd Hd' (Hle' _ Hin)).
  - rewrite <-list_fmap_compose in Hnd. by apply NoDup_fmap_1 in Hnd.
  - intros due sk r. split.
    + intros Hin. rewrite Forall_forall in Hall. destruct (Hall _ Hin) as (? & _ & ? & ? & _). done.
    + intros (Hr & Hs & Hdue). pose proof (task_entry_ok _ _ Hr Hs) as (_ & _ & _ & _ & Hd & _).
      assert ((remote_task_due_index_key (due_of r) sk, "") ∈ scan (db_records d) family "") as Hin.
      { apply elem_of_scan. split; [apply le_empty|]. apply Hindex. split; [done|]. exists sk, r. split; [done|].
        unfold index_key. by rewrite decide_True. }
      rewrite Hscan in Hin. apply list_elem_of_fmap in Hin as ([[due' sk'] r'] & Heq & Hin).
      rewrite Forall_forall in Hall. destruct (Hall _ Hin) as (Hr' & _ & _ & Hdue' & Hd' & _).
      apply (f_equal fst) in Heq. unfold entry_item in Heq. cbn [fst snd] in Heq.
      pose proof (due_index_key_due _ _ _ _ Hd Hd' Heq) as Ht. apply due_index_key_inj in Heq as ->.
      rewrite (task_at_inj _ _ _ _ Hr Hr'), <-Hdue, Ht. done.
Qed.

Lemma index_items_exact now limit out :
  index_items status due_of convert missing disagree (λ _, d) now limit (db_iterator d family "") [] = Ok out →
  lists_due (db_records d) status due_of convert now limit out.
Proof using Hstatus Hbound Hconvert Hqueue Hindex LawfulDatabase0 LawfulMessage0.
  intros Hrun. destruct index_entries as (entries & Hscan & Hall & Hsorted & Hnd & Hin).
  pose proof (db_iterator_law d family "") as Hits. rewrite Hscan in Hits.
  eapply index_items_Ok in Hrun as (more & -> & Hmore); [|done..|simpl; lia].
  exists (List.filter (due_by now) entries). split_and!.
  - by apply StronglySorted_filter_bool.
  - by apply NoDup_ListNoDup, List.NoDup_filter, NoDup_ListNoDup.
  - intros due sk r. rewrite list_elem_of_In, filter_In, <-list_elem_of_In, Hin. unfold due_by. simpl.
    rewrite N.leb_le. tauto.
  - simpl in Hmore. by rewrite Nat.sub_0_r in Hmore.
Qed.

Lemma index_items_answer now limit :
  available d →
  ∃ out, index_items status due_of convert missing disagree (λ _, d) now limit (db_iterator d family "") [] = Ok out.
Proof using Hstatus Hbound Hconvert Hqueue Hindex LawfulDatabase0 LawfulMessage0.
  intros Hav. destruct index_entries as (entries & Hscan & Hall & _).
  assert (db_iterator d family "" = Ok ∘ entry_item <$> entries) as ->.
  { pose proof (db_iterator_law d family "") as [->|(n & item & rest & Hitem & Heq)].
    - rewrite Hscan. by rewrite list_fmap_compose.
    - pose proof (av_iterator _ Hav family "") as Hok. rewrite Heq, Forall_app, Forall_cons in Hok.
      destruct Hok as (_ & Hok & _). congruence. }
  by apply index_items_available.
Qed.
End one.

Lemma ready_tasks_exact d now limit out :
  queue_ok (db_records d) → ready_remote_tasks d (λ _, d) now limit = Ok out →
  lists_due (db_records d) Status_Ready tr_available_at_epoch_ms remote_task_from_record now limit out.
Proof using LawfulDatabase0 LawfulMessage0.
  intros Hq (_ & _ & (_ & _ & Hrun)%bind_Ok)%bind_Ok.
  eapply index_items_exact in Hrun; [done|done| | |done|apply Hq].
  - intros sk r. apply so_available.
  - intros sk r Hok _. by apply so_task in Hok.
Qed.
Lemma expired_claims_exact d now limit out :
  queue_ok (db_records d) → expired_remote_task_claims d (λ _, d) now limit = Ok out →
  lists_due (db_records d) Status_Leased tr_lease_until_epoch_ms remote_claim_from_record now limit out.
Proof using LawfulDatabase0 LawfulMessage0.
  intros Hq (_ & _ & (_ & _ & Hrun)%bind_Ok)%bind_Ok.
  eapply index_items_exact in Hrun; [done|done| | |done|apply Hq].
  - intros sk r. apply so_lease_until.
  - intros sk r. apply so_claim.
Qed.
Lemma listings_answer d now limit :
  queue_ok (db_records d) → available d → limit ≠ 0 →
  (∃ out, ready_remote_tasks d (λ _, d) now limit = Ok out) ∧
  ∃ out, expired_remote_task_claims d (λ _, d) now limit = Ok out.
Proof using LawfulDatabase0 LawfulMessage0.
  intros Hq Hav Hlimit. unfold ready_remote_tasks, expired_remote_task_claims, remote_named_cf.
  rewrite (proj2 (Nat.eqb_neq _ _) Hlimit), !(av_family _ Hav). simpl. split.
  - eapply index_items_answer; [done| | |done|apply Hq|done]; [intros sk r; apply so_available|].
    intros sk r Hok _. by apply so_task in Hok.
  - eapply index_items_answer; [done| | |done|apply Hq|done]; [intros sk r; apply so_lease_until|].
    intros sk r. apply so_claim.
Qed.
End queue.
