(* ===== verification/RemoteLog.v ===== *)
(** * The remote task queue behind consensus

    The queue after each prefix of a committed log whose batches are prepared by
    the operations of [RemoteTasks] on any nodes, or touch other records: the
    invariant of the queue, and how the record of a task moves along the log. *)

From Stdlib Require Import Ascii.
From S2P Require Import Prelude Effects Bytes RaftBatch RaftMachine RaftCluster StorageKeys Database.
From S2P Require Import Types Ports RocksRaft PayloadCrypto RocksStore RaftStore TaskTypes RemoteTasks.
From S2P Require Import Text RemoteProofs.
From stdpp Require Import options.

(** ** Records over time *)
Definition final (r : RemoteTaskRecord) : Prop :=
  tr_status r = status_number Status_Completed ∨ tr_status r = status_number Status_DeadLettered.
(** [r'] can stand where [r] stood earlier. *)
Definition follows (r r' : RemoteTaskRecord) : Prop :=
  r' = r ∨
  (tr_lease_version r < tr_lease_version r')%N ∧ ¬ final r ∨
  tr_lease_version r = tr_lease_version r' ∧ tr_status r = status_number Status_Leased ∧
    tr_status r' ≠ status_number Status_Leased.
#[global] Instance follows_preorder : PreOrder follows.
Proof.
  split; [by left|].
  assert (∀ r, tr_status r = status_number Status_Leased → ¬ final r) as Hl by (intros r Hr [Hf|Hf]; by rewrite Hr in Hf).
  intros r1 r2 r3 [->|[[? ?]|(? & ? & ?)]] [->|[[? ?]|(? & ? & ?)]]; unfold follows; try tauto;
    right; left; (split; [lia|]); auto.
Qed.
Lemma op_step_follows op r new : op_step op (Some r) new → follows r new.
Proof.
  destruct op as [task|request|claim|claim retry_at dead_letter]; simpl.
  - by intros [].
  - intros (r' & [= <-] & Hs & _ & ->). right. left. split; [simpl; lia|]. by intros [Hf|Hf]; rewrite Hs in Hf.
  - intros (r' & [= <-] & [Hs _]%validate_lease_leased & ->). right. right. by split_and!.
  - intros (r' & [= <-] & [Hs _]%validate_lease_leased & ->). right. right. by destruct dead_letter; split_and!.
Qed.
(** A lease that is over stays over. *)
Lemma follows_over r r' :
  follows r r' → tr_status r ≠ status_number Status_Leased → tr_lease_version r' = tr_lease_version r →
  tr_status r' ≠ status_number Status_Leased.
Proof. intros [->|[[? _]|(_ & ? & _)]] Hs Hv; [done|lia|done]. Qed.
Lemma follows_final r r' : follows r r' → final r → r' = r.
Proof. intros [->|[[_ ?]|(_ & Hs & _)]] Hf; [done..|]. by destruct Hf as [Hf|Hf]; rewrite Hs in Hf. Qed.

(** ** Scopes *)
Definition op_name (op : remote_op) : string :=
  match op with
  | Op_Enqueue _ => "enqueue"
  | Op_Claim _ => "claim"
  | Op_Complete _ => "complete"
  | Op_Fail _ _ dead_letter => if dead_letter then "dead-letter" else "retry"
  end.
(** The claim an operation ends. *)
Definition ended_claim (op : remote_op) : option RemoteTaskClaim :=
  match op with Op_Complete claim | Op_Fail claim _ _ => Some claim | _ => None end.

Lemma ended_key op claim : ended_claim op = Some claim → op_key op = claim_key claim.
Proof. destruct op; simpl; try done; by intros [= ->]. Qed.

Lemma append_inj_r s1 s2 t1 t2 :
  String.length t1 = String.length t2 → s1 +:+ t1 = s2 +:+ t2 → s1 = s2 ∧ t1 = t2.
Proof.
  intros Hlen Heq. apply append_inj; [|done]. apply (f_equal String.length) in Heq.
  rewrite !length_append in Heq. lia.
Qed.
(** Operations with the same scope are of the same kind, on the same task and
    lease. *)
Lemma remote_scope_inj op op' sk sk' g g' :
  (g ≤ u64_max)%N → (g' ≤ u64_max)%N →
  remote_operation_scope (op_name op) sk g = remote_operation_scope (op_name op') sk' g' →
  op_name op = op_name op' ∧ sk = sk' ∧ g = g'.
Proof.
  intros Hg Hg'. unfold remote_operation_scope. intros [_ Heq]%append_inj; [|done].
  apply append_inj in Heq as [_ Heq]; [|done].
  assert (∀ o, contains zero (op_name o) = false) as Hname by (by intros [| | |??[]]).
  apply first_separator in Heq as [Hop Heq]; [|apply Hname..]. split; [done|].
  apply append_inj_r in Heq as [-> Heq]; [|by rewrite !length_be_bytes].
  split; [done|]. by apply be_bytes_8_inj in Heq.
Qed.

(** A prepared batch writes to the queue only, under the scope of its operation. *)
Lemma prepared_Ok {D} `{!Database D} `{!LawfulDatabase D} `{!Message RemoteTaskRecord} sha256 (d d' : D) op b :
  prepared_on sha256 d d' op b → op_ok op →
  (∀ m, m ∈ pb_mutations b → (mutation_key m).1 ∈ remote_families) ∧
  ∃ g, pb_idempotency_scope b = remote_operation_scope (op_name op) (op_key op) g ∧ (g ≤ u64_max)%N ∧
    ∀ claim, ended_claim op = Some claim → g = cl_lease_version claim.
Proof.
  assert (∀ sk r f1 f2 o1 o2 n1 n2, f1 ∈ remote_families → f2 ∈ remote_families →
    ∀ m, m ∈ put_task sk r :: index_mutations f1 o1 n1 ++ index_mutations f2 o2 n2 →
      (mutation_key m).1 ∈ remote_families) as Hmut.
  { intros sk r f1 f2 o1 o2 n1 n2 H1 H2. apply Forall_forall, Forall_cons. split; [by left|].
    apply Forall_app. split; [destruct o1, n1|destruct o2, n2]; cbn [index_mutations app];
      repeat (apply Forall_cons; split; [done|]); apply Forall_nil; exact Logic.I. }
  assert (∀ family, family ∈ [REMOTE_TASK_READY_INDEX_CF; REMOTE_TASK_LEASE_INDEX_CF] → family ∈ remote_families)
    as Hfam by (unfold remote_families; set_solver).
  destruct op as [task|request|claim|claim retry_at dead_letter]; simpl; intros Hprep Hok.
  - apply enqueue_Ok in Hprep as (_ & _ & -> & ->). split; [apply Hmut; apply Hfam; set_solver|]. by exists 0%N.
  - apply claim_Ok in Hprep as (bytes & r & _ & _ & _ & _ & _ & Hv & _ & _ & -> & ->).
    split; [apply Hmut; apply Hfam; set_solver|]. by eexists.
  - unfold prepare_remote_task_complete in Hprep. apply terminal_Ok in Hprep as (bytes & r & _ & _ & _ & _ & -> & ->).
    split; [apply Hmut; apply Hfam; set_solver|]. eexists. split; [done|]. naive_solver.
  - unfold prepare_remote_task_failure in Hprep. apply bind_Ok in Hprep as (_ & _ & Hprep).
    apply terminal_Ok in Hprep as (bytes & r & _ & _ & _ & _ & Hb).
    destruct dead_letter; destruct Hb as [-> ->]; (split; [apply Hmut; apply Hfam; set_solver|]);
      (eexists; split; [done|]; naive_solver).
Qed.

Section log.
Context `{RaftTypes} {D : Type} `{!Database D} `{!LawfulDatabase D}.
Context `{!Message RemoteTaskRecord} `{!LawfulMessage RemoteTaskRecord}.
Context (sha256 : string → ValueDigest) (batch_json : PreparedAtomicBatch → option string).
Context (limits : StateMachineLimits) (log : list Entry).
Abbreviation log_state := (log_state (sha256:=sha256) (batch_json:=batch_json) limits).
Abbreviation log_response := (log_response (sha256:=sha256) (batch_json:=batch_json) limits log).
Implicit Types (d : D) (op : remote_op) (b : PreparedAtomicBatch) (e : Entry) (r : RemoteTaskRecord).

(** The replicated records after the first [k] entries. *)
Definition records_at (k : nat) : gmap StorageKey string := im_records (log_state (take k log)).
(** A database that is at position [k], as far as the queue is concerned. *)
Definition at_position (k : nat) d : Prop :=
  ∀ key, key.1 ∈ remote_families → db_records d !! key = records_at k !! key.
(** An operation prepared on a node. *)
Definition prepared op b : Prop :=
  ∃ j d d', at_position j d ∧ op_ok op ∧ prepared_on sha256 d d' op b.
Definition remote_scope (scope : string) : Prop := ∃ rest, scope = "remote-task" +:+ rest.
(** Another batch: it does not write to the queue or use the queue's scopes. *)
Definition other_batch b : Prop :=
  (∀ m, m ∈ pb_mutations b → (mutation_key m).1 ∉ remote_families) ∧ ¬ remote_scope (pb_idempotency_scope b).
Definition remote_log : Prop :=
  ∀ e b, e ∈ log → en_payload e = Payload_Normal b → (∃ op, prepared op b) ∨ other_batch b.
(** The hash function tells apart the values that a record of the queue takes
    along the log. *)
Definition no_collisions : Prop :=
  ∀ i j sk x y, records_at i !! (REMOTE_TASKS_CF, sk) = Some x →
    records_at j !! (REMOTE_TASKS_CF, sk) = Some y → sha256 y = sha256 x → y = x.

Hypothesis Hlog : remote_log.
Hypothesis Hsha : no_collisions.

(** The batch at position [k] is applied. *)
Definition applied_at (k : nat) b : Prop :=
  ∃ e response, log !! k = Some e ∧ en_payload e = Payload_Normal b ∧
    log_response k = Some (Ok response) ∧ ar_outcome response = Applied.

Lemma applied_conditions k b :
  applied_at k b →
  (∀ c, c ∈ pb_preconditions b → condition_holds sha256 (records_at k) c) ∧
  records_at (S k) = foldl apply_mutation_record (records_at k) (pb_mutations b) ∧
  im_applied (log_state (take k log)) !! pb_idempotency_scope b = None.
Proof using.
  intros (e & response & He & Hpay & Hresp & Hout). unfold records_at. rewrite (log_state_next _ _ _ _ He).
  unfold RaftCluster.log_response in Hresp. rewrite He in Hresp. simpl in Hresp. apply (inj Some) in Hresp.
  destruct (entry_effect_cases (sha256:=sha256) (batch_json:=batch_json) limits (log_state (take k log)) e)
    as [(b' & response' & Hpay' & Hresp' & _ & Hres)|(_ & response' & Hresp' & Hout')];
    rewrite Hresp in Hresp'; injection Hresp' as <-; [|exfalso; by eapply Hout'].
  rewrite Hpay in Hpay'. injection Hpay' as <-. by inversion Hres.
Qed.

Lemma operation_step k op b :
  prepared op b → applied_at k b → queue_ok (records_at k) →
  carries_out op (records_at k) (records_at (S k)).
Proof using Hsha LawfulDatabase0 LawfulMessage0.
  intros (j & d & d' & Hat & Hop & Hprep) (Hpre & -> & _)%applied_conditions Hq.
  eapply prepared_change; [done..| |done]. intros x y Hx. rewrite Hat in Hx by (by left). by apply (Hsha _ _ _ _ _ Hx).
Qed.

(** An entry carries out an operation or leaves the queue alone. *)
Lemma log_step k e :
  log !! k = Some e →
  (∃ op b, prepared op b ∧ applied_at k b) ∨
  ∀ key, key.1 ∈ remote_families → records_at (S k) !! key = records_at k !! key.
Proof using Hlog.
  intros He. unfold records_at. rewrite (log_state_next _ _ _ _ He).
  destruct (entry_effect_cases (sha256:=sha256) (batch_json:=batch_json) limits (log_state (take k log)) e)
    as [(b & response & Hpay & Hresp & Hout & Hres)|(-> & _)]; [|by right].
  destruct (Hlog e b) as [[op Hop]|[Hother _]]; [by eapply list_elem_of_lookup_2|done|..].
  - left. exists op, b. split; [done|]. exists e, response. split_and!; [done..| |done].
    unfold RaftCluster.log_response. rewrite He. simpl. by rewrite Hresp.
  - right. intros key Hkey. inversion Hres; [|done]. cbn [im_records].
    apply apply_mutations_other. intros (m & -> & Hm)%list_elem_of_fmap. by apply (Hother m).
Qed.

Lemma queue_ok_at k : k ≤ length log → queue_ok (records_at k).
Proof using Hlog Hsha LawfulDatabase0 LawfulMessage0.
  induction k as [|k IH]; intros Hk; [apply queue_ok_empty|]. specialize (IH ltac:(lia)).
  destruct (lookup_lt_is_Some_2 log k ltac:(lia)) as [e He].
  destruct (log_step k e He) as [(op & b & Hprep & Happ)|Hsame]; [|by eapply queue_ok_agree].
  destruct (operation_step _ _ _ Hprep Happ IH) as (old & new & _ & Hnow & Hnew & Hc).
  by eapply queue_ok_change.
Qed.

(** A task stays, and its record only moves forward. *)
Lemma task_later i j sk r :
  i ≤ j → j ≤ length log → task_at (records_at i) sk r → ∃ r', task_at (records_at j) sk r' ∧ follows r r'.
Proof using Hlog Hsha LawfulDatabase0 LawfulMessage0.
  intros Hij Hj Hr. induction Hij as [|j Hij IH]; [by exists r|].
  destruct (IH ltac:(lia)) as (r' & Hr' & Hf). clear IH.
  destruct (lookup_lt_is_Some_2 log j ltac:(lia)) as [e He].
  destruct (log_step j e He) as [(op & b & Hprep & Happ)|Hsame].
  2:{ exists r'. split; [|done]. unfold task_at. rewrite Hsame; [done|by left]. }
  destruct (operation_step _ _ _ Hprep Happ) as (old & new & Hstep & Hnow & Hnew & Hc); [apply queue_ok_at; lia|].
  destruct (decide (sk = op_key op)) as [->|Hne].
  2:{ exists r'. split; [|done]. apply (task_at_changes _ _ _ _ _ _ _ Hc). by right. }
  exists new. split; [apply (task_at_changes _ _ _ _ _ _ _ Hc); by left|]. etrans; [done|].
  apply (op_step_follows op). unfold task_now in Hnow. unfold task_at in Hr'. rewrite Hnow in Hr'.
  destruct old as [old|]; [|done]. by injection Hr' as ->%encode_inj.
Qed.

(** ** Leases *)
Lemma ended_claim_step op claim old new :
  ended_claim op = Some claim → op_step op old new →
  op_key op = claim_key claim ∧ ∃ r, old = Some r ∧ validate_remote_lease r claim = Ok tt ∧
    tr_lease_version new = cl_lease_version claim ∧ tr_status new ≠ status_number Status_Leased.
Proof using.
  destruct op as [| |claim'|claim' retry_at dead_letter]; simpl; intros [=]; subst; intros (r & -> & Hval & ->);
    destruct (validate_lease_leased _ _ Hval); (split; [done|]); exists r; [by split_and!|by destruct dead_letter; split_and!].
Qed.

Lemma ended_at k op b claim :
  prepared op b → applied_at k b → ended_claim op = Some claim →
  (∃ r, task_at (records_at k) (claim_key claim) r ∧ validate_remote_lease r claim = Ok tt) ∧
  ∃ r, task_at (records_at (S k)) (claim_key claim) r ∧ tr_lease_version r = cl_lease_version claim ∧
    tr_status r ≠ status_number Status_Leased.
Proof using Hlog Hsha LawfulDatabase0 LawfulMessage0.
  intros Hprep Happ Hclaim. pose proof Happ as (e & _ & He & _). apply lookup_lt_Some in He.
  destruct (operation_step _ _ _ Hprep Happ) as (old & new & Hstep & Hnow & Hnew & Hc); [apply queue_ok_at; lia|].
  destruct (ended_claim_step _ _ _ _ Hclaim Hstep) as (Hkey & r & -> & Hval & Hv & Hs). rewrite Hkey in *.
  split; [by exists r|]. exists new. split; [|done]. apply (task_at_changes _ _ _ _ _ _ _ Hc). by left.
Qed.

Lemma lease_over i j op op' b b' claim claim' :
  prepared op b → applied_at i b → ended_claim op = Some claim →
  prepared op' b' → applied_at j b' → ended_claim op' = Some claim' →
  claim_key claim = claim_key claim' → cl_lease_version claim = cl_lease_version claim' → ¬ i < j.
Proof using Hlog Hsha LawfulDatabase0 LawfulMessage0.
  intros Hp Ha Hc Hp' Ha' Hc' Hkey Hver Hij.
  destruct (ended_at _ _ _ _ Hp Ha Hc) as (_ & r & Hr & Hv & Hs).
  destruct (ended_at _ _ _ _ Hp' Ha' Hc') as ((r' & Hr' & [Hl Hv']%validate_lease_leased) & _).
  destruct Ha' as (e & _ & He & _). apply lookup_lt_Some in He.
  destruct (task_later (S i) j _ _ ltac:(lia) ltac:(lia) Hr) as (r'' & Hr'' & Hf).
  rewrite Hkey in Hr''. rewrite (task_at_inj _ _ _ _ Hr'' Hr') in Hf.
  by eapply follows_over; [exact Hf|done|congruence|].
Qed.

Lemma claimed_at k request b :
  prepared (Op_Claim request) b → applied_at k b →
  let sk := op_key (Op_Claim request) in
  ∃ r r', task_at (records_at k) sk r ∧ task_at (records_at (S k)) sk r' ∧
    tr_status r = status_number Status_Ready ∧ (tr_available_at_epoch_ms r ≤ cm_now_epoch_ms request)%N ∧
    r' = leased_record r (tr_attempts r + 1) (tr_lease_version r + 1) request.
Proof using Hlog Hsha LawfulDatabase0 LawfulMessage0.
  intros Hprep Happ sk. pose proof Happ as (e & _ & He & _). apply lookup_lt_Some in He.
  destruct (operation_step _ _ _ Hprep Happ) as (old & new & Hstep & Hnow & Hnew & Hc); [apply queue_ok_at; lia|].
  destruct Hstep as (r & -> & Hs & Hav & ->). eexists r, _. split_and!; [done| |done..].
  apply (task_at_changes _ _ _ _ _ _ _ Hc). by left.
Qed.

(** ** What an answer says *)
(** A scope is taken by a batch that was applied. *)
Lemma applied_origin k scope a :
  k ≤ length log → im_applied (log_state (take k log)) !! scope = Some a →
  ∃ i b, i < k ∧ applied_at i b ∧ pb_idempotency_scope b = scope.
Proof using.
  induction k as [|k IH]; intros Hk Ha; [change (im_applied (log_state (take 0 log))) with (∅ : gmap string AppliedCommand) in Ha; by rewrite lookup_empty in Ha|].
  destruct (lookup_lt_is_Some_2 log k ltac:(lia)) as [e He]. rewrite (log_state_next _ _ _ _ He) in Ha.
  destruct (entry_effect_cases (sha256:=sha256) (batch_json:=batch_json) limits (log_state (take k log)) e)
    as [(b & response & Hpay & Hresp & Hout & Hres)|(Heq & _)].
  - inversion Hres as [Hvalid Hnew Hpre Heff Hr|]; [|done]. rewrite <-Heff in Ha. cbn [im_applied] in Ha.
    apply lookup_insert_Some in Ha as [[Hscope _]|[_ Ha]].
    + exists k, b. split_and!; [lia| |done]. exists e, response. split_and!; [done..| |done].
      unfold RaftCluster.log_response. rewrite He. simpl. by rewrite Hresp.
    + destruct (IH ltac:(lia) Ha) as (i & b' & ? & ? & ?). exists i, b'. split_and!; [lia|done..].
  - rewrite Heq in Ha. destruct (IH ltac:(lia) Ha) as (i & b' & ? & ? & ?). exists i, b'. split_and!; [lia|done..].
Qed.

(** A batch answered as applied or as a duplicate: an operation like it was
    applied, here or before. *)
Lemma answered_operation k e op b response :
  prepared op b → log !! k = Some e → en_payload e = Payload_Normal b →
  log_response k = Some (Ok response) → ar_outcome response = Applied ∨ ar_outcome response = Apply_Duplicate →
  ∃ i op' b', i ≤ k ∧ prepared op' b' ∧ applied_at i b' ∧ op_name op' = op_name op ∧ op_key op' = op_key op ∧
    ∀ claim claim', ended_claim op = Some claim → ended_claim op' = Some claim' →
      cl_lease_version claim' = cl_lease_version claim.
Proof using Hlog.
  intros Hprep He Hpay Hresp [Hout|Hout].
  { exists k, op, b. split_and!; [done..| |done|done|congruence]. by exists e, response. }
  pose proof (lookup_lt_Some _ _ _ He) as Hk. pose proof Hresp as Hresp'.
  unfold RaftCluster.log_response in Hresp'. rewrite He in Hresp'. simpl in Hresp'. apply (inj Some) in Hresp'.
  destruct (duplicate_response _ _ _ _ _ _ _ Hpay Hresp' Hout) as (a & Ha & _).
  destruct (applied_origin k _ _ ltac:(lia) Ha) as (i & b' & Hi & Happ & Hscope).
  destruct Hprep as (j & d & d' & Hat & Hok & Hprep). destruct (prepared_Ok _ _ _ _ _ Hprep Hok) as (_ & g & Hg & Hgb & Hgv).
  pose proof Happ as (e' & response' & He' & Hpay' & _).
  destruct (Hlog e' b') as [(op' & j' & d1 & d1' & Hat' & Hok' & Hprep')|[_ Hother]];
    [by eapply list_elem_of_lookup_2|done|..].
  2:{ exfalso. apply Hother. rewrite Hscope, Hg. by eexists. }
  destruct (prepared_Ok _ _ _ _ _ Hprep' Hok') as (_ & g' & Hg' & Hgb' & Hgv').
  rewrite Hscope, Hg in Hg'. apply remote_scope_inj in Hg' as (Hname & Hkey & ->); [|done..].
  exists i, op', b'. split_and!; [lia|by exists j', d1, d1'|done|done|done|].
  intros claim claim' Hc Hc'. rewrite <-(Hgv _ Hc), <-(Hgv' _ Hc'). done.
Qed.

(** The lease of [claim] is over. *)
Definition over (claim : RemoteTaskClaim) (k : nat) : Prop :=
  ∃ r, task_at (records_at k) (claim_key claim) r ∧
    ((cl_lease_version claim < tr_lease_version r)%N ∨
     tr_lease_version r = cl_lease_version claim ∧ tr_status r ≠ status_number Status_Leased).
Definition completed (claim : RemoteTaskClaim) (k : nat) : Prop :=
  ∃ r, task_at (records_at k) (claim_key claim) r ∧ tr_lease_version r = cl_lease_version claim ∧
    tr_status r = status_number Status_Completed.
Definition enqueued (sk : string) (k : nat) : Prop := ∃ r, task_at (records_at k) sk r.

Lemma operation_enqueued i j op b :
  prepared op b → applied_at i b → i < j ≤ length log → enqueued (op_key op) j.
Proof using Hlog Hsha LawfulDatabase0 LawfulMessage0.
  intros Hprep Happ Hj. pose proof Happ as (e & _ & He & _). apply lookup_lt_Some in He.
  destruct (operation_step _ _ _ Hprep Happ) as (old & new & Hstep & Hnow & Hnew & Hc); [apply queue_ok_at; lia|].
  destruct (task_later (S i) j (op_key op) new) as (r & Hr & _); [lia..| |by exists r].
  apply (task_at_changes _ _ _ _ _ _ _ Hc). by left.
Qed.
Lemma answered_over k j e op b response claim :
  prepared op b → ended_claim op = Some claim → log !! k = Some e → en_payload e = Payload_Normal b →
  log_response k = Some (Ok response) → ar_outcome response = Applied ∨ ar_outcome response = Apply_Duplicate →
  k < j ≤ length log → over claim j.
Proof using Hlog Hsha LawfulDatabase0 LawfulMessage0.
  intros Hprep Hc He Hpay Hresp Hout Hj.
  destruct (answered_operation _ _ _ _ _ Hprep He Hpay Hresp Hout) as (i & op' & b' & Hi & Hprep' & Happ' & Hname & Hkey & Hver).
  assert (∃ claim', ended_claim op' = Some claim') as [claim' Hc'].
  { destruct op as [| | |?? []], op' as [| | |?? []]; try done; by eexists. }
  specialize (Hver _ _ Hc Hc'). destruct (ended_at _ _ _ _ Hprep' Happ' Hc') as (_ & r & Hr & Hv & Hs).
  assert (claim_key claim' = claim_key claim) as Hsame.
  { by rewrite <-(ended_key _ _ Hc), <-(ended_key _ _ Hc'). }
  destruct (task_later (S i) j _ _ ltac:(lia) ltac:(lia) Hr) as (r' & Hr' & Hf). rewrite Hsame in Hr'.
  exists r'. split; [done|]. destruct Hf as [->|[[? _]|(_ & ? & _)]]; [right|left|done]; [by split; [congruence|]|lia].
Qed.
Lemma answered_completed k j e b response claim :
  prepared (Op_Complete claim) b → log !! k = Some e → en_payload e = Payload_Normal b →
  log_response k = Some (Ok response) → ar_outcome response = Applied ∨ ar_outcome response = Apply_Duplicate →
  k < j ≤ length log → completed claim j.
Proof using Hlog Hsha LawfulDatabase0 LawfulMessage0.
  intros Hprep He Hpay Hresp Hout Hj.
  destruct (answered_operation _ _ _ _ _ Hprep He Hpay Hresp Hout) as (i & op' & b' & Hi & Hprep' & Happ' & Hname & Hkey & Hver).
  destruct op' as [| |claim'|?? []]; try done. specialize (Hver _ _ eq_refl eq_refl).
  assert (i < length log) as Hlt by (destruct Happ' as (e' & _ & He' & _); by apply lookup_lt_Some in He').
  destruct (operation_step _ _ _ Hprep' Happ') as (old & new & Hstep & Hnow & Hnew & Hc); [apply queue_ok_at; lia|].
  destruct Hstep as (r & -> & [Hs Hv]%validate_lease_leased & ->).
  destruct (task_later (S i) j (claim_key claim')
    (released_record r Status_Completed (tr_available_at_epoch_ms r)) ltac:(lia) ltac:(lia)) as (r' & Hr' & Hf).
  { apply (task_at_changes _ _ _ _ _ _ _ Hc). by left. }
  apply follows_final in Hf as ->; [|by left]. simpl in Hkey. rewrite Hkey in Hr'. eexists. split; [exact Hr'|].
  split; [|done]. simpl. congruence.
Qed.
End log.
