(* ===== verification/RemoteNode.v ===== *)
(** * Remote tasks on a node

    The calls of [RaftWorkflowStore] on the queue, on one node of a cluster whose
    log grows with the operations of all nodes: what each answer says about the
    committed queue. *)

From S2P Require Import Prelude Effects Bytes RaftBatch RaftMachine RaftCluster StorageKeys Database.
From S2P Require Import Types Ports RocksRaft PayloadCrypto RocksStore RaftStore TaskTypes RemoteTasks.
From S2P Require Import RemoteProofs RemoteLog.
From stdpp Require Import options.

Section node.
Context `{RaftTypes} {D : Type} `{!Database D} `{!LawfulDatabase D}.
Context `{!Message RemoteTaskRecord} `{!LawfulMessage RemoteTaskRecord}.
Context (store_error : StoreError → string).
Context (sha256 : string → ValueDigest) (batch_json : PreparedAtomicBatch → option string).
Context (config : RaftConfig) (limits : StateMachineLimits) (families : list string).
Hypothesis Hfamilies : remote_families ⊆ families.
Abbreviation world := (raft_world D).
Abbreviation log_state := (log_state (sha256:=sha256) (batch_json:=batch_json) limits).
Abbreviation log_response := (log_response (sha256:=sha256) (batch_json:=batch_json) limits).
Abbreviation entry_response := (entry_response (sha256:=sha256) (batch_json:=batch_json) limits).
Abbreviation records_at := (records_at sha256 batch_json limits).
Abbreviation at_position := (at_position (D:=D) sha256 batch_json limits).
Abbreviation prepared := (prepared (D:=D) sha256 batch_json limits).
Implicit Types (op : remote_op) (b : PreparedAtomicBatch) (e : Entry) (w : world).

Record queue_world w : Prop := {
  qw_log : remote_log (D:=D) sha256 batch_json limits (rw_log w);
  qw_hash : no_collisions sha256 batch_json limits (rw_log w);
  qw_applied : rw_applied w ≤ length (rw_log w);
  qw_records : application_records families (db_records (rw_db w)) = im_records (log_state (applied_log w)) }.
Abbreviation safe := (safe (raft_handle (sha256:=sha256) (batch_json:=batch_json) limits queue_world)
  queue_world world_next).

Lemma remote_key_application key : key.1 ∈ remote_families → is_application families key.
Proof using Hfamilies.
  intros Hkey. split; [by apply Hfamilies|]. revert Hkey.
  assert (Forall (λ family, family ≠ RAFT_APPLIED_COMMANDS_CF ∧ family ≠ OUTBOX_META_CF ∧
    family ∉ ["boundary_subscriptions"; "boundary_timer_index"; "boundary_signals"; "boundary_signal_index";
           "boundary_meta"; "local_task_meta"]) remote_families) as Hall
    by (apply (bool_decide_unpack _); by vm_compute).
  rewrite Forall_forall in Hall. intros (? & Hmeta & Hlocal)%Hall. split; [done|].
  intros [Hin|Heq]; [done|]. by rewrite Heq in Hmeta.
Qed.

(** The database of a node is at the position the node has applied. *)
Lemma world_position w w' : queue_world w → world_next w w' → at_position (rw_log w') (rw_applied w) (rw_db w).
Proof using Hfamilies.
  intros Hw [[rest Hrest] _] key Hkey. unfold RemoteLog.records_at. rewrite Hrest, take_app_le by apply Hw.
  pose proof (qw_records _ Hw) as Hrec. unfold applied_log in Hrec. rewrite <-Hrec, lookup_application.
  by rewrite decide_True by (by apply remote_key_application).
Qed.

(** An answer of the log, seen later. *)
Lemma answer_later w w' i e response :
  world_next w w' → applied_log w !! i = Some e →
  entry_response (log_state (take i (rw_log w))) e = Ok response →
  rw_log w' !! i = Some e ∧ log_response (rw_log w') i = Some (Ok response) ∧ i < rw_applied w'.
Proof using.
  intros [[rest Hrest] Hle] Hi Hresp. unfold applied_log in Hi. apply lookup_take_Some in Hi as [Hi Hlt].
  pose proof (lookup_lt_Some _ _ _ Hi) as Hlen. unfold RaftCluster.log_response.
  rewrite Hrest, lookup_app_l, Hi by done. split; [done|]. simpl. rewrite take_app_le by lia. rewrite Hresp.
  split; [done|lia].
Qed.

Lemma response_later w w' i e r :
  world_next w w' → rw_log w !! i = Some e → log_response (rw_log w) i = Some r →
  rw_log w' !! i = Some e ∧ log_response (rw_log w') i = Some r.
Proof using.
  intros [[rest Hrest] Hle] Hi Hresp. pose proof (lookup_lt_Some _ _ _ Hi) as Hlen.
  unfold RaftCluster.log_response in *. rewrite Hi in Hresp.
  rewrite Hrest, lookup_app_l, Hi by done. split; [done|]. by rewrite take_app_le by lia.
Qed.

(** What a proposal is answered. *)
Lemma propose_safe (Q : res RemoteTaskError ApplyResponse → world → Prop) b w :
  (∀ i e response w', world_next w w' → queue_world w' → rw_log w' !! i = Some e → en_payload e = Payload_Normal b →
     log_response (rw_log w') i = Some (Ok response) → i < rw_applied w' → Q (Ok response) w') →
  (∀ error w', Q (Err error) w') →
  safe Q (propose_remote_batch store_error config b) w.
Proof using.
  intros Hok Herr. apply safe_bind; [apply _|]. apply safe_ask. intros w1 Hw1 HI1 now w2 ->. split_and!; [done..|].
  apply safe_then; [apply _|]. apply admit_safe; [|intros; intros ???; intros ???; apply Herr].
  intros w3 Hw3 HI3. apply submit_safe; [|intros; intros ???; apply Herr].
  intros w4 i e response Hw4 HI4 Hi Hpay Hresp w5 Hw5 HI5 w6 Hw6 HI6.
  destruct (answer_later w4 w6 i e response) as (Hi' & Hresp' & Hlt); [by etrans|done..|].
  eapply Hok; [|done..]. etrans; [exact Hw1|]. etrans; [exact Hw3|]. etrans; [exact Hw4|]. by etrans.
Qed.

(** The surroundings of a prepared operation, at a later time. *)
Lemma prepared_later w w' d' op b :
  queue_world w → world_next w w' → op_ok op → prepared_on sha256 (rw_db w) d' op b → prepared (rw_log w') op b.
Proof using Hfamilies. intros Hw Hnext Hop Hprep. exists (rw_applied w), (rw_db w), d'. split; [by apply world_position|done]. Qed.

(** ** Answers *)
Definition task_present (sk : string) w : Prop := enqueued sha256 batch_json limits (rw_log w) sk (rw_applied w).
Definition lease_ended (claim : RemoteTaskClaim) w : Prop :=
  over sha256 batch_json limits (rw_log w) claim (rw_applied w).
Definition task_completed (claim : RemoteTaskClaim) w : Prop :=
  completed sha256 batch_json limits (rw_log w) claim (rw_applied w).
(** [claim] was the lease of its task at some position the node has applied. *)
Definition was_leased (claim : RemoteTaskClaim) (sk : string) w : Prop :=
  ∃ k r, k ≤ rw_applied w ∧ task_at (records_at (rw_log w) k) sk r ∧ remote_claim_from_record r = Ok claim.

Lemma applied_outcome response :
  remote_mutation_applied response = Ok tt →
  ar_outcome response = Applied ∨ ar_outcome response = Apply_Duplicate.
Proof using. unfold remote_mutation_applied. destruct (ar_outcome response); [by left|by right|done..]. Qed.

Lemma complete_safe claim w :
  (cl_lease_version claim ≤ u64_max)%N →
  safe (λ r w', r = Ok tt → task_completed claim w') (complete_remote_task store_error sha256 config claim) w.
Proof using Hfamilies LawfulDatabase0 LawfulMessage0.
  intros Hv. apply safe_ask. intros w1 _ HI1 d w2 [-> ->]. split_and!; [done..|].
  apply safe_ask. intros w3 Hw3 HI3 d' w4 [-> ->]. split_and!; [done..|]. apply safe_liftr.
  destruct (prepare_remote_task_complete _ _ _ _) as [b| |] eqn:Hprep; [|intros ???; done..].
  apply safe_then; [apply _|]. apply propose_safe; [|by intros e w' w'' _ _].
  intros i e response w5 Hw5 HI5 Hi Hpay Hresp Hlt w6 Hw6 HI6 Hr%applied_outcome.
  destruct (response_later _ _ _ _ _ Hw6 Hi Hresp) as [Hi' Hresp'].
  eapply (answered_completed _ _ _ _ (qw_log _ HI6) (qw_hash _ HI6) i _ e b response); [|done..|].
  - eapply (prepared_later w1 w6); [done|by etrans; [|etrans]|done|exact Hprep].
  - destruct Hw6 as [_ ?]. split; [lia|apply HI6].
Qed.
Lemma fail_safe claim retry_at dead_letter w :
  (cl_lease_version claim ≤ u64_max)%N → (retry_at ≤ u64_max)%N →
  safe (λ r w', is_ok r = true → lease_ended claim w')
    (fail_remote_task store_error sha256 config claim retry_at dead_letter) w.
Proof using Hfamilies LawfulDatabase0 LawfulMessage0.
  intros Hv Hretry. apply safe_ask. intros w1 _ HI1 d w2 [-> ->]. split_and!; [done..|].
  apply safe_ask. intros w3 Hw3 HI3 d' w4 [-> ->]. split_and!; [done..|]. apply safe_liftr.
  destruct (prepare_remote_task_failure _ _ _ _ _ _) as [b| |] eqn:Hprep; [|intros ???; done..].
  apply safe_then; [apply _|]. apply propose_safe; [|by intros e w' w'' _ _].
  intros i e response w5 Hw5 HI5 Hi Hpay Hresp Hlt. apply safe_liftr.
  destruct (remote_mutation_applied response) as [[]| |] eqn:Hr; [|intros ???; done..].
  intros w6 Hw6 HI6 _. apply applied_outcome in Hr.
  destruct (response_later _ _ _ _ _ Hw6 Hi Hresp) as [Hi' Hresp'].
  eapply (answered_over _ _ _ _ (qw_log _ HI6) (qw_hash _ HI6) i _ e
    (Op_Fail claim retry_at dead_letter) b response); [|done..|].
  - eapply (prepared_later w1 w6); [done|by etrans; [|etrans]|done|exact Hprep].
  - destruct Hw6 as [_ ?]. split; [lia|apply HI6].
Qed.

Lemma records_later w w' k :
  queue_world w → world_next w w' → k ≤ rw_applied w → records_at (rw_log w') k = records_at (rw_log w) k.
Proof using.
  intros Hw [[rest Hrest] _] Hk. unfold RemoteLog.records_at. pose proof (qw_applied _ Hw).
  by rewrite Hrest, take_app_le by lia.
Qed.
Lemma task_present_later w w' sk : queue_world w' → queue_world w → world_next w w' →
  (∃ r, db_records (rw_db w) !! (REMOTE_TASKS_CF, sk) = Some (encode_message r)) → task_present sk w'.
Proof using Hfamilies LawfulDatabase0 LawfulMessage0.
  intros Hw' Hw Hnext [r Hr]. rewrite (world_position _ _ Hw Hnext) in Hr by (by left).
  destruct Hnext as [_ ?]. destruct (task_later _ _ _ _ (qw_log _ Hw') (qw_hash _ Hw') (rw_applied w) (rw_applied w')
    sk r) as (r' & Hr' & _); [lia|apply Hw'|done|by exists r'].
Qed.

(** A stored record that can be read is one of the queue. *)
Lemma node_queue w : queue_world w → queue_ok (db_records (rw_db w)).
Proof using Hfamilies LawfulDatabase0 LawfulMessage0.
  intros Hw. eapply queue_ok_agree; [|apply (queue_ok_at _ _ _ _ (qw_log _ Hw) (qw_hash _ Hw) (rw_applied w)), Hw].
  intros key Hkey. by apply (world_position _ _ Hw ltac:(done)).
Qed.

Lemma enqueue_safe activation task w :
  RemoteTask_try_from activation = Ok task → task_ok task →
  safe (λ r w', is_ok r = true → task_present (remote_task_storage_key (rt_tenant_id task) (rt_task_id task)) w')
    (enqueue_remote_task store_error sha256 config activation) w.
Proof using Hfamilies LawfulDatabase0 LawfulMessage0.
  intros Htask Hok. unfold enqueue_remote_task. apply safe_liftr. rewrite Htask.
  apply safe_ask. intros w1 _ HI1 d w2 [-> ->]. split_and!; [done..|]. apply safe_liftr.
  destruct (prepare_remote_task_enqueue _ _ _) as [[b|]| |] eqn:Hprep; [| |intros ???; done..].
  - apply safe_then; [apply _|]. apply propose_safe; [|by intros e w' w'' _ _].
    intros i e response w5 Hw5 HI5 Hi Hpay Hresp Hlt w6 Hw6 HI6 Hr.
    destruct (response_later _ _ _ _ _ Hw6 Hi Hresp) as [Hi' Hresp'].
    assert (prepared (rw_log w6) (Op_Enqueue task) b) as Hp.
    { eapply (prepared_later w1 w6 (rw_db w1)); [done|by etrans|done|exact Hprep]. }
    destruct (answered_operation _ _ _ _ (qw_log _ HI6) i e _ b response Hp Hi' Hpay Hresp')
      as (j & op' & b' & Hj & Hp' & Happ & _ & Hkey & _).
    { by destruct (ar_outcome response); auto. }
    destruct Hw6 as [_ ?]. pose proof (operation_enqueued _ _ _ _ (qw_log _ HI6) (qw_hash _ HI6) j (rw_applied w6)
      op' b' Hp' Happ) as Henq. rewrite Hkey in Henq. apply Henq. split; [lia|apply HI6].
  - intros w' Hw' HI' _. apply (task_present_later w1); [done..|].
    unfold prepare_remote_task_enqueue in Hprep. apply bind_Ok in Hprep as (_ & _ & Hprep). cbv zeta in Hprep.
    apply bind_Ok in Hprep as ([bytes|] & Hget%remote_get_Ok & Hprep); [|done].
    destruct (qo_record _ (node_queue _ HI1) _ _ (eq_sym Hget)) as (r & -> & _). by exists r.
Qed.

Lemma claim_safe request w :
  let sk := remote_task_storage_key (cm_tenant_id request) (cm_task_id request) in
  safe (λ r w', ∀ claim, r = Ok (Some claim) → cl_assignment_id claim = cm_assignment_id request ∧ was_leased claim sk w')
    (claim_remote_task store_error sha256 config request) w.
Proof using Hfamilies LawfulDatabase0 LawfulMessage0.
  intros sk. apply safe_ask. intros w1 _ HI1 d w2 [-> ->]. split_and!; [done..|].
  apply safe_ask. intros w3 Hw3 HI3 d' w4 [-> ->]. split_and!; [done..|]. apply safe_liftr.
  destruct (prepare_remote_task_claim _ _ _ _) as [[b|]| |]; [|intros ???; done..].
  apply safe_then; [apply _|]. apply propose_safe; [|by intros e w' w'' _ _].
  intros i e response w5 _ _ _ _ _ _. clear i e.
  assert (∀ w5, safe (λ r w', ∀ claim, r = Ok (Some claim) →
      cl_assignment_id claim = cm_assignment_id request ∧ was_leased claim sk w')
    (d ← ask Op_Database;
     claim ← liftr (load_remote_task_claim d (cm_tenant_id request) (cm_task_id request));
     liftr match claim with
           | Some claim => if bool_decide (cl_assignment_id claim = cm_assignment_id request)
                           then Ok (Some claim) else Err Remote_Conflict
           | None => Err Remote_Conflict
           end) w5) as Hload.
  { clear w5 w1 HI1 w3 Hw3 HI3. intros w0. apply safe_ask. intros w1 _ HI1 d w2 [-> ->]. split_and!; [done..|]. apply safe_liftr.
    destruct (load_remote_task_claim _ _ _) as [[claim|]| |] eqn:Hl; [|intros ???; done..].
    intros w' Hw' HI' claim'. case_bool_decide as Heq; [|done]. intros [= <-]. split; [done|].
    unfold load_remote_task_claim in Hl. apply bind_Ok in Hl as ([bytes|] & Hget%remote_get_Ok & Hl); [|done].
    apply bind_Ok in Hl as (r & Hdec%decode_record_Ok & Hl). apply bind_Ok in Hl as (s & _ & Hl).
    case_bool_decide; [|done]. apply bind_Ok in Hl as (claim' & Hclaim & Hl). injection Hl as ->.
    destruct (qo_record _ (node_queue _ HI1) _ _ (eq_sym Hget)) as (r' & -> & _).
    rewrite decode_encode in Hdec. injection Hdec as ->. exists (rw_applied w1), r.
    split; [by destruct Hw'|]. split; [|done]. unfold task_at.
    rewrite <-(world_position _ _ HI1 Hw') by (by left). done. }
  destruct (ar_outcome response); [apply Hload..| |]; intros ???; done.
Qed.
End node.
