(* ===== verification/RemoteExamples.v ===== *)
(** * A task from the queue to its completion

    A log of three entries that enqueue a task, lease it to a worker and complete
    it, to evaluate the remote queue on. *)

From S2P Require Import Prelude Effects Bytes RaftBatch RaftMachine RaftCluster StorageKeys Database.
From S2P Require Import Types Ports RocksRaft PayloadCrypto RocksStore RaftStore TaskTypes RemoteTasks.
From S2P Require Import RocksExamples RemoteProofs RemoteLog RemoteNode.
From stdpp Require Import options.

#[export] Instance RemoteTaskRecord_eq_dec : EqDecision RemoteTaskRecord.
Proof. solve_decision. Defined.
#[export] Instance RemoteTaskRecord_countable : Countable RemoteTaskRecord.
Proof.
  refine (inj_countable
    (λ '(mkTaskRecord x0 x1 x2 x3 x4 x5 x6 x7 x8 x9 x10 x11 x12 x13 x14 x15 x16 x17 x18 x19 x20 x21 x22),
      [write x0; x1; x2; x3; x4; x5; x6; x7; x8; write x9; write x10; x11; x12; x13; write x14; write x15;
       write x16; x17; x18; x19; write x20; write x21; x22])
    (λ l, match l with
          | [x0; x1; x2; x3; x4; x5; x6; x7; x8; x9; x10; x11; x12; x13; x14; x15; x16; x17; x18; x19; x20;
             x21; x22] =>
              Some (mkTaskRecord (unfield x0) x1 x2 x3 x4 x5 x6 x7 x8 (unfield x9) (unfield x10) x11 x12 x13
                (unfield x14) (unfield x15) (unfield x16) x17 x18 x19 (unfield x20) (unfield x21) x22)
          | _ => None
          end) _).
  intros []. by rewrite ?unfield_write.
Defined.

Definition pick_task : RemoteTask :=
  mkRemoteTask "c2:4" "acme" "order-1" "order" "1" "pick" "pick" "c2:4" 4 2 "trace" "1" "1".
Definition token_digest : string := "01234567890123456789012345678901".
Definition pick_request (assignment : string) : RemoteTaskClaimRequest :=
  mkClaimRequest "acme" "c2:4" assignment "worker" "session" 10 20 token_digest.
Definition pick_claim : RemoteTaskClaim :=
  mkClaim pick_task "a1" "worker" "session" 1 1 20 token_digest.

Definition no_batch : PreparedAtomicBatch := PreparedAtomicBatch_new node_sha256 "" "" [] [] "".
Abbreviation toy := (gmap StorageKey string).
Definition or_none (r : res RemoteTaskError (option PreparedAtomicBatch)) : PreparedAtomicBatch :=
  match r with Ok (Some b) => b | _ => no_batch end.
Definition entry_of (i : N) (b : PreparedAtomicBatch) : Entry := @mkEntry node_types i (Payload_Normal b).
Definition toy_state (log : list Entry) : toy :=
  im_records (log_state (sha256:=node_sha256) (batch_json:=node_json) node_limits log).

Definition enqueue_batch : PreparedAtomicBatch :=
  or_none (prepare_remote_task_enqueue node_sha256 (∅ : toy) pick_task).
Definition log1 : list Entry := [entry_of 1 enqueue_batch].
Definition claim_batch (assignment : string) : PreparedAtomicBatch :=
  or_none (prepare_remote_task_claim node_sha256 (toy_state log1) (toy_state log1) (pick_request assignment)).
Definition log2 : list Entry := log1 ++ [entry_of 2 (claim_batch "a1")].
Definition complete_batch : PreparedAtomicBatch :=
  match prepare_remote_task_complete node_sha256 (toy_state log2) (toy_state log2) pick_claim with
  | Ok b => b
  | _ => no_batch
  end.
Definition pick_log : list Entry := log2 ++ [entry_of 3 complete_batch].

Lemma enqueue_prepared :
  prepare_remote_task_enqueue node_sha256 (∅ : toy) pick_task = Ok (Some enqueue_batch).
Proof. by vm_compute. Qed.
Lemma claim_prepared :
  prepare_remote_task_claim node_sha256 (toy_state log1) (toy_state log1) (pick_request "a1")
  = Ok (Some (claim_batch "a1")).
Proof. by vm_compute. Qed.
Lemma complete_prepared :
  prepare_remote_task_complete node_sha256 (toy_state log2) (toy_state log2) pick_claim = Ok complete_batch.
Proof. by vm_compute. Qed.
Lemma pick_task_ok : task_ok pick_task.
Proof. by split. Qed.

Abbreviation toy_prepared := (prepared (D:=toy) node_sha256 node_json node_limits pick_log).
(** The database of a node at a position of the log. *)
Lemma toy_position log k :
  at_position (D:=toy) node_sha256 node_json node_limits log k (toy_state (take k log)).
Proof. intros key _. reflexivity. Qed.
Lemma pick_position k log : take k pick_log = log → at_position (D:=toy) node_sha256 node_json node_limits pick_log k (toy_state log).
Proof. intros <-. apply toy_position. Qed.

Lemma pick_enqueued : toy_prepared (Op_Enqueue pick_task) enqueue_batch.
Proof.
  exists 0, (∅ : toy), (∅ : toy). split; [exact (toy_position pick_log 0)|].
  split; [exact pick_task_ok|exact enqueue_prepared].
Qed.
Lemma pick_claimed : toy_prepared (Op_Claim (pick_request "a1")) (claim_batch "a1").
Proof.
  exists 1, (toy_state log1), (toy_state log1). split; [apply pick_position; reflexivity|].
  split; [by vm_compute|exact claim_prepared].
Qed.
Lemma pick_finished : toy_prepared (Op_Complete pick_claim) complete_batch.
Proof.
  exists 2, (toy_state log2), (toy_state log2). split; [apply pick_position; reflexivity|].
  split; [by vm_compute|exact complete_prepared].
Qed.
Lemma entry_payload i b b' : en_payload (entry_of i b) = Payload_Normal b' → b' = b.
Proof. intros Heq. by injection Heq. Qed.
Lemma pick_log_ok : remote_log (D:=toy) node_sha256 node_json node_limits pick_log.
Proof.
  intros e b He Hpay. left. unfold pick_log, log2, log1 in He. cbn [app] in He.
  apply elem_of_cons in He as [->|He].
  { apply entry_payload in Hpay as ->. exists (Op_Enqueue pick_task). exact pick_enqueued. }
  apply elem_of_cons in He as [->|He].
  { apply entry_payload in Hpay as ->. exists (Op_Claim (pick_request "a1")). exact pick_claimed. }
  apply elem_of_cons in He as [->|He]; [|by apply elem_of_nil in He].
  apply entry_payload in Hpay as ->. exists (Op_Complete pick_claim). exact pick_finished.
Qed.
Lemma toy_no_collisions log : no_collisions node_sha256 node_json node_limits log.
Proof. intros i j sk x y _ _ Heq. exact Heq. Qed.
Lemma pick_answer :
  RaftCluster.log_response (sha256:=node_sha256) (batch_json:=node_json) node_limits pick_log 2
  = Some (Ok (applied_response complete_batch)).
Proof. by vm_compute. Qed.
Lemma pick_applied : applied_at node_sha256 node_json node_limits pick_log 2 complete_batch.
Proof.
  exists (entry_of 3 complete_batch), (applied_response complete_batch). split; [reflexivity|]. split; [reflexivity|].
  split; [exact pick_answer|reflexivity].
Qed.
