(* ===== verification/RocksTheorems.v ===== *)
(** * Theorems on the durable, replicated store *)

From S2P Require Import Prelude Effects Bytes RaftBatch RaftMachine RaftCluster.
From S2P Require Import StorageKeys Database RocksRaft PayloadCrypto.
From S2P Require Import Types Evolve Outbox Ports EngineSpec Wire EventCodec SnapshotCodec MemoryStore.
From S2P Require Import RocksStore RocksSpec RocksProofs RocksExamples RocksOutbox ReplicatedStore RaftStore.
From stdpp Require Import options.

Lemma families_applied : RAFT_APPLIED_COMMANDS_CF ∈ authoritative_column_families.
Proof. apply (bool_decide_unpack _). by vm_compute. Qed.
Lemma families_metadata : RAFT_STATE_META_CF ∉ authoritative_column_families.
Proof. apply (bool_decide_unpack _). by vm_compute. Qed.
Lemma families_distinct : NoDup authoritative_column_families.
Proof. apply (bool_decide_unpack _). by vm_compute. Qed.
Lemma families_store : DEDUP_CF :: store_families ⊆ authoritative_column_families.
Proof.
  assert (Forall (.∈ authoritative_column_families) (DEDUP_CF :: store_families)) as Hall
    by (apply (bool_decide_unpack _); by vm_compute).
  rewrite Forall_forall in Hall. exact Hall.
Qed.

Section theorems.
Context `{RaftTypes} {D : Type} `{!Database D} `{!LawfulDatabase D}.
Context {C : Type} `{!PayloadCryptoPort C} `{!LawfulCrypto C}.
Context `{!Message EncryptedEventRecord, !Message EncryptedSnapshotRecord,
  !Message EncryptedAuthorizationAuditRecord, !Message StoredCommandResult, !Message OutboxEntry,
  !Message AuthorizationAuditRecord}.
Context `{!LawfulMessage EncryptedEventRecord, !LawfulMessage EncryptedSnapshotRecord,
  !LawfulMessage StoredCommandResult, !LawfulMessage OutboxEntry}.
Context (encode_event : Wire.EventEnvelope → string)
  (decode_event : string → Wire.EventEnvelope + string)
  (encode_snapshot : Wire.WorkflowSnapshot → string)
  (decode_snapshot : string → Wire.WorkflowSnapshot + string).
Context (event_error : EventCodecError → string) (snapshot_error : SnapshotCodecError → string)
  (identifier_error : string → string) (store_error : StoreError → string).
Context (crypto : C) (max_replay_events : nat).
Abbreviation represents := (represents encode_event decode_event encode_snapshot decode_snapshot).
Abbreviation commit_ok := (commit_ok encode_event decode_event encode_snapshot decode_snapshot).


(** C20: The RocksDB outbox implements the outbox of the publisher. On a database
    that holds an abstract store, a read after a position gives the committed
    events behind it, in the order of their commits, each with its number and its
    encoding, up to the limit; and the position of the publisher moves only from
    the one it expects to a later one within the committed events, without a
    change to anything else in the store. *)
Theorem rocks_outbox_refines d g :
  represents (db_records d) g →
  (∀ cursor limit records,
     rocks_read_after decode_event event_error identifier_error store_error crypto d cursor limit
       = Ok records →
     records = take limit (drop (N.to_nat cursor) (published_records encode_event g))) ∧
  (∀ n, rocks_publisher_checkpoint d = Ok n → n = gh_checkpoint g) ∧
  (∀ expected committed d' r, rocks_checkpoint expected committed d = (d', r) →
     let moved := gh_checkpoint g = expected ∧
       (expected < committed ≤ N.of_nat (length (gh_outbox g)))%N ∧
       represents (db_records d') (at_checkpoint g committed) in
     if is_ok r then moved else represents (db_records d') g ∨ moved).
Proof using LawfulDatabase0 LawfulCrypto0 LawfulMessage0 LawfulMessage3.
  intros Hrep. split_and!.
  - intros cursor limit records Hrun. by eapply rocks_read_after_Ok.
  - intros n Hn. by eapply rocks_publisher_checkpoint_Ok.
  - intros expected committed d' r Hrun. by eapply rocks_checkpoint_law in Hrun.
Qed.

(** ** Consensus *)
Context (sha256 : string → ValueDigest) (batch_json : PreparedAtomicBatch → option string).
Context (limits : StateMachineLimits).
Abbreviation families := authoritative_column_families.
Abbreviation store_log := (store_log (D:=D) (C:=C) encode_event decode_event encode_snapshot
  decode_snapshot identifier_error sha256).
Abbreviation realises := (realises (D:=D) (C:=C) encode_event decode_event encode_snapshot
  decode_snapshot identifier_error sha256 batch_json limits).
Abbreviation world_ok := (world_ok (D:=D) (C:=C) encode_event decode_event encode_snapshot
  decode_snapshot identifier_error sha256 batch_json limits families).
Abbreviation raft_handle := (raft_handle (sha256:=sha256) (batch_json:=batch_json) limits world_ok).


(** ** A cluster of nodes on RocksDB *)
Context (metadata_json : StateMachineMetadata → res AtomicStorageError string)
  (metadata_parse : string → res AtomicStorageError StateMachineMetadata)
  (response_json : ApplyResponse → res AtomicStorageError string)
  (response_parse : string → res AtomicStorageError ApplyResponse)
  (snapshot_pieces : RocksStateSnapshot → res AtomicStorageError (list string))
  (snapshot_parse : string → res AtomicStorageError RocksStateSnapshot).
Context (max_snapshot_bytes : N).
Context (persisted_pieces : PersistedSnapshot → res AtomicStorageError (list string))
  (persisted_parse : string → res AtomicStorageError PersistedSnapshot).
Context (log : list Entry).
(** JSON text reads back as what was written. *)
Hypothesis Hmetadata : ∀ md bytes, metadata_json md = Ok bytes → metadata_parse bytes = Ok md.
Hypothesis Hresponse : ∀ r bytes, response_json r = Ok bytes → response_parse bytes = Ok r.
Hypothesis Hsnapshot : ∀ s pieces,
  snapshot_pieces s = Ok pieces → snapshot_parse (join_pieces pieces) = Ok s.

#[local] Instance node_storage_port : AtomicStateStorage D :=
  rocks_storage sha256 batch_json metadata_json metadata_parse response_json response_parse snapshot_pieces
    snapshot_parse families max_snapshot_bytes.
#[local] Instance node_storage_lawful : LawfulStateStorage D sha256 batch_json :=
  rocks_lawful sha256 batch_json metadata_json metadata_parse response_json response_parse snapshot_pieces
    snapshot_parse families max_snapshot_bytes Hmetadata Hresponse Hsnapshot families_applied
    families_metadata families_distinct.
Abbreviation rocks_cluster_reachable :=
  (cluster_reachable (sha256:=sha256) (batch_json:=batch_json) persisted_pieces persisted_parse limits log).

End theorems.

(** ** Examples *)
Abbreviation example_represents :=
  (represents (C:=unit) event_bytes event_unbytes no_snapshot_bytes no_snapshot_unbytes).
Definition first_database : gmap StorageKey string :=
  (rocks_commit event_bytes no_snapshot_bytes node_config_error () first_commit ∅).1.
Definition first_ghost : RocksGhost := ghost_append empty_ghost first_commit.

Lemma first_run :
  rocks_commit event_bytes no_snapshot_bytes node_config_error () first_commit ∅ =
  (first_database, Ok (Committed first_result)).
Proof.
  unfold first_database. rewrite (surjective_pairing (rocks_commit _ _ _ _ _ _)) at 1. by f_equal.
Qed.


Lemma first_store : example_represents (db_records first_database) first_ghost.
Proof.
  assert (example_represents (db_records (∅ : gmap StorageKey string)) empty_ghost) as Hempty
    by apply represents_empty.
  pose proof (rocks_commit_law _ _ _ _ _ _ _ _ _ _ _ Hempty first_commit_ok first_run) as (_ & _ & Hrep).
  exact Hrep.
Qed.

Lemma rocks_outbox_refines_witness :
  rocks_read_after event_unbytes (λ _, "") node_config_error (λ _, "") () first_database 0 5 =
    Ok [mkOutboxRecord 1 "acme" "order-1" "c1:1" "trace" "c1" "started"] ∧
  [mkOutboxRecord 1 "acme" "order-1" "c1:1" "trace" "c1" "started"] =
    take 5 (drop 0 (published_records event_bytes first_ghost)).
Proof.
  destruct (rocks_outbox_refines (D:=gmap StorageKey string) (C:=unit) event_bytes event_unbytes
    no_snapshot_bytes no_snapshot_unbytes (λ _, "") node_config_error (λ _, "") () first_database first_ghost first_store) as (Hread & _).
  assert (rocks_read_after event_unbytes (λ _, "") node_config_error (λ _, "") () first_database 0 5 =
    Ok [mkOutboxRecord 1 "acme" "order-1" "c1:1" "trace" "c1" "started"]) as Hrun by (by vm_compute).
  split; [exact Hrun|]. exact (Hread 0%N 5 _ Hrun).
Defined.

(** A log with the commit, and the node that proposed it. *)
Definition first_log : list Entry := [mkEntry 1%N (Payload_Normal first_batch)].
Definition first_state : InMemoryState :=
  log_state (sha256:=node_sha256) (batch_json:=node_json) node_limits first_log.
Definition before_world : raft_world (gmap StorageKey string) := mkRaftWorld [] 0 (∅ : gmap StorageKey string).
Definition after_world : raft_world (gmap StorageKey string) := mkRaftWorld first_log 1 (im_records first_state).
Abbreviation example_store_log := (store_log (D:=gmap StorageKey string) (C:=unit) event_bytes
  event_unbytes no_snapshot_bytes no_snapshot_unbytes node_config_error node_sha256).
Abbreviation example_world_ok := (world_ok (D:=gmap StorageKey string) (C:=unit) event_bytes event_unbytes
  no_snapshot_bytes no_snapshot_unbytes node_config_error node_sha256 node_json node_limits
  authoritative_column_families).

Lemma first_log_ok : example_store_log first_log.
Proof.
  intros e b He%list_elem_of_singleton. subst e. intros Hpay. injection Hpay as <-. left.
  exists first_commit. split; [apply first_commit_ok|]. exists (), ∅, ∅. apply first_prepared.
Qed.
Lemma before_world_ok : example_world_ok before_world.
Proof. split; [by intros e b He%elem_of_nil|done|by vm_compute|by exists 0%N]. Qed.
Lemma after_world_ok : example_world_ok after_world.
Proof.
  split; [apply first_log_ok|done| |exists 0%N; by vm_compute].
  apply (bool_decide_unpack _). by vm_compute.
Qed.
Definition node_config : RaftConfig := mkRaftConfig 16 3 1000.
Abbreviation example_handle :=
  (raft_handle (sha256:=node_sha256) (batch_json:=node_json) node_limits example_world_ok).
Definition first_response : ApplyResponse := applied_response first_batch.

Lemma first_submit :
  exec example_handle (submit_admitted first_batch 1000) before_world (Ok first_response) after_world.
Proof.
  apply (exec_ask _ _ _ _ 0%N before_world); [done|].
  apply (exec_liftr _ _ _ _ tt); [done|].
  apply (exec_ask _ _ _ _ (Write_Applied first_response) after_world); [|done].
  split; [|split; [apply after_world_ok|]].
  - split; [apply prefix_nil|simpl; lia].
  - exists 0, (@mkEntry node_types 1%N (Payload_Normal first_batch)). split; [done|]. split; [done|]. by vm_compute.
Qed.

Lemma first_attempt :
  exec example_handle
    (commit_attempts event_bytes no_snapshot_bytes node_config_error node_sha256 () 3 1000 first_commit)
    before_world (Ok (Committed first_result)) after_world.
Proof.
  cbn [commit_attempts].
  apply (exec_then _ _ _ _ tt before_world).
  { by apply (exec_ask _ _ _ _ true before_world). }
  apply (exec_ask _ _ _ _ ∅ before_world); [done|]. apply (exec_ask _ _ _ _ ∅ before_world); [done|].
  apply (exec_liftr _ _ _ _ (Proposal first_batch)); [apply first_prepared|].
  apply (exec_then _ _ _ _ first_response after_world); [apply first_submit|].
  change (stale_outbox first_batch first_response) with false. cbn [andb].
  apply (exec_ask _ _ _ _ (im_records first_state) after_world); [done|].
  apply (exec_ask _ _ _ _ (im_records first_state) after_world); [done|].
  split; [|done]. by vm_compute.
Qed.


(** Two nodes on their databases; the first applies the log. *)
Section example_cluster.
#[local] Instance example_port : AtomicStateStorage (gmap StorageKey string) :=
  rocks_storage node_sha256 node_json write_ok read write_ok read write_pieces read
    authoritative_column_families 65536.
#[local] Instance example_lawful : LawfulStateStorage (gmap StorageKey string) node_sha256 node_json :=
  rocks_lawful node_sha256 node_json write_ok read write_ok read write_pieces read
    authoritative_column_families 65536 read_write_ok read_write_ok read_write_pieces families_applied
    families_metadata families_distinct.
Abbreviation example_step := (cluster_step (sha256:=node_sha256) (batch_json:=node_json)
  (write_pieces : PersistedSnapshot → _) read node_limits first_log).

Definition empty_machine : AuthoritativeStateMachine (gmap StorageKey string) :=
  mkMachine ∅ node_limits None (None, []) 0 None.
Definition first_machine : AuthoritativeStateMachine (gmap StorageKey string) :=
  (machine_apply first_log empty_machine).1.
Definition start_cluster : cluster :=
  mkCluster {[0%N := Down (∅ : gmap StorageKey string); 1%N := Down ∅]} [].
Definition up_cluster : cluster := set_node start_cluster 0 (Up empty_machine).
Definition first_cluster : cluster := set_node up_cluster 0 (Up first_machine).

Lemma first_cluster_reachable :
  cluster_reachable (sha256:=node_sha256) (batch_json:=node_json) (write_pieces : PersistedSnapshot → _) read
    node_limits first_log first_cluster.
Proof.
  exists start_cluster. split.
  - split; [|done]. intros i n. cbn [cl_nodes start_cluster].
    intros [[<- <-]|[_ [<- <-]%lookup_singleton_Some]]%lookup_insert_Some; exists ∅; (split; [done|]);
      by vm_compute.
  - apply (rtc_l _ _ up_cluster); [|apply rtc_once].
    + apply (step_restart _ _ _ _ _ _ ∅); by vm_compute.
    + destruct (machine_apply first_log empty_machine).2 as [responses| |] eqn:Hr; [|by vm_compute in Hr..].
      unfold first_cluster.
      change (Up first_machine) with (RaftCluster.after first_machine (Ok responses : res StorageError _)).
      apply (step_apply _ _ _ _ _ _ empty_machine 0 1); [by vm_compute|by vm_compute|].
      change (take 1 (drop 0 first_log)) with first_log. rewrite <-Hr. apply surjective_pairing.
Qed.

Lemma first_log_batches e b :
  e ∈ first_log → en_payload e = Payload_Normal b → rocks_batch_ok authoritative_column_families b.
Proof.
  intros He%list_elem_of_singleton. subst e. intros Hpay. injection Hpay as <-.
  eapply proposal_batch_ok; [apply families_store|].
  exact (prepare_workflow_batch_Ok _ _ _ _ _ _ _ _ _ first_prepared).
Qed.

End example_cluster.
