(* ===== verification/EngineTheorems.v ===== *)
(** * Theorems on command handling

    Properties of the engine's command handler with any lawful store, under
    every interleaving of handlers; each witness runs the in-memory store on
    the workflow of [Examples]. *)

From S2P Require Import Prelude Types Expr Coverage Config WorkflowDef Routing Text Evolve.
From S2P Require Import Activation Decide Invariant Loop Decisions Instance Errors Examples.
From S2P Require Import Effects Outbox Ports Engine EngineSpec Wire EventCodec MemoryStore.
From stdpp Require Import options.

(** ** A concrete system *)
Definition example_registry (tenant : TenantId) (type : WorkflowType) (version : WorkflowVersion) :
    option WorkflowDefinition :=
  if bool_decide (tenant = "acme") && bool_decide (type = "order") && bool_decide (version = "1")
  then Some definition else None.
Definition example_principal : AuthorizedPrincipal :=
  mkPrincipal "alice" ["clerk"] "frontend" "1" 1 1 ["grant"].
Definition example_authorize (request : AuthorizationRequest) :
    res AuthorizationError AuthorizedPrincipal := Ok example_principal.
Definition example_resolve (lookup : ConfigurationLookup) : res ConfigError ResolvedConfigSnapshot :=
  Ok config.
Definition example_encode (message : Wire.EventEnvelope) : string := "payload".
Definition example_request (command_id : string) (command : Command) : AuthorizedCommand :=
  mkAuthorizedCommand "acme" "order-1" command_id ("key-" +:+ command_id) "trace" 0 "jwt" OriginalJwt
    "svid" "events" facts command.

#[export] Instance example_store : WorkflowStorePort MemoryState := memory_port example_encode.
#[export] Instance example_lawful : LawfulStore MemoryState := memory_lawful example_encode.

Definition example_handle (command_id : string) (command : Command) :
    method MemoryState EngineError HandleOutcome :=
  handle example_authorize example_resolve definition (example_request command_id command).

(** Two commands, one after the other. *)
Definition store_started : MemoryState := (example_handle "c1" (StartWorkflow "acme" 1) MemoryState_default).1.
Definition store_reviewed : MemoryState :=
  (example_handle "c2" (CompleteUserTask "review" "approve" 2) store_started).1.

Lemma engine_reachable_rtc {S} `{LawfulStore S} registry (x y : S * list CommitRequest) :
  engine_reachable registry x → rtc (engine_step registry) x y → engine_reachable registry y.
Proof. intros Hx. induction 1; [done|]. eauto using engine_continue. Qed.

Lemma example_resolve_valid lookup cfg : example_resolve lookup = Ok cfg → config_ok cfg.
Proof. intros [= <-]. exact config_is_ok. Qed.
Lemma example_registered : registered example_registry definition.
Proof. vm_compute. reflexivity. Qed.

Lemma example_started : empty_view (memory_view MemoryState_default).
Proof. split_and!; intros k; simpl; by rewrite ?lookup_empty. Qed.

Lemma example_steps s pending command_id command :
  ∃ pending', rtc (engine_step example_registry) (s, pending)
    ((example_handle command_id command s).1, pending').
Proof.
  eapply (handle_steps example_registry example_authorize example_resolve example_resolve_valid
    definition (example_request command_id command)).
  - exact example_registered.
  - apply surjective_pairing.
Qed.

Lemma store_started_reachable :
  ∃ pending, engine_reachable example_registry (store_started, pending).
Proof.
  destruct (example_steps MemoryState_default [] "c1" (StartWorkflow "acme" 1)) as [pending Hrun].
  exists pending. eapply engine_reachable_rtc; [|exact Hrun]. apply engine_start, example_started.
Qed.
Lemma store_reviewed_reachable :
  ∃ pending, engine_reachable example_registry (store_reviewed, pending).
Proof.
  destruct store_started_reachable as [pending Hreach].
  destruct (example_steps store_started pending "c2" (CompleteUserTask "review" "approve" 2))
    as [pending' Hrun].
  exists pending'. by eapply engine_reachable_rtc.
Qed.

(** ** Loading *)

(** C17: However handlers interleave on a lawful store, what the engine loads
    for an instance (a snapshot and the events after it) rehydrates to the
    replay of the whole stream; the version is the length of the stream; and
    that state is one the published definition of the instance can reach
    through its own decisions. *)
Theorem loaded_instance_is_its_history {S} `{LawfulStore S} registry s pending tenant instance loaded :
  engine_reachable registry (s, pending) →
  load s tenant instance = Ok loaded →
  let stream := sv_stream (view s) (tenant, instance) in
  loaded_state loaded = replay_events stream ∧
  li_version loaded = N.of_nat (length stream) ∧
  (stream ≠ [] → ∃ d, registry (wd_tenant_id d) (wd_workflow_type d) (wd_workflow_version d) = Some d ∧
     wd_tenant_id d = tenant ∧ instance_reachable d (loaded_state loaded)).
Proof.
  intros Hreach%engine_reachable_inv (Hver & Hsnap & Hev)%load_law stream.
  destruct (loaded_view registry _ _ _ (sy_streams _ _ Hreach (tenant, instance)) Hsnap Hev)
    as [Hstate Hown].
  split_and!; [done|done|]. intros Hne. destruct Hown as [Hnil|(d & Hd & _)]; [done|].
  exists d. rewrite Hstate. split_and!; [apply Hd|symmetry; apply Hd|by eapply history_reachable; right].
Qed.

Lemma loaded_instance_is_its_history_witness :
  match load store_reviewed "acme" "order-1" with
  | Ok loaded =>
      loaded_state loaded = replay_events (sv_stream (view store_reviewed) ("acme", "order-1"))
  | _ => False
  end.
Proof.
  destruct store_reviewed_reachable as [pending Hreach].
  assert (is_ok (load store_reviewed "acme" "order-1") = true) as Hok by (vm_compute; reflexivity).
  destruct (load store_reviewed "acme" "order-1") as [loaded| |] eqn:Hload; [|done..].
  exact (proj1 (loaded_instance_is_its_history example_registry store_reviewed pending "acme"
    "order-1" loaded Hreach Hload)).
Defined.

(** ** Committing *)

(** C16: Commits are serial. Although a handler plans its commit on the
    stream it loaded and other handlers may commit before it does, a commit
    that succeeds is the decision of the registered definition on the stream
    as it is at that moment: it appends exactly the decided events there, and
    leaves every other stream alone. *)
Theorem commits_are_serial {S} `{LawfulStore S} registry s pending c s' result :
  engine_reachable registry (s, pending) → c ∈ pending →
  commit c s = (s', Ok (Committed result)) →
  let stream := sv_stream (view s) (stream_key c) in
  (∃ d cfg vars cmd, registry (wd_tenant_id d) (wd_workflow_type d) (wd_workflow_version d) = Some d ∧
     Workflow.decide d (replay_events stream) (mkContext cfg vars) cmd = Ok (ee_event <$> cq_events c)) ∧
  sv_stream (view s') (stream_key c) = stream ++ cq_events c ∧
  ∀ k, k ≠ stream_key c → sv_stream (view s') k = sv_stream (view s) k.
Proof.
  intros Hreach%engine_reachable_inv Hc (Hacc & _ & Hview)%commit_law stream.
  pose proof (proj1 (Forall_forall _ _) (sy_planned _ _ Hreach) c Hc) as Hpl.
  split_and!.
  - destruct (pl_base _ _ _ Hpl) as (d & base & tail & cfg & vars & cmd & Hst & Hver & Hreg & _ & _ & _ &
      Hdec & _). exists d, cfg, vars, cmd. split; [done|].
    assert (tail = []) as ->.
    { apply (f_equal length) in Hst. simpl in Hst. rewrite length_app in Hst.
      rewrite (ac_version _ _ Hacc) in Hver. apply length_zero_iff_nil. lia. }
    rewrite app_nil_r in Hst. simpl in Hst. by unfold stream; rewrite Hst.
  - rewrite Hview. unfold view_append, set_at. simpl. by rewrite decide_True.
  - intros k Hk. rewrite Hview. unfold view_append, set_at. simpl. by rewrite decide_False.
Qed.

Definition example_plan (command_id : string) (command : Command) (s : MemoryState) :
    option CommitRequest :=
  match load s "acme" "order-1" with
  | Ok loaded =>
      match plan_commit definition (example_request command_id command) example_principal config
              loaded with
      | Ok c => Some c
      | _ => None
      end
  | _ => None
  end.

Lemma example_plan_step command_id command s pending c :
  example_plan command_id command s = Some c →
  engine_step example_registry (s, pending) (s, c :: pending).
Proof.
  unfold example_plan. destruct (load s "acme" "order-1") as [loaded| |] eqn:Hload; [|done..].
  destruct (plan_commit _ _ _ _ _) as [c'| |] eqn:Hplan; [|done..]. intros [= <-].
  eapply (step_plan _ s pending definition (example_request command_id command));
    [exact example_registered|vm_compute; reflexivity|exact config_is_ok|exact Hload|exact Hplan].
Qed.

Definition example_commits (command_id : string) (command : Command) (s : MemoryState) : bool :=
  match example_plan command_id command s with
  | Some c => match (commit c s).2 with Ok (Committed _) => true | _ => false end
  | None => false
  end.

Lemma commits_are_serial_witness :
  match example_plan "c2" (CompleteUserTask "review" "approve" 2) store_started with
  | Some c =>
      sv_stream (view (commit c store_started).1) (stream_key c) =
      sv_stream (view store_started) (stream_key c) ++ cq_events c
  | None => False
  end.
Proof.
  destruct store_started_reachable as [pending Hreach].
  assert (example_commits "c2" (CompleteUserTask "review" "approve" 2) store_started = true) as Hok
    by (vm_compute; reflexivity).
  unfold example_commits in Hok.
  destruct (example_plan _ _ store_started) as [c|] eqn:Hplan; [|done].
  pose proof (engine_continue _ _ _ Hreach (example_plan_step _ _ _ pending _ Hplan)) as Hreach'.
  destruct (commit c store_started) as [s' r] eqn:Hcommit. simpl in Hok.
  destruct r as [[result|result]| |]; [|discriminate Hok..].
  exact (proj1 (proj2 (commits_are_serial example_registry store_started (c :: pending) c s' result
    Hreach' (list_elem_of_here c pending) Hcommit))).
Defined.

(** C26: A command is handled once. After a run of [handle] that succeeds,
    and whatever other handlers commit in the meantime, the same request gets
    the recorded result as a duplicate and changes nothing, while another
    command under the same key is refused. *)
Theorem handle_is_idempotent {S} `{LawfulStore S} registry authorize resolve d request request'
    s s1 outcome s2 pending pending' :
  handle authorize resolve d request s = (s1, Ok outcome) →
  rtc (engine_step registry) (s1, pending) (s2, pending') →
  authorize (authorization_request d request') = authorize (authorization_request d request) →
  rq_tenant_id request' = rq_tenant_id request →
  rq_idempotency_key request' = rq_idempotency_key request →
  ∃ result, (outcome = Handle_Committed result ∨ outcome = Handle_Duplicate result) ∧
    handle authorize resolve d request' s2 =
      (s2, if decide (rq_command_id request' = rq_command_id request)
           then Ok (Handle_Duplicate result) else Err (Engine_Store IdempotencyConflict)).
Proof. apply handle_again. Qed.

Lemma handle_is_idempotent_witness :
  ∃ result, example_handle "c1" (StartWorkflow "acme" 1) store_reviewed =
    (store_reviewed, Ok (Handle_Duplicate result)).
Proof.
  assert (is_ok (example_handle "c1" (StartWorkflow "acme" 1) MemoryState_default).2 = true) as Hok
    by (vm_compute; reflexivity).
  apply is_ok_true in Hok as [outcome Hrun].
  destruct (example_steps store_started [] "c2" (CompleteUserTask "review" "approve" 2))
    as [pending' Hsteps].
  destruct (handle_is_idempotent example_registry example_authorize example_resolve definition
    (example_request "c1" (StartWorkflow "acme" 1)) (example_request "c1" (StartWorkflow "acme" 1))
    MemoryState_default store_started outcome store_reviewed [] pending') as (result & _ & H).
  - exact (eq_trans (surjective_pairing (example_handle "c1" (StartWorkflow "acme" 1)
      MemoryState_default)) (f_equal (pair store_started) Hrun)).
  - exact Hsteps.
  - reflexivity.
  - reflexivity.
  - reflexivity.
  - exists result. exact H.
Defined.

(** Event ids are unique within a tenant, across instances and
    interleavings: two stored events of a tenant with the same id are the same
    event of the same instance. *)
Theorem event_ids_are_unique {S} `{LawfulStore S} registry s pending tenant i1 i2 e1 e2 :
  engine_reachable registry (s, pending) →
  e1 ∈ sv_stream (view s) (tenant, i1) → e2 ∈ sv_stream (view s) (tenant, i2) →
  em_event_id (ee_metadata e1) = em_event_id (ee_metadata e2) → i1 = i2 ∧ e1 = e2.
Proof.
  intros Hreach%engine_reachable_inv He1 He2 Hid.
  destruct (stream_history registry _ _ _ (sy_streams _ _ Hreach _) He1) as (d1 & Hd1 & Hb1 & Hid1).
  destruct (stream_history registry _ _ _ (sy_streams _ _ Hreach _) He2) as (d2 & Hd2 & Hb2 & Hid2).
  rewrite Hid1, Hid2 in Hid.
  apply last_separator in Hid as [Hcmd Hseq]; [|by apply contains_pretty..].
  apply (inj pretty) in Hseq.
  destruct (sy_audited _ _ Hreach _ _ He1) as (a1 & Ha1 & Hi1 & _).
  destruct (sy_audited _ _ Hreach _ _ He2) as (a2 & Ha2 & Hi2 & _). simpl in *.
  assert (i1 = i2) as <- by congruence. split; [done|].
  apply list_elem_of_lookup in He1 as [j1 Hj1], He2 as [j2 Hj2].
  pose proof (contiguous_from_lookup _ _ _ _ (hi_numbered _ _ _ _ Hd1) Hj1).
  pose proof (contiguous_from_lookup _ _ _ _ (hi_numbered _ _ _ _ Hd2) Hj2).
  assert (j1 = j2) as -> by lia. congruence.
Qed.

Lemma event_ids_are_unique_witness :
  match sv_stream (view store_reviewed) ("acme", "order-1") with
  | e :: _ => ∀ i e', e' ∈ sv_stream (view store_reviewed) ("acme", i) →
      em_event_id (ee_metadata e') = "c1:1" → i = "order-1" ∧ e' = e
  | [] => False
  end.
Proof.
  destruct store_reviewed_reachable as [pending Hreach].
  assert (match sv_stream (view store_reviewed) ("acme", "order-1") with
          | e :: _ => em_event_id (ee_metadata e) | [] => "" end = "c1:1") as Hid
    by (vm_compute; reflexivity).
  destruct (sv_stream (view store_reviewed) ("acme", "order-1")) as [|e l] eqn:Hstream; [done|].
  intros i e' He' Hid'.
  apply (event_ids_are_unique example_registry store_reviewed pending "acme" i "order-1" e' e Hreach He').
  - rewrite Hstream. by left.
  - by rewrite Hid', Hid.
Defined.

(** Every event in the store has an authorization audit, recorded under
    its tenant and causing command, that names its instance and agrees with
    the event on actor, command, correlation, policy and configuration. *)
Theorem committed_events_are_audited {S} `{LawfulStore S} registry s pending tenant instance e :
  engine_reachable registry (s, pending) → e ∈ sv_stream (view s) (tenant, instance) →
  ∃ audit, sv_audit (view s) (tenant, em_causation_command_id (ee_metadata e)) = Some audit ∧
    au_instance_id audit = instance ∧ audit_covers_event audit e = true.
Proof. intros Hreach%engine_reachable_inv He. exact (sy_audited _ _ Hreach _ _ He). Qed.

Lemma committed_events_are_audited_witness :
  Forall (λ e, ∃ audit, sv_audit (view store_reviewed)
      ("acme", em_causation_command_id (ee_metadata e)) = Some audit ∧
      au_instance_id audit = "order-1" ∧ audit_covers_event audit e = true)
    (sv_stream (view store_reviewed) ("acme", "order-1")).
Proof.
  destruct store_reviewed_reachable as [pending Hreach]. apply Forall_forall. intros e He.
  exact (committed_events_are_audited example_registry store_reviewed pending "acme" "order-1" e
    Hreach He).
Defined.

(** ** The handler does not panic *)
Lemma attach_from_no_panic d request actor cfg version ordinal events m :
  attach_from d request actor cfg version ordinal events ≠ Panic m.
Proof.
  revert ordinal. induction events as [|e events IH]; intros ordinal H; simpl in H; [done|].
  apply bind_Panic in H as [H|(? & _ & H)]; [unfold attach_one in H; by no_panic H|].
  apply bind_Panic in H as [H|(? & _ & H)]; [by apply IH in H|done].
Qed.

Lemma snapshot_no_panic d request cfg st events m :
  en_snapshot_interval_events (rc_engine cfg) ≠ 0%N →
  snapshot_at_latest_boundary d request cfg st events ≠ Panic m.
Proof.
  intros Hi H. unfold snapshot_at_latest_boundary in H.
  apply bind_Panic in H as [H|([? ?] & _ & H)]; [|done]. revert H.
  apply for_each_no_panic. intros [st' latest] e. unfold snapshot_turn.
  rewrite (proj2 (N.eqb_neq _ _) Hi). by destruct (_ =? _)%N.
Qed.

Lemma plan_commit_no_panic d request principal cfg loaded m :
  en_snapshot_interval_events (rc_engine cfg) ≠ 0%N →
  plan_commit d request principal cfg loaded ≠ Panic m.
Proof.
  intros Hi H. unfold plan_commit in H. cbv zeta in H.
  apply bind_Panic in H as [H|(? & _ & H)]; [by apply bail_if_Panic in H|].
  apply bind_Panic in H as [H|(? & _ & H)]; [by apply bail_if_Panic in H|].
  apply bind_Panic in H as [H|(? & _ & H)]; [apply map_err_Panic in H; by apply decide_no_panic in H|].
  apply bind_Panic in H as [H|(? & _ & H)]; [by apply attach_from_no_panic in H|].
  apply bind_Panic in H as [H|(? & _ & H)]; [unfold committed_result in H; by no_panic H|].
  apply bind_Panic in H as [H|(? & _ & H)]; [by apply snapshot_no_panic in H|].
  by destruct (transition_selector _ _).
Qed.

(** A planned commit stays within the range of [u64]. *)
Lemma plan_commit_bounded d request principal cfg loaded c :
  plan_commit d request principal cfg loaded = Ok c →
  (cq_expected_version c + N.of_nat (length (cq_events c)) ≤ u64_max)%N.
Proof.
  unfold plan_commit. cbv zeta. intros H.
  apply bind_Ok in H as (? & _ & H). apply bind_Ok in H as (? & _ & H).
  apply bind_Ok in H as (evs & _ & H). apply bind_Ok in H as (envs & _ & H).
  apply bind_Ok in H as (result & Hres & H). apply bind_Ok in H as (snap & _ & H).
  unfold committed_result in Hres. apply bind_Ok in Hres as (n & Hn%ok_or_Ok & Hres).
  apply bind_Ok in Hres as (version & Hbound%ok_or_Ok & _).
  apply u64_of_usize_Some in Hn as [-> _]. apply checked_add_Some in Hbound as [_ Hbound].
  destruct (transition_selector _ _). by injection H as <-.
Qed.

(** With the in-memory store, the command handler never panics: not in
    its decision, its bookkeeping or its commit, at any stream length, as long
    as the authorization and configuration providers do not and published
    configurations have a snapshot interval. In particular the lock of the
    store is never poisoned. *)
Theorem memory_handle_never_panics encode authorize resolve d request s s' m :
  (∀ q, authorize q ≠ Panic m) → (∀ l, resolve l ≠ Panic m) →
  (∀ l cfg, resolve l = Ok cfg → en_snapshot_interval_events (rc_engine cfg) ≠ 0%N) →
  @handle MemoryState (memory_port encode) authorize resolve d request s ≠ (s', Panic m).
Proof.
  intros Ha Hr Hi H. unfold handle in H. rewrite bail_if_then in H. case_bool_decide; [done|].
  rewrite lift_then in H. destruct (map_err _ _) as [principal| |] eqn:Hauth in H; [|done|].
  2: { injection H as <- <-. apply map_err_Panic in Hauth. by apply Ha in Hauth. }
  rewrite read_then in H. simpl in H. unfold memory_lookup_idempotency in H.
  destruct (ms_idempotency s !! _) as [stored|]; [by case_decide|]. cbn [map_err] in H.
  rewrite lift_then in H. destruct (map_err _ _) as [cfg| |] eqn:Hcfg in H; [|done|].
  2: { injection H as <- <-. apply map_err_Panic in Hcfg. by apply Hr in Hcfg. }
  apply map_err_Ok in Hcfg. rewrite lift_then in H.
  destruct (validate_configuration_binding _ _ _) as [[]| |] eqn:Hbind; [|done|].
  2: { unfold validate_configuration_binding in Hbind. by no_panic Hbind. }
  rewrite read_then in H. simpl in H. unfold memory_load in H.
  destruct (u64_of_usize _); simpl in H; [|done].
  rewrite lift_then in H. destruct (plan_commit _ _ _ _ _) as [c| |] eqn:Hplan; [|done|].
  2: { injection H as <- <-. by apply (plan_commit_no_panic _ _ _ _ _ _ (Hi _ _ Hcfg)) in Hplan. }
  unfold call, mbind, method_bind in H. simpl in H.
  destruct (memory_commit encode c s) as [s1 r] eqn:Hcommit.
  destruct r as [outcome|e|p]; simpl in H; [done|done|]. injection H as <- <-.
  apply memory_commit_no_panic in Hcommit; [done|]. by eapply plan_commit_bounded.
Qed.

Lemma memory_handle_never_panics_witness :
  example_handle "c1" (StartWorkflow "acme" 1) MemoryState_default ≠
    (store_started, Panic "attempt to add with overflow").
Proof.
  apply (memory_handle_never_panics example_encode example_authorize example_resolve).
  - intros q. discriminate.
  - intros l. discriminate.
  - intros l cfg [= <-]. discriminate.
Defined.
