(* ===== verification/OutboxTheorems.v ===== *)
(** * Theorems on publication

    The publishers with any lawful outbox, and the chain from a commit of the
    engine to its publication over the in-memory store. *)

From S2P Require Import Prelude Types Config WorkflowDef Evolve Decide Examples.
From S2P Require Import Effects Outbox Ports Engine EngineSpec Wire EventCodec MemoryStore.
From S2P Require Import EngineTheorems.
From stdpp Require Import options.

(** The programs that publish: workers of any configuration. *)
Definition publishes (p : prog outbox_op unit) : Prop :=
  ∃ config turns, p = outbox_worker config turns.

(** ** A broker that fails every other time *)
Definition flaky (b : bool) (r : OutboxRecord) (x : res OutboxError PublishAcknowledgement)
    (b' : bool) : Prop :=
  b' = negb b ∧ x = if b then Ok (mkAck (ob_event_id r)) else Err (BrokerUnavailable "busy").
Definition two_attempts : OutboxPublisherConfig := mkPublisherConfig 2 2 10 100 2000.
(** The store after the engine has committed its first command. *)
Definition store_committed : MemoryState :=
  match example_plan "c1" (StartWorkflow "acme" 1) MemoryState_default with
  | Some c => (commit c MemoryState_default).1
  | None => MemoryState_default
  end.
Definition world_started : OutboxWorld MemoryState bool := mkOutboxWorld store_committed false [] [].

Lemma flaky_total b r : ∃ x b', flaky b r x b'.
Proof. by eexists _, _. Qed.
Lemma flaky_answers r b : answers flaky 2 r b.
Proof. intros x b1 [-> ->]. destruct b; [done|]. by intros x b2 [-> ->]. Qed.

Lemma flaky_runs config turns (w : OutboxWorld MemoryState bool) :
  ∃ w', exec (outbox_handle flaky) (outbox_worker config turns) w tt w'.
Proof.
  destruct (exec_total (outbox_handle flaky) (outbox_worker config turns) w) as ([] & w' & Hw);
    [|by exists w'].
  intros X op w1. destruct op as [| |expected committed|r|ms]; simpl;
    [by eauto|by eauto| | |exists tt; by eauto].
  - destruct (memory_checkpoint expected committed (ow_store w1)) as [s' x]. eauto 6.
  - destruct (flaky_total (ow_broker w1) r) as (answer & b' & Hb). eauto 6.
Qed.

Lemma started_numbered : numbered_from 1 (ms_outbox store_committed).
Proof. vm_compute. tauto. Qed.

(** C27: Whatever the broker answers, however many publishers run, stop or
    start, and however commits interleave with them: a record at or below the
    checkpoint has been acknowledged by the broker, and a record is never
    delivered before each earlier record has been acknowledged. *)
Theorem publication_is_complete_and_ordered {S} `{LawfulOutbox S} {B}
    (broker : B → OutboxRecord → res OutboxError PublishAcknowledgement → B → Prop) w ps w' :
  numbered_from 1 (outbox_log (ow_store w)) → outbox_cursor (ow_store w) = 0%N →
  ow_deliveries w = [] →
  rtc (pool_step (outbox_handle broker) outbox_grows publishes) ([], w) (ps, w') →
  (∀ r, r ∈ outbox_log (ow_store w') → (ob_cursor r ≤ outbox_cursor (ow_store w'))%N →
     acknowledged (ow_deliveries w') r) ∧
  (∀ before r answer after, ow_deliveries w' = before ++ (r, answer) :: after →
     ∀ r', r' ∈ outbox_log (ow_store w') → (ob_cursor r' < ob_cursor r)%N →
       acknowledged before r').
Proof.
  intros Hnum Hcur Hdel Hrun.
  assert (outbox_inv w') as [_ _ Hack Horder].
  { eapply (outbox_pool_inv broker w ps w'); [|exact Hrun]. by apply outbox_inv_start. }
  split; [done|]. intros before r answer after Hl. by apply (Horder _ _ _ _ Hl).
Qed.

Lemma publication_is_complete_and_ordered_witness :
  ∃ w', exec (outbox_handle flaky) (outbox_worker two_attempts 2) world_started tt w' ∧
    ∀ r, r ∈ ms_outbox (ow_store w') → (ob_cursor r ≤ ms_outbox_checkpoint (ow_store w'))%N →
      acknowledged (ow_deliveries w') r.
Proof.
  destruct (flaky_runs two_attempts 2 world_started) as [w' Hrun]. exists w'. split; [exact Hrun|].
  refine (proj1 (publication_is_complete_and_ordered flaky world_started [Done tt] w' _ _ _ _)).
  - exact started_numbered.
  - vm_compute. reflexivity.
  - reflexivity.
  - eapply rtc_l; [|exact (exec_pool _ _ _ _ _ _ _ Hrun)]. apply (pool_spawn _ _ _ []).
    by exists two_attempts, 2.
Defined.

(** C22: The outbox drains. With a store that answers and a broker that
    acknowledges each record within the configured number of attempts, a
    worker terminates, and once its turns cover the backlog every record has
    been acknowledged and the checkpoint is at the end of the log. *)
Theorem outbox_drains {S} `{LawfulOutbox S} (up : S → Prop) `{!AvailableOutbox S up} {B}
    (broker : B → OutboxRecord → res OutboxError PublishAcknowledgement → B → Prop)
    config turns (w : OutboxWorld S B) :
  (∀ b r, ∃ answer b', broker b r answer b') →
  (∀ r b, answers broker (N.to_nat (pc_max_publish_attempts config)) r b) →
  pc_batch_size config ≠ 0 →
  outbox_inv w → up (ow_store w) → forallb publishable (outbox_log (ow_store w)) = true →
  (N.of_nat (length (outbox_log (ow_store w))) ≤
     outbox_cursor (ow_store w) + N.of_nat (turns * pc_batch_size config))%N →
  (∃ w', exec (outbox_handle broker) (outbox_worker config turns) w tt w') ∧
  ∀ w', exec (outbox_handle broker) (outbox_worker config turns) w tt w' →
    outbox_log (ow_store w') = outbox_log (ow_store w) ∧
    outbox_cursor (ow_store w') = N.of_nat (length (outbox_log (ow_store w))) ∧
    Forall (acknowledged (ow_deliveries w')) (outbox_log (ow_store w)).
Proof.
  intros Htotal Hans Hbatch HI Hup Hpub Hturns. split.
  - destruct (exec_total (outbox_handle broker) (outbox_worker config turns) w) as ([] & w' & Hw);
      [|by exists w'].
    intros X op w1. destruct op as [| |expected committed|r|ms]; simpl; [by eauto|by eauto| | |exists tt; by eauto].
    + destruct (checkpoint expected committed (ow_store w1)) as [s' x]. eauto 6.
    + destruct (Htotal (ow_broker w1) r) as (answer & b' & Hb). eauto 6.
  - intros w' Hrun.
    destruct (outbox_worker_complete broker up config turns w w') as (HI' & Hlog & Hcur); [done..|].
    assert (outbox_cursor (ow_store w') = N.of_nat (length (outbox_log (ow_store w)))) as Hend by lia.
    split_and!; [done|done|]. apply Forall_forall. intros r Hr.
    apply (oi_acknowledged _ HI'); [by rewrite Hlog|]. rewrite Hend.
    pose proof (numbered_bounds _ _ _ (oi_numbered _ HI) Hr). lia.
Qed.

Lemma outbox_drains_witness :
  ∃ w', exec (outbox_handle flaky) (outbox_worker two_attempts 2) world_started tt w' ∧
    ms_outbox_checkpoint (ow_store w') = 3%N.
Proof.
  destruct (outbox_drains (λ s, N.of_nat (length (ms_outbox s)) ≤ u64_max)%N flaky two_attempts 2
    world_started) as [[w' Hrun] Hend].
  - exact flaky_total.
  - exact flaky_answers.
  - discriminate.
  - apply outbox_inv_start; [exact started_numbered|vm_compute; reflexivity|reflexivity].
  - vm_compute. discriminate.
  - vm_compute. reflexivity.
  - vm_compute. discriminate.
  - exists w'. split; [exact Hrun|]. destruct (Hend w' Hrun) as (_ & Hcur & _). simpl in Hcur. rewrite Hcur. vm_compute. reflexivity.
Defined.

(** ** From the commit to the broker *)
Section chain.
Context {B : Type} (broker : B → OutboxRecord → res OutboxError PublishAcknowledgement → B → Prop).
Context (encode_to_vec : Wire.EventEnvelope → string).

(** A handler of the engine commits what it has planned. *)
Definition engine_commits (w w' : OutboxWorld MemoryState B) : Prop :=
  ∃ d request principal cfg loaded c r,
    plan_commit d request principal cfg loaded = Ok c ∧
    memory_commit encode_to_vec c (ow_store w) = (ow_store w', r) ∧
    ow_broker w' = ow_broker w ∧ ow_deliveries w' = ow_deliveries w ∧ ow_waits w' = ow_waits w.

Definition chain_step := pool_step (outbox_handle broker) engine_commits publishes.
Definition chain_start (b : B) : OutboxWorld MemoryState B := mkOutboxWorld MemoryState_default b [] [].

Lemma plan_commit_event_ids d request principal cfg loaded c e :
  plan_commit d request principal cfg loaded = Ok c → e ∈ cq_events c →
  em_event_id (ee_metadata e) ≠ "".
Proof.
  unfold plan_commit. cbv zeta. intros H He.
  apply bind_Ok in H as (? & _ & H). apply bind_Ok in H as (? & _ & H).
  apply bind_Ok in H as (evs & _ & H). apply bind_Ok in H as (envs & Hatt & H).
  apply bind_Ok in H as (result & _ & H). apply bind_Ok in H as (snap & _ & H).
  apply attach_from_Ok in Hatt as (_ & _ & Hst).
  destruct (transition_selector _ _). injection H as <-. simpl in He.
  rewrite Forall_forall in Hst. rewrite (se_event_id _ _ _ (Hst e He)).
  destruct (rq_command_id request); discriminate.
Qed.

Lemma engine_commits_grow w w' :
  engine_commits w w' → outbox_grows w w'.
Proof.
  intros (d & request & principal & cfg & loaded & c & r & _ & Hcommit & _ & Hdel & _).
  apply memory_commit_grows in Hcommit as (Hcp & new & Hlog & Hnum). by exists new.
Qed.

(** The payload of a message with metadata is not empty. *)
Hypothesis encode_not_empty : ∀ e, encode_to_vec (to_wire e) ≠ "".

Definition chain_inv (w : OutboxWorld MemoryState B) : Prop :=
  memory_inv encode_to_vec (ow_store w) ∧ forallb publishable (ms_outbox (ow_store w)) = true.

Lemma announced_publishable records events :
  Forall2 (announces encode_to_vec) records events →
  (∀ e, e ∈ events → em_event_id (ee_metadata e) ≠ "") → forallb publishable records = true.
Proof using encode_not_empty.
  induction 1 as [|r e records events [Hid Hpay] _ IH]; intros Hev; [done|]. simpl.
  rewrite IH by set_solver. unfold publishable. rewrite Hid, Hpay.
  rewrite !bool_decide_false; [done|apply encode_not_empty|]. apply Hev. by left.
Qed.

Lemma engine_commits_inv w w' : engine_commits w w' → chain_inv w → chain_inv w'.
Proof using encode_not_empty.
  intros (d & request & principal & cfg & loaded & c & r & Hplan & Hcommit & _) [HI Hpub].
  split; [by eapply memory_inv_commit|].
  apply memory_commit_cases in Hcommit. destruct r as [[result|result]|e|p].
  - destruct Hcommit as (tail & records & _ & _ & _ & Htail & Hrec & _ & _ & _ & ->). simpl.
    rewrite forallb_app, Hpub. simpl. apply outbox_records_Ok in Hrec as (_ & _ & Hann).
    eapply announced_publishable; [exact Hann|]. intros e. by eapply plan_commit_event_ids.
  - by destruct Hcommit as [_ ->].
  - by destruct Hcommit as [->| ->].
  - by destruct Hcommit as [->| ->].
Qed.

Lemma outbox_handle_chain X (op : outbox_op X) w x w' :
  outbox_handle broker X op w x w' → chain_inv w → chain_inv w'.
Proof.
  destruct op as [| |expected committed|r|ms]; simpl.
  - by intros [_ ->].
  - by intros [_ ->].
  - intros (s' & Hck & ->) [HI Hpub]. split; simpl.
    + by eapply memory_inv_checkpoint.
    + pose proof (proj1 (@checkpoint_law _ _ memory_lawful_outbox _ _ _ _ _ Hck)) as Hlog.
      simpl in Hlog. by rewrite Hlog.
  - by intros (b' & _ & ->).
  - by intros ->.
Qed.

Lemma chain_reached b ps w :
  rtc chain_step ([], chain_start b) (ps, w) → chain_inv w ∧ outbox_inv w.
Proof using encode_not_empty.
  intros Hrun. split.
  - eapply (pool_invariant _ chain_inv); [|exact engine_commits_inv|exact Hrun|].
    + intros X op w1 x w2. apply outbox_handle_chain.
    + split; [apply memory_inv_default|done].
  - eapply (outbox_pool_inv broker (chain_start b)); [by apply outbox_inv_start|].
    eapply rtc_subrel; [|exact Hrun]. intros s s' Hstep.
    inversion Hstep; subst; [by eapply pool_call| |by apply pool_spawn].
    by apply pool_env, engine_commits_grow.
Qed.
End chain.

(** C19: Every event the engine commits is published. Handlers of the engine
    commit to the in-memory store while publishers run, in any interleaving;
    then the records of each instance in the outbox announce the events of its
    stream, one each and in order, and once a worker has run long enough with
    a broker that answers, each of them has been acknowledged. *)
Theorem committed_events_are_published {B}
    (broker : B → OutboxRecord → res OutboxError PublishAcknowledgement → B → Prop)
    encode_to_vec b ps w config turns w' :
  (∀ e, encode_to_vec (to_wire e) ≠ "") →
  (∀ r b, answers broker (N.to_nat (pc_max_publish_attempts config)) r b) →
  pc_batch_size config ≠ 0 →
  rtc (chain_step broker encode_to_vec) ([], chain_start b) (ps, w) →
  (N.of_nat (length (ms_outbox (ow_store w))) ≤ u64_max)%N →
  length (ms_outbox (ow_store w)) ≤ turns * pc_batch_size config →
  exec (outbox_handle broker) (outbox_worker config turns) w tt w' →
  ∀ k, let records := records_of k (ms_outbox (ow_store w)) in
    Forall2 (announces encode_to_vec) records (sv_stream (memory_view (ow_store w)) k) ∧
    Forall (acknowledged (ow_deliveries w')) records.
Proof.
  intros Henc Hans Hbatch Hreach Hmax Hturns Hrun k records.
  destruct (chain_reached broker encode_to_vec Henc b ps w Hreach) as [[HM Hpub] HI].
  split; [apply HM|].
  destruct (outbox_worker_complete broker (λ s, N.of_nat (length (ms_outbox s)) ≤ u64_max)%N
    config turns w w') as (HI' & Hlog & Hcur); [done..|]. simpl in *.
  apply Forall_forall. intros r Hr.
  assert (r ∈ ms_outbox (ow_store w)) as Hin.
  { apply list_elem_of_In in Hr. apply filter_In in Hr as [Hr _]. by apply list_elem_of_In. }
  apply (oi_acknowledged _ HI'); simpl; [by rewrite Hlog|]. rewrite Hcur.
  pose proof (numbered_bounds _ _ _ (mi_numbered _ _ HM) Hin). lia.
Qed.

Lemma engine_commits_example : engine_commits example_encode (chain_start false) world_started.
Proof.
  assert (match example_plan "c1" (StartWorkflow "acme" 1) MemoryState_default with
          | Some _ => true | None => false end = true) as Hok by (vm_compute; reflexivity).
  unfold engine_commits, world_started, store_committed. simpl.
  destruct (example_plan _ _ _) as [c|] eqn:Hplan; [clear Hok|discriminate Hok].
  unfold example_plan in Hplan. destruct (load _ _ _) as [loaded| |]; [|discriminate Hplan..].
  destruct (plan_commit _ _ _ _ _) as [c'| |] eqn:Hc; [|discriminate Hplan..].
  injection Hplan as ->. eexists _, _, _, _, _, c, _. split; [exact Hc|].
  split; [apply surjective_pairing|done].
Qed.

Lemma committed_events_are_published_witness :
  ∃ w', exec (outbox_handle flaky) (outbox_worker two_attempts 2) world_started tt w' ∧
    Forall2 (announces example_encode) (records_of ("acme", "order-1") (ms_outbox store_committed))
      (sv_stream (memory_view store_committed) ("acme", "order-1")) ∧
    Forall (acknowledged (ow_deliveries w'))
      (records_of ("acme", "order-1") (ms_outbox store_committed)).
Proof.
  destruct (flaky_runs two_attempts 2 world_started) as [w' Hrun]. exists w'. split; [exact Hrun|].
  refine (committed_events_are_published flaky example_encode false [] world_started two_attempts 2 w'
    _ _ _ _ _ _ Hrun ("acme", "order-1")).
  - intros e. discriminate.
  - exact flaky_answers.
  - discriminate.
  - apply rtc_once, pool_env, engine_commits_example.
  - vm_compute. discriminate.
  - vm_compute. repeat constructor.
Defined.
