(* ===== verification/CodecTheorems.v ===== *)
(** * Theorems on the codecs

    What is written is read back: for single events exactly under
    [wire_envelope], for everything the engine commits, and for snapshots
    taken between decisions.  A snapshot taken inside a decision may be
    unreadable. *)

From S2P Require Import Prelude Types Expr Coverage Config WorkflowDef Routing Text Evolve.
From S2P Require Import Activation Decide MultiInstance Simulation Invariant Loop Decisions.
From S2P Require Import CaseSpec Instance Examples Outbox Ports Engine EngineSpec Wire EventCodec.
From S2P Require Import SnapshotCodec Emission MemoryStore EngineTheorems.
From stdpp Require Import options.

(** The envelope in the current schema; schema 0 had the same fields. *)
Definition upgraded (e : EventEnvelope) : EventEnvelope :=
  let m := ee_metadata e in
  mkEnvelope
    (mkEventMetadata (em_event_id m) (em_tenant_id m) (em_instance_id m) (em_sequence m)
       EVENT_SCHEMA_VERSION (em_correlation_id m) (em_causation_command_id m)
       (em_occurred_at_epoch_ms m) (em_config_version m) (em_policy_version m) (em_actor_id m)
       (em_encryption_key_scope m) (em_workflow_type m) (em_workflow_version m)) (ee_event e).

Lemma upgraded_current e : em_schema_version (ee_metadata e) = EVENT_SCHEMA_VERSION → upgraded e = e.
Proof. destruct e as [[] event]. simpl. by intros ->. Qed.

(** Encoding an event of the current or the previous schema and decoding
    it returns the same event in the current schema, exactly when its texts
    are present and the metadata repeats the tenant and the time of the event;
    whatever the byte format, as long as the message survives it. *)
Theorem event_codec_round_trip encode_to_vec wire_decode envelope :
  wire_decode (encode_to_vec (to_wire envelope)) = inl (to_wire envelope) →
  (em_schema_version (ee_metadata envelope) = EVENT_SCHEMA_VERSION ∨
   em_schema_version (ee_metadata envelope) = 0%N) →
  EventCodec_decode wire_decode (EventCodec_encode encode_to_vec envelope) = Ok (upgraded envelope) ↔
  wire_envelope (upgraded envelope) = true.
Proof.
  intros Hbytes Hv. rewrite <-from_wire_to_wire.
  unfold EventCodec_decode, EventCodec_encode. rewrite Hbytes. simpl.
  destruct envelope as [[] event]. simpl in *. by destruct Hv as [-> | ->].
Qed.


Definition example_event : EventEnvelope :=
  mkEnvelope
    (mkEventMetadata "c1:1" "acme" "order-1" 1 0 "trace" "c1" 1 "1" "1" "alice" "events" "order" "1")
    (WorkflowStarted "acme" "order" "1" "start" 1).
(** A byte format for known events: the id of the event. *)
Definition id_encode (message : Wire.EventEnvelope) : string :=
  match Wire.e_metadata message with Some m => Wire.m_event_id m | None => "" end.
Definition id_decode (known : list EventEnvelope) (bytes : string) : Wire.EventEnvelope + string :=
  match List.find (λ e, bool_decide (em_event_id (ee_metadata e) = bytes)) known with
  | Some e => inl (to_wire e)
  | None => inr "unknown"
  end.

Definition event_ids (events : list EventEnvelope) : list string :=
  (λ e, em_event_id (ee_metadata e)) <$> events.
Lemma id_bytes known e :
  NoDup (event_ids known) → e ∈ known → id_decode known (id_encode (to_wire e)) = inl (to_wire e).
Proof.
  unfold id_decode, id_encode. simpl. intros Hnd He.
  destruct (List.find _ known) as [e'|] eqn:Hf.
  - apply find_some in Hf as [Hin Hid]. apply bool_decide_eq_true in Hid.
    apply list_elem_of_In in Hin. by rewrite (NoDup_fmap_eq _ known e' e Hnd Hin He Hid).
  - apply list_elem_of_In in He. apply (find_none _ _ Hf) in He.
    by apply bool_decide_eq_false in He.
Qed.

Lemma event_codec_round_trip_witness :
  EventCodec_decode (id_decode [example_event]) (EventCodec_encode id_encode example_event) =
    Ok (upgraded example_event).
Proof.
  apply (event_codec_round_trip id_encode (id_decode [example_event]) example_event).
  - vm_compute. reflexivity.
  - right. reflexivity.
  - vm_compute. reflexivity.
Defined.

(** A current event with all its texts survives any byte format that keeps
    its message. *)
Lemma wire_envelope_decodes encode_to_vec wire_decode e :
  wire_decode (encode_to_vec (to_wire e)) = inl (to_wire e) → wire_envelope e = true →
  EventCodec_decode wire_decode (EventCodec_encode encode_to_vec e) = Ok e.
Proof.
  intros Hbytes Hwire. pose proof Hwire as Hw. unfold wire_envelope, wire_metadata in Hw.
  rewrite !andb_true_iff, N.eqb_eq in Hw. destruct_and! Hw. rewrite <-from_wire_to_wire in Hwire.
  unfold EventCodec_decode, EventCodec_encode. rewrite Hbytes. simpl.
  unfold upcast. simpl. rewrite (proj2 (N.eqb_eq _ _)) by done. done.
Qed.

(** ** Everything the engine commits *)

(** The texts of a request, its principal and its configuration. *)
Definition request_texts (request : AuthorizedCommand) (principal : AuthorizedPrincipal)
    (cfg : ResolvedConfigSnapshot) : bool :=
  text_ok (rq_tenant_id request) && text_ok (rq_instance_id request)
  && text_ok (rq_correlation_id request) && text_ok (rq_command_id request)
  && text_ok (rc_config_version cfg) && text_ok (rc_policy_version cfg)
  && text_ok (ap_actor_id principal) && text_ok (rq_encryption_key_scope request).

(** States reached through decisions on commands without blank names. *)
Inductive readable (d : WorkflowDefinition) : InstanceState → Prop :=
| readable_initial : readable d InstanceState_default
| readable_decided st ctx cmd evs :
    readable d st → config_ok (dc_configuration ctx) → command_texts cmd = true →
    Workflow.decide d st ctx cmd = Ok evs → readable d (foldl evolve st evs).

Lemma readable_carried d st :
  definition_texts d → definition_ok d → readable d st → carried st.
Proof.
  intros Ht Hok. induction 1 as [|st ctx cmd evs _ IH Hcfg Hcmd Hdec]; [apply carried_default|].
  eapply replay_carried; [|exact IH]. by eapply decide_sound.
Qed.

Lemma readable_reachable d st : readable d st → instance_reachable d st.
Proof. induction 1; [constructor|]. by eapply instance_decided. Qed.

Lemma attached_wire d request actor cfg version evs envs :
  attach_metadata d request actor cfg version evs = Ok envs →
  rq_tenant_id request = wd_tenant_id d → definition_texts d →
  text_ok (rq_instance_id request) && text_ok (rq_correlation_id request)
    && text_ok (rq_command_id request) && text_ok (rc_config_version cfg)
    && text_ok (rc_policy_version cfg) && text_ok actor
    && text_ok (rq_encryption_key_scope request) = true →
  Forall (sound_event d) evs → Forall (λ e, wire_envelope e = true) envs.
Proof.
  unfold attach_metadata. intros Hatt Ht Hd Hreq Hev. generalize dependent 0. intros ordinal Hatt.
  pose proof (dx_identity _ Hd) as Hid. rewrite !andb_true_iff in Hid.
  rewrite !andb_true_iff in Hreq. destruct_and!.
  revert ordinal envs Hatt. induction Hev as [|e evs [Hw Hs] _ IH]; intros ordinal envs Hatt; simpl in Hatt.
  { injection Hatt as <-. constructor. }
  apply bind_Ok in Hatt as (envelope & Hone & Hatt). apply bind_Ok in Hatt as (rest & Hrest & [= <-]).
  constructor; [|by eapply IH]. unfold attach_one in Hone.
  apply bind_Ok in Hone as (offset & _ & Hone). apply bind_Ok in Hone as (sequence & _ & [= <-]).
  unfold wire_envelope, wire_metadata. simpl. rewrite Ht, N.eqb_refl, !andb_true_iff.
  split_and!; try done. destruct e; try done. simpl in Hs. by rewrite Hs, bool_decide_true.
Qed.

(** C28: Every event the engine plans to commit decodes to itself, when the
    definition has no blank text, the instance is in a state reached through
    such decisions, and the request carries no blank identifier or name. *)
Theorem committed_events_decode encode_to_vec wire_decode d request principal cfg loaded c :
  constructed d → definition_texts d → config_ok cfg →
  rq_tenant_id request = wd_tenant_id d → readable d (loaded_state loaded) →
  command_texts (rq_command request) = true → request_texts request principal cfg = true →
  plan_commit d request principal cfg loaded = Ok c →
  (∀ e, e ∈ cq_events c → wire_decode (encode_to_vec (to_wire e)) = inl (to_wire e)) →
  Forall (λ e, EventCodec_decode wire_decode (EventCodec_encode encode_to_vec e) = Ok e) (cq_events c).
Proof.
  intros Hcons Hd Hcfg Ht Hread Hcmd Hreq H Hbytes.
  pose proof (constructed_ok d Hcons) as Hok.
  pose proof (readable_carried _ _ Hd Hok Hread) as Hcar.
  assert (Forall (λ e, wire_envelope e = true) (cq_events c)) as Hwire.
  { unfold plan_commit in H. cbv zeta in H.
    apply bind_Ok in H as (? & _ & H). apply bind_Ok in H as (? & _ & H).
    apply bind_Ok in H as (evs & Hdec%map_err_Ok & H). apply bind_Ok in H as (envs & Hatt & H).
    apply bind_Ok in H as (result & _ & H). apply bind_Ok in H as (snap & _ & H).
    destruct (transition_selector _ _). injection H as <-. simpl.
    eapply attached_wire; [exact Hatt|done|done| |].
    - unfold request_texts in Hreq. rewrite !andb_true_iff in Hreq. rewrite !andb_true_iff. destruct_and!.
      by split_and!.
    - eapply (decide_sound d _ (mkContext cfg (rq_variables request))); done. }
  rewrite Forall_forall in Hwire |- *. eauto using wire_envelope_decodes.
Qed.

Lemma definition_has_texts : definition_texts definition.
Proof. apply check_definition_texts_ok. vm_compute. reflexivity. Qed.

Definition start_request : AuthorizedCommand := example_request "c1" (StartWorkflow "acme" 1).
Definition empty_instance : LoadedInstance := mkLoaded None [] 0.
Definition start_plan : option CommitRequest :=
  match plan_commit definition start_request example_principal config empty_instance with
  | Ok c => Some c
  | _ => None
  end.

Lemma committed_events_decode_witness :
  match start_plan with
  | Some c =>
      Forall (λ e, EventCodec_decode (id_decode (cq_events c)) (EventCodec_encode id_encode e) = Ok e)
        (cq_events c)
  | None => False
  end.
Proof.
  assert (match start_plan with
          | Some c => bool_decide (NoDup (event_ids (cq_events c)))
          | None => false end = true) as Hok by (vm_compute; reflexivity).
  unfold start_plan in *.
  destruct (plan_commit _ _ _ _ _) as [c| |] eqn:Hplan; [|discriminate Hok..].
  apply (committed_events_decode id_encode (id_decode (cq_events c)) definition start_request
    example_principal config empty_instance c).
  - exact example_constructed.
  - exact definition_has_texts.
  - exact config_is_ok.
  - vm_compute. reflexivity.
  - constructor.
  - reflexivity.
  - vm_compute. reflexivity.
  - exact Hplan.
  - intros e He. apply id_bytes; [|exact He]. exact (proj1 (bool_decide_eq_true _) Hok).
Defined.

(** ** Snapshots *)
Lemma state_inv_counts d st : state_inv d st → counts_ok st.
Proof.
  intros [[Hcore _] _ _]. split.
  - intros k c Hk. apply (inv_tokens _ _ Hcore k c Hk).
  - intros k j Hk. apply (inv_joins _ _ Hcore k j Hk).
  - intros k a Hk. destruct (inv_loops _ _ Hcore k a Hk) as ([[Htot Hcov Hdis Hslots Hpar] _ Hrun] & _).
    assert (∀ i, i ∈ am_active_iterations a ∪ am_completed_iterations a →
      (i < am_next_iteration a)%N) as Hbelow by (intros i; by rewrite Hcov, elem_of_below).
    apply set_choose_L in Hrun as [i Hi]. assert (i < am_next_iteration a)%N by (apply Hbelow; set_solver).
    split_and!; [done|lia|lia|done|done|done].
Qed.


Definition example_snapshot (st : InstanceState) : SnapshotEnvelope :=
  mkSnapshot "acme" "order-1" "order" "1" st "1" "1" "events".

Lemma example_readable st cmds st' :
  forallb command_texts cmds = true → readable definition st → apply_all st cmds = Ok st' →
  readable definition st'.
Proof.
  unfold apply_all. revert st. induction cmds as [|cmd cmds IH]; intros st Hcmds Hst H; simpl in *.
  { by injection H as <-. }
  apply andb_true_iff in Hcmds as [Hcmd Hcmds]. apply bind_Ok in H as (st1 & H1 & H).
  apply bind_Ok in H1 as (evs & Hdec & [= <-]). eapply IH; [done| |exact H].
  exact (readable_decided _ st context cmd evs Hst config_is_ok Hcmd Hdec).
Qed.

Lemma to_pick_readable : readable definition (state_after to_pick).
Proof.
  assert (is_ok (apply_all InstanceState_default to_pick) = true) as Hok by (vm_compute; reflexivity).
  apply is_ok_true in Hok as [st Hst]. unfold state_after. rewrite Hst.
  eapply example_readable; [|apply readable_initial|exact Hst]. vm_compute. reflexivity.
Qed.


(** ** Snapshots inside a decision *)

(** The configuration of the example, with a snapshot every 25 events. *)
Definition frequent_engine : EnginePolicy :=
  {| en_snapshot_interval_events := 25;
     en_max_events_per_decision := en_max_events_per_decision engine;
     en_max_multi_instance_cardinality := en_max_multi_instance_cardinality engine;
     en_default_multi_instance_parallelism := en_default_multi_instance_parallelism engine;
     en_boundary_runtime := en_boundary_runtime engine;
     en_command_timeout_ms := en_command_timeout_ms engine;
     en_optimistic_conflict_retry := en_optimistic_conflict_retry engine;
     en_local_wasm := en_local_wasm engine;
     en_event_payload_key_scope := en_event_payload_key_scope engine;
     en_authorization_audit_key_scope := en_authorization_audit_key_scope engine;
     en_workers := en_workers engine |}.
Definition frequent_config : ResolvedConfigSnapshot :=
  mkConfigSnapshot "cfg" "1" "1" 1 scopes [] frequent_engine.

(** The commands of the complete run through the handler and the in-memory
    store, and the snapshot the store holds in the end. *)
Definition frequent_handle (p : string * Command) (s : MemoryState) : MemoryState :=
  (handle example_authorize (λ _, Ok frequent_config) definition (example_request p.1 p.2) s).1.
Definition store_at_end : MemoryState :=
  foldl (λ s p, frequent_handle p s) MemoryState_default
    (zip ["c1"; "c2"; "c3"; "c4"; "c5"; "c6"; "c7"] to_end).
Definition snapshot_at_end : option SnapshotEnvelope := ms_snapshots store_at_end !! ("acme", "order-1").

(** A snapshot may be unreadable. The engine takes snapshots at fixed
    event counts, also between two events of one decision; when the count
    falls on the token that completes a join, the stored state has a join
    with all its tokens and the decoder rejects it. The example completes a
    run of a valid definition under a valid configuration. *)
Theorem snapshot_inside_decision_unreadable :
  ResolvedConfigSnapshot_new "cfg" "1" "1" 1 scopes [] frequent_engine = Ok frequent_config ∧
  match snapshot_at_end with
  | Some s => snapshot_from_wire (snapshot_to_wire s) = Err InvalidTokenState
  | None => False
  end.
Proof. split; vm_compute; reflexivity. Qed.
