(* ===== verification/BoundaryTheorems.v ===== *)
(** * Theorems on boundary events

    The boundary workers over the in-memory stores, together with the engine:
    handlers commit, workers project and dispatch back into the engine, in
    any interleaving. *)

From S2P Require Import Prelude Types Expr Coverage Config WorkflowDef Routing Text Evolve.
From S2P Require Import Activation Decide Invariant Loop Decisions Instance Errors Examples.
From S2P Require Import Effects Outbox Ports Engine EngineSpec Wire EventCodec MemoryStore.
From S2P Require Import BoundaryTimer Boundary BoundaryStore BoundarySpec BoundaryProofs.
From S2P Require Import BoundaryDispatch EngineTheorems CodecTheorems.
From stdpp Require Import options.

(** ** The engine and the boundary workers *)

(** A store beside which commits are planned. *)
#[export] Instance planning_outbox {S T} `{OutboxStorePort S} : OutboxStorePort (S * T) := {
  publisher_checkpoint s := publisher_checkpoint s.1;
  read_after s := read_after s.1;
  checkpoint expected committed s :=
    let '(s', r) := checkpoint expected committed s.1 in ((s', s.2), r) }.
#[export] Program Instance planning_lawful {S T} `{LawfulOutbox S} : LawfulOutbox (S * T) := {|
  outbox_log s := outbox_log s.1;
  outbox_cursor s := outbox_cursor s.1 |}.
Next Obligation. intros S T H H0 [s t] c. exact (publisher_checkpoint_law s c). Qed.
Next Obligation. intros S T H H0 [s t] c limit l. exact (read_after_law s c limit l). Qed.
Next Obligation.
  intros S T H H0 expected committed [s t] s' r. simpl.
  destruct (checkpoint expected committed s) as [s1 r1] eqn:Hc. intros [= <- <-].
  exact (checkpoint_law _ _ _ _ _ Hc).
Qed.

Lemma log_grows_trans {S} `{LawfulOutbox S} (s1 s2 s3 : S) :
  log_grows s1 s2 → log_grows s2 s3 → log_grows s1 s3.
Proof.
  intros (l1 & H1 & N1) (l2 & H2 & N2). exists (l1 ++ l2).
  split; [by rewrite H2, H1, (assoc_L (++))|]. apply numbered_app. split; [done|].
  replace (N.of_nat (length (outbox_log s1)) + 1 + N.of_nat (length l1))%N
    with (N.of_nat (length (outbox_log s2)) + 1)%N; [done|]. rewrite H1, length_app. lia.
Qed.

Section system.
Context (encode_to_vec : Wire.EventEnvelope → string).
Context (wire_decode : string → Wire.EventEnvelope + string) (codec_display : EventCodecError → string).
Context (parse_rfc3339 : string → option Z).
Context (registry : TenantId → WorkflowType → WorkflowVersion → option WorkflowDefinition).
Context (authorize : AuthorizationRequest → res AuthorizationError AuthorizedPrincipal).
Context (resolve : ConfigurationLookup → res ConfigError ResolvedConfigSnapshot).
Context (definitions : TenantId → WorkflowType → WorkflowVersion → boundary_res WorkflowDefinition).
Context (credentials : BoundaryDispatchRequest → boundary_res BoundaryDispatchCredentials).
Context (display : EngineError → string).
#[local] Instance system_store : WorkflowStorePort MemoryState := memory_port encode_to_vec.
#[local] Instance system_lawful : LawfulStore MemoryState := memory_lawful encode_to_vec.

Abbreviation Store := (MemoryState * list CommitRequest)%type.
Abbreviation World := (BoundaryWorld (S:=Store)).

(** A dispatch is a run of [engine_dispatch], which is a sequence of steps
    of the engine ([engine_dispatch_steps]). *)
Definition system_dispatch (s : Store) (request : BoundaryDispatchRequest) (x : boundary_res unit)
    (s' : Store) : Prop :=
  engine_dispatch authorize resolve definitions credentials display request s.1 = (s'.1, x) ∧
  rtc (engine_step registry) s s'.

(** Handlers of other commands plan and commit in between. *)
Definition system_commits (w w' : World) : Prop :=
  engine_step registry (bw_store w) (bw_store w') ∧ bw_boundary w' = bw_boundary w ∧
  bw_dispatches w' = bw_dispatches w.

Definition system_step :=
  pool_step (boundary_handle wire_decode codec_display system_dispatch) system_commits
    (boundary_program parse_rfc3339).
Definition system_start : World :=
  mkBoundaryWorld (MemoryState_default, []) MemoryBoundaryRuntimeState_default [].

Lemma engine_dispatch_steps request s s' r pending :
  (∀ lookup cfg, resolve lookup = Ok cfg → config_ok cfg) →
  (∀ tenant type version d, definitions tenant type version = Ok d → registered registry d) →
  engine_dispatch authorize resolve definitions credentials display request s = (s', r) →
  ∃ pending', rtc (engine_step registry) (s, pending) (s', pending').
Proof.
  intros Hcfg Hreg [[-> _]|(d & proofs & r1 & Hd & _ & _ & _ & _ & _ & _ & Hrun & _)]%engine_dispatch_cases;
    [by exists pending|].
  eapply handle_steps; [exact Hcfg|by eapply Hreg|exact Hrun].
Qed.

Lemma engine_step_grows (s s' : Store) : engine_step registry s s' → log_grows s s'.
Proof.
  destruct 1 as [s|s pending c s' r _ Hc]; [by exists []; rewrite app_nil_r|].
  by apply (memory_commit_grows encode_to_vec) in Hc as [_ Hc].
Qed.
Lemma engine_steps_grow (s s' : Store) : rtc (engine_step registry) s s' → log_grows s s'.
Proof.
  induction 1 as [s|s1 s2 s3 Hstep _ IH]; [by exists []; rewrite app_nil_r|].
  by eapply log_grows_trans; [apply engine_step_grows|].
Qed.

(** What the store satisfies in every state of the system. *)
Definition store_inv (w : World) : Prop :=
  engine_reachable registry (bw_store w) ∧ memory_inv encode_to_vec (bw_store w).1.

Lemma engine_step_store s s' :
  engine_step registry s s' → memory_inv encode_to_vec s.1 → memory_inv encode_to_vec s'.1.
Proof. destruct 1 as [|s pending c s' r _ Hc]; [done|]. by apply memory_inv_commit with (1 := Hc). Qed.
Lemma engine_steps_store s s' :
  rtc (engine_step registry) s s' → memory_inv encode_to_vec s.1 → memory_inv encode_to_vec s'.1.
Proof. induction 1; eauto using engine_step_store. Qed.

Lemma boundary_handle_store X (op : boundary_op MemoryBoundaryRuntimeState X) w x w' :
  boundary_handle wire_decode codec_display system_dispatch X op w x w' → store_inv w → store_inv w'.
Proof.
  destruct op as [A m|cursor limit|request|]; simpl.
  - by intros (b & _ & ->).
  - by intros [_ ->].
  - intros (s' & [_ Hsteps] & ->) [Hreach Hmem].
    split; [by eapply engine_reachable_rtc|by eapply engine_steps_store].
  - by intros ->.
Qed.

Lemma system_reached ps w :
  rtc system_step ([], system_start) (ps, w) →
  store_inv w ∧ projection_inv wire_decode codec_display w.
Proof.
  intros Hrun. split.
  - eapply (pool_invariant _ store_inv); [..|exact Hrun|].
    + intros X op w1 x w2. apply boundary_handle_store.
    + intros w1 w2 (Hstep & _) [Hreach Hmem].
      split; [by eapply engine_continue|by eapply engine_step_store].
    + split; [apply engine_start, example_started|apply memory_inv_default].
  - eapply (boundary_pool_inv wire_decode codec_display parse_rfc3339 system_dispatch);
      [| |eapply rtc_subrel; [|exact Hrun]].
    + intros s request x s' [_ Hsteps]. by apply engine_steps_grow.
    + split; [done|done|]. by intros k b.
    + intros s s' Hstep. inversion Hstep as [? i p p' ? w2 Hi Hcall|ps1 w1 w2 (Hs & Hb & Hd)|]; subst.
      * by eapply pool_call.
      * apply pool_env. split_and!; [by apply engine_step_grows|done|done].
      * by apply pool_spawn.
Qed.

(** ** The records of the log are the events of the streams *)
Definition log_decodes (s : MemoryState) : Prop := ∀ k e,
  e ∈ sv_stream (memory_view s) k →
  EventCodec_decode wire_decode (EventCodec_encode encode_to_vec e) = Ok e.

Lemma record_events_of k r e :
  announces encode_to_vec r e → envelope_key e = record_key r →
  EventCodec_decode wire_decode (EventCodec_encode encode_to_vec e) = Ok e →
  record_events wire_decode codec_display k r =
  if decide (k = record_key r) then [ee_event e] else [].
Proof.
  intros [Hid Hpay] Hkey Hdec. unfold record_events, projection_record.
  rewrite Hpay, Hdec. cbn [map_err mbind res_bind]. injection Hkey as Ht Hi.
  rewrite Hid, Ht, Hi, !bool_decide_false by (intros Hne; by apply Hne). simpl. unfold envelope_key. by rewrite Ht, Hi.
Qed.

Lemma records_of_cons k r l :
  records_of k (r :: l) = if decide (k = record_key r) then r :: records_of k l else records_of k l.
Proof. unfold records_of. simpl. case_decide; case_bool_decide; by subst. Qed.

Lemma log_events_stream s k :
  memory_inv encode_to_vec s → log_decodes s →
  (∀ k e, e ∈ sv_stream (memory_view s) k → envelope_key e = k) →
  log_events wire_decode codec_display k (ms_outbox s) = ee_event <$> sv_stream (memory_view s) k.
Proof.
  intros HM Hdec Hkey. pose proof (λ k, mi_streams _ _ HM k) as Hstream.
  change (∀ k, Forall2 (announces encode_to_vec) (records_of k (ms_outbox s))
    (sv_stream (memory_view s) k)) in Hstream. clear HM. unfold log_decodes in Hdec.
  revert Hstream Hdec Hkey. generalize (sv_stream (memory_view s)) as stream.
  induction (ms_outbox s) as [|r l IH]; intros stream Hstream Hdec Hkey.
  { specialize (Hstream k). by inversion Hstream. }
  pose proof (Hstream (record_key r)) as Hr. rewrite records_of_cons, decide_True in Hr by done.
  apply Forall2_cons_inv_l in Hr as (e & events & Hann & Hrest & He).
  assert (e ∈ stream (record_key r)) as Hin by (rewrite He; by left).
  simpl. rewrite (record_events_of k r e Hann (Hkey _ _ Hin) (Hdec _ _ Hin)).
  change (flat_map (record_events wire_decode codec_display k) l)
    with (log_events wire_decode codec_display k l).
  assert (∀ k' e', e' ∈ (if decide (k' = record_key r) then events else stream k') → e' ∈ stream k') as Hsub.
  { intros k' e'. case_decide as Hk; [|done]. subst k'. rewrite He. by right. }
  rewrite (IH (λ k', if decide (k' = record_key r) then events else stream k')); [| |by eauto..].
  - case_decide as Hk; [|done]. subst k. by rewrite He.
  - intros k'. specialize (Hstream k'). rewrite records_of_cons in Hstream.
    case_decide as Hk; [|done]. subst k'. exact Hrest.
Qed.

(** The projection of the log of a system state is the state of the core. *)
Lemma projected_core w k :
  store_inv w → log_decodes (bw_store w).1 →
  (∀ d, registered registry d → constructed d ∧ plain_scopes d) →
  let s := (bw_store w).1 in
  foldl project ∅ (log_events wire_decode codec_display k (ms_outbox s)) =
  st_active_boundary_subscriptions (replay_events (sv_stream (memory_view s) k)).
Proof.
  intros [Hreach HM] Hdec Hreg s. apply engine_reachable_inv in Hreach.
  rewrite log_events_stream; [|done|done|].
  - destruct (sy_streams _ _ Hreach k) as [[Hnil _]|(d & Hd & _)].
    + change (sv_stream (memory_view s) k = []) in Hnil. by rewrite Hnil.
    + destruct (Hreg d (hi_registered _ _ _ _ Hd)) as [Hok%constructed_ok Hplain].
      rewrite (decided_projects d); [|done|done|apply Hd].
      done.
  - intros k' e He. destruct (stream_history registry _ _ _ (sy_streams _ _ Hreach k') He)
      as (d & _ & (Ht & Hi & _) & _). destruct k'. by unfold envelope_key; simpl in *; subst.
Qed.
End system.


(** ** A run of the system *)
Definition offline_definitions (tenant : TenantId) (type : WorkflowType) (version : WorkflowVersion) :
    boundary_res WorkflowDefinition := ok_or (example_registry tenant type version) (DefinitionUnavailable "").
Definition offline_credentials (request : BoundaryDispatchRequest) :
    boundary_res BoundaryDispatchCredentials := Ok (mkCredentials "context" "svid" "events").
Definition no_dates (text : string) : option Z := None.
Definition no_text {E} (error : E) : string := "".
Definition wide_policy : BoundaryRuntimePolicy :=
  mkBoundaryRuntimePolicy 10 10 5 100 1000 10000000 256 "worker" 64 64 16.

Section offline.
Context (decode : string → Wire.EventEnvelope + string) (now : N).
Abbreviation World := (BoundaryWorld (S:=MemoryState * list CommitRequest)).

(** Answers to the calls of a worker that dispatches nothing. *)
Definition offline_answer {X} (op : boundary_op MemoryBoundaryRuntimeState X) (w : World) :
    option (X * World) :=
  match op in boundary_op _ X return option (X * World) with
  | StoreCall m => let '(b, x) := m (bw_boundary w) in
      Some (x, mkBoundaryWorld (bw_store w) b (bw_dispatches w))
  | ReadEvents cursor limit => Some (outbox_event_source decode no_text (bw_store w) cursor limit, w)
  | Dispatch _ => None
  | Now => Some (Ok now, w)
  end.
Fixpoint offline_run {A} (p : prog (boundary_op MemoryBoundaryRuntimeState) A) (w : World) :
    option (A * World) :=
  match p with
  | Done a => Some (a, w)
  | Vis op k => match offline_answer op w with
                | Some (x, w1) => offline_run (k x) w1
                | None => None
                end
  end.

Lemma offline_run_exec dispatcher {A} (p : prog _ A) w a w' :
  offline_run p w = Some (a, w') → exec (boundary_handle decode no_text dispatcher) p w a w'.
Proof.
  revert w. induction p as [b|X op k IH]; intros w; simpl; [by intros [= -> ->]|].
  destruct (offline_answer op w) as [[x w1]|] eqn:Hop; [|done]. intros Hrun.
  exists x, w1. split; [|by apply IH].
  destruct op as [B m|cursor limit|request|]; simpl in *.
  - destruct (m (bw_boundary w)) as [b y] eqn:Hm. injection Hop as <- <-. by exists b.
  - by injection Hop as <- <-.
  - done.
  - by injection Hop as <- <-.
Qed.
End offline.

Definition coded_store : MemoryState :=
  match example_plan "c1" (StartWorkflow "acme" 1) MemoryState_default with
  | Some c => (memory_commit id_encode c MemoryState_default).1
  | None => MemoryState_default
  end.
Definition coded_events : list EventEnvelope := default [] (ms_streams coded_store !! ("acme", "order-1")).
Definition coded_plans : list CommitRequest :=
  option_list (example_plan "c1" (StartWorkflow "acme" 1) MemoryState_default).
Definition coded_world : BoundaryWorld (S:=MemoryState * list CommitRequest) :=
  mkBoundaryWorld (coded_store, coded_plans) MemoryBoundaryRuntimeState_default [].
Abbreviation coded_turn policy :=
  (scheduler_turn no_dates (S:=MemoryBoundaryRuntimeState) policy;; mret tt).
Definition coded_end : option (res BoundaryRuntimeError unit * BoundaryWorld) :=
  offline_run (id_decode coded_events) 5 (coded_turn wide_policy) coded_world.
Abbreviation coded_step := (system_step id_encode (id_decode coded_events) no_text no_dates
  example_registry example_authorize example_resolve offline_definitions offline_credentials no_text).

Lemma coded_decodes e :
  e ∈ coded_events →
  EventCodec_decode (id_decode coded_events) (EventCodec_encode id_encode e) = Ok e.
Proof.
  intros He. apply wire_envelope_decodes.
  - apply id_bytes; [|done]. apply (bool_decide_unpack _). vm_compute. exact I.
  - assert (forallb wire_envelope coded_events = true) as Hall by (vm_compute; reflexivity).
    exact (proj1 (forallb_forall _ _) Hall e (proj1 (list_elem_of_In _ _) He)).
Qed.
Lemma coded_streams k : is_Some (ms_streams coded_store !! k) → k = ("acme", "order-1").
Proof.
  intros [events Hk%elem_of_map_to_list%(list_elem_of_fmap_2 fst)].
  assert ((map_to_list (ms_streams coded_store)).*1 = [("acme", "order-1")]) as Hkeys
    by (vm_compute; reflexivity).
  rewrite Hkeys in Hk. by apply list_elem_of_singleton in Hk.
Qed.
Lemma log_decodes_single encode_to_vec wire_decode s k0 :
  (∀ k, is_Some (ms_streams s !! k) → k = k0) →
  (∀ e, e ∈ default [] (ms_streams s !! k0) →
     EventCodec_decode wire_decode (EventCodec_encode encode_to_vec e) = Ok e) →
  log_decodes encode_to_vec wire_decode s.
Proof.
  intros Hkey Hdec k e He. simpl in He.
  destruct (ms_streams s !! k) as [events|] eqn:Hk; [|by apply not_elem_of_nil in He].
  apply Hdec. by rewrite <-(Hkey k), Hk.
Qed.
Lemma coded_log_decodes : log_decodes id_encode (id_decode coded_events) coded_store.
Proof. exact (log_decodes_single _ _ _ _ coded_streams coded_decodes). Qed.

Lemma coded_world_reached : rtc coded_step ([], system_start) ([], coded_world).
Proof.
  assert (match example_plan "c1" (StartWorkflow "acme" 1) MemoryState_default with
          | Some _ => true | None => false end = true) as Hok by (vm_compute; reflexivity).
  unfold coded_world, coded_store, coded_plans.
  destruct (example_plan _ _ _) as [c|] eqn:Hplan; [clear Hok|discriminate Hok].
  pose proof (example_plan_step _ _ _ [] _ Hplan) as Hstep.
  apply (rtc_l _ _ ([], mkBoundaryWorld (MemoryState_default, [c])
    MemoryBoundaryRuntimeState_default [])); [apply pool_env|].
  - split_and!; [|reflexivity..]. inversion Hstep; subst. eapply step_plan; eassumption.
  - apply rtc_once, pool_env. split_and!; [|reflexivity..].
    eapply step_commit; [apply list_elem_of_here|apply surjective_pairing].
Qed.

Lemma coded_end_store : option_map (λ x, bw_store x.2) coded_end = Some (coded_store, coded_plans).
Proof. vm_compute. reflexivity. Qed.
Lemma coded_end_checkpoint :
  option_map (λ x, mb_projection_checkpoint (bw_boundary x.2)) coded_end =
  Some (N.of_nat (length (ms_outbox coded_store))).
Proof. vm_compute. reflexivity. Qed.

Lemma coded_end_reached a w :
  coded_end = Some (a, w) → rtc coded_step ([], system_start) ([Done a], w).
Proof.
  unfold coded_end. intros Hrun.
  apply (offline_run_exec _ _ (system_dispatch id_encode example_registry example_authorize
    example_resolve offline_definitions offline_credentials no_text)) in Hrun.
  etrans; [exact coded_world_reached|].
  eapply rtc_l; [apply pool_spawn; left; by exists wide_policy|]. by apply exec_pool.
Qed.

Lemma example_registry_ok d :
  registered example_registry d → constructed d ∧ plain_scopes d.
Proof.
  unfold registered, example_registry. destruct (_ && _); [|done]. intros Hd. apply (inj Some) in Hd as <-.
  split; [exact example_constructed|exact definition_is_plain].
Qed.

