(* ===== verification/TimerTheorems.v ===== *)
(** * Theorems on timers and signals

    What a timer expression means, that a firing takes effect once, and that
    leases fence off workers that were overtaken; and three situations in
    which the boundary workers get stuck or act on the wrong timer. *)

From S2P Require Import Prelude Types Expr Coverage Config WorkflowDef Routing Text Evolve.
From S2P Require Import Activation Decide Invariant Loop Decisions Instance Errors Examples.
From S2P Require Import Effects Outbox Ports Engine EngineSpec Wire EventCodec MemoryStore.
From S2P Require Import BoundaryTimer Boundary BoundaryStore BoundarySpec BoundaryProofs.
From S2P Require Import BoundaryLeases BoundaryDispatch EngineTheorems CodecTheorems BoundaryTheorems.
From Stdlib Require Import Ascii.
From stdpp Require Import options.

(** ** Timer expressions *)

(** The duration parser computes exactly the ISO 8601 durations of weeks,
    days, hours, minutes and seconds: it answers a number of milliseconds if
    and only if the text after the P is a sequence of decimal components whose
    exact values, each cut to whole milliseconds, add up to that number, and
    the number is positive and fits 64 bits. *)
Theorem duration_parser_exact expression ms :
  parse_duration_ms expression = Ok ms ↔
  ∃ rest, trim expression = String "P"%char rest ∧ duration_text false rest ms ∧ (0 < ms ≤ u64_max)%N.
Proof. apply parse_duration_iff. Qed.

(** Whatever the expression, a schedule lies within the horizon of the
    policy: it is due no earlier than the arming and no later than the horizon
    after it, an interval is positive and within the horizon, a counted cycle
    has at least one firing, and a timer without an interval fires once. *)
Theorem timer_schedule_bounded parse_rfc3339 trigger armed policy schedule :
  timer_schedule parse_rfc3339 trigger armed policy = Ok (Some schedule) →
  schedule_ok armed (br_max_timer_horizon_ms policy) schedule.
Proof. apply timer_schedule_ok. Qed.

Lemma timer_schedule_bounded_witness :
  schedule_ok 7 10000000 (mkSchedule 90007 (Some 90000%N) (Some 3%N)).
Proof.
  exact (timer_schedule_bounded no_dates (Trigger_Timer Cycle "R3/PT1M30S") 7 wide_policy _ eq_refl).
Defined.

(** ** A firing takes effect once *)
Lemma timer_identity_inj armed generation armed' generation' :
  timer_identity armed generation = timer_identity armed' generation' →
  armed = armed' ∧ generation = generation'.
Proof.
  assert (∀ a g, timer_identity a g = (a +:+ String ":" "timer") +:+ String ":" (pretty g)) as Hsplit
    by (intros a g; by rewrite append_assoc).
  rewrite !Hsplit. intros H. apply last_separator in H as [Ha Hg]; [|by apply contains_pretty..].
  apply last_separator in Ha as [-> _]; [|done..]. by apply (inj pretty) in Hg.
Qed.

(** The claims are of the same firing of the same arming. *)
Record same_firing (claim claim' : ClaimedTimer) : Prop := {
  sf_key : ps_key (ct_subscription claim') = ps_key (ct_subscription claim);
  sf_type : ps_workflow_type (ct_subscription claim') = ps_workflow_type (ct_subscription claim);
  sf_version :
    ps_workflow_version (ct_subscription claim') = ps_workflow_version (ct_subscription claim);
  sf_armed : ps_armed_event_id (ct_subscription claim') = ps_armed_event_id (ct_subscription claim);
  sf_generation : ct_generation claim' = ct_generation claim }.

Lemma identifier_new_Ok kind value v : identifier_new kind value = Ok v → v = value.
Proof. unfold identifier_new. by destruct (is_blank value); intros [= <-]. Qed.

Lemma timer_request_fields claim now request :
  timer_dispatch_request claim now = Ok request →
  let sub := ct_subscription claim in
  let identity := timer_identity (ps_armed_event_id sub) (ct_generation claim) in
  (dr_tenant_id request, dr_instance_id request) = (ps_key sub).1 ∧
  dr_command_id request = identity ∧ dr_idempotency_key request = identity ∧
  dr_workflow_type request = ps_workflow_type sub ∧
  dr_workflow_version request = ps_workflow_version sub.
Proof.
  unfold timer_dispatch_request, dispatch_request. intros H.
  destruct (ps_key _) as [[tenant instance] b] eqn:Hk.
  apply bind_Ok in H as (c & Hc%map_err_Ok%identifier_new_Ok & H).
  apply bind_Ok in H as (i & Hi%map_err_Ok%identifier_new_Ok & H).
  apply bind_Ok in H as (x & _ & [= <-]). naive_solver.
Qed.


Definition timeout_subscription : ProjectedBoundarySubscription :=
  {| ps_key := ("acme", "order-1", "review_timeout");
     ps_attached_node_id := "review";
     ps_target_node_id := "rejected";
     ps_cancel_activity := true;
     ps_trigger := Trigger_Timer Duration "PT1H";
     ps_armed_at_epoch_ms := 1;
     ps_armed_event_id := "c1:3";
     ps_timer_schedule := Some (mkSchedule 3600001 None (Some 1%N));
     ps_workflow_type := "order";
     ps_workflow_version := "1" |}.
Definition timeout_claim (attempts lease_version : N) : ClaimedTimer :=
  mkClaimedTimer timeout_subscription 0 attempts lease_version.
Definition timeout_request (now : N) : BoundaryDispatchRequest :=
  {| dr_tenant_id := "acme";
     dr_instance_id := "order-1";
     dr_command_id := "c1:3:timer:0";
     dr_idempotency_key := "c1:3:timer:0";
     dr_correlation_id := "c1:3:timer:0";
     dr_command := TriggerBoundaryEvent "review_timeout" now;
     dr_source := Source_Timer;
     dr_occurred_at_epoch_ms := now;
     dr_workflow_type := "order";
     dr_workflow_version := "1";
     dr_authorization_context_ref := None |}.
Definition example_dispatch (now : N) : method MemoryState BoundaryRuntimeError unit :=
  engine_dispatch example_authorize example_resolve offline_definitions offline_credentials no_text
    (timeout_request now).
Definition store_fired : MemoryState := (example_dispatch 3600002 store_started).1.

Lemma timeout_requested attempts version now :
  timer_dispatch_request (timeout_claim attempts version) now = Ok (timeout_request now).
Proof. vm_compute. reflexivity. Qed.
Lemma store_fired_ok : (example_dispatch 3600002 store_started).2 = Ok tt.
Proof. vm_compute. reflexivity. Qed.


(** ** Leases *)

(** C31: A lease fences: when a timer that one worker has claimed is claimed
    again, by whichever worker and after whatever operations of the workers,
    the first claim can neither complete nor fail the timer any more; it gets
    a conflict and the store stays as it is. *)
Theorem overtaken_claims_are_refused s0 now until worker limit s1 claims c s2
    now' until' worker' limit' s3 claims' c' s4 completion retry dead :
  store_reachable s0 →
  memory_claim_due_timers now until worker limit s0 = (s1, Ok claims) → c ∈ claims →
  (ct_lease_version c < u64_max)%N → rtc worker_step s1 s2 →
  memory_claim_due_timers now' until' worker' limit' s2 = (s3, Ok claims') → c' ∈ claims' →
  ps_key (ct_subscription c') = ps_key (ct_subscription c) → rtc worker_step s3 s4 →
  memory_complete_timer c completion s4 = (s4, Err LeaseConflict) ∧
  memory_fail_timer c retry dead s4 = (s4, Err LeaseConflict).
Proof.
  intros Hreach Hclaim Hc Hmax Hsteps Hclaim' Hc' Hkey Hsteps'. apply refused_claim, stale_claim.
  pose proof (store_reachable_ok _ Hreach) as HI0.
  pose proof (claim_due_timers_ok _ _ _ _ _ _ _ Hclaim HI0) as HI1.
  destruct (claimed_timer _ _ _ _ _ _ _ c HI0 Hclaim Hc) as (t & _ & _ & Ht1 & Hct).
  assert (∀ t2, mb_timers s2 !! ps_key (ct_subscription c) = Some t2 →
    (ct_lease_version c ≤ mt_lease_version t2)%N) as H2.
  { eapply (worker_steps_timer _ s1 s2); [|done|].
    - intros t2 t2' Hm. eapply lease_version_grows; [lia|done].
    - intros t2. rewrite Ht1. intros [= <-]. by rewrite Hct. }
  assert (timers_ok s2) as HI2 by (eapply worker_steps_ok; done).
  destruct (claimed_timer _ _ _ _ _ _ _ c' HI2 Hclaim' Hc') as (t2 & Ht2 & _ & Ht3 & _).
  rewrite Hkey in Ht2, Ht3. specialize (H2 t2 Ht2).
  intros t4 Ht4. apply N.le_succ_l. revert t4 Ht4. eapply (worker_steps_timer _ s3 s4); [|done|].
  - intros t4 t4' Hm. eapply lease_version_grows; [lia|done].
  - intros t3. rewrite Ht3. intros [= <-]. simpl. unfold saturating_add. lia.
Qed.

(** A dead-lettered timer is out of reach of the workers: until the next
    projection it stays in the store as it is, and no claim returns it. *)
Theorem dead_lettered_timers_stay_dead s key t s' now until worker limit s'' claims :
  store_reachable s → mb_timers s !! key = Some t → mt_dead_lettered t = true →
  rtc worker_step s s' →
  mb_timers s' !! key = Some t ∧
  (memory_claim_due_timers now until worker limit s' = (s'', Ok claims) →
   Forall (λ c, ps_key (ct_subscription c) ≠ key) claims).
Proof.
  intros Hreach Ht Hdead Hsteps. pose proof (store_reachable_ok _ Hreach) as HI.
  pose proof (to_dead _ _ (HI _ _ Ht) Hdead) as Hw.
  assert (mb_timers s' !! key = Some t) as Ht'.
  { clear -Hsteps Ht Hdead Hw. induction Hsteps as [s|s1 s2 s3 Hstep _ IH]; [done|]. apply IH.
    pose proof (worker_step_timer _ _ key Hstep) as Hf. rewrite Ht in Hf.
    destruct (mb_timers s2 !! key) as [t2|]; [|done]. f_equal. by apply dead_timer_stays. }
  split; [done|]. intros Hclaim. apply Forall_forall. intros c Hc Hk.
  assert (timers_ok s') as HI' by (eapply worker_steps_ok; done).
  destruct (claimed_timer _ _ _ _ _ _ _ c HI' Hclaim Hc) as (t2 & Ht2 & Hdue & _).
  rewrite Hk, Ht' in Ht2. injection Ht2 as <-. unfold timer_due in Hdue. by rewrite Hdead in Hdue.
Qed.

(** ** A store with one timer *)
Definition store_armed : MemoryBoundaryRuntimeState :=
  (memory_apply_projection 0 3 [Upsert timeout_subscription] MemoryBoundaryRuntimeState_default).1.
Definition store_claimed : MemoryBoundaryRuntimeState :=
  (memory_claim_due_timers 3600001 3601001 "first" 10 store_armed).1.
Definition store_reclaimed : MemoryBoundaryRuntimeState :=
  (memory_claim_due_timers 3601001 3602001 "second" 10 store_claimed).1.
Definition store_dead : MemoryBoundaryRuntimeState :=
  (memory_fail_timer (timeout_claim 1 1) 3600100 true store_claimed).1.

Lemma store_armed_reachable : store_reachable store_armed.
Proof. apply rtc_once, store_project. Qed.
Lemma store_claimed_eq :
  memory_claim_due_timers 3600001 3601001 "first" 10 store_armed =
    (store_claimed, Ok [timeout_claim 1 1]).
Proof. vm_compute. reflexivity. Qed.
Lemma store_reclaimed_eq :
  memory_claim_due_timers 3601001 3602001 "second" 10 store_claimed =
    (store_reclaimed, Ok [timeout_claim 2 2]).
Proof. vm_compute. reflexivity. Qed.
Lemma store_dead_reachable : store_reachable store_dead.
Proof.
  eapply rtc_r; [|apply store_worker, worker_fail_timer].
  eapply rtc_r; [exact store_armed_reachable|apply store_worker, worker_claim_timers].
Qed.

Lemma overtaken_claims_are_refused_witness :
  memory_complete_timer (timeout_claim 1 1) None store_reclaimed = (store_reclaimed, Err LeaseConflict).
Proof.
  refine (proj1 (overtaken_claims_are_refused store_armed 3600001 3601001 "first" 10 store_claimed
    [timeout_claim 1 1] (timeout_claim 1 1) store_claimed 3601001 3602001 "second" 10 store_reclaimed
    [timeout_claim 2 2] (timeout_claim 2 2) store_reclaimed None 0 false store_armed_reachable
    store_claimed_eq _ _ _ store_reclaimed_eq _ _ _)).
  - by apply list_elem_of_singleton.
  - vm_compute. reflexivity.
  - apply rtc_refl.
  - by apply list_elem_of_singleton.
  - reflexivity.
  - apply rtc_refl.
Defined.

Lemma dead_lettered_timers_stay_dead_witness :
  match mb_timers store_dead !! ps_key timeout_subscription with
  | Some t => mb_timers (memory_claim_due_timers 9000000 9001000 "second" 10 store_dead).1
                !! ps_key timeout_subscription = Some t
  | None => False
  end.
Proof.
  assert (match mb_timers store_dead !! ps_key timeout_subscription with
          | Some t => mt_dead_lettered t | None => false end = true) as Hok by (vm_compute; reflexivity).
  destruct (mb_timers store_dead !! _) as [t|] eqn:Ht; [|discriminate Hok].
  refine (proj1 (dead_lettered_timers_stay_dead store_dead (ps_key timeout_subscription) t _ 0 0 "" 0
    store_dead [] store_dead_reachable Ht Hok _)).
  apply rtc_once, worker_claim_timers.
Defined.

(** ** Where the workers get stuck *)

(** A timer that cannot be scheduled stops the scheduler: while the next batch
    of the log holds such an arming, every turn of the scheduler fails before
    it reaches the timers and the signals of any instance, and nothing moves. *)
Theorem unschedulable_timer_blocks_scheduler {S} `{OutboxStorePort S} wire_decode display parse_rfc3339
    dispatcher policy (w : BoundaryWorld (S:=S)) records e a w' :
  let c := mb_projection_checkpoint (bw_boundary w) in
  let limit := N.to_nat (br_projection_batch_size policy) in
  outbox_event_source wire_decode display (bw_store w) c limit = Ok records →
  validate_projection_records records c limit = Ok tt →
  projection_mutations parse_rfc3339 policy records = Err e →
  exec (boundary_handle wire_decode display dispatcher)
    (scheduler_turn parse_rfc3339 (S:=MemoryBoundaryRuntimeState) policy) w a w' →
  a = Err e ∧ w' = w.
Proof.
  intros c limit Hread Hval Hmut (x & w1 & (b & [= <- <-] & ->) & Hrun). simpl in Hrun.
  destruct Hrun as (y & w2 & ([= ->] & ->) & Hrun). revert Hrun. simpl. fold c limit.
  rewrite Hread. simpl. fold c limit. rewrite Hval. simpl. rewrite Hmut. simpl.
  intros [<- ->]. by destruct w.
Qed.

(** The timer of the example workflow is an hour away, beyond the horizon of
    its own configuration: the definition is accepted and the instance starts,
    and from then on no scheduler turn succeeds. *)
Lemma horizon_blocks_scheduler :
  offline_run (id_decode coded_events) 5
    (scheduler_turn no_dates (S:=MemoryBoundaryRuntimeState) (en_boundary_runtime engine)) coded_world =
  Some (Err TimerHorizonExceeded, coded_world).
Proof. vm_compute. reflexivity. Qed.

(** A claim survives the re-arming of its boundary event: arming starts again
    with generation and lease version zero, and leases are compared on these
    alone. A worker that claimed an earlier arming therefore completes, and
    removes, the timer of the later one. *)
Definition rearmed_subscription : ProjectedBoundarySubscription :=
  {| ps_key := ps_key timeout_subscription;
     ps_attached_node_id := "review";
     ps_target_node_id := "rejected";
     ps_cancel_activity := true;
     ps_trigger := Trigger_Timer Duration "PT1H";
     ps_armed_at_epoch_ms := 3600500;
     ps_armed_event_id := "c7:9";
     ps_timer_schedule := Some (mkSchedule 7200500 None (Some 1%N));
     ps_workflow_type := "order";
     ps_workflow_version := "1" |}.
Definition store_rearmed : MemoryBoundaryRuntimeState :=
  (memory_apply_projection 3 9
     [DisarmAttached "acme" "order-1" "review"; Upsert rearmed_subscription] store_claimed).1.
Definition store_rearmed_claimed : MemoryBoundaryRuntimeState :=
  (memory_claim_due_timers 7200500 7201500 "second" 10 store_rearmed).1.

Theorem rearmed_timer_accepts_stale_claim :
  mt_subscription <$> mb_timers store_rearmed_claimed !! ps_key timeout_subscription =
    Some rearmed_subscription ∧
  ps_armed_event_id (ct_subscription (timeout_claim 1 1)) ≠ ps_armed_event_id rearmed_subscription ∧
  let '(s, r) := memory_complete_timer (timeout_claim 1 1) None store_rearmed_claimed in
  r = Ok tt ∧ mb_timers s !! ps_key timeout_subscription = None.
Proof. vm_compute. split; [reflexivity|]. split; [discriminate|]. split; reflexivity. Qed.

(** A signal that matches two subscriptions blocks the queue: it is neither
    retried with a count nor dead-lettered, so when it is the first due, every
    claim of correlations fails and leaves the store as it is. *)
Theorem ambiguous_signal_blocks_queue s now until worker limit max key keys record :
  due_signal_keys now limit s = key :: keys → mb_signals s !! key = Some record →
  let '(scanned, matches) := matching_subscriptions (mb_subscriptions s) (sr_signal record) in
  (scanned ≤ max)%nat → (2 ≤ length matches)%nat →
  memory_claim_correlations now until worker limit max s = (s, Err AmbiguousCorrelation).
Proof.
  intros Hdue Hrec. destruct (matching_subscriptions _ _) as [scanned matches] eqn:Hm.
  intros Hscan Htwo. unfold memory_claim_correlations. rewrite self_then, Hdue. cbn [lease_signals].
  rewrite self_then, lift_then, Hrec. cbn [ok_or]. cbv zeta. rewrite Hm, !bail_if_then.
  by rewrite (proj2 (Nat.ltb_ge _ _)), (proj2 (Nat.ltb_lt _ _)) by lia.
Qed.
