(* ===== verification/TaskTheorems.v ===== *)
(** * Theorems on tasks

    The remote queue behind consensus, and the local runtime that feeds it. *)

From S2P Require Import Prelude Effects Bytes RaftBatch RaftMachine RaftCluster StorageKeys Database.
From S2P Require Import Types Ports RocksRaft PayloadCrypto Wire RocksStore RocksSpec RocksProofs ReplicatedStore.
From S2P Require Import RaftStore TaskTypes RemoteTasks RemoteProofs RemoteListing RemoteLog RemoteNode.
From S2P Require Import RocksExamples RemoteExamples.
From stdpp Require Import options.

Section queue.
Context `{RaftTypes} {D : Type} `{!Database D} `{!LawfulDatabase D}.
Context `{!Message RemoteTaskRecord} `{!LawfulMessage RemoteTaskRecord}.
Context (sha256 : string → ValueDigest) (batch_json : PreparedAtomicBatch → option string).
Context (limits : StateMachineLimits) (log : list Entry).
Abbreviation remote_log := (remote_log (D:=D) sha256 batch_json limits log).
Abbreviation no_collisions := (no_collisions sha256 batch_json limits log).
Abbreviation prepared := (prepared (D:=D) sha256 batch_json limits log).
Abbreviation applied_at := (applied_at sha256 batch_json limits log).
Abbreviation records_at := (records_at sha256 batch_json limits log).
Abbreviation at_position := (at_position (D:=D) sha256 batch_json limits log).

(** C11: A lease of a remote task is exclusive, whichever nodes prepare the
    batches and on however old a state. A batch that ends a lease (completing,
    retrying or dead-lettering the task) is applied only while exactly that lease
    stands; of all batches that end the same lease one is applied at most; and
    every lease of the task taken later has a greater version. *)
Theorem remote_lease_is_exclusive i op b claim :
  remote_log → no_collisions → prepared op b → applied_at i b → ended_claim op = Some claim →
  (∃ r, task_at (records_at i) (claim_key claim) r ∧ validate_remote_lease r claim = Ok tt) ∧
  (∀ j op' b' claim', prepared op' b' → applied_at j b' → ended_claim op' = Some claim' →
     claim_key claim' = claim_key claim → cl_lease_version claim' = cl_lease_version claim → j = i) ∧
  (∀ j request b', prepared (Op_Claim request) b' → applied_at j b' → i < j →
     op_key (Op_Claim request) = claim_key claim →
     ∃ r, task_at (records_at (S j)) (claim_key claim) r ∧ (cl_lease_version claim < tr_lease_version r)%N).
Proof using LawfulDatabase0 LawfulMessage0.
  intros Hlog Hsha Hp Ha Hc. split_and!.
  - by eapply ended_at.
  - intros j op' b' claim' Hp' Ha' Hc' Hkey Hver. destruct (lt_eq_lt_dec i j) as [[Hlt|]|Hlt]; [exfalso|done|exfalso].
    + by eapply (lease_over _ _ _ _ Hlog Hsha i j op op').
    + by eapply (lease_over _ _ _ _ Hlog Hsha j i op' op).
  - intros j request b' Hp' Ha' Hij Hkey.
    destruct (ended_at _ _ _ _ Hlog Hsha _ _ _ _ Hp Ha Hc) as (_ & r & Hr & Hv & Hs).
    destruct (claimed_at _ _ _ _ Hlog Hsha _ _ _ Hp' Ha') as (r1 & r2 & Hr1 & Hr2 & _ & _ & ->).
    rewrite Hkey in Hr1, Hr2. eexists. split; [exact Hr2|]. simpl.
    pose proof Ha' as (e & _ & He & _). apply lookup_lt_Some in He.
    destruct (task_later _ _ _ _ Hlog Hsha (S i) j _ _ ltac:(lia) ltac:(lia) Hr) as (r1' & Hr1' & Hf).
    rewrite (task_at_inj _ _ _ _ Hr1' Hr1) in Hf. destruct Hf as [->|[[? _]|(? & _ & _)]]; lia.
Qed.


(** Of two claims of the same lease of a task, the one that comes second in the
    log is not answered with a failed precondition, which [claim_remote_task]
    takes as having lost the race: the scope of the two is the same and their
    identities differ, so it is rejected, and the caller gets an error. *)
Theorem lost_claim_race_is_an_error i j e request request' b b' :
  prepared (Op_Claim request) b → prepared (Op_Claim request') b' →
  pb_idempotency_scope b' = pb_idempotency_scope b → cm_assignment_id request' ≠ cm_assignment_id request →
  applied_at i b → i < j → log !! j = Some e → en_payload e = Payload_Normal b' →
  ∃ reason, RaftCluster.log_response (sha256:=sha256) (batch_json:=batch_json) limits log j =
    Some (Ok (rejected b' reason)).
Proof using LawfulDatabase0.
  intros (_ & d & d1 & _ & _ & Hp) (_ & d' & d1' & _ & _ & Hp') Hscope Hne (e0 & response & He0 & Hpay0 & Hresp & Hout)
    Hij He Hpay. simpl in Hp, Hp'.
  apply claim_Ok in Hp as (? & ? & _ & _ & _ & _ & _ & _ & _ & Hid & _).
  apply claim_Ok in Hp' as (? & ? & _ & _ & _ & _ & _ & _ & _ & Hid' & _).
  destruct (applied_scope_taken _ _ _ j _ _ _ He0 Hpay0 Hresp Hout Hij) as (_ & _ & Htaken).
  unfold RaftCluster.log_response. rewrite He. simpl. unfold RaftCluster.entry_response. rewrite Hpay. unfold im_apply.
  destruct (PreparedAtomicBatch_validate sha256 batch_json b' limits) as [[]|error|message] eqn:Hval.
  - rewrite Hscope, Htaken. exists "idempotency-scope-conflict". simpl. rewrite bool_decide_false; [done|].
    rewrite Hid, Hid'. by intros Heq.
  - by eexists.
  - by apply validate_no_panic in Hval.
Qed.
End queue.

Lemma remote_lease_is_exclusive_witness :
  ∃ r, task_at (toy_state log2) (claim_key pick_claim) r ∧ validate_remote_lease r pick_claim = Ok tt.
Proof.
  exact (proj1 (remote_lease_is_exclusive node_sha256 node_json node_limits pick_log 2 (Op_Complete pick_claim)
    complete_batch pick_claim pick_log_ok (toy_no_collisions pick_log) pick_finished pick_applied eq_refl)).
Defined.

Lemma toy_available (d : toy) : available d.
Proof.
  split; [done..|]. intros name from. apply Forall_forall. intros item Hitem.
  apply list_elem_of_fmap in Hitem as (x & -> & _). done.
Qed.

(** The race of two claims, evaluated. *)
Definition race_log : list Entry := log2 ++ [entry_of 3 (claim_batch "a2")].
Lemma lost_claim_race_example :
  RaftCluster.log_response (sha256:=node_sha256) (batch_json:=node_json) node_limits race_log 2
  = Some (Ok (rejected (claim_batch "a2") "idempotency-scope-conflict")).
Proof. by vm_compute. Qed.
(** A listing whose iteration began before a claim was applied and which reads the
    record after it fails, although the queue is in order at both times. *)
Theorem concurrent_claim_fails_listing :
  ready_remote_tasks (toy_state log1) (λ _, toy_state log2) 15 3
  = Err (Remote_Store "remote ready index and task record disagree").
Proof. by vm_compute. Qed.

(** ** Answers of a node *)
Section node.
Context `{RaftTypes} {D : Type} `{!Database D} `{!LawfulDatabase D}.
Context `{!Message RemoteTaskRecord} `{!LawfulMessage RemoteTaskRecord}.
Context (store_error : StoreError → string).
Context (sha256 : string → ValueDigest) (batch_json : PreparedAtomicBatch → option string).
Context (config : RaftConfig) (limits : StateMachineLimits).
Abbreviation queue_world := (queue_world (D:=D) sha256 batch_json limits authoritative_column_families).
Abbreviation handle := (raft_handle (sha256:=sha256) (batch_json:=batch_json) limits queue_world).
Abbreviation task_present := (task_present (D:=D) sha256 batch_json limits).
Abbreviation task_completed := (task_completed (D:=D) sha256 batch_json limits).
Abbreviation lease_ended := (lease_ended (D:=D) sha256 batch_json limits).
Abbreviation was_leased := (was_leased (D:=D) sha256 batch_json limits).

(** The call [p] is answered with [r] while the log grows. *)
Definition answered {A} (p : effect (raft_op D) RemoteTaskError A) (w : raft_world D)
    (r : res RemoteTaskError A) (w' : raft_world D) : Prop :=
  rtc (pool_step handle (λ w1 w2, queue_world w2 ∧ world_next w1 w2) (λ _, False)) ([p], w) ([Done r], w').

Lemma answered_safe {A} (Q : res RemoteTaskError A → raft_world D → Prop) p w r w' :
  queue_world w → safe handle queue_world world_next Q p w → answered p w r w' → Q r w'.
Proof using.
  intros Hw Hsafe Hrun.
  eapply (pool_safe handle queue_world world_next Q) in Hrun as (HI & _ & Hdone); [|done|done|by apply Forall_singleton|done].
  apply Forall_cons_1 in Hdone as [Hdone _]. exact (Hdone w' ltac:(done) HI).
Qed.

(** C12: What a node answers about remote tasks stands in the committed log,
    while other nodes work on the same queue. When enqueueing is answered, as new
    or as a duplicate, the queue holds the task from then on; a claim that is
    handed out was the lease of the task, for the assignment asked for; when
    completing is answered, the task is completed by that lease and stays so; when
    a failure is answered, the lease is over. *)
Theorem remote_answers_stand w w' :
  queue_world w →
  (∀ activation task r, RemoteTask_try_from activation = Ok task → task_ok task →
     answered (enqueue_remote_task store_error sha256 config activation) w r w' → is_ok r = true →
     task_present (remote_task_storage_key (rt_tenant_id task) (rt_task_id task)) w') ∧
  (∀ request claim, answered (claim_remote_task store_error sha256 config request) w (Ok (Some claim)) w' →
     cl_assignment_id claim = cm_assignment_id request ∧
     was_leased claim (remote_task_storage_key (cm_tenant_id request) (cm_task_id request)) w') ∧
  (∀ claim, (cl_lease_version claim ≤ u64_max)%N →
     answered (complete_remote_task store_error sha256 config claim) w (Ok tt) w' → task_completed claim w') ∧
  (∀ claim retry_at dead_letter r, (cl_lease_version claim ≤ u64_max)%N → (retry_at ≤ u64_max)%N →
     answered (fail_remote_task store_error sha256 config claim retry_at dead_letter) w r w' → is_ok r = true →
     lease_ended claim w').
Proof using LawfulDatabase0 LawfulMessage0.
  intros Hw. assert (remote_families ⊆ authoritative_column_families) as Hf
    by (apply (bool_decide_unpack _); by vm_compute).
  split_and!.
  - intros activation task r Htask Hok Hrun. by eapply answered_safe in Hrun; [|done|by eapply enqueue_safe].
  - intros request claim Hrun. eapply answered_safe in Hrun; [|done|by apply claim_safe]. by apply Hrun.
  - intros claim Hv Hrun. eapply answered_safe in Hrun; [|done|by apply complete_safe]. by apply Hrun.
  - intros claim retry_at dead_letter r Hv Ht Hrun. by eapply answered_safe in Hrun; [|done|by apply fail_safe].
Qed.
End node.

Definition leased_world : raft_world toy := mkRaftWorld log2 2 (toy_state log2).
Definition completed_world : raft_world toy := mkRaftWorld pick_log 3 (toy_state pick_log).
Abbreviation toy_world := (queue_world (D:=toy) node_sha256 node_json node_limits authoritative_column_families).
Definition toy_store_error (_ : StoreError) : string := "store".

Lemma log2_ok : remote_log (D:=toy) node_sha256 node_json node_limits log2.
Proof.
  intros e b He Hpay. left. unfold log2, log1 in He. cbn [app] in He.
  apply elem_of_cons in He as [->|He].
  { apply entry_payload in Hpay as ->. exists (Op_Enqueue pick_task), 0, (∅ : toy), (∅ : toy).
    split; [exact (toy_position log2 0)|]. split; [exact pick_task_ok|exact enqueue_prepared]. }
  apply elem_of_cons in He as [->|He]; [|by apply elem_of_nil in He].
  apply entry_payload in Hpay as ->. exists (Op_Claim (pick_request "a1")), 1, (toy_state log1), (toy_state log1).
  split; [exact (toy_position log2 1)|]. split; [by vm_compute|exact claim_prepared].
Qed.
Lemma leased_world_ok : toy_world leased_world.
Proof.
  split; [exact log2_ok|exact (toy_no_collisions log2)|by apply (Nat.leb_le 2 2)|].
  apply (bool_decide_unpack _). by vm_compute.
Qed.
Lemma completed_world_ok : toy_world completed_world.
Proof.
  split; [exact pick_log_ok|exact (toy_no_collisions pick_log)|by apply (Nat.leb_le 3 3)|].
  apply (bool_decide_unpack _). by vm_compute.
Qed.
Lemma remote_answers_stand_witness :
  task_completed (D:=toy) node_sha256 node_json node_limits pick_claim completed_world.
Proof.
  destruct (remote_answers_stand toy_store_error node_sha256 node_json (mkRaftConfig 16 3 1000) node_limits
    leased_world completed_world leased_world_ok) as (_ & _ & Hcomplete & _).
  apply Hcomplete; [by vm_compute|]. apply exec_pool.
  apply (exec_ask _ _ _ _ (toy_state log2) leased_world); [by split|].
  apply (exec_ask _ _ _ _ (toy_state log2) leased_world); [by split|].
  apply (exec_liftr _ _ _ _ complete_batch); [exact complete_prepared|].
  apply (exec_then _ _ _ _ (applied_response complete_batch) completed_world); [|by split].
  apply exec_bind. exists (Ok (applied_response complete_batch)), completed_world. split; [|by split].
  apply (exec_ask _ _ _ _ 0%N leased_world); [done|].
  apply (exec_then _ _ _ _ tt leased_world); [by apply (exec_ask _ _ _ _ true leased_world)|].
  apply (exec_ask _ _ _ _ 0%N leased_world); [done|].
  apply (exec_liftr _ _ _ _ tt); [done|].
  apply (exec_ask _ _ _ _ (Write_Applied (applied_response complete_batch)) completed_world); [|by split].
  split; [split; [by eexists|simpl; lia]|]. split; [exact completed_world_ok|].
  exists 2, (entry_of 3 complete_batch). split; [reflexivity|]. split; [reflexivity|].
  pose proof pick_answer as Hanswer. unfold RaftCluster.log_response in Hanswer. by apply (inj Some) in Hanswer.
Defined.

(** ** Commits and tasks in one log *)
Section shared.
Context `{RaftTypes} {D : Type} `{!Database D} `{!LawfulDatabase D}.
Context {C : Type} `{!PayloadCryptoPort C} `{!LawfulCrypto C}.
Context `{!Message EncryptedEventRecord, !Message EncryptedSnapshotRecord,
  !Message EncryptedAuthorizationAuditRecord, !Message StoredCommandResult, !Message OutboxEntry,
  !Message AuthorizationAuditRecord, !Message RemoteTaskRecord}.
Context `{!LawfulMessage EncryptedEventRecord, !LawfulMessage EncryptedSnapshotRecord,
  !LawfulMessage StoredCommandResult, !LawfulMessage OutboxEntry, !LawfulMessage RemoteTaskRecord}.
Context (encode_event : Wire.EventEnvelope → string)
  (decode_event : string → Wire.EventEnvelope + string)
  (encode_snapshot : Wire.WorkflowSnapshot → string)
  (decode_snapshot : string → Wire.WorkflowSnapshot + string).
Context (identifier_error : string → string).
Context (sha256 : string → ValueDigest) (batch_json : PreparedAtomicBatch → option string).
Context (limits : StateMachineLimits) (log : list Entry).
Abbreviation commit_ok := (commit_ok encode_event decode_event encode_snapshot decode_snapshot).
Abbreviation proposed := (proposed (D:=D) (C:=C) encode_event encode_snapshot identifier_error sha256).
Abbreviation store_log := (store_log (D:=D) (C:=C) encode_event decode_event encode_snapshot
  decode_snapshot identifier_error sha256).
Abbreviation realises := (realises (D:=D) (C:=C) encode_event decode_event encode_snapshot
  decode_snapshot identifier_error sha256 batch_json limits).
Abbreviation prepared := (prepared (D:=D) sha256 batch_json limits log).
Abbreviation remote_log := (remote_log (D:=D) sha256 batch_json limits log).

Lemma scope_disjoint tenant actor key rest :
  small tenant → idempotency_storage_key tenant actor key ≠ "remote-task" +:+ rest.
Proof using.
  intros [t Ht]%component_small Heq. unfold idempotency_storage_key in Heq. rewrite Ht in Heq.
  apply (f_equal (String.get 0)) in Heq. discriminate Heq.
Qed.
Lemma families_disjoint family : family ∈ remote_families → family ∉ DEDUP_CF :: store_families.
Proof using.
  assert (Forall (λ family, family ∉ DEDUP_CF :: store_families) remote_families) as Hall
    by (apply (bool_decide_unpack _); by vm_compute).
  rewrite Forall_forall in Hall. apply Hall.
Qed.
Lemma prepared_unrelated op b : prepared op b → unrelated b.
Proof using LawfulDatabase0.
  intros (j & d & d' & _ & Hop & Hprep). destruct (prepared_Ok _ _ _ _ _ Hprep Hop) as (Hfam & g & Hscope & _).
  split.
  - intros m Hm Hin. apply (families_disjoint _ (Hfam m Hm)). by right.
  - intros tenant actor key Hsmall Heq. rewrite Hscope in Heq. symmetry in Heq.
    by apply (scope_disjoint _ _ _ _ Hsmall) in Heq.
Qed.
Lemma proposed_other c b : commit_ok c → proposed c b → other_batch b.
Proof using LawfulDatabase0 LawfulCrypto0.
  intros Hc (crypto & d0 & d & Hprep). pose proof (prepare_workflow_batch_Ok _ _ _ _ _ _ _ _ _ Hprep) as Hp. split.
  - intros m Hm Hin. destruct (proposal_mutations _ _ _ _ _ _ Hp Hm) as [Hstore _].
    by apply families_disjoint in Hin.
  - intros [rest Hrest]. rewrite (pl_scope _ _ _ _ _ Hp) in Hrest.
    by apply (scope_disjoint _ _ _ _ (ck_small _ _ _ _ _ Hc)) in Hrest.
Qed.

End shared.

(** A commit, and then a task. *)
Definition shared_log : list Entry := [entry_of 1 first_batch; entry_of 2 enqueue_batch].
