(* ===== verification/LocalTheorems.v ===== *)
(** * Theorems on local tasks

    The workers of the local task runtime in any number, and the completion of
    tasks through the engine. *)

From S2P Require Import Prelude Types Config WorkflowDef Decide Examples Effects Outbox Ports Engine EngineSpec.
From S2P Require Import Wire EventCodec MemoryStore Boundary BoundaryTimer BoundaryDispatch TaskTypes LocalTasks.
From S2P Require Import LocalProofs TaskDispatch Bytes RaftBatch StorageKeys Database PayloadCrypto.
From S2P Require Import RocksStore RocksSpec RocksProofs RocksOutbox.
From S2P Require Import EngineTheorems CodecTheorems BoundaryTheorems TimerTheorems.
From stdpp Require Import options.

(** ** Retries only execute and wait *)
Lemma execute_attempts_only policy task remaining attempt backoff :
  only is_execution (execute_attempts policy task remaining attempt backoff).
Proof.
  revert attempt backoff. induction remaining as [|remaining IH]; intros attempt backoff; [done|].
  simpl. split; [done|]. intros [outcome|error|message]; [done| |done].
  destruct (attempt =? rp_max_attempts policy)%N; [done|]. apply only_bind; [by apply only_ask|]. intros _. apply IH.
Qed.
Lemma retrying_execute_only task : only is_execution (retrying_execute task).
Proof. apply only_bind; [by apply only_try|]. intros policy. apply execute_attempts_only. Qed.

Section runtime.
Context {S : Type} `{LawfulLocalTasks S}.
Context (decode_event : string → Wire.EventEnvelope + string).
Context (event_error : EventCodecError → string) (remote_error : RemoteTaskError → string).
Context (executes : LocalTaskActivation → res LocalTaskRuntimeError LocalTaskExecutionOutcome → Prop)
  (dispatches : LocalTaskActivation → res LocalTaskRuntimeError unit → Prop)
  (enqueues : LocalTaskActivation → res RemoteTaskError RemoteTaskEnqueueOutcome → Prop).

(** The programs of the server: workers of any batch sizes, whose retry
    policy may be replaced between any two executions. *)
Definition works (p : prog local_task_op unit) : Prop :=
  ∃ batch_sizes, p = local_task_worker decode_event event_error remote_error retrying_execute batch_sizes.

(** What holds in every reachable world. *)
Lemma reached_inv w ps w' :
  numbered_from 1 (outbox_log (lw_store w)) → local_cursor (lw_store w) = 0%N →
  rtc (pool_step (local_handle executes dispatches enqueues) local_grows works) ([], w) (ps, w') →
  local_inv decode_event event_error w'.
Proof.
  intros Hnum Hcur Hrun.
  assert (local_inv decode_event event_error w) as HI.
  { split; [done|rewrite Hcur; lia|]. intros r Hr Hle. apply (numbered_bounds _ _ _ Hnum) in Hr. lia. }
  eapply (pool_safe (local_handle executes dispatches enqueues) (local_inv decode_event event_error) local_rely
    (λ _ _, True)); [..|exact Hrun]; try done.
  - apply local_grows_safe.
  - intros p w1 (batch_sizes & ->) _. by apply local_worker_safe, retrying_execute_only.
Qed.

(** C13: No activation of a service or script task is skipped. Whatever the
    executor, the engine and the remote queue answer, however many workers run,
    stop or start, and however commits interleave with them: the event of every
    record at or below the checkpoint was decoded, and the task it activates, if
    any, had its completion accepted by the engine or was accepted by the remote
    queue. *)
Theorem activations_are_handed_over w ps w' :
  numbered_from 1 (outbox_log (lw_store w)) → local_cursor (lw_store w) = 0%N →
  rtc (pool_step (local_handle executes dispatches enqueues) local_grows works) ([], w) (ps, w') →
  ∀ r, r ∈ outbox_log (lw_store w') → (ob_cursor r ≤ local_cursor (lw_store w'))%N →
    ∃ envelope, decode_record decode_event event_error r = Ok envelope ∧
      ∀ task, activation (ob_cursor r) envelope = Some task → handed_over w' task.
Proof.
  intros Hnum Hcur Hrun. exact (li_handled _ _ _ (reached_inv _ _ _ Hnum Hcur Hrun)).
Qed.

(** A task that the engine refuses to complete and the remote queue refuses to take
    is never passed: the checkpoint stays before its record, and with it before
    all later ones. *)
Theorem refused_tasks_block_the_runtime w ps w' r envelope task :
  numbered_from 1 (outbox_log (lw_store w)) → local_cursor (lw_store w) = 0%N →
  lw_completed w = [] → lw_enqueued w = [] →
  rtc (pool_step (local_handle executes dispatches enqueues) local_grows works) ([], w) (ps, w') →
  r ∈ outbox_log (lw_store w') → decode_record decode_event event_error r = Ok envelope →
  activation (ob_cursor r) envelope = Some task →
  ¬ dispatches task (Ok tt) → (∀ outcome, ¬ enqueues task (Ok outcome)) →
  (local_cursor (lw_store w') < ob_cursor r)%N.
Proof.
  intros Hnum Hcur Hc He Hrun Hr Hdec Hact Hd Hq.
  assert (¬ handed_over w' task) as Hnot.
  { eapply (pool_invariant _ (λ w, ¬ handed_over w task)); [..|exact Hrun|].
    - intros X op w1 x w2 Hop Hw. destruct op; simpl in Hop.
      + by destruct Hop as [_ ->].
      + by destruct Hop as [_ ->].
      + by destruct Hop as (s' & _ & ->).
      + by destruct Hop as [_ ->].
      + destruct Hop as [Hx ->]. destruct x as [[]| |]; [|done..]. intros [Hin|Hin]; [|by apply Hw; right].
        simpl in Hin. apply elem_of_app in Hin as [Hin| ->%list_elem_of_singleton]; [by apply Hw; left|done].
      + destruct Hop as [Hx ->]. destruct x as [outcome| |]; [|done..]. intros [Hin|Hin]; [by apply Hw; left|].
        simpl in Hin. apply elem_of_app in Hin as [Hin| ->%list_elem_of_singleton]; [by apply Hw; right|by eapply Hq].
      + by subst.
      + by subst.
    - intros w1 w2 (new & _ & _ & _ & Hc2 & He2). unfold handed_over. by rewrite Hc2, He2.
    - unfold handed_over. rewrite Hc, He. by intros [?%not_elem_of_nil|?%not_elem_of_nil]. }
  destruct (decide (local_cursor (lw_store w') < ob_cursor r)%N) as [|Hge]; [done|exfalso].
  destruct (li_handled _ _ _ (reached_inv _ _ _ Hnum Hcur Hrun) r Hr) as (envelope' & Hdec' & Hall); [lia|].
  rewrite Hdec in Hdec'. apply (inj Ok) in Hdec' as <-. by apply Hnot, Hall.
Qed.
End runtime.

(** ** A run of a worker *)
(** The events of an order up to the fork, which activates a script task and a
    service task. *)
Definition order_commit (s : MemoryState) (step : string * Command) : MemoryState :=
  match example_plan step.1 step.2 s with
  | Some c => (memory_commit id_encode c s).1
  | None => s
  end.
Definition order_store : MemoryState :=
  foldl order_commit MemoryState_default (zip ["c1"; "c2"; "c3"; "c4"; "c5"] to_fork).
Definition order_decode : string → Wire.EventEnvelope + string :=
  id_decode (default [] (ms_streams order_store !! ("acme", "order-1"))).
Definition order_world : LocalWorld (S:=MemoryState) := mkLocalWorld order_store [] [].
Definition three_attempts : LocalTaskRetryPolicy := mkRetryPolicy 3 10 100 2000.
(** An executor that implements what it is asked for, and ports that accept. *)
Definition runs (task : LocalTaskActivation) (x : res LocalTaskRuntimeError LocalTaskExecutionOutcome) : Prop :=
  x = Ok Execution_Completed.
Definition accepts {X E A} (a : A) (task : X) (x : res E A) : Prop := x = Ok a.
Abbreviation order_handle := (local_handle runs (accepts tt) (accepts Task_Enqueued)).
Abbreviation order_worker batch_sizes :=
  (local_task_worker order_decode no_text no_text retrying_execute batch_sizes).

Definition order_answer {X} (op : local_task_op X) (w : LocalWorld (S:=MemoryState)) : X * LocalWorld :=
  match op in local_task_op X return X * LocalWorld with
  | LocalCheckpoint => (local_task_checkpoint (lw_store w), w)
  | LocalReadAfter c limit => (read_after (lw_store w) c limit, w)
  | CheckpointLocal expected committed =>
      let '(s', x) := checkpoint_local_task expected committed (lw_store w) in
      (x, mkLocalWorld s' (lw_completed w) (lw_enqueued w))
  | ExecuteTask task => (Ok Execution_Completed, w)
  | DispatchCompletion task => (Ok tt, mkLocalWorld (lw_store w) (lw_completed w ++ [task]) (lw_enqueued w))
  | EnqueueRemote task => (Ok Task_Enqueued, mkLocalWorld (lw_store w) (lw_completed w) (lw_enqueued w ++ [task]))
  | LocalWait _ => (tt, w)
  | PolicySnapshot => (Ok three_attempts, w)
  end.
Fixpoint order_run {A} (p : prog local_task_op A) (w : LocalWorld (S:=MemoryState)) : LocalWorld :=
  match p with
  | Done _ => w
  | Vis op k => let '(x, w1) := order_answer op w in order_run (k x) w1
  end.
Lemma order_run_exec (p : prog local_task_op unit) w : exec order_handle p w tt (order_run p w).
Proof.
  revert w. induction p as [[]|X op k IH]; intros w; [done|]. simpl.
  destruct (order_answer op w) as [x w1] eqn:Hop. exists x, w1. split; [|apply IH].
  destruct op; simpl in *; try (by injection Hop as <- <-).
  destruct (memory_checkpoint_local_task _ _ _) as [s' y]. injection Hop as <- <-. by exists s'.
Qed.
Definition order_end : LocalWorld := order_run (order_worker [8; 8; 8]) order_world.

Lemma activations_are_handed_over_witness :
  local_cursor (lw_store order_end) = N.of_nat (length (ms_outbox order_store)) ∧
  la_node_id <$> lw_completed order_end = ["ship"; "bill"] ∧
  ∀ r, r ∈ outbox_log (lw_store order_end) → (ob_cursor r ≤ local_cursor (lw_store order_end))%N →
    ∃ envelope, decode_record order_decode no_text r = Ok envelope ∧
      ∀ task, activation (ob_cursor r) envelope = Some task → handed_over order_end task.
Proof.
  split; [by vm_compute|]. split; [by vm_compute|].
  refine (activations_are_handed_over order_decode no_text no_text runs (accepts tt) (accepts Task_Enqueued)
    order_world [Done tt] order_end _ _ _).
  - vm_compute. tauto.
  - by vm_compute.
  - eapply rtc_l; [|exact (exec_pool _ _ _ _ _ _ _ (order_run_exec (order_worker [8; 8; 8]) order_world))].
    apply (pool_spawn _ _ _ []). by exists [8; 8; 8].
Defined.

(** ** Completions take effect once *)
Lemma remote_request_fields identifier_error claim outputs at_ms request :
  remote_completion_request identifier_error claim outputs at_ms = Ok request →
  dr_tenant_id request = rt_tenant_id (cl_task claim) ∧
  dr_command_id request = remote_task_identity claim ∧ dr_idempotency_key request = remote_task_identity claim.
Proof.
  unfold remote_completion_request. intros H. cbv zeta in H.
  apply bind_Ok in H as (c & ->%map_err_Ok%identifier_new_Ok & H).
  by apply bind_Ok in H as (k & ->%map_err_Ok%identifier_new_Ok & [= <-]).
Qed.

Section once.
Context {S : Type} `{LawfulStore S}.
Context (registry : TenantId → WorkflowType → WorkflowVersion → option WorkflowDefinition).
Context (authorize : AuthorizationRequest → res AuthorizationError AuthorizedPrincipal).
Context (resolve : ConfigurationLookup → res ConfigError ResolvedConfigSnapshot).
Context (definitions : TenantId → WorkflowType → WorkflowVersion → boundary_res WorkflowDefinition).
Context (credentials : BoundaryDispatchRequest → boundary_res BoundaryDispatchCredentials).
Context (resolve_for_workload : BoundaryDispatchRequest → string → boundary_res BoundaryDispatchCredentials).
Context (display : EngineError → string) (boundary_error : BoundaryRuntimeError → string)
  (identifier_error : IdentifierError → string).
Abbreviation dispatch_completion :=
  (dispatch_completion authorize resolve definitions credentials display boundary_error identifier_error).
Abbreviation complete_claim :=
  (complete_claim authorize resolve definitions resolve_for_workload display boundary_error identifier_error).

End once.

(** The shipping task of the order, as an activation and as a lease of a worker. *)
Definition fork_store : MemoryState :=
  foldl (λ s step, (example_handle step.1 step.2 s).1) MemoryState_default (zip ["c1"; "c2"; "c3"; "c4"; "c5"] to_fork).
Definition ship_task : LocalTaskActivation :=
  default (mkActivation 0 "" 0 "" "" "" "" "" Kind_Service "" "" "" 0 "" "" "") (head (lw_completed order_end)).
Definition ship_claim : RemoteTaskClaim :=
  mkClaim (mkRemoteTask "c5:20" "acme" "order-1" "order" "1" "ship" "ship" "c5:20" 20 5 "trace" "1" "1")
    "a1" "worker" "session" 1 1 20 "digest".
Definition ship_locally : method MemoryState LocalTaskRuntimeError unit :=
  TaskDispatch.dispatch_completion example_authorize example_resolve offline_definitions offline_credentials
    no_text no_text no_text ship_task.
Definition ship_remotely (at_ms : N) : method MemoryState RemoteTaskError unit :=
  TaskDispatch.complete_claim example_authorize example_resolve offline_definitions (λ request _, offline_credentials request)
    no_text no_text no_text ship_claim ∅ at_ms.
Lemma shipped_locally : (ship_locally fork_store).2 = Ok tt ∧
  length (ms_outbox fork_store) < length (ms_outbox (ship_locally fork_store).1).
Proof. vm_compute. split; [done|lia]. Qed.
Lemma shipped_remotely : (ship_remotely 7 fork_store).2 = Ok tt.
Proof. by vm_compute. Qed.


(** ** Attempts *)
Definition is_err {E A} (r : res E A) : bool := match r with Err _ => true | _ => false end.
(** An executor under a policy that answers its [n]-th call with [answers n]. *)
Definition counted (policy : LocalTaskRetryPolicy)
    (answers : nat → res LocalTaskRuntimeError LocalTaskExecutionOutcome) X
    (op : local_task_op X) (n : nat) : X → nat → Prop :=
  match op in local_task_op X return X → nat → Prop with
  | ExecuteTask _ => λ x n', x = answers n ∧ n' = S n
  | LocalWait _ => λ _ n', n' = n
  | PolicySnapshot => λ x n', x = Ok policy ∧ n' = n
  | _ => λ _ _, False
  end.
Lemma execute_attempts_run answers policy task remaining attempt backoff n a n' :
  N.of_nat remaining = (rp_max_attempts policy + 1 - attempt)%N → (1 ≤ attempt ≤ rp_max_attempts policy)%N →
  exec (counted policy answers) (execute_attempts policy task remaining attempt backoff) n a n' →
  n < n' ≤ n + remaining ∧ a = answers (n' - 1) ∧
  (∀ i, n ≤ i < n' - 1 → is_err (answers i) = true) ∧ (is_err a = true → n' = n + remaining).
Proof.
  revert attempt backoff n. induction remaining as [|remaining IH]; intros attempt backoff n Hrem Hatt; [lia|].
  simpl. intros (x & n1 & [-> ->] & Hrun). destruct (answers n) as [outcome|error|message] eqn:Hn.
  - destruct Hrun as [<- ->]. replace (S n - 1) with n by lia. rewrite Hn.
    split_and!; [lia|lia|done|intros i ?; lia|done].
  - destruct (N.eqb_spec attempt (rp_max_attempts policy)) as [Heq|Hne].
    + destruct Hrun as [<- ->]. replace (S n - 1) with n by lia. rewrite Hn.
      split_and!; [lia|lia|done|intros i ?; lia|intros _; lia].
    + simpl in Hrun. destruct Hrun as ([] & n2 & -> & Hrun). apply IH in Hrun as (Hlt & Ha & Hall & Hlast); [|lia..].
      split_and!; [lia|lia|done| |intros Herr; specialize (Hlast Herr); lia].
      intros i Hi. destruct (decide (i = n)) as [->|]; [by rewrite Hn|]. apply Hall. lia.
  - destruct Hrun as [<- ->]. replace (S n - 1) with n by lia. rewrite Hn.
    split_and!; [lia|lia|done|intros i ?; lia|done].
Qed.

(** A valid policy bounds the attempts: a task is executed at least once and at
    most as often as the policy says, again only after a failure, the answer is
    that of the last attempt, and a failure is given up on only after all the
    attempts. *)
Theorem attempts_follow_the_policy answers policy task a n :
  LocalTaskRetryPolicy_validate policy = Ok policy →
  exec (counted policy answers) (retrying_execute task) 0 a n →
  0 < n ≤ N.to_nat (rp_max_attempts policy) ∧ a = answers (n - 1) ∧
  (∀ i, i < n - 1 → is_err (answers i) = true) ∧ (is_err a = true → n = N.to_nat (rp_max_attempts policy)).
Proof.
  intros Hval Hrun. unfold LocalTaskRetryPolicy_validate in Hval. apply bind_Ok in Hval as ([] & Hval & _).
  apply bail_if_Ok in Hval. rewrite !orb_false_iff, !N.eqb_neq in Hval. destruct Hval as [[[? _] _] _].
  simpl in Hrun. destruct Hrun as (x & n1 & [-> ->] & Hrun).
  apply execute_attempts_run in Hrun as (? & ? & Hall & ?); [|lia..]. split_and!; [lia|lia|done| |done].
  intros i Hi. apply Hall. lia.
Qed.

(** ** The checkpoint on RocksDB *)
Section rocks.
Context {D : Type} `{!Database D} `{!LawfulDatabase D}.
Context `{!Message EncryptedEventRecord, !Message EncryptedSnapshotRecord,
  !Message EncryptedAuthorizationAuditRecord, !Message StoredCommandResult, !Message OutboxEntry,
  !Message AuthorizationAuditRecord}.
Context {C : Type} `{!PayloadCryptoPort C} `{!LawfulCrypto C}.
Context (encode_event : Wire.EventEnvelope → string) (decode_event : string → Wire.EventEnvelope + string)
  (encode_snapshot : Wire.WorkflowSnapshot → string) (decode_snapshot : string → Wire.WorkflowSnapshot + string).
Context (store_error : StoreError → string) (outbox_error : OutboxError → string).
Implicit Types (d : D) (g : RocksGhost).
Abbreviation represents := (represents (C:=C) encode_event decode_event encode_snapshot decode_snapshot).
Abbreviation checkpoint_local := (rocks_checkpoint_local_task store_error outbox_error).

Definition local_position (records : gmap StorageKey string) : res string N :=
  decode_u64_value (records !! (LOCAL_TASK_META_CF, LOCAL_TASK_CHECKPOINT_KEY)).
Lemma read_local_position d c :
  read_meta_u64 store_error d LOCAL_TASK_META_CF LOCAL_TASK_CHECKPOINT_KEY = Ok c → local_position (db_records d) = Ok c.
Proof using LawfulDatabase0.
  unfold read_meta_u64, local_position. intros H. apply bind_Ok in H as (_ & _ & H).
  by apply bind_Ok in H as (value & ->%db_get_law & H).
Qed.

(** The checkpoint of the local tasks on RocksDB keeps the contract the runtime
    relies on: what is read is where it stands, it moves only from the position
    the caller expects to a later one within the committed events, and neither
    changes anything of the workflow store. A failed write may have been made. *)
Theorem rocks_local_checkpoint_refines d g :
  represents (db_records d) g →
  (∀ c, rocks_local_task_checkpoint store_error d = Ok c → local_position (db_records d) = Ok c) ∧
  (∀ expected committed d' r, checkpoint_local expected committed d = (d', r) →
     represents (db_records d') g ∧
     (local_position (db_records d) = Ok expected ∧ local_position (db_records d') = Ok committed ∧
        (expected < committed ≤ N.of_nat (length (gh_outbox g)))%N
      ∨ is_ok r = false ∧ db_records d' = db_records d)).
Proof using LawfulDatabase0.
  intros Hrep. split; [intros c Hc%map_err_Ok; by apply read_local_position|].
  intros expected committed d' r Hrun. unfold rocks_checkpoint_local_task in Hrun. rewrite self_then, lift_then in Hrun.
  destruct (read_meta_u64 _ _ _ _) as [current| |] eqn:Hcur; [|injection Hrun as <- <-; by auto..].
  apply read_local_position in Hcur. simpl map_err in Hrun. cbn match in Hrun. rewrite lift_then in Hrun.
  destruct (read_outbox_u64 d OUTBOX_TAIL_KEY) as [tail| |] eqn:Htail; [|injection Hrun as <- <-; by auto..].
  eapply read_outbox_u64_Ok in Htail; [|apply (rp_tail _ _ _ _ _ _ Hrep)].
  simpl map_err in Hrun. cbn match in Hrun. rewrite bail_if_then in Hrun.
  destruct (N.eqb_spec current expected) as [Heq|]; cbn [negb] in Hrun; [|injection Hrun as <- <-; by auto].
  rewrite bail_if_then in Hrun. destruct (_ || _) eqn:Hrange; [injection Hrun as <- <-; by auto|].
  apply orb_false_iff in Hrange as [Hlow%N.leb_gt Hhigh%N.ltb_ge].
  rewrite lift_then in Hrun. destruct (store_cf d LOCAL_TASK_META_CF); [|injection Hrun as <- <-; by auto..].
  simpl map_err in Hrun. cbn match in Hrun. unfold put_local_checkpoint in Hrun.
  destruct (db_write _ d) as [d1 r1] eqn:Hw. injection Hrun as <- <-.
  apply db_write_law in Hw as [Hw|[Hr1 Hw]]; [|rewrite Hw; destruct r1; by auto].
  cbn [foldl apply_mutation_record] in Hw. split.
  - eapply represents_agree; [|exact Hrep]. intros key Hkey. rewrite Hw, lookup_insert_ne; [done|].
    intros <-. by apply (bool_decide_pack _) in Hkey.
  - left. split; [congruence|]. split; [|lia].
    unfold local_position. rewrite Hw, lookup_insert, decide_True by done. unfold decode_u64_value.
    pose proof (rp_outbox_bound _ _ _ _ _ _ Hrep). by rewrite u64_from_be_bytes by lia.
Qed.
End rocks.
